(* ===== verification/_CoqProject ===== *)
-Q . S2P
Prelude.v
MachineInt.v
Alloc.v
Traits.v
FreeList.v
FreeListProofs.v
DebugFreeList.v
Block.v
BlockPool.v
ProducerBase.v
ProducerBaseProofs.v
ExplicitProducer.v
Contents.v
Destruction.v
Fifo.v
ExplicitSpec.v
ExplicitIndex.v
ExplicitProofs.v
ExplicitBulk.v
ExplicitFindings.v
ExplicitInject.v
ExplicitEnqueueBulk.v
ExplicitQueue.v
ExplicitDestructor.v
ImplicitProducer.v
ImplicitSpec.v
ImplicitIndex.v
ImplicitProofs.v
ImplicitBulk.v
ImplicitRevert.v
ImplicitEnqueueBulk.v
ImplicitFill.v
ImplicitAtomic.v
ImplicitQueue.v
ImplicitDestructor.v
Semaphore.v
SemaphoreProofs.v
SystemSemaphore.v
SystemSemaphoreProofs.v
ThreadExit.v
ImplicitHash.v
ImplicitHashProofs.v
HashChain.v
HashSwap.v
SubQueues.v
SubQueuesProofs.v
ConcurrentQueue.v
QueueInvariant.v
QueueTokens.v
QueueThreads.v
Client.v
ClientProofs.v
ClientQueue.v
QueueDestructor.v
QueueSwap.v
Blocking.v
BlockingProofs.v
BlockingQueue.v
BlockingInner.v
CApi.v
MemStats.v
