(* ===== verification/Prelude.v ===== *)
(** * A verification of moodycamel::ConcurrentQueue

    The program (src/concurrentqueue.h, src/blockingconcurrentqueue.h,
    src/lightweightsemaphore.h, src/internal/concurrentqueue_internal_debug.h
    and the C interface of src/c_api/) is a queue for many producers and many
    consumers.  Each producer has a queue of its own, a linked list of blocks
    of elements; consumers choose among these sub-queues.  There are two kinds
    of sub-queue: an explicit one belongs to a [ProducerToken], an implicit one
    to a thread, which is found in a hash table.  Blocks come from a pool that
    all sub-queues share.  [BlockingConcurrentQueue] adds a semaphore, on which
    consumers can wait.

    ** How the program is modelled

    A member function is a computation of the monad [M] of this file: it maps a
    state to a value and a state ([Ok]), to a state from which a C++ exception
    propagates ([Throw]), or to a [Fault], which stands for an assertion that
    fails and for whatever C++ leaves undefined (null or dangling pointers,
    accesses out of range, reading storage without an object, constructing over
    one, a signed sum that overflows, writing to a token that is gone), and for
    a block that is freed while an element lives in it.  Operations of
    allocation, and constructors and assignments of the elements, may fail, as
    the parameters [malloc_ok] and [ElementOps] say.
    Integers are in [Z] and wrap around at the width of their C++ type, which
    is a parameter ([size_bits], [index_bits] in [Traits], the width of
    [time_t]).  [sizeof_Block] gives the size of an array of blocks, which is
    computed in [size_t].  What uninitialised flags contain is a parameter for
    each flag of each block ([Indeterminate]).  Pointers are addresses in [Z],
    objects live in finite maps from addresses.

    Where several threads matter to the algorithm, an operation is a program of
    atomic steps ([step], [claim_step], [sem_step], [blocking_step]), and any
    number of threads are interleaved arbitrarily: the free list, the claim of
    elements by consumers, the semaphore and the blocking queue.  Everything
    else is the sequential behaviour of the function.  Memory is sequentially
    consistent.

    ** The files

    - Prelude: the monad, its weakest preconditions [wp], lists, sums, and
      objects that are linked in a list through the heap ([linked]).
    - MachineInt: [circular_less_than], [ceil_to_pow_2], [align_for], the hash
      of a thread id.  Traits: [ConcurrentQueueDefaultTraits] and the
      [static_assert]s ([TraitsOk]).  Alloc: [aligned_malloc], [create], ...
    - FreeList, FreeListProofs: [FreeList], step by step, for any number of
      threads.  DebugFreeList: its replacement under a mutex.
    - Block: [Block] and its two protocols of emptiness.  BlockPool: the initial
      pool, the free list and the allocator behind [requisition_block].
    - ProducerBase, ProducerBaseProofs: the counters of a sub-queue, and how
      concurrent consumers claim elements.
    - ExplicitProducer: [ExplicitProducer], all of it.  ExplicitSpec (its
      invariant), ExplicitIndex (the block index), ExplicitProofs (enqueue,
      dequeue), ExplicitBulk (dequeue_bulk), ExplicitInject and
      ExplicitEnqueueBulk (enqueue_bulk: the blocks, then the elements),
      ExplicitQueue (the queue it implements), ExplicitDestructor (it gives all
      its blocks back), ExplicitFindings (where it breaks its promises).
    - ImplicitProducer: [ImplicitProducer], all of it.  ImplicitSpec,
      ImplicitIndex, ImplicitProofs, ImplicitBulk, and for enqueue_bulk
      ImplicitRevert, ImplicitEnqueueBulk, ImplicitFill and ImplicitAtomic;
      ImplicitQueue (the queue it implements), ImplicitDestructor.
    - Contents, Fifo, Destruction: what both kinds of sub-queue share: elements
      in a list of blocks, the blocks in use by others ([mem_frame]), the
      abstract FIFO queue that answers scripts of calls, and how the elements
      that are left are destroyed.
    - ThreadExit: [ThreadExitNotifier].  ImplicitHash, ImplicitHashProofs,
      HashChain: the hash table of the implicit producers.  HashSwap: how two
      queues exchange their chains of tables, each of which ends in a table that
      stays inside its queue.
    - SubQueues: the dequeue operations of [ConcurrentQueue] and consumer
      tokens, over the interface [SubQueues] of its producers.  SubQueuesProofs:
      what they do, proved from the laws [SubQueuesLaws] of the interface.
    - ConcurrentQueue: [ConcurrentQueue], with tokens, construction, destruction,
      move and swap.  QueueInvariant: its invariant, by which the producers of a
      queue satisfy [SubQueuesLaws].  QueueTokens: producer tokens, [enqueue] and
      [enqueue_bulk] with a token.  QueueThreads: the producers of threads,
      [enqueue] and [enqueue_bulk] without a token, and the exit of a thread.
      Client, ClientProofs, ClientQueue: the calls of clients, the abstract queue
      that answers them, and that the queue implements it.  QueueDestructor: the
      end of a queue's life.  QueueSwap: [swap] and the move constructor.
    - Semaphore, SemaphoreProofs: [LightweightSemaphore] over the semaphore of
      the operating system, an interface with laws; [os_reliable] says that its
      wait without a timeout ends only with a permit.  SystemSemaphore,
      SystemSemaphoreProofs: the wrapper [Semaphore] for Windows, Mach and POSIX
      over the calls of these systems, and that it implements the interface.
      Blocking, BlockingProofs: the protocol of [BlockingConcurrentQueue] over an
      inner queue that keeps the contract [InnerQueue] for as many calls as are
      to come.  BlockingQueue: the public functions around [ConcurrentQueue].
      BlockingInner: [ConcurrentQueue] keeps the contract, and what follows for
      the whole of [BlockingConcurrentQueue].
    - CApi: src/c_api/.  MemStats: [getMemStats].

    ** What the theorems show

    - The queue as a whole (ClientQueue, QueueDestructor): from its construction on
      it answers its clients -- with tokens, or as threads that come and exit, one element
      at a time or in bulk -- as a list of FIFO queues may, never faults, and
      conserves its elements; no block is lost, and its destructor frees
      everything.  When it is swapped or moved (QueueSwap), its clients continue
      with the object its state went to, as if nothing had happened.  Each
      dequeue operation and [size_approx] does what it says.
    - Each kind of sub-queue (ExplicitQueue, ImplicitQueue) answers every script
      of calls as one FIFO queue, whichever allocations fail and whichever
      operations of the elements throw.  The exceptions are those of the defects
      below: elements of an explicit sub-queue are made by constructors that do
      not throw, and [enqueue_bulk] is called where nothing can refuse blocks.
    - Concurrency: the free list never faults, hands a node to one thread only
      and loses none; claims of consumers are disjoint, consecutive and only of
      published elements; the semaphore neither grants too much nor forgets a
      waiter, and its counter never wraps around; a thread with a permit of the
      blocking queue finds an element.  The contract that this asks of the inner
      queue says how its calls change the number of its elements, not that a
      dequeue finds them; [ConcurrentQueue] keeps it when its calls are not
      interrupted, and then the element is found at the first try.
      The wrappers of the systems' semaphores do what the steps of
      [LightweightSemaphore] say, and a timed wait of POSIX, whose deadline [time_t]
      can represent, does not end early.
    - Hash table, thread exit, debug list, aligned allocation, deadlines: their
      functional behaviour.
    - Defects: ExplicitFindings and BlockingQueue prove, by running the model,
      that exceptions and failed allocations at certain points break promises
      that the comments of the source make; SystemSemaphoreProofs, that timeouts
      on Windows wrap around.  Three more show in the definitions, without a theorem:
      [create_array] does not check the size of the array, [wait_dequeue_bulk]
      of no elements fails the assertion of [waitMany(max)], and a [time_t] of 32
      bits truncates long timeouts.

    ** Fuel and bounds

    Loops over linked structures take as fuel the number of objects that exist
    (producers, listeners, tables, blocks), loops over a table its capacity,
    loops over an index range its length, spinning loops the number of rounds
    that the source allows, loops around a call of the operating system the
    number of answers that the system gives.  Running out of fuel is a [Fault],
    and every theorem excludes faults, so the fuel given is enough wherever a
    theorem applies; only where a call of the operating system is never
    answered, the theorems say that the thread waits in it.
    Theorems about sub-queues assume that blocks times the block size stays
    below half the range of [size_t]; a sub-queue of that length does not fit
    into the memory.  Those about the whole queue assume fewer than 2^32 calls of
    its clients, and that the size of the initial array of blocks, which the
    constructor computes from its capacity, is less than the range of [size_t]
    ([array_fits]): otherwise it wraps around, as the model's does, and the
    constructor writes behind what was allocated.  The theorems about claims
    assume that indices stay within half of their range of each other, those
    about the blocking queue bound the steps of the threads.

    ** Not modelled

    Memory orders and fences (the model is sequentially consistent);
    interleavings inside the operations of [ConcurrentQueue], other than those
    of its free list and of the claims of its consumers: a call of the inner
    queue is one step of the blocking queue; the calls
    of the operating systems (classes of functions with laws); macros that
    choose compilers and platforms; [is_lock_free]; benchmarks, tests, samples
    and build files.  When elements are trivially destructible but have a
    throwing constructor, the fast path of the bulk operations is modelled as
    written but its theorems ask that nothing throws. *)

From Stdlib Require Export ZArith Lia Bool.
From stdpp Require Export numbers prelude gmap list.

#[global] Open Scope Z_scope.

(** * The outcome monad

    A C++ member function becomes a state transformer whose result is a
    value ([Ok]), a propagating C++ exception ([Throw], with the state the
    exception handlers left behind) or a [Fault]: something the source rules
    out with an [assert], or whose behaviour C++ leaves undefined.  "The
    operation never faults" is therefore a safety theorem. *)

Inductive fault :=
  | NullDeref      (** dereference of a null or dangling pointer *)
  | AssertFailed   (** an [assert] of the source does not hold *)
  | OutOfBounds    (** array access out of range *)
  | BadObject      (** construction over a live object, or use or
                       destruction of storage that holds none *)
  | Leaked         (** storage is freed that still holds an object *)
  | Overflow       (** arithmetic of signed integers leaves their range *)
  | Terminates     (** an exception leaves a [noexcept] expression *)
  | OutOfFuel.     (** a loop ran longer than the fuel given to it *)

Inductive outcome (S A : Type) :=
  | Ok (a : A) (s : S)
  | Throw (s : S)
  | Fault (f : fault).
Arguments Ok {S A} a s.
Arguments Throw {S A} s.
Arguments Fault {S A} f.

Definition M (S A : Type) : Type := S -> outcome S A.

Definition ret {S A} (a : A) : M S A := fun s => Ok a s.

Definition bind {S A B} (m : M S A) (k : A -> M S B) : M S B := fun s =>
  match m s with
  | Ok a s' => k a s'
  | Throw s' => Throw s'
  | Fault f => Fault f
  end.

Definition gets {S A} (f : S -> A) : M S A := fun s => Ok (f s) s.
Definition modify {S} (f : S -> S) : M S unit := fun s => Ok tt (f s).
Definition faults {S A} (f : fault) : M S A := fun _ => Fault f.
Definition throw {S A} : M S A := fun s => Throw s.
Definition try_catch {S A} (m : M S A) (handler : M S A) : M S A := fun s =>
  match m s with
  | Throw s' => handler s'
  | r => r
  end.

(** [assert(b)]. *)
Definition cassert {S} (b : bool) : M S unit :=
  if b then ret tt else faults AssertFailed.

(** A lookup that C++ would dereference without a check. *)
Definition deref {S A} (f : fault) (o : option A) : M S A :=
  match o with Some a => ret a | None => faults f end.

(** Running a computation on one component of a larger state. *)
Definition zoom {S S' A} (view : S -> S') (set : S' -> S -> S)
    (m : M S' A) : M S A := fun s =>
  match m (view s) with
  | Ok a s' => Ok a (set s' s)
  | Throw s' => Throw (set s' s)
  | Fault f => Fault f
  end.

Declare Scope cpp_scope.
Delimit Scope cpp_scope with cpp.
Notation "'let!' x := m 'in' k" := (bind m (fun x => k))
  (at level 10, x name, m at level 100, k at level 200,
   format "'[v' 'let!'  x  :=  m  'in' '/' k ']'") : cpp_scope.
Notation "m ;; k" := (bind m (fun _ => k))
  (at level 100, k at level 200, format "'[v' m ;;  '/' k ']'") : cpp_scope.
#[global] Open Scope cpp_scope.

(** ** Addresses *)

(** Addresses of heap objects; [nullptr] is never the address of one. *)
Abbreviation loc := Z (only parsing).
Definition nullptr : loc := 0.

(** ** Linked lists *)

(** The heap objects [hs], linked by the field [nxt], form the list [l] from
    the pointer [p] on. *)
Section linked.
Context {H : Type} {nxt : H -> loc}.
Implicit Types (hs : gmap loc H) (p x : loc) (l : list loc).

Fixpoint linked hs p l : Prop :=
  match l with
  | [] => p = nullptr
  | x :: l => p = x /\ x <> nullptr /\ exists r, hs !! x = Some r /\ linked hs (nxt r) l
  end.

Lemma linked_in hs p l x : linked hs p l -> x ∈ l -> is_Some (hs !! x).
Proof using Type.
  revert p. induction l as [|y l IH]; intros p Hc Hx; [by apply not_elem_of_nil in Hx|].
  destruct Hc as (-> & Hy & r & Hr & Hc). apply elem_of_cons in Hx as [->|Hx]; eauto.
Qed.

Lemma linked_head hs p l : linked hs p l -> p = nullptr \/ is_Some (hs !! p).
Proof using Type. destruct l; simpl; [by left|]. intros (-> & _ & r & Hr & _). eauto. Qed.

Lemma linked_cons_inv hs p l :
  linked hs p l -> p <> nullptr -> exists r l', l = p :: l' /\ hs !! p = Some r /\ linked hs (nxt r) l'.
Proof using Type. destruct l as [|x l]; simpl; [done|]. intros (-> & _ & r & Hr & Hc) _. eauto. Qed.

(** The list depends on the links of its own objects only. *)
Lemma linked_frame hs hs' p l :
  linked hs p l ->
  (forall x r, x ∈ l -> hs !! x = Some r -> exists r', hs' !! x = Some r' /\ nxt r' = nxt r) -> linked hs' p l.
Proof using Type.
  revert p. induction l as [|x l IH]; intros p Hc Hf; [done|].
  destruct Hc as (-> & Hx & r & Hr & Hc). split; [done|]. split; [done|].
  destruct (Hf x r) as (r' & Hr' & E); [by left|done|]. exists r'. split; [done|].
  rewrite E. apply IH; [done|]. intros y ry Hy. apply Hf. by right.
Qed.

Lemma linked_insert hs p l x r : (x ∉ l) -> linked hs p l -> linked (<[x := r]> hs) p l.
Proof using Type.
  intros Hx Hc. eapply linked_frame; [done|]. intros y ry Hy Hry. exists ry. rewrite lookup_insert_ne; [done|]. by intros ->.
Qed.

Lemma linked_delete hs p l x : (x ∉ l) -> linked hs p l -> linked (delete x hs) p l.
Proof using Type.
  intros Hx Hc. eapply linked_frame; [done|]. intros y ry Hy Hry. exists ry. rewrite lookup_delete_ne; [done|]. by intros ->.
Qed.

Lemma linked_update hs p l x r r' : hs !! x = Some r -> nxt r' = nxt r -> linked hs p l -> linked (<[x := r']> hs) p l.
Proof using Type.
  intros Hx E Hc. eapply linked_frame; [done|]. intros y ry Hy Hry. destruct (decide (x = y)) as [->|].
  - exists r'. rewrite lookup_insert_eq. split; [done|]. congruence.
  - exists ry. by rewrite lookup_insert_ne.
Qed.

Lemma linked_fun hs p l l' : linked hs p l -> linked hs p l' -> l = l'.
Proof using Type.
  revert p l'. induction l as [|y l IH]; intros p [|y' l']; cbn; try done; [by intros -> (<- & ? & _)|by intros (<- & ? & _) ->|].
  intros (-> & _ & r & Hr & Hl) (-> & _ & r' & Hr' & Hl'). assert (r' = r) as -> by congruence. f_equal. by eapply IH.
Qed.

Lemma linked_middle hs p l1 x l2 : linked hs p (l1 ++ x :: l2) -> linked hs x (x :: l2).
Proof using Type.
  revert p. induction l1 as [|y l1 IH]; intros p; cbn [app]; [intros Hc; pose proof Hc as (-> & _); exact Hc|].
  intros (_ & _ & r & _ & Hl). by eapply IH.
Qed.

Lemma linked_next hs p l x r : linked hs p l -> x ∈ l -> hs !! x = Some r -> nxt r = nullptr \/ is_Some (hs !! nxt r).
Proof using Type.
  intros Hc (l1 & l2 & ->)%list_elem_of_split Hx. apply linked_middle in Hc as (_ & _ & r' & Hr' & Hl).
  assert (r' = r) as -> by congruence. by eapply linked_head.
Qed.

(** A list that ends visits no object twice. *)
Lemma linked_nodup hs p l : linked hs p l -> NoDup l.
Proof using Type.
  revert p. induction l as [|x l IH]; intros p Hc; [constructor|]. pose proof Hc as (_ & _ & r & _ & Hl).
  constructor; [|by eapply IH]. intros (l1 & l2 & E)%list_elem_of_split. apply (linked_middle _ _ [] x l) in Hc.
  rewrite E in Hl. apply linked_middle in Hl. pose proof (linked_fun _ _ _ _ Hc Hl) as E'.
  apply (f_equal length) in E', E. rewrite length_app in E. cbn in E', E. lia.
Qed.

Lemma linked_size hs p l : linked hs p l -> (length l <= size hs)%nat.
Proof using Type.
  intros Hc. rewrite <- size_dom, <- (size_list_to_set (C := gset loc) l) by (by eapply linked_nodup).
  apply subseteq_size. intros x Hx%elem_of_list_to_set. apply elem_of_dom. by eapply linked_in.
Qed.
End linked.
Arguments linked {H} nxt hs p l.

(** ** Weakest preconditions: total, fault-free, with a postcondition for
    normal and one for exceptional exit. *)

Definition wp {S A} (m : M S A) (Q : A -> S -> Prop) (E : S -> Prop) (s : S)
    : Prop :=
  match m s with
  | Ok a s' => Q a s'
  | Throw s' => E s'
  | Fault _ => False
  end.

(** No exception leaves the computation. *)
Definition nothrow {S} : S -> Prop := fun _ => False.

Section wp_rules.
Context {S : Type}.
Implicit Types s : S.

Lemma wp_ret {A} (a : A) (Q : A -> S -> Prop) E s :
  Q a s -> wp (ret a) Q E s.
Proof. done. Qed.

Lemma wp_bind {A B} (m : M S A) (k : A -> M S B) Q E s :
  wp m (fun a s' => wp (k a) Q E s') E s -> wp (bind m k) Q E s.
Proof. unfold wp, bind. by destruct (m s). Qed.

Lemma wp_gets {A} (f : S -> A) (Q : A -> S -> Prop) E s :
  Q (f s) s -> wp (gets f) Q E s.
Proof. done. Qed.

Lemma wp_modify (f : S -> S) (Q : unit -> S -> Prop) E s :
  Q tt (f s) -> wp (modify f) Q E s.
Proof. done. Qed.

Lemma wp_cassert (b : bool) (Q : unit -> S -> Prop) E s :
  b = true -> Q tt s -> wp (cassert b) Q E s.
Proof. by intros ->. Qed.

Lemma wp_deref {A} f (o : option A) a (Q : A -> S -> Prop) E s :
  o = Some a -> Q a s -> wp (deref f o) Q E s.
Proof. by intros ->. Qed.

Lemma wp_mono {A} (m : M S A) (Q Q' : A -> S -> Prop) (E E' : S -> Prop) s :
  wp m Q E s -> (forall a s', Q a s' -> Q' a s') ->
  (forall s', E s' -> E' s') -> wp m Q' E' s.
Proof. unfold wp. destruct (m s); auto. Qed.

Lemma wp_zoom {S' A} (view : S -> S') set (m : M S' A) Q E s :
  wp m (fun a c => Q a (set c s)) (fun c => E (set c s)) (view s) ->
  wp (zoom view set m) Q E s.
Proof. unfold wp, zoom. by destruct (m (view s)). Qed.

Lemma wp_if {A} (b : bool) (m1 m2 : M S A) Q E s :
  (b = true -> wp m1 Q E s) -> (b = false -> wp m2 Q E s) ->
  wp (if b then m1 else m2) Q E s.
Proof. destruct b; auto. Qed.

Lemma wp_try_catch {A} (m handler : M S A) Q E s :
  wp m Q (fun s' => wp handler Q E s') s -> wp (try_catch m handler) Q E s.
Proof. unfold wp, try_catch. by destruct (m s). Qed.

Lemma wp_seq {A} (a b : M S unit) (rest : M S A) Q E (s : S) :
  wp (a;; b) (fun _ s' => wp rest Q E s') E s -> wp (a;; b;; rest) Q E s.
Proof. unfold wp, bind. destruct (a s) as [? s1| |]; try done. by destruct (b s1). Qed.

Lemma wp_throw {A} (Q : A -> S -> Prop) (E : S -> Prop) s : E s -> wp throw Q E s.
Proof. done. Qed.

(** An operation whose weakest precondition excludes exceptions returns. *)
Lemma wp_nothrow_ok {A} (m : M S A) Q s :
  wp m Q nothrow s -> exists a s', m s = Ok a s' /\ Q a s'.
Proof. unfold wp. destruct (m s); [eauto | intros [] | intros []]. Qed.

Lemma wp_ok {A} (m : M S A) Q E s a s' :
  m s = Ok a s' -> Q a s' -> wp m Q E s.
Proof. unfold wp. by intros ->. Qed.
End wp_rules.

(** One step of symbolic execution. *)
Ltac wp_step :=
  lazymatch goal with
  | |- wp (bind _ _) _ _ _ => apply wp_bind
  | |- wp (ret _) _ _ _ => apply wp_ret; cbn beta
  | |- wp (gets _) _ _ _ => apply wp_gets; cbn beta
  | |- wp (modify _) _ _ _ => apply wp_modify; cbn beta
  | |- wp (cassert _) _ _ _ => apply wp_cassert
  | |- wp (zoom _ _ _) _ _ _ => apply wp_zoom
  | |- wp (deref _ _) _ _ _ => eapply wp_deref
  end.
Ltac wp_steps := repeat wp_step.

(** * Lists of integers and counting *)

Definition zsum (l : list Z) : Z := foldr Z.add 0 l.

Lemma zsum_cons x l : zsum (x :: l) = x + zsum l.
Proof. done. Qed.

Arguments zsum : simpl never.

Lemma zsum_app l k : zsum (l ++ k) = zsum l + zsum k.
Proof. induction l; simpl; rewrite ?zsum_cons; [done | lia]. Qed.

Section zsum_map.
Context {A : Type} (f : A -> Z).
Implicit Types l : list A.

Lemma zsum_insert l i x y :
  l !! i = Some x -> zsum (f <$> <[i := y]> l) = zsum (f <$> l) - f x + f y.
Proof.
  revert i. induction l as [|a l IH]; intros [|i] H; simplify_eq/=;
    rewrite ?zsum_cons; [lia|]. rewrite (IH _ H). lia.
Qed.

Lemma zsum_zero l : (forall x, x ∈ l -> f x = 0) -> zsum (f <$> l) = 0.
Proof.
  induction l as [|a l IH]; intros H; [done|]. rewrite fmap_cons, zsum_cons.
  rewrite IH by (intros; apply H; by right). rewrite (H a) by left. lia.
Qed.

Lemma zsum_le_length l :
  (forall x, f x <= 1) -> zsum (f <$> l) <= Z.of_nat (length l).
Proof using Type.
  intros Hf. induction l as [|a l IH]; [done|]. rewrite fmap_cons, zsum_cons. cbn [length].
  pose proof (Hf a). lia.
Qed.

Lemma zsum_nonneg_in l : (forall x, x ∈ l -> 0 <= f x) -> 0 <= zsum (f <$> l).
Proof using Type.
  induction l as [|a l IH]; intros H; [done|]. rewrite fmap_cons, zsum_cons.
  pose proof (H a ltac:(by left)). specialize (IH ltac:(intros; apply H; by right)). lia.
Qed.

Lemma zsum_elem_in l i x :
  (forall y, y ∈ l -> 0 <= f y) -> l !! i = Some x -> f x <= zsum (f <$> l).
Proof using Type.
  revert i. induction l as [|a l IH]; intros [|i] H Hi; simplify_eq/=; rewrite zsum_cons.
  - pose proof (zsum_nonneg_in l ltac:(intros; apply H; by right)). lia.
  - pose proof (H a ltac:(by left)). specialize (IH _ ltac:(intros; apply H; by right) Hi). lia.
Qed.

Context (Hf : forall x, 0 <= f x).

Lemma zsum_nonneg l : 0 <= zsum (f <$> l).
Proof using Hf.
  induction l as [|a l IH]; [done|]. rewrite fmap_cons, zsum_cons. pose proof (Hf a). lia.
Qed.

Lemma zsum_elem l i x : l !! i = Some x -> f x <= zsum (f <$> l).
Proof using Hf.
  revert i. induction l as [|a l IH]; intros [|i] H; simplify_eq/=; rewrite zsum_cons.
  - pose proof (zsum_nonneg l). lia.
  - pose proof (Hf a). specialize (IH _ H). lia.
Qed.
End zsum_map.

(** * Division with remainder through [lia] *)

Ltac zdm := Z.div_mod_to_equations; lia.

Lemma min_if a b : (if a <? b then a else b) = Z.min a b.
Proof. destruct (Z.ltb_spec a b); lia. Qed.

(** The residue of a number in the two periods around 0. *)
Lemma mod_cases N x : - N <= x < N -> x mod N = if x <? 0 then x + N else x.
Proof.
  intros Hx. destruct (Z.ltb_spec x 0).
  - symmetry. apply Z.mod_unique_pos with (-1); lia.
  - apply Z.mod_small. lia.
Qed.

(** Residues of numbers less than a period apart are distinct. *)
Lemma mod_inj N x y : - N < x - y < N -> x mod N = y mod N -> x = y.
Proof.
  intros Hxy E. pose proof (Z.div_mod x N ltac:(lia)). pose proof (Z.div_mod y N ltac:(lia)).
  assert (x / N = y / N) as Eq; [|lia].
  destruct (Z.lt_trichotomy (x / N) (y / N)) as [|[|]]; [exfalso|done|exfalso]; nia.
Qed.

(** Destructs existentials and conjunctions in the hypotheses. *)
Ltac deex :=
  repeat match goal with
  | H : exists x, _ |- _ => let x' := fresh x in destruct H as [x' H]
  | H : _ /\ _ |- _ => let H' := fresh H in destruct H as [H H']
  end.

Create HintDb cq discriminated.
#[export] Hint Resolve zsum_nonneg zsum_elem : cq.

(** * Loops *)

(** [for (i = start; i != start + n; ++i) body(i)] *)
Fixpoint for_range {S} (start : Z) (n : nat) (body : Z -> M S unit) : M S unit :=
  match n with
  | O => ret tt
  | S n => body start;; for_range (start + 1) n body
  end.

Lemma wp_for_range {St} (I : Z -> St -> Prop) start n body E (s : St) :
  I start s ->
  (forall i s', start <= i < start + Z.of_nat n -> I i s' ->
     wp (body i) (fun _ s'' => I (i + 1) s'') E s') ->
  wp (for_range start n body) (fun _ s' => I (start + Z.of_nat n) s') E s.
Proof.
  revert start s. induction n as [|n IH]; intros start s HI Hbody; cbn [for_range].
  { apply wp_ret. by rewrite Z.add_0_r. }
  apply wp_bind. eapply wp_mono; [apply Hbody; [lia|done]| |auto].
  intros ? s' HI'. replace (start + Z.of_nat (S n)) with (start + 1 + Z.of_nat n) by lia.
  apply IH; [done|]. intros i s'' Hi. apply Hbody. lia.
Qed.

(** * Integer-indexed arrays *)

(** [a[i]] for a C++ integer [i]. *)
Definition zlookup {A} (l : list A) (i : Z) : option A :=
  if decide (0 <= i) then l !! Z.to_nat i else None.
Definition zinsert {A} (i : Z) (x : A) (l : list A) : list A :=
  if decide (0 <= i) then <[Z.to_nat i := x]> l else l.
Definition zlength {A} (l : list A) : Z := Z.of_nat (length l).

Section zlist.
Context {A : Type}.
Implicit Types (l : list A) (x : A) (i : Z).

Lemma zlookup_Some_range l i x : zlookup l i = Some x -> 0 <= i < zlength l.
Proof.
  unfold zlookup, zlength. case_decide; [|done]. intros ?%lookup_lt_Some. lia.
Qed.

Lemma zlookup_is_Some l i : 0 <= i < zlength l -> is_Some (zlookup l i).
Proof.
  unfold zlookup, zlength. intros. rewrite decide_True by lia. apply lookup_lt_is_Some. lia.
Qed.

Lemma zlookup_zinsert_eq l i x : 0 <= i < zlength l -> zlookup (zinsert i x l) i = Some x.
Proof.
  unfold zlookup, zinsert, zlength. intros. rewrite !decide_True by lia.
  apply list_lookup_insert_eq. lia.
Qed.

Lemma zlookup_zinsert_ne l i j x : i <> j -> zlookup (zinsert i x l) j = zlookup l j.
Proof.
  unfold zlookup, zinsert. intros. repeat case_decide; try done.
  apply list_lookup_insert_ne. lia.
Qed.

Lemma zlength_nonneg l : 0 <= zlength l.
Proof. unfold zlength. lia. Qed.

Lemma zlength_app l k : zlength (l ++ k) = zlength l + zlength k.
Proof. unfold zlength. rewrite length_app. lia. Qed.

Lemma zlookup_app_l l k i : i < zlength l -> zlookup (l ++ k) i = zlookup l i.
Proof.
  unfold zlookup, zlength. intros. case_decide; [|done]. apply lookup_app_l. lia.
Qed.

Lemma zlength_zinsert l i x : zlength (zinsert i x l) = zlength l.
Proof. unfold zlength, zinsert. case_decide; [by rewrite length_insert|done]. Qed.

Lemma zinsert_zinsert l i x y : zinsert i x (zinsert i y l) = zinsert i x l.
Proof. unfold zinsert. case_decide; [apply list_insert_insert_eq|done]. Qed.

Lemma zlength_replicate n x : 0 <= n -> zlength (replicate (Z.to_nat n) x) = n.
Proof. intros. unfold zlength. rewrite length_replicate. lia. Qed.

Lemma zlookup_replicate n i x : 0 <= i < n -> zlookup (replicate (Z.to_nat n) x) i = Some x.
Proof.
  intros. unfold zlookup. rewrite decide_True by lia. apply lookup_replicate. split; [done|lia].
Qed.
End zlist.

Create Rewrite HintDb zlist.
#[export] Hint Rewrite @zlength_zinsert @zlength_replicate using lia : zlist.
#[export] Hint Rewrite @zlookup_zinsert_eq @zlookup_zinsert_ne using lia : zlist.

(** * Threads

    A pool of threads is a list of options: [None] is a thread between two
    calls, [Some p] one at the program point [p].  [thread_sum g] adds up what
    the running threads contribute. *)

Definition thread_sum {A} (g : A -> Z) (ths : list (option A)) : Z :=
  zsum (from_option g 0 <$> ths).

Section thread_sum.
Context {A : Type} (g : A -> Z).
Implicit Types ths : list (option A).

Lemma thread_sum_insert ths i o o' :
  ths !! i = Some o ->
  thread_sum g (<[i := o']> ths) = thread_sum g ths - from_option g 0 o + from_option g 0 o'.
Proof using Type. intros Hi. by apply zsum_insert. Qed.

Lemma thread_sum_idle ths :
  (forall i o, ths !! i = Some o -> o = None) -> thread_sum g ths = 0.
Proof using Type. intros H. apply zsum_zero. intros o [i Hi]%list_elem_of_lookup. by rewrite (H i o Hi). Qed.

Lemma thread_sum_zero ths :
  (forall i p, ths !! i = Some (Some p) -> g p = 0) -> thread_sum g ths = 0.
Proof using Type.
  intros H. apply zsum_zero. intros [p|] [i Hi]%list_elem_of_lookup; [|done]. by apply (H i).
Qed.

Lemma thread_sum_replicate n : thread_sum g (replicate n None) = 0.
Proof using Type. apply thread_sum_idle. intros i o Hi. by apply lookup_replicate in Hi as [-> _]. Qed.

Lemma thread_sum_nonneg ths : (forall p, 0 <= g p) -> 0 <= thread_sum g ths.
Proof using Type. intros H. apply zsum_nonneg. by intros [p|]; cbn. Qed.

Lemma thread_sum_elem ths i p :
  (forall p, 0 <= g p) -> ths !! i = Some (Some p) -> g p <= thread_sum g ths.
Proof using Type.
  intros H Hi. apply (zsum_elem (from_option g 0)) in Hi; [done|]. by intros [q|]; cbn.
Qed.

Lemma thread_sum_bound ths : (forall p, g p <= 1) -> thread_sum g ths <= Z.of_nat (length ths).
Proof using Type. intros H. apply zsum_le_length. intros [p|]; cbn; [done|lia]. Qed.
End thread_sum.
