(* ===== verification/MachineInt.v ===== *)
(** Machine integers and the free functions of namespace [details]
    (src/concurrentqueue.h): unsigned words of a given width as [Z] with the
    wrap-around written out, [circular_less_than], [ceil_to_pow_2],
    [align_for], [const_numeric_max] and the MurmurHash3 finalizers. *)

From Stdlib Require Import Znumtheory Zpow_facts.
From S2P Require Import Prelude.

(** * Words *)

(** Conversion to an unsigned type of [w] bits. *)
Definition wrap (w x : Z) : Z := x mod 2 ^ w.

(** The bitwise complement [~x] at width [w]. *)
Definition unot (w x : Z) : Z := wrap w (Z.lnot x).

(** Conversion of a [w]-bit word to the signed type of the same width
    ([std::make_signed]). *)
Definition to_signed (w x : Z) : Z :=
  if wrap w x <? 2 ^ (w - 1) then wrap w x else wrap w x - 2 ^ w.

(** The result of an operation on signed integers of [w] bits. *)
Definition signed_result {S} (w x : Z) : M S Z :=
  if (- 2 ^ (w - 1) <=? x) && (x <? 2 ^ (w - 1)) then ret x else faults Overflow.

Lemma wp_signed_result {S} w x (Q : Z -> S -> Prop) E s :
  - 2 ^ (w - 1) <= x < 2 ^ (w - 1) -> Q x s -> wp (signed_result w x) Q E s.
Proof.
  intros [H1%Z.leb_le H2%Z.ltb_lt] HQ. unfold signed_result. by rewrite H1, H2.
Qed.

Section words.
Context {w : Z} (Hw : 0 < w).

Lemma pow_half : 2 ^ w = 2 * 2 ^ (w - 1).
Proof using Hw. rewrite <- Z.pow_succ_r by lia. f_equal. lia. Qed.

Lemma pow_half_pos : 0 < 2 ^ (w - 1).
Proof using Hw. apply Z.pow_pos_nonneg; lia. Qed.

Lemma pow_pos : 0 < 2 ^ w.
Proof using Hw. apply Z.pow_pos_nonneg; lia. Qed.

Lemma wrap_range x : 0 <= wrap w x < 2 ^ w.
Proof using Hw. apply Z.mod_pos_bound, pow_pos. Qed.

Lemma wrap_small x : 0 <= x < 2 ^ w -> wrap w x = x.
Proof. apply Z.mod_small. Qed.

Lemma wrap_wrap x : wrap w (wrap w x) = wrap w x.
Proof using Hw. apply wrap_small, wrap_range. Qed.

Lemma wrap_add_l x y : wrap w (wrap w x + y) = wrap w (x + y).
Proof. apply Zplus_mod_idemp_l. Qed.

Lemma wrap_add_r x y : wrap w (x + wrap w y) = wrap w (x + y).
Proof. apply Zplus_mod_idemp_r. Qed.

Lemma wrap_sub_l x y : wrap w (wrap w x - y) = wrap w (x - y).
Proof. apply Zminus_mod_idemp_l. Qed.

Lemma wrap_sub_r x y : wrap w (x - wrap w y) = wrap w (x - y).
Proof. apply Zminus_mod_idemp_r. Qed.

Lemma wrap_mod_pow2 k x : 0 <= k <= w -> wrap w x mod 2 ^ k = x mod 2 ^ k.
Proof.
  intros. unfold wrap. replace w with (k + (w - k)) by lia.
  rewrite Z.pow_add_r by lia.
  pose proof (Z.pow_pos_nonneg 2 k). pose proof (Z.pow_pos_nonneg 2 (w - k)).
  rewrite Z.rem_mul_r by lia. rewrite Z.mul_comm, Z_mod_plus_full. by rewrite Z.mod_mod by lia.
Qed.

Lemma wrap_eq_small x y : 0 <= x - y < 2 ^ w -> wrap w x = wrap w y -> x = y.
Proof using Hw.
  intros Hr E. pose proof pow_pos.
  assert (wrap w (x - y) = 0) as H0.
  { rewrite <- wrap_sub_l, E, wrap_sub_l, Z.sub_diag. apply Z.mod_0_l. lia. }
  rewrite wrap_small in H0 by done. lia.
Qed.

Lemma to_signed_small x :
  - 2 ^ (w - 1) <= x < 2 ^ (w - 1) -> to_signed w x = x.
Proof using Hw.
  intros Hx. unfold to_signed. pose proof pow_half. pose proof pow_half_pos.
  destruct (decide (0 <= x)).
  - rewrite wrap_small by lia. by rewrite (proj2 (Z.ltb_lt _ _)) by lia.
  - assert (wrap w x = x + 2 ^ w) as ->.
    { symmetry. apply Z.mod_unique_pos with (-1); lia. }
    rewrite (proj2 (Z.ltb_ge _ _)) by lia. lia.
Qed.

Lemma to_signed_wrap_small x :
  - 2 ^ (w - 1) <= x < 2 ^ (w - 1) -> to_signed w (wrap w x) = x.
Proof using Hw.
  intros Hx. rewrite <- (to_signed_small x) at 2 by done. unfold to_signed. by rewrite wrap_wrap.
Qed.
End words.

Create Rewrite HintDb wrap.
#[export] Hint Rewrite @wrap_add_l @wrap_add_r @wrap_sub_l @wrap_sub_r : wrap.

(** ** Masks by a power of two *)

Lemma land_mask k x : 0 <= k -> Z.land x (2 ^ k - 1) = x mod 2 ^ k.
Proof. intros. rewrite <- Z.land_ones by done. f_equal. rewrite Z.ones_equiv. lia. Qed.

Lemma land_mask_range k x : 0 <= k -> 0 <= Z.land x (2 ^ k - 1) < 2 ^ k.
Proof.
  intros. rewrite land_mask by done. apply Z.mod_pos_bound, Z.pow_pos_nonneg; lia.
Qed.

(** [x & ~(2^k - 1)] rounds down to a multiple of [2^k]. *)
Lemma land_unot_mask w k x :
  0 <= k <= w -> 0 <= x < 2 ^ w ->
  Z.land x (unot w (2 ^ k - 1)) = x - x mod 2 ^ k.
Proof.
  intros Hk Hx. unfold unot, wrap. rewrite <- (Z.land_ones (Z.lnot _)) by lia.
  rewrite (Z.land_comm (Z.lnot _)), Z.land_assoc.
  rewrite (Z.land_ones x w), (Z.mod_small x) by lia.
  rewrite <- Z.ldiff_land. replace (2 ^ k - 1) with (Z.ones k) by (rewrite Z.ones_equiv; lia).
  rewrite Z.ldiff_ones_r, Z.shiftr_div_pow2, Z.shiftl_mul_pow2 by lia.
  pose proof (Z.pow_pos_nonneg 2 k). zdm.
Qed.

(** * [circular_less_than] *)

Definition circular_less_than (w a b : Z) : bool :=
  wrap w (Z.shiftl 1 (w - 1)) <? wrap w (a - b).

Section circular.
Context {w : Z} (Hw : 0 < w).

Lemma circular_less_than_eq a b :
  circular_less_than w a b = (2 ^ (w - 1) <? wrap w (a - b)).
Proof using Hw.
  unfold circular_less_than. rewrite Z.shiftl_mul_pow2, Z.mul_1_l by lia.
  rewrite (wrap_small (2 ^ (w - 1))); [done|].
  pose proof (pow_half Hw). pose proof (pow_half_pos Hw). lia.
Qed.

(** The comparison of two wrapped counters is the comparison of the
    counters themselves as long as they are less than half the range
    apart. *)
Lemma circular_less_than_wrap x y :
  - 2 ^ (w - 1) < x - y <= 2 ^ (w - 1) ->
  circular_less_than w (wrap w x) (wrap w y) = (x <? y).
Proof using Hw.
  intros H. rewrite circular_less_than_eq, wrap_sub_l, wrap_sub_r.
  pose proof (pow_half Hw). pose proof (pow_half_pos Hw).
  destruct (Z.ltb_spec x y).
  - assert (wrap w (x - y) = x - y + 2 ^ w) as ->.
    { symmetry. apply Z.mod_unique_pos with (-1); lia. }
    apply Z.ltb_lt. lia.
  - rewrite wrap_small by lia. apply Z.ltb_ge. lia.
Qed.

Lemma circular_less_than_irrefl a : circular_less_than w a a = false.
Proof using Hw.
  rewrite circular_less_than_eq, Z.sub_diag. unfold wrap.
  rewrite Z.mod_0_l by (pose proof (pow_pos Hw); lia).
  apply Z.ltb_ge. pose proof (pow_half_pos Hw). lia.
Qed.
End circular.

(** * [ceil_to_pow_2] *)

(** The loop [for (i = 1; i < sizeof(T); i <<= 1) x |= x >> (i << 3)], with
    [bytes] for [sizeof(T)]; [n] bounds the iterations (the loop runs
    [log2 bytes] times). *)
Fixpoint ceil_to_pow_2_loop (n : nat) (bytes i x : Z) : Z :=
  match n with
  | O => x
  | S n =>
      if i <? bytes
      then ceil_to_pow_2_loop n bytes (Z.shiftl i 1)
             (Z.lor x (Z.shiftr x (Z.shiftl i 3)))
      else x
  end.

Definition ceil_to_pow_2 (bytes x : Z) : Z :=
  let w := 8 * bytes in
  let x := wrap w (x - 1) in
  let x := Z.lor x (Z.shiftr x 1) in
  let x := Z.lor x (Z.shiftr x 2) in
  let x := Z.lor x (Z.shiftr x 4) in
  let x := ceil_to_pow_2_loop (Z.to_nat bytes) bytes 1 x in
  wrap w (x + 1).

(** [y] is [x] with every bit spread to the [n] positions from it
    downwards. *)
Definition spread (n x y : Z) : Prop :=
  forall i, 0 <= i ->
    Z.testbit y i = true <-> exists j, 0 <= j < n /\ Z.testbit x (i + j) = true.

Lemma spread_init x : spread 1 x x.
Proof.
  intros i Hi. split.
  - exists 0. rewrite Z.add_0_r. split; [lia|done].
  - intros (j & ? & H). by replace (i + j) with i in H by lia.
Qed.

Lemma spread_double n x y :
  0 < n -> spread n x y -> spread (2 * n) x (Z.lor y (Z.shiftr y n)).
Proof.
  intros Hn Hs i Hi. rewrite Z.lor_spec, Z.shiftr_spec by done.
  rewrite orb_true_iff, (Hs i), (Hs (i + n)) by lia. split.
  - intros [(j & ? & H)|(j & ? & H)].
    + exists j. split; [lia|done].
    + exists (n + j). split; [lia|]. by rewrite Z.add_assoc.
  - intros (j & ? & H). destruct (decide (j < n)).
    + left. exists j. split; [lia|done].
    + right. exists (j - n). split; [lia|]. by replace (i + n + (j - n)) with (i + j) by lia.
Qed.

(** Spread over its whole width a positive number becomes all ones. *)
Lemma spread_full n x y :
  0 <= y -> 0 < x < 2 ^ n -> spread n x y -> y = 2 ^ (Z.log2 x + 1) - 1.
Proof.
  intros Hy Hx Hs. pose proof (Z.log2_nonneg x).
  assert (Z.log2 x < n) by (apply Z.log2_lt_pow2; lia).
  rewrite Z.sub_1_r, <- Z.ones_equiv. apply Z.bits_inj'. intros i Hi.
  destruct (decide (i <= Z.log2 x)) as [Hle|Hgt].
  - rewrite Z.ones_spec_low by lia. apply Hs; [done|].
    exists (Z.log2 x - i). split; [lia|].
    replace (i + (Z.log2 x - i)) with (Z.log2 x) by lia. apply Z.bit_log2. lia.
  - rewrite Z.ones_spec_high by lia. apply not_true_is_false.
    intros (j & ? & Hb)%Hs; [|done].
    rewrite Z.bits_above_log2 in Hb by lia. done.
Qed.

Lemma spread_zero n y : 0 <= y -> spread n 0 y -> y = 0.
Proof.
  intros Hy Hs. apply Z.bits_inj'. intros i Hi. rewrite Z.bits_0.
  apply not_true_is_false. intros (j & ? & H)%Hs; [|done]. by rewrite Z.bits_0 in H.
Qed.

(** The loop continues the doubling that the straight-line code begins. *)
Lemma ceil_to_pow_2_loop_spread (m n : nat) k x y :
  0 <= k -> 0 <= y -> (m <= n)%nat -> spread (8 * 2 ^ k) x y ->
  spread (8 * 2 ^ (k + Z.of_nat m)) x
    (ceil_to_pow_2_loop n (2 ^ (k + Z.of_nat m)) (2 ^ k) y) /\
  0 <= ceil_to_pow_2_loop n (2 ^ (k + Z.of_nat m)) (2 ^ k) y.
Proof.
  revert n k y. induction m as [|m IH]; intros n k y Hk Hy Hn Hs.
  { rewrite Z.add_0_r. destruct n; cbn [ceil_to_pow_2_loop]; [done|].
    by rewrite (proj2 (Z.ltb_ge (2 ^ k) (2 ^ k))) by lia. }
  destruct n as [|n]; [lia|]. cbn [ceil_to_pow_2_loop].
  rewrite (proj2 (Z.ltb_lt _ _)) by (apply Z.pow_lt_mono_r; lia).
  rewrite !Z.shiftl_mul_pow2 by lia.
  replace (2 ^ k * 2 ^ 1) with (2 ^ (k + 1)) by (rewrite Z.pow_add_r; lia).
  replace (k + Z.of_nat (S m)) with (k + 1 + Z.of_nat m) by lia.
  apply IH; [lia| |lia|].
  - rewrite Z.lor_nonneg, Z.shiftr_nonneg. done.
  - replace (8 * 2 ^ (k + 1)) with (2 * (8 * 2 ^ k)) by (rewrite Z.pow_add_r; lia).
    replace (2 ^ k * 2 ^ 3) with (8 * 2 ^ k) by lia.
    apply spread_double; [|done]. pose proof (Z.pow_pos_nonneg 2 k). lia.
Qed.

Section ceil.
Context (m : nat).
Let bytes := 2 ^ Z.of_nat m.
Let w := 8 * bytes.

Lemma ceil_to_pow_2_spread x :
  exists y, 0 <= y /\ spread w (wrap w (x - 1)) y /\
    ceil_to_pow_2 bytes x = wrap w (y + 1).
Proof using Type.
  unfold ceil_to_pow_2. fold w. set (x0 := wrap w (x - 1)).
  set (y0 := Z.lor _ (Z.shiftr _ 4)). eexists. split; [|split; [|reflexivity]].
  all: assert (0 < 2 ^ Z.of_nat m) by (apply Z.pow_pos_nonneg; lia).
  all: assert (0 <= x0) by (apply wrap_range; subst w bytes; lia).
  all: assert (0 <= y0 /\ spread 8 x0 y0) as [Hy0 Hs0].
  1,3: split; [unfold y0; rewrite !Z.lor_nonneg, !Z.shiftr_nonneg, !Z.lor_nonneg,
         !Z.shiftr_nonneg, !Z.lor_nonneg, !Z.shiftr_nonneg; tauto|];
       apply (spread_double 4), (spread_double 2), (spread_double 1), spread_init; lia.
  all: destruct (ceil_to_pow_2_loop_spread m (Z.to_nat bytes) 0 x0 y0) as [H1 H2];
    try done; subst bytes; try (by apply Z.pow_gt_lin_r).
  all: try (apply Nat2Z.inj_le; rewrite Z2Nat.id by lia;
            apply Z.lt_le_incl, Z.pow_gt_lin_r; lia).
Qed.
End ceil.

(** For an [8 * 2^m]-bit type, [ceil_to_pow_2 x] is the least power of two
    that is at least [x], for every [x] from 1 to the largest power of two
    the type holds. *)
Lemma ceil_to_pow_2_correct (m : nat) x :
  1 <= x <= 2 ^ (8 * 2 ^ Z.of_nat m - 1) ->
  ceil_to_pow_2 (2 ^ Z.of_nat m) x = 2 ^ Z.log2_up x.
Proof.
  intros Hx. set (w := 8 * 2 ^ Z.of_nat m) in *.
  assert (0 < w) as Hw by (pose proof (Z.pow_pos_nonneg 2 (Z.of_nat m)); lia).
  pose proof (pow_half Hw). pose proof (pow_half_pos Hw).
  destruct (ceil_to_pow_2_spread m x) as (y & Hy & Hs & ->). fold w in Hs |- *.
  rewrite wrap_small in Hs by lia.
  destruct (decide (x = 1)) as [->|].
  { apply spread_zero in Hs as ->; [|done]. rewrite wrap_small by lia. done. }
  apply spread_full in Hs as ->; [|lia..].
  rewrite Z.sub_add. replace (x - 1) with (Z.pred x) by lia.
  rewrite Z.add_1_r, <- Z.log2_up_eqn by lia. apply wrap_small.
  split; [apply Z.pow_nonneg; lia|]. apply Z.pow_lt_mono_r; [lia..|].
  assert (Z.log2_up x <= w - 1); [|lia]. apply Z.log2_up_le_pow2; lia.
Qed.

(** The remaining inputs, 0 among them, wrap around to 0. *)
Lemma ceil_to_pow_2_overflow (m : nat) x :
  let w := 8 * 2 ^ Z.of_nat m in
  x = 0 \/ 2 ^ (w - 1) < x < 2 ^ w -> ceil_to_pow_2 (2 ^ Z.of_nat m) x = 0.
Proof.
  intros w Hx.
  assert (0 < w) as Hw by (pose proof (Z.pow_pos_nonneg 2 (Z.of_nat m)); lia).
  pose proof (pow_half Hw). pose proof (pow_half_pos Hw).
  destruct (ceil_to_pow_2_spread m x) as (y & Hy & Hs & ->). fold w in Hs |- *.
  assert (2 ^ (w - 1) <= wrap w (x - 1) < 2 ^ w) as Hr.
  { destruct Hx as [->|]; [|rewrite wrap_small; lia].
    replace (wrap w (0 - 1)) with (2 ^ w - 1); [lia|].
    apply Z.mod_unique_pos with (-1); lia. }
  apply spread_full in Hs as ->; [|lia..].
  replace (Z.log2 (wrap w (x - 1))) with (w - 1).
  - rewrite Z.sub_add. replace (w - 1 + 1) with w by lia. apply Z.mod_same. lia.
  - symmetry. apply Z.log2_unique; [lia|]. by replace (Z.succ (w - 1)) with w by lia.
Qed.

(** * Thread-id hashing *)

(** [_hash_32_or_64<0>::hash] *)
Definition hash_32 (h : Z) : Z :=
  let h := Z.lxor h (Z.shiftr h 16) in
  let h := wrap 32 (h * 0x85ebca6b) in
  let h := Z.lxor h (Z.shiftr h 13) in
  let h := wrap 32 (h * 0xc2b2ae35) in
  Z.lxor h (Z.shiftr h 16).

(** [_hash_32_or_64<1>::hash] *)
Definition hash_64 (h : Z) : Z :=
  let h := Z.lxor h (Z.shiftr h 33) in
  let h := wrap 64 (h * 0xff51afd7ed558ccd) in
  let h := Z.lxor h (Z.shiftr h 33) in
  let h := wrap 64 (h * 0xc4ceb9fe1a85ec53) in
  Z.lxor h (Z.shiftr h 33).

(** [hash_thread_id]: [id] is the prehashed id, [hash_bytes] the size of
    [thread_id_hash_t], and the result is cast to the [size_t] of
    [size_bits] bits. *)
Definition hash_thread_id (hash_bytes size_bits id : Z) : Z :=
  wrap size_bits (if 4 <? hash_bytes then hash_64 id else hash_32 id).

(** A function that is injective on, and stays inside, the [w]-bit words. *)
Definition word_injective (w : Z) (f : Z -> Z) : Prop :=
  (forall x, 0 <= x < 2 ^ w -> 0 <= f x < 2 ^ w) /\
  (forall x y, 0 <= x < 2 ^ w -> 0 <= y < 2 ^ w -> f x = f y -> x = y).

Lemma word_injective_compose w f g :
  word_injective w f -> word_injective w g ->
  word_injective w (fun x => g (f x)).
Proof.
  intros [Hf1 Hf2] [Hg1 Hg2]. split; [by auto|].
  intros x y Hx Hy E. apply Hf2, Hg2; auto.
Qed.

Lemma lxor_range w x y :
  0 <= w -> 0 <= x < 2 ^ w -> 0 <= y < 2 ^ w -> 0 <= Z.lxor x y < 2 ^ w.
Proof.
  intros Hw Hx Hy. assert (0 <= Z.lxor x y) as H0 by (apply Z.lxor_nonneg; lia).
  split; [done|]. destruct (decide (Z.lxor x y = 0)) as [->|]; [lia|].
  apply Z.log2_lt_pow2; [lia|]. pose proof (Z.log2_lxor x y).
  assert (forall z, 0 <= z < 2 ^ w -> Z.log2 z < w \/ z = 0) as Hl.
  { intros z Hz. destruct (decide (z = 0)); [by right|left].
    apply Z.log2_lt_pow2; lia. }
  destruct (decide (w = 0)) as [->|]; [replace x with 0 in * by lia;
    replace y with 0 in * by lia; done|].
  destruct (Hl x Hx) as [| ->], (Hl y Hy) as [| ->];
    rewrite ?(Z.log2_nonpos 0) in * by lia; lia.
Qed.

(** [h ^= h >> s] loses nothing: the difference of two colliding words would
    equal its own shift. *)
Lemma xorshift_injective w s :
  0 <= w -> 0 < s -> word_injective w (fun h => Z.lxor h (Z.shiftr h s)).
Proof.
  intros Hw Hs.
  assert (forall x, 0 <= x -> 0 <= Z.shiftr x s <= x) as Hsh.
  { intros x Hx. rewrite Z.shiftr_div_pow2 by lia.
    pose proof (Z.pow_pos_nonneg 2 s). split; [apply Z.div_pos; lia|].
    apply Z.div_le_upper_bound; nia. }
  split; intros x.
  - intros Hx. pose proof (Hsh x). apply lxor_range; lia.
  - intros y Hx Hy E. apply Z.lxor_eq.
    assert (Z.lxor x y = Z.shiftr (Z.lxor x y) s) as Ez.
    { rewrite Z.shiftr_lxor. apply Z.lxor_eq.
      rewrite <- Z.lxor_assoc, (Z.lxor_assoc x y), (Z.lxor_comm y), <- Z.lxor_assoc, E.
      by rewrite !Z.lxor_assoc, (Z.lxor_comm (Z.shiftr y s)), Z.lxor_assoc,
        Z.lxor_nilpotent, Z.lxor_0_r, Z.lxor_nilpotent. }
    assert (0 <= Z.lxor x y) as Hz by (apply Z.lxor_nonneg; lia).
    destruct (decide (Z.lxor x y = 0)) as [|Hne]; [done|].
    exfalso. rewrite Z.shiftr_div_pow2 in Ez by lia.
    assert (1 < 2 ^ s) by (apply Z.pow_gt_1; lia).
    pose proof (Z.div_lt (Z.lxor x y) (2 ^ s)). lia.
Qed.

(** Multiplication by an odd constant loses nothing modulo [2^w]. *)
Lemma odd_mul_injective w c :
  0 < w -> Z.odd c = true -> word_injective w (fun h => wrap w (h * c)).
Proof.
  intros Hw Hc. split; intros x.
  - intros _. by apply wrap_range.
  - intros y Hx Hy E. pose proof (pow_pos Hw).
    assert ((2 ^ w | x - y)) as [q Hq].
    { apply Z.gauss with c.
      - exists ((x * c) / 2 ^ w - (y * c) / 2 ^ w). unfold wrap in E.
        pose proof (Z.div_mod (x * c) (2 ^ w) ltac:(lia)).
        pose proof (Z.div_mod (y * c) (2 ^ w) ltac:(lia)). lia.
      - change (Z.coprime (2 ^ w) c). symmetry. apply Z.coprime_pow_r; [lia|].
        symmetry. apply Z.coprime_prime_l; [apply Z.prime_2|].
        intros Hd%Z.mod0_divide. rewrite Zmod_odd, Hc in Hd. done. }
    assert (q = 0) as -> by nia. lia.
Qed.

(** Both finalizers have the same shape. *)
Definition xorshift (s h : Z) : Z := Z.lxor h (Z.shiftr h s).
Definition mulmod (w c h : Z) : Z := wrap w (h * c).
Definition finalizer (w s1 c1 s2 c2 s3 h : Z) : Z :=
  xorshift s3 (mulmod w c2 (xorshift s2 (mulmod w c1 (xorshift s1 h)))).

Lemma finalizer_injective w s1 c1 s2 c2 s3 :
  0 < w -> 0 < s1 -> 0 < s2 -> 0 < s3 -> Z.odd c1 = true -> Z.odd c2 = true ->
  word_injective w (finalizer w s1 c1 s2 c2 s3).
Proof.
  intros Hw H1 H2 H3 Hc1 Hc2. unfold finalizer.
  apply (word_injective_compose w (fun h => mulmod w c2 _) (xorshift s3));
    [|apply xorshift_injective; lia].
  apply (word_injective_compose w (fun h => xorshift s2 _) (mulmod w c2));
    [|by apply odd_mul_injective].
  apply (word_injective_compose w (fun h => mulmod w c1 _) (xorshift s2));
    [|apply xorshift_injective; lia].
  apply (word_injective_compose w (xorshift s1) (mulmod w c1));
    [apply xorshift_injective; lia | by apply odd_mul_injective].
Qed.

Lemma hash_32_injective : word_injective 32 hash_32.
Proof. by apply (finalizer_injective 32 16 0x85ebca6b 13 0xc2b2ae35 16). Qed.

Lemma hash_64_injective : word_injective 64 hash_64.
Proof. by apply (finalizer_injective 64 33 0xff51afd7ed558ccd 33 0xc4ceb9fe1a85ec53 33). Qed.

(** Distinct thread ids get distinct hashes, when [size_t] is at least as
    wide as the hash. *)
Lemma hash_thread_id_injective hash_bytes size_bits x y :
  hash_bytes = 4 \/ hash_bytes = 8 -> 8 * hash_bytes <= size_bits ->
  0 <= x < 2 ^ (8 * hash_bytes) -> 0 <= y < 2 ^ (8 * hash_bytes) ->
  hash_thread_id hash_bytes size_bits x = hash_thread_id hash_bytes size_bits y ->
  x = y.
Proof.
  intros Hb Hs Hx Hy. unfold hash_thread_id.
  assert (forall f, word_injective (8 * hash_bytes) f ->
    wrap size_bits (f x) = wrap size_bits (f y) -> x = y) as Hcase.
  { intros f [Hr Hinj] E. apply Hinj; [done..|].
    pose proof (Z.pow_le_mono_r 2 (8 * hash_bytes) size_bits).
    pose proof (Hr x Hx). pose proof (Hr y Hy).
    rewrite !wrap_small in E by lia. done. }
  destruct Hb as [-> | ->]; apply Hcase; [apply hash_32_injective|apply hash_64_injective].
Qed.

(** * Alignment and numeric limits *)

(** [align_for<U>(ptr)], for a pointer seen as a number. *)
Definition align_for (alignment ptr : Z) : Z :=
  ptr + (alignment - ptr mod alignment) mod alignment.

Lemma align_for_correct alignment ptr :
  0 < alignment ->
  (alignment | align_for alignment ptr) /\
  ptr <= align_for alignment ptr < ptr + alignment.
Proof.
  intros Ha. unfold align_for.
  pose proof (Z.mod_pos_bound ptr alignment Ha).
  pose proof (Z.mod_pos_bound (alignment - ptr mod alignment) alignment Ha).
  split; [|lia]. apply Z.mod_divide; [lia|].
  rewrite Zplus_mod_idemp_r.
  replace (ptr + (alignment - ptr mod alignment)) with
    (alignment * (ptr / alignment + 1)) by (pose proof (Z.div_mod ptr alignment); lia).
  rewrite Z.mul_comm. apply Z.mod_mul. lia.
Qed.

(** [const_numeric_max<T>] *)
Definition const_numeric_max (is_signed : bool) (w : Z) : Z :=
  if is_signed then Z.shiftl 1 (w - 1) - 1 else wrap w (-1).

Lemma const_numeric_max_unsigned w : 0 < w -> const_numeric_max false w = 2 ^ w - 1.
Proof.
  intros Hw. pose proof (pow_pos Hw). symmetry. apply Z.mod_unique_pos with (-1); lia.
Qed.

(** ** The block offset of the dequeue operations

    [(signed)(blockBase - headBase) / (signed)BLOCK_SIZE], for two wrapped
    multiples of the block size that are less than half the range apart, is
    the signed distance in blocks, whichever side of the wrap they are on. *)
Lemma block_offset_exact w k x y :
  0 <= k < w - 1 -> - 2 ^ (w - 1) <= x * 2 ^ k - y * 2 ^ k < 2 ^ (w - 1) ->
  Z.quot (to_signed w (wrap w (x * 2 ^ k) - wrap w (y * 2 ^ k)))
         (to_signed w (2 ^ k)) = x - y.
Proof.
  intros Hk Hr.
  assert (0 < w) as Hw by lia.
  pose proof (Z.pow_pos_nonneg 2 k).
  assert (2 ^ k < 2 ^ (w - 1)) by (apply Z.pow_lt_mono_r; lia).
  rewrite (to_signed_small Hw (2 ^ k)) by lia.
  assert (forall z, to_signed w (wrap w z) = to_signed w z) as Hts.
  { intros z. unfold to_signed. by rewrite !wrap_wrap by done. }
  rewrite <- Hts, wrap_sub_l, wrap_sub_r, Hts, to_signed_small by lia.
  rewrite <- Z.mul_sub_distr_r. apply Z.quot_mul. lia.
Qed.
