(* ===== verification/Alloc.v ===== *)
(** The allocation utilities of ConcurrentQueue: [aligned_malloc] and
    [aligned_free], which over-allocate for types whose alignment is larger
    than what [malloc] gives, and hide the pointer to the allocation in front of
    the object; and the creation and destruction of objects and arrays on top
    of them. *)

From S2P Require Import Prelude MachineInt.

(** * The heap that [Traits::malloc] and [Traits::free] manage

    [allocations] maps the start of each live allocation to its size; [cells]
    are the pointers stored in memory; [objects] are the addresses at which an
    object lives. *)
Record Heap := mkHeap {
  allocations : gmap Z Z;
  cells : gmap Z Z;
  objects : gset Z;
  heap_calls : nat
}.

Section alloc.
(** What the [n]-th call of [malloc] returns for a size. *)
Context (malloc_at : nat -> Z -> Z).
(** The width of [size_t], [sizeof(void* )], [alignof(std::max_align_t)]. *)
Context (sb pointer_size max_align : Z).

Definition Traits_malloc (size : Z) : M Heap Z :=
  let! n := gets heap_calls in
  let p := malloc_at n size in
  modify (fun h => mkHeap (if p =? nullptr then allocations h else <[p := size]> (allocations h))
                     (cells h) (objects h) (S (heap_calls h)));;
  ret p.

Definition Traits_free (p : Z) : M Heap unit :=
  if p =? nullptr then ret tt
  else
    let! o := gets (fun h => allocations h !! p) in
    deref BadObject o;;
    modify (fun h => mkHeap (delete p (allocations h)) (cells h) (objects h) (heap_calls h)).

(** A pointer-sized access at [a] is inside an allocation. *)
Definition in_allocation (a : Z) (h : Heap) : bool :=
  existsb (fun rs : Z * Z => (fst rs <=? a) && (a + pointer_size <=? fst rs + snd rs))
    (map_to_list (allocations h)).
Definition store_pointer (a v : Z) : M Heap unit :=
  let! ok := gets (in_allocation a) in
  if ok : bool
  then modify (fun h => mkHeap (allocations h) (<[a := v]> (cells h)) (objects h) (heap_calls h))
  else faults OutOfBounds.
Definition load_pointer (a : Z) : M Heap Z :=
  let! ok := gets (in_allocation a) in
  if ok : bool then let! o := gets (fun h => cells h !! a) in deref BadObject o
  else faults OutOfBounds.

(** ** aligned_malloc and aligned_free *)

Definition aligned_malloc (alignment size : Z) : M Heap Z :=
  if alignment <=? max_align then Traits_malloc size
  else
    let! raw := Traits_malloc (wrap sb (size + alignment - 1 + pointer_size)) in
    if raw =? nullptr then ret nullptr
    else
      let ptr := align_for alignment (raw + pointer_size) in
      store_pointer (ptr - pointer_size) raw;;
      ret ptr.

Definition aligned_free (alignment ptr : Z) : M Heap unit :=
  if alignment <=? max_align then Traits_free ptr
  else
    let! raw := (if negb (ptr =? nullptr) then load_pointer (ptr - pointer_size) else ret nullptr) in
    Traits_free raw.

(** ** Objects *)

Definition construct_object (p : Z) : M Heap unit :=
  let! busy := gets (fun h => bool_decide (p ∈ objects h)) in
  if busy : bool then faults BadObject
  else modify (fun h => mkHeap (allocations h) (cells h) ({[p]} ∪ objects h) (heap_calls h)).
Definition destruct_object (p : Z) : M Heap unit :=
  let! live := gets (fun h => bool_decide (p ∈ objects h)) in
  if live : bool
  then modify (fun h => mkHeap (allocations h) (cells h) (objects h ∖ {[p]}) (heap_calls h))
  else faults BadObject.

(** The type [U] is its alignment and its size. *)
Definition create_U (alignment size : Z) : M Heap Z :=
  let! p := aligned_malloc alignment size in
  (if negb (p =? nullptr) then construct_object p else ret tt);;
  ret p.
Definition destroy_U (alignment p : Z) : M Heap unit :=
  (if negb (p =? nullptr) then destruct_object p else ret tt);;
  aligned_free alignment p.

Definition create_array_U (alignment size count : Z) : M Heap Z :=
  cassert (0 <? count);;
  let! p := aligned_malloc alignment (wrap sb (size * count)) in
  if p =? nullptr then ret nullptr
  else
    for_range 0 (Z.to_nat count) (fun i => construct_object (p + i * size));;
    ret p.
Definition destroy_array_U (alignment size p count : Z) : M Heap unit :=
  (if negb (p =? nullptr) then
     cassert (0 <? count);;
     for_range 0 (Z.to_nat count) (fun i => destruct_object (p + (count - 1 - i) * size))
   else ret tt);;
  aligned_free alignment p.

(** * Correctness *)

(** What the standard says of [malloc]: a null pointer, or a fresh allocation
    that is aligned for [max_align_t]. *)
Definition malloc_law (h : Heap) : Prop :=
  forall size, let p := malloc_at (heap_calls h) size in
    p = nullptr \/ 0 < p /\ (max_align | p) /\ allocations h !! p = None.

Lemma in_allocation_spec a h p size :
  allocations h !! p = Some size -> p <= a -> a + pointer_size <= p + size ->
  in_allocation a h = true.
Proof using Type.
  intros Hp H1 H2. unfold in_allocation. apply existsb_exists. exists (p, size).
  split; [by apply list_elem_of_In, elem_of_map_to_list|]. cbn. lia.
Qed.

(** C39: [aligned_malloc] returns a null pointer (when [malloc] does) or a
    multiple of the alignment at which the whole object fits in the new
    allocation; and [aligned_free] of the result gives exactly that allocation
    back, whatever the alignment. *)
Theorem aligned_malloc_free_roundtrip alignment size h :
  0 < pointer_size -> 0 < max_align -> 0 < alignment -> (alignment | max_align) \/ max_align < alignment ->
  0 <= size -> size + alignment - 1 + pointer_size < 2 ^ sb ->
  malloc_law h ->
  exists p h', aligned_malloc alignment size h = Ok p h' /\
    (p = nullptr /\ allocations h' = allocations h \/
     (alignment | p) /\
     (exists raw n, allocations h' = <[raw := n]> (allocations h) /\ raw <= p /\ p + size <= raw + n) /\
     exists h'', aligned_free alignment p h' = Ok tt h'' /\ allocations h'' = allocations h).
Proof using Type.
  intros Hp Hm Ha Hdiv Hs Hsb Hlaw. unfold malloc_law, aligned_malloc, aligned_free, Traits_malloc, nullptr in *.
  destruct (Z.leb_spec alignment max_align) as [Hle|Hlt]; cbv [bind gets modify ret].
  - destruct (Hlaw size) as [->|(Hpos & Hal & Hnone)].
    { exists 0. eexists. split; [done|]. by left. }
    eexists _, _. split; [done|]. right. cbn.
    set (p := malloc_at (heap_calls h) size) in *. rewrite (proj2 (Z.eqb_neq p 0)) by lia.
    split; [destruct Hdiv; [by etrans|lia]|]. split; [exists p, size; split; [done|lia]|].
    eexists. unfold Traits_free, nullptr, bind, gets, modify, ret. cbn.
    rewrite (proj2 (Z.eqb_neq p 0)) by lia. cbn. rewrite lookup_insert_eq. cbn. split; [done|].
    cbn. by rewrite delete_insert_id by done.
  - set (n := size + alignment - 1 + pointer_size) in *. rewrite wrap_small by (subst n; lia).
    destruct (Hlaw n) as [->|(Hpos & _ & Hnone)].
    { exists 0. eexists. split; [done|]. by left. }
    set (raw := malloc_at (heap_calls h) n) in *. rewrite (proj2 (Z.eqb_neq raw 0)) by lia.
    destruct (align_for_correct alignment (raw + pointer_size) Ha) as [Hd Hr].
    set (p := align_for alignment (raw + pointer_size)) in *.
    unfold store_pointer. cbv [bind gets modify ret].
    assert (forall h', allocations h' = <[raw := n]> (allocations h) ->
      in_allocation (p - pointer_size) h' = true) as Hin.
    { intros h' E. apply (in_allocation_spec _ _ raw n); [by rewrite E, lookup_insert_eq|lia|subst n; lia]. }
    rewrite Hin by done. exists p. eexists. split; [done|]. right.
    split; [done|]. split; [exists raw, n; split; [done|subst n; lia]|].
    rewrite (proj2 (Z.eqb_neq p 0)) by lia. cbn [negb].
    unfold load_pointer. cbv [bind gets modify ret]. rewrite Hin by done. cbn. rewrite lookup_insert_eq. cbn.
    unfold Traits_free, nullptr, bind, gets, modify, ret. cbn.
    rewrite (proj2 (Z.eqb_neq raw 0)) by lia. cbn. rewrite lookup_insert_eq. cbn.
    eexists. split; [done|]. cbn. by rewrite delete_insert_id by done.
Qed.
End alloc.

(** [malloc] that hands out multiples of 16, for a type with cache-line
    alignment. *)
Lemma aligned_malloc_free_roundtrip_witness :
  let malloc_at n (size : Z) := 48 + 1024 * Z.of_nat n in
  exists p h', aligned_malloc malloc_at 64 8 16 64 200 (mkHeap ∅ ∅ ∅ 0) = Ok p h' /\
    (p = nullptr /\ allocations h' = ∅ \/
     (64 | p) /\
     (exists raw n, allocations h' = <[raw := n]> (∅ : gmap Z Z) /\ raw <= p /\ p + 200 <= raw + n) /\
     exists h'', aligned_free 8 16 64 p h' = Ok tt h'' /\ allocations h'' = (∅ : gmap Z Z)).
Proof.
  apply (aligned_malloc_free_roundtrip (fun n _ => 48 + 1024 * Z.of_nat n) 64 8 16 64 200 (mkHeap ∅ ∅ ∅ 0));
    [lia|lia|lia|right; lia|lia|lia|].
  intros size. right. cbn. split; [lia|]. split; [by exists 3|done].
Defined.
