(* ===== verification/Traits.v ===== *)
(** The compile-time configuration: [ConcurrentQueueDefaultTraits], the
    constants [ConcurrentQueue] derives from a traits class, and its
    [static_assert]s. *)

From S2P Require Import Prelude MachineInt.

(** The members of a traits class, with [index_bits] and [size_bits] the
    widths of the unsigned types [index_t] and [size_t], and [sizeof_Block] what
    they and the element type make of [sizeof(Block)].  ([malloc] and [free] are
    modelled with the memory, in BlockPool.) *)
Record Traits := mkTraits {
  size_bits : Z;
  index_bits : Z;
  BLOCK_SIZE : Z;
  EXPLICIT_BLOCK_EMPTY_COUNTER_THRESHOLD : Z;
  EXPLICIT_INITIAL_INDEX_SIZE : Z;
  IMPLICIT_INITIAL_INDEX_SIZE : Z;
  INITIAL_IMPLICIT_PRODUCER_HASH_SIZE : Z;
  EXPLICIT_CONSUMER_CONSUMPTION_QUOTA_BEFORE_ROTATE : Z;
  Traits_MAX_SUBQUEUE_SIZE : Z;
  MAX_SEMA_SPINS : Z;
  RECYCLE_ALLOCATED_BLOCKS : bool;
  sizeof_Block : Z
}.

(** [ConcurrentQueueDefaultTraits] where [std::size_t] has 64 bits, for elements
    of 8 bytes. *)
Definition ConcurrentQueueDefaultTraits : Traits := {|
  size_bits := 64;
  index_bits := 64;
  BLOCK_SIZE := 32;
  EXPLICIT_BLOCK_EMPTY_COUNTER_THRESHOLD := 32;
  EXPLICIT_INITIAL_INDEX_SIZE := 32;
  IMPLICIT_INITIAL_INDEX_SIZE := 32;
  INITIAL_IMPLICIT_PRODUCER_HASH_SIZE := 32;
  EXPLICIT_CONSUMER_CONSUMPTION_QUOTA_BEFORE_ROTATE := 256;
  Traits_MAX_SUBQUEUE_SIZE := const_numeric_max false 64;
  MAX_SEMA_SPINS := 10000;
  RECYCLE_ALLOCATED_BLOCKS := false;
  sizeof_Block := 328
|}.

Section derived.
Context (tr : Traits).

Definition size_max : Z := const_numeric_max false (size_bits tr).

(** [ConcurrentQueue::MAX_SUBQUEUE_SIZE]: the trait rounded up to a whole
    number of blocks, or the largest [size_t] if that would overflow. *)
Definition MAX_SUBQUEUE_SIZE : Z :=
  let sz := wrap (size_bits tr) in
  let B := BLOCK_SIZE tr in
  if sz (size_max - Traits_MAX_SUBQUEUE_SIZE tr) <? B then size_max
  else sz (sz (Traits_MAX_SUBQUEUE_SIZE tr + (B - 1)) / B * B).

(** The [static_assert]s (signedness is part of the model: both types are
    unsigned). *)
Definition power_of_2_and_gt_1 (x : Z) : bool := (1 <? x) && (Z.land x (x - 1) =? 0).

Definition static_asserts : bool :=
  (size_bits tr <=? index_bits tr)
  && power_of_2_and_gt_1 (BLOCK_SIZE tr)
  && power_of_2_and_gt_1 (EXPLICIT_BLOCK_EMPTY_COUNTER_THRESHOLD tr)
  && power_of_2_and_gt_1 (EXPLICIT_INITIAL_INDEX_SIZE tr)
  && power_of_2_and_gt_1 (IMPLICIT_INITIAL_INDEX_SIZE tr)
  && ((INITIAL_IMPLICIT_PRODUCER_HASH_SIZE tr =? 0)
      || (Z.land (INITIAL_IMPLICIT_PRODUCER_HASH_SIZE tr)
            (INITIAL_IMPLICIT_PRODUCER_HASH_SIZE tr - 1) =? 0))
  && ((INITIAL_IMPLICIT_PRODUCER_HASH_SIZE tr =? 0)
      || (1 <=? INITIAL_IMPLICIT_PRODUCER_HASH_SIZE tr)).
End derived.

Lemma power_of_2_test x :
  0 < x -> Z.land x (x - 1) = 0 -> x = 2 ^ Z.log2 x.
Proof.
  intros Hx H0. pose proof (Z.log2_spec x Hx) as [Hlo Hhi]. rewrite Z.pow_succ_r in Hhi
    by apply Z.log2_nonneg.
  destruct (decide (x = 2 ^ Z.log2 x)) as [|Hne]; [done|exfalso].
  assert (Z.log2 (x - 1) = Z.log2 x) as Hl.
  { apply Z.log2_unique; [apply Z.log2_nonneg|]. rewrite Z.pow_succ_r by apply Z.log2_nonneg. lia. }
  assert (Z.testbit (Z.land x (x - 1)) (Z.log2 x) = true) as Hb.
  { rewrite Z.land_spec, Z.bit_log2 by done. rewrite <- Hl, Z.bit_log2; [done|].
    pose proof (Z.pow_pos_nonneg 2 (Z.log2 x)). pose proof (Z.log2_nonneg x). lia. }
  by rewrite H0, Z.bits_0 in Hb.
Qed.

Lemma power_of_2_and_gt_1_spec x :
  power_of_2_and_gt_1 x = true -> x = 2 ^ Z.log2 x /\ 0 < Z.log2 x.
Proof.
  unfold power_of_2_and_gt_1. rewrite andb_true_iff, Z.ltb_lt, Z.eqb_eq. intros [H1 H2].
  split; [apply power_of_2_test; lia|]. by apply Z.log2_pos.
Qed.

(** A configuration the library accepts: the static assertions hold, the
    constants are values of the type [size_t] they are declared with, and
    half of the index range holds at least two blocks.  The types are at
    least as wide as [int], so that no operand is promoted to a signed type. *)
Class TraitsOk (tr : Traits) : Prop := {
  traits_static : static_asserts tr = true;
  traits_size : 32 <= size_bits tr;
  traits_block : 2 * BLOCK_SIZE tr < 2 ^ size_bits tr;
  traits_explicit_index : EXPLICIT_INITIAL_INDEX_SIZE tr < 2 ^ size_bits tr;
  traits_implicit_index : IMPLICIT_INITIAL_INDEX_SIZE tr < 2 ^ size_bits tr;
  traits_hash : INITIAL_IMPLICIT_PRODUCER_HASH_SIZE tr < 2 ^ size_bits tr;
  traits_max : 0 <= Traits_MAX_SUBQUEUE_SIZE tr < 2 ^ size_bits tr;
  traits_sizeof : 0 < sizeof_Block tr
}.

#[export] Instance default_traits_ok : TraitsOk ConcurrentQueueDefaultTraits.
Proof. by split. Qed.

Section facts.
Context (tr : Traits) `{!TraitsOk tr}.

Definition block_log : Z := Z.log2 (BLOCK_SIZE tr).

Ltac statics :=
  pose proof (traits_static (tr := tr)) as Hs; unfold static_asserts in Hs;
  rewrite !andb_true_iff in Hs; destruct_and! Hs.

Lemma block_size_pow : BLOCK_SIZE tr = 2 ^ block_log.
Proof using All. statics. by apply power_of_2_and_gt_1_spec. Qed.

Lemma block_log_pos : 0 < block_log.
Proof using All. statics. by apply power_of_2_and_gt_1_spec. Qed.

Lemma block_size_gt_1 : 2 <= BLOCK_SIZE tr.
Proof using All.
  rewrite block_size_pow. pose proof block_log_pos.
  change 2 with (2 ^ 1) at 1. apply Z.pow_le_mono_r; lia.
Qed.

Lemma size_le_index : 32 <= size_bits tr <= index_bits tr.
Proof using All. statics. rewrite Z.leb_le in *. pose proof (traits_size (tr := tr)). lia. Qed.

Lemma size_pow_le_index : 2 ^ size_bits tr <= 2 ^ index_bits tr.
Proof using All. pose proof size_le_index. apply Z.pow_le_mono_r; lia. Qed.

Lemma block_log_lt : block_log < size_bits tr - 1.
Proof using All.
  pose proof size_le_index. pose proof (traits_block (tr := tr)) as H0.
  rewrite block_size_pow in H0. pose proof block_log_pos.
  rewrite <- Z.pow_succ_r in H0 by lia. apply Z.pow_lt_mono_r_iff in H0; lia.
Qed.

(** The masks of the source. *)
Lemma mask_block i : Z.land i (BLOCK_SIZE tr - 1) = i mod BLOCK_SIZE tr.
Proof using All. pose proof block_log_pos. rewrite block_size_pow, land_mask; [done|lia]. Qed.

Lemma mask_block_base i :
  0 <= i < 2 ^ index_bits tr ->
  Z.land i (unot (index_bits tr) (BLOCK_SIZE tr - 1)) = i - i mod BLOCK_SIZE tr.
Proof using All.
  pose proof block_log_pos. pose proof block_log_lt. pose proof size_le_index.
  intros. rewrite block_size_pow. apply land_unot_mask; [lia|done].
Qed.

Lemma index_mod_block x : wrap (index_bits tr) x mod BLOCK_SIZE tr = x mod BLOCK_SIZE tr.
Proof using All.
  pose proof block_log_pos. pose proof block_log_lt. pose proof size_le_index.
  rewrite block_size_pow. apply wrap_mod_pow2; lia.
Qed.

Lemma explicit_initial_index_pow :
  EXPLICIT_INITIAL_INDEX_SIZE tr = 2 ^ Z.log2 (EXPLICIT_INITIAL_INDEX_SIZE tr) /\
  0 < Z.log2 (EXPLICIT_INITIAL_INDEX_SIZE tr).
Proof using All. statics. by apply power_of_2_and_gt_1_spec. Qed.

Lemma implicit_initial_index_pow :
  IMPLICIT_INITIAL_INDEX_SIZE tr = 2 ^ Z.log2 (IMPLICIT_INITIAL_INDEX_SIZE tr) /\
  0 < Z.log2 (IMPLICIT_INITIAL_INDEX_SIZE tr).
Proof using All. statics. by apply power_of_2_and_gt_1_spec. Qed.

Lemma initial_hash_pow :
  INITIAL_IMPLICIT_PRODUCER_HASH_SIZE tr <> 0 ->
  exists e, 0 <= e < size_bits tr /\ INITIAL_IMPLICIT_PRODUCER_HASH_SIZE tr = 2 ^ e.
Proof using All.
  intros Hne. statics. rewrite !orb_true_iff, !Z.eqb_eq, Z.leb_le in *.
  assert (0 < INITIAL_IMPLICIT_PRODUCER_HASH_SIZE tr) as Hpos by lia.
  assert (Z.land (INITIAL_IMPLICIT_PRODUCER_HASH_SIZE tr) (INITIAL_IMPLICIT_PRODUCER_HASH_SIZE tr - 1) = 0) as Hland by tauto.
  pose proof (power_of_2_test _ Hpos Hland) as E. pose proof (traits_hash (tr := tr)) as Hlt. pose proof size_le_index.
  exists (Z.log2 (INITIAL_IMPLICIT_PRODUCER_HASH_SIZE tr)). split; [|done]. split; [apply Z.log2_nonneg|].
  rewrite E in Hlt at 1. apply Z.pow_lt_mono_r_iff in Hlt; lia.
Qed.

(** The limit actually enforced is the largest [size_t], or the least
    multiple of the block size that is at least the trait. *)
Lemma max_subqueue_size_spec :
  MAX_SUBQUEUE_SIZE tr = size_max tr \/
  (BLOCK_SIZE tr | MAX_SUBQUEUE_SIZE tr) /\
  Traits_MAX_SUBQUEUE_SIZE tr <= MAX_SUBQUEUE_SIZE tr
    < Traits_MAX_SUBQUEUE_SIZE tr + BLOCK_SIZE tr.
Proof using All.
  pose proof size_le_index. pose proof block_size_gt_1 as HB.
  pose proof (traits_max (tr := tr)) as Hm.
  unfold MAX_SUBQUEUE_SIZE, size_max. rewrite const_numeric_max_unsigned by lia.
  rewrite wrap_small by lia. destruct (Z.ltb_spec (2 ^ size_bits tr - 1 - Traits_MAX_SUBQUEUE_SIZE tr)
    (BLOCK_SIZE tr)) as [|Hge]; [by left|right].
  set (x := Traits_MAX_SUBQUEUE_SIZE tr) in *. set (B := BLOCK_SIZE tr) in *.
  rewrite (wrap_small (x + (B - 1))) by lia.
  pose proof (Z.div_mod (x + (B - 1)) B ltac:(lia)).
  pose proof (Z.mod_pos_bound (x + (B - 1)) B ltac:(lia)).
  pose proof (Z.div_pos (x + (B - 1)) B ltac:(lia) ltac:(lia)).
  rewrite wrap_small by nia. split; [|nia]. eexists; done.
Qed.
End facts.

(** A configuration with small blocks and 32-bit indices. *)
Definition small_traits : Traits := {|
  size_bits := 32; index_bits := 32; BLOCK_SIZE := 4;
  EXPLICIT_BLOCK_EMPTY_COUNTER_THRESHOLD := 32;
  EXPLICIT_INITIAL_INDEX_SIZE := 2; IMPLICIT_INITIAL_INDEX_SIZE := 2;
  INITIAL_IMPLICIT_PRODUCER_HASH_SIZE := 4;
  EXPLICIT_CONSUMER_CONSUMPTION_QUOTA_BEFORE_ROTATE := 4;
  Traits_MAX_SUBQUEUE_SIZE := 0xFFFFFFFF; MAX_SEMA_SPINS := 10;
  RECYCLE_ALLOCATED_BLOCKS := true; sizeof_Block := 40 |}.

#[export] Instance small_traits_ok : TraitsOk small_traits.
Proof. by split. Qed.
