(* ===== verification/FreeList.v ===== *)
(** The CAS-based free list, [FreeListNode] and [FreeList] of
    src/concurrentqueue.h: [add], [try_get] and [add_knowing_refcount_is_zero]
    as programs of atomic steps that any number of threads interleave. *)

From S2P Require Import Prelude MachineInt.

(** * State *)

Record FreeListNode := mkNode { freeListRefs : Z; freeListNext : loc }.

(** A node as its constructor leaves it. *)
Definition new_node : FreeListNode := mkNode 0 nullptr.

(** The list head together with the free-list fields of every node. *)
Record FreeList := mkFreeList { freeListHead : loc; nodes : gmap loc FreeListNode }.

Definition REFS_MASK : Z := 0x7FFFFFFF.
Definition SHOULD_BE_ON_FREELIST : Z := 0x80000000.

Definition set_head (h : loc) (f : FreeList) : FreeList := mkFreeList h (nodes f).
Definition set_node (n : loc) (nd : FreeListNode) (f : FreeList) : FreeList :=
  mkFreeList (freeListHead f) (<[n := nd]> (nodes f)).

Definition node (n : loc) : M FreeList FreeListNode :=
  let! ns := gets nodes in deref NullDeref (ns !! n).

(** Atomic accesses to [n->freeListRefs] and [n->freeListNext]. *)
Definition load_refs (n : loc) : M FreeList Z :=
  let! nd := node n in ret (freeListRefs nd).
Definition store_refs (n : loc) (v : Z) : M FreeList unit :=
  let! nd := node n in modify (set_node n (mkNode v (freeListNext nd))).
Definition load_next (n : loc) : M FreeList loc :=
  let! nd := node n in ret (freeListNext nd).
Definition store_next (n v : loc) : M FreeList unit :=
  let! nd := node n in modify (set_node n (mkNode (freeListRefs nd) v)).

(** [fetch_add] on the [uint32_t] counter; returns the previous value. *)
Definition fetch_add_refs (n : loc) (d : Z) : M FreeList Z :=
  let! old := load_refs n in store_refs n (wrap 32 (old + d));; ret old.

(** [compare_exchange_strong] on the counter, and on the head (which also
    returns the value found). *)
Definition cas_refs (n : loc) (expected desired : Z) : M FreeList bool :=
  let! old := load_refs n in
  if old =? expected then store_refs n desired;; ret true else ret false.
Definition cas_head (expected desired : loc) : M FreeList (bool * loc) :=
  let! h := gets freeListHead in
  if h =? expected then modify (set_head desired);; ret (true, h) else ret (false, h).

(** * Programs *)

(** What runs after [add_knowing_refcount_is_zero]: the end of [add], or the
    rest of the [try_get] that called it, with the head it has read. *)
Inductive after := AfterAdd | AfterGet (head : loc).

(** Where a thread is inside the three functions; the arguments are its local
    variables. *)
Inductive pc :=
  (* try_get *)
  | GetStart
  | GetLoop (head : loc)
  | GetIncRefs (head : loc) (refs : Z)
  | GetNext (head : loc)
  | GetCasHead (head next : loc)
  | GetAssert (head : loc)
  | GetDec2 (head : loc)
  | GetDec1 (prevHead head : loc)
  (* add *)
  | AddStart (node : loc)
  (* add_knowing_refcount_is_zero *)
  | PushLoad (node : loc) (k : after)
  | PushSetNext (node head : loc) (k : after)
  | PushSetRefs (node head : loc) (k : after)
  | PushCas (node head : loc) (k : after)
  | PushFail (node head : loc) (k : after).

Inductive result := Got (n : loc) | Added.

Definition resume (k : after) : result + pc :=
  match k with AfterAdd => inl Added | AfterGet head => inr (GetLoop head) end.

(** One atomic step, with the local computation around it. *)
Definition step (p : pc) : M FreeList (result + pc) :=
  match p with
  | GetStart =>
      let! head := gets freeListHead in ret (inr (GetLoop head))
  | GetLoop head =>
      if head =? nullptr then ret (inl (Got nullptr))
      else let! refs := load_refs head in ret (inr (GetIncRefs head refs))
  | GetIncRefs head refs =>
      if Z.land refs REFS_MASK =? 0 then ret (inr GetStart)
      else
        let! ok := cas_refs head refs (wrap 32 (refs + 1)) in
        ret (inr (if ok : bool then GetNext head else GetStart))
  | GetNext head =>
      let! next := load_next head in ret (inr (GetCasHead head next))
  | GetCasHead head next =>
      let! r := cas_head head next in
      ret (inr (if r.1 then GetAssert head else GetDec1 head r.2))
  | GetAssert head =>
      let! refs := load_refs head in
      cassert (Z.land refs SHOULD_BE_ON_FREELIST =? 0);;
      ret (inr (GetDec2 head))
  | GetDec2 head =>
      fetch_add_refs head (- 2);; ret (inl (Got head))
  | GetDec1 prevHead head =>
      let! refs := fetch_add_refs prevHead (- 1) in
      ret (inr (if refs =? wrap 32 (SHOULD_BE_ON_FREELIST + 1)
                then PushLoad prevHead (AfterGet head) else GetLoop head))
  | AddStart n =>
      let! old := fetch_add_refs n SHOULD_BE_ON_FREELIST in
      ret (if old =? 0 then inr (PushLoad n AfterAdd) else inl Added)
  | PushLoad n k =>
      let! head := gets freeListHead in ret (inr (PushSetNext n head k))
  | PushSetNext n head k =>
      store_next n head;; ret (inr (PushSetRefs n head k))
  | PushSetRefs n head k =>
      store_refs n 1;; ret (inr (PushCas n head k))
  | PushCas n head k =>
      let! r := cas_head head n in
      ret (if r.1 then resume k else inr (PushFail n r.2 k))
  | PushFail n head k =>
      let! old := fetch_add_refs n (SHOULD_BE_ON_FREELIST - 1) in
      ret (if old =? 1 then inr (PushSetNext n head k) else resume k)
  end.

(** An uninterrupted call: a thread that runs alone until it returns. *)
Fixpoint run (fuel : nat) (p : pc) : M FreeList result :=
  match fuel with
  | O => faults OutOfFuel
  | S fuel =>
      let! r := step p in
      match r with inl v => ret v | inr p => run fuel p end
  end.

(** Seven steps are the longest uninterrupted path ([try_get]). *)
Definition add (n : loc) : M FreeList unit := run 7 (AddStart n);; ret tt.
Definition try_get : M FreeList loc :=
  let! r := run 7 GetStart in
  match r with Got n => ret n | Added => faults AssertFailed end.

(** [head_unsafe] and the walk over the list it allows when nobody else uses
    it. *)
Definition head_unsafe : M FreeList loc := gets freeListHead.

(** Threads calling the two operations.  [owned] are the nodes that are held
    by clients: [add] may be called on those only, and [try_get] returns its
    node to them. *)
Record config := mkConfig {
  fl : FreeList;
  threads : list (option pc);
  owned : gset loc
}.

Inductive cstep : config -> config -> Prop :=
  | c_create f ths ow n :
      n <> nullptr -> nodes f !! n = None ->
      cstep (mkConfig f ths ow) (mkConfig (set_node n new_node f) ths ({[n]} ∪ ow))
  | c_call_try_get f ths ow i :
      ths !! i = Some None ->
      cstep (mkConfig f ths ow) (mkConfig f (<[i := Some GetStart]> ths) ow)
  | c_call_add f ths ow i n :
      ths !! i = Some None -> n ∈ ow ->
      cstep (mkConfig f ths ow)
            (mkConfig f (<[i := Some (AddStart n)]> ths) (ow ∖ {[n]}))
  | c_step f ths ow i p p' f' :
      ths !! i = Some (Some p) -> step p f = Ok (inr p') f' ->
      cstep (mkConfig f ths ow) (mkConfig f' (<[i := Some p']> ths) ow)
  | c_added f ths ow i p f' :
      ths !! i = Some (Some p) -> step p f = Ok (inl Added) f' ->
      cstep (mkConfig f ths ow) (mkConfig f' (<[i := None]> ths) ow)
  | c_got f ths ow i p f' n :
      ths !! i = Some (Some p) -> step p f = Ok (inl (Got n)) f' ->
      cstep (mkConfig f ths ow)
            (mkConfig f' (<[i := None]> ths)
               (if n =? nullptr then ow else {[n]} ∪ ow)).

(** [N] threads, no nodes yet. *)
Definition init_config (N : nat) : config :=
  mkConfig (mkFreeList nullptr ∅) (replicate N None) ∅.

Definition reachable (N : nat) (c : config) : Prop := rtc cstep (init_config N) c.

(** A schedule is a list of moves; one that is not possible does nothing. *)
Inductive list_move :=
  | Create (n : loc)
  | CallTryGet (i : nat)
  | CallAdd (i : nat) (n : loc)
  | Advance (i : nat).

Definition list_exec (m : list_move) (c : config) : config :=
  match m with
  | Create n =>
      if decide (n <> nullptr /\ nodes (fl c) !! n = None)
      then mkConfig (set_node n new_node (fl c)) (threads c) ({[n]} ∪ owned c) else c
  | CallTryGet i =>
      match threads c !! i with
      | Some None => mkConfig (fl c) (<[i := Some GetStart]> (threads c)) (owned c)
      | _ => c
      end
  | CallAdd i n =>
      match threads c !! i with
      | Some None =>
          if decide (n ∈ owned c)
          then mkConfig (fl c) (<[i := Some (AddStart n)]> (threads c)) (owned c ∖ {[n]}) else c
      | _ => c
      end
  | Advance i =>
      match threads c !! i with
      | Some (Some p) =>
          match step p (fl c) with
          | Ok (inr p') f' => mkConfig f' (<[i := Some p']> (threads c)) (owned c)
          | Ok (inl Added) f' => mkConfig f' (<[i := None]> (threads c)) (owned c)
          | Ok (inl (Got n)) f' =>
              mkConfig f' (<[i := None]> (threads c))
                (if n =? nullptr then owned c else {[n]} ∪ owned c)
          | _ => c
          end
      | _ => c
      end
  end.

Definition list_schedule (l : list list_move) (c : config) : config :=
  foldl (flip list_exec) c l.
