(* ===== verification/FreeListProofs.v ===== *)
(** The invariant of the free list under every interleaving, and what it
    gives: no step faults (the assertion of [try_get] holds), a node has one
    owner at a time, no node is lost.  Plus the effect of an uninterrupted
    call. *)

From S2P Require Import Prelude MachineInt FreeList.

(** * The chain of listed nodes *)

Abbreviation is_chain := (linked freeListNext).

(** * Roles of a node

    Every node is in exactly one of seven roles: held by a client, about to
    be added, being pushed with a zero count, being pushed with a count of
    one, on the list, popped but not yet returned, or flagged
    [SHOULD_BE_ON_FREELIST] and waiting for its last reader. *)

Definition ind (P : Prop) `{Decision P} : Z := if decide P then 1 else 0.

Definition own_t (n : loc) (p : pc) : Z :=
  match p with AddStart m => ind (m = n) | _ => 0 end.
Definition push_t (n : loc) (p : pc) : Z :=
  match p with
  | PushLoad m _ | PushSetNext m _ _ | PushSetRefs m _ _ => ind (m = n)
  | _ => 0
  end.
Definition cas_t (n : loc) (p : pc) : Z :=
  match p with PushCas m _ _ | PushFail m _ _ => ind (m = n) | _ => 0 end.
Definition pop_t (n : loc) (p : pc) : Z :=
  match p with GetAssert m | GetDec2 m => ind (m = n) | _ => 0 end.
(** Threads that hold a reference on [n]. *)
Definition ref_t (n : loc) (p : pc) : Z :=
  match p with
  | GetNext m | GetCasHead m _ | GetAssert m | GetDec2 m | GetDec1 m _ => ind (m = n)
  | _ => 0
  end.

Definition tot (g : pc -> Z) (ths : list (option pc)) : Z :=
  zsum (from_option g 0 <$> ths).

Lemma tot_insert g ths i o o' :
  ths !! i = Some o ->
  tot g (<[i := o']> ths) = tot g ths - from_option g 0 o + from_option g 0 o'.
Proof. apply zsum_insert. Qed.

Definition is_role (g : pc -> Z) : Prop := forall p, 0 <= g p <= 1.

Lemma roles n : is_role (own_t n) /\ is_role (push_t n) /\ is_role (cas_t n) /\
  is_role (pop_t n) /\ is_role (ref_t n).
Proof. repeat split; intros; destruct p; simpl; unfold ind; try case_decide; lia. Qed.

Lemma tot_bounds g ths : is_role g -> 0 <= tot g ths <= Z.of_nat (length ths).
Proof.
  intros Hg. split; [apply zsum_nonneg|apply zsum_le_length]; intros [p|]; simpl;
    try lia; apply Hg.
Qed.

Lemma tot_elem g ths i p : is_role g -> ths !! i = Some (Some p) -> g p <= tot g ths.
Proof.
  intros Hg Hi. apply (zsum_elem (from_option g 0) (fun o =>
    match o with Some p => proj1 (Hg p) | None => Z.le_refl 0 end) ths i (Some p) Hi).
Qed.

Definition node_ok (ths : list (option pc)) (ow : gset loc) (l : list loc)
    (pd : loc -> Z) (n : loc) (nd : FreeListNode) : Prop :=
  0 <= pd n /\
  ind (n ∈ ow) + tot (own_t n) ths + tot (push_t n) ths + tot (cas_t n) ths
    + ind (n ∈ l) + tot (pop_t n) ths + pd n = 1 /\
  freeListRefs nd =
    SHOULD_BE_ON_FREELIST * (pd n + tot (push_t n) ths) + tot (ref_t n) ths
    + (tot (cas_t n) ths + ind (n ∈ l) + tot (pop_t n) ths) /\
  (tot (push_t n) ths = 1 -> tot (ref_t n) ths = 0) /\
  (pd n = 1 -> 1 <= tot (ref_t n) ths).

(** What a thread knows at each program point. *)
Definition valid (ns : gmap loc FreeListNode) (n : loc) : Prop :=
  n = nullptr \/ is_Some (ns !! n).
Definition valid_after (ns : gmap loc FreeListNode) (k : after) : Prop :=
  match k with AfterAdd => True | AfterGet h => valid ns h end.
Definition next_is (ns : gmap loc FreeListNode) (n h : loc) : Prop :=
  exists nd, ns !! n = Some nd /\ freeListNext nd = h.

Definition thread_ok (ns : gmap loc FreeListNode) (p : pc) : Prop :=
  match p with
  | GetStart => True
  | GetLoop h => valid ns h
  | GetIncRefs h _ | GetNext h | GetAssert h | GetDec2 h | AddStart h =>
      is_Some (ns !! h)
  | GetCasHead h next => next_is ns h next
  | GetDec1 h h' => is_Some (ns !! h) /\ valid ns h'
  | PushLoad n k => is_Some (ns !! n) /\ valid_after ns k
  | PushSetNext n h k | PushFail n h k =>
      is_Some (ns !! n) /\ valid ns h /\ valid_after ns k
  | PushSetRefs n h k | PushCas n h k =>
      next_is ns n h /\ valid ns h /\ valid_after ns k
  end.

Record inv (N : nat) (f : FreeList) (ths : list (option pc)) (ow : gset loc)
    (l : list loc) (pd : loc -> Z) : Prop := {
  inv_threads : length ths = N;
  inv_null : nodes f !! nullptr = None;
  inv_chain : is_chain (nodes f) (freeListHead f) l;
  inv_nodup : NoDup l;
  inv_owned : forall n, n ∈ ow -> is_Some (nodes f !! n);
  inv_nodes : forall n nd, nodes f !! n = Some nd -> node_ok ths ow l pd n nd;
  inv_thread : forall i p, ths !! i = Some (Some p) -> thread_ok (nodes f) p
}.

(** * Preservation *)

(** [ns'] has the nodes of [ns], with the same [next] fields. *)
Definition same_next (ns ns' : gmap loc FreeListNode) : Prop :=
  forall n, freeListNext <$> (ns' !! n) = freeListNext <$> (ns !! n).

Lemma same_next_refl ns : same_next ns ns.
Proof. done. Qed.

Lemma same_next_refs ns n nd v :
  ns !! n = Some nd -> same_next ns (<[n := mkNode v (freeListNext nd)]> ns).
Proof.
  intros Hn m. destruct (decide (m = n)) as [->|].
  - by rewrite lookup_insert_eq, Hn.
  - by rewrite lookup_insert_ne.
Qed.

#[local] Hint Resolve same_next_refl same_next_refs : cq.

Lemma same_next_lookup ns ns' n nd :
  same_next ns ns' -> ns !! n = Some nd ->
  exists nd', ns' !! n = Some nd' /\ freeListNext nd' = freeListNext nd.
Proof.
  intros Hs Hn. specialize (Hs n). rewrite Hn in Hs.
  destruct (ns' !! n) as [nd'|]; simplify_eq/=. eauto.
Qed.

Lemma same_next_some ns ns' n :
  same_next ns ns' -> is_Some (ns !! n) -> is_Some (ns' !! n).
Proof. intros Hs [nd Hn]. destruct (same_next_lookup _ _ _ _ Hs Hn) as (?&?&?). eauto. Qed.

Lemma same_next_chain ns ns' h l :
  same_next ns ns' -> is_chain ns h l -> is_chain ns' h l.
Proof. intros Hs Hc. eapply linked_frame; [done|]. intros. by eapply same_next_lookup. Qed.

Lemma same_next_valid ns ns' n : same_next ns ns' -> valid ns n -> valid ns' n.
Proof. intros Hs [|]; [by left|right]. by eapply same_next_some. Qed.

Lemma same_next_valid_after ns ns' k :
  same_next ns ns' -> valid_after ns k -> valid_after ns' k.
Proof. intros Hs. destruct k; simpl; [done|]. by apply same_next_valid. Qed.

Lemma same_next_next_is ns ns' n h : same_next ns ns' -> next_is ns n h -> next_is ns' n h.
Proof.
  intros Hs (nd & Hn & <-). destruct (same_next_lookup _ _ _ _ Hs Hn) as (nd'&?&?).
  exists nd'. auto.
Qed.

#[local] Hint Resolve same_next_some same_next_valid same_next_valid_after
  same_next_next_is same_next_chain : cq.

(** The program points at which a thread relies on the [next] field of [m]. *)
Definition needs_next (p : pc) (m : loc) : Prop :=
  match p with
  | GetCasHead n _ | PushSetRefs n _ _ | PushCas n _ _ => n = m
  | _ => False
  end.

Lemma thread_ok_frame ns ns' p :
  (forall m, is_Some (ns !! m) -> is_Some (ns' !! m)) ->
  (forall m v, needs_next p m -> next_is ns m v -> next_is ns' m v) ->
  thread_ok ns p -> thread_ok ns' p.
Proof.
  intros Hd Hx.
  assert (forall m, valid ns m -> valid ns' m) as Hv by (intros m [|]; [by left|right; auto]).
  assert (forall k, valid_after ns k -> valid_after ns' k) by (intros [|]; cbn; auto).
  destruct p; cbn in *; intuition auto.
Qed.

Lemma same_next_thread ns ns' p : same_next ns ns' -> thread_ok ns p -> thread_ok ns' p.
Proof. intros Hs. apply thread_ok_frame; eauto with cq. Qed.

(** A step of thread [i] keeps the invariant if it keeps the [next] fields
    and re-establishes the list, the node roles and its own assertion. *)
Lemma inv_update N f ths ow l pd i o f' o' ow' l' pd' :
  inv N f ths ow l pd -> ths !! i = Some o ->
  same_next (nodes f) (nodes f') ->
  is_chain (nodes f) (freeListHead f') l' -> NoDup l' ->
  (forall n, n ∈ ow' -> is_Some (nodes f !! n)) ->
  (forall n nd nd', nodes f !! n = Some nd -> nodes f' !! n = Some nd' ->
     node_ok ths ow l pd n nd ->
     node_ok (<[i := o']> ths) ow' l' pd' n nd') ->
  (forall p, o' = Some p -> thread_ok (nodes f) p) ->
  inv N f' (<[i := o']> ths) ow' l' pd'.
Proof.
  intros [] Hi Hs Hc Hl How Hn Ht. split; eauto with cq.
  - by rewrite length_insert.
  - specialize (Hs nullptr). rewrite inv_null0 in Hs. by destruct (nodes f' !! nullptr).
  - intros n nd' Hnd'. pose proof (Hs n) as E. rewrite Hnd' in E.
    destruct (nodes f !! n) as [nd|] eqn:Hnd; [|done]. eauto.
  - intros j p Hj. eapply same_next_thread; [done|].
    destruct (decide (i = j)) as [<-|].
    + rewrite list_lookup_insert_eq in Hj by by eapply lookup_lt_Some. simplify_eq. auto.
    + rewrite list_lookup_insert_ne in Hj by done. eauto.
Qed.

(** Bounds of the role counts of [n]. *)
Lemma role_bounds n ths N :
  length ths = N ->
  (0 <= tot (own_t n) ths <= Z.of_nat N) /\ (0 <= tot (push_t n) ths <= Z.of_nat N) /\
  (0 <= tot (cas_t n) ths <= Z.of_nat N) /\ (0 <= tot (pop_t n) ths <= Z.of_nat N) /\
  (0 <= tot (ref_t n) ths <= Z.of_nat N).
Proof.
  intros <-. destruct (roles n) as (?&?&?&?&?). repeat apply conj; by apply tot_bounds.
Qed.

Lemma role_elems n ths i p :
  ths !! i = Some (Some p) ->
  own_t n p <= tot (own_t n) ths /\ push_t n p <= tot (push_t n) ths /\
  cas_t n p <= tot (cas_t n) ths /\ pop_t n p <= tot (pop_t n) ths /\
  ref_t n p <= tot (ref_t n) ths.
Proof.
  intros Hi. destruct (roles n) as (?&?&?&?&?).
  repeat apply conj; by eapply tot_elem.
Qed.

(** [Z.land] with the two masks, on a counter below [2^32]. *)
Lemma refs_mask_zero v :
  0 <= v < 2 ^ 32 -> (Z.land v REFS_MASK =? 0) = (v =? 0) || (v =? SHOULD_BE_ON_FREELIST).
Proof.
  intros Hv. change REFS_MASK with (2 ^ 31 - 1). rewrite land_mask by lia.
  unfold SHOULD_BE_ON_FREELIST. apply eq_bool_prop_intro.
  rewrite orb_True, !Is_true_true, !Z.eqb_eq. zdm.
Qed.

Lemma refs_flag_clear v : 0 <= v < 2 ^ 31 -> Z.land v SHOULD_BE_ON_FREELIST = 0.
Proof.
  intros Hv. apply Z.bits_inj'. intros i Hi. rewrite Z.bits_0, Z.land_spec.
  destruct (decide (i = 31)) as [->|].
  - rewrite (proj2 (Z.testbit_false v 31 ltac:(lia))); [done|]. by rewrite Z.div_small.
  - change SHOULD_BE_ON_FREELIST with (2 ^ 31). rewrite Z.pow2_bits_false by lia.
    apply andb_false_r.
Qed.

(** The outcome of a step is as the invariant needs it. *)
Definition step_ok (N : nat) (ths : list (option pc)) (ow : gset loc) (i : nat)
    (r : outcome FreeList (result + pc)) : Prop :=
  match r with
  | Ok (inr p') f' => exists l pd, inv N f' (<[i := Some p']> ths) ow l pd
  | Ok (inl Added) f' => exists l pd, inv N f' (<[i := None]> ths) ow l pd
  | Ok (inl (Got n)) f' =>
      n = nullptr /\ (exists l pd, inv N f' (<[i := None]> ths) ow l pd) \/
      n <> nullptr /\ (n ∉ ow) /\
      exists l pd, inv N f' (<[i := None]> ths) ({[n]} ∪ ow) l pd /\ (n ∉ l)
  | _ => False
  end.

Section step.
Context (N : nat) (f : FreeList) (ths : list (option pc)) (ow : gset loc)
  (l : list loc) (pd : loc -> Z).
Context (HN : Z.of_nat N < 2 ^ 31 - 2) (Hinv : inv N f ths ow l pd).
Context (i : nat).

Lemma step_node n nd : nodes f !! n = Some nd -> node n f = Ok nd f.
Proof using Type. intros H. unfold node, bind, gets. by rewrite H. Qed.

(** The new value of a counter after a [fetch_add] that does not wrap. *)
Lemma step_fetch_add n nd d :
  nodes f !! n = Some nd -> 0 <= freeListRefs nd + d < 2 ^ 32 ->
  fetch_add_refs n d f =
    Ok (freeListRefs nd)
       (set_node n (mkNode (freeListRefs nd + d) (freeListNext nd)) f).
Proof using Type.
  intros H Hr. unfold fetch_add_refs, load_refs, store_refs, bind, ret, modify.
  rewrite !(step_node _ _ H). by rewrite wrap_small.
Qed.

Lemma step_no_change p p' :
  ths !! i = Some (Some p) -> thread_ok (nodes f) p' ->
  (forall n, own_t n p' = own_t n p /\ push_t n p' = push_t n p /\
     cas_t n p' = cas_t n p /\ pop_t n p' = pop_t n p /\ ref_t n p' = ref_t n p) ->
  inv N f (<[i := Some p']> ths) ow l pd.
Proof using Hinv.
  intros Hi Hok Hr. eapply inv_update; eauto with cq; try apply Hinv.
  - intros n nd nd' Hnd Hnd' Hnode. simplify_eq. unfold node_ok in *.
    rewrite !(tot_insert _ _ _ _ _ Hi). cbn [from_option].
    destruct (Hr n) as (->&->&->&->&->). lia.
  - by intros ? [= <-].
Qed.

(** The roles of [n] are the same before and after. *)
Definition same_roles (n : loc) (o o' : option pc) : Prop :=
  from_option (own_t n) 0 o' = from_option (own_t n) 0 o /\
  from_option (push_t n) 0 o' = from_option (push_t n) 0 o /\
  from_option (cas_t n) 0 o' = from_option (cas_t n) 0 o /\
  from_option (pop_t n) 0 o' = from_option (pop_t n) 0 o /\
  from_option (ref_t n) 0 o' = from_option (ref_t n) 0 o.

(** A step whose effect on the roles is confined to the node [m]. *)
Lemma inv_update_one m o f' o' ow' l' pd' :
  ths !! i = Some o ->
  same_next (nodes f) (nodes f') ->
  (forall n, n <> m -> nodes f' !! n = nodes f !! n) ->
  is_chain (nodes f) (freeListHead f') l' -> NoDup l' ->
  (forall n, n ∈ ow' -> is_Some (nodes f !! n)) ->
  (forall n, n <> m ->
     same_roles n o o' /\ (n ∈ ow' <-> n ∈ ow) /\ (n ∈ l' <-> n ∈ l) /\ pd' n = pd n) ->
  (forall nd nd', nodes f !! m = Some nd -> nodes f' !! m = Some nd' ->
     node_ok ths ow l pd m nd -> node_ok (<[i := o']> ths) ow' l' pd' m nd') ->
  (forall p, o' = Some p -> thread_ok (nodes f) p) ->
  inv N f' (<[i := o']> ths) ow' l' pd'.
Proof using Hinv.
  intros Hi Hs Hother Hc Hnd How Hr Hm Ht. eapply inv_update; try done.
  intros n nd nd' H1 H2. destruct (decide (n = m)) as [->|Hne]; [by apply Hm|].
  destruct (Hr n Hne) as ((E1&E2&E3&E4&E5)&Eow&El&Epd).
  rewrite Hother, H1 in H2 by done. simplify_eq. unfold node_ok, ind.
  rewrite !(tot_insert _ _ _ _ _ Hi), E1, E2, E3, E4, E5, Epd, !Z.sub_add.
  by rewrite (decide_ext _ _ 1 0 Eow), (decide_ext _ _ 1 0 El).
Qed.

(** Its special case for a change of one counter. *)
Lemma inv_update_refs m nd v o o' ow' pd' :
  ths !! i = Some o -> nodes f !! m = Some nd ->
  (forall n, n ∈ ow' -> is_Some (nodes f !! n)) ->
  (forall n, n <> m -> same_roles n o o' /\ (n ∈ ow' <-> n ∈ ow) /\ pd' n = pd n) ->
  (node_ok ths ow l pd m nd ->
   node_ok (<[i := o']> ths) ow' l pd' m (mkNode v (freeListNext nd))) ->
  (forall p, o' = Some p -> thread_ok (nodes f) p) ->
  inv N (set_node m (mkNode v (freeListNext nd)) f) (<[i := o']> ths) ow' l pd'.
Proof using Hinv.
  intros Hi Hnd How Hr Hm Ht. eapply (inv_update_one m); try done; cbn.
  - by apply same_next_refs.
  - intros. by rewrite lookup_insert_ne.
  - apply Hinv.
  - apply Hinv.
  - intros n Hne. destruct (Hr n Hne) as (?&?&?). done.
  - intros nd0 nd' H1 H2 H. rewrite lookup_insert_eq in H2. simplify_eq. auto.
Qed.

(** The facts about the node a thread works on. *)
Lemma node_facts n nd p :
  nodes f !! n = Some nd -> ths !! i = Some (Some p) ->
  node_ok ths ow l pd n nd /\
  ((0 <= tot (own_t n) ths <= Z.of_nat N) /\ (0 <= tot (push_t n) ths <= Z.of_nat N) /\
   (0 <= tot (cas_t n) ths <= Z.of_nat N) /\ (0 <= tot (pop_t n) ths <= Z.of_nat N) /\
   (0 <= tot (ref_t n) ths <= Z.of_nat N)) /\
  (own_t n p <= tot (own_t n) ths /\ push_t n p <= tot (push_t n) ths /\
   cas_t n p <= tot (cas_t n) ths /\ pop_t n p <= tot (pop_t n) ths /\
   ref_t n p <= tot (ref_t n) ths).
Proof using Hinv.
  intros Hn Hi. split_and!; try apply (role_bounds _ _ N (inv_threads _ _ _ _ _ _ Hinv));
    try by apply (role_elems n _ _ _ Hi). by eapply inv_nodes.
Qed.

(** Reduces role arithmetic to linear arithmetic. *)
Ltac roles Hi :=
  unfold node_ok, same_roles in *; rewrite ?(tot_insert _ _ _ _ _ Hi);
  cbn [fst snd] in *;
  cbn [from_option own_t push_t cas_t pop_t ref_t freeListRefs freeListNext] in *;
  unfold ind, SHOULD_BE_ON_FREELIST in *;
  repeat (case_decide || case_match);
  repeat match goal with
  | H : _ ∈ {[_]} ∪ _ |- _ => apply elem_of_union in H as [?%elem_of_singleton|H]
  | H : _ ∉ {[_]} ∪ _ |- _ => apply not_elem_of_union in H as [?%not_elem_of_singleton H]
  | H : _ ∈ _ ∖ {[_]} |- _ => apply elem_of_difference in H as [H ?%not_elem_of_singleton]
  | H : _ ∈ _ :: _ |- _ => apply elem_of_cons in H as [?|H]
  | H : _ ∉ _ :: _ |- _ => apply not_elem_of_cons in H as [? H]
  end; try done; try lia.

(** The other nodes keep their roles. *)
Ltac others Hi :=
  let n := fresh "n" in let Hn := fresh "Hn" in
  intros n Hn; split; [roles Hi|];
  rewrite ?elem_of_union, ?elem_of_difference, ?elem_of_singleton;
  repeat case_decide; tauto.

Lemma step_GetStart : ths !! i = Some (Some GetStart) -> step_ok N ths ow i (step GetStart f).
Proof using All.
  intros Hi. exists l, pd. eapply step_no_change; eauto.
  eapply linked_head. apply Hinv.
Qed.

Lemma step_GetLoop h :
  ths !! i = Some (Some (GetLoop h)) -> step_ok N ths ow i (step (GetLoop h) f).
Proof using All.
  intros Hi. pose proof (inv_thread _ _ _ _ _ _ Hinv _ _ Hi) as Hok. cbn in Hok.
  unfold step. destruct (Z.eqb_spec h nullptr) as [->|Hh].
  - left. split; [done|]. exists l, pd.
    eapply (inv_update_one nullptr); eauto with cq; try apply Hinv.
    + others Hi.
    + intros nd nd' H. by rewrite (inv_null _ _ _ _ _ _ Hinv) in H.
    + done.
  - destruct Hok as [|[nd Hnd]]; [done|].
    unfold load_refs, bind. rewrite (step_node _ _ Hnd).
    exists l, pd. eapply step_no_change; eauto. cbn. eauto.
Qed.

Lemma step_GetIncRefs h refs :
  ths !! i = Some (Some (GetIncRefs h refs)) ->
  step_ok N ths ow i (step (GetIncRefs h refs) f).
Proof using All.
  intros Hi. pose proof (inv_thread _ _ _ _ _ _ Hinv _ _ Hi) as [nd Hnd].
  unfold step. destruct (Z.land refs REFS_MASK =? 0) eqn:Hm.
  { exists l, pd. eapply step_no_change; eauto. done. }
  unfold cas_refs, load_refs, store_refs, bind, ret, modify.
  rewrite (step_node _ _ Hnd). destruct (Z.eqb_spec (freeListRefs nd) refs) as [<-|Hne].
  2: { exists l, pd. eapply step_no_change; eauto. done. }
  rewrite (step_node _ _ Hnd). exists l, pd.
  destruct (node_facts _ _ _ Hnd Hi) as (Hn & Hb & He).
  assert (0 <= freeListRefs nd < 2 ^ 32 - 1) as Hr by roles Hi.
  rewrite refs_mask_zero, orb_false_iff, !Z.eqb_neq in Hm by lia.
  rewrite wrap_small by lia. eapply inv_update_refs; eauto; try apply Hinv.
  - others Hi.
  - intros _. roles Hi.
  - intros ? [= <-]. cbn. eauto.
Qed.

Lemma step_GetNext h :
  ths !! i = Some (Some (GetNext h)) -> step_ok N ths ow i (step (GetNext h) f).
Proof using All.
  intros Hi. pose proof (inv_thread _ _ _ _ _ _ Hinv _ _ Hi) as [nd Hnd].
  unfold step, load_next, bind. rewrite (step_node _ _ Hnd).
  exists l, pd. eapply step_no_change; eauto. by exists nd.
Qed.

Lemma step_GetCasHead h next :
  ths !! i = Some (Some (GetCasHead h next)) ->
  step_ok N ths ow i (step (GetCasHead h next) f).
Proof using All.
  intros Hi. pose proof (inv_thread _ _ _ _ _ _ Hinv _ _ Hi) as (nd & Hnd & Hnx).
  pose proof (inv_chain _ _ _ _ _ _ Hinv) as Hc.
  pose proof (inv_nodup _ _ _ _ _ _ Hinv) as Hdup.
  unfold step, cas_head, bind, gets. destruct (Z.eqb_spec (freeListHead f) h) as [<-|Hne].
  2: { exists l, pd. eapply step_no_change; eauto. split; [eauto|].
       by eapply linked_head. }
  assert (freeListHead f <> nullptr) as Hh.
  { intros E. rewrite E, (inv_null _ _ _ _ _ _ Hinv) in Hnd. done. }
  destruct (linked_cons_inv _ _ _ Hc Hh) as (nd' & l' & El & Hnd' & Hc').
  assert (nd' = nd) as -> by congruence. subst next.
  rewrite El in Hdup. apply NoDup_cons in Hdup as [Hnin Hdup].
  exists l', pd. eapply (inv_update_one (freeListHead f)); eauto with cq; try apply Hinv.
  - intros n Hn. split; [roles Hi|split; [done|split; [|done]]].
    rewrite El, elem_of_cons. tauto.
  - intros nd1 nd2 H1 H2 Hn. cbn in H2. assert (nd2 = nd1) as -> by congruence.
    destruct (node_facts _ _ _ Hnd Hi) as (_ & Hb & He). rewrite El in Hn. roles Hi.
  - intros ? [= <-]. cbn. eauto.
Qed.

Lemma step_GetAssert h :
  ths !! i = Some (Some (GetAssert h)) -> step_ok N ths ow i (step (GetAssert h) f).
Proof using All.
  intros Hi. pose proof (inv_thread _ _ _ _ _ _ Hinv _ _ Hi) as [nd Hnd].
  destruct (node_facts _ _ _ Hnd Hi) as (Hn & Hb & He).
  unfold step, load_refs, bind. rewrite (step_node _ _ Hnd). unfold ret, cassert.
  rewrite refs_flag_clear by roles Hi.
  exists l, pd. eapply step_no_change; eauto. by exists nd.
Qed.

Lemma step_GetDec2 h :
  ths !! i = Some (Some (GetDec2 h)) -> step_ok N ths ow i (step (GetDec2 h) f).
Proof using All.
  intros Hi. pose proof (inv_thread _ _ _ _ _ _ Hinv _ _ Hi) as [nd Hnd].
  destruct (node_facts _ _ _ Hnd Hi) as (Hn & Hb & He).
  unfold step, bind. rewrite (step_fetch_add _ _ _ Hnd) by roles Hi.
  right. split_and!.
  - intros ->. by rewrite (inv_null _ _ _ _ _ _ Hinv) in Hnd.
  - intros Hin. roles Hi.
  - exists l, pd. split; [|intros Hin; roles Hi].
    eapply inv_update_refs; eauto; try apply Hinv.
    + intros n [->%elem_of_singleton|Hin]%elem_of_union; [eauto|].
      by eapply inv_owned.
    + others Hi.
    + intros _. roles Hi.
    + done.
Qed.

Lemma step_GetDec1 p h :
  ths !! i = Some (Some (GetDec1 p h)) -> step_ok N ths ow i (step (GetDec1 p h) f).
Proof using All.
  intros Hi. pose proof (inv_thread _ _ _ _ _ _ Hinv _ _ Hi) as [[nd Hnd] Hh].
  destruct (node_facts _ _ _ Hnd Hi) as (Hn & Hb & He).
  unfold step, bind. rewrite (step_fetch_add _ _ _ Hnd) by roles Hi.
  unfold ret. change (wrap 32 (SHOULD_BE_ON_FREELIST + 1)) with 2147483649.
  destruct (Z.eqb_spec (freeListRefs nd) 2147483649) as [Er|Er].
  - exists l, (fun n => if decide (n = p) then 0 else pd n).
    eapply inv_update_refs; eauto; try apply Hinv.
    + others Hi.
    + intros _. roles Hi.
    + intros ? [= <-]. cbn. eauto.
  - exists l, pd. eapply inv_update_refs; eauto; try apply Hinv.
    + others Hi.
    + intros _. roles Hi.
    + by intros ? [= <-].
Qed.

Lemma step_AddStart n :
  ths !! i = Some (Some (AddStart n)) -> step_ok N ths ow i (step (AddStart n) f).
Proof using All.
  intros Hi. pose proof (inv_thread _ _ _ _ _ _ Hinv _ _ Hi) as [nd Hnd].
  destruct (node_facts _ _ _ Hnd Hi) as (Hn & Hb & He).
  unfold step, bind. rewrite (step_fetch_add _ _ _ Hnd) by roles Hi.
  unfold ret. destruct (Z.eqb_spec (freeListRefs nd) 0) as [Er|Er].
  - exists l, pd. eapply inv_update_refs; eauto; try apply Hinv.
    + others Hi.
    + intros _. roles Hi.
    + intros ? [= <-]. cbn. eauto.
  - exists l, (fun m => if decide (m = n) then 1 else pd m).
    eapply inv_update_refs; eauto; try apply Hinv.
    + others Hi.
    + intros _. roles Hi.
    + done.
Qed.

Lemma step_PushLoad n k :
  ths !! i = Some (Some (PushLoad n k)) -> step_ok N ths ow i (step (PushLoad n k) f).
Proof using All.
  intros Hi. pose proof (inv_thread _ _ _ _ _ _ Hinv _ _ Hi) as [Hn Hk].
  exists l, pd. eapply step_no_change; eauto. split; [done|split; [|done]].
  eapply linked_head. apply Hinv.
Qed.

(** The one step that changes a [next] field: the node is being pushed with
    a zero count, so no thread and no list relies on the old value. *)
Lemma step_PushSetNext n h k :
  ths !! i = Some (Some (PushSetNext n h k)) ->
  step_ok N ths ow i (step (PushSetNext n h k) f).
Proof using All.
  intros Hi. pose proof (inv_thread _ _ _ _ _ _ Hinv _ _ Hi) as ([nd Hnd] & Hh & Hk).
  destruct (node_facts _ _ _ Hnd Hi) as (Hn & Hb & He).
  unfold step, store_next, bind, modify, ret. rewrite (step_node _ _ Hnd).
  exists l, pd. set (ns' := <[n := mkNode (freeListRefs nd) h]> (nodes f)).
  assert (forall m, m <> n -> ns' !! m = nodes f !! m) as Hne
    by (intros; by apply lookup_insert_ne).
  assert (ns' !! n = Some (mkNode (freeListRefs nd) h)) as Heq by apply lookup_insert_eq.
  assert (forall m, is_Some (nodes f !! m) -> is_Some (ns' !! m)) as Hdom.
  { intros m. destruct (decide (m = n)) as [->|]; [by rewrite Heq|by rewrite Hne]. }
  split; cbn [freeListHead nodes set_node]; fold ns'.
  - rewrite length_insert. apply Hinv.
  - rewrite Hne; [apply Hinv|]. intros <-. by rewrite (inv_null _ _ _ _ _ _ Hinv) in Hnd.
  - eapply linked_frame; [apply Hinv|]. intros m nd' Hm Hnd'.
    exists nd'. split; [|done]. rewrite Hne; [done|]. intros ->. roles Hi.
  - apply Hinv.
  - intros m Hm. by apply Hdom, Hinv.
  - intros m nd'. destruct (decide (m = n)) as [->|Hm].
    + rewrite Heq. intros [= <-]. roles Hi.
    + rewrite Hne by done. intros Hm'%(inv_nodes _ _ _ _ _ _ Hinv). roles Hi.
  - intros j p Hj. destruct (decide (i = j)) as [<-|Hij].
    + rewrite list_lookup_insert_eq in Hj by by eapply lookup_lt_Some.
      simplify_eq. cbn. split; [by exists (mkNode (freeListRefs nd) h)|].
      split; [destruct Hh; [by left|right; auto]|].
      destruct k; cbn in *; [done|]. destruct Hk; [by left|right; auto].
    + rewrite list_lookup_insert_ne in Hj by done.
      eapply thread_ok_frame; [done| |by eapply inv_thread].
      intros m v Hm Hx. unfold next_is. rewrite Hne; [done|]. intros ->.
      pose proof (role_elems n (<[i := None]> ths) j p) as Hr.
      rewrite list_lookup_insert_ne in Hr by done. specialize (Hr Hj).
      rewrite !(tot_insert _ _ _ _ _ Hi) in Hr.
      destruct p; cbn in Hm; try done; roles Hi.
Qed.

Lemma step_PushSetRefs n h k :
  ths !! i = Some (Some (PushSetRefs n h k)) ->
  step_ok N ths ow i (step (PushSetRefs n h k) f).
Proof using All.
  intros Hi. pose proof (inv_thread _ _ _ _ _ _ Hinv _ _ Hi) as ((nd & Hnd & Hnx) & Hh & Hk).
  destruct (node_facts _ _ _ Hnd Hi) as (Hn & Hb & He).
  unfold step, store_refs, bind, modify, ret. rewrite (step_node _ _ Hnd).
  exists l, pd. eapply inv_update_refs; eauto; try apply Hinv.
  - others Hi.
  - intros _. roles Hi.
  - intros ? [= <-]. split; [by exists nd|done].
Qed.

(** The thread goes back to its caller. *)
Lemma step_resume f' k l' pd' (Q : forall o, (o = None \/ exists h, o = Some (GetLoop h) /\
    valid (nodes f) h) -> inv N f' (<[i := o]> ths) ow l' pd') :
  valid_after (nodes f) k -> step_ok N ths ow i (Ok (resume k) f').
Proof using Type. intros Hk. destruct k; cbn in *; exists l', pd'; apply Q; eauto. Qed.

Lemma step_PushCas n h k :
  ths !! i = Some (Some (PushCas n h k)) ->
  step_ok N ths ow i (step (PushCas n h k) f).
Proof using All.
  intros Hi. pose proof (inv_thread _ _ _ _ _ _ Hinv _ _ Hi) as ((nd & Hnd & Hnx) & Hh & Hk).
  destruct (node_facts _ _ _ Hnd Hi) as (Hn & Hb & He).
  unfold step, cas_head, bind, gets, modify, ret.
  destruct (Z.eqb_spec (freeListHead f) h) as [<-|Hne]; cbn [fst snd].
  2: { exists l, pd. eapply step_no_change; eauto. cbn. split; [eauto|split; [|done]].
       eapply linked_head, inv_chain; eauto. }
  apply (step_resume _ _ (n :: l) pd); [|done]. intros o Ho.
  eapply (inv_update_one n); eauto with cq; try apply Hinv.
  - cbn. split; [done|]. split; [|exists nd; split; [done|]].
    + intros ->. by rewrite (inv_null _ _ _ _ _ _ Hinv) in Hnd.
    + rewrite Hnx. apply Hinv.
  - apply NoDup_cons. split; [intros ?; roles Hi|apply Hinv].
  - intros m Hm. split; [|rewrite elem_of_cons; tauto].
    destruct Ho as [->|(h' & -> & _)]; roles Hi.
  - intros nd1 nd2 H1 H2 _. cbn in H2. assert (nd1 = nd) as -> by congruence.
    assert (nd2 = nd) as -> by congruence.
    destruct Ho as [->|(h' & -> & _)]; roles Hi.
  - intros p ->. destruct Ho as [|(h' & [= ->] & ?)]; done.
Qed.

Lemma step_PushFail n h k :
  ths !! i = Some (Some (PushFail n h k)) ->
  step_ok N ths ow i (step (PushFail n h k) f).
Proof using All.
  intros Hi. pose proof (inv_thread _ _ _ _ _ _ Hinv _ _ Hi) as ([nd Hnd] & Hh & Hk).
  destruct (node_facts _ _ _ Hnd Hi) as (Hn & Hb & He).
  unfold step, bind. rewrite (step_fetch_add _ _ _ Hnd) by roles Hi.
  unfold ret. destruct (Z.eqb_spec (freeListRefs nd) 1) as [Er|Er].
  - exists l, pd. eapply inv_update_refs; eauto; try apply Hinv.
    + others Hi.
    + intros _. roles Hi.
    + intros ? [= <-]. cbn. eauto.
  - apply (step_resume _ _ l (fun m => if decide (m = n) then 1 else pd m)); [|done].
    intros o Ho. eapply inv_update_refs; eauto; try apply Hinv.
    + destruct Ho as [->|(h' & -> & _)]; others Hi.
    + intros _. destruct Ho as [->|(h' & -> & _)]; roles Hi.
    + intros p ->. destruct Ho as [|(h' & [= ->] & ?)]; done.
Qed.

Lemma step_inv p : ths !! i = Some (Some p) -> step_ok N ths ow i (step p f).
Proof using All.
  destruct p; eauto using step_GetStart, step_GetLoop, step_GetIncRefs, step_GetNext,
    step_GetCasHead, step_GetAssert, step_GetDec2, step_GetDec1, step_AddStart,
    step_PushLoad, step_PushSetNext, step_PushSetRefs, step_PushCas, step_PushFail.
Qed.
End step.

(** * Every reachable configuration *)

Lemma inv_init N : inv N (fl (init_config N)) (threads (init_config N))
  (owned (init_config N)) [] (fun _ => 0).
Proof.
  split; cbn [init_config fl threads owned nodes freeListHead]; try done.
  - apply length_replicate.
  - apply NoDup_nil_2.
  - intros i p H. apply lookup_replicate in H as [[=] _].
Qed.

(** A node nobody knows yet has no role. *)
Lemma no_roles N f ths ow l pd n :
  inv N f ths ow l pd -> nodes f !! n = None ->
  tot (own_t n) ths = 0 /\ tot (push_t n) ths = 0 /\ tot (cas_t n) ths = 0 /\
  tot (pop_t n) ths = 0 /\ tot (ref_t n) ths = 0.
Proof.
  intros Hinv Hn.
  assert (forall p m, Some p ∈ ths -> m = n ->
    is_Some (nodes f !! m) \/ next_is (nodes f) m nullptr \/ (exists h, next_is (nodes f) m h) ->
    False) as Hno.
  { intros p m _ -> [[? H]|[(? & H & _)|(? & ? & H & _)]]; congruence. }
  repeat apply conj; apply zsum_zero; intros [p|] Hp; try done;
    pose proof Hp as [i Hi]%list_elem_of_lookup;
    pose proof (inv_thread _ _ _ _ _ _ Hinv _ _ Hi) as Hok;
    destruct p; cbn in *; try done; unfold ind; case_decide; try done; exfalso;
    eapply Hno; eauto; intuition eauto.
Qed.

Lemma cstep_inv N c c' l pd :
  Z.of_nat N < 2 ^ 31 - 2 -> cstep c c' ->
  inv N (fl c) (threads c) (owned c) l pd ->
  exists l' pd', inv N (fl c') (threads c') (owned c') l' pd'.
Proof.
  intros HN Hstep Hinv.
  destruct Hstep as [f ths ow n Hnull Hn|f ths ow i Hi|f ths ow i n Hi Hn
    |f ths ow i p p' f' Hi Hs|f ths ow i p f' Hi Hs|f ths ow i p f' n Hi Hs];
    cbn [fl threads owned] in *.
  - exists l, (fun m => if decide (m = n) then 0 else pd m).
    destruct (no_roles _ _ _ _ _ _ n Hinv Hn) as (E1 & E2 & E3 & E4 & E5).
    assert (n ∉ ow) as How by (intros [? H]%(inv_owned _ _ _ _ _ _ Hinv); congruence).
    assert (n ∉ l) as Hl.
    { intros Hin. destruct (linked_in _ _ _ _ (inv_chain _ _ _ _ _ _ Hinv) Hin). congruence. }
    assert (forall m, m <> n -> <[n := new_node]> (nodes f) !! m = nodes f !! m) as Hne
      by (intros; by apply lookup_insert_ne).
    split; cbn [nodes set_node freeListHead]; try apply Hinv.
    + rewrite Hne; [apply Hinv|done].
    + eapply linked_frame; [apply Hinv|]. intros m nd Hm Hnd. exists nd.
      by rewrite Hne by congruence.
    + intros m [->%elem_of_singleton|Hm]%elem_of_union; [by rewrite lookup_insert_eq|].
      rewrite Hne by congruence. by eapply inv_owned.
    + intros m nd. destruct (decide (m = n)) as [->|Hm].
      * rewrite lookup_insert_eq. intros [= <-]. unfold node_ok, ind.
        rewrite E1, E2, E3, E4, E5. repeat case_decide; cbn; try done; set_solver.
      * rewrite Hne by done. intros Hnd%(inv_nodes _ _ _ _ _ _ Hinv).
        unfold node_ok, ind in *. rewrite (decide_False (P := m = n)) by done.
        rewrite (decide_ext (m ∈ {[n]} ∪ ow) (m ∈ ow)); [done|].
        rewrite elem_of_union, elem_of_singleton. tauto.
    + intros i p Hi. eapply thread_ok_frame; [| |by eapply inv_thread].
      * intros m Hm. destruct (decide (m = n)) as [->|]; [by rewrite lookup_insert_eq|].
        by rewrite Hne.
      * intros m v _ (nd & Hm & Hv). exists nd. by rewrite Hne by congruence.
  - exists l, pd. eapply inv_update; eauto; try apply Hinv; [done|..].
    + intros n nd nd' H1 H2 H. simplify_eq. unfold node_ok in *.
      rewrite !(tot_insert _ _ _ _ _ Hi). cbn. by rewrite !Z.sub_0_r, !Z.add_0_r.
    + by intros ? [= <-].
  - exists l, pd. eapply inv_update; eauto; try apply Hinv; [done|..].
    + intros m [Hm _]%elem_of_difference. by eapply inv_owned.
    + intros m nd nd' H1 H2 H. simplify_eq. unfold node_ok, ind in *.
      rewrite !(tot_insert _ _ _ _ _ Hi). cbn. unfold ind. rewrite !Z.sub_0_r, !Z.add_0_r.
      destruct (decide (n = m)) as [->|Hne].
      * rewrite (decide_True (P := m ∈ ow)) in H by done.
        rewrite decide_False by (rewrite elem_of_difference, elem_of_singleton; tauto). lia.
      * rewrite (decide_ext (m ∈ ow ∖ {[n]}) (m ∈ ow)); [lia|].
        rewrite elem_of_difference, elem_of_singleton. split; [tauto|]. intros. by split; [|intros ->].
    + intros ? [= <-]. by eapply inv_owned.
  - pose proof (step_inv _ _ _ _ _ _ HN Hinv _ _ Hi) as H. by rewrite Hs in H.
  - pose proof (step_inv _ _ _ _ _ _ HN Hinv _ _ Hi) as H. by rewrite Hs in H.
  - pose proof (step_inv _ _ _ _ _ _ HN Hinv _ _ Hi) as H. rewrite Hs in H. cbn in H.
    destruct H as [[-> H]|(Hne & _ & l' & pd' & H & _)]; [done|].
    rewrite (proj2 (Z.eqb_neq _ _)) by done. eauto.
Qed.

Lemma reachable_inv N c :
  Z.of_nat N < 2 ^ 31 - 2 -> reachable N c ->
  exists l pd, inv N (fl c) (threads c) (owned c) l pd.
Proof.
  intros HN Hr. unfold reachable in Hr.
  assert (exists l pd, inv N (fl (init_config N)) (threads (init_config N))
    (owned (init_config N)) l pd) as H0 by (do 2 eexists; apply inv_init).
  revert H0. generalize dependent (init_config N). intros c0 Hr.
  induction Hr as [|c1 c2 c3 Hs _ IH]; [done|]. intros (l & pd & Hinv).
  apply IH. by eapply cstep_inv.
Qed.

(** C5: Under every interleaving of any number of threads below 2^31 - 2, no
    step of [add], [try_get] or [add_knowing_refcount_is_zero] faults: no
    null or dangling node is dereferenced, and the assertion of [try_get]
    that a popped node does not carry [SHOULD_BE_ON_FREELIST] holds. *)
Theorem free_list_never_faults N c i p :
  Z.of_nat N < 2 ^ 31 - 2 -> reachable N c -> threads c !! i = Some (Some p) ->
  exists r f', step p (fl c) = Ok r f'.
Proof.
  intros HN Hr Hi. destruct (reachable_inv N c HN Hr) as (l & pd & Hinv).
  pose proof (step_inv _ _ _ _ _ _ HN Hinv _ _ Hi) as H.
  destruct (step p (fl c)) as [r f'| |] eqn:E; [eauto|done..].
Qed.

(** C23: A node returned by [try_get] is held by no client at that moment and
    is no longer on the list, so no node is ever handed out twice: ownership
    passes to the caller exclusively. *)
Theorem free_list_get_exclusive N c i p n f' :
  Z.of_nat N < 2 ^ 31 - 2 -> reachable N c -> threads c !! i = Some (Some p) ->
  step p (fl c) = Ok (inl (Got n)) f' -> n <> nullptr ->
  (n ∉ owned c) /\ exists l, is_chain (nodes f') (freeListHead f') l /\ (n ∉ l).
Proof.
  intros HN Hr Hi Hs Hn. destruct (reachable_inv N c HN Hr) as (l & pd & Hinv).
  pose proof (step_inv _ _ _ _ _ _ HN Hinv _ _ Hi) as H. rewrite Hs in H.
  destruct H as [[? _]|(_ & Hown & l' & pd' & H & Hl)]; [done|].
  split; [done|]. exists l'. split; [apply H|done].
Qed.

(** C24: No node is lost or duplicated: whenever no call is in progress, the
    list is a duplicate-free chain of exactly the nodes that no client
    holds, each with a reference count of one. *)
Theorem free_list_quiescent N c :
  Z.of_nat N < 2 ^ 31 - 2 -> reachable N c ->
  (forall i o, threads c !! i = Some o -> o = None) ->
  exists l, is_chain (nodes (fl c)) (freeListHead (fl c)) l /\ NoDup l /\
    (forall n, n ∈ l <-> is_Some (nodes (fl c) !! n) /\ (n ∉ owned c)) /\
    (forall n nd, n ∈ l -> nodes (fl c) !! n = Some nd -> freeListRefs nd = 1).
Proof.
  intros HN Hr Hidle. destruct (reachable_inv N c HN Hr) as (l & pd & Hinv).
  assert (forall g, tot g (threads c) = 0) as Ht.
  { intros g. apply zsum_zero. intros o [i Ho]%list_elem_of_lookup. by rewrite (Hidle i o Ho). }
  exists l. split; [apply Hinv|]. split; [apply Hinv|].
  assert (forall n nd, nodes (fl c) !! n = Some nd ->
    ind (n ∈ owned c) + ind (n ∈ l) = 1 /\ freeListRefs nd = ind (n ∈ l)) as Hk.
  { intros n nd (H1 & H2 & H3 & H4 & H5)%(inv_nodes _ _ _ _ _ _ Hinv).
    rewrite !Ht in *. unfold ind in *. repeat case_decide; lia. }
  split.
  - intros n. split.
    + intros Hn. destruct (linked_in _ _ _ n (inv_chain _ _ _ _ _ _ Hinv) Hn) as [nd Hnd].
      split; [eauto|]. intros How. destruct (Hk _ _ Hnd) as [H _].
      unfold ind in H. by rewrite !decide_True in H.
    + intros [[nd Hnd] How]. destruct (Hk _ _ Hnd) as [H _].
      unfold ind in H. rewrite (decide_False (P := n ∈ owned c)) in H by done.
      case_decide; [done|lia].
  - intros n nd Hn Hnd. destruct (Hk _ _ Hnd) as [_ ->]. unfold ind. by rewrite decide_True.
Qed.

(** * Uninterrupted calls: the free list is a stack *)

(** The abstract state: the nodes on the list, top first; a node off the list
    that nobody references has a zero count. *)
Definition represents (f : FreeList) (l : list loc) : Prop :=
  is_chain (nodes f) (freeListHead f) l /\ NoDup l /\
  forall n nd, n ∈ l -> nodes f !! n = Some nd -> freeListRefs nd = 1.

Lemma add_alone f n nd :
  nodes f !! n = Some nd -> freeListRefs nd = 0 ->
  add n f = Ok tt (mkFreeList n (<[n := mkNode 1 (freeListHead f)]> (nodes f))).
Proof.
  intros Hn H0. destruct f as [h ns], nd as [rf nx]. cbn in *. subst rf.
  unfold add, run, step, fetch_add_refs, store_next, store_refs, load_refs, cas_head, node,
    bind, gets, modify, ret, deref.
  cbn [nodes freeListHead freeListRefs freeListNext set_node]. rewrite Hn.
  cbn [nodes freeListHead freeListRefs freeListNext set_node].
  repeat (rewrite ?lookup_insert_eq, ?insert_insert_eq, ?Hn, ?Z.eqb_refl; cbn).
  unfold set_head, set_node. cbn. by rewrite !insert_insert_eq.
Qed.

Lemma try_get_alone_empty f : freeListHead f = nullptr -> try_get f = Ok nullptr f.
Proof. intros H. unfold try_get, run, step, bind, gets, ret. by rewrite H. Qed.

Lemma try_get_alone f nd :
  freeListHead f <> nullptr -> nodes f !! freeListHead f = Some nd -> freeListRefs nd = 1 ->
  try_get f = Ok (freeListHead f)
    (mkFreeList (freeListNext nd) (<[freeListHead f := mkNode 0 (freeListNext nd)]> (nodes f))).
Proof.
  intros Hh Hn H0. destruct f as [h ns], nd as [rf nx]. cbn in *. subst rf.
  unfold try_get, run, step, bind, gets, ret. cbn [freeListHead].
  rewrite (proj2 (Z.eqb_neq _ _)) by done.
  change (Z.land 1 REFS_MASK =? 0) with false.
  unfold load_refs, node, bind, gets, deref, ret. cbn [nodes]. rewrite Hn.
  cbn [freeListRefs]. change (Z.land 1 REFS_MASK =? 0) with false.
  unfold cas_refs, store_refs, load_next, cas_head, load_refs, fetch_add_refs, node, bind, gets,
    modify, deref, ret, set_node, set_head.
  cbn [nodes freeListHead freeListRefs freeListNext]. rewrite Hn.
  cbn [nodes freeListHead freeListRefs freeListNext Z.eqb Pos.eqb]. rewrite Hn.
  repeat (rewrite ?lookup_insert_eq, ?insert_insert_eq, ?Z.eqb_refl;
          cbn [nodes freeListHead freeListRefs freeListNext fst snd]).
  change (Z.land (wrap 32 (1 + 1)) SHOULD_BE_ON_FREELIST =? 0) with true. cbn [cassert].
  unfold load_refs, node, bind, gets, deref, ret, cassert, ret.
  repeat (rewrite ?lookup_insert_eq, ?insert_insert_eq;
          cbn [nodes freeListHead freeListRefs freeListNext]).
  unfold store_refs, node, bind, gets, deref, ret, modify, set_node.
  repeat (rewrite ?lookup_insert_eq, ?insert_insert_eq;
          cbn [nodes freeListHead freeListRefs freeListNext]).
  done.
Qed.

(** An uninterrupted [add] of a node that is off the list pushes it. *)
Lemma add_represents f l n nd :
  represents f l -> nodes f !! n = Some nd -> freeListRefs nd = 0 -> n <> nullptr ->
  exists f', add n f = Ok tt f' /\ represents f' (n :: l) /\
    (forall m, m <> n -> nodes f' !! m = nodes f !! m).
Proof.
  intros (Hc & Hdup & Href) Hn H0 Hnull. rewrite (add_alone _ _ _ Hn H0).
  assert (n ∉ l) as Hl by (intros Hin; specialize (Href _ _ Hin Hn); lia).
  eexists. split; [done|]. split; [|intros; by apply lookup_insert_ne].
  split; [|split].
  - cbn. split; [done|split; [done|]]. eexists. rewrite lookup_insert_eq. split; [done|].
    eapply linked_frame; [done|]. intros m nd' Hm Hnd'. exists nd'. split; [|done].
    cbn. rewrite lookup_insert_ne; [done|]. by intros ->.
  - by apply NoDup_cons.
  - intros m nd' Hm Hnd'. cbn in Hnd'. destruct (decide (n = m)) as [<-|Hne].
    + rewrite lookup_insert_eq in Hnd'. by simplify_eq.
    + rewrite lookup_insert_ne in Hnd' by done. apply elem_of_cons in Hm as [->|]; [done|eauto].
Qed.

(** An uninterrupted [try_get] returns [nullptr] and changes nothing on an
    empty list, and otherwise pops the top node, leaving it with a zero
    count. *)
Lemma try_get_represents f l :
  represents f l ->
  match l with
  | [] => try_get f = Ok nullptr f
  | n :: l' =>
      exists f', try_get f = Ok n f' /\ represents f' l' /\
        (exists nd, nodes f' !! n = Some nd /\ freeListRefs nd = 0) /\
        (forall m, m <> n -> nodes f' !! m = nodes f !! m)
  end.
Proof.
  intros (Hc & Hdup & Href). destruct l as [|n l].
  { by apply try_get_alone_empty. }
  destruct Hc as (Hh & Hn & nd & Hnd & Hc). apply NoDup_cons in Hdup as [Hl Hdup].
  assert (freeListRefs nd = 1) as H1 by (eapply Href; [by left|done]).
  pose proof (try_get_alone f nd) as E. rewrite Hh in E. rewrite E by done.
  eexists. split; [done|]. split; [split; [|split]|split]; cbn [nodes freeListHead].
  - eapply linked_frame; [done|]. intros m nd' Hm Hnd'. exists nd'. split; [|done].
    cbn. rewrite lookup_insert_ne; [done|]. by intros ->.
  - done.
  - intros m nd' Hm Hnd'.
    rewrite lookup_insert_ne in Hnd' by (by intros ->). eapply Href; [by right|done].
  - eexists. split; [apply lookup_insert_eq|done].
  - intros. by apply lookup_insert_ne.
Qed.

(** * Examples *)

(** Schedules reach reachable configurations. *)
Lemma list_exec_reachable m c : rtc cstep c (list_exec m c).
Proof.
  destruct c as [f ths ow], m as [n|i|i n|i]; cbn.
  - case_decide as H; [|constructor]. apply rtc_once. destruct H. by constructor.
  - destruct (ths !! i) as [[q|]|] eqn:Hi; [constructor| |constructor].
    apply rtc_once. by constructor.
  - destruct (ths !! i) as [[q|]|] eqn:Hi; [constructor| |constructor].
    case_decide; [|constructor]. apply rtc_once. by constructor.
  - destruct (ths !! i) as [[p|]|] eqn:Hi; [|constructor..].
    destruct (step p f) as [[[n|]|p'] f'|f'|e] eqn:Hs; [..|constructor|constructor];
      apply rtc_once; [by eapply c_got|by eapply c_added|by eapply c_step].
Qed.

Lemma list_schedule_reachable N l : reachable N (list_schedule l (init_config N)).
Proof.
  unfold reachable, list_schedule. induction l as [|m l IH] using rev_ind; [constructor|].
  rewrite foldl_snoc. etrans; [exact IH|]. apply list_exec_reachable.
Qed.

(** Two nodes are created and added; thread 1 has read the head and its
    reference count when thread 0 pops the node and puts it back. *)
Definition added (i : nat) (n : loc) : list list_move := CallAdd i n :: replicate 5 (Advance i).
Definition two_added : list list_move :=
  [Create 1; Create 2] ++ added 0 1 ++ added 0 2.
Definition contended : list list_move :=
  two_added ++ [CallTryGet 1; Advance 1; Advance 1; Advance 1] ++
  CallTryGet 0%nat :: replicate 7 (Advance 0) ++ added 0 2 ++ replicate 2 (Advance 1).
Definition popping : list list_move :=
  two_added ++ CallTryGet 0%nat :: replicate 6 (Advance 0).

Lemma free_list_never_faults_witness :
  exists r f', step (GetDec1 2 1) (fl (list_schedule contended (init_config 2))) = Ok r f'.
Proof.
  apply (free_list_never_faults 2 (list_schedule contended (init_config 2)) 1%nat);
    [done|apply list_schedule_reachable|vm_compute; reflexivity].
Defined.

Lemma free_list_get_exclusive_witness :
  (2 ∉ owned (list_schedule popping (init_config 2))) /\
  exists f' l, step (GetDec2 2) (fl (list_schedule popping (init_config 2))) = Ok (inl (Got 2)) f' /\
    is_chain (nodes f') (freeListHead f') l /\ (2 ∉ l).
Proof.
  destruct (step (GetDec2 2) (fl (list_schedule popping (init_config 2))))
    as [[[n|]|p] f'| |] eqn:E; try (vm_compute in E; discriminate E).
  assert (n = 2) as -> by (vm_compute in E; congruence).
  destruct (free_list_get_exclusive 2 (list_schedule popping (init_config 2)) 0%nat (GetDec2 2) 2 f')
    as [? [l ?]]; [done|apply list_schedule_reachable|vm_compute; reflexivity|exact E|done|].
  eauto.
Defined.

Lemma free_list_quiescent_witness :
  let f := fl (list_schedule two_added (init_config 2)) in
  exists l, is_chain (nodes f) (freeListHead f) l /\ NoDup l /\ 2 ∈ l.
Proof.
  destruct (free_list_quiescent 2 (list_schedule two_added (init_config 2))) as (l & ? & ? & Hl & _);
    [done|apply list_schedule_reachable| |].
  - intros [|[|i]] o Ho; vm_compute in Ho; congruence.
  - exists l. split; [done|]. split; [done|]. apply Hl. split; [vm_compute; eauto|].
    replace (owned _) with (∅ : gset loc) by (vm_compute; reflexivity).
    apply not_elem_of_empty.
Defined.
