(* ===== verification/DebugFreeList.v ===== *)
(** The debugging variant of the free list,
    src/internal/concurrentqueue_internal_debug.h: a list behind a mutex, used
    in place of the lock-free one under [MCDBGQ_USEDEBUGFREELIST].  It is the
    reference that the lock-free list is equivalent to. *)

From S2P Require Import Prelude MachineInt FreeList FreeListProofs.

(** * Definitions *)

(** A [DebugMutex]: whether somebody holds it. *)
Definition DebugMutex : Type := bool.

Record DebugFreeList := mkDebugFreeList {
  debug_head : loc;
  mutex : DebugMutex;
  debug_nodes : gmap loc FreeListNode
}.

(** [lock] of a mutex that this thread holds already never returns. *)
Definition mutex_lock : M DebugFreeList unit :=
  let! locked := gets mutex in
  if locked : bool then faults OutOfFuel
  else modify (fun d => mkDebugFreeList (debug_head d) true (debug_nodes d)).
Definition mutex_unlock : M DebugFreeList unit :=
  modify (fun d => mkDebugFreeList (debug_head d) false (debug_nodes d)).

(** [DebugLock lock(mutex);] for the rest of a block. *)
Definition DebugLock {A} (body : M DebugFreeList A) : M DebugFreeList A :=
  mutex_lock;;
  let! a := body in
  mutex_unlock;;
  ret a.

Definition debug_node (n : loc) : M DebugFreeList FreeListNode :=
  let! o := gets (fun d => debug_nodes d !! n) in deref NullDeref o.
Definition set_debug_head (h : loc) : M DebugFreeList unit :=
  modify (fun d => mkDebugFreeList h (mutex d) (debug_nodes d)).

Definition debug_add (n : loc) : M DebugFreeList unit :=
  DebugLock (
    let! nd := debug_node n in
    let! head := gets debug_head in
    modify (fun d => mkDebugFreeList (debug_head d) (mutex d)
      (<[n := mkNode (freeListRefs nd) head]> (debug_nodes d)));;
    set_debug_head n).

Definition debug_try_get : M DebugFreeList loc :=
  DebugLock (
    let! head := gets debug_head in
    if head =? nullptr then ret nullptr
    else
      let prevHead := head in
      let! nd := debug_node head in
      set_debug_head (freeListNext nd);;
      ret prevHead).

Definition debug_head_unsafe : M DebugFreeList loc := gets debug_head.

(** [DebugFreeList(DebugFreeList&& other)] and [swap], on two lists. *)
Definition DebugFreeList_move_ctor : M (DebugFreeList * DebugFreeList) unit :=
  modify (fun ab : DebugFreeList * DebugFreeList => let (a, b) := ab in
    (mkDebugFreeList (debug_head b) false (debug_nodes b),
     mkDebugFreeList nullptr (mutex b) ∅)).
Definition DebugFreeList_swap : M (DebugFreeList * DebugFreeList) unit :=
  modify (fun ab : DebugFreeList * DebugFreeList => let (a, b) := ab in
    (mkDebugFreeList (debug_head b) (mutex a) (debug_nodes b),
     mkDebugFreeList (debug_head a) (mutex b) (debug_nodes a))).

(** * Equivalence with the lock-free list *)

(** A script of calls, and the nodes that its [try_get] calls return. *)
Inductive list_call := CallAddNode (n : loc) | CallGet.

Fixpoint run_list {S} (add : loc -> M S unit) (try_get : M S loc) (l : list list_call)
    : M S (list loc) :=
  match l with
  | [] => ret []
  | CallAddNode n :: l => add n;; run_list add try_get l
  | CallGet :: l =>
      let! n := try_get in let! rs := run_list add try_get l in ret (n :: rs)
  end.

(** Only nodes of [N] that are off the list are added. *)
Fixpoint valid_script (N : gset loc) (stack : list loc) (l : list list_call) : Prop :=
  match l with
  | [] => True
  | CallAddNode n :: l => n ∈ N /\ (n ∉ stack) /\ valid_script N (n :: stack) l
  | CallGet :: l => valid_script N (tail stack) l
  end.

Record lock_free_repr (N : gset loc) (stack : list loc) (f : FreeList) : Prop := {
  lf_stack : represents f stack;
  lf_nodes : forall n, n ∈ N -> n <> nullptr /\ exists nd, nodes f !! n = Some nd /\
    (n ∉ stack -> freeListRefs nd = 0)
}.
Record debug_repr (N : gset loc) (stack : list loc) (d : DebugFreeList) : Prop := {
  db_chain : is_chain (debug_nodes d) (debug_head d) stack;
  db_unlocked : mutex d = false;
  db_nodes : forall n, n ∈ N -> is_Some (debug_nodes d !! n)
}.

Lemma lock_free_add N stack f n :
  lock_free_repr N stack f -> n ∈ N -> n ∉ stack ->
  exists f', add n f = Ok tt f' /\ lock_free_repr N (n :: stack) f'.
Proof.
  intros [Hs Hn] HN Hout. destruct (Hn n HN) as (Hnull & nd & Hnd & H0).
  destruct (add_represents f stack n nd Hs Hnd (H0 Hout) Hnull) as (f' & E & Hs' & Hframe).
  exists f'. split; [done|]. split; [done|]. intros m Hm. destruct (Hn m Hm) as (? & nd' & Hnd' & H0').
  split; [done|]. destruct (decide (m = n)) as [->|Hne].
  - destruct Hs' as ((_ & _ & nd2 & Hnd2 & _) & _). exists nd2. split; [done|].
    intros Hx. destruct Hx. by left.
  - exists nd'. rewrite Hframe by done. split; [done|].
    intros Hx. apply H0'. intros Hx'. apply Hx. by right.
Qed.

Lemma lock_free_get N stack f :
  lock_free_repr N stack f ->
  exists f', try_get f = Ok (default nullptr (head stack)) f' /\ lock_free_repr N (tail stack) f'.
Proof.
  intros [Hs Hn]. pose proof (try_get_represents f stack Hs) as Hget. destruct stack as [|n stack].
  { exists f. done. }
  destruct Hget as (f' & E & Hs' & (nd & Hnd & H0) & Hframe). exists f'. split; [done|].
  split; [done|]. intros m Hm. destruct (Hn m Hm) as (? & nd' & Hnd' & H0'). split; [done|].
  destruct (decide (m = n)) as [->|Hne]; [by exists nd|].
  exists nd'. rewrite Hframe by done. split; [done|]. intros Hx. apply H0'.
  intros [?|?]%elem_of_cons; done.
Qed.

Lemma debug_add_spec N stack d n :
  debug_repr N stack d -> n ∈ N -> n <> nullptr -> n ∉ stack ->
  exists d', debug_add n d = Ok tt d' /\ debug_repr N (n :: stack) d'.
Proof.
  intros [Hc Hm Hn] HN Hnull Hout. destruct d as [h m ns]. cbn in *. subst m.
  destruct (Hn n HN) as [nd Hnd]. eexists. split.
  { unfold debug_add, DebugLock, mutex_lock, mutex_unlock, debug_node, set_debug_head.
    cbn. cbv [bind gets modify deref ret]. cbn. rewrite Hnd. reflexivity. }
  split; cbn; [|done|].
  - split; [done|split; [done|]]. eexists. rewrite lookup_insert_eq. split; [done|]. cbn.
    eapply linked_frame; [done|]. intros k nd' Hk Hnd'. exists nd'. split; [|done].
    rewrite lookup_insert_ne; [done|]. by intros ->.
  - intros k Hk. destruct (decide (n = k)) as [<-|]; [rewrite lookup_insert_eq; eauto|].
    rewrite lookup_insert_ne by done. auto.
Qed.

Lemma debug_get_spec N stack d :
  debug_repr N stack d ->
  exists d', debug_try_get d = Ok (default nullptr (head stack)) d' /\ debug_repr N (tail stack) d'.
Proof.
  intros [Hc Hm Hn]. destruct d as [h m ns]. cbn in *. subst m.
  unfold debug_try_get, DebugLock, mutex_lock, mutex_unlock, debug_node, set_debug_head.
  cbv [bind gets modify deref ret]. cbn.
  destruct stack as [|n stack]; cbn in *.
  - rewrite Hc. cbn. by eexists.
  - destruct Hc as (-> & Hnull & nd & Hnd & Hc). rewrite (proj2 (Z.eqb_neq _ _)) by done.
    cbn. rewrite Hnd. cbn. by eexists.
Qed.

(** C38: The lock-free free list, used by one thread, and the list behind a
    mutex are equivalent: a script of [add] and [try_get] calls that adds only
    nodes that are off the list gets the same nodes from both. *)
Theorem debug_free_list_equivalent N stack l f d :
  lock_free_repr N stack f -> debug_repr N stack d -> valid_script N stack l ->
  exists rs f' d', run_list add try_get l f = Ok rs f' /\
    run_list debug_add debug_try_get l d = Ok rs d'.
Proof.
  revert stack f d. induction l as [|[n|] l IH]; intros stack f d Hf Hd Hv; cbn [run_list].
  - by exists [], f, d.
  - destruct Hv as (HN & Hout & Hv).
    destruct (lock_free_add N stack f n Hf HN Hout) as (f1 & E1 & Hf1).
    destruct (debug_add_spec N stack d n Hd HN) as (d1 & E2 & Hd1); [|done|].
    { by destruct (lf_nodes _ _ _ Hf n HN). }
    destruct (IH _ _ _ Hf1 Hd1 Hv) as (rs & f2 & d2 & E3 & E4). exists rs, f2, d2.
    unfold bind. by rewrite E1, E2.
  - destruct (lock_free_get N stack f Hf) as (f1 & E1 & Hf1).
    destruct (debug_get_spec N stack d Hd) as (d1 & E2 & Hd1).
    destruct (IH _ _ _ Hf1 Hd1 Hv) as (rs & f2 & d2 & E3 & E4).
    exists (default nullptr (head stack) :: rs), f2, d2. unfold bind. by rewrite E1, E2, E3, E4.
Qed.

(** Three nodes that are on no list. *)
Definition three_nodes : gmap loc FreeListNode :=
  <[1 := new_node]> (<[2 := new_node]> (<[3 := new_node]> ∅)).

Lemma debug_free_list_equivalent_witness :
  let l := [CallAddNode 1; CallAddNode 2; CallGet; CallAddNode 3; CallGet; CallGet; CallGet] in
  exists rs f' d', run_list add try_get l (mkFreeList nullptr three_nodes) = Ok rs f' /\
    run_list debug_add debug_try_get l (mkDebugFreeList nullptr false three_nodes) = Ok rs d'.
Proof.
  apply (debug_free_list_equivalent {[1; 2; 3]} []).
  - split; [by split; [|split; [constructor|intros ?? ?%not_elem_of_nil]]|].
    intros n Hn. assert (n = 1 \/ n = 2 \/ n = 3) as [->|[->| ->]] by set_solver;
      (split; [done|]; eexists; split; [reflexivity|done]).
  - split; [done|done|]. intros n Hn.
    assert (n = 1 \/ n = 2 \/ n = 3) as [->|[->| ->]] by set_solver; by eexists.
  - cbn. set_solver.
Defined.
