(* ===== verification/Block.v ===== *)
(** [Block] of src/concurrentqueue.h: storage for [BLOCK_SIZE] elements with
    the record of which of them have been dequeued, kept as one flag per
    element (explicit producers, small blocks) or as a counter. *)

From S2P Require Import Prelude MachineInt Traits.

Inductive InnerQueueContext := implicit_context | explicit_context.

(** The free-list fields of a block live in the [FreeList] component, keyed by
    the block's address.  A slot of [elements] is [None] while it is raw
    storage and [Some v] while it holds a live object. *)
Record Block (T : Type) := mkBlock {
  elements : list (option T);
  next : loc;
  elementsCompletelyDequeued : Z;
  emptyFlags : list bool;
  dynamicallyAllocated : bool
}.
Arguments mkBlock {T}. Arguments elements {T}. Arguments next {T}.
Arguments elementsCompletelyDequeued {T}. Arguments emptyFlags {T}.
Arguments dynamicallyAllocated {T}.

Section block.
Context {T : Type} (tr : Traits).
Implicit Types b : Block T.

Definition set_elements e b : Block T :=
  mkBlock e (next b) (elementsCompletelyDequeued b) (emptyFlags b) (dynamicallyAllocated b).
Definition set_next n b : Block T :=
  mkBlock (elements b) n (elementsCompletelyDequeued b) (emptyFlags b) (dynamicallyAllocated b).
Definition set_counter c b : Block T :=
  mkBlock (elements b) (next b) c (emptyFlags b) (dynamicallyAllocated b).
Definition set_flags f b : Block T :=
  mkBlock (elements b) (next b) (elementsCompletelyDequeued b) f (dynamicallyAllocated b).
Definition set_dynamic d b : Block T :=
  mkBlock (elements b) (next b) (elementsCompletelyDequeued b) (emptyFlags b) d.

(** [context == explicit_context && BLOCK_SIZE <= EXPLICIT_BLOCK_EMPTY_COUNTER_THRESHOLD] *)
Definition uses_flags (context : InnerQueueContext) : bool :=
  match context with
  | explicit_context => BLOCK_SIZE tr <=? EXPLICIT_BLOCK_EMPTY_COUNTER_THRESHOLD tr
  | implicit_context => false
  end.

Definition flag_count : Z :=
  if BLOCK_SIZE tr <=? EXPLICIT_BLOCK_EMPTY_COUNTER_THRESHOLD tr then BLOCK_SIZE tr else 1.

(** The constructor leaves the flags uninitialized: [indeterminate] is the
    content of each of them. *)
Definition new_block (indeterminate : nat -> bool) : Block T :=
  mkBlock (replicate (Z.to_nat (BLOCK_SIZE tr)) None) nullptr 0
    (indeterminate <$> seq 0 (Z.to_nat flag_count)) true.

(** Element accesses: [operator\[\]] masks the index. *)
Definition offset (idx : Z) : Z := wrap (size_bits tr) (Z.land idx (BLOCK_SIZE tr - 1)).

Definition construct (idx : Z) (v : T) : M (Block T) unit :=
  let! e := gets elements in
  let! slot := deref OutOfBounds (zlookup e (offset idx)) in
  match slot with
  | Some _ => faults BadObject
  | None => modify (set_elements (zinsert (offset idx) (Some v) e))
  end.

Definition read (idx : Z) : M (Block T) T :=
  let! e := gets elements in
  let! slot := deref OutOfBounds (zlookup e (offset idx)) in
  deref BadObject slot.

Definition destroy_element (idx : Z) : M (Block T) unit :=
  read idx;;
  let! e := gets elements in modify (set_elements (zinsert (offset idx) None e)).

Definition flag (i : Z) : M (Block T) bool :=
  let! f := gets emptyFlags in deref OutOfBounds (zlookup f i).
Definition store_flag (i : Z) (v : bool) : M (Block T) unit :=
  flag i;; let! f := gets emptyFlags in modify (set_flags (zinsert i v f)).

(** The flag loop of [is_empty], from index [i] on. *)
Fixpoint all_flags (i : Z) (n : nat) : M (Block T) bool :=
  match n with
  | O => ret true
  | S n => let! x := flag i in if x then all_flags (i + 1) n else ret false
  end.

Definition is_empty (context : InnerQueueContext) : M (Block T) bool :=
  if uses_flags context then all_flags 0 (Z.to_nat (BLOCK_SIZE tr))
  else
    let! c := gets elementsCompletelyDequeued in
    if c =? BLOCK_SIZE tr then ret true
    else cassert (c <=? BLOCK_SIZE tr);; ret false.

Definition set_empty (context : InnerQueueContext) (i : Z) : M (Block T) bool :=
  if uses_flags context then
    let j := wrap (size_bits tr) (BLOCK_SIZE tr - 1 - offset i) in
    let! x := flag j in
    cassert (negb x);; store_flag j true;; ret false
  else
    let! prevVal := gets elementsCompletelyDequeued in
    modify (set_counter (wrap (size_bits tr) (prevVal + 1)));;
    cassert (prevVal <? BLOCK_SIZE tr);;
    ret (prevVal =? BLOCK_SIZE tr - 1).

Definition set_many_empty (context : InnerQueueContext) (i count : Z) : M (Block T) bool :=
  if uses_flags context then
    let i := wrap (size_bits tr) (BLOCK_SIZE tr - 1 - offset i - count + 1) in
    for_range 0 (Z.to_nat count) (fun j =>
      let! x := flag (wrap (index_bits tr) (i + j)) in
      cassert (negb x);; store_flag (wrap (index_bits tr) (i + j)) true);;
    ret false
  else
    let! prevVal := gets elementsCompletelyDequeued in
    modify (set_counter (wrap (size_bits tr) (prevVal + count)));;
    cassert (wrap (size_bits tr) (prevVal + count) <=? BLOCK_SIZE tr);;
    ret (wrap (size_bits tr) (prevVal + count) =? BLOCK_SIZE tr).

Definition set_all_empty (context : InnerQueueContext) : M (Block T) unit :=
  if uses_flags context then
    for_range 0 (Z.to_nat (BLOCK_SIZE tr)) (fun i => store_flag i true)
  else modify (set_counter (BLOCK_SIZE tr)).

Definition reset_empty (context : InnerQueueContext) : M (Block T) unit :=
  if uses_flags context then
    for_range 0 (Z.to_nat (BLOCK_SIZE tr)) (fun i => store_flag i false)
  else modify (set_counter 0).
End block.

(** * Specification

    [dequeued context D b]: the elements of [b] that have been dequeued are
    those at the offsets in [D]. *)

Definition offsets (lo n : Z) : gset Z := list_to_set (seqZ lo n).

Lemma elem_of_offsets lo n i : i ∈ offsets lo n <-> lo <= i < lo + n.
Proof. unfold offsets. rewrite elem_of_list_to_set, elem_of_seqZ. done. Qed.

Lemma size_offsets lo n : 0 <= n -> Z.of_nat (size (offsets lo n)) = n.
Proof.
  intros. unfold offsets. rewrite size_list_to_set by apply NoDup_seqZ.
  rewrite length_seqZ. lia.
Qed.

Section spec.
Context {T : Type} (tr : Traits) `{!TraitsOk tr}.
Implicit Types (b : Block T) (D : gset Z).

Record block_wf b : Prop := {
  wf_elements : zlength (elements b) = BLOCK_SIZE tr;
  wf_flags : zlength (emptyFlags b) = flag_count tr
}.

Record dequeued (context : InnerQueueContext) D b : Prop := {
  dq_range : D ⊆ offsets 0 (BLOCK_SIZE tr);
  dq_flags : uses_flags tr context = true ->
    forall i, 0 <= i < BLOCK_SIZE tr ->
    zlookup (emptyFlags b) (BLOCK_SIZE tr - 1 - i) = Some (bool_decide (i ∈ D));
  dq_counter : uses_flags tr context = false ->
    elementsCompletelyDequeued b = Z.of_nat (size D)
}.

Lemma dequeued_size context D b : dequeued context D b -> Z.of_nat (size D) <= BLOCK_SIZE tr.
Proof using All.
  intros [Hr _ _]. pose proof (block_size_gt_1 tr).
  rewrite <- (size_offsets 0 (BLOCK_SIZE tr)) by lia.
  apply inj_le, subseteq_size, Hr.
Qed.

Lemma offset_eq idx : offset tr idx = idx mod BLOCK_SIZE tr.
Proof using TraitsOk0.
  unfold offset. rewrite mask_block by done. pose proof (block_size_gt_1 tr).
  pose proof (traits_block (tr := tr)). apply wrap_small.
  pose proof (Z.mod_pos_bound idx (BLOCK_SIZE tr)). lia.
Qed.

Lemma offset_range idx : 0 <= offset tr idx < BLOCK_SIZE tr.
Proof using TraitsOk0.
  rewrite offset_eq. pose proof (block_size_gt_1 tr). apply Z.mod_pos_bound. lia.
Qed.

Lemma flags_length context b :
  uses_flags tr context = true -> block_wf b -> zlength (emptyFlags b) = BLOCK_SIZE tr.
Proof using Type.
  intros Hu [_ ->]. unfold flag_count. destruct context; [done|]. cbn in Hu. by rewrite Hu.
Qed.

Lemma wp_flag i x (Q : bool -> Block T -> Prop) E b :
  zlookup (emptyFlags b) i = Some x -> Q x b -> wp (flag i) Q E b.
Proof using Type. intros H HQ. unfold flag. wp_steps; done. Qed.

Lemma wp_store_flag i v (Q : unit -> Block T -> Prop) E b :
  0 <= i < zlength (emptyFlags b) ->
  Q tt (set_flags (zinsert i v (emptyFlags b)) b) -> wp (store_flag i v) Q E b.
Proof using Type.
  intros Hi HQ. unfold store_flag. wp_step.
  destruct (zlookup_is_Some _ _ Hi) as [x Hx]. eapply wp_flag; [done|]. wp_steps. done.
Qed.

Lemma wp_all_flags n i (Q : bool -> Block T -> Prop) E b :
  0 <= i -> i + Z.of_nat n <= zlength (emptyFlags b) ->
  (forall r, (r = true <->
     forall j, i <= j < i + Z.of_nat n -> zlookup (emptyFlags b) j = Some true) -> Q r b) ->
  wp (all_flags i n) Q E b.
Proof using Type.
  revert i. induction n as [|n IH]; intros i Hi Hn HQ; cbn [all_flags].
  { apply wp_ret, HQ. split; [intros; lia|done]. }
  destruct (zlookup_is_Some (emptyFlags b) i) as [x Hx]; [lia|].
  wp_step. eapply wp_flag; [done|]. destruct x.
  - apply IH; [lia..|]. intros r Hr. apply HQ. rewrite Hr. split; intros H j Hj; [|apply H; lia].
    destruct (decide (j = i)) as [->|]; [done|apply H; lia].
  - apply wp_ret, HQ. split; [done|]. intros H. rewrite H in Hx by lia. done.
Qed.

(** Only the record of dequeued elements differs. *)
Definition same_contents b b' : Prop :=
  elements b' = elements b /\ next b' = next b /\
  dynamicallyAllocated b' = dynamicallyAllocated b.

(** What every update of that record guarantees. *)
Definition updates context D b b' : Prop :=
  dequeued context D b' /\ block_wf b' /\ same_contents b b'.

Lemma is_empty_spec context D b :
  block_wf b -> dequeued context D b ->
  wp (is_empty tr context)
    (fun r b' => b' = b /\ r = bool_decide (D = offsets 0 (BLOCK_SIZE tr))) nothrow b.
Proof using All.
  intros Hwf HD. pose proof (block_size_gt_1 tr). pose proof (dequeued_size _ _ _ HD) as Hsz.
  destruct HD as [Hr Hf Hc]. unfold is_empty.
  destruct (uses_flags tr context) eqn:Hu.
  - pose proof (flags_length _ _ Hu Hwf) as Hl. apply wp_all_flags; [lia..|].
    intros r Hr'. split; [done|]. apply eq_bool_prop_intro.
    rewrite bool_decide_spec, Is_true_true, Hr'. split.
    + intros H0. apply set_eq. intros x. split; [apply Hr|]. rewrite elem_of_offsets. intros Hx.
      specialize (Hf eq_refl x ltac:(lia)). rewrite H0 in Hf by lia.
      apply Some_inj, eq_sym in Hf. by apply bool_decide_eq_true in Hf.
    + intros -> j Hj. replace j with (BLOCK_SIZE tr - 1 - (BLOCK_SIZE tr - 1 - j)) by lia.
      rewrite Hf by (done || lia). f_equal. apply bool_decide_eq_true, elem_of_offsets. lia.
  - wp_step. wp_step. rewrite Hc by done.
    destruct (Z.eqb_spec (Z.of_nat (size D)) (BLOCK_SIZE tr)) as [He|Hne].
    + wp_step. split; [done|]. symmetry. apply bool_decide_eq_true.
      apply set_eq. intros x. split; [apply Hr|].
      assert (D ≡ offsets 0 (BLOCK_SIZE tr)) as Heq; [|by rewrite Heq].
      apply set_subseteq_size_equiv; [done|].
      rewrite <- (size_offsets 0 (BLOCK_SIZE tr)) in He by lia. lia.
    + wp_steps; [by apply Z.leb_le|]. split; [done|]. symmetry. apply bool_decide_eq_false.
      intros ->. rewrite size_offsets in Hne; lia.
Qed.

Lemma set_empty_spec context D b i :
  block_wf b -> dequeued context D b -> offset tr i ∉ D ->
  wp (set_empty tr context i)
    (fun r b' => updates context ({[offset tr i]} ∪ D) b b' /\
       r = negb (uses_flags tr context)
           && (Z.of_nat (size ({[offset tr i]} ∪ D)) =? BLOCK_SIZE tr)) nothrow b.
Proof using All.
  intros Hwf HD Hi. pose proof (block_size_gt_1 tr). pose proof (traits_block (tr := tr)).
  pose proof (offset_range i) as Ho.
  assert ({[offset tr i]} ∪ D ⊆ offsets 0 (BLOCK_SIZE tr)) as Hsub.
  { apply union_subseteq. split; [|apply HD].
    apply singleton_subseteq_l, elem_of_offsets. lia. }
  assert (Z.of_nat (size ({[offset tr i]} ∪ D)) = Z.of_nat (size D) + 1) as Hsize.
  { rewrite size_union by set_solver. rewrite size_singleton. lia. }
  assert (Z.of_nat (size ({[offset tr i]} ∪ D)) <= BLOCK_SIZE tr).
  { rewrite <- (size_offsets 0 (BLOCK_SIZE tr)) by lia. by apply inj_le, subseteq_size. }
  destruct HD as [Hr Hf Hc]. unfold set_empty. destruct (uses_flags tr context) eqn:Hu.
  - pose proof (flags_length _ _ Hu Hwf) as Hl. rewrite wrap_small by lia.
    wp_step. eapply wp_flag; [by apply Hf|]. rewrite bool_decide_eq_false_2 by done.
    wp_steps; [done|]. apply wp_store_flag; [lia|]. wp_step. split; [|done]. split; [|split].
    + split; [done| |by rewrite Hu]. intros _ j Hj. cbn [emptyFlags set_flags].
      destruct (decide (j = offset tr i)) as [->|Hne].
      * rewrite zlookup_zinsert_eq by lia. f_equal. symmetry.
        apply bool_decide_eq_true, elem_of_union. left. by apply elem_of_singleton.
      * rewrite zlookup_zinsert_ne, Hf by (done || lia). f_equal.
        apply bool_decide_ext. rewrite elem_of_union, elem_of_singleton. tauto.
    + destruct Hwf. split; cbn; [done|]. by rewrite zlength_zinsert.
    + done.
  - wp_steps; rewrite (Hc eq_refl); [apply Z.ltb_lt; lia|]. split.
    + split; [|split; [by destruct Hwf; split|done]]. split; [done|by rewrite Hu|].
      intros _. cbn. rewrite wrap_small by lia. lia.
    + apply eq_bool_prop_intro. rewrite !Is_true_true, !Z.eqb_eq. lia.
Qed.

Lemma set_many_empty_spec context D b i count :
  block_wf b -> dequeued context D b ->
  0 <= count -> offset tr i + count <= BLOCK_SIZE tr ->
  offsets (offset tr i) count ## D ->
  wp (set_many_empty tr context i count)
    (fun r b' => updates context (offsets (offset tr i) count ∪ D) b b' /\
       r = negb (uses_flags tr context)
           && (Z.of_nat (size (offsets (offset tr i) count ∪ D)) =? BLOCK_SIZE tr)) nothrow b.
Proof using All.
  intros Hwf HD Hcount Hfit Hdisj.
  pose proof (block_size_gt_1 tr). pose proof (traits_block (tr := tr)).
  pose proof (size_pow_le_index tr). pose proof (offset_range i) as Ho.
  set (o := offset tr i) in *. set (B := BLOCK_SIZE tr) in *.
  assert (offsets o count ∪ D ⊆ offsets 0 B) as Hsub.
  { apply union_subseteq. split; [|apply HD]. intros x. rewrite !elem_of_offsets. lia. }
  assert (Z.of_nat (size (offsets o count ∪ D)) = Z.of_nat (size D) + count) as Hsize.
  { rewrite size_union by done. rewrite Nat2Z.inj_add, size_offsets; lia. }
  assert (Z.of_nat (size (offsets o count ∪ D)) <= B).
  { rewrite <- (size_offsets 0 B) by lia. by apply inj_le, subseteq_size. }
  unfold set_many_empty. fold o B. destruct (uses_flags tr context) eqn:Hu.
  - rewrite wrap_small by lia.
    wp_step. set (I := fun (j : Z) b' =>
      updates context (offsets (o + count - j) j ∪ D) b b').
    eapply wp_mono; [apply (wp_for_range I)| |done].
    + unfold I, updates. rewrite Z.sub_0_r. split; [|done].
      assert (offsets (o + count) 0 ∪ D = D) as ->; [|done].
      apply set_eq. intros x. rewrite elem_of_union, elem_of_offsets. lia || (split; [|auto]; intros [?|?]; [lia|done]).
    + intros j b' Hj (HD' & Hwf' & Hsame).
      pose proof (flags_length _ _ Hu Hwf') as Hl. fold B in Hl.
      destruct HD' as [Hr' Hf' _].
      assert (forall x, x ∈ offsets (o + count - (j + 1)) (j + 1) ∪ D <->
        x = o + count - 1 - j \/ x ∈ offsets (o + count - j) j ∪ D) as Hnext.
      { intros x. rewrite !elem_of_union, !elem_of_offsets. destruct (decide (x ∈ D)); [tauto|].
        split; [intros [?|?]; [|done]|intros [?|[?|?]]; [..|done]]; (left; lia) || (right; left; lia) || lia. }
      assert (o + count - 1 - j ∉ offsets (o + count - j) j ∪ D) as Hnew.
      { rewrite elem_of_union, elem_of_offsets. intros [?|Hin]; [lia|].
        apply (Hdisj (o + count - 1 - j)); [|done]. apply elem_of_offsets. lia. }
      cbn beta. rewrite !wrap_small by lia. wp_step. eapply wp_flag.
      { replace (B - 1 - o - count + 1 + j) with (B - 1 - (o + count - 1 - j)) by lia.
        apply Hf'; [done|lia]. }
      rewrite bool_decide_eq_false_2 by done. wp_steps; [done|].
      apply wp_store_flag; [lia|]. split; [|split].
      * split; [|intros _ x Hx|by rewrite Hu].
        -- intros x. rewrite Hnext. intros [->|Hx]; [apply elem_of_offsets; lia|by apply Hr'].
        -- cbn [emptyFlags set_flags]. fold B. destruct (decide (x = o + count - 1 - j)) as [->|Hne].
           ++ replace (B - 1 - (o + count - 1 - j)) with (B - 1 - o - count + 1 + j) by lia.
              rewrite zlookup_zinsert_eq by lia. f_equal. symmetry.
              apply bool_decide_eq_true, Hnext. by left.
           ++ rewrite zlookup_zinsert_ne by lia. unfold B. rewrite Hf' by (done || lia).
              f_equal. apply bool_decide_ext. rewrite Hnext. tauto.
      * destruct Hwf'. split; cbn; [done|]. by rewrite zlength_zinsert.
      * done.
    + cbn beta. intros _ b' HI. wp_step. split; [|done].
      unfold I in HI. rewrite Z.add_0_l, Z2Nat.id in HI by lia.
      by replace (o + count - count) with o in HI by lia.
  - destruct HD as [Hr Hf Hc]. wp_steps; rewrite (Hc Hu); [rewrite wrap_small by lia; apply Z.leb_le; lia|]. split.
    + split; [|split; [by destruct Hwf; split|done]]. split; [done|by rewrite Hu|].
      intros _. cbn. rewrite wrap_small by lia. lia.
    + rewrite wrap_small by lia. apply eq_bool_prop_intro. rewrite !Is_true_true, !Z.eqb_eq. lia.
Qed.

(** The loop of [set_all_empty] and [reset_empty]. *)
Lemma wp_store_all v b :
  zlength (emptyFlags b) = BLOCK_SIZE tr -> block_wf b ->
  wp (for_range 0 (Z.to_nat (BLOCK_SIZE tr)) (fun i => store_flag i v))
    (fun _ b' => (forall i, 0 <= i < BLOCK_SIZE tr -> zlookup (emptyFlags b') i = Some v) /\
       block_wf b' /\ same_contents b b') nothrow b.
Proof using All.
  intros Hl Hwf. pose proof (block_size_gt_1 tr).
  set (I := fun (j : Z) b' =>
    (forall i, 0 <= i < j -> zlookup (emptyFlags b') i = Some v) /\
    zlength (emptyFlags b') = BLOCK_SIZE tr /\ block_wf b' /\ same_contents b b').
  eapply wp_mono; [apply (wp_for_range I)| |done].
  - split; [intros; lia|done].
  - intros i b' Hi (H1 & H2 & [? ?] & ?). apply wp_store_flag; [lia|].
    unfold I. cbn [emptyFlags set_flags]. rewrite zlength_zinsert.
    split; [|split; [done|split; [by split; cbn; rewrite ?zlength_zinsert|done]]].
    intros j Hj. destruct (decide (i = j)) as [->|]; [apply zlookup_zinsert_eq; lia|].
    rewrite zlookup_zinsert_ne by done. apply H1. lia.
  - intros _ b' (H1 & _ & H2 & H3). split; [|done]. intros. apply H1. lia.
Qed.

Lemma set_all_empty_spec context b :
  block_wf b ->
  wp (set_all_empty tr context)
    (fun _ b' => updates context (offsets 0 (BLOCK_SIZE tr)) b b') nothrow b.
Proof using All.
  intros Hwf. pose proof (block_size_gt_1 tr). unfold set_all_empty.
  destruct (uses_flags tr context) eqn:Hu.
  - eapply wp_mono; [by apply wp_store_all; [eapply flags_length|]| |done].
    intros _ b' (Hf & Hwf' & Hs). split; [|done]. split; [done|intros _|by rewrite Hu].
    intros i Hi. rewrite Hf by lia. f_equal. symmetry.
    apply bool_decide_eq_true, elem_of_offsets. lia.
  - wp_step. split; [|split; [by destruct Hwf; split|done]].
    split; [done|by rewrite Hu|]. intros _. cbn. rewrite size_offsets; lia.
Qed.

Lemma reset_empty_spec context b :
  block_wf b ->
  wp (reset_empty tr context) (fun _ b' => updates context ∅ b b') nothrow b.
Proof using All.
  intros Hwf. unfold reset_empty. destruct (uses_flags tr context) eqn:Hu.
  - eapply wp_mono; [by apply wp_store_all; [eapply flags_length|]| |done].
    intros _ b' (Hf & Hwf' & Hs). split; [|done].
    split; [apply empty_subseteq|intros _|by rewrite Hu].
    intros i Hi. by rewrite Hf by lia.
  - wp_step. split; [|split; [by destruct Hwf; split|done]].
    split; [apply empty_subseteq|by rewrite Hu|done].
Qed.
End spec.
