(* ===== verification/BlockPool.v ===== *)
(** The memory of a queue and the "block pool manipulation" functions of
    [ConcurrentQueue]: the initial block pool, the free list, allocation, and
    [requisition_block]. *)

From S2P Require Import Prelude MachineInt Traits FreeList FreeListProofs Block.

Inductive AllocationMode := CanAlloc | CannotAlloc.

(** The heap of blocks and the queue members that manage it.
    [next_address] and [malloc_calls] are the state of the allocator: the
    addresses from [next_address] on have never been handed out. *)
Record Mem (T : Type) := mkMem {
  blocks : gmap loc (Block T);
  freeList : FreeList;
  initialBlockPoolIndex : Z;
  initialBlockPool : loc;
  initialBlockPoolSize : Z;
  next_address : loc;
  malloc_calls : nat
}.
Arguments mkMem {T}. Arguments blocks {T}. Arguments freeList {T}.
Arguments initialBlockPoolIndex {T}. Arguments initialBlockPool {T}.
Arguments initialBlockPoolSize {T}. Arguments next_address {T}. Arguments malloc_calls {T}.

(** What the uninitialized flags of the new block at an address contain. *)
Definition Indeterminate : Type := loc -> nat -> bool.

Section pool.
Context {T : Type} (tr : Traits).
(** [Traits::malloc]: whether its [n]-th call succeeds; a successful call
    returns storage that overlaps none in use. *)
Context (malloc_ok : nat -> bool).
Context (indeterminate : Indeterminate).
Implicit Types m : Mem T.

Definition set_blocks bs m : Mem T :=
  mkMem bs (freeList m) (initialBlockPoolIndex m) (initialBlockPool m)
    (initialBlockPoolSize m) (next_address m) (malloc_calls m).
Definition set_freeList f m : Mem T :=
  mkMem (blocks m) f (initialBlockPoolIndex m) (initialBlockPool m)
    (initialBlockPoolSize m) (next_address m) (malloc_calls m).
Definition set_pool_index i m : Mem T :=
  mkMem (blocks m) (freeList m) i (initialBlockPool m)
    (initialBlockPoolSize m) (next_address m) (malloc_calls m).
Definition set_pool p sz m : Mem T :=
  mkMem (blocks m) (freeList m) (initialBlockPoolIndex m) p sz
    (next_address m) (malloc_calls m).
Definition set_allocator a c m : Mem T :=
  mkMem (blocks m) (freeList m) (initialBlockPoolIndex m) (initialBlockPool m)
    (initialBlockPoolSize m) a c.

(** A member function call on the block at [b]. *)
Definition at_block {A} (b : loc) (f : M (Block T) A) : M (Mem T) A :=
  let! bs := gets blocks in
  let! blk := deref NullDeref (bs !! b) in
  zoom (fun _ => blk) (fun blk' m => set_blocks (<[b := blk']> (blocks m)) m) f.

(** [(Traits::malloc)] for [n] adjacent objects. *)
Definition malloc (n : Z) : M (Mem T) loc :=
  let! k := gets malloc_calls in
  let! a := gets next_address in
  if malloc_ok k then modify (set_allocator (a + n) (S k));; ret a
  else modify (set_allocator a (S k));; ret nullptr.

(** [new (p) Block] and [p->~Block()] with [free(p)].  A block does not destroy
    its elements: that they were destroyed before is checked here. *)
Definition no_elements (b : Block T) : bool :=
  forallb (fun o => match o with None => true | Some _ => false end) (elements b).
Definition construct_block (b : loc) : M (Mem T) unit :=
  let! bs := gets blocks in
  let! f := gets freeList in
  modify (set_blocks (<[b := new_block tr (indeterminate b)]> bs));;
  modify (set_freeList (set_node b new_node f)).
Definition remove_block (b : loc) : M (Mem T) unit :=
  let! bs := gets blocks in
  let! f := gets freeList in
  let! blk := deref NullDeref (bs !! b) in
  if no_elements blk then
    modify (set_blocks (delete b bs));;
    modify (set_freeList (mkFreeList (freeListHead f) (delete b (nodes f))))
  else faults Leaked.

(** [create<Block>()] *)
Definition create_block : M (Mem T) loc :=
  let! p := malloc 1 in
  if p =? nullptr then ret nullptr else construct_block p;; ret p.

(** [create_array<Block>(count)]: the size of the array is computed in [size_t];
    there is room for so many blocks in what is allocated. *)
Definition create_array (count : Z) : M (Mem T) loc :=
  cassert (0 <? count);;
  let room := wrap (size_bits tr) (sizeof_Block tr * count) / sizeof_Block tr in
  let! p := malloc room in
  if p =? nullptr then ret nullptr
  else
    for_range 0 (Z.to_nat count) (fun i =>
      if i <? room then construct_block (p + i) else faults OutOfBounds);;
    ret p.

(** [destroy(block)] *)
Definition destroy (b : loc) : M (Mem T) unit :=
  if b =? nullptr then ret tt else remove_block b.

(** [destroy_array(p, count)]: from the last element to the first. *)
Definition destroy_array (p : loc) (count : Z) : M (Mem T) unit :=
  if p =? nullptr then ret tt
  else
    cassert (0 <? count);;
    for_range 0 (Z.to_nat count) (fun i => remove_block (p + (count - 1 - i))).

Definition populate_initial_block_list (blockCount : Z) : M (Mem T) unit :=
  if blockCount =? 0 then modify (set_pool nullptr blockCount)
  else
    let! p := create_array blockCount in
    let size := if p =? nullptr then 0 else blockCount in
    modify (set_pool p size);;
    for_range 0 (Z.to_nat size) (fun i => at_block (p + i) (modify (set_dynamic false))).

Definition try_get_block_from_initial_pool : M (Mem T) loc :=
  let! idx := gets initialBlockPoolIndex in
  let! size := gets initialBlockPoolSize in
  let! pool := gets initialBlockPool in
  if size <=? idx then ret nullptr
  else
    let! index := gets initialBlockPoolIndex in
    modify (set_pool_index (wrap (size_bits tr) (index + 1)));;
    ret (if index <? size then pool + index else nullptr).

Definition add_block_to_free_list (b : loc) : M (Mem T) unit :=
  let! dynamic := at_block b (gets dynamicallyAllocated) in
  if negb (RECYCLE_ALLOCATED_BLOCKS tr) && dynamic then destroy b
  else zoom freeList set_freeList (add b).

(** The loop follows [block->next]; [fuel] bounds its length. *)
Fixpoint add_blocks_to_free_list (fuel : nat) (b : loc) : M (Mem T) unit :=
  if b =? nullptr then ret tt
  else
    match fuel with
    | O => faults OutOfFuel
    | S fuel =>
        let! next := at_block b (gets next) in
        add_block_to_free_list b;; add_blocks_to_free_list fuel next
    end.

Definition try_get_block_from_free_list : M (Mem T) loc :=
  zoom freeList set_freeList try_get.

Definition requisition_block (canAlloc : AllocationMode) : M (Mem T) loc :=
  let! block := try_get_block_from_initial_pool in
  if negb (block =? nullptr) then ret block
  else
    let! block := try_get_block_from_free_list in
    if negb (block =? nullptr) then ret block
    else
      match canAlloc with
      | CanAlloc => create_block
      | CannotAlloc => ret nullptr
      end.

(** A queue's memory before [populate_initial_block_list]. *)
Definition init_mem : Mem T := mkMem ∅ (mkFreeList nullptr ∅) 0 nullptr 0 1 0.
End pool.

(** * Specification *)

Section spec.
Context {T : Type} (tr : Traits) `{!TraitsOk tr}.
Context (malloc_ok : nat -> bool) (indeterminate : Indeterminate).
Implicit Types m : Mem T.

(** A block without elements. *)
Definition raw (b : Block T) : Prop :=
  block_wf tr b /\ elements b = replicate (Z.to_nat (BLOCK_SIZE tr)) None.

Lemma raw_no_elements b : raw b -> no_elements b = true.
Proof using Type. intros [_ E]. unfold no_elements. rewrite E. clear E. induction (Z.to_nat (BLOCK_SIZE tr)) as [|n IH]; [done|exact IH]. Qed.

(** The blocks the pool may hand out: those on the free list [fl] and the
    rest of the initial pool. *)
Definition in_initial_pool m (b : loc) : Prop :=
  exists i, initialBlockPoolIndex m <= i < initialBlockPoolSize m /\
    b = initialBlockPool m + i.
Definition available m (fl : list loc) (b : loc) : Prop := b ∈ fl \/ in_initial_pool m b.

#[export] Instance available_dec m fl b : Decision (available m fl b).
Proof.
  assert (in_initial_pool m b <-> initialBlockPoolIndex m <= b - initialBlockPool m < initialBlockPoolSize m) as E.
  { split; [intros (i & ? & ->); lia|]. intros ?. exists (b - initialBlockPool m). lia. }
  apply or_dec; [apply _|]. destruct (decide (initialBlockPoolIndex m <= b - initialBlockPool m < initialBlockPoolSize m)); [left|right]; tauto.
Defined.

(** The blocks of the array that was allocated at construction. *)
Definition in_array m (b : loc) : Prop := initialBlockPool m <= b < initialBlockPool m + initialBlockPoolSize m.

Record pool_inv m (fl : list loc) : Prop := {
  pi_stack : represents (freeList m) fl;
  pi_nodes : forall l, is_Some (nodes (freeList m) !! l) <-> is_Some (blocks m !! l);
  pi_refs : forall l nd, nodes (freeList m) !! l = Some nd -> l ∉ fl -> freeListRefs nd = 0;
  pi_addr : forall l, is_Some (blocks m !! l) -> 0 < l < next_address m;
  pi_next : 0 < next_address m;
  pi_index : 0 <= initialBlockPoolIndex m <= initialBlockPoolSize m;
  pi_size : initialBlockPoolSize m < 2 ^ size_bits tr;
  pi_disjoint : forall l, l ∈ fl -> ~ in_initial_pool m l;
  pi_raw : forall l, available m fl l -> exists blk, blocks m !! l = Some blk /\ raw blk;
  pi_array : forall l, in_array m l -> exists blk, blocks m !! l = Some blk /\ dynamicallyAllocated blk = false;
  pi_dynamic : forall l blk, blocks m !! l = Some blk -> ~ in_array m l -> dynamicallyAllocated blk = true;
  pi_pool : initialBlockPool m = nullptr \/ 0 < initialBlockPoolSize m
}.

(** [m'] differs from [m] at most at the block [b], which is the only one that
    is no longer available. *)
Definition frame (b : loc) m fl m' fl' : Prop :=
  (forall l, l <> b -> blocks m' !! l = blocks m !! l) /\
  (forall l, available m' fl' l <-> available m fl l /\ l <> b).

Lemma raw_new_block flags : raw (new_block (T := T) tr flags).
Proof using All.
  pose proof (block_size_gt_1 tr). split; [split|done]; cbn; [rewrite zlength_replicate; lia|].
  unfold zlength. rewrite length_fmap, length_seq. unfold flag_count. case_match; lia.
Qed.

(** The size of an array of [count] blocks is a [size_t]. *)
Definition array_fits (count : Z) : Prop := sizeof_Block tr * count < 2 ^ size_bits tr.

Lemma array_room count :
  0 <= count -> array_fits count -> wrap (size_bits tr) (sizeof_Block tr * count) / sizeof_Block tr = count.
Proof using TraitsOk0.
  intros Hc Hfit. pose proof (traits_sizeof (tr := tr)). unfold array_fits in Hfit.
  rewrite wrap_small by nia. rewrite Z.mul_comm. apply Z.div_mul. lia.
Qed.

Lemma wp_at_block {A} b (f : M (Block T) A) blk (Q : A -> Mem T -> Prop) E m :
  blocks m !! b = Some blk ->
  wp f (fun a blk' => Q a (set_blocks (<[b := blk']> (blocks m)) m))
       (fun blk' => E (set_blocks (<[b := blk']> (blocks m)) m)) blk ->
  wp (at_block b f) Q E m.
Proof using Type.
  intros Hb Hf. unfold at_block. wp_steps; [done|]. done.
Qed.

Lemma wp_malloc n (Q : loc -> Mem T -> Prop) E m :
  (malloc_ok (malloc_calls m) = true ->
     Q (next_address m) (set_allocator (next_address m + n) (S (malloc_calls m)) m)) ->
  (malloc_ok (malloc_calls m) = false ->
     Q nullptr (set_allocator (next_address m) (S (malloc_calls m)) m)) ->
  wp (malloc malloc_ok n) Q E m.
Proof using Type. intros H1 H2. unfold malloc. wp_steps. apply wp_if; intros; wp_steps; auto. Qed.

Lemma pool_inv_nodes_null m fl : pool_inv m fl -> nodes (freeList m) !! nullptr = None.
Proof using Type.
  intros []. apply eq_None_not_Some. intros H%pi_nodes0%pi_addr0. unfold nullptr in H. lia.
Qed.

Lemma try_get_block_from_initial_pool_spec m fl :
  pool_inv m fl ->
  wp (try_get_block_from_initial_pool tr) (fun b m' =>
    pool_inv m' fl /\
    (b = nullptr /\ m' = m /\ initialBlockPoolIndex m = initialBlockPoolSize m \/
     b <> nullptr /\ in_initial_pool m b /\ frame b m fl m' fl /\ blocks m' = blocks m /\
     next_address m' = next_address m))
    nothrow m.
Proof using All.
  intros Hinv. pose proof Hinv as [].
  unfold try_get_block_from_initial_pool. wp_steps.
  destruct (Z.leb_spec (initialBlockPoolSize m) (initialBlockPoolIndex m)).
  { wp_steps. split; [done|left]. split_and!; [done..|lia]. }
  wp_steps. rewrite (proj2 (Z.ltb_lt _ _)), wrap_small by lia.
  set (b := initialBlockPool m + initialBlockPoolIndex m).
  assert (in_initial_pool m b) as Hb by (exists (initialBlockPoolIndex m); split; [lia|done]).
  assert (forall l, in_initial_pool (set_pool_index (initialBlockPoolIndex m + 1) m) l <->
    in_initial_pool m l /\ l <> b) as Hrest.
  { intros l. split.
    - intros (i & Hi & ->). cbn in *. split; [|unfold b; lia]. exists i. split; [lia|done].
    - intros [(i & Hi & ->) Hne]. exists i. cbn. unfold b in Hne. split; [lia|done]. }
  split.
  - split; cbn; try done; [lia| |].
    + intros l Hl Hp. apply Hrest in Hp as [Hp _]. by eapply pi_disjoint0.
    + intros l [Hl|[Hl _]%Hrest]; apply pi_raw0; [by left|by right].
  - right. split_and!; try done.
    + destruct (pi_raw0 b) as (blk & Hblk & _); [by right|].
      assert (0 < b) by (apply pi_addr0; eauto). unfold nullptr. lia.
    + split; [done|]. intros l. unfold available. rewrite Hrest. split; [|tauto].
      intros [Hl|[Hl ?]]; [|tauto]. split; [by left|]. intros ->. by eapply pi_disjoint0.
Qed.

Lemma try_get_block_from_free_list_spec m fl :
  pool_inv m fl ->
  wp try_get_block_from_free_list (fun b m' =>
    match fl with
    | [] => b = nullptr /\ m' = m
    | n :: fl' =>
        b = n /\ n <> nullptr /\ pool_inv m' fl' /\ frame n m fl m' fl' /\ blocks m' = blocks m /\
        next_address m' = next_address m
    end) nothrow m.
Proof using Type.
  intros Hinv. pose proof Hinv as [].
  pose proof (try_get_represents _ _ pi_stack0) as Hpop.
  unfold try_get_block_from_free_list. wp_step. unfold wp. destruct fl as [|n fl].
  { rewrite Hpop. split; [done|]. by destruct m. }
  destruct Hpop as (f' & -> & Hf' & (nd & Hnd & H0) & Hrest).
  assert (n <> nullptr) as Hn by (destruct pi_stack0 as ((_ & ? & _) & _); done).
  assert (NoDup (n :: fl)) as [Hnfl _]%NoDup_cons by apply pi_stack0.
  assert (forall l, is_Some (nodes f' !! l) <-> is_Some (nodes (freeList m) !! l)) as Hsame.
  { intros l. destruct (decide (l = n)) as [->|]; [|by rewrite Hrest].
    split; intros _; [|eauto]. destruct pi_stack0 as ((_ & _ & nd' & ? & _) & _). eauto. }
  split; [done|split; [done|split; [|split; [|by split]]]].
  - split; cbn; try done.
    + intros l. rewrite Hsame. apply pi_nodes0.
    + intros l nd' Hl Hnl. destruct (decide (l = n)) as [->|Hne]; [congruence|].
      rewrite Hrest in Hl by done. apply (pi_refs0 l); [done|].
      rewrite not_elem_of_cons. done.
    + intros l Hl. apply pi_disjoint0. by right.
    + intros l [Hl|Hl]; apply pi_raw0; [left; by right|by right].
  - split; [done|]. intros l. unfold available. rewrite elem_of_cons. split; [|tauto]. intros [Hl|Hl].
    + split; [tauto|]. by intros ->.
    + split; [by right|]. intros ->. by apply (pi_disjoint0 n); [left|].
Qed.

(** A block at an unused address joins the blocks in use. *)
Lemma pool_inv_create m fl a blk :
  pool_inv m fl -> 0 < a < next_address m -> blocks m !! a = None -> dynamicallyAllocated blk = true ->
  pool_inv (set_freeList (set_node a new_node (freeList m))
    (set_blocks (<[a := blk]> (blocks m)) m)) fl.
Proof using Type.
  intros [] Ha Hnone Hdyn.
  assert (forall l, available m fl l -> l <> a) as Hav.
  { intros l (blk' & ? & _)%pi_raw0 ->. congruence. }
  split; cbn; try done.
  - destruct pi_stack0 as (Hc & Hnd & Hr). split; [|split; [done|]].
    + eapply linked_frame; [done|]. intros n nd Hn Hnd'. exists nd. split; [|done].
      cbn. rewrite lookup_insert_ne; [done|]. apply not_eq_sym, Hav. by left.
    + intros n nd Hn. cbn. rewrite lookup_insert_ne by (apply not_eq_sym, Hav; by left). eauto.
  - intros l. destruct (decide (l = a)) as [->|]; [rewrite !lookup_insert_eq|rewrite !lookup_insert_ne by done].
    + split; eauto.
    + apply pi_nodes0.
  - intros l nd. destruct (decide (l = a)) as [->|].
    + rewrite lookup_insert_eq. by intros [= <-].
    + rewrite lookup_insert_ne by done. apply pi_refs0.
  - intros l. destruct (decide (l = a)) as [->|]; [lia|]. rewrite lookup_insert_ne by done.
    intros ?%pi_addr0. lia.
  - intros l Hl. rewrite lookup_insert_ne by (apply not_eq_sym, Hav, Hl). by apply pi_raw0.
  - intros l Hl. destruct (pi_array0 l Hl) as (blk' & Hblk & Hd). rewrite lookup_insert_ne by congruence. eauto.
  - intros l blk' Hl Ho. destruct (decide (l = a)) as [->|].
    + rewrite lookup_insert_eq in Hl. congruence.
    + rewrite lookup_insert_ne in Hl by done. by eapply pi_dynamic0.
Qed.

Lemma pool_inv_malloc m fl a c :
  pool_inv m fl -> next_address m <= a -> pool_inv (set_allocator a c m) fl.
Proof using Type.
  intros [] Ha. split; cbn; try done; try lia. intros l ?%pi_addr0. lia.
Qed.

Lemma create_block_spec m fl :
  pool_inv m fl ->
  wp (create_block tr malloc_ok indeterminate) (fun b m' =>
    pool_inv m' fl /\ next_address m <= next_address m' /\
    if malloc_ok (malloc_calls m)
    then b <> nullptr /\ blocks m !! b = None /\ frame b m fl m' fl /\
         exists blk, blocks m' !! b = Some blk /\ raw blk
    else b = nullptr /\ blocks m' = blocks m /\ (forall l, available m' fl l -> available m fl l))
    nothrow m.
Proof using All.
  intros Hinv. pose proof Hinv as []. unfold create_block.
  assert (blocks m !! next_address m = None) as Hfresh.
  { apply eq_None_not_Some. intros ?%pi_addr0. lia. }
  wp_step. apply wp_malloc; intros ->.
  - rewrite (proj2 (Z.eqb_neq _ _)) by (unfold nullptr; lia). unfold construct_block. wp_steps.
    split; [eapply (pool_inv_create (set_allocator (next_address m + 1) _ m));
      [apply pool_inv_malloc; [done|lia]|cbn; lia|done|done]|]. cbn.
    split; [lia|].
    split; [unfold nullptr; lia|]. split; [done|split; [split|]]; cbn.
    + intros l Hl. by rewrite lookup_insert_ne.
    + intros l. split; [|by intros [? _]]. intros Hl. split; [done|]. intros ->.
      destruct (pi_raw0 (next_address m)) as (? & ? & _); [done|congruence].
    + eexists. rewrite lookup_insert_eq. split; [done|apply raw_new_block].
  - wp_steps. split; [by apply pool_inv_malloc; [|lia]|]. split; [done|done].
Qed.

(** [requisition_block] returns a block that nobody else has, empty of
    elements; it fails exactly when the initial pool and the free list are
    exhausted and a new block may not, or cannot, be allocated. *)
Lemma requisition_block_spec canAlloc m fl :
  pool_inv m fl ->
  wp (requisition_block tr malloc_ok indeterminate canAlloc) (fun b m' => exists fl',
    pool_inv m' fl' /\ next_address m <= next_address m' /\
    if b =? nullptr
    then blocks m' = blocks m /\ (forall l, available m' fl' l -> available m fl l) /\
         (forall l, ~ available m fl l) /\
         (canAlloc = CannotAlloc \/ malloc_ok (malloc_calls m) = false)
    else (available m fl b \/ blocks m !! b = None /\ canAlloc = CanAlloc) /\
         frame b m fl m' fl' /\ exists blk, blocks m' !! b = Some blk /\ raw blk)
    nothrow m.
Proof using All.
  intros Hinv. unfold requisition_block. wp_step.
  eapply wp_mono; [by apply try_get_block_from_initial_pool_spec| |done].
  intros b m1 (Hinv1 & [(-> & -> & Hpool)|(Hb & Hin & Hf & Hbs & Hna)]); cbn beta.
  2:{ rewrite (proj2 (Z.eqb_neq _ _)) by done. cbn [negb]. wp_step. exists fl. split; [done|]. split; [lia|].
      rewrite (proj2 (Z.eqb_neq _ _)) by done. split; [left; by right|split; [done|]].
      rewrite Hbs. apply (pi_raw _ _ Hinv). by right. }
  cbn [Z.eqb negb nullptr]. wp_step.
  eapply wp_mono; [by apply try_get_block_from_free_list_spec| |done].
  intros b m2 Hm2. cbn beta. destruct fl as [|n fl].
  - destruct Hm2 as [-> ->]. cbn [Z.eqb negb nullptr].
    assert (forall l, ~ available m [] l) as Hnone.
    { intros l [Hl|(i & Hi & _)]; [by apply not_elem_of_nil in Hl|lia]. }
    destruct canAlloc.
    + eapply wp_mono; [by apply create_block_spec| |done].
      intros b m3 (Hinv3 & Hna & Hm3). exists []. split; [done|]. split; [done|].
      destruct (malloc_ok _) eqn:Hmal.
      * destruct Hm3 as (Hb & Hnew & ? & ?). rewrite (proj2 (Z.eqb_neq _ _)) by done.
        split; [by right|done].
      * destruct Hm3 as (-> & ? & ?). cbn. split_and!; try done. by right.
    + wp_step. exists []. cbn. split; [done|]. split_and!; try done. by left.
  - destruct Hm2 as (-> & Hn & Hinv2 & Hf & Hbs & Hna). rewrite (proj2 (Z.eqb_neq _ _)) by done.
    cbn [negb]. wp_step. exists fl. split; [done|]. split; [lia|]. rewrite (proj2 (Z.eqb_neq _ _)) by done.
    split; [left; left; by left|split; [done|]]. rewrite Hbs.
    apply (pi_raw _ _ Hinv). left. by left.
Qed.

(** Blocks in use are never among the available ones. *)
Lemma frame_in_use b m fl m' fl' l :
  frame b m fl m' fl' -> ~ available m fl l -> ~ available m' fl' l.
Proof using Type. intros [_ Hf] Hl Hl'. by apply Hl, Hf. Qed.

Lemma pool_inv_update_block m fl b blk blk' :
  pool_inv m fl -> blocks m !! b = Some blk -> dynamicallyAllocated blk' = dynamicallyAllocated blk -> ~ available m fl b ->
  pool_inv (set_blocks (<[b := blk']> (blocks m)) m) fl.
Proof using Type.
  intros [] Hb Hdyn Hav.
  assert (forall l, is_Some (<[b := blk']> (blocks m) !! l) <-> is_Some (blocks m !! l)) as Hd.
  { intros l. destruct (decide (l = b)) as [->|]; [|by rewrite lookup_insert_ne].
    rewrite lookup_insert_eq. split; eauto. }
  split; cbn; try done.
  - intros l. by rewrite Hd.
  - intros l. rewrite Hd. apply pi_addr0.
  - intros l Hl. rewrite lookup_insert_ne by (intros ->; by apply Hav). by apply pi_raw0.
  - intros l Hl. destruct (pi_array0 l Hl) as (blk1 & Hblk & Hfalse). destruct (decide (l = b)) as [->|Hne].
    + rewrite lookup_insert_eq. eexists. split; [done|]. congruence.
    + rewrite lookup_insert_ne by done. eauto.
  - intros l blk1 Hl Ho. destruct (decide (l = b)) as [->|].
    + rewrite lookup_insert_eq in Hl. injection Hl as <-. rewrite Hdyn. by eapply pi_dynamic0.
    + rewrite lookup_insert_ne in Hl by done. by eapply pi_dynamic0.
Qed.

(** Giving a block back: it is freed, or becomes available again. *)
Definition returned (b : loc) m fl m' fl' : Prop :=
  pool_inv m' fl' /\
  (forall l, l <> b -> blocks m' !! l = blocks m !! l) /\
  (forall l, available m' fl' l -> available m fl l \/ l = b) /\
  (forall l, available m fl l -> available m' fl' l) /\
  (available m' fl' b \/ blocks m' !! b = None) /\ next_address m' = next_address m.

Lemma destroy_spec m fl b :
  pool_inv m fl -> (exists blk, blocks m !! b = Some blk /\ dynamicallyAllocated blk = true /\ raw blk) -> ~ available m fl b ->
  wp (destroy b) (fun _ m' => returned b m fl m' fl) nothrow m.
Proof using Type.
  intros Hinv (blk & Hb & Hdyn & Hraw) Hav. pose proof Hinv as []. unfold destroy, remove_block.
  assert (b <> nullptr) as Hn by (assert (0 < b) by (apply pi_addr0; eauto); unfold nullptr; lia).
  rewrite (proj2 (Z.eqb_neq _ _)) by done. wp_steps; [done|]. rewrite raw_no_elements by done. wp_steps.
  assert (forall l, l ∈ fl -> l <> b) as Hfl by (intros l Hl ->; apply Hav; by left).
  split; [split; cbn; try done|split_and!; cbn].
  - destruct pi_stack0 as (Hc & Hnd & Hr). split; [|split; [done|]].
    + eapply linked_frame; [done|]. intros n nd Hnn Hnd'. exists nd. split; [|done].
      cbn. rewrite lookup_delete_ne; [done|]. by apply not_eq_sym, Hfl.
    + intros n nd Hnn. cbn. rewrite lookup_delete_ne by (by apply not_eq_sym, Hfl). eauto.
  - intros l. destruct (decide (l = b)) as [->|]; [by rewrite !lookup_delete_eq|].
    rewrite !lookup_delete_ne by done. apply pi_nodes0.
  - intros l nd [_ Hl]%lookup_delete_Some. by apply pi_refs0.
  - intros l [x [_ Hl]%lookup_delete_Some]. apply pi_addr0. eauto.
  - intros l Hl. rewrite lookup_delete_ne by (intros ->; by apply Hav). by apply pi_raw0.
  - intros l Hl. destruct (pi_array0 l Hl) as (blk' & Hblk & Hd). rewrite lookup_delete_ne by congruence. eauto.
  - intros l blk' [_ Hl]%lookup_delete_Some Ho. by eapply pi_dynamic0.
  - intros l Hl. by rewrite lookup_delete_ne.
  - intros l Hl. by left.
  - done.
  - right. apply lookup_delete_eq.
  - done.
Qed.

Lemma free_list_add_spec m fl b blk :
  pool_inv m fl -> blocks m !! b = Some blk -> raw blk -> ~ available m fl b ->
  wp (zoom freeList set_freeList (add b)) (fun _ m' => returned b m fl m' (b :: fl)) nothrow m.
Proof using Type.
  intros Hinv Hb Hraw Hav. pose proof Hinv as [].
  assert (b <> nullptr) as Hn by (assert (0 < b) by (apply pi_addr0; eauto); unfold nullptr; lia).
  destruct (proj2 (pi_nodes0 b)) as [nd Hnd]; [eauto|].
  assert (b ∉ fl) as Hfl by (intros ?; apply Hav; by left).
  destruct (add_represents (freeList m) fl b nd) as (f' & E & Hr & Hrest); [by eauto..|].
  wp_step. unfold wp. rewrite E.
  destruct Hr as (Hc & Hnd' & Hrefs). pose proof (linked_in _ _ _ b Hc ltac:(by left)) as Hb'.
  split; [split; cbn; try done|split_and!; cbn; try done].
  - intros l. destruct (decide (l = b)) as [->|]; [rewrite Hb; split; by eauto|].
    rewrite Hrest by done. apply pi_nodes0.
  - intros l nd' Hl [Hlb Hlfl]%not_elem_of_cons. rewrite Hrest in Hl by done. by apply (pi_refs0 l).
  - intros l [->|Hl]%elem_of_cons; [|by apply pi_disjoint0]. intros ?. apply Hav. by right.
  - intros l [[->|Hl]%elem_of_cons|Hl]; [eauto|apply pi_raw0; by left|apply pi_raw0; by right].
  - intros l [[->|Hl]%elem_of_cons|Hl]; [by right|left; by left|left; by right].
  - intros l [Hl|Hl]; [left; by right|by right].
  - left. left. by left.
Qed.

Lemma add_block_to_free_list_spec m fl b blk :
  pool_inv m fl -> blocks m !! b = Some blk -> raw blk -> ~ available m fl b ->
  wp (add_block_to_free_list tr b) (fun _ m' => exists fl',
    returned b m fl m' fl' /\
    (fl' = if negb (RECYCLE_ALLOCATED_BLOCKS tr) && dynamicallyAllocated blk then fl else b :: fl))
    nothrow m.
Proof using Type.
  intros Hinv Hb Hraw Hav. unfold add_block_to_free_list. wp_step.
  eapply wp_at_block; [done|]. wp_step.
  assert (set_blocks (<[b := blk]> (blocks m)) m = m) as ->.
  { unfold set_blocks. rewrite insert_id by done. by destruct m. }
  apply wp_if; intros Hcase; rewrite Hcase.
  - apply andb_true_iff in Hcase as [_ Hdyn]. eapply wp_mono; [by eapply destroy_spec; eauto| |done]. intros ? ? H. eexists. split; [exact H|done].
  - eapply wp_mono; [by eapply free_list_add_spec; eauto| |done]. intros ? ? H. eexists. split; [exact H|done].
Qed.

(** The pool while its initial array is under construction: [m'] has the
    first [i] of the [n] blocks from [p] on. *)
Definition array_built (P : Block T -> Prop) m fl (p : loc) (n i : Z) m' : Prop :=
  pool_inv m' fl /\ next_address m' = p + n /\
  initialBlockPoolIndex m' = initialBlockPoolIndex m /\
  initialBlockPool m' = initialBlockPool m /\
  initialBlockPoolSize m' = initialBlockPoolSize m /\
  (forall l, (l < p \/ p + i <= l) -> blocks m' !! l = blocks m !! l) /\
  (forall j, 0 <= j < i -> exists blk, blocks m' !! (p + j) = Some blk /\ raw blk /\ P blk).

Lemma create_array_spec m fl n :
  pool_inv m fl -> 0 < n -> array_fits n ->
  wp (create_array tr malloc_ok indeterminate n) (fun p m' =>
    if malloc_ok (malloc_calls m)
    then p = next_address m /\ array_built (fun _ => True) m fl p n n m'
    else p = nullptr /\ pool_inv m' fl /\ blocks m' = blocks m /\
         initialBlockPoolIndex m' = initialBlockPoolIndex m /\ initialBlockPoolSize m' = initialBlockPoolSize m) nothrow m.
Proof using All.
  intros Hinv Hn Hfit. pose proof Hinv as []. unfold create_array. wp_steps; [by apply Z.ltb_lt|].
  rewrite array_room by (done || lia). apply wp_malloc; intros ->.
  2:{ cbn. split_and!; done. }
  set (p := next_address m). rewrite (proj2 (Z.eqb_neq _ _)) by (unfold nullptr; lia).
  wp_step. set (m1 := set_allocator (p + n) _ m).
  eapply wp_mono; [apply (wp_for_range (array_built (fun _ => True) m fl p n))| |done].
  - split; [apply pool_inv_malloc; [done|cbn; lia]|]. split_and!; try done. intros; lia.
  - intros i m' Hi (H1 & H2 & H3 & H4 & H5 & H6 & H7). rewrite (proj2 (Z.ltb_lt _ _)) by lia. unfold construct_block. wp_steps.
    assert (blocks m' !! (p + i) = None) as Hnew.
    { rewrite H6 by lia. apply eq_None_not_Some. intros ?%pi_addr0. lia. }
    split; [eapply (pool_inv_create m'); [done|lia|done|done]|].
    split_and!; cbn; try done.
    + intros l Hl. rewrite lookup_insert_ne by lia. apply H6. lia.
    + intros j Hj. destruct (decide (i = j)) as [<-|].
      * rewrite lookup_insert_eq. eexists. split; [done|]. split; [apply raw_new_block|done].
      * rewrite lookup_insert_ne by lia. apply H7. lia.
  - cbn beta. intros _ m' Hm'. rewrite Z.add_0_l, Z2Nat.id in Hm' by lia. by wp_step.
Qed.

Lemma pool_inv_no_pool m fl :
  pool_inv m fl -> initialBlockPoolIndex m = 0 -> initialBlockPoolSize m = 0 -> pool_inv (set_pool nullptr 0 m) fl.
Proof using Type.
  intros [] Hi0 Hs0. split; cbn; try done; try lia.
  - intros l _ (i & Hi & _). cbn in Hi. lia.
  - intros l [?|(i & Hi & _)]; [apply pi_raw0; by left|cbn in Hi; lia].
  - intros l Hl. unfold in_array in Hl. cbn in Hl. lia.
  - intros l blk Hl _. apply (pi_dynamic0 l); [done|]. unfold in_array. lia.
Qed.

(** The blocks of the array are marked one by one as not dynamically allocated:
    the first [i] are. *)
Definition marked m1 (p : loc) (n i : Z) (bs : gmap loc (Block T)) : Prop :=
  (forall l, is_Some (bs !! l) <-> is_Some (blocks m1 !! l)) /\
  (forall l, (l < p \/ p + n <= l) -> bs !! l = blocks m1 !! l) /\
  (forall j, 0 <= j < n -> exists blk, bs !! (p + j) = Some blk /\ raw blk /\ (j < i -> dynamicallyAllocated blk = false)).

Lemma marked_pool_inv m m1 fl n bs :
  pool_inv m fl -> initialBlockPoolIndex m = 0 -> initialBlockPoolSize m = 0 -> 0 < n < 2 ^ size_bits tr ->
  array_built (fun _ => True) m fl (next_address m) n n m1 -> marked m1 (next_address m) n n bs ->
  pool_inv (set_blocks bs (set_pool (next_address m) n m1)) fl.
Proof using Type.
  intros Hinv Hi0 Hs0 Hn (Hinv1 & Hna & Hidx & Hp & Hsz & Hout & Hin) (Hd & Ho & Hblk). set (p := next_address m) in *.
  assert (forall l, l ∈ fl -> l < p) as Hfl.
  { intros l Hl. destruct (pi_raw _ _ Hinv l) as (blk & Hb & _); [by left|]. pose proof (pi_addr _ _ Hinv l ltac:(eauto)). lia. }
  destruct Hinv1. split; cbn; try done; try lia.
  - intros l. by rewrite Hd.
  - intros l. rewrite Hd. apply pi_addr0.
  - intros l Hl (i & Hi & ->). cbn in Hi, Hl. specialize (Hfl _ Hl). lia.
  - intros l [Hl|(i & Hi & ->)].
    + rewrite Ho by (left; by apply Hfl). apply pi_raw0. by left.
    + cbn in Hi. destruct (Hblk i) as (blk & ? & ? & _); [lia|]. eauto.
  - intros l Hl. unfold in_array in Hl. cbn in Hl. destruct (Hblk (l - p)) as (blk & Hb & _ & Hf); [lia|].
    replace (p + (l - p)) with l in Hb by lia. exists blk. split; [done|]. apply Hf. lia.
  - intros l blk Hl Hno. unfold in_array in Hno. cbn in Hno. rewrite Ho in Hl by lia. apply (pi_dynamic0 l); [done|]. unfold in_array. lia.
Qed.

(** A queue that is constructed with [n] initial blocks: they become
    available (if the allocation succeeds), and are marked as not
    dynamically allocated. *)
Lemma populate_spec m fl n :
  pool_inv m fl -> 0 <= n < 2 ^ size_bits tr -> array_fits n ->
  initialBlockPoolIndex m = 0 -> initialBlockPoolSize m = 0 ->
  wp (populate_initial_block_list tr malloc_ok indeterminate n) (fun _ m' =>
    pool_inv m' fl /\
    (n = 0 \/ malloc_ok (malloc_calls m) = true ->
     initialBlockPoolSize m' = n /\
     forall i, 0 <= i < n -> exists blk,
       blocks m' !! (initialBlockPool m' + i) = Some blk /\ dynamicallyAllocated blk = false) /\
    (n <> 0 /\ malloc_ok (malloc_calls m) = false -> initialBlockPoolSize m' = 0) /\
    (forall l, is_Some (blocks m' !! l) -> is_Some (blocks m !! l) \/ available m' fl l)) nothrow m.
Proof using All.
  intros Hinv Hn Hfit Hi0 Hs0. unfold populate_initial_block_list.
  destruct (Z.eqb_spec n 0) as [->|Hn0].
  { wp_step. split_and!; try done.
    - by apply pool_inv_no_pool.
    - intros _. split; [done|]. intros; lia.
    - intros l Hl. by left. }
  wp_step. eapply wp_mono; [apply (create_array_spec m fl); [done|lia|done]| |done].
  intros p m1. cbn beta. pose proof (pi_next _ _ Hinv).
  destruct (malloc_ok _) eqn:Hm; intros Hm1.
  2:{ destruct Hm1 as (-> & Hinv1 & Hbs & Hidx & Hsz). rewrite Z.eqb_refl. wp_steps.
      change (Z.to_nat 0) with O. cbn [for_range]. wp_step. split_and!; [|intros [?|?]; done|done|].
      - apply pool_inv_no_pool; [done|congruence..].
      - cbn. rewrite Hbs. by left. }
  destruct Hm1 as (-> & Hb). rewrite (proj2 (Z.eqb_neq _ _)) by (unfold nullptr; lia).
  set (p := next_address m) in *. wp_steps. pose proof Hb as (Hinv1 & Hna & Hidx & Hp & Hsz & Hout & Hin).
  eapply wp_mono; [apply (wp_for_range (fun i m' => exists bs, m' = set_blocks bs (set_pool p n m1) /\ marked m1 p n i bs))| |done].
  - exists (blocks m1). split; [by destruct m1|]. split; [done|]. split; [done|].
    intros j Hj. destruct (Hin j) as (blk & ? & ? & _); [lia|]. exists blk. split_and!; try done. lia.
  - intros i m2 Hi (bs & -> & Hd & Ho & Hblk). rewrite Z2Nat.id in Hi by lia.
    destruct (Hblk i) as (blk & Hib & Hraw & _); [lia|].
    eapply wp_at_block; [done|]. wp_step. eexists. split; [done|].
    assert (raw (set_dynamic false blk)) as Hraw' by (destruct Hraw as [[] ?]; by split; [split|]).
    cbn. split_and!.
    + intros l. rewrite <- Hd. destruct (decide (p + i = l)) as [<-|]; [rewrite lookup_insert_eq|by rewrite lookup_insert_ne].
      split; by eauto.
    + intros l Hl. rewrite lookup_insert_ne by lia. by apply Ho.
    + intros j Hj. destruct (decide (i = j)) as [<-|].
      * rewrite lookup_insert_eq. eauto.
      * rewrite lookup_insert_ne by lia. destruct (Hblk j) as (b' & ? & ? & Hdy); [done|].
        exists b'. split_and!; try done. intros. apply Hdy. lia.
  - cbn beta. intros _ m2 (bs & -> & Hmark). rewrite Z.add_0_l, Z2Nat.id in Hmark by lia.
    split_and!; [eapply (marked_pool_inv m); try done; lia| |naive_solver|].
    + cbn. intros _. split; [done|]. intros i Hi. destruct Hmark as (_ & _ & Hblk). destruct (Hblk i) as (b' & ? & ? & Hdy); [done|]. eauto with lia.
    + cbn. intros l Hl. destruct (decide (p <= l < p + n)); [right; right; exists (l - p); cbn; lia|left].
      destruct Hmark as (_ & Ho & _). rewrite Ho, Hout in Hl by lia. done.
Qed.
End spec.

(** A queue's memory before construction satisfies the invariant. *)
Lemma init_mem_inv {T : Type} (tr : Traits) `{!TraitsOk tr} : pool_inv tr (init_mem (T := T)) [].
Proof.
  pose proof (size_le_index tr). split; cbn; try done; try lia.
  - split; [done|]. split; [constructor|]. by intros ?? ?%not_elem_of_nil.
  - intros l. by rewrite !lookup_empty.
  - intros l. rewrite lookup_empty. by intros [].
  - by intros l ?%not_elem_of_nil.
  - intros l [H'%not_elem_of_nil|(i & Hi & _)]; [done|cbn in Hi; lia].
  - intros l Hl. unfold in_array in Hl. cbn in Hl. lia.
Qed.
