(* ===== verification/ProducerBase.v ===== *)
(** [ProducerBase] of src/concurrentqueue.h and the protocol by which
    consumers claim elements of a producer's sub-queue: the counters
    [tailIndex], [headIndex], [dequeueOptimisticCount] and
    [dequeueOvercommit], and the first half of [dequeue] and [dequeue_bulk]
    (the same in [ExplicitProducer] and [ImplicitProducer]) as programs of
    atomic steps. *)

From S2P Require Import Prelude MachineInt Traits.

(** * State *)

Record ProducerBase := mkProducerBase {
  tailIndex : Z;
  headIndex : Z;
  dequeueOptimisticCount : Z;
  dequeueOvercommit : Z;
  tailBlock : loc;
  isExplicit : bool
}.

Definition new_producer_base (is_explicit : bool) : ProducerBase :=
  mkProducerBase 0 0 0 0 nullptr is_explicit.

Definition set_tailIndex (t : Z) (p : ProducerBase) : ProducerBase :=
  mkProducerBase t (headIndex p) (dequeueOptimisticCount p) (dequeueOvercommit p)
    (tailBlock p) (isExplicit p).
Definition set_headIndex (h : Z) (p : ProducerBase) : ProducerBase :=
  mkProducerBase (tailIndex p) h (dequeueOptimisticCount p) (dequeueOvercommit p)
    (tailBlock p) (isExplicit p).
Definition set_optimistic (c : Z) (p : ProducerBase) : ProducerBase :=
  mkProducerBase (tailIndex p) (headIndex p) c (dequeueOvercommit p)
    (tailBlock p) (isExplicit p).
Definition set_overcommit (o : Z) (p : ProducerBase) : ProducerBase :=
  mkProducerBase (tailIndex p) (headIndex p) (dequeueOptimisticCount p) o
    (tailBlock p) (isExplicit p).
Definition set_tailBlock (b : loc) (p : ProducerBase) : ProducerBase :=
  mkProducerBase (tailIndex p) (headIndex p) (dequeueOptimisticCount p)
    (dequeueOvercommit p) b (isExplicit p).

(** [getTail] and [size_approx]. *)
Definition getTail (p : ProducerBase) : Z := tailIndex p.
Definition size_approx (tr : Traits) (p : ProducerBase) : Z :=
  let tail := tailIndex p in
  let head := headIndex p in
  if circular_less_than (index_bits tr) head tail
  then wrap (size_bits tr) (wrap (index_bits tr) (tail - head)) else 0.

(** * Claiming elements *)

(** [dequeue] claims one element, [dequeue_bulk] up to [max]. *)
Inductive request := One | Many (max : Z).

(** Where a consumer is; the arguments are its local variables. *)
Inductive claim_pc :=
  | LoadTail (r : request)
  | LoadOvercommit (r : request) (tail : Z)
  | LoadOptimistic (r : request) (tail overcommit : Z)
  | TakeTicket (r : request) (overcommit desiredCount : Z)
  | ReloadTail (r : request) (overcommit desiredCount myDequeueCount : Z)
  | ReturnSome (actualCount excess : Z)
  | AdvanceHead (actualCount : Z)
  | ReturnAll (desiredCount : Z).

(** The first index and the number of elements claimed, or nothing. *)
Abbreviation claim_result := (option (Z * Z)) (only parsing).

Section claim.
Context (tr : Traits).
Let idx := wrap (index_bits tr).
Let sz := wrap (size_bits tr).

(** [fetch_add(n)] on one of the counters. *)
Definition fetch_add (get : ProducerBase -> Z) (set : Z -> ProducerBase -> ProducerBase)
    (n : Z) (p : ProducerBase) : Z * ProducerBase :=
  (get p, set (idx (get p + n)) p).

Definition claim_step (pc : claim_pc) (p : ProducerBase)
    : (claim_result + claim_pc) * ProducerBase :=
  match pc with
  | LoadTail r => (inr (LoadOvercommit r (tailIndex p)), p)
  | LoadOvercommit r tail => (inr (LoadOptimistic r tail (dequeueOvercommit p)), p)
  | LoadOptimistic One tail overcommit =>
      if circular_less_than (index_bits tr) (idx (dequeueOptimisticCount p - overcommit)) tail
      then (inr (TakeTicket One overcommit 1), p)
      else (inl None, p)
  | LoadOptimistic (Many max) tail overcommit =>
      let desiredCount :=
        sz (idx (tail - idx (dequeueOptimisticCount p - overcommit))) in
      if circular_less_than (size_bits tr) 0 desiredCount
      then (inr (TakeTicket (Many max) overcommit
              (if desiredCount <? max then desiredCount else max)), p)
      else (inl None, p)
  | TakeTicket r overcommit desiredCount =>
      let (myDequeueCount, p) :=
        fetch_add dequeueOptimisticCount set_optimistic desiredCount p in
      (inr (ReloadTail r overcommit desiredCount myDequeueCount), p)
  | ReloadTail One overcommit desiredCount myDequeueCount =>
      if circular_less_than (index_bits tr) (idx (myDequeueCount - overcommit)) (tailIndex p)
      then (inr (AdvanceHead 1), p)
      else (inr (ReturnAll desiredCount), p)
  | ReloadTail (Many max) overcommit desiredCount myDequeueCount =>
      let actualCount := sz (idx (tailIndex p - idx (myDequeueCount - overcommit))) in
      if circular_less_than (size_bits tr) 0 actualCount then
        let actualCount := if desiredCount <? actualCount then desiredCount else actualCount in
        if actualCount <? desiredCount
        then (inr (ReturnSome actualCount (desiredCount - actualCount)), p)
        else (inr (AdvanceHead actualCount), p)
      else (inr (ReturnAll desiredCount), p)
  | ReturnSome actualCount excess =>
      (inr (AdvanceHead actualCount), snd (fetch_add dequeueOvercommit set_overcommit excess p))
  | AdvanceHead actualCount =>
      let (index, p) := fetch_add headIndex set_headIndex actualCount p in
      (inl (Some (index, actualCount)), p)
  | ReturnAll desiredCount =>
      (inl None, snd (fetch_add dequeueOvercommit set_overcommit desiredCount p))
  end.

(** An uninterrupted claim takes at most seven steps. *)
Fixpoint claim_run (fuel : nat) (pc : claim_pc) : M ProducerBase claim_result := fun p =>
  match fuel with
  | O => Fault OutOfFuel
  | S fuel =>
      match claim_step pc p with
      | (inl r, p) => Ok r p
      | (inr pc, p) => claim_run fuel pc p
      end
  end.
Definition claim (r : request) : M ProducerBase claim_result := claim_run 7 (LoadTail r).
End claim.

(** * Consumers and the producer interleaved

    A schedule says who moves: consumer [i] calls, consumer [i] executes its
    next atomic step, or the producer publishes [n] more elements.  A move
    that is not enabled has no effect. *)

Inductive event := Call (i : nat) (r : request) | Step (i : nat) | Publish (n : nat).

(** [granted] records the successful claims in the order of their
    [headIndex.fetch_add], [published] the number of elements published. *)
Record config := mkConfig {
  base : ProducerBase;
  consumers : list (option claim_pc);
  granted : list (Z * Z);
  published : Z
}.

Definition init_config (N : nat) : config :=
  mkConfig (new_producer_base true) (replicate N None) [] 0.

(** One move, given the atomic step and the arithmetic of the counters. *)
Definition move (stp : claim_pc -> ProducerBase -> (claim_result + claim_pc) * ProducerBase)
    (norm : Z -> Z) (e : event) (c : config) : config :=
  match e with
  | Call i r =>
      match consumers c !! i with
      | Some None => mkConfig (base c) (<[i := Some (LoadTail r)]> (consumers c)) (granted c) (published c)
      | _ => c
      end
  | Step i =>
      match consumers c !! i with
      | Some (Some pc) =>
          match stp pc (base c) with
          | (inr pc', p) => mkConfig p (<[i := Some pc']> (consumers c)) (granted c) (published c)
          | (inl r, p) =>
              mkConfig p (<[i := None]> (consumers c))
                (granted c ++ from_option (fun g => [g]) [] r) (published c)
          end
      | _ => c
      end
  | Publish n =>
      mkConfig (set_tailIndex (norm (tailIndex (base c) + Z.of_nat n)) (base c))
        (consumers c) (granted c) (published c + Z.of_nat n)
  end.

Definition exec stp norm (es : list event) (c : config) : config :=
  foldl (fun c e => move stp norm e c) c es.

(** The program: counters of [index_bits] bits. *)
Definition word_exec (tr : Traits) : list event -> config -> config :=
  exec (claim_step tr) (wrap (index_bits tr)).
