(* ===== verification/ProducerBaseProofs.v ===== *)
(** Correctness of the claim protocol of ProducerBase under every
    interleaving: an ideal machine whose counters never wrap, its invariant,
    and the refinement of the ideal machine by the program. *)

From S2P Require Import Prelude MachineInt Traits ProducerBase.

(** * The ideal machine *)

Definition ideal_step (pc : claim_pc) (p : ProducerBase) : (claim_result + claim_pc) * ProducerBase :=
  match pc with
  | LoadTail r => (inr (LoadOvercommit r (tailIndex p)), p)
  | LoadOvercommit r tail => (inr (LoadOptimistic r tail (dequeueOvercommit p)), p)
  | LoadOptimistic r tail overcommit =>
      let available := tail - (dequeueOptimisticCount p - overcommit) in
      if 0 <? available
      then (inr (TakeTicket r overcommit
              (match r with One => 1 | Many max => Z.min available max end)), p)
      else (inl None, p)
  | TakeTicket r overcommit desired =>
      (inr (ReloadTail r overcommit desired (dequeueOptimisticCount p)),
       set_optimistic (dequeueOptimisticCount p + desired) p)
  | ReloadTail r overcommit desired ticket =>
      let available := tailIndex p - (ticket - overcommit) in
      if 0 <? available then
        let actual := Z.min desired available in
        (inr (if actual <? desired then ReturnSome actual (desired - actual)
              else AdvanceHead actual), p)
      else (inr (ReturnAll desired), p)
  | ReturnSome actual excess =>
      (inr (AdvanceHead actual), set_overcommit (dequeueOvercommit p + excess) p)
  | AdvanceHead actual =>
      (inl (Some (headIndex p, actual)), set_headIndex (headIndex p + actual) p)
  | ReturnAll desired => (inl None, set_overcommit (dequeueOvercommit p + desired) p)
  end.

Definition ideal_exec : list event -> config -> config := exec ideal_step id.

(** * Tickets

    [fetch_add] on the optimistic count hands out tickets.  A ticket is
    pending while its owner has not reloaded the tail; then it either
    succeeded or failed for good. *)

Inductive status := Pend (i : nat) | Succ | Fail.

Definition is_succ (s : status) : Z := match s with Succ => 1 | _ => 0 end.
Definition is_fail (s : status) : Z := match s with Fail => 1 | _ => 0 end.
Definition succs (l : list status) : Z := zsum (is_succ <$> l).
Definition fails (l : list status) : Z := zsum (is_fail <$> l).

Lemma succs_app l k : succs (l ++ k) = succs l + succs k.
Proof. unfold succs. by rewrite fmap_app, zsum_app. Qed.
Lemma fails_app l k : fails (l ++ k) = fails l + fails k.
Proof. unfold fails. by rewrite fmap_app, zsum_app. Qed.

Lemma zsum_replicate n x : zsum (replicate n x) = Z.of_nat n * x.
Proof. induction n; cbn [replicate]; rewrite ?zsum_cons; [done|lia]. Qed.

Lemma succs_replicate n s : succs (replicate n s) = Z.of_nat n * is_succ s.
Proof. unfold succs. by rewrite fmap_replicate, zsum_replicate. Qed.
Lemma fails_replicate n s : fails (replicate n s) = Z.of_nat n * is_fail s.
Proof. unfold fails. by rewrite fmap_replicate, zsum_replicate. Qed.

Lemma fails_nonneg l : 0 <= fails l.
Proof. apply zsum_nonneg. by intros []. Qed.
Lemma succs_nonneg l : 0 <= succs l.
Proof. apply zsum_nonneg. by intros []. Qed.

Lemma succs_fails_length l : succs l + fails l <= zlength l.
Proof.
  induction l as [|s l IH]; [done|]. unfold succs, fails, zlength in *.
  rewrite !fmap_cons, !zsum_cons. cbn [length]. destruct s; cbn; lia.
Qed.

(** Nothing pending: every ticket is decided. *)
Lemma succs_fails_all l :
  (forall t i, l !! t <> Some (Pend i)) -> succs l + fails l = zlength l.
Proof.
  induction l as [|s l IH]; intros H; [done|].
  assert (succs l + fails l = zlength l) as IH' by (apply IH; intros t; apply (H (S t))).
  unfold succs, fails, zlength in *. rewrite !fmap_cons, !zsum_cons. cbn [length].
  destruct s as [i| |]; cbn; [by destruct (H O i)|lia|lia].
Qed.

Lemma fails_mono l l' :
  (forall t, l !! t = Some Fail -> l' !! t = Some Fail) -> length l = length l' ->
  fails l <= fails l'.
Proof.
  revert l'. induction l as [|s l IH]; intros [|s' l'] H Hl; try done.
  assert (fails l <= fails l') as IH'.
  { apply IH; [intros t; apply (H (S t))|]. by injection Hl. }
  unfold fails in *. rewrite !fmap_cons, !zsum_cons.
  destruct s; try (destruct s'; cbn; lia).
  specialize (H O eq_refl). injection H as ->. cbn. lia.
Qed.

Lemma fails_take_mono l l' n :
  (forall t, l !! t = Some Fail -> l' !! t = Some Fail) -> length l = length l' ->
  fails (take n l) <= fails (take n l').
Proof.
  intros H Hl. apply fails_mono; [|rewrite !length_take; lia].
  intros t Ht. apply lookup_take_Some in Ht as [Ht ?]. by rewrite lookup_take_lt by done; apply H.
Qed.

Lemma fails_take_le l n m : (n <= m)%nat -> fails (take n l) <= fails (take m l).
Proof.
  intros H. rewrite <- (take_drop n (take m l)), take_take, Nat.min_l by done.
  rewrite fails_app. pose proof (fails_nonneg (drop n (take m l))). lia.
Qed.

(** The heart of the argument: if every successful ticket [t] was justified
    by [t + 1] less the failures before it, the successes are at most the
    bound. *)
Lemma succs_bound l T :
  0 <= T ->
  (forall t, l !! t = Some Succ -> Z.of_nat t + 1 - fails (take t l) <= T) ->
  succs l <= T.
Proof.
  intros HT. induction l as [|s l IH] using rev_ind; intros H; [done|].
  rewrite succs_app. change (succs [s]) with (is_succ s + 0).
  assert (succs l <= T) as IH'.
  { apply IH. intros t Ht. pose proof (lookup_lt_Some _ _ _ Ht).
    rewrite <- (take_app_le l [s]) by lia. apply H. by rewrite lookup_app_l. }
  destruct s; cbn; try lia.
  specialize (H (length l)). rewrite list_lookup_middle, take_app_length in H by done.
  specialize (H eq_refl). pose proof (succs_fails_length l). unfold zlength in *. lia.
Qed.

(** The owner of the pending tickets from [k] to [k + d] decides them: the
    first [a] succeed. *)
Definition resolve (k a d : nat) (tk : list status) : list status :=
  take k tk ++ replicate a Succ ++ replicate (d - a) Fail ++ drop (k + d) tk.

Section resolve.
Context (tk : list status) (k a d : nat) (i : nat).
Context (Hpend : forall t, (k <= t < k + d)%nat -> tk !! t = Some (Pend i)).
Context (Hlen : (k + d <= length tk)%nat) (Had : (a <= d)%nat).

Lemma pending_split : tk = take k tk ++ replicate d (Pend i) ++ drop (k + d) tk.
Proof using All.
  rewrite <- (take_drop k tk) at 1. f_equal. rewrite <- (take_drop d (drop k tk)), drop_drop.
  f_equal. apply list_eq. intros t. destruct (decide (t < d)%nat).
  - rewrite lookup_take_lt, lookup_drop, Hpend by lia. symmetry. by apply lookup_replicate_2.
  - rewrite lookup_take_ge by lia. symmetry. apply lookup_ge_None. rewrite length_replicate. lia.
Qed.

Lemma resolve_length : length (resolve k a d tk) = length tk.
Proof using All.
  unfold resolve. rewrite !length_app, length_take, length_drop, !length_replicate. lia.
Qed.

Lemma resolve_succs : succs (resolve k a d tk) = succs tk + Z.of_nat a.
Proof using All.
  rewrite pending_split at 2. unfold resolve. rewrite !succs_app, !succs_replicate. cbn. lia.
Qed.

Lemma resolve_fails : fails (resolve k a d tk) = fails tk + Z.of_nat (d - a).
Proof using All.
  rewrite pending_split at 2. unfold resolve. rewrite !fails_app, !fails_replicate. cbn. lia.
Qed.

Lemma resolve_lookup_out t :
  (t < k \/ k + d <= t)%nat -> resolve k a d tk !! t = tk !! t.
Proof using All.
  intros Ht. rewrite pending_split at 2. unfold resolve.
  assert (length (take k tk) = k) as Hk by (rewrite length_take; lia).
  destruct Ht.
  - rewrite !(lookup_app_l (take k tk)) by lia. done.
  - rewrite !(lookup_app_r (take k tk)) by lia. rewrite Hk, (app_assoc (replicate a _)).
    rewrite (lookup_app_r (replicate a _ ++ _)), (lookup_app_r (replicate d _))
      by (rewrite ?length_app, ?length_replicate; lia).
    rewrite ?length_app, !length_replicate. f_equal. lia.
Qed.

Lemma resolve_lookup_in t :
  (k <= t < k + d)%nat ->
  resolve k a d tk !! t = Some (if decide (t < k + a)%nat then Succ else Fail).
Proof using All.
  intros Ht. unfold resolve.
  assert (length (take k tk) = k) as Hk by (rewrite length_take; lia).
  rewrite lookup_app_r by lia. rewrite Hk. case_decide.
  - rewrite lookup_app_l by (rewrite length_replicate; lia). apply lookup_replicate_2. lia.
  - rewrite lookup_app_r, length_replicate by (rewrite length_replicate; lia).
    rewrite lookup_app_l by (rewrite length_replicate; lia). apply lookup_replicate_2. lia.
Qed.

Lemma resolve_keeps_fail t : tk !! t = Some Fail -> resolve k a d tk !! t = Some Fail.
Proof using All.
  intros H. destruct (decide (k <= t < k + d)%nat) as [Ht|].
  - by rewrite Hpend in H.
  - by rewrite resolve_lookup_out by lia.
Qed.
End resolve.

(** * The invariant of the ideal machine *)

(** Successes that have not reached [headIndex], and failures that have not
    reached [dequeueOvercommit]. *)
Definition head_pending (pc : claim_pc) : Z :=
  match pc with ReturnSome a _ | AdvanceHead a => a | _ => 0 end.
Definition over_pending (pc : claim_pc) : Z :=
  match pc with ReturnSome _ e => e | ReturnAll d => d | _ => 0 end.
Definition total (f : claim_pc -> Z) (cs : list (option claim_pc)) : Z :=
  zsum (from_option f 0 <$> cs).

Definition request_ok (r : request) : Prop :=
  match r with One => True | Many max => 0 <= max end.

(** What consumer [i] knows. *)
Definition pc_ok (tk : list status) (i : nat) (pc : claim_pc) : Prop :=
  match pc with
  | LoadTail r | LoadOvercommit r _ => request_ok r
  | LoadOptimistic r _ o => request_ok r /\ o <= fails tk
  | TakeTicket r o d => request_ok r /\ o <= fails tk /\ 0 <= d /\ (r = One -> d = 1)
  | ReloadTail r o d k =>
      request_ok r /\ 0 <= k /\ 0 <= d /\ k + d <= zlength tk /\ (r = One -> d = 1) /\
      o <= fails (take (Z.to_nat k) tk) /\
      forall t, (Z.to_nat k <= t < Z.to_nat k + Z.to_nat d)%nat -> tk !! t = Some (Pend i)
  | ReturnSome a e => 0 <= a /\ 0 <= e
  | AdvanceHead a => 0 <= a
  | ReturnAll d => 0 <= d
  end.

(** The log lists consecutive intervals from [h] on. *)
Fixpoint consecutive (h : Z) (log : list (Z * Z)) : Prop :=
  match log with
  | [] => True
  | (first, n) :: log => first = h /\ 0 <= n /\ consecutive (h + n) log
  end.

Record cinv (c : config) (tk : list status) : Prop := {
  ci_tickets : dequeueOptimisticCount (base c) = zlength tk;
  ci_head : headIndex (base c) + total head_pending (consumers c) = succs tk;
  ci_over : dequeueOvercommit (base c) + total over_pending (consumers c) = fails tk;
  ci_tail : tailIndex (base c) = published c;
  ci_published : 0 <= published c;
  ci_succ : forall t, tk !! t = Some Succ ->
    Z.of_nat t + 1 - fails (take t tk) <= published c;
  ci_pend : forall t i, tk !! t = Some (Pend i) ->
    exists r o d k, consumers c !! i = Some (Some (ReloadTail r o d k)) /\
      (Z.to_nat k <= t < Z.to_nat k + Z.to_nat d)%nat;
  ci_pc : forall i pc, consumers c !! i = Some (Some pc) -> pc_ok tk i pc;
  ci_log : consecutive 0 (granted c);
  ci_sum : headIndex (base c) = zsum (snd <$> granted c)
}.

Lemma total_insert f cs i o o' :
  cs !! i = Some o ->
  total f (<[i := o']> cs) = total f cs - from_option f 0 o + from_option f 0 o'.
Proof. apply zsum_insert. Qed.

Lemma pending_nonneg tk c o : cinv c tk -> o ∈ consumers c ->
  0 <= from_option head_pending 0 o /\ 0 <= from_option over_pending 0 o.
Proof.
  intros H [i Hi]%list_elem_of_lookup. destruct o as [pc|]; simpl; [|lia].
  pose proof (ci_pc _ _ H _ _ Hi). destruct pc; simpl in *; lia.
Qed.

(** No grant goes past the published elements, and the failures seen in
    [dequeueOvercommit] are failed tickets. *)
Lemma cinv_bounds c tk i pc : cinv c tk -> consumers c !! i = Some (Some pc) ->
  headIndex (base c) + head_pending pc <= published c /\
  dequeueOvercommit (base c) + over_pending pc <= fails tk.
Proof.
  intros H Hi.
  pose proof (zsum_elem_in (from_option head_pending 0) _ _ _
    (fun o Ho => proj1 (pending_nonneg _ _ _ H Ho)) Hi) as H1.
  pose proof (zsum_elem_in (from_option over_pending 0) _ _ _
    (fun o Ho => proj2 (pending_nonneg _ _ _ H Ho)) Hi) as H2.
  pose proof (succs_bound _ _ (ci_published _ _ H) (ci_succ _ _ H)).
  pose proof (ci_head _ _ H). pose proof (ci_over _ _ H). unfold total in *. cbn in H1, H2. lia.
Qed.

Lemma cinv_head_bound c tk : cinv c tk -> headIndex (base c) <= published c.
Proof.
  intros H. pose proof (ci_head _ _ H). pose proof (succs_bound _ _ (ci_published _ _ H) (ci_succ _ _ H)).
  pose proof (zsum_nonneg_in (from_option head_pending 0) (consumers c)
    (fun o Ho => proj1 (pending_nonneg _ _ _ H Ho))). unfold total in *. lia.
Qed.

Lemma consecutive_snoc h log n :
  consecutive h log -> 0 <= n -> consecutive h (log ++ [(h + zsum (snd <$> log), n)]).
Proof.
  revert h. induction log as [|[f m] log IH]; intros h Hc Hn.
  - cbn. rewrite Z.add_0_r. done.
  - destruct Hc as (-> & ? & Hc). cbn [app consecutive]. split; [done|split; [done|]].
    specialize (IH _ Hc Hn). rewrite fmap_cons, zsum_cons. cbn [snd].
    by rewrite Z.add_assoc.
Qed.

(** A move of consumer [i] that decides no tickets of its own: it did not
    hold any before and the sequence [tk] stays. *)
Lemma cinv_step_plain c tk i pc p pc' :
  cinv c tk -> consumers c !! i = Some (Some pc) ->
  (forall r o d k, pc <> ReloadTail r o d k) ->
  dequeueOptimisticCount p = dequeueOptimisticCount (base c) ->
  tailIndex p = tailIndex (base c) -> headIndex p = headIndex (base c) ->
  head_pending pc' = head_pending pc ->
  dequeueOvercommit p + over_pending pc' = dequeueOvercommit (base c) + over_pending pc ->
  pc_ok tk i pc' ->
  cinv (mkConfig p (<[i := Some pc']> (consumers c)) (granted c) (published c)) tk.
Proof.
  intros [] Hi Hnot E1 E2 E3 E4 E5 Hok. split; cbn; try congruence; try done.
  - rewrite (total_insert _ _ _ _ _ Hi). cbn. lia.
  - rewrite (total_insert _ _ _ _ _ Hi). cbn. lia.
  - intros t j Ht. destruct (ci_pend0 t j Ht) as (r & o & d & k & Hj & Hk).
    exists r, o, d, k. split; [|done]. rewrite list_lookup_insert_ne; [done|].
    intros <-. rewrite Hj in Hi. injection Hi as <-. by eapply Hnot.
  - intros j pcj. destruct (decide (i = j)) as [<-|].
    + rewrite list_lookup_insert_eq by (by eapply lookup_lt_Some). by intros [= <-].
    + rewrite list_lookup_insert_ne by done. apply ci_pc0.
Qed.

(** The last move of a call. *)
Lemma cinv_step_return c tk i pc p g :
  cinv c tk -> consumers c !! i = Some (Some pc) ->
  (forall r o d k, pc <> ReloadTail r o d k) ->
  dequeueOptimisticCount p = dequeueOptimisticCount (base c) ->
  tailIndex p = tailIndex (base c) ->
  headIndex p = headIndex (base c) + head_pending pc ->
  dequeueOvercommit p = dequeueOvercommit (base c) + over_pending pc ->
  (g = [] /\ head_pending pc = 0 \/ g = [(headIndex (base c), head_pending pc)]) ->
  cinv (mkConfig p (<[i := None]> (consumers c)) (granted c ++ g) (published c)) tk.
Proof.
  intros H Hi Hnot E1 E2 E3 E4 Hg.
  pose proof (pending_nonneg _ _ _ H (list_elem_of_lookup_2 _ _ _ Hi)) as [Hp _]. cbn in Hp.
  destruct H. split; cbn; try congruence; try done.
  - rewrite (total_insert _ _ _ _ _ Hi). cbn. lia.
  - rewrite (total_insert _ _ _ _ _ Hi). cbn. lia.
  - intros t j Ht. destruct (ci_pend0 t j Ht) as (r & o & d & k & Hj & Hk).
    exists r, o, d, k. split; [|done]. rewrite list_lookup_insert_ne; [done|].
    intros <-. rewrite Hj in Hi. injection Hi as <-. by eapply Hnot.
  - intros j pcj. destruct (decide (i = j)) as [<-|].
    + by rewrite list_lookup_insert_eq by (by eapply lookup_lt_Some).
    + rewrite list_lookup_insert_ne by done. apply ci_pc0.
  - destruct Hg as [[-> _]| ->]; [by rewrite app_nil_r|].
    rewrite ci_sum0. by apply (consecutive_snoc 0).
  - destruct Hg as [[-> Hz]| ->]; rewrite ?app_nil_r; [lia|].
    rewrite fmap_app, zsum_app. change (zsum (snd <$> [(headIndex (base c), head_pending pc)]))
      with (head_pending pc + 0). lia.
Qed.

(** Facts about [tk] another consumer relies on survive when [tk] grows or
    the tickets of [i] are decided. *)
Lemma pc_ok_evolve tk tk' i j pc :
  i <> j -> (length tk <= length tk')%nat ->
  (forall n, fails (take n tk) <= fails (take n tk')) ->
  (forall t, tk !! t = Some (Pend j) -> tk' !! t = Some (Pend j)) ->
  pc_ok tk j pc -> pc_ok tk' j pc.
Proof.
  intros Hij Hlen Hf Hp Hok.
  assert (fails tk <= fails tk') as Hall.
  { specialize (Hf (length tk')). rewrite firstn_all in Hf. by rewrite take_ge in Hf by lia. }
  destruct pc as [| | | |r o d k| | |]; cbn [pc_ok] in *; try done; try (destruct_and! Hok; split_and!; done || lia).
  destruct Hok as (? & ? & ? & ? & ? & Ho & Ht). unfold zlength in *. specialize (Hf (Z.to_nat k)).
  split_and!; try done; try lia. auto.
Qed.

Lemma step_ReturnSome_etc c tk i pc r p :
  cinv c tk -> consumers c !! i = Some (Some pc) ->
  (forall r o d, pc <> TakeTicket r o d) -> (forall r o d k, pc <> ReloadTail r o d k) ->
  ideal_step pc (base c) = (r, p) ->
  cinv (move ideal_step id (Step i) c) tk.
Proof.
  intros H Hi Hnt Hnr E. cbn [move]. rewrite Hi. pose proof (ci_pc _ _ H _ _ Hi) as Hok.
  pose proof (cinv_bounds _ _ _ _ H Hi) as [_ Hover].
  destruct pc as [r0|r0 t0|r0 t0 o0|r0 o0 d0|r0 o0 d0 k0|a e|a|d0]; cbn [ideal_step].
  - by eapply cinv_step_plain; eauto.
  - eapply cinv_step_plain; eauto. cbn in *. split; [done|lia].
  - destruct Hok as [Hr Ho]. destruct (Z.ltb_spec 0 (t0 - (dequeueOptimisticCount (base c) - o0))).
    + eapply cinv_step_plain; eauto. cbn. split_and!; try done.
      * destruct r0; cbn in Hr; lia.
      * by intros ->.
    + eapply cinv_step_return; eauto; cbn; lia.
  - by destruct (Hnt r0 o0 d0).
  - by destruct (Hnr r0 o0 d0 k0).
  - eapply cinv_step_plain; eauto; cbn in *; lia.
  - eapply cinv_step_return; eauto; cbn; lia.
  - eapply cinv_step_return; eauto; cbn; lia.
Qed.

Lemma step_TakeTicket c tk i r o d :
  cinv c tk -> consumers c !! i = Some (Some (TakeTicket r o d)) ->
  cinv (move ideal_step id (Step i) c) (tk ++ replicate (Z.to_nat d) (Pend i)).
Proof.
  intros H Hi. cbn [move]. rewrite Hi. cbn [ideal_step].
  pose proof (ci_pc _ _ H _ _ Hi) as (Hr & Ho & Hd & Hone). destruct H.
  assert (i < length (consumers c))%nat by (by eapply lookup_lt_Some).
  split; cbn; try done.
  - rewrite ci_tickets0. unfold zlength. rewrite length_app, length_replicate. lia.
  - rewrite (total_insert _ _ _ _ _ Hi), succs_app, succs_replicate. cbn. lia.
  - rewrite (total_insert _ _ _ _ _ Hi), fails_app, fails_replicate. cbn. lia.
  - intros t Ht. apply lookup_app_Some in Ht as [Ht|[_ Ht]].
    + rewrite take_app_le by (apply lookup_lt_Some in Ht; lia). auto.
    + by apply lookup_replicate in Ht as [? _].
  - intros t j [Ht|[Hlt Ht]]%lookup_app_Some.
    + destruct (ci_pend0 t j Ht) as (r' & o' & d' & k & Hj & Hk).
      exists r', o', d', k. split; [|done]. rewrite list_lookup_insert_ne; [done|].
      intros <-. by rewrite Hj in Hi.
    + apply lookup_replicate in Ht as [[= ->] Ht]. eexists r, o, d, _.
      rewrite list_lookup_insert_eq by done. split; [done|]. rewrite ci_tickets0. unfold zlength. lia.
  - intros j pcj. destruct (decide (i = j)) as [<-|Hij].
    + rewrite list_lookup_insert_eq by done. intros [= <-]. cbn. rewrite ci_tickets0. unfold zlength.
      rewrite length_app, length_replicate, Nat2Z.id, take_app_length. split_and!; try done; try lia.
      intros t Ht. rewrite lookup_app_r by lia. apply lookup_replicate_2. lia.
    + rewrite list_lookup_insert_ne by done. intros Hj%ci_pc0.
      eapply (pc_ok_evolve _ _ i); [done| | |intros t Ht|exact Hj].
      * rewrite length_app. lia.
      * intros n. rewrite take_app, fails_app. pose proof (fails_nonneg (take (n - length tk) (replicate (Z.to_nat d) (Pend i)))). lia.
      * rewrite lookup_app_l; [done|by eapply lookup_lt_Some].
Qed.

(** Deciding the tickets of [i]: the first [a] succeed. *)
Lemma step_resolve c tk i r o d k a pc :
  cinv c tk -> consumers c !! i = Some (Some (ReloadTail r o d k)) ->
  0 <= a <= d -> a <= Z.max 0 (published c - (k - o)) ->
  head_pending pc = a -> over_pending pc = d - a ->
  (forall r o d k, pc <> ReloadTail r o d k) -> (forall tk', pc_ok tk' i pc) ->
  cinv (mkConfig (base c) (<[i := Some pc]> (consumers c)) (granted c) (published c))
    (resolve (Z.to_nat k) (Z.to_nat a) (Z.to_nat d) tk).
Proof.
  intros H Hi Ha Hbound E1 E2 Hnot Hok'.
  pose proof (ci_pc _ _ H _ _ Hi) as (Hr & Hk & Hd & Hkd & Hone & Ho & Hpend).
  unfold zlength in Hkd.
  set (k' := Z.to_nat k) in *. set (d' := Z.to_nat d) in *. set (a' := Z.to_nat a) in *.
  set (tk' := resolve k' a' d' tk).
  assert (k' + d' <= length tk)%nat as Hlen by lia. assert (a' <= d')%nat as Had by lia.
  pose proof (resolve_length tk k' a' d' i Hpend Hlen Had) as RL.
  pose proof (resolve_succs tk k' a' d' i Hpend Hlen Had) as RS.
  pose proof (resolve_fails tk k' a' d' i Hpend Hlen Had) as RF.
  pose proof (resolve_lookup_out tk k' a' d' i Hpend Hlen Had) as Rout.
  pose proof (resolve_lookup_in tk k' a' d' i Hpend Hlen Had) as Rin.
  pose proof (resolve_keeps_fail tk k' a' d' i Hpend Hlen Had) as Rfail.
  fold tk' in RL, RS, RF, Rout, Rin, Rfail.
  assert (forall n, fails (take n tk) <= fails (take n tk')) as Rmono
    by (intros n; by apply fails_take_mono).
  destruct H. assert (i < length (consumers c))%nat by (by eapply lookup_lt_Some).
  split; cbn; try done.
  - unfold zlength in *. lia.
  - rewrite (total_insert _ _ _ _ _ Hi), RS. cbn. lia.
  - rewrite (total_insert _ _ _ _ _ Hi), RF. cbn. lia.
  - intros t Ht. specialize (Rmono t). destruct (decide (k' <= t < k' + d')%nat) as [Hin|Hout].
    + rewrite Rin in Ht by done. case_decide; [|done].
      pose proof (fails_take_le tk k' t ltac:(lia)). lia.
    + rewrite Rout in Ht by lia. apply ci_succ0 in Ht. lia.
  - intros t j Ht. destruct (decide (k' <= t < k' + d')%nat) as [Hin|Hout].
    + rewrite Rin in Ht by done. by case_decide.
    + rewrite Rout in Ht by lia. destruct (ci_pend0 t j Ht) as (r' & o' & d'' & k'' & Hj & Hk'').
      exists r', o', d'', k''. split; [|done]. rewrite list_lookup_insert_ne; [done|].
      intros <-. rewrite Hi in Hj. injection Hj as <- <- <- <-. lia.
  - intros j pcj. destruct (decide (i = j)) as [<-|Hij].
    + rewrite list_lookup_insert_eq by done. intros [= <-]. auto.
    + rewrite list_lookup_insert_ne by done. intros Hj%ci_pc0.
      eapply (pc_ok_evolve tk tk' i); [done|lia|done|intros t Ht|exact Hj].
      rewrite Rout; [done|]. destruct (decide (k' <= t < k' + d')%nat) as [Hin|]; [|lia].
      rewrite Hpend in Ht by done. congruence.
Qed.

Lemma step_ReloadTail c tk i r o d k :
  cinv c tk -> consumers c !! i = Some (Some (ReloadTail r o d k)) ->
  exists tk', cinv (move ideal_step id (Step i) c) tk'.
Proof.
  intros H Hi. pose proof (ci_pc _ _ H _ _ Hi) as (_ & Hk & Hd & _).
  pose proof (ci_tail _ _ H) as ET. cbn [move]. rewrite Hi. cbn [ideal_step]. rewrite ET.
  destruct (Z.ltb_spec 0 (published c - (k - o))) as [Hpos|Hneg].
  - set (a := Z.min d (published c - (k - o))). destruct (Z.ltb_spec a d).
    + eexists. eapply (step_resolve _ _ _ _ _ _ _ a); eauto; cbn; lia.
    + eexists. eapply (step_resolve _ _ _ _ _ _ _ a); eauto; cbn; lia.
  - eexists. eapply (step_resolve _ _ _ _ _ _ _ 0); eauto; cbn; lia.
Qed.

Definition event_ok (e : event) : Prop :=
  match e with Call _ r => request_ok r | _ => True end.

Lemma cinv_move c tk e :
  cinv c tk -> event_ok e -> exists tk', cinv (move ideal_step id e c) tk'.
Proof.
  intros H He. destruct e as [i r|i|n].
  - exists tk. cbn [move]. destruct (consumers c !! i) as [[pc|]|] eqn:Hi; try done.
    destruct H. split; cbn; try done.
    + rewrite (total_insert _ _ _ _ _ Hi). cbn. lia.
    + rewrite (total_insert _ _ _ _ _ Hi). cbn. lia.
    + intros t j Ht. destruct (ci_pend0 t j Ht) as (r' & o & d & k & Hj & Hk).
      exists r', o, d, k. split; [|done]. rewrite list_lookup_insert_ne; [done|].
      intros <-. congruence.
    + intros j pcj. destruct (decide (i = j)) as [<-|].
      * rewrite list_lookup_insert_eq by (by eapply lookup_lt_Some). by intros [= <-].
      * rewrite list_lookup_insert_ne by done. apply ci_pc0.
  - destruct (consumers c !! i) as [[pc|]|] eqn:Hi; [|exists tk; cbn [move]; by rewrite Hi..].
    destruct (ideal_step pc (base c)) as [res p] eqn:E.
    destruct pc; try (exists tk; by eapply step_ReturnSome_etc).
    + eexists. by eapply step_TakeTicket.
    + by eapply step_ReloadTail.
  - exists tk. destruct H. split; cbn; try done; try (unfold id; lia).
    intros t Ht%ci_succ0. lia.
Qed.

Lemma cinv_init N : cinv (init_config N) [].
Proof.
  assert (forall f, total f (replicate N None) = 0) as Ht.
  { intros f. apply zsum_zero. intros o Ho. by apply elem_of_replicate in Ho as [-> _]. }
  split; cbn; rewrite ?Ht; try done. intros i pc [? _]%lookup_replicate. done.
Qed.

Lemma cinv_exec N es :
  Forall event_ok es -> exists tk, cinv (ideal_exec es (init_config N)) tk.
Proof.
  unfold ideal_exec, exec. induction es as [|e es IH] using rev_ind; intros Hes.
  { exists []. apply cinv_init. }
  apply Forall_app in Hes as [Hes He]. rewrite Forall_singleton in He.
  rewrite foldl_snoc. destruct (IH Hes) as [tk H]. by apply (cinv_move _ tk).
Qed.

(** * The program refines the ideal machine *)

Section refinement.
Context (tr : Traits) `{!TraitsOk tr}.
Let w := index_bits tr.
Let s := size_bits tr.

Definition word_base (p : ProducerBase) : ProducerBase :=
  mkProducerBase (wrap w (tailIndex p)) (wrap w (headIndex p))
    (wrap w (dequeueOptimisticCount p)) (wrap w (dequeueOvercommit p))
    (tailBlock p) (isExplicit p).

Definition word_pc (pc : claim_pc) : claim_pc :=
  match pc with
  | LoadOvercommit r t => LoadOvercommit r (wrap w t)
  | LoadOptimistic r t o => LoadOptimistic r (wrap w t) (wrap w o)
  | TakeTicket r o d => TakeTicket r (wrap w o) d
  | ReloadTail r o d k => ReloadTail r (wrap w o) d (wrap w k)
  | pc => pc
  end.

Definition word_grant (g : Z * Z) : Z * Z := (wrap w (fst g), snd g).
Definition word_config (c : config) : config :=
  mkConfig (word_base (base c)) (fmap (M := option) word_pc <$> consumers c)
    (word_grant <$> granted c) (published c).

(** The comparisons of the code are meaningful while the two sides of each
    are less than half the range of their type apart: half the range of
    [index_t] for [dequeue], of [size_t] for [dequeue_bulk]. *)
Definition near (r : request) (available : Z) : Prop :=
  match r with
  | One => - 2 ^ (w - 1) <= available < 2 ^ (w - 1)
  | Many _ => - 2 ^ (s - 1) <= available < 2 ^ (s - 1)
  end.
Definition pc_in_window (p : ProducerBase) (pc : claim_pc) : Prop :=
  match pc with
  | LoadOptimistic r t o => near r (t - (dequeueOptimisticCount p - o))
  | ReloadTail r o d k => near r (tailIndex p - (k - o))
  | _ => True
  end.
Definition in_window (c : config) : Prop :=
  forall i pc, consumers c !! i = Some (Some pc) -> pc_in_window (base c) pc.

Lemma w_pos : 0 < w. Proof using All. unfold w. pose proof (size_le_index tr). lia. Qed.
Lemma s_pos : 0 < s <= w. Proof using All. unfold w, s. pose proof (size_le_index tr). lia. Qed.

Lemma one_test x y t :
  near One (t - (x - y)) ->
  circular_less_than w (wrap w (wrap w x - wrap w y)) (wrap w t) = (0 <? t - (x - y)).
Proof using All.
  intros H. cbn in H. autorewrite with wrap. rewrite circular_less_than_wrap; [|apply w_pos|lia].
  destruct (Z.ltb_spec (x - y) t), (Z.ltb_spec 0 (t - (x - y))); done || lia.
Qed.

Lemma size_wrap x : wrap s (wrap w x) = wrap s x.
Proof using All. apply wrap_mod_pow2. pose proof s_pos. lia. Qed.

Lemma many_count x y t :
  wrap s (wrap w (wrap w t - wrap w (wrap w x - wrap w y))) = wrap s (t - (x - y)).
Proof using All. 
  rewrite size_wrap. rewrite <- size_wrap, (wrap_sub_l x), (wrap_sub_r x), wrap_sub_l, wrap_sub_r.
  apply size_wrap.
Qed.

Lemma many_test x : near (Many 0) x -> circular_less_than s 0 (wrap s x) = (0 <? x).
Proof using All.
  intros H. cbn in H. pose proof s_pos.
  replace 0 with (wrap s 0) at 1 by apply Z.mod_0_l, Z.neq_sym, Z.lt_neq, pow_pos, s_pos.
  apply circular_less_than_wrap; lia.
Qed.

Lemma many_small x : near (Many 0) x -> 0 < x -> wrap s x = x.
Proof using All.
  intros H Hx. cbn in H. apply wrap_small. pose proof (pow_half (w := s)). pose proof s_pos. lia.
Qed.

Definition word_result (r : claim_result + claim_pc) : claim_result + claim_pc :=
  match r with
  | inl r => inl (word_grant <$> r)
  | inr pc => inr (word_pc pc)
  end.

Lemma claim_step_refines tk i pc p :
  pc_in_window p pc -> pc_ok tk i pc ->
  claim_step tr (word_pc pc) (word_base p) =
    (word_result (fst (ideal_step pc p)), word_base (snd (ideal_step pc p))).
Proof using All.
  intros Hw Hok. destruct pc as [r|r t|r t o|r o d|r o d k|a e|a|d]; cbn [word_pc]; try done.
  - destruct r as [|max]; cbn -[wrap circular_less_than] in *; fold w; fold s.
    + rewrite one_test by done. by case_match.
    + rewrite many_count, many_test by done. destruct (Z.ltb_spec 0 (t - (dequeueOptimisticCount p - o))); [|done].
      rewrite many_small by done. by rewrite min_if.
  - cbn. unfold word_base. cbn. by rewrite wrap_add_l.
  - destruct Hok as (_ & _ & Hd & _ & Hone & _).
    destruct r as [|max]; cbn -[wrap circular_less_than] in *; fold w; fold s.
    + rewrite one_test by done. destruct (Z.ltb_spec 0 (tailIndex p - (k - o))); [|done].
      rewrite Hone by done. by rewrite Z.min_l by lia.
    + rewrite many_count, many_test by done. destruct (Z.ltb_spec 0 (tailIndex p - (k - o))); [|done].
      rewrite many_small by done. rewrite min_if. by case_match.
  - cbn. unfold word_base. cbn. by rewrite wrap_add_l.
  - cbn. unfold word_base. cbn. by rewrite wrap_add_l.
  - cbn. unfold word_base. cbn. by rewrite wrap_add_l.
Qed.

Lemma move_refines tk c e :
  in_window c -> cinv c tk ->
  move (claim_step tr) (wrap w) e (word_config c) = word_config (move ideal_step id e c).
Proof using All.
  intros Hw H. destruct e as [i r|i|n]; cbn [move].
  - unfold word_config at 1. cbn [consumers]. rewrite list_lookup_fmap.
    destruct (consumers c !! i) as [[pc|]|]; cbn [fmap option_fmap option_map]; try done.
    unfold word_config. cbn. by rewrite list_fmap_insert.
  - unfold word_config at 1. cbn [consumers]. rewrite list_lookup_fmap.
    destruct (consumers c !! i) as [[pc|]|] eqn:Hi; cbn [fmap option_fmap option_map]; try done.
    cbn [base word_config].
    rewrite (claim_step_refines tk i) by (by first [eapply Hw|eapply ci_pc]).
    destruct (ideal_step pc (base c)) as [[r|pc'] p]; cbn [fst snd word_result].
    + unfold word_config. cbn. rewrite list_fmap_insert, fmap_app. cbn. f_equal. f_equal.
      by destruct r.
    + unfold word_config. cbn. by rewrite list_fmap_insert.
  - unfold word_config, word_base. cbn. by rewrite wrap_add_l.
Qed.

(** The schedules under which every comparison is meaningful. *)
Definition stays_in_window (N : nat) (es : list event) : Prop :=
  forall es1 es2, es = es1 ++ es2 -> in_window (ideal_exec es1 (init_config N)).

Lemma exec_refines N es :
  Forall event_ok es -> stays_in_window N es ->
  word_exec tr es (init_config N) = word_config (ideal_exec es (init_config N)).
Proof using All.
  induction es as [|e es IH] using rev_ind; intros Hes Hw.
  { cbn. unfold word_config, word_base. cbn. rewrite fmap_replicate.
    pose proof (pow_pos w_pos). unfold wrap. by rewrite Z.mod_0_l by lia. }
  apply Forall_app in Hes as [Hes He].
  unfold word_exec, ideal_exec, exec in *. rewrite !foldl_snoc, IH.
  - destruct (cinv_exec N es Hes) as [tk H]. apply (move_refines tk); [|done].
    by apply (Hw es [e]).
  - done.
  - intros es1 es2 ->. apply (Hw es1 (es2 ++ [e])). by rewrite app_assoc.
Qed.

(** C6: Under every interleaving of any number of consumers with the
    producer, the successful claims are consecutive intervals of indices
    that never go past the published elements: every element is claimed at
    most once, and none before it is published.  The indices of the
    configurations on the way stay within half of the range of their type of
    each other ([stays_in_window]), as [circular_less_than] needs. *)
Theorem claims_are_consecutive_and_published N es :
  Forall event_ok es -> stays_in_window N es ->
  let c := word_exec tr es (init_config N) in
  exists log, granted c = word_grant <$> log /\ consecutive 0 log /\
    zsum (snd <$> log) <= published c.
Proof using All.
  intros Hes Hw c. unfold c. rewrite exec_refines by done.
  destruct (cinv_exec N es Hes) as [tk H]. exists (granted (ideal_exec es (init_config N))).
  split; [done|]. split; [apply H|]. rewrite <- (ci_sum _ _ H). exact (cinv_head_bound _ _ H).
Qed.

(** C25: The effective count [dequeueOptimisticCount - dequeueOvercommit]
    becomes exact whenever no claim is in progress: it equals [headIndex],
    so no element is lost to failed claims (within the window of the previous
    claim, [stays_in_window]). *)
Theorem quiescent_count_is_exact N es :
  Forall event_ok es -> stays_in_window N es ->
  let c := word_exec tr es (init_config N) in
  (forall i o, consumers c !! i = Some o -> o = None) ->
  wrap w (dequeueOptimisticCount (base c) - dequeueOvercommit (base c)) = headIndex (base c).
Proof using All.
  intros Hes Hw c Hidle. unfold c in *. clear c. rewrite exec_refines in * by done.
  destruct (cinv_exec N es Hes) as [tk H]. set (c := ideal_exec es (init_config N)) in *.
  assert (forall i o, consumers c !! i = Some o -> o = None) as Hidle'.
  { intros i [pc|] Hi; [|done]. specialize (Hidle i (Some (word_pc pc))). cbn in Hidle.
    rewrite list_lookup_fmap, Hi in Hidle. by specialize (Hidle eq_refl). }
  assert (forall f, total f (consumers c) = 0) as Ht.
  { intros f. apply zsum_zero. intros o [i Hi]%list_elem_of_lookup. by rewrite (Hidle' _ _ Hi). }
  pose proof (succs_fails_all tk) as Hall. destruct H. rewrite !Ht in *.
  cbn. autorewrite with wrap. f_equal. rewrite <- Hall in ci_tickets0; [lia|].
  intros t i Hti. destruct (ci_pend0 t i Hti) as (r & o & d & k & Hi & _). by apply Hidle' in Hi.
Qed.
End refinement.

(** ** A decision procedure for the window, for concrete schedules *)

Section window_decision.
Context (tr : Traits).

#[export] Instance near_dec r x : Decision (near tr r x).
Proof. destruct r; apply _. Defined.
#[export] Instance pc_in_window_dec p pc : Decision (pc_in_window tr p pc).
Proof. destruct pc; apply _. Defined.

Definition windowb (c : config) : bool :=
  forallb (from_option (fun pc => bool_decide (pc_in_window tr (base c) pc)) true) (consumers c).
Definition stays_in_windowb (N : nat) (es : list event) : bool :=
  forallb (fun n => windowb (ideal_exec (take n es) (init_config N))) (seq 0 (S (length es))).

Lemma windowb_spec c : windowb c = true -> in_window tr c.
Proof.
  unfold windowb. rewrite forallb_forall. intros H i pc Hi.
  specialize (H (Some pc)). cbn in H. apply bool_decide_eq_true in H; [done|].
  apply list_elem_of_In. by eapply list_elem_of_lookup_2.
Qed.

Lemma stays_in_windowb_spec N es : stays_in_windowb N es = true -> stays_in_window tr N es.
Proof.
  unfold stays_in_windowb. rewrite forallb_forall. intros H es1 es2 ->.
  apply windowb_spec. specialize (H (length es1)). rewrite take_app_length in H. apply H.
  rewrite in_seq, length_app. lia.
Qed.
End window_decision.

(** Two consumers race for three elements: consumer 0 reads the counters,
    consumer 1 claims two in bulk and a stale claim of consumer 0 partly
    fails. *)
Definition race : list event :=
  [Publish 3; Call 0 (Many 2); Step 0; Step 0; Step 0; Call 1 (Many 2); Step 1; Step 1; Step 1;
   Step 1; Step 1; Step 0; Step 0; Step 0; Step 1; Step 0; Call 1 One; Step 1; Step 1; Step 1].

Lemma race_ok : Forall event_ok race /\ stays_in_windowb small_traits 2 race = true.
Proof. split; [|vm_compute; done]. repeat constructor; done. Qed.

Lemma claims_are_consecutive_and_published_witness :
  granted (word_exec small_traits race (init_config 2)) = [(0, 2); (2, 1)] /\
  let c := word_exec small_traits race (init_config 2) in
  exists log, granted c = word_grant small_traits <$> log /\ consecutive 0 log /\
    zsum (snd <$> log) <= published c.
Proof.
  split; [vm_compute; reflexivity|].
  apply (claims_are_consecutive_and_published small_traits); [apply race_ok|].
  apply stays_in_windowb_spec, race_ok.
Defined.

Lemma quiescent_count_is_exact_witness :
  let c := word_exec small_traits race (init_config 2) in
  headIndex (base c) = 3 /\
  wrap (index_bits small_traits) (dequeueOptimisticCount (base c) - dequeueOvercommit (base c))
    = headIndex (base c).
Proof.
  split; [vm_compute; reflexivity|].
  apply (quiescent_count_is_exact small_traits 2 race); [apply race_ok| |].
  - apply stays_in_windowb_spec, race_ok.
  - intros i o Hi. assert (consumers (word_exec small_traits race (init_config 2)) = [None; None]) as E
      by (vm_compute; reflexivity).
    rewrite E in Hi. clear E. destruct i as [|[|i]]; [by injection Hi|by injection Hi|]. change ([] !! i = Some o) in Hi. rewrite lookup_nil in Hi. discriminate Hi.
Defined.

(** * Uninterrupted claims *)

Section sequential.
Context (tr : Traits) `{!TraitsOk tr}.
Let w := index_bits tr.

(** No claim is in progress; [h] and [t] are the true head and tail. *)
Record counters (p : ProducerBase) (h t : Z) : Prop := {
  ct_tail : tailIndex p = wrap w t;
  ct_head : headIndex p = wrap w h;
  ct_count : wrap w (dequeueOptimisticCount p - dequeueOvercommit p) = wrap w h;
  ct_le : 0 <= h <= t
}.

(** The rest of the producer is untouched. *)
Definition same_tail (p p' : ProducerBase) : Prop :=
  tailIndex p' = tailIndex p /\ tailBlock p' = tailBlock p /\ isExplicit p' = isExplicit p.

Lemma counters_claim p h t c o n :
  counters p h t -> 0 <= n -> h + n <= t ->
  wrap w (c - o) = wrap w (h + n) ->
  counters (mkProducerBase (tailIndex p) (wrap w (headIndex p + n)) c o (tailBlock p) (isExplicit p))
    (h + n) t.
Proof using All.
  intros [] Hn Ht Hc. split; cbn; try done; [|lia]. rewrite ct_head0. apply wrap_add_l.
Qed.

(** What the seven steps amount to when nobody interferes. *)
Lemma claim_one_alone p :
  claim tr One p =
    if circular_less_than w (wrap w (dequeueOptimisticCount p - dequeueOvercommit p)) (tailIndex p)
    then Ok (Some (headIndex p, 1))
           (mkProducerBase (tailIndex p) (wrap w (headIndex p + 1))
              (wrap w (dequeueOptimisticCount p + 1)) (dequeueOvercommit p)
              (tailBlock p) (isExplicit p))
    else Ok None p.
Proof using Type.
  destruct p. unfold claim. cbn -[circular_less_than wrap]. fold w.
  destruct (circular_less_than _ _ _) eqn:E; [|done].
  cbn -[circular_less_than wrap]. fold w. rewrite E. done.
Qed.

Lemma claim_many_alone max p :
  let n := wrap (size_bits tr) (wrap w (tailIndex p -
             wrap w (dequeueOptimisticCount p - dequeueOvercommit p))) in
  let d := if n <? max then n else max in
  claim tr (Many max) p =
    if circular_less_than (size_bits tr) 0 n
    then Ok (Some (headIndex p, d))
           (mkProducerBase (tailIndex p) (wrap w (headIndex p + d))
              (wrap w (dequeueOptimisticCount p + d)) (dequeueOvercommit p)
              (tailBlock p) (isExplicit p))
    else Ok None p.
Proof using Type.
  destruct p. unfold claim. cbn -[circular_less_than wrap]. fold w.
  set (n := wrap (size_bits tr) _).
  destruct (circular_less_than _ _ _) eqn:E; [|done].
  set (d := if n <? max then n else max).
  cbn -[circular_less_than wrap]. fold w. fold n. rewrite E.
  assert (d <= n) as Hd by (unfold d; destruct (Z.ltb_spec n max); lia).
  assert ((if d <? n then d else n) = d) as -> by (destruct (Z.ltb_spec d n); lia).
  rewrite Z.ltb_irrefl. done.
Qed.

Lemma claim_one_spec p h t :
  counters p h t -> t - h < 2 ^ (w - 1) ->
  exists p', claim tr One p = Ok (if h <? t then Some (wrap w h, 1) else None) p' /\
    if h <? t then counters p' (h + 1) t /\ same_tail p p' else p' = p.
Proof using All.
  intros Hc Hw. pose proof Hc as []. pose proof (size_le_index tr).
  rewrite claim_one_alone, ct_count0, ct_tail0, circular_less_than_wrap by (unfold w in *; lia).
  destruct (Z.ltb_spec h t); [|by exists p].
  rewrite <- ct_head0, <- ct_tail0. eexists. split; [done|]. split; [|done]. apply (counters_claim p); [done|lia|lia|]. cbn.
  rewrite wrap_sub_l. rewrite <- (wrap_add_l h), <- ct_count0, wrap_add_l. f_equal. lia.
Qed.

Lemma claim_many_spec max p h t :
  counters p h t -> t - h < 2 ^ (size_bits tr - 1) -> 0 <= max ->
  exists p', claim tr (Many max) p =
      Ok (if h <? t then Some (wrap w h, Z.min (t - h) max) else None) p' /\
    if h <? t then counters p' (h + Z.min (t - h) max) t /\ same_tail p p' else p' = p.
Proof using All.
  intros Hc Hw Hmax. pose proof Hc as []. pose proof (size_le_index tr) as Hle.
  assert (0 < size_bits tr) as Hs by lia. pose proof (pow_half Hs). pose proof (pow_half_pos Hs).
  pose proof (claim_many_alone max p) as E. cbn zeta in E.
  rewrite ct_count0, ct_tail0, (wrap_sub_l t), wrap_sub_r, size_wrap in E by done.
  rewrite many_test in E by (done || (cbn; lia)).
  rewrite E. destruct (Z.ltb_spec 0 (t - h)), (Z.ltb_spec h t); try lia; [|by exists p].
  rewrite wrap_small by lia. rewrite min_if.
  rewrite <- ct_head0, <- ct_tail0. eexists. split; [done|]. split; [|done]. apply (counters_claim p); [done|lia|lia|]. cbn.
  rewrite wrap_sub_l. rewrite <- (wrap_add_l h), <- ct_count0, wrap_add_l. f_equal. lia.
Qed.

(** Publishing [n] elements. *)
Lemma counters_publish p h t n b :
  counters p h t -> 0 <= n ->
  counters (set_tailIndex (wrap w (tailIndex p + n)) (set_tailBlock b p)) h (t + n).
Proof using Type. intros [] Hn. split; cbn; try done; [|lia]. rewrite ct_tail0. apply wrap_add_l. Qed.

(** C26: While fewer elements than half the index range are queued,
    [size_approx] is exactly their number, wrap-around of both indices
    included. *)
Theorem size_approx_exact p h t :
  counters p h t -> t - h < 2 ^ (w - 1) -> t - h < 2 ^ size_bits tr ->
  size_approx tr p = t - h.
Proof using All.
  intros [] Hw Hs. pose proof (size_le_index tr).
  assert (0 < w) as Hw0 by (unfold w; lia). pose proof (pow_half Hw0). pose proof (pow_half_pos Hw0). unfold w in *.
  unfold size_approx. rewrite ct_tail0, ct_head0, circular_less_than_wrap by lia.
  destruct (Z.ltb_spec h t); [|lia].
  rewrite wrap_sub_l, wrap_sub_r, size_wrap, wrap_small by (done || lia). done.
Qed.
End sequential.

Lemma size_approx_exact_witness :
  size_approx small_traits (mkProducerBase 3 0xFFFFFFFA 0xFFFFFFFA 0 nullptr true) = 9.
Proof. apply (size_approx_exact small_traits _ 0xFFFFFFFA 0x100000003); [split; cbn; lia || done|cbn; lia..]. Defined.
