(* ===== verification/ExplicitProducer.v ===== *)
(** [ExplicitProducer] of src/concurrentqueue.h: a sub-queue that belongs to a
    producer token, a circular list of blocks with a circular index of them. *)

From S2P Require Import Prelude MachineInt Traits FreeList Block BlockPool ProducerBase.

(** What the code uses of the element type: how an element is constructed
    from an argument and assigned to the caller's object ([None]: the operation
    throws), and whether these are declared [noexcept]. *)
Record ElementOps (U T R : Type) := mkElementOps {
  make : U -> option T;
  noexcept_ctor : bool;
  assign : T -> option R;
  noexcept_assign : bool;
  is_trivially_destructible : bool
}.
Arguments make {U T R}. Arguments noexcept_ctor {U T R}. Arguments assign {U T R}.
Arguments noexcept_assign {U T R}. Arguments is_trivially_destructible {U T R}.

(** * State *)

Record BlockIndexEntry := mkEntry { entry_base : Z; entry_block : loc }.

(** An entry that was never written is [None]. *)
Record BlockIndexHeader := mkHeader {
  size : Z;
  front : Z;
  entries : list (option BlockIndexEntry);
  prev : loc
}.

(** The entry arrays live in their headers; [pr_blockIndexEntries] is the
    header whose array it points to. *)
Record ExplicitProducer := mkExplicit {
  ep_base : ProducerBase;
  blockIndex : loc;
  pr_blockIndexSlotsUsed : Z;
  pr_blockIndexSize : Z;
  pr_blockIndexFront : Z;
  pr_blockIndexEntries : loc;
  pr_blockIndexRaw : loc;
  headers : gmap loc BlockIndexHeader
}.

Definition set_ep_base x (p : ExplicitProducer) : ExplicitProducer :=
  mkExplicit x (blockIndex p) (pr_blockIndexSlotsUsed p) (pr_blockIndexSize p)
    (pr_blockIndexFront p) (pr_blockIndexEntries p) (pr_blockIndexRaw p) (headers p).
Definition set_blockIndex x (p : ExplicitProducer) : ExplicitProducer :=
  mkExplicit (ep_base p) x (pr_blockIndexSlotsUsed p) (pr_blockIndexSize p)
    (pr_blockIndexFront p) (pr_blockIndexEntries p) (pr_blockIndexRaw p) (headers p).
Definition set_slotsUsed x (p : ExplicitProducer) : ExplicitProducer :=
  mkExplicit (ep_base p) (blockIndex p) x (pr_blockIndexSize p)
    (pr_blockIndexFront p) (pr_blockIndexEntries p) (pr_blockIndexRaw p) (headers p).
Definition set_indexSize x (p : ExplicitProducer) : ExplicitProducer :=
  mkExplicit (ep_base p) (blockIndex p) (pr_blockIndexSlotsUsed p) x
    (pr_blockIndexFront p) (pr_blockIndexEntries p) (pr_blockIndexRaw p) (headers p).
Definition set_indexFront x (p : ExplicitProducer) : ExplicitProducer :=
  mkExplicit (ep_base p) (blockIndex p) (pr_blockIndexSlotsUsed p) (pr_blockIndexSize p)
    x (pr_blockIndexEntries p) (pr_blockIndexRaw p) (headers p).
Definition set_indexEntries x (p : ExplicitProducer) : ExplicitProducer :=
  mkExplicit (ep_base p) (blockIndex p) (pr_blockIndexSlotsUsed p) (pr_blockIndexSize p)
    (pr_blockIndexFront p) x (pr_blockIndexRaw p) (headers p).
Definition set_indexRaw x (p : ExplicitProducer) : ExplicitProducer :=
  mkExplicit (ep_base p) (blockIndex p) (pr_blockIndexSlotsUsed p) (pr_blockIndexSize p)
    (pr_blockIndexFront p) (pr_blockIndexEntries p) x (headers p).
Definition set_headers x (p : ExplicitProducer) : ExplicitProducer :=
  mkExplicit (ep_base p) (blockIndex p) (pr_blockIndexSlotsUsed p) (pr_blockIndexSize p)
    (pr_blockIndexFront p) (pr_blockIndexEntries p) (pr_blockIndexRaw p) x.

(** The producer and the memory of its queue. *)
Record EState (T : Type) := mkEState { prod : ExplicitProducer; mem : Mem T }.
Arguments mkEState {T}. Arguments prod {T}. Arguments mem {T}.

Section explicit.
Context {U T R : Type} (tr : Traits) (ops : ElementOps U T R).
Context (malloc_ok : nat -> bool) (indeterminate : Indeterminate).
Implicit Types s : EState T.

Let idx := wrap (index_bits tr).
Let sz := wrap (size_bits tr).

(** [i & (BLOCK_SIZE - 1)] and [i & ~(BLOCK_SIZE - 1)] on [index_t]. *)
Definition in_block (i : Z) : Z := Z.land i (BLOCK_SIZE tr - 1).
Definition block_base (i : Z) : Z := Z.land i (unot (index_bits tr) (BLOCK_SIZE tr - 1)).
Definition lessi : Z -> Z -> bool := circular_less_than (index_bits tr).

(** ** Field accesses *)

Definition with_prod {A} (f : M ExplicitProducer A) : M (EState T) A :=
  zoom prod (fun p s => mkEState p (mem s)) f.
Definition with_mem {A} (f : M (Mem T) A) : M (EState T) A :=
  zoom mem (fun m s => mkEState (prod s) m) f.
Definition with_base {A} (f : M ProducerBase A) : M (EState T) A :=
  with_prod (zoom ep_base set_ep_base f).
Definition on_block {A} (b : loc) (f : M (Block T) A) : M (EState T) A :=
  with_mem (at_block b f).
Definition getp {A} (f : ExplicitProducer -> A) : M (EState T) A := gets (fun s => f (prod s)).
Definition getb {A} (f : ProducerBase -> A) : M (EState T) A := getp (fun p => f (ep_base p)).
Definition setp (f : ExplicitProducer -> ExplicitProducer) : M (EState T) unit :=
  with_prod (modify f).
Definition setb (f : ProducerBase -> ProducerBase) : M (EState T) unit := with_base (modify f).

Definition header (h : loc) : M (EState T) BlockIndexHeader :=
  let! hs := getp headers in deref NullDeref (hs !! h).
Definition set_header (h : loc) (x : BlockIndexHeader) : M (EState T) unit :=
  header h;; setp (fun p => set_headers (<[h := x]> (headers p)) p).
(** [entries\[i\]] of the index [h]: the read and the write. *)
Definition read_entry (h : loc) (i : Z) : M (EState T) BlockIndexEntry :=
  let! hd := header h in
  let! e := deref OutOfBounds (zlookup (entries hd) i) in deref BadObject e.
Definition write_entry (h : loc) (i : Z) (e : BlockIndexEntry) : M (EState T) unit :=
  let! hd := header h in
  deref OutOfBounds (zlookup (entries hd) i);;
  set_header h (mkHeader (size hd) (front hd) (zinsert i (Some e) (entries hd)) (prev hd)).
Definition store_front (h : loc) (x : Z) : M (EState T) unit :=
  let! hd := header h in set_header h (mkHeader (size hd) x (entries hd) (prev hd)).

(** [new (p) T(element)]. *)
Definition new_T (b : loc) (i : Z) (u : U) : M (EState T) unit :=
  match make ops u with
  | Some v => on_block b (construct tr i v)
  | None => if noexcept_ctor ops then faults Terminates else throw
  end.

(** ** The block index *)

(** The copy loop of [new_block_index], from slot [i] to
    [pr_blockIndexFront]; [fuel] bounds its length. *)
Fixpoint copy_entries (fuel : nat) (old : list (option BlockIndexEntry)) (mask stop i : Z)
    (acc : list (option BlockIndexEntry)) : M (EState T) (list (option BlockIndexEntry)) :=
  match fuel with
  | O => faults OutOfFuel
  | S fuel =>
      let! e := deref OutOfBounds (zlookup old i) in
      let i := Z.land (sz (i + 1)) mask in
      if i =? stop then ret (acc ++ [e]) else copy_entries fuel old mask stop i (acc ++ [e])
  end.

Definition new_block_index (numberOfFilledSlotsToExpose : Z) : M (EState T) bool :=
  let! oldSize := getp pr_blockIndexSize in
  let prevBlockSizeMask := sz (oldSize - 1) in
  let newSize := sz (Z.shiftl oldSize 1) in
  setp (set_indexSize newSize);;
  let! newRawPtr := with_mem (malloc malloc_ok 1) in
  if newRawPtr =? nullptr then
    setp (set_indexSize (Z.shiftr newSize 1));; ret false
  else
    let! used := getp pr_blockIndexSlotsUsed in
    let! pfront := getp pr_blockIndexFront in
    let! copied :=
      (if used =? 0 then ret []
       else
         let! pe := getp pr_blockIndexEntries in
         let! old := header pe in
         copy_entries (Z.to_nat oldSize) (entries old) prevBlockSizeMask pfront
           (Z.land (sz (pfront - used)) prevBlockSizeMask) []) in
    let j := zlength copied in
    let! raw := getp pr_blockIndexRaw in
    let newEntries := copied ++ replicate (Z.to_nat (newSize - j)) None in
    setp (fun p => set_headers (<[newRawPtr :=
      mkHeader newSize (sz (numberOfFilledSlotsToExpose - 1)) newEntries raw]> (headers p)) p);;
    setp (set_indexFront j);;
    setp (set_indexEntries newRawPtr);;
    setp (set_indexRaw newRawPtr);;
    setp (set_blockIndex newRawPtr);;
    ret true.

(** [++pr_blockIndexFront] around the index. *)
Definition advance_front : M (EState T) unit :=
  setp (fun p => set_indexFront
    (Z.land (sz (pr_blockIndexFront p + 1)) (sz (pr_blockIndexSize p - 1))) p).

(** [auto& entry = blockIndex->entries\[pr_blockIndexFront\]] and the
    assignment of its fields. *)
Definition add_index_entry (base : Z) : M (EState T) unit :=
  let! bi := getp blockIndex in
  let! pfront := getp pr_blockIndexFront in
  let! tb := getb tailBlock in
  write_entry bi pfront (mkEntry base tb).

(** "Add block to block index". *)
Definition publish_block (currentTailIndex : Z) : M (EState T) unit :=
  add_index_entry currentTailIndex;;
  let! bi := getp blockIndex in
  let! pfront := getp pr_blockIndexFront in
  store_front bi pfront;;
  advance_front.

(** ** enqueue *)

(** [this->tailBlock != nullptr && this->tailBlock->next->is_empty()] *)
Definition next_block_is_empty : M (EState T) bool :=
  let! tb := getb tailBlock in
  if tb =? nullptr then ret false
  else
    let! nx := on_block tb (gets next) in
    on_block nx (is_empty tr explicit_context).

(** The part of the condition that keeps the tail from overtaking the head
    by half the index range, and the sub-queue below its size limit. *)
Definition no_room (head currentTailIndex : Z) : bool :=
  negb (lessi head (idx (currentTailIndex + BLOCK_SIZE tr)))
  || (negb (MAX_SUBQUEUE_SIZE tr =? size_max tr)
      && ((MAX_SUBQUEUE_SIZE tr =? 0)
          || (sz (MAX_SUBQUEUE_SIZE tr - BLOCK_SIZE tr) <? idx (currentTailIndex - head)))).

(** Insertion of [newBlock] after the tail block, which it becomes. *)
Definition link_block (newBlock : loc) : M (EState T) unit :=
  let! tb := getb tailBlock in
  (if tb =? nullptr then on_block newBlock (modify (set_next newBlock))
   else
     let! nx := on_block tb (gets next) in
     on_block newBlock (modify (set_next nx));;
     on_block tb (modify (set_next newBlock)));;
  setb (set_tailBlock newBlock).

(** "Check that the block index has room", growing it if necessary. *)
Definition ensure_index (allocMode : AllocationMode) : M (EState T) bool :=
  let! raw := getp pr_blockIndexRaw in
  let! used := getp pr_blockIndexSlotsUsed in
  let! isize := getp pr_blockIndexSize in
  if (raw =? nullptr) || (used =? isize) then
    match allocMode with
    | CannotAlloc => ret false
    | CanAlloc => new_block_index used
    end
  else ret true.

(** The else branch: a block that was not in the list.  [false] if there is
    no room, or no memory for the block or the index. *)
Definition add_new_block (allocMode : AllocationMode) (currentTailIndex : Z) : M (EState T) bool :=
  let! head := getb headIndex in
  cassert (negb (lessi currentTailIndex head));;
  if no_room head currentTailIndex then ret false
  else
    let! indexed := ensure_index allocMode in
    if negb (indexed : bool) then ret false
    else
      let! newBlock := with_mem (requisition_block tr malloc_ok indeterminate allocMode) in
      if newBlock =? nullptr then ret false
      else
        on_block newBlock (reset_empty tr explicit_context);;
        link_block newBlock;;
        setp (fun p => set_slotsUsed (sz (pr_blockIndexSlotsUsed p + 1)) p);;
        ret true.

(** The first if branch: the block ahead is empty and becomes the tail. *)
Definition reuse_next_block : M (EState T) unit :=
  let! tb := getb tailBlock in
  let! nx := on_block tb (gets next) in
  setb (set_tailBlock nx);;
  on_block nx (reset_empty tr explicit_context).

(** "We reached the end of a block, start a new one". *)
Definition find_block (allocMode : AllocationMode) (currentTailIndex : Z) : M (EState T) bool :=
  let! reuse := next_block_is_empty in
  if reuse : bool then reuse_next_block;; ret true else add_new_block allocMode currentTailIndex.

Definition enqueue (allocMode : AllocationMode) (element : U) : M (EState T) bool :=
  let! currentTailIndex := getb tailIndex in
  let newTailIndex := idx (1 + currentTailIndex) in
  let last : M (EState T) bool :=
    let! tb := getb tailBlock in
    new_T tb currentTailIndex element;;
    setb (set_tailIndex newTailIndex);;
    ret true in
  if in_block currentTailIndex =? 0 then
    let! startBlock := getb tailBlock in
    let! originalBlockIndexSlotsUsed := getp pr_blockIndexSlotsUsed in
    let! ready := find_block allocMode currentTailIndex in
    if negb (ready : bool) then ret false
    else
      (if negb (noexcept_ctor ops) then
         let! tb := getb tailBlock in
         try_catch (new_T tb currentTailIndex element)
           (setp (set_slotsUsed originalBlockIndexSlotsUsed);;
            setb (set_tailBlock (if startBlock =? nullptr then tb else startBlock));;
            throw)
       else ret tt);;
      publish_block currentTailIndex;;
      if negb (noexcept_ctor ops) then
        setb (set_tailIndex newTailIndex);; ret true
      else last
  else last.

(** ** dequeue *)

(** [localBlockIndexHead + offset], masked: the slot of the block that holds
    [index]. *)
Definition index_slot (bi : loc) (index : Z) : M (EState T) Z :=
  let! hd := header bi in
  let localBlockIndexHead := front hd in
  let! e := read_entry bi localBlockIndexHead in
  let headBase := entry_base e in
  let offset := sz (Z.quot (to_signed (index_bits tr) (idx (block_base index - headBase)))
                           (BLOCK_SIZE tr)) in
  ret (Z.land (sz (localBlockIndexHead + offset)) (sz (size hd - 1))).

(** The assignment [element = std::move(el)]; the guard (or the code after a
    [noexcept] assignment) destroys the element and marks the slot. *)
Definition dequeue : M (EState T) (option R) :=
  let! c := with_base (claim tr One) in
  match c with
  | None => ret None
  | Some (index, _) =>
      let! bi := getp blockIndex in
      let! slot := index_slot bi index in
      let! e := read_entry bi slot in
      let block := entry_block e in
      let! el := on_block block (read tr index) in
      let finish := on_block block (destroy_element tr index);;
                    on_block block (set_empty tr explicit_context index) in
      match assign ops el with
      | Some r => finish;; ret (Some r)
      | None => if noexcept_assign ops then faults Terminates else finish;; throw
      end
  end.

(** ** enqueue_bulk *)

(** Undoing the changes to the index while keeping the injected blocks. *)
Definition undo_index (startBlock firstAllocatedBlock : loc) (originalFront originalUsed : Z)
    : M (EState T) unit :=
  setp (set_indexFront originalFront);;
  setp (set_slotsUsed originalUsed);;
  setb (set_tailBlock (if startBlock =? nullptr then firstAllocatedBlock else startBlock)).

(** "Allocate as many blocks as possible from ahead": returns the remaining
    [blockBaseDiff], [currentTailIndex] and [firstAllocatedBlock]. *)
Fixpoint take_blocks_ahead (fuel : nat) (blockBaseDiff currentTailIndex firstAllocatedBlock : Z)
    : M (EState T) (Z * Z * loc) :=
  let stop := ret (blockBaseDiff, currentTailIndex, firstAllocatedBlock) in
  let! tb := getb tailBlock in
  if (blockBaseDiff <=? 0) || (tb =? nullptr) then stop
  else
    let! nx := on_block tb (gets next) in
    if nx =? firstAllocatedBlock then stop
    else
      let! empty := on_block nx (is_empty tr explicit_context) in
      if negb empty then stop
      else
        match fuel with
        | O => faults OutOfFuel
        | S fuel =>
            let blockBaseDiff := sz (blockBaseDiff - BLOCK_SIZE tr) in
            let currentTailIndex := idx (currentTailIndex + BLOCK_SIZE tr) in
            setb (set_tailBlock nx);;
            let first := if firstAllocatedBlock =? nullptr then nx else firstAllocatedBlock in
            add_index_entry currentTailIndex;;
            advance_front;;
            take_blocks_ahead fuel blockBaseDiff currentTailIndex first
        end.

(** "Now allocate as many blocks as necessary from the block pool": [None]
    if that fails, when the changes have been undone; else the first
    allocated block and the index front to fall back to. *)
Fixpoint allocate_blocks (fuel : nat) (allocMode : AllocationMode) (startBlock : loc)
    (originalUsed blockBaseDiff currentTailIndex firstAllocatedBlock originalFront : Z)
    : M (EState T) (option (loc * Z)) :=
  if blockBaseDiff <=? 0 then ret (Some (firstAllocatedBlock, originalFront))
  else
    match fuel with
    | O => faults OutOfFuel
    | S fuel =>
        let blockBaseDiff := sz (blockBaseDiff - BLOCK_SIZE tr) in
        let currentTailIndex := idx (currentTailIndex + BLOCK_SIZE tr) in
        let! head := getb headIndex in
        cassert (negb (lessi currentTailIndex head));;
        let full := no_room head currentTailIndex in
        let! raw := getp pr_blockIndexRaw in
        let! used := getp pr_blockIndexSlotsUsed in
        let! isize := getp pr_blockIndexSize in
        let grow := (raw =? nullptr) || (used =? isize) || full in
        let! ok :=
          (if grow then
             match allocMode with
             | CannotAlloc => ret false
             | CanAlloc => if full then ret false else new_block_index originalUsed
             end
           else ret true) in
        if negb (ok : bool) then
          undo_index startBlock firstAllocatedBlock originalFront originalUsed;; ret None
        else
          let originalFront := if grow then originalUsed else originalFront in
          let! newBlock := with_mem (requisition_block tr malloc_ok indeterminate allocMode) in
          if newBlock =? nullptr then
            undo_index startBlock firstAllocatedBlock originalFront originalUsed;; ret None
          else
            on_block newBlock (set_all_empty tr explicit_context);;
            link_block newBlock;;
            let first := if firstAllocatedBlock =? nullptr then newBlock else firstAllocatedBlock in
            setp (fun p => set_slotsUsed (sz (pr_blockIndexSlotsUsed p + 1)) p);;
            add_index_entry currentTailIndex;;
            advance_front;;
            allocate_blocks fuel allocMode startBlock originalUsed blockBaseDiff
              currentTailIndex first originalFront
    end.

(** "Reset each block's emptiness before we fill them up". *)
Fixpoint reset_blocks (fuel : nat) (block : loc) : M (EState T) unit :=
  match fuel with
  | O => faults OutOfFuel
  | S fuel =>
      on_block block (reset_empty tr explicit_context);;
      let! tb := getb tailBlock in
      if block =? tb then ret tt
      else let! nx := on_block block (gets next) in reset_blocks fuel nx
  end.

(** [stopIndex]: the end of the block of [i], or [last] if that is nearer. *)
Definition stop_index (i last : Z) : Z :=
  let e := idx (block_base i + BLOCK_SIZE tr) in if lessi last e then last else e.

(** The innermost loop; also returns whether a constructor threw. *)
Fixpoint construct_until (fuel : nat) (b : loc) (i stop : Z) (items : list U)
    : M (EState T) (Z * list U * bool) :=
  if i =? stop then ret (i, items, false)
  else
    match fuel, items with
    | O, _ => faults OutOfFuel
    | _, [] => faults OutOfBounds
    | S fuel, u :: items' =>
        match make ops u with
        | Some v => on_block b (construct tr i v);; construct_until fuel b (idx (i + 1)) stop items'
        | None => if noexcept_ctor ops then faults Terminates else ret (i, items, true)
        end
    end.

(** "Enqueue, one block at a time", from the tail block to [endBlock]; if a
    constructor throws, the index of its element is returned. *)
Fixpoint fill_blocks (fuel : nat) (endBlock : loc) (newTailIndex i : Z) (items : list U)
    : M (EState T) (option Z) :=
  match fuel with
  | O => faults OutOfFuel
  | S fuel =>
      let! tb := getb tailBlock in
      let! r := construct_until (Z.to_nat (BLOCK_SIZE tr)) tb i (stop_index i newTailIndex) items in
      match r with
      | (i, _, true) => ret (Some i)
      | (i, items, false) =>
          if tb =? endBlock then cassert (i =? newTailIndex);; ret None
          else
            let! nx := on_block tb (gets next) in
            setb (set_tailBlock nx);; fill_blocks fuel endBlock newTailIndex i items
      end
  end.

(** Destroys the elements of a block from [i] up to [stop]. *)
Fixpoint destroy_until (fuel : nat) (b : loc) (i stop : Z) : M (EState T) unit :=
  if i =? stop then ret tt
  else
    match fuel with
    | O => faults OutOfFuel
    | S fuel => on_block b (destroy_element tr i);; destroy_until fuel b (idx (i + 1)) stop
    end.

(** The destruction of the elements constructed before an exception. *)
Fixpoint destroy_blocks (fuel : nat) (block lastBlockEnqueued : loc) (i stopAt : Z)
    : M (EState T) unit :=
  match fuel with
  | O => faults OutOfFuel
  | S fuel =>
      let stop := stop_index i stopAt in
      destroy_until (Z.to_nat (BLOCK_SIZE tr)) block i stop;;
      if block =? lastBlockEnqueued then ret tt
      else
        let! nx := on_block block (gets next) in
        destroy_blocks fuel nx lastBlockEnqueued stop stopAt
  end.

(** [itemFirst] ranges over [items]. *)
Definition enqueue_bulk (allocMode : AllocationMode) (items : list U) (count : Z)
    : M (EState T) bool :=
  let! startTailIndex := getb tailIndex in
  let! startBlock := getb tailBlock in
  let! originalFront := getp pr_blockIndexFront in
  let! originalUsed := getp pr_blockIndexSlotsUsed in
  let before := block_base (idx (startTailIndex - 1)) in
  let blockBaseDiff := sz (idx (block_base (idx (startTailIndex + count - 1)) - before)) in
  let fuel := S (S (Z.to_nat (count / BLOCK_SIZE tr))) in
  let! allocated :=
    (if 0 <? blockBaseDiff then
       let! ahead := take_blocks_ahead fuel blockBaseDiff before nullptr in
       let '(blockBaseDiff, currentTailIndex, firstAllocatedBlock) := ahead in
       let! r := allocate_blocks fuel allocMode startBlock originalUsed blockBaseDiff
                   currentTailIndex firstAllocatedBlock originalFront in
       match r with
       | None => ret None
       | Some (firstAllocatedBlock, originalFront) =>
           reset_blocks fuel firstAllocatedBlock;;
           (if noexcept_ctor ops then
              let! bi := getp blockIndex in
              let! p := gets prod in
              store_front bi (Z.land (sz (pr_blockIndexFront p - 1)) (sz (pr_blockIndexSize p - 1)))
            else ret tt);;
           ret (Some (firstAllocatedBlock, originalFront))
       end
     else ret (Some (nullptr, originalFront))) in
  match allocated with
  | None => ret false
  | Some (firstAllocatedBlock, originalFront) =>
      let newTailIndex := idx (startTailIndex + count) in
      let! endBlock := getb tailBlock in
      setb (set_tailBlock startBlock);;
      cassert (negb (in_block startTailIndex =? 0) || negb (firstAllocatedBlock =? nullptr)
               || (count =? 0));;
      (if (in_block startTailIndex =? 0) && negb (firstAllocatedBlock =? nullptr)
       then setb (set_tailBlock firstAllocatedBlock) else ret tt);;
      let! thrown := fill_blocks fuel endBlock newTailIndex startTailIndex items in
      match thrown with
      | Some constructedStopIndex =>
          let! lastBlockEnqueued := getb tailBlock in
          undo_index startBlock firstAllocatedBlock originalFront originalUsed;;
          (if negb (is_trivially_destructible ops) then
             destroy_blocks fuel
               (if in_block startTailIndex =? 0 then firstAllocatedBlock else startBlock)
               lastBlockEnqueued startTailIndex constructedStopIndex
           else ret tt);;
          throw
      | None =>
          (if negb (noexcept_ctor ops) && negb (firstAllocatedBlock =? nullptr) then
             let! bi := getp blockIndex in
             let! p := gets prod in
             store_front bi (Z.land (sz (pr_blockIndexFront p - 1)) (sz (pr_blockIndexSize p - 1)))
           else ret tt);;
          setb (set_tailIndex newTailIndex);;
          ret true
      end
  end.

(** ** dequeue_bulk *)

(** The caller's output range is the second component of the state. *)
Definition inner {A} (f : M (EState T) A) : M (EState T * list R) A :=
  zoom fst (fun s so => (s, snd so)) f.
Definition put (r : R) : M (EState T * list R) unit :=
  modify (fun so => (fst so, snd so ++ [r])).

(** Moves the elements from [i] to [stop] out of the block; also returns
    whether an assignment threw. *)
Fixpoint move_until (fuel : nat) (b : loc) (i stop : Z) : M (EState T * list R) (Z * bool) :=
  if i =? stop then ret (i, false)
  else
    match fuel with
    | O => faults OutOfFuel
    | S fuel =>
        let! el := inner (on_block b (read tr i)) in
        match assign ops el with
        | Some r =>
            put r;; inner (on_block b (destroy_element tr i));; move_until fuel b (idx (i + 1)) stop
        | None => if noexcept_assign ops then faults Terminates else ret (i, true)
        end
    end.

(** The handler's loop: destroys the rest of the claimed elements. *)
Fixpoint drain_blocks (fuel : nat) (bi : loc) (last slot firstIndexInBlock i endIndex : Z)
    : M (EState T) unit :=
  match fuel with
  | O => faults OutOfFuel
  | S fuel =>
      let! e := read_entry bi slot in
      destroy_until (Z.to_nat (BLOCK_SIZE tr)) (entry_block e) i endIndex;;
      on_block (entry_block e) (set_many_empty tr explicit_context firstIndexInBlock
        (sz (idx (endIndex - firstIndexInBlock))));;
      let! hd := header bi in
      if endIndex =? last then ret tt
      else drain_blocks fuel bi last (Z.land (sz (slot + 1)) (sz (size hd - 1)))
             endIndex endIndex (stop_index endIndex last)
  end.

Fixpoint move_blocks (fuel : nat) (bi : loc) (last slot index : Z) : M (EState T * list R) unit :=
  match fuel with
  | O => faults OutOfFuel
  | S fuel =>
      let endIndex := stop_index index last in
      let! e := inner (read_entry bi slot) in
      let! r := move_until (Z.to_nat (BLOCK_SIZE tr)) (entry_block e) index endIndex in
      match r with
      | (i, true) => inner (drain_blocks (S fuel) bi last slot index i endIndex);; throw
      | (i, false) =>
          inner (on_block (entry_block e) (set_many_empty tr explicit_context index
            (sz (idx (endIndex - index)))));;
          let! hd := inner (header bi) in
          if i =? last then ret tt
          else move_blocks fuel bi last (Z.land (sz (slot + 1)) (sz (size hd - 1))) i
      end
  end.

Definition dequeue_bulk (max : Z) : M (EState T * list R) Z :=
  let! c := inner (with_base (claim tr (Many max))) in
  match c with
  | None => ret 0
  | Some (firstIndex, actualCount) =>
      let! bi := inner (getp blockIndex) in
      let! slot := inner (index_slot bi firstIndex) in
      move_blocks (S (S (Z.to_nat (actualCount / BLOCK_SIZE tr)))) bi
        (idx (firstIndex + actualCount)) slot firstIndex;;
      ret actualCount
  end.

(** ** Construction and destruction *)

Definition new_explicit_producer : ExplicitProducer :=
  mkExplicit (new_producer_base true) nullptr 0
    (Z.shiftr (EXPLICIT_INITIAL_INDEX_SIZE tr) 1) 0 nullptr nullptr ∅.

Definition ExplicitProducer_ctor : M (EState T) unit :=
  let! poolSize := with_mem (gets initialBlockPoolSize) in
  setp (fun _ => new_explicit_producer);;
  let poolBasedIndexSize := Z.shiftr (ceil_to_pow_2 (size_bits tr / 8) poolSize) 1 in
  let! isize := getp pr_blockIndexSize in
  (if isize <? poolBasedIndexSize then setp (set_indexSize poolBasedIndexSize) else ret tt);;
  new_block_index 0;;
  ret tt.

(** The search for the block that holds the head, from slot [i] on. *)
Fixpoint find_half_dequeued (fuel : nat) (i : Z) : M (EState T) loc :=
  match fuel with
  | O => faults OutOfFuel
  | S fuel =>
      let! pe := getp pr_blockIndexEntries in
      let! isize := getp pr_blockIndexSize in
      let! head := getb headIndex in
      let! e := read_entry pe i in
      if lessi (idx (entry_base e + BLOCK_SIZE tr)) head
      then find_half_dequeued fuel (Z.land (sz (i + 1)) (sz (isize - 1)))
      else cassert (lessi (entry_base e) head);; ret (entry_block e)
  end.

(** [while (i != BLOCK_SIZE && (block != tailBlock || i != lastValidIndex))] *)
Fixpoint destroy_rest (fuel : nat) (block : loc) (is_tail : bool) (lastValidIndex i : Z)
    : M (EState T) unit :=
  if (i =? BLOCK_SIZE tr) || (is_tail && (i =? lastValidIndex)) then ret tt
  else
    match fuel with
    | O => faults OutOfFuel
    | S fuel =>
        on_block block (destroy_element tr i);;
        destroy_rest fuel block is_tail lastValidIndex (i + 1)
    end.

(** Destroys the elements left, from the block after [block] to the tail. *)
Fixpoint destroy_elements (fuel : nat) (block halfDequeuedBlock : loc) : M (EState T) unit :=
  match fuel with
  | O => faults OutOfFuel
  | S fuel =>
      let! b := on_block block (gets next) in
      let! tb := getb tailBlock in
      let! head := getb headIndex in
      let! tail := getb tailIndex in
      let! empty := on_block b (is_empty tr explicit_context) in
      (if empty : bool then ret tt
       else
         let i := if b =? halfDequeuedBlock then in_block head else 0 in
         let lastValidIndex := if in_block tail =? 0 then BLOCK_SIZE tr else in_block tail in
         destroy_rest (Z.to_nat (BLOCK_SIZE tr)) b (b =? tb) lastValidIndex i);;
      if b =? tb then ret tt else destroy_elements fuel b halfDequeuedBlock
  end.

(** Gives the blocks of the list back, from [block] to the tail block. *)
Fixpoint release_blocks (fuel : nat) (block : loc) : M (EState T) unit :=
  match fuel with
  | O => faults OutOfFuel
  | S fuel =>
      let! nextBlock := on_block block (gets next) in
      with_mem (add_block_to_free_list tr block);;
      let! tb := getb tailBlock in
      if nextBlock =? tb then ret tt else release_blocks fuel nextBlock
  end.

Fixpoint free_headers (fuel : nat) (h : loc) : M (EState T) unit :=
  if h =? nullptr then ret tt
  else
    match fuel with
    | O => faults OutOfFuel
    | S fuel =>
        let! hd := header h in
        setp (fun p => set_headers (delete h (headers p)) p);;
        free_headers fuel (prev hd)
    end.

(** Each loop visits every block, or every index, at most once. *)
Definition ExplicitProducer_dtor : M (EState T) unit :=
  let! tb := getb tailBlock in
  let! blocks_in_use := with_mem (gets (fun m => base.size (blocks m))) in
  (if negb (tb =? nullptr) then
     let! head := getb headIndex in
     let! halfDequeuedBlock :=
       (if negb (in_block head =? 0) then
          let! p := gets prod in
          find_half_dequeued (Z.to_nat (pr_blockIndexSize p))
            (Z.land (sz (pr_blockIndexFront p - pr_blockIndexSlotsUsed p))
                    (sz (pr_blockIndexSize p - 1)))
        else ret nullptr) in
     destroy_elements blocks_in_use tb halfDequeuedBlock;;
     release_blocks blocks_in_use tb
   else ret tt);;
  let! p := gets prod in
  free_headers (base.size (headers p)) (pr_blockIndexRaw p).
End explicit.
