(* ===== verification/Contents.v ===== *)
(** What the two kinds of sub-queue have in common: the elements a block holds
    as a function of the queue's contents, the arithmetic of block numbers, the
    limits on the size, and the part of the memory an operation leaves alone. *)

From S2P Require Import Prelude MachineInt Traits FreeList Block BlockPool ProducerBase ProducerBaseProofs ExplicitProducer.

Section contents.
Context {T : Type} (tr : Traits) `{!TraitsOk tr} (ctx : InnerQueueContext).
#[local] Abbreviation w := (index_bits tr).
#[local] Abbreviation sb := (size_bits tr).
#[local] Abbreviation B := (BLOCK_SIZE tr).
Implicit Types (h t f : Z) (ring : list loc) (c : list T) (m : Mem T).

(** * Contents *)

(** The element with (unbounded) index [x], when the head is [h] and the
    queue holds [c]. *)
Definition content h c (x : Z) : option T := if decide (h <= x) then c !! Z.to_nat (x - h) else None.

Lemma content_past h c x : h + zlength c <= x -> content h c x = None.
Proof using Type.
  intros Hx. unfold content. case_decide; [|done]. apply lookup_ge_None. unfold zlength in *. lia.
Qed.

Lemma content_before h c x : x < h -> content h c x = None.
Proof using Type. intros Hx. unfold content. by rewrite decide_False by lia. Qed.

Lemma content_snoc h c v x :
  content h (c ++ [v]) x = if decide (x = h + zlength c) then Some v else content h c x.
Proof using Type.
  unfold content. unfold zlength. case_decide as Hh; case_decide as Hx; try lia; try done.
  - subst x. rewrite lookup_app_r by lia. replace (_ - _)%nat with O by lia. done.
  - destruct (decide (x < h + Z.of_nat (length c))).
    + rewrite lookup_app_l by lia. done.
    + rewrite (lookup_ge_None_2 c) by lia. apply lookup_ge_None. rewrite length_app. cbn. lia.
Qed.

Lemma content_tail h v c x :
  content (h + 1) c x = if decide (x = h) then None else content h (v :: c) x.
Proof using Type.
  unfold content. repeat case_decide; try lia; try done.
  replace (Z.to_nat (x - h)) with (S (Z.to_nat (x - (h + 1)))) by lia. done.
Qed.

Lemma content_head h v c : content h (v :: c) h = Some v.
Proof using Type. unfold content. rewrite decide_True by lia. by rewrite Z.sub_diag. Qed.

(** * Blocks *)

(** The block number [q], which holds the indices from [q * B] on. *)
Record block_repr h c (q : Z) (blk : Block T) : Prop := {
  br_wf : block_wf tr blk;
  br_dequeued : dequeued tr ctx (offsets 0 (Z.min B (h - q * B))) blk;
  br_elements : forall o, 0 <= o < B -> zlookup (elements blk) o = Some (content h c (q * B + o))
}.

End contents.

Section block_contents.
Context {T : Type} (tr : Traits) `{!TraitsOk tr} (ctx : InnerQueueContext).
#[local] Abbreviation B := (BLOCK_SIZE tr).
Implicit Types (h t f : Z) (c : list T).

Lemma offsets_empty n : n <= 0 -> offsets 0 n = ∅.
Proof using Type.
  intros Hn. apply set_eq. intros x. rewrite elem_of_offsets. split; [lia|by intros ?%not_elem_of_empty].
Qed.

Lemma offsets_inj n n' : 0 < n -> offsets 0 n' = offsets 0 n -> n <= n'.
Proof using Type.
  intros Hn E.
  assert (n - 1 ∈ offsets 0 n') as H by (rewrite E; apply elem_of_offsets; lia).
  apply elem_of_offsets in H. lia.
Qed.

(** A block without elements is an unused block of any number from the tail
    on. *)
Lemma block_repr_unused h c q blk :
  block_wf tr blk -> dequeued tr ctx ∅ blk ->
  (forall o, 0 <= o < B -> zlookup (elements blk) o = Some None) ->
  h + zlength c <= q * B -> block_repr tr ctx h c q blk.
Proof using Type.
  intros Hwf Hd He Hq. pose proof (zlength_nonneg c). split; [done| |].
  - rewrite offsets_empty; [done|lia].
  - intros o Ho. rewrite He, content_past by lia. done.
Qed.

(** Enqueueing at the tail: what changes in the blocks of the ring. *)
Lemma block_repr_snoc_other h c v q blk :
  block_repr tr ctx h c q blk -> ~ (q * B <= h + zlength c < (q + 1) * B) ->
  block_repr tr ctx h (c ++ [v]) q blk.
Proof using Type.
  intros [] Hq. split; [done..|]. intros o Ho. rewrite br_elements0 by done.
  rewrite content_snoc, decide_False; [done|lia].
Qed.

Lemma block_repr_construct h c v q blk :
  block_repr tr ctx h c q blk -> q * B <= h + zlength c < (q + 1) * B ->
  let o := (h + zlength c) - q * B in
  zlookup (elements blk) o = Some None /\
  block_repr tr ctx h (c ++ [v]) q (set_elements (zinsert o (Some v) (elements blk)) blk).
Proof using Type.
  intros [] Hq o. pose proof (wf_elements _ _ br_wf0) as Hlen.
  split; [rewrite br_elements0, content_past by lia; done|].
  split; cbn.
  - destruct br_wf0. split; cbn; [by rewrite zlength_zinsert|done].
  - destruct br_dequeued0. by split.
  - intros o' Ho'. rewrite content_snoc. destruct (decide (o = o')) as [<-|Hne].
    + rewrite zlookup_zinsert_eq by lia. rewrite decide_True by lia. done.
    + rewrite zlookup_zinsert_ne, br_elements0 by lia. rewrite decide_False by lia. done.
Qed.

(** Dequeueing the head. *)
Lemma block_repr_tail_other h v c q blk :
  block_repr tr ctx h (v :: c) q blk -> ~ (q * B <= h < (q + 1) * B) ->
  block_repr tr ctx (h + 1) c q blk.
Proof using Type.
  intros [] Hq. split; [done| |].
  - replace (offsets 0 (Z.min B (h + 1 - q * B))) with (offsets 0 (Z.min B (h - q * B))); [done|].
    apply set_eq. intros x. rewrite !elem_of_offsets. lia.
  - intros o Ho. rewrite br_elements0 by done. rewrite (content_tail h v).
    rewrite decide_False; [done|lia].
Qed.

Lemma block_repr_destroy h v c q blk blk' :
  block_repr tr ctx h (v :: c) q blk -> q * B <= h < (q + 1) * B ->
  let o := h - q * B in
  updates tr ctx ({[o]} ∪ offsets 0 (Z.min B (h - q * B)))
    (set_elements (zinsert o None (elements blk)) blk) blk' ->
  block_repr tr ctx (h + 1) c q blk'.
Proof using Type.
  intros [] Hq o (Hd & Hwf & He & _). pose proof (wf_elements _ _ br_wf0) as Hlen.
  split; [done| |].
  - replace (offsets 0 (Z.min B (h + 1 - q * B))) with ({[o]} ∪ offsets 0 (Z.min B (h - q * B)));
      [done|].
    apply set_eq. intros x. rewrite elem_of_union, elem_of_singleton, !elem_of_offsets. lia.
  - intros o' Ho'. rewrite He. cbn. rewrite (content_tail h v).
    destruct (decide (o = o')) as [<-|Hne].
    + rewrite zlookup_zinsert_eq by lia. by rewrite decide_True by lia.
    + rewrite zlookup_zinsert_ne, br_elements0 by lia. by rewrite decide_False by lia.
Qed.

Lemma block_repr_set_next h c q blk x :
  block_repr tr ctx h c q blk -> block_repr tr ctx h c q (set_next x blk).
Proof using Type. intros [[] [] He]. by split; [split|split|]. Qed.

Lemma content_none_from h c x n blk q :
  block_repr tr ctx h c q blk -> n = h + zlength c -> (q + 1) * B <= h \/ n <= q * B ->
  0 <= x < B -> zlookup (elements blk) x = Some None.
Proof using Type.
  intros [] -> Hq Hx. rewrite br_elements0 by done. f_equal.
  destruct Hq; [apply content_before|apply content_past]; lia.
Qed.

(** A block without elements is [raw]. *)
Lemma raw_of_slots (blk : Block T) :
  block_wf tr blk -> (forall o, 0 <= o < B -> zlookup (elements blk) o = Some None) -> raw tr blk.
Proof using TraitsOk0.
  intros Hwf Hel. split; [done|]. pose proof (wf_elements _ _ Hwf) as Hlen. pose proof (block_size_gt_1 tr).
  apply list_eq_same_length with (Z.to_nat B); [by rewrite length_replicate|unfold zlength in Hlen; lia|].
  intros i x y Hi Hx Hy. apply lookup_replicate in Hy as [-> _].
  specialize (Hel (Z.of_nat i) ltac:(lia)). unfold zlookup in Hel. rewrite decide_True in Hel by lia.
  rewrite Nat2Z.id in Hel. congruence.
Qed.
End block_contents.

(** * Block numbers *)

Section numbers.
Context (tr : Traits) `{!TraitsOk tr}.
#[local] Abbreviation w := (index_bits tr).
#[local] Abbreviation sb := (size_bits tr).
#[local] Abbreviation B := (BLOCK_SIZE tr).

Lemma mask_slot k x : 0 <= k < sb ->
  Z.land (wrap sb x) (wrap sb (2 ^ k - 1)) = x mod 2 ^ k.
Proof using Type.
  intros Hk. pose proof (Z.pow_lt_mono_r 2 k sb). pose proof (Z.pow_pos_nonneg 2 k).
  rewrite (wrap_small (2 ^ k - 1)) by lia. rewrite land_mask by lia. apply wrap_mod_pow2. lia.
Qed.

Lemma in_block_wrap x : in_block tr (wrap w x) = x mod B.
Proof using All. unfold in_block. by rewrite mask_block, index_mod_block. Qed.

Lemma block_base_wrap x :
  block_base tr (wrap w x) = wrap w x - x mod B.
Proof using TraitsOk0.
  unfold block_base. pose proof (size_le_index tr).
  rewrite mask_block_base by (done || (apply wrap_range; lia)). by rewrite index_mod_block.
Qed.

(** The distance in blocks from the published front is computed exactly,
    although bases wrap around. *)
Lemma block_offset x q :
  - 2 ^ (w - 1) <= (x / B - q) * B < 2 ^ (w - 1) ->
  Z.quot (to_signed w (wrap w (block_base tr (wrap w x) - wrap w (q * B)))) B = x / B - q.
Proof using TraitsOk0.
  intros Hr. pose proof (size_le_index tr). pose proof (block_size_gt_1 tr).
  rewrite block_base_wrap, wrap_sub_r.
  replace (wrap w x - x mod B - q * B) with (wrap w x - (x mod B + q * B)) by lia.
  rewrite wrap_sub_l. replace (x - (x mod B + q * B)) with ((x / B - q) * B) by (pose proof (Z.div_mod x B); nia).
  assert (forall y, to_signed w (wrap w y) = to_signed w y) as ->.
  { intros y. unfold to_signed. by rewrite wrap_wrap by lia. }
  rewrite to_signed_small by lia. apply Z.quot_mul. lia.
Qed.

(** ** Room for another block *)

(** Another block fits: the tail stays within half the index range of the
    head, and the sub-queue within its size limit. *)
Definition has_room h t : Prop :=
  t + B - h < 2 ^ (w - 1) /\
  (MAX_SUBQUEUE_SIZE tr = size_max tr \/ t + B - h <= MAX_SUBQUEUE_SIZE tr).

Lemma block_size_half : 2 * B <= 2 ^ (w - 1).
Proof using All.
  pose proof (size_le_index tr). pose proof (block_log_lt tr). pose proof (block_log_pos tr).
  rewrite (block_size_pow tr), <- Z.pow_succ_r by lia. apply Z.pow_le_mono_r; lia.
Qed.

Lemma no_room_spec h t :
  h <= t -> t - h < 2 ^ (w - 1) ->
  no_room tr (wrap w h) (wrap w t) = false <-> has_room h t.
Proof using All.
  intros Ht Hr. pose proof (size_le_index tr) as Hs. pose proof block_size_half as Hb.
  pose proof (block_size_gt_1 tr). assert (0 < w) as Hw by lia.
  pose proof (pow_half Hw). pose proof (max_subqueue_size_spec tr) as Hmax.
  pose proof (traits_max (tr := tr)). pose proof (size_pow_le_index tr).
  assert (lessi tr (wrap w h) (wrap w (wrap w t + B)) = (t + B - h <? 2 ^ (w - 1))) as E1.
  { unfold lessi. rewrite wrap_add_l, circular_less_than_eq, wrap_sub_l, wrap_sub_r by lia.
    assert (wrap w (h - (t + B)) = h - (t + B) + 2 ^ w) as ->
      by (symmetry; apply Z.mod_unique_pos with (-1); lia).
    destruct (Z.ltb_spec (2 ^ (w - 1)) (h - (t + B) + 2 ^ w)),
      (Z.ltb_spec (t + B - h) (2 ^ (w - 1))); done || lia. }
  unfold no_room. rewrite E1, wrap_sub_l, wrap_sub_r, (wrap_small (t - h)) by lia.
  unfold has_room.
  rewrite orb_false_iff, negb_false_iff, Z.ltb_lt, andb_false_iff, negb_false_iff, Z.eqb_eq,
    orb_false_iff, Z.eqb_neq, Z.ltb_ge.
  apply and_iff_compat_l. destruct (decide (MAX_SUBQUEUE_SIZE tr = size_max tr)) as [|Hne]; [tauto|].
  destruct Hmax as [|[[q Hq] Hmax]]; [done|].
  assert (0 <= MAX_SUBQUEUE_SIZE tr) by lia.
  destruct (decide (MAX_SUBQUEUE_SIZE tr = 0)) as [E0|E0]; [rewrite E0; split; [tauto|lia]|].
  assert (0 < q) by (destruct (Z.lt_trichotomy q 0) as [|[->|]]; [nia|lia|done]).
  assert (B <= MAX_SUBQUEUE_SIZE tr) by (rewrite Hq; nia).
  rewrite wrap_small by (unfold size_max in Hne; lia). split; [intros [|[? ?]]; [done|right; lia]|].
  intros [|]; [done|right; split; [done|lia]].
Qed.

Lemma round_up_half n : n * B < 2 ^ (w - 1) -> (n + 1) * B <= 2 ^ (w - 1).
Proof using All.
  pose proof (size_le_index tr). pose proof (block_log_lt tr). pose proof (block_log_pos tr).
  rewrite (block_size_pow tr).
  replace (w - 1) with (block_log tr + (w - 1 - block_log tr)) by lia.
  rewrite Z.pow_add_r by lia. pose proof (Z.pow_pos_nonneg 2 (block_log tr) ltac:(lia) ltac:(lia)).
  rewrite (Z.mul_comm (2 ^ block_log tr)), <- Z.mul_lt_mono_pos_r, <- Z.mul_le_mono_pos_r by done. lia.
Qed.

Lemma half_size_index x : x < 2 ^ (sb - 1) -> x < 2 ^ (w - 1).
Proof using All.
  intros. pose proof (size_le_index tr). pose proof (Z.pow_le_mono_r 2 (sb - 1) (w - 1)). lia.
Qed.
End numbers.

(** * Consuming several elements of a block *)

Section consume.
Context {T : Type} (tr : Traits) `{!TraitsOk tr} (ctx : InnerQueueContext).
#[local] Abbreviation w := (index_bits tr).
#[local] Abbreviation B := (BLOCK_SIZE tr).
Implicit Types (h q i n : Z) (c : list T) (blk : Block T).

Lemma content_drop h c n x :
  0 <= n ->
  content (h + n) (drop (Z.to_nat n) c) x = if decide (h <= x < h + n) then None else content h c x.
Proof using Type.
  intros Hn. unfold content. repeat case_decide; try lia; try done.
  rewrite lookup_drop. f_equal. lia.
Qed.

Lemma zlength_drop n c : 0 <= n <= zlength c -> zlength (drop (Z.to_nat n) c) = zlength c - n.
Proof using Type. unfold zlength. intros. rewrite length_drop. lia. Qed.

Lemma offset_in_block q i : q * B <= i < (q + 1) * B -> offset tr (wrap w i) = i - q * B.
Proof using TraitsOk0.
  intros Hi. rewrite offset_eq, index_mod_block by done. symmetry. apply Z.mod_unique_pos with q; lia.
Qed.

(** The elements with indices from [h] up to [i] have been moved out of
    the block number [q]; nothing else has changed since [blk0]. *)
Definition cleared h c q i blk0 blk : Prop :=
  exists e, blk = set_elements e blk0 /\ zlength e = B /\
    forall o, 0 <= o < B ->
      zlookup e o = Some (if decide (h <= q * B + o < i) then None else content h c (q * B + o)).

Lemma cleared_refl h c q blk : block_repr tr ctx h c q blk -> cleared h c q h blk blk.
Proof using Type.
  intros [[] _ Hel]. exists (elements blk). split; [by destruct blk|]. split; [done|].
  intros o Ho. rewrite Hel by done. by rewrite decide_False by lia.
Qed.

Lemma cleared_slot h c q i blk0 blk :
  cleared h c q i blk0 blk -> q * B <= i < (q + 1) * B -> h <= i < h + zlength c ->
  exists v, zlookup (elements blk) (offset tr (wrap w i)) = Some (Some v) /\
    c !! Z.to_nat (i - h) = Some v.
Proof using TraitsOk0.
  intros (e & -> & Hlen & He) Hi Hc. destruct (lookup_lt_is_Some_2 c (Z.to_nat (i - h))) as [v Hv];
    [unfold zlength in Hc; lia|]. exists v. split; [|done]. cbn. rewrite (offset_in_block q i Hi), He by lia.
  rewrite decide_False by lia. unfold content. rewrite decide_True by lia.
  by replace (q * B + (i - q * B)) with i by lia; rewrite Hv.
Qed.

Lemma read_cleared h c q i blk0 blk :
  cleared h c q i blk0 blk -> q * B <= i < (q + 1) * B -> h <= i < h + zlength c ->
  wp (read tr (wrap w i)) (fun v blk' => blk' = blk /\ c !! Z.to_nat (i - h) = Some v) nothrow blk.
Proof using TraitsOk0.
  intros Hcl Hi Hc. destruct (cleared_slot _ _ _ _ _ _ Hcl Hi Hc) as (v & Hv & Hcv).
  unfold read. by wp_steps.
Qed.

Lemma destroy_cleared h c q i blk0 blk :
  cleared h c q i blk0 blk -> q * B <= i < (q + 1) * B -> h <= i < h + zlength c ->
  wp (destroy_element tr (wrap w i)) (fun _ blk' => cleared h c q (i + 1) blk0 blk') nothrow blk.
Proof using TraitsOk0.
  intros Hcl Hi Hc. unfold destroy_element. wp_step. eapply wp_mono; [by eapply read_cleared| |done].
  cbn beta. intros v blk' [-> _]. wp_steps. destruct Hcl as (e & -> & Hlen & He).
  eexists. split; [done|]. cbn. rewrite zlength_zinsert. split; [done|]. intros o Ho.
  rewrite (offset_in_block q i Hi). destruct (decide (i - q * B = o)) as [<-|Hne].
  - rewrite zlookup_zinsert_eq by lia. by rewrite decide_True by lia.
  - rewrite zlookup_zinsert_ne, He by done. do 2 f_equal. repeat case_decide; done || lia.
Qed.

(** Once the slots are recorded as dequeued, the block holds what is left. *)
Lemma block_repr_cleared h c q n blk0 blk blk' :
  block_repr tr ctx h c q blk0 -> cleared h c q (h + n) blk0 blk -> q * B <= h ->
  0 <= n -> h + n <= (q + 1) * B ->
  updates tr ctx (offsets (h - q * B) n ∪ offsets 0 (Z.min B (h - q * B))) blk blk' ->
  block_repr tr ctx (h + n) (drop (Z.to_nat n) c) q blk'.
Proof using Type.
  intros _ (e & -> & Hlen & He) Hq Hn Hfit (Hd & Hwf & Hel & _). split; [done| |].
  - replace (offsets 0 (Z.min B (h + n - q * B)))
      with (offsets (h - q * B) n ∪ offsets 0 (Z.min B (h - q * B))); [done|].
    apply set_eq. intros x. rewrite elem_of_union, !elem_of_offsets. lia.
  - intros o Ho. rewrite Hel. cbn. rewrite He, content_drop by lia. done.
Qed.

Lemma block_repr_drop_other h c q n blk :
  block_repr tr ctx h c q blk -> 0 <= n -> (q + 1) * B <= h \/ h + n <= q * B ->
  block_repr tr ctx (h + n) (drop (Z.to_nat n) c) q blk.
Proof using Type.
  intros [Hwf Hd Hel] Hn Hq. split; [done| |].
  - replace (offsets 0 (Z.min B (h + n - q * B))) with (offsets 0 (Z.min B (h - q * B))); [done|].
    apply set_eq. intros x. rewrite !elem_of_offsets. lia.
  - intros o Ho. rewrite Hel, content_drop by lia. by rewrite decide_False by lia.
Qed.

(** Recording them. *)
Lemma set_many_cleared h c q n blk0 blk :
  block_repr tr ctx h c q blk0 -> cleared h c q (h + n) blk0 blk -> q * B <= h < (q + 1) * B ->
  0 <= n -> h + n <= (q + 1) * B ->
  wp (set_many_empty tr ctx (wrap w h) n) (fun r blk' =>
    block_repr tr ctx (h + n) (drop (Z.to_nat n) c) q blk' /\
    (next blk' = next blk0 /\ dynamicallyAllocated blk' = dynamicallyAllocated blk0) /\
    r = negb (uses_flags tr ctx) && (h + n - q * B =? B)) nothrow blk.
Proof using TraitsOk0.
  intros Hrep Hcl Hq Hn Hfit. pose proof (block_size_gt_1 tr).
  pose proof (offset_in_block q h ltac:(lia)) as Eo.
  pose proof Hrep as [[Hwfe Hwff] [Hr Hf Hc] _]. pose proof Hcl as (e & -> & Hlen & _).
  eapply wp_mono; [eapply (set_many_empty_spec tr ctx (offsets 0 (Z.min B (h - q * B))))| |done].
  - by split.
  - by split.
  - done.
  - lia.
  - rewrite Eo. intros x. rewrite !elem_of_offsets. lia.
  - cbn beta. rewrite Eo. intros r blk' [Hupd ->]. split; [eapply block_repr_cleared; try done; lia|].
    destruct Hupd as (_ & _ & _ & -> & ->). split; [done|]. do 2 f_equal.
    assert (offsets (h - q * B) n ∪ offsets 0 (Z.min B (h - q * B)) = offsets 0 (h + n - q * B)) as ->.
    { apply set_eq. intros x. rewrite elem_of_union, !elem_of_offsets. lia. }
    by rewrite size_offsets by lia.
Qed.
End consume.

(** * Several elements at a time *)

Section bulk.
Context {U T R : Type} (tr : Traits) `{!TraitsOk tr} (ops : ElementOps U T R).
#[local] Abbreviation w := (index_bits tr).
#[local] Abbreviation B := (BLOCK_SIZE tr).
Implicit Types (h q i f : Z) (c : list T) (rs : list R) (m : Mem T) (blk : Block T).

Lemma block_base_key x : block_base tr (wrap w x) = wrap w (x / B * B).
Proof using TraitsOk0.
  pose proof (size_le_index tr). pose proof (block_size_gt_1 tr).
  pose proof (wrap_range (w := w) ltac:(lia) x) as Hx.
  pose proof (index_mod_block tr x) as Em. pose proof (Z.mod_le (wrap w x) B ltac:(lia) ltac:(lia)).
  pose proof (Z.mod_pos_bound x B ltac:(lia)).
  rewrite (block_base_wrap tr). rewrite <- (wrap_small (w := w) (wrap w x - x mod B)) by lia.
  rewrite wrap_sub_l. f_equal. pose proof (Z.div_mod x B). lia.
Qed.

(** Comparing indices of one block. *)
Lemma index_eqb i j : 0 <= j - i <= B -> (wrap w i =? wrap w j) = (i =? j).
Proof using TraitsOk0.
  intros Hij. pose proof (size_le_index tr). pose proof (block_size_half tr). pose proof (pow_half (w := w) ltac:(lia)).
  pose proof (block_size_gt_1 tr).
  apply eq_bool_prop_intro. rewrite !Is_true_true, !Z.eqb_eq. split; [|by intros ->].
  intros E. symmetry. apply (wrap_eq_small (w := w)); [lia|lia|done].
Qed.

Lemma stop_index_spec i last :
  i <= last -> last - i < 2 ^ (w - 1) ->
  stop_index tr (wrap w i) (wrap w last) = wrap w (Z.min last ((i / B + 1) * B)).
Proof using TraitsOk0.
  intros Hle Hd. pose proof (size_le_index tr). pose proof (block_size_half tr). pose proof (block_size_gt_1 tr).
  pose proof (Z.div_mod i B ltac:(lia)). pose proof (Z.mod_pos_bound i B ltac:(lia)).
  unfold stop_index. rewrite block_base_key, wrap_add_l by done.
  replace (i / B * B + B) with ((i / B + 1) * B) by lia. unfold lessi.
  rewrite circular_less_than_wrap by lia.
  destruct (Z.ltb_spec last ((i / B + 1) * B)); f_equal; lia.
Qed.

(** What was handed over. *)
Definition moved (c : list T) (rs : list R) : Prop := Forall2 (fun v r => assign ops v = Some r) c rs.

(** The elements made from the items. *)
Definition made (items : list U) (vs : list T) : Prop := Forall2 (fun u v => make ops u = Some v) (take (length vs) items) vs.

Definition made_of (items : list U) (vs : list T) : Prop := Forall2 (fun u v => make ops u = Some v) items vs.

Lemma made_whole (items : list U) (vs : list T) : made items vs -> zlength vs = zlength items -> made_of items vs.
Proof using Type. unfold made, made_of, zlength. intros Hmade E. by rewrite firstn_all2 in Hmade by lia. Qed.

Lemma made_nil (items : list U) : made items [].
Proof using Type. constructor. Qed.

Lemma made_cons u (items : list U) v vs : make ops u = Some v -> made items vs -> made (u :: items) (v :: vs).
Proof using Type. intros H1 H2. by constructor. Qed.

Lemma made_app (items : list U) vs vs' :
  made items vs -> made (drop (length vs) items) vs' -> made items (vs ++ vs').
Proof using Type.
  intros H1 H2. unfold made. rewrite length_app, <- take_take_drop. by apply Forall2_app.
Qed.

Definition put_block b blk m : Mem T := set_blocks (<[b := blk]> (blocks m)) m.

Lemma put_put b blk blk' m : put_block b blk' (put_block b blk m) = put_block b blk' m.
Proof using Type. unfold put_block. cbn. by rewrite insert_insert_eq. Qed.

Lemma put_lookup b blk m : blocks (put_block b blk m) !! b = Some blk.
Proof using Type. apply lookup_insert_eq. Qed.

Lemma put_id b blk m : blocks m !! b = Some blk -> put_block b blk m = m.
Proof using Type. intros H. unfold put_block, set_blocks. rewrite insert_id by done. by destruct m. Qed.

Lemma index_eqb_far i j : 0 <= j - i < 2 ^ (w - 1) -> (wrap w i =? wrap w j) = (i =? j).
Proof using TraitsOk0.
  intros Hij. pose proof (size_le_index tr). pose proof (pow_half (w := w) ltac:(lia)).
  apply eq_bool_prop_intro. rewrite !Is_true_true, !Z.eqb_eq. split; [|by intros ->].
  intros E. symmetry. apply (wrap_eq_small (w := w)); [lia|lia|done].
Qed.

Lemma min_stop last f h : f * B <= h < (f + 1) * B -> h <= last -> last - h < 2 ^ (w - 1) ->
  stop_index tr (wrap w h) (wrap w last) = wrap w (Z.min last ((f + 1) * B)).
Proof using TraitsOk0.
  intros Hf Hl Hd. pose proof (block_size_gt_1 tr). rewrite stop_index_spec by done.
  assert (h / B = f) as -> by (symmetry; apply Z.div_unique with (h - f * B); lia). done.
Qed.

Lemma drop_claimed h stop last c : h <= stop <= last ->
  drop (Z.to_nat (last - stop)) (drop (Z.to_nat (stop - h)) c) = drop (Z.to_nat (last - h)) c.
Proof using Type. intros. rewrite drop_drop. f_equal. lia. Qed.

(** The elements handed over are the first [n], or those before the one
    whose assignment threw. *)
Definition handed (c : list T) (n : nat) (thrown : bool) rs : Prop :=
  if thrown then exists j v, (j < n)%nat /\ c !! j = Some v /\ assign ops v = None /\ moved (take j c) rs
  else moved (take n c) rs.

Lemma moved_app c (n k : nat) rs1 rs2 :
  moved (take n c) rs1 -> moved (take k (drop n c)) rs2 -> moved (take (n + k) c) (rs1 ++ rs2).
Proof using Type. intros H1 H2. rewrite <- take_take_drop. by apply Forall2_app. Qed.

Lemma handed_app c (n k : nat) thrown rs1 rs2 :
  moved (take n c) rs1 -> handed (drop n c) k thrown rs2 -> handed c (n + k) thrown (rs1 ++ rs2).
Proof using Type.
  intros H1. destruct thrown; cbn.
  - intros (j & v & Hj & Hv & Ha & H2). exists (n + j)%nat, v. rewrite lookup_drop in Hv.
    split_and!; try done; [lia|]. by apply moved_app.
  - by apply moved_app.
Qed.
End bulk.

(** * Memory *)

Section memory.
Context {T : Type} (tr : Traits) (malloc_ok : nat -> bool).
Implicit Types (ring : list loc) (m : Mem T).

(** The memory differs in the state of the allocator only. *)
Definition allocated m m' : Prop :=
  exists a k, m' = set_allocator a k m /\ next_address m <= a.

Lemma allocated_refl m : allocated m m.
Proof using Type. exists (next_address m), (malloc_calls m). split; [by destruct m|lia]. Qed.

Lemma allocated_pool m m' fl : allocated m m' -> pool_inv tr m fl -> pool_inv tr m' fl.
Proof using Type. intros (a & k & -> & Ha) H. by apply pool_inv_malloc. Qed.

Lemma allocated_blocks m m' : allocated m m' -> blocks m' = blocks m.
Proof using Type. by intros (a & k & -> & _). Qed.

Lemma allocated_available m m' fl l : allocated m m' -> available m' fl l <-> available m fl l.
Proof using Type. by intros (a & k & -> & _). Qed.

(** A block that is in use by others than [ring]. *)
Definition elsewhere (ring : list loc) m fl (l : loc) : Prop :=
  is_Some (blocks m !! l) /\ (l ∉ ring) /\ ~ available m fl l.

(** What an operation leaves alone: the blocks in use elsewhere.  There are no
    new ones, so no block is lost. *)
Definition mem_frame (ring : list loc) m fl (ring' : list loc) m' fl' : Prop :=
  next_address m <= next_address m' /\
  (forall l, elsewhere ring m fl l -> elsewhere ring' m' fl' l /\ blocks m' !! l = blocks m !! l) /\
  (forall l, elsewhere ring' m' fl' l -> elsewhere ring m fl l).

Lemma mem_frame_refl ring m fl : mem_frame ring m fl ring m fl.
Proof. done. Qed.

Lemma mem_frame_trans ring m fl ring1 m1 fl1 ring2 m2 fl2 :
  mem_frame ring m fl ring1 m1 fl1 -> mem_frame ring1 m1 fl1 ring2 m2 fl2 ->
  mem_frame ring m fl ring2 m2 fl2.
Proof.
  intros (Hn1 & H1 & H1') (Hn2 & H2 & H2'). split; [lia|]. split; [|auto]. intros l Hl.
  destruct (H1 l Hl) as [Hl1 E1]. destruct (H2 l Hl1) as [Hl2 E2]. split; [done|congruence].
Qed.

(** It is enough to know when a block is elsewhere, and that those that are
    have not changed. *)
Lemma mem_frame_intro ring m fl ring' m' fl' :
  next_address m <= next_address m' ->
  (forall l, (l ∉ ring) -> ~ available m fl l -> blocks m' !! l = blocks m !! l) ->
  (forall l, (l ∉ ring) /\ ~ available m fl l -> is_Some (blocks m !! l) -> (l ∉ ring') /\ ~ available m' fl' l) ->
  (forall l, (l ∉ ring') /\ ~ available m' fl' l -> is_Some (blocks m' !! l) -> (l ∉ ring) /\ ~ available m fl l) ->
  mem_frame ring m fl ring' m' fl'.
Proof using Type.
  intros Hn Hb H1 H2. split; [done|]. split.
  - intros l (Hl & Hr & Ha). destruct (H1 l) as [Hr' Ha']; [done..|]. rewrite <- Hb in Hl by done. by rewrite <- Hb.
  - intros l (Hl & Hr & Ha). destruct (H2 l) as [Hr' Ha']; [done..|]. rewrite Hb in Hl by done. done.
Qed.

Lemma mem_frame_blocks ring m fl ring1 m1 fl1 bs :
  mem_frame ring m fl ring1 m1 fl1 -> (forall l, (l ∉ ring1) -> bs !! l = blocks m1 !! l) ->
  mem_frame ring m fl ring1 (set_blocks bs m1) fl1.
Proof using Type.
  intros Hf Hbs. eapply mem_frame_trans; [exact Hf|]. apply mem_frame_intro; try done. intros l Hl _. by apply Hbs.
Qed.

Lemma mem_frame_allocated bs m fl m' : allocated m m' -> mem_frame bs m fl bs m' fl.
Proof using Type.
  intros Hal. apply mem_frame_intro.
  - destruct Hal as (a & k & -> & Ha). done.
  - intros. by rewrite (allocated_blocks _ _ Hal).
  - intros l. by rewrite (allocated_available m m' fl l Hal).
  - intros l. by rewrite (allocated_available m m' fl l Hal).
Qed.

(** A block leaves the pool for the ring. *)
Lemma mem_frame_taken bs nb m fl m' fl' :
  next_address m <= next_address m' -> frame nb m fl m' fl' -> available m fl nb \/ blocks m !! nb = None ->
  mem_frame bs m fl (bs ++ [nb]) m' fl'.
Proof using Type.
  intros Hn [Hb Hav] Hnb. assert (forall l, l ∈ bs ++ [nb] <-> l ∈ bs \/ l = nb) as Hin by (intros l; rewrite elem_of_app, list_elem_of_singleton; done).
  split; [done|]. unfold elsewhere. split.
  - intros l (Hl & Hr & Ha). assert (l <> nb) as Hne by (intros ->; destruct Hnb as [|Hnb]; [done|rewrite Hnb in Hl; by destruct Hl]).
    rewrite Hb, Hin, Hav by done. tauto.
  - intros l (Hl & Hr & Ha). rewrite Hin in Hr. rewrite Hav in Ha. assert (l <> nb) as Hne by tauto.
    rewrite Hb in Hl by done. tauto.
Qed.

(** The pool has no block. *)
Lemma mem_frame_refused bs m fl m' fl' :
  next_address m <= next_address m' -> blocks m' = blocks m -> (forall l, available m' fl' l -> available m fl l) ->
  (forall l, ~ available m fl l) -> mem_frame bs m fl bs m' fl'.
Proof using Type.
  intros Hn Hb Hav Hnone. apply mem_frame_intro; [done|by intros; rewrite Hb|..]; intros l [Hl Ha] _; auto.
Qed.

(** Giving a block back. *)
Lemma mem_frame_given ring bs nb m fl m' fl' :
  returned tr nb m fl m' fl' -> (forall l, l ∈ ring <-> l ∈ bs \/ l = nb) -> (nb ∉ bs) -> mem_frame ring m fl bs m' fl'.
Proof using Type.
  intros (_ & Hbl & Hav & Hav' & Hgone & Hna) Hin Hnb.
  apply mem_frame_intro; [lia| | |]; intros l; rewrite Hin.
  - intros Hl _. apply Hbl. tauto.
  - intros [Hl Ha] _. split; [tauto|]. intros [|]%Hav; tauto.
  - intros [Hl Ha] Hsome. assert (l <> nb) as Hne; [|split; [tauto|auto]].
    intros ->. destruct Hgone as [|Hgone]; [done|]. rewrite Hgone in Hsome. by destruct Hsome.
Qed.

Lemma mem_frame_returned bs nb m fl m' fl' :
  returned tr nb m fl m' fl' -> (nb ∉ bs) -> mem_frame (bs ++ [nb]) m fl bs m' fl'.
Proof using Type.
  intros Hret. apply mem_frame_given; [done|]. intros l. by rewrite elem_of_app, list_elem_of_singleton.
Qed.

Lemma mem_frame_released bs b m fl m' fl' :
  returned tr b m fl m' fl' -> (b ∉ bs) -> mem_frame (b :: bs) m fl bs m' fl'.
Proof using Type.
  intros Hret. apply mem_frame_given; [done|]. intros l. rewrite elem_of_cons. tauto.
Qed.

(** Whether memory can fail to be there: [CannotAlloc], or [malloc] fails. *)
Definition no_memory (allocMode : AllocationMode) : Prop :=
  allocMode = CannotAlloc \/ exists k, malloc_ok k = false.
End memory.
