(* ===== verification/Destruction.v ===== *)
(** What the destructors of the two kinds of producers have in common: the
    elements that are left in a block, and what is known of a block when they
    are gone. *)

From S2P Require Import Prelude MachineInt Traits FreeList Block BlockPool ProducerBase ProducerBaseProofs ExplicitProducer Contents.

Section leftover.
Context {T : Type} (tr : Traits) `{!TraitsOk tr}.
#[local] Abbreviation w := (index_bits tr).
#[local] Abbreviation sb := (size_bits tr).
#[local] Abbreviation B := (BLOCK_SIZE tr).
Implicit Types (x q : Z) (c : list T) (blk : Block T) (m : Mem T).

(** The block number [q] while the elements from index [x] on, [c], have not
    been destroyed yet. *)
Record holds x c q blk : Prop := {
  ho_wf : block_wf tr blk;
  ho_elements : forall o, 0 <= o < B -> zlookup (elements blk) o = Some (content x c (q * B + o))
}.

Lemma block_repr_holds ctx h c q blk : block_repr tr ctx h c q blk -> holds h c q blk.
Proof using Type. by intros []. Qed.

Lemma holds_other x v c q blk : holds x (v :: c) q blk -> ~ (q * B <= x < (q + 1) * B) -> holds (x + 1) c q blk.
Proof using Type.
  intros [] Hx. split; [done|]. intros o Ho. rewrite ho_elements0 by done. rewrite (content_tail x v).
  rewrite decide_False; [done|lia].
Qed.

Lemma holds_destroy x v c q blk :
  holds x (v :: c) q blk -> q * B <= x < (q + 1) * B -> let o := x - q * B in
  zlookup (elements blk) o = Some (Some v) /\ holds (x + 1) c q (set_elements (zinsert o None (elements blk)) blk).
Proof using Type.
  intros [] Hx o. pose proof (wf_elements _ _ ho_wf0) as Hlen. split.
  { rewrite ho_elements0 by lia. replace (q * B + o) with x by lia. by rewrite content_head. }
  split.
  - split; cbn; [by rewrite zlength_zinsert|apply ho_wf0].
  - intros o' Ho'. cbn. rewrite (content_tail x v). destruct (decide (o = o')) as [<-|Hne].
    + rewrite zlookup_zinsert_eq by lia. by rewrite decide_True by lia.
    + rewrite zlookup_zinsert_ne, ho_elements0 by lia. by rewrite decide_False by lia.
Qed.

Lemma holds_raw x c q blk : holds x c q blk -> (q + 1) * B <= x \/ c = [] -> raw tr blk.
Proof using TraitsOk0.
  intros [] Hq. apply (raw_of_slots tr); [done|]. intros o Ho. rewrite ho_elements0 by done. f_equal. destruct Hq as [Hq| ->].
  - apply content_before. lia.
  - unfold content. by case_decide.
Qed.

(** Destroying one element. *)
Lemma destroy_element_spec i v blk :
  zlookup (elements blk) (offset tr i) = Some (Some v) ->
  wp (destroy_element tr i) (fun _ blk' => blk' = set_elements (zinsert (offset tr i) None (elements blk)) blk) nothrow blk.
Proof using Type. intros Hv. unfold destroy_element, read. wp_steps; done. Qed.

(** A number of different blocks is no larger than the heap. *)
Lemma blocks_in_heap (l : list loc) m :
  NoDup l -> (forall b, b ∈ l -> is_Some (blocks m !! b)) -> (length l <= base.size (blocks m))%nat.
Proof using Type.
  intros Hnd Hl. rewrite <- (size_list_to_set (C := gset loc) l) by done. rewrite <- size_dom.
  apply subseteq_size. intros b Hb%elem_of_list_to_set. by apply elem_of_dom, Hl.
Qed.

(** Destroying elements changes neither the pool nor the blocks of others. *)
Lemma update_owned m fl bs b blk blk' m0 fl0 ring :
  pool_inv tr m fl -> mem_frame ring m0 fl0 bs m fl -> b ∈ bs -> ~ available m fl b -> blocks m !! b = Some blk ->
  dynamicallyAllocated blk' = dynamicallyAllocated blk ->
  pool_inv tr (set_blocks (<[b := blk']> (blocks m)) m) fl /\
  mem_frame ring m0 fl0 bs (set_blocks (<[b := blk']> (blocks m)) m) fl.
Proof using Type.
  intros Hpool Hf Hb Hav Hblk Hdyn. split; [by eapply pool_inv_update_block|].
  apply mem_frame_blocks; [done|]. intros l Hl. rewrite lookup_insert_ne; [done|]. by intros ->.
Qed.

(** The order of the blocks does not matter. *)
Lemma mem_frame_reorder (l l' : list loc) m fl : (forall b, b ∈ l <-> b ∈ l') -> mem_frame l m fl l' m fl.
Proof using Type. intros E. apply mem_frame_intro; [done|done|..]; intros b; by rewrite E. Qed.

(** Giving back one of the blocks that are left. *)
Lemma release_one m fl b rest blk :
  pool_inv tr m fl -> NoDup (b :: rest) -> (forall x, x ∈ b :: rest -> ~ available m fl x) ->
  blocks m !! b = Some blk -> raw tr blk ->
  wp (add_block_to_free_list tr b) (fun _ m' => exists fl', pool_inv tr m' fl' /\ mem_frame (b :: rest) m fl rest m' fl' /\
    (forall x, x ∈ rest -> blocks m' !! x = blocks m !! x /\ ~ available m' fl' x)) nothrow m.
Proof using Type.
  intros Hpool [Hb Hnd]%NoDup_cons Hav Hblk Hraw.
  eapply wp_mono; [eapply (add_block_to_free_list_spec tr m fl b blk); try done; apply Hav; by left| |done].
  cbn beta. intros _ m' (fl' & Hret & _). exists fl'. split; [apply Hret|]. split; [by eapply mem_frame_released|].
  destruct Hret as (_ & Hrest & Hav' & _). intros x Hx. assert (x <> b) by (by intros ->).
  split; [by apply Hrest|]. intros [Ha|]%Hav'; [|done]. apply (Hav x); [by right|done].
Qed.
End leftover.
