(* ===== verification/Fifo.v ===== *)
(** The abstract queue that both kinds of sub-queue implement: scripts of
    calls, in bulk or not, the answers a FIFO queue gives to them, and the
    simulation argument that lifts a specification of each call to scripts. *)

From S2P Require Import Prelude MachineInt Traits Block BlockPool ProducerBase ExplicitProducer Contents.

(** * Calls *)

(** The operations of a sub-queue with elements made from [U] and assigned to
    objects of type [R]. *)
Class SubQueueCalls (U R S : Type) := {
  sc_enqueue : AllocationMode -> U -> M S bool;
  sc_enqueue_bulk : AllocationMode -> list U -> Z -> M S bool;
  sc_dequeue : M S (option R);
  sc_dequeue_bulk : Z -> M (S * list R) Z
}.

Inductive operation (U : Type) :=
  | Enqueue (allocMode : AllocationMode) (u : U)
  | EnqueueBulk (allocMode : AllocationMode) (items : list U)
  | Dequeue
  | DequeueBulk (max : Z).
Arguments Enqueue {U}. Arguments EnqueueBulk {U}. Arguments Dequeue {U}. Arguments DequeueBulk {U}.

(** [DequeuedMany] has the value returned, if the call did not throw, and
    what was written to the output range. *)
Inductive answer (R : Type) :=
  | Enqueued (ok : bool)
  | Dequeued (r : option R)
  | DequeuedMany (n : option Z) (out : list R)
  | Threw.
Arguments Enqueued {R}. Arguments Dequeued {R}. Arguments DequeuedMany {R}. Arguments Threw {R}.

Section calls.
Context {U R S : Type} `{!SubQueueCalls U R S}.

(** The caller catches what a call throws. *)
Definition catching (f : M S (answer R)) : M S (answer R) := try_catch f (ret Threw).

(** [dequeue_bulk] with an output range of its own. *)
Definition with_output (f : M (S * list R) Z) : M S (answer R) := fun s =>
  match f (s, []) with
  | Ok n (s', out) => Ok (DequeuedMany (Some n) out) s'
  | Throw (s', out) => Ok (DequeuedMany None out) s'
  | Fault e => Fault e
  end.

Definition call (x : operation U) : M S (answer R) :=
  match x with
  | Enqueue allocMode u => catching (let! ok := sc_enqueue allocMode u in ret (Enqueued ok))
  | EnqueueBulk allocMode items =>
      catching (let! ok := sc_enqueue_bulk allocMode items (zlength items) in ret (Enqueued ok))
  | Dequeue => catching (let! r := sc_dequeue in ret (Dequeued r))
  | DequeueBulk max => with_output (sc_dequeue_bulk max)
  end.

Fixpoint run_calls (l : list (operation U)) : M S (list (answer R)) :=
  match l with
  | [] => ret []
  | x :: l => let! a := call x in let! rs := run_calls l in ret (a :: rs)
  end.

Lemma wp_with_output (f : M (S * list R) Z) (Q : answer R -> S -> Prop) E s :
  wp f (fun n so => Q (DequeuedMany (Some n) so.2) so.1) (fun so => Q (DequeuedMany None so.2) so.1) (s, []) ->
  wp (with_output f) Q E s.
Proof using Type. unfold wp, with_output. destruct (f (s, [])) as [? []|[]|]; done. Qed.
End calls.

(** * The abstract queue *)

Section fifo.
Context {U T R : Type} (tr : Traits) `{!TraitsOk tr} (ops : ElementOps U T R) (malloc_ok : nat -> bool).
#[local] Abbreviation w := (index_bits tr).
#[local] Abbreviation sb := (size_bits tr).
#[local] Abbreviation B := (BLOCK_SIZE tr).
Implicit Types (c : list T) (x : operation U) (a : answer R).

(** The [k]-th element to be added may be refused for want of memory, or
    because another block would exceed the size limit or half the index
    range. *)
Definition no_space c (k : Z) : Prop :=
  2 ^ (w - 1) <= zlength c + k + B \/
  MAX_SUBQUEUE_SIZE tr <> size_max tr /\ MAX_SUBQUEUE_SIZE tr < zlength c + k + B.

Definition may_refuse allocMode c (count : Z) : Prop :=
  no_memory malloc_ok allocMode \/ exists k, 0 <= k < count /\ no_space c k.

(** One call: a constructor that throws changes nothing, an assignment that
    throws loses the elements that were to be received from there on. *)
Inductive fifo1 : list T -> operation U -> answer R -> list T -> Prop :=
  | fifo_enqueue c allocMode u v :
      make ops u = Some v -> fifo1 c (Enqueue allocMode u) (Enqueued true) (c ++ [v])
  | fifo_refuse c allocMode u :
      may_refuse allocMode c 1 -> fifo1 c (Enqueue allocMode u) (Enqueued false) c
  | fifo_enqueue_throws c allocMode u :
      make ops u = None -> fifo1 c (Enqueue allocMode u) Threw c
  | fifo_enqueue_bulk c allocMode items vs :
      Forall2 (fun u v => make ops u = Some v) items vs ->
      fifo1 c (EnqueueBulk allocMode items) (Enqueued true) (c ++ vs)
  | fifo_refuse_bulk c allocMode items :
      may_refuse allocMode c (zlength items) -> fifo1 c (EnqueueBulk allocMode items) (Enqueued false) c
  | fifo_enqueue_bulk_throws c allocMode items u :
      u ∈ items -> make ops u = None -> fifo1 c (EnqueueBulk allocMode items) Threw c
  | fifo_empty : fifo1 [] Dequeue (Dequeued None) []
  | fifo_dequeue v c r :
      assign ops v = Some r -> fifo1 (v :: c) Dequeue (Dequeued (Some r)) c
  | fifo_dequeue_throws v c : assign ops v = None -> fifo1 (v :: c) Dequeue Threw c
  | fifo_dequeue_bulk c c1 c2 max rs :
      c = c1 ++ c2 -> zlength c1 = Z.min (zlength c) max ->
      Forall2 (fun v r => assign ops v = Some r) c1 rs ->
      fifo1 c (DequeueBulk max) (DequeuedMany (Some (zlength c1)) rs) c2
  | fifo_dequeue_bulk_throws c c1 v lost c2 max rs :
      c = c1 ++ v :: lost ++ c2 -> zlength (c1 ++ v :: lost) = Z.min (zlength c) max ->
      Forall2 (fun v r => assign ops v = Some r) c1 rs -> assign ops v = None ->
      fifo1 c (DequeueBulk max) (DequeuedMany None rs) c2.

Inductive fifo : list T -> list (operation U) -> list (answer R) -> list T -> Prop :=
  | fifo_nil c : fifo c [] [] c
  | fifo_cons c x a c1 l rs c2 : fifo1 c x a c1 -> fifo c1 l rs c2 -> fifo c (x :: l) (a :: rs) c2.

(** What the proofs about the two [dequeue_bulk]s provide. *)
Lemma fifo_handed c max thrown rs :
  0 <= max -> let n := Z.min (zlength c) max in
  handed ops c (Z.to_nat n) thrown rs ->
  fifo1 c (DequeueBulk max) (DequeuedMany (if thrown : bool then None else Some n) rs) (drop (Z.to_nat n) c).
Proof using Type.
  intros Hmax n. pose proof (zlength_nonneg c). pose proof (take_drop (Z.to_nat n) c) as Ec.
  assert (zlength (take (Z.to_nat n) c) = n) as En by (unfold zlength in *; rewrite length_take; lia).
  destruct thrown; cbn.
  - intros (j & v & Hj & Hv & Hfail & Hrs).
    assert (take j c ++ v :: drop (S j) (take (Z.to_nat n) c) = take (Z.to_nat n) c) as Et.
    { rewrite <- (take_drop_middle (take (Z.to_nat n) c) j v) at 2; [|by rewrite lookup_take_lt].
      f_equal. rewrite take_take. f_equal. lia. }
    eapply (fifo_dequeue_bulk_throws c (take j c) v (drop (S j) (take (Z.to_nat n) c))); try done.
    + rewrite <- Ec at 1. rewrite <- Et at 1. by rewrite <- app_assoc.
    + by rewrite Et.
  - intros Hrs. rewrite <- En at 1. by eapply fifo_dequeue_bulk.
Qed.

Lemma no_space_of h t u c : t - h = zlength c -> ~ has_room tr h u -> no_space c (u - t).
Proof using Type.
  intros Hc Hroom. unfold has_room in Hroom. unfold no_space. rewrite <- Hc.
  destruct (decide (u + B - h < 2 ^ (w - 1))) as [Hlt|]; [right|left; lia].
  destruct (decide (MAX_SUBQUEUE_SIZE tr = size_max tr)) as [|Hne]; [tauto|]. split; [done|].
  destruct (decide (u + B - h <= MAX_SUBQUEUE_SIZE tr)); [tauto|lia].
Qed.

(** ** Scripts *)

(** The number of blocks a call may add. *)
Definition cost x : Z :=
  match x with
  | Enqueue _ _ => 1
  | EnqueueBulk _ items => zlength items / B + 1
  | _ => 0
  end.

Lemma cost_nonneg x : 0 <= cost x.
Proof using TraitsOk0.
  pose proof (block_size_gt_1 tr). destruct x as [|? items| |]; cbn; try lia.
  pose proof (Z.div_pos (zlength items) B (zlength_nonneg _) ltac:(lia)). lia.
Qed.

Definition total_cost (l : list (operation U)) : Z := zsum (cost <$> l).

Lemma total_cost_nonneg l : 0 <= total_cost l.
Proof using TraitsOk0.
  unfold total_cost. induction l as [|x l IH]; cbn; rewrite ?zsum_cons; [done|]. pose proof (cost_nonneg x). lia.
Qed.

(** If every permitted call is simulated, by states that represent [c] with at
    most [n] blocks, so are scripts of them. *)
Section simulation.
Context {S : Type} `{!SubQueueCalls U R S} (represents : Z -> S -> list T -> Prop) (permitted : operation U -> Prop).

Definition answers x n c a (s' : S) : Prop :=
  exists c', fifo1 c x a c' /\ represents (n + cost x) s' c'.

Context (Hstep : forall x n s c, permitted x -> represents n s c -> (n + cost x) * B < 2 ^ (sb - 1) ->
  wp (call x) (answers x n c) nothrow s).

Lemma run_calls_spec l n s c :
  Forall permitted l -> represents n s c -> (n + total_cost l) * B < 2 ^ (sb - 1) ->
  wp (run_calls l) (fun rs s' => exists c', fifo c l rs c' /\ represents (n + total_cost l) s' c') nothrow s.
Proof using TraitsOk0 Hstep.
  intros Hp. pose proof (block_size_gt_1 tr). revert n s c. induction Hp as [|x l Hx Hp IH]; intros n s c Hr Hsmall.
  { cbn. exists c. split; [constructor|]. by rewrite Z.add_0_r. }
  pose proof (total_cost_nonneg l). pose proof (cost_nonneg x).
  assert (total_cost (x :: l) = cost x + total_cost l) as El by apply zsum_cons. rewrite El in *.
  cbn [run_calls]. wp_step. eapply wp_mono; [eapply (Hstep x n); [done|done|nia]| |done]. cbn beta.
  intros a s1 (c1 & Hc1 & Hr1). wp_step.
  eapply wp_mono; [eapply (IH (n + cost x)); [done|by rewrite <- Z.add_assoc]| |done].
  cbn beta. intros rs s2 (c2 & Hc2 & Hr2). wp_step. exists c2. split; [by econstructor|].
  by rewrite Z.add_assoc.
Qed.
End simulation.
End fifo.
