(* ===== verification/ExplicitSpec.v ===== *)
(** The specification of [ExplicitProducer]: the invariant that relates its
    circular list of blocks and its block index to the queue of elements it
    represents, and the rules by which the proofs about it execute the code. *)

From S2P Require Import Prelude MachineInt Traits FreeList FreeListProofs Block BlockPool ProducerBase ProducerBaseProofs ExplicitProducer Contents.

(** * Rules for the accessors *)

Section rules.
Context {T : Type} (tr : Traits).
Implicit Types (s : EState T) (p : ExplicitProducer) (m : Mem T).

Lemma wp_with_prod {A} (f : M ExplicitProducer A) (Q : A -> EState T -> Prop) E p m :
  wp f (fun a p' => Q a (mkEState p' m)) (fun p' => E (mkEState p' m)) p ->
  wp (with_prod f) Q E (mkEState p m).
Proof. intros H. by apply wp_zoom. Qed.

Lemma wp_with_mem {A} (f : M (Mem T) A) (Q : A -> EState T -> Prop) E p m :
  wp f (fun a m' => Q a (mkEState p m')) (fun m' => E (mkEState p m')) m ->
  wp (with_mem f) Q E (mkEState p m).
Proof. intros H. by apply wp_zoom. Qed.

Lemma wp_getp {A} (f : ExplicitProducer -> A) (Q : A -> EState T -> Prop) E p m :
  Q (f p) (mkEState p m) -> wp (getp f) Q E (mkEState p m).
Proof. done. Qed.

Lemma wp_getb {A} (f : ProducerBase -> A) (Q : A -> EState T -> Prop) E p m :
  Q (f (ep_base p)) (mkEState p m) -> wp (getb f) Q E (mkEState p m).
Proof. done. Qed.

Lemma wp_setp f (Q : unit -> EState T -> Prop) E p m :
  Q tt (mkEState (f p) m) -> wp (setp f) Q E (mkEState p m).
Proof. done. Qed.

Lemma wp_setb f (Q : unit -> EState T -> Prop) E p m :
  Q tt (mkEState (set_ep_base (f (ep_base p)) p) m) -> wp (setb f) Q E (mkEState p m).
Proof. done. Qed.

Lemma wp_with_base {A} (f : M ProducerBase A) (Q : A -> EState T -> Prop) E p m a b' :
  f (ep_base p) = Ok a b' -> Q a (mkEState (set_ep_base b' p) m) ->
  wp (with_base f) Q E (mkEState p m).
Proof. intros Hf HQ. apply wp_with_prod, wp_zoom. by eapply wp_ok. Qed.

Lemma wp_on_block {A} b (f : M (Block T) A) blk (Q : A -> EState T -> Prop) E p m :
  blocks m !! b = Some blk ->
  wp f (fun a blk' => Q a (mkEState p (set_blocks (<[b := blk']> (blocks m)) m)))
       (fun blk' => E (mkEState p (set_blocks (<[b := blk']> (blocks m)) m))) blk ->
  wp (on_block b f) Q E (mkEState p m).
Proof. intros Hb Hf. apply wp_with_mem. by eapply wp_at_block. Qed.

Lemma set_blocks_id m b blk : blocks m !! b = Some blk -> set_blocks (<[b := blk]> (blocks m)) m = m.
Proof. intros Hb. unfold set_blocks. rewrite insert_id by done. by destruct m. Qed.

(** Reading a field of a block. *)
Lemma wp_block_get {A} b (f : Block T -> A) blk (Q : A -> EState T -> Prop) E p m :
  blocks m !! b = Some blk -> Q (f blk) (mkEState p m) ->
  wp (on_block b (gets f)) Q E (mkEState p m).
Proof.
  intros Hb HQ. eapply wp_on_block; [done|]. apply wp_gets. by rewrite set_blocks_id.
Qed.

Lemma wp_header h hd (Q : BlockIndexHeader -> EState T -> Prop) E p m :
  headers p !! h = Some hd -> Q hd (mkEState p m) -> wp (header h) Q E (mkEState p m).
Proof. intros Hh HQ. unfold header. apply wp_bind, wp_getp. by eapply wp_deref. Qed.

Lemma wp_set_header h hd x (Q : unit -> EState T -> Prop) E p m :
  headers p !! h = Some hd -> Q tt (mkEState (set_headers (<[h := x]> (headers p)) p) m) ->
  wp (set_header h x) Q E (mkEState p m).
Proof. intros Hh HQ. unfold set_header. apply wp_bind. eapply wp_header; [done|]. by apply wp_setp. Qed.

Lemma wp_read_entry h i hd e (Q : BlockIndexEntry -> EState T -> Prop) E p m :
  headers p !! h = Some hd -> zlookup (entries hd) i = Some (Some e) -> Q e (mkEState p m) ->
  wp (read_entry h i) Q E (mkEState p m).
Proof.
  intros Hh He HQ. unfold read_entry. apply wp_bind. eapply wp_header; [done|].
  apply wp_bind. eapply wp_deref; [done|]. by eapply wp_deref.
Qed.

Lemma wp_write_entry h i hd e (Q : unit -> EState T -> Prop) E p m :
  headers p !! h = Some hd -> 0 <= i < zlength (entries hd) ->
  Q tt (mkEState (set_headers (<[h := mkHeader (size hd) (front hd)
                   (zinsert i (Some e) (entries hd)) (prev hd)]> (headers p)) p) m) ->
  wp (write_entry h i e) Q E (mkEState p m).
Proof.
  intros Hh Hi HQ. unfold write_entry. apply wp_bind. eapply wp_header; [done|].
  destruct (zlookup_is_Some _ _ Hi) as [x Hx].
  apply wp_bind. eapply wp_deref; [done|]. by eapply wp_set_header.
Qed.

Lemma wp_store_front h x hd (Q : unit -> EState T -> Prop) E p m :
  headers p !! h = Some hd ->
  Q tt (mkEState (set_headers (<[h := mkHeader (size hd) x (entries hd) (prev hd)]> (headers p)) p) m) ->
  wp (store_front h x) Q E (mkEState p m).
Proof.
  intros Hh HQ. unfold store_front. apply wp_bind. eapply wp_header; [done|].
  by eapply wp_set_header.
Qed.
End rules.

(** Symbolic execution of the producer's code. *)
Ltac ep_step :=
  first
  [ lazymatch goal with
    | |- wp (getp _) _ _ _ => apply wp_getp; cbn beta
    | |- wp (getb _) _ _ _ => apply wp_getb; cbn beta
    | |- wp (setp _) _ _ _ => apply wp_setp; cbn beta
    | |- wp (setb _) _ _ _ => apply wp_setb; cbn beta
    | |- wp (gets _) _ _ _ => apply wp_gets; cbn beta
    end
  | wp_step ].
Ltac ep_steps := repeat ep_step.

(** * Representation *)

(** The blocks after each block of the circular list. *)
Definition rot (ring : list loc) : list loc := drop 1 ring ++ take 1 ring.

Section repr.
Context {T : Type} (tr : Traits) `{!TraitsOk tr}.
#[local] Abbreviation w := (index_bits tr).
#[local] Abbreviation sb := (size_bits tr).
#[local] Abbreviation B := (BLOCK_SIZE tr).
Implicit Types (h t f : Z) (ring : list loc) (c : list T) (m : Mem T).

(** [ring] lists the blocks from the one after the tail block, which is the
    oldest and has number [f], to the tail block.  [P] says what each holds. *)
Definition ring_with (P : Z -> Block T -> Prop) m f ring : Prop :=
  NoDup ring /\
  forall k b, ring !! k = Some b -> exists blk,
    blocks m !! b = Some blk /\ P (f + Z.of_nat k) blk /\ rot ring !! k = Some (next blk).

Definition ring_repr m h c f ring : Prop := ring_with (block_repr tr explicit_context h c) m f ring.

(** The headers are linked by [prev] from the current one on. *)
(** The current index: its slots up to [pr_blockIndexFront] list the blocks
    of the ring. *)
Record index_repr (p : ExplicitProducer) f ring (hd : BlockIndexHeader) : Prop := {
  ir_header : headers p !! blockIndex p = Some hd;
  ir_pow : exists k, 0 <= k < sb /\ size hd = 2 ^ k;
  ir_size : pr_blockIndexSize p = size hd;
  ir_length : zlength (entries hd) = size hd;
  ir_pfront : 0 <= pr_blockIndexFront p < size hd;
  ir_room : zlength ring <= size hd;
  ir_entries : forall k b, ring !! k = Some b ->
    zlookup (entries hd) ((pr_blockIndexFront p - zlength ring + Z.of_nat k) mod size hd)
      = Some (Some (mkEntry (wrap w ((f + Z.of_nat k) * B)) b))
}.

(** Either there is an index, or allocating the first one failed.  [P] says
    more about the current header. *)
Definition index_ok (P : BlockIndexHeader -> Prop) (p : ExplicitProducer) f ring : Prop :=
  pr_blockIndexSlotsUsed p = zlength ring /\
  pr_blockIndexRaw p = blockIndex p /\ pr_blockIndexEntries p = blockIndex p /\
  ((exists hd, blockIndex p <> nullptr /\ index_repr p f ring hd /\ P hd) \/
   (blockIndex p = nullptr /\ ring = [] /\
    exists k, 0 <= k < sb - 1 /\ pr_blockIndexSize p = 2 ^ k)).

(** The published front is the slot of the tail block. *)
Definition index_inv (p : ExplicitProducer) f ring : Prop :=
  index_ok (fun hd => ring <> [] -> front hd = (pr_blockIndexFront p - 1) mod size hd) p f ring.

Definition headers_inv (p : ExplicitProducer) m : Prop :=
  (exists l, linked prev (headers p) (pr_blockIndexRaw p) l /\
     forall x, is_Some (headers p !! x) <-> x ∈ l) /\
  (forall x, is_Some (headers p !! x) -> 0 < x < next_address m).

(** [explicit_inv s fl h t f ring c]: the sub-queue holds the elements [c],
    with (unbounded) indices from [h] to [t]. *)
Record explicit_inv (s : EState T) fl h t f ring c : Prop := {
  ei_counters : counters tr (ep_base (prod s)) h t;
  ei_contents : t - h = zlength c;
  ei_tail : tailBlock (ep_base (prod s)) = default nullptr (last ring);
  ei_oldest : 0 <= f /\ f * B <= h;
  ei_last : (f + zlength ring - 1) * B < t <= (f + zlength ring) * B \/ ring = [] /\ t = 0;
  ei_range : (f + zlength ring) * B - h < 2 ^ (w - 1);
  ei_blocks : zlength ring * B <= 2 ^ (w - 1);
  ei_index : index_inv (prod s) f ring;
  ei_headers : headers_inv (prod s) (mem s);
  ei_pool : pool_inv tr (mem s) fl;
  ei_ring : ring_repr (mem s) h c f ring;
  ei_in_use : forall b, b ∈ ring -> ~ available (mem s) fl b;
  ei_kind : isExplicit (ep_base (prod s)) = true
}.

(** The tail block changes to [b]: a new one, or the oldest, reused. *)
Inductive push : Z -> list loc -> Z -> list loc -> loc -> Prop :=
  | push_new f ring b : push f ring f (ring ++ [b]) b
  | push_reuse f b rest : push f (b :: rest) (f + 1) (rest ++ [b]) b.

End repr.
