(* ===== verification/ExplicitIndex.v ===== *)
(** The block index of [ExplicitProducer]: growing it, adding an entry, and
    finding the block of an element. *)

From S2P Require Import Prelude MachineInt Traits FreeList Block BlockPool ProducerBase ProducerBaseProofs ExplicitProducer Contents ExplicitSpec.

Section index.
Context {U T R : Type} (tr : Traits) `{!TraitsOk tr} (ops : ElementOps U T R).
Context (malloc_ok : nat -> bool) (indeterminate : Indeterminate).
#[local] Abbreviation w := (index_bits tr).
#[local] Abbreviation sb := (size_bits tr).
#[local] Abbreviation B := (BLOCK_SIZE tr).
Implicit Types (h t f : Z) (ring : list loc) (c : list T) (m : Mem T) (p : ExplicitProducer).

(** [copy_entries] visits the [r] slots before [stop]. *)
Lemma copy_entries_spec fuel old k stop r acc (s : EState T) :
  0 <= k < sb -> zlength old = 2 ^ k -> 0 <= stop < 2 ^ k -> 1 <= r <= 2 ^ k -> r <= Z.of_nat fuel ->
  wp (copy_entries tr fuel old (wrap sb (2 ^ k - 1)) stop ((stop - r) mod 2 ^ k) acc)
    (fun L s' => s' = s /\ exists L', L = acc ++ L' /\ zlength L' = r /\
       forall j, 0 <= j < r -> zlookup L' j = zlookup old ((stop - r + j) mod 2 ^ k))
    nothrow s.
Proof using Type.
  intros Hk Hold Hstop. pose proof (Z.pow_pos_nonneg 2 k ltac:(lia) ltac:(lia)) as Hpos.
  revert r acc. induction fuel as [|fuel IH]; intros r acc Hr Hf; [lia|]. cbn [copy_entries].
  destruct (zlookup_is_Some old ((stop - r) mod 2 ^ k)) as [e He].
  { rewrite Hold. apply Z.mod_pos_bound. lia. }
  wp_step. eapply wp_deref; [done|]. rewrite mask_slot by done.
  rewrite Zplus_mod_idemp_l. replace (stop - r + 1) with (stop - (r - 1)) by lia.
  destruct (Z.eqb_spec ((stop - (r - 1)) mod 2 ^ k) stop) as [Hs|Hs].
  - assert (r = 1) as ->.
    { rewrite <- (Z.mod_small stop (2 ^ k)) in Hs at 2 by lia.
      apply mod_inj in Hs; [lia|]. lia. }
    wp_step. split; [done|]. exists [e]. split; [done|]. split; [done|].
    intros j Hj. replace j with 0 by lia. rewrite Z.add_0_r. by rewrite He.
  - assert (1 < r).
    { destruct (decide (r = 1)) as [->|]; [|lia]. exfalso. apply Hs.
      rewrite Z.mod_small; lia. }
    eapply wp_mono; [apply IH; lia| |done]. cbn beta.
    intros L s' (-> & L' & -> & Hlen & HL'). split; [done|]. exists (e :: L').
    split; [by rewrite <- app_assoc|]. unfold zlength in *. cbn [length]. split; [lia|].
    intros j Hj. destruct (decide (j = 0)) as [->|].
    + replace (stop - r + 0) with (stop - r) by lia. by rewrite He.
    + replace (stop - r + j) with (stop - (r - 1) + (j - 1)) by lia. rewrite <- HL' by lia.
      unfold zlookup. rewrite !decide_True by lia.
      replace (Z.to_nat j) with (S (Z.to_nat (j - 1))) by lia. done.
Qed.

(** The doubled index and its front, ready for the next entry. *)
Definition grown (expose : Z) p m f ring p' m' : Prop :=
  index_ok tr (fun hd => front hd = wrap sb (expose - 1)) p' f ring /\
  blockIndex p' <> nullptr /\ pr_blockIndexFront p' = zlength ring /\
  pr_blockIndexSize p' = 2 * pr_blockIndexSize p.

Lemma index_ok_pow P p f ring :
  index_ok tr P p f ring -> (blockIndex p <> nullptr -> 2 * pr_blockIndexSize p < 2 ^ sb) ->
  exists k, 0 <= k < sb - 1 /\ pr_blockIndexSize p = 2 ^ k /\ zlength ring <= 2 ^ k.
Proof using Type.
  intros (_ & _ & _ & [(hd & Hn & [] & _)|(_ & -> & k & Hk & E)]) Hb.
  - destruct ir_pow as (k & Hk & E). exists k. rewrite ir_size, E in *. specialize (Hb Hn).
    assert (k + 1 < sb); [|split_and!; lia].
    apply (Z.pow_lt_mono_r_iff 2); [lia..|]. rewrite Z.pow_add_r; lia.
  - exists k. split_and!; try lia. apply Z.pow_nonneg. lia.
Qed.

(** What the copy yields: the entries of the ring in order. *)
Definition ring_entries f ring (L : list (option BlockIndexEntry)) : Prop :=
  zlength L = zlength ring /\
  forall k b, ring !! k = Some b ->
    zlookup L (Z.of_nat k) = Some (Some (mkEntry (wrap w ((f + Z.of_nat k) * B)) b)).

Lemma copied_spec P p f ring m k n q :
  index_ok tr P p f ring -> 0 <= k < sb -> pr_blockIndexSize p = 2 ^ k ->
  blockIndex q = blockIndex p -> headers q = headers p ->
  pr_blockIndexEntries q = pr_blockIndexEntries p ->
  n = pr_blockIndexFront p ->
  wp (if pr_blockIndexSlotsUsed p =? 0 then ret []
      else
        let! pe := getp pr_blockIndexEntries in
        let! old := header pe in
        copy_entries tr (Z.to_nat (2 ^ k)) (entries old) (wrap sb (2 ^ k - 1)) n
          (Z.land (wrap sb (n - pr_blockIndexSlotsUsed p)) (wrap sb (2 ^ k - 1))) [])
    (fun L s' => s' = mkEState q m /\ ring_entries f ring L) nothrow (mkEState q m : EState T).
Proof using Type.
  intros (-> & _ & Eent & Hidx) Hk Ek Ebi Eh Ee ->.
  pose proof (Z.pow_pos_nonneg 2 k ltac:(lia) ltac:(lia)) as Hpos.
  destruct (Z.eqb_spec (zlength ring) 0) as [Hz|Hnz].
  { wp_step. split; [done|]. destruct ring; [|cbn in Hz; unfold zlength in *; cbn in *; lia].
    split; [done|]. intros ?? [=]. }
  destruct Hidx as [(hd & Hn & [] & _)|(_ & -> & _)]; [|done].
  rewrite Ek in ir_size. rewrite <- ir_size in *.
  ep_steps. eapply wp_header; [by rewrite Ee, Eent, Eh|]. rewrite mask_slot by done.
  assert (0 <= zlength ring) by (unfold zlength; lia).
  eapply wp_mono; [apply (copy_entries_spec _ _ k _ (zlength ring)); try lia| |done]. cbn beta.
  intros L s' (-> & L' & -> & HL & Hent). split; [done|]. split; [done|].
  intros j b Hj. pose proof (lookup_lt_Some _ _ _ Hj). cbn [app].
  rewrite Hent by (unfold zlength; lia). by apply ir_entries.
Qed.

Lemma new_block_index_spec P expose p f ring m fl :
  index_ok tr P p f ring -> headers_inv p m -> pool_inv tr m fl ->
  (blockIndex p <> nullptr -> 2 * pr_blockIndexSize p < 2 ^ sb) ->
  wp (new_block_index tr malloc_ok expose) (fun ok s' =>
    exists a p' , s' = mkEState p' (set_allocator a (S (malloc_calls m)) m) /\
      next_address m <= a /\ ep_base p' = ep_base p /\
      headers_inv p' (set_allocator a (S (malloc_calls m)) m) /\
      ok = malloc_ok (malloc_calls m) /\
      if ok then grown expose p m f ring p' m else p' = p)
    nothrow (mkEState p m).
Proof using Type.
  intros Hix [(l & Hchain & Hdom) Haddr] Hpool Hsize.
  destruct (index_ok_pow _ _ _ _ Hix Hsize) as (k & Hk & Ek & Hring).
  pose proof (Z.pow_pos_nonneg 2 k ltac:(lia) ltac:(lia)) as Hpos.
  assert (2 * 2 ^ k < 2 ^ sb) as Hdouble.
  { rewrite <- Z.pow_succ_r by lia. apply Z.pow_lt_mono_r; lia. }
  unfold new_block_index. ep_steps. rewrite Ek.
  rewrite Z.shiftl_mul_pow2, (Z.mul_comm (2 ^ k)) by lia. change (2 ^ 1) with 2.
  rewrite (wrap_small (2 * 2 ^ k)) by lia.
  ep_steps. apply wp_with_mem, wp_malloc; intros Hok; cbn beta.
  2:{ rewrite Z.eqb_refl. ep_steps. exists (next_address m), p. split; [|split_and!].
      - f_equal. destruct p. unfold set_indexSize. cbn in *. f_equal.
        rewrite Ek, Z.shiftr_div_pow2 by lia. change (2 ^ 1) with 2. rewrite Z.mul_comm.
        by rewrite Z.div_mul.
      - lia.
      - done.
      - split; [by exists l|done].
      - done.
      - done. }
  rewrite (proj2 (Z.eqb_neq _ _)) by (pose proof (pi_next _ _ _ Hpool); unfold nullptr; lia).
  ep_steps. cbn [pr_blockIndexSlotsUsed pr_blockIndexFront set_indexSize].
  eapply wp_mono; [eapply (copied_spec P p f ring); [done|lia|done..]| |done].
  cbn beta. intros L s' (-> & HL & Hent). ep_steps.
  set (a := next_address m) in *.
  set (hd' := mkHeader (2 * 2 ^ k) (wrap sb (expose - 1))
    (L ++ replicate (Z.to_nat (2 * 2 ^ k - zlength L)) None) (pr_blockIndexRaw p)).
  exists (a + 1), (mkExplicit (ep_base p) a (pr_blockIndexSlotsUsed p) (2 * 2 ^ k) (zlength L)
    a a (<[a := hd']> (headers p))).
  split; [done|].
  assert (headers p !! a = None) as Hfresh.
  { apply eq_None_not_Some. intros H%Haddr. lia. }
  split; [lia|]. split; [done|]. split; [split|split; [done|]].
  - exists (a :: l). cbn [linked pr_blockIndexRaw headers]. split.
    + split; [done|]. split; [unfold nullptr; pose proof (pi_next _ _ _ Hpool); lia|].
      eexists. rewrite lookup_insert_eq. split; [done|].
      cbn [prev]. apply linked_insert; [|done].
      intros Hin%Hdom. rewrite Hfresh in Hin. by destruct Hin.
    + intros x. rewrite elem_of_cons, <- Hdom. destruct (decide (x = a)) as [->|Hx].
      * rewrite lookup_insert_eq. split; [by left|by eauto].
      * rewrite lookup_insert_ne by done. split; [by right|by intros [|]].
  - intros x. cbn. destruct (decide (x = a)) as [->|Hx]; [pose proof (pi_next _ _ _ Hpool); lia|].
    rewrite lookup_insert_ne by done. intros ?%Haddr. lia.
  - assert (a <> nullptr) as Ha by (pose proof (pi_next _ _ _ Hpool); unfold nullptr; lia).
    unfold grown. cbn. rewrite Ek, HL. split; [|done]. destruct Hix as (Eused & _).
    split; [done|]. split; [done|]. split; [done|]. left. exists hd'. split; [done|]. split; [|done].
    pose proof (zlength_nonneg L). split; cbn.
    + apply lookup_insert_eq.
    + exists (k + 1). split; [lia|]. rewrite Z.pow_add_r by lia. lia.
    + done.
    + rewrite zlength_app, zlength_replicate by lia. lia.
    + lia.
    + lia.
    + intros j b Hj. pose proof (lookup_lt_Some _ _ _ Hj) as Hlt.
      rewrite HL, Z.sub_diag, Z.add_0_l.
      assert (Z.of_nat j < zlength ring) by (unfold zlength; lia).
      rewrite Z.mod_small, zlookup_app_l by lia. by apply Hent.
Qed.

(** ** Adding an entry *)

(** Blocks other than the new tail keep their number and their distance to
    the front. *)
Lemma push_lookup f ring f' ring' b k x :
  push f ring f' ring' b -> ring' !! k = Some x ->
  f' + zlength ring' = f + zlength ring + 1 /\
  (Z.of_nat k = zlength ring' - 1 /\ x = b \/
   Z.of_nat k < zlength ring' - 1 /\
   exists k0, ring !! k0 = Some x /\ f + Z.of_nat k0 = f' + Z.of_nat k).
Proof using Type.
  intros [f0 r b0|f0 b0 rest] Hk; rewrite zlength_app; unfold zlength; cbn [length];
    apply lookup_app_Some in Hk as [Hk|[Hge Hk]].
  - pose proof (lookup_lt_Some _ _ _ Hk). split; [lia|]. right. split; [lia|]. by exists k.
  - apply list_lookup_singleton_Some in Hk as [? ->]. split; [lia|]. left. split; [lia|done].
  - pose proof (lookup_lt_Some _ _ _ Hk). split; [lia|]. right. split; [lia|].
    exists (S k). split; [done|lia].
  - apply list_lookup_singleton_Some in Hk as [? ->]. split; [lia|]. left. split; [lia|done].
Qed.

Lemma push_length f ring f' ring' b :
  push f ring f' ring' b -> f' + zlength ring' = f + zlength ring + 1 /\ last ring' = Some b.
Proof using Type.
  intros []; rewrite last_snoc, zlength_app; unfold zlength; cbn [length]; split; done || lia.
Qed.

Definition pushed_header (hd : BlockIndexHeader) (slot fr : Z) (e : BlockIndexEntry) :=
  mkHeader (size hd) fr (zinsert slot (Some e) (entries hd)) (prev hd).

Lemma index_repr_push p p' f ring hd f' ring' b fr :
  index_repr tr p f ring hd -> push f ring f' ring' b -> zlength ring' <= size hd ->
  let hd' := pushed_header hd (pr_blockIndexFront p) fr
               (mkEntry (wrap w ((f + zlength ring) * B)) b) in
  blockIndex p' = blockIndex p -> pr_blockIndexSize p' = pr_blockIndexSize p ->
  pr_blockIndexFront p' = (pr_blockIndexFront p + 1) mod size hd ->
  headers p' = <[blockIndex p := hd']> (headers p) ->
  index_repr tr p' f' ring' hd'.
Proof using Type.
  intros [] Hpush Hroom hd' E1 E2 E3 E4.
  assert (0 < size hd) as Hpos by lia.
  pose proof (push_length _ _ _ _ _ Hpush) as [Hlen _]. pose proof (zlength_nonneg ring).
  split; cbn; try done.
  - rewrite E1, E4. apply lookup_insert_eq.
  - by rewrite E2.
  - by rewrite zlength_zinsert.
  - rewrite E3. by apply Z.mod_pos_bound.
  - intros k x Hk. destruct (push_lookup _ _ _ _ _ _ _ Hpush Hk) as [_ Hcase].
    rewrite E3, <- Z.add_opp_r, <- Z.add_assoc, Zplus_mod_idemp_l.
    destruct Hcase as [[Ek ->]|(Hlt & k0 & Hk0 & Ek)].
    + rewrite Ek. replace (_ + 1 + _) with (pr_blockIndexFront p) by lia.
      rewrite Z.mod_small, zlookup_zinsert_eq by lia. do 4 f_equal. lia.
    + pose proof (lookup_lt_Some _ _ _ Hk0).
      replace (pr_blockIndexFront p + 1 + _) with (pr_blockIndexFront p - zlength ring + Z.of_nat k0)
        by lia.
      rewrite zlookup_zinsert_ne; [by rewrite (ir_entries k0 x Hk0), Ek|].
      intros Heq. rewrite <- (Z.mod_small (pr_blockIndexFront p) (size hd)) in Heq at 1 by lia.
      apply mod_inj in Heq; unfold zlength in *; lia.
Qed.

Lemma headers_inv_update p p' m x hd hd' :
  headers_inv p m -> headers p !! x = Some hd -> prev hd' = prev hd ->
  pr_blockIndexRaw p' = pr_blockIndexRaw p -> headers p' = <[x := hd']> (headers p) ->
  headers_inv p' m.
Proof using Type.
  intros [(l & Hc & Hd) Ha] Hx Hp Hr Hh.
  assert (forall y, is_Some (headers p' !! y) <-> is_Some (headers p !! y)) as Hsame.
  { intros y. rewrite Hh. destruct (decide (y = x)) as [->|]; [|by rewrite lookup_insert_ne].
    rewrite lookup_insert_eq, Hx. split; by eauto. }
  split.
  - exists l. rewrite Hr. split; [rewrite Hh; by eapply linked_update|].
    intros y. by rewrite Hsame.
  - intros y. rewrite Hsame. apply Ha.
Qed.

Lemma index_repr_ext p p' f ring hd :
  index_repr tr p f ring hd -> blockIndex p' = blockIndex p -> headers p' = headers p ->
  pr_blockIndexSize p' = pr_blockIndexSize p -> pr_blockIndexFront p' = pr_blockIndexFront p ->
  index_repr tr p' f ring hd.
Proof using Type. intros [] E1 E2 E3 E4. split; rewrite ?E1, ?E2, ?E3, ?E4; done. Qed.

Lemma index_inv_base p f ring b : index_inv tr p f ring -> index_inv tr (set_ep_base b p) f ring.
Proof using Type.
  intros (E1 & E2 & E3 & [(hd & Hn & Hix & Hf)|H]); (split; [done|split; [done|split; [done|]]]).
  - left. exists hd. split; [done|]. split; [by eapply index_repr_ext|done].
  - by right.
Qed.

(** What the producer knows of its index between taking a block and
    publishing it. *)
Record unpublished p f ring (n' : Z) (hd : BlockIndexHeader) : Prop := {
  up_used : pr_blockIndexSlotsUsed p = n';
  up_raw : pr_blockIndexRaw p = blockIndex p;
  up_entries : pr_blockIndexEntries p = blockIndex p;
  up_some : blockIndex p <> nullptr;
  up_repr : index_repr tr p f ring hd;
  up_room : n' <= size hd
}.

Lemma publish_block_spec p m f ring f' ring' b hd i :
  unpublished p f ring (zlength ring') hd -> push f ring f' ring' b ->
  tailBlock (ep_base p) = b -> i = wrap w ((f + zlength ring) * B) -> headers_inv p m ->
  wp (publish_block tr i) (fun _ s' => exists p', s' = mkEState p' m /\
      ep_base p' = ep_base p /\ index_inv tr p' f' ring' /\ headers_inv p' m) nothrow
    (mkEState p m : EState T).
Proof using Type.
  intros [] Hpush Htail -> Hh. pose proof up_repr0 as [].
  unfold publish_block, add_index_entry, advance_front. ep_steps.
  eapply wp_write_entry; [done|lia|]. ep_steps. cbn [blockIndex pr_blockIndexFront set_headers].
  eapply wp_store_front; [cbn; apply lookup_insert_eq|]. ep_steps.
  set (e := mkEntry _ _). set (hd' := pushed_header hd (pr_blockIndexFront p) (pr_blockIndexFront p) e).
  eexists. split; [done|]. split; [done|]. cbn [headers set_headers].
  rewrite insert_insert_eq. cbn [size entries prev].
  destruct ir_pow as (k & Hk & Ek).
  assert (forall x, Z.land (wrap sb x) (wrap sb (pr_blockIndexSize p - 1)) = x mod size hd) as Hmask
    by (intros x; rewrite ir_size, Ek; by apply mask_slot).
  cbn [pr_blockIndexFront pr_blockIndexSize set_headers]. rewrite Hmask.
  split; [|by eapply (headers_inv_update p _ m _ _ hd')].
  split; [done|]. split; [done|]. split; [done|]. left. exists hd'. split; [done|]. split.
  - subst e hd'. rewrite Htail. eapply index_repr_push; [done|done|lia|done|done|done|done].
  - intros _. cbn. rewrite Zminus_mod_idemp_l. rewrite Z.add_simpl_r. symmetry. apply Z.mod_small. lia.
Qed.

(** ** Finding the block of an element *)

Lemma index_slot_spec p m f ring x k b :
  index_inv tr p f ring -> zlength ring * B <= 2 ^ (w - 1) ->
  x / B = f + Z.of_nat k -> ring !! k = Some b ->
  wp (index_slot tr (blockIndex p) (wrap w x)) (fun slot s' => s' = mkEState p m /\
      exists hd e, headers p !! blockIndex p = Some hd /\
        slot = (pr_blockIndexFront p - zlength ring + Z.of_nat k) mod size hd /\
        zlookup (entries hd) slot = Some (Some e) /\ entry_block e = b)
    nothrow (mkEState p m : EState T).
Proof using TraitsOk0.
  intros (_ & _ & _ & [(hd & Hn & [] & Hfront)|(_ & -> & _)]) Hblocks Hx Hk; [|done].
  pose proof (lookup_lt_Some _ _ _ Hk) as Hlt. pose proof (block_size_gt_1 tr).
  assert (ring <> []) as Hne by (by intros ->).
  destruct (lookup_lt_is_Some_2 ring (length ring - 1)) as [b' Hb']; [lia|].
  pose proof (ir_entries _ _ Hb') as Hlast. specialize (Hfront Hne).
  destruct ir_pow as (j & Hj & Ej).
  replace (pr_blockIndexFront p - zlength ring + Z.of_nat (length ring - 1))
    with (pr_blockIndexFront p - 1) in Hlast by (unfold zlength; lia).
  rewrite <- Hfront in Hlast.
  unfold index_slot. wp_step. eapply wp_header; [done|]. wp_step.
  eapply wp_read_entry; [done..|]. wp_step. cbn [entry_base].
  rewrite (block_offset tr) by (unfold zlength in *; nia).
  rewrite wrap_add_r, Ej, mask_slot, <- Ej by done. rewrite Hfront, Zplus_mod_idemp_l.
  replace (pr_blockIndexFront p - 1 + _) with (pr_blockIndexFront p - zlength ring + Z.of_nat k)
    by (unfold zlength; lia).
  split; [done|]. eexists _, _. split; [done|]. split; [done|]. split; [by apply ir_entries|done].
Qed.
End index.
