(* ===== verification/ExplicitProofs.v ===== *)
(** [ExplicitProducer]'s enqueue and dequeue implement a bounded FIFO queue. *)

From S2P Require Import Prelude MachineInt Traits FreeList Block BlockPool ProducerBase ProducerBaseProofs ExplicitProducer Contents ExplicitSpec ExplicitIndex.

Section ring.
Context {T : Type} (tr : Traits) `{!TraitsOk tr}.
#[local] Abbreviation w := (index_bits tr).
#[local] Abbreviation B := (BLOCK_SIZE tr).
Implicit Types (h t f : Z) (ring : list loc) (c : list T) (m : Mem T).

(** ** Contents *)

(** ** Blocks of the ring *)

(** ** The ring *)

Lemma rot_lookup_lt ring k b : ring !! S k = Some b -> rot ring !! k = Some b.
Proof using Type.
  intros H. unfold rot. rewrite lookup_app_l.
  - by rewrite lookup_drop.
  - rewrite length_drop. apply lookup_lt_Some in H. lia.
Qed.

Lemma rot_length ring : length (rot ring) = length ring.
Proof using Type. unfold rot. rewrite length_app, length_drop, length_take. lia. Qed.

Lemma rot_cons b rest : rot (b :: rest) = rest ++ [b].
Proof using Type. unfold rot. cbn. by rewrite take_0. Qed.

(** The block [ring !! k] of the ring changes, and so does what is said of the
    others, in a way that they cannot tell. *)
Lemma ring_update (P P' : Z -> Block T -> Prop) m f ring k b blk blk' :
  ring_with P m f ring -> ring !! k = Some b -> blocks m !! b = Some blk ->
  next blk' = next blk -> P' (f + Z.of_nat k) blk' -> (forall q bk, q <> f + Z.of_nat k -> P q bk -> P' q bk) ->
  ring_with P' (set_blocks (<[b := blk']> (blocks m)) m) f ring.
Proof using Type.
  intros [Hnd Hr] Hk Hb Hnext Hblk Hother. split; [done|]. intros j x Hj. cbn.
  destruct (decide (j = k)) as [->|Hne].
  - assert (x = b) as -> by congruence. exists blk'. rewrite lookup_insert_eq.
    destruct (Hr _ _ Hk) as (blk0 & Hb0 & _ & Hn). assert (blk0 = blk) as -> by congruence.
    split; [done|]. split; [done|]. by rewrite Hnext.
  - destruct (Hr _ _ Hj) as (blk0 & Hb0 & H0 & Hn). exists blk0.
    rewrite lookup_insert_ne; [|intros ->; apply Hne; by eapply NoDup_lookup].
    split; [done|]. split; [apply Hother; [lia|done]|done].
Qed.

Lemma ring_repr_update m h c h' c' f ring k b blk blk' :
  ring_repr tr m h c f ring -> ring !! k = Some b -> blocks m !! b = Some blk ->
  next blk' = next blk -> block_repr tr explicit_context h' c' (f + Z.of_nat k) blk' ->
  (forall q bk, q <> f + Z.of_nat k -> block_repr tr explicit_context h c q bk -> block_repr tr explicit_context h' c' q bk) ->
  ring_repr tr (set_blocks (<[b := blk']> (blocks m)) m) h' c' f ring.
Proof using Type. apply ring_update. Qed.

Lemma ring_weaken (P P' : Z -> Block T -> Prop) m f ring :
  ring_with P m f ring -> (forall k b blk, ring !! k = Some b -> blocks m !! b = Some blk -> P (f + Z.of_nat k) blk -> P' (f + Z.of_nat k) blk) ->
  ring_with P' m f ring.
Proof using Type.
  intros [Hnd Hr] HP. split; [done|]. intros k b Hk. destruct (Hr k b Hk) as (blk & Hb & H & Hn). exists blk. eauto.
Qed.

(** The ring in a memory that agrees on its blocks. *)
Lemma ring_frame (P : Z -> Block T -> Prop) m m' f ring :
  ring_with P m f ring -> (forall b, b ∈ ring -> blocks m' !! b = blocks m !! b) -> ring_with P m' f ring.
Proof using Type.
  intros [Hnd Hr] Hf. split; [done|]. intros k b Hk. rewrite Hf by (by eapply list_elem_of_lookup_2).
  by apply Hr.
Qed.

Lemma ring_repr_frame m m' h c f ring :
  ring_repr tr m h c f ring -> (forall b, b ∈ ring -> blocks m' !! b = blocks m !! b) ->
  ring_repr tr m' h c f ring.
Proof using Type. apply ring_frame. Qed.

(** Reusing the oldest block. *)
Lemma ring_reuse (P : Z -> Block T -> Prop) m f b rest blk blk' :
  ring_with P m f (b :: rest) -> blocks m !! b = Some blk -> next blk' = next blk -> P (f + 1 + zlength rest) blk' ->
  ring_with P (set_blocks (<[b := blk']> (blocks m)) m) (f + 1) (rest ++ [b]).
Proof using Type.
  intros [Hnd Hr] Hb Hnext Hblk. assert (NoDup (rest ++ [b])) as Hnd'.
  { apply NoDup_app. apply NoDup_cons in Hnd as [Hb' Hnd]. split; [done|]. split.
    - intros x Hx ->%list_elem_of_singleton. done.
    - apply NoDup_singleton. }
  split; [done|]. intros k x Hk. cbn.
  pose proof (Hr O b eq_refl) as (blk0 & Hb0 & _ & Hn0). assert (blk0 = blk) as -> by congruence.
  rewrite rot_cons in Hn0.
  apply lookup_app_Some in Hk as [Hk|[Hge Hk]].
  - destruct (Hr (S k) x Hk) as (bk & Hbk & Hrep & Hnk). exists bk.
    rewrite lookup_insert_ne.
    2:{ intros ->. apply NoDup_cons in Hnd as [Hb' _]. apply Hb'. by eapply list_elem_of_lookup_2. }
    split; [done|]. replace (f + 1 + Z.of_nat k) with (f + Z.of_nat (S k)) by lia. split; [done|].
    rewrite rot_cons in Hnk. apply rot_lookup_lt. done.
  - apply list_lookup_singleton_Some in Hk as [Hk ->]. exists blk'. rewrite lookup_insert_eq.
    assert (k = length rest) as -> by lia.
    split; [done|]. split; [done|]. rewrite Hnext. destruct rest as [|b0 rest]; cbn in Hn0 |- *.
    + done.
    + unfold rot. cbn [app drop take]. rewrite drop_0, take_0.
      rewrite lookup_app_r by (rewrite length_app; cbn; lia).
      rewrite length_app. cbn [length]. replace (S (length rest) - (length rest + 1))%nat with O by lia. done.
Qed.

Lemma ring_repr_reuse m h c f b rest blk blk' :
  ring_repr tr m h c f (b :: rest) -> blocks m !! b = Some blk -> next blk' = next blk ->
  block_repr tr explicit_context h c (f + 1 + zlength rest) blk' ->
  ring_repr tr (set_blocks (<[b := blk']> (blocks m)) m) h c (f + 1) (rest ++ [b]).
Proof using Type. apply ring_reuse. Qed.

(** A new block [nb] linked in after the tail block. *)
Lemma ring_new (P : Z -> Block T -> Prop) m m' f ring nb blk' :
  (forall q bk x, P q bk -> P q (set_next x bk)) ->
  ring_with P m f ring -> (nb ∉ ring) ->
  blocks m' !! nb = Some blk' -> next blk' = default nb (head ring) -> P (f + zlength ring) blk' ->
  (forall k b blk, ring !! k = Some b -> blocks m !! b = Some blk ->
     blocks m' !! b = Some (if decide (S k = length ring) then set_next nb blk else blk)) ->
  ring_with P m' f (ring ++ [nb]).
Proof using Type.
  intros HP [Hnd Hr] Hnb Hb' Hnext Hblk Hm. split.
  { apply NoDup_app. split; [done|]. split; [|apply NoDup_singleton].
    by intros x Hx ->%list_elem_of_singleton. }
  intros k x [Hk|[Hge Hk]]%lookup_app_Some.
  - destruct (Hr _ _ Hk) as (blk & Hb & Hrep & Hn). pose proof (lookup_lt_Some _ _ _ Hk) as Hlt.
    rewrite (Hm _ _ _ Hk Hb). eexists. split; [done|].
    case_decide as Hlast.
    + split; [by apply HP|]. apply rot_lookup_lt.
      rewrite lookup_app_r by lia. by replace (S k - length ring)%nat with O by lia.
    + split; [done|]. apply rot_lookup_lt. rewrite lookup_app_l by lia.
      destruct (lookup_lt_is_Some_2 ring (S k)) as [y Hy]; [lia|].
      rewrite Hy. rewrite <- Hn. symmetry. by apply rot_lookup_lt.
  - apply list_lookup_singleton_Some in Hk as [Hk ->]. exists blk'. split; [done|].
    assert (k = length ring) as -> by lia. split; [done|].
    rewrite Hnext. destruct ring as [|b0 ring]; [done|]. unfold rot. cbn [app drop take head default length].
    rewrite drop_0, take_0, lookup_app_r by (rewrite length_app; cbn; lia).
    rewrite length_app. cbn [length]. by replace (S (length ring) - (length ring + 1))%nat with O by lia.
Qed.

Lemma ring_last (P : Z -> Block T -> Prop) m f ring b : ring_with P m f ring -> last ring = Some b ->
  exists blk, blocks m !! b = Some blk /\ P (f + zlength ring - 1) blk /\ Some (next blk) = head ring.
Proof using Type.
  intros [Hnd Hr] Hl. rewrite last_lookup in Hl. destruct (Hr _ _ Hl) as (blk & Hb & Hrep & Hn).
  pose proof (lookup_lt_Some _ _ _ Hl). exists blk. split; [done|]. split.
  - replace (f + zlength ring - 1) with (f + Z.of_nat (pred (length ring))) by (unfold zlength; lia).
    done.
  - rewrite <- Hn. destruct ring as [|b0 ring]; [done|]. rewrite rot_cons. cbn [length pred head].
    by rewrite list_lookup_middle.
Qed.
End ring.

Section enqueue.
Context {U T R : Type} (tr : Traits) `{!TraitsOk tr} (ops : ElementOps U T R).
Context (malloc_ok : nat -> bool) (indeterminate : Indeterminate).
#[local] Abbreviation w := (index_bits tr).
#[local] Abbreviation sb := (size_bits tr).
#[local] Abbreviation B := (BLOCK_SIZE tr).
Implicit Types (h t f : Z) (ring : list loc) (c : list T) (m : Mem T) (s : EState T).

(** The state between finding a block for the next element and publishing
    it: the ring [ring'] ends with that block, [b], and the index still lists
    [ring]. *)
Record prepared s fl h t f ring c f' ring' b : Prop := {
  pr_counters : counters tr (ep_base (prod s)) h t;
  pr_contents : t - h = zlength c;
  pr_tail : tailBlock (ep_base (prod s)) = b;
  pr_push : push f ring f' ring' b;
  pr_pos : t = (f + zlength ring) * B;
  pr_oldest : 0 <= f' /\ f' * B <= h;
  pr_range : (f' + zlength ring') * B - h < 2 ^ (w - 1);
  pr_blocks : zlength ring' * B <= 2 ^ (w - 1);
  pr_index : exists hd, unpublished tr (prod s) f ring (zlength ring') hd;
  pr_headers : headers_inv (prod s) (mem s);
  pr_pool : pool_inv tr (mem s) fl;
  pr_ring : ring_repr tr (mem s) h c f' ring';
  pr_in_use : forall x, x ∈ ring' -> ~ available (mem s) fl x;
  pr_kind : isExplicit (ep_base (prod s)) = true
}.

Lemma at_boundary s fl h t f ring c :
  explicit_inv tr s fl h t f ring c -> t mod B = 0 -> t = (f + zlength ring) * B.
Proof using All.
  intros [] Ht. pose proof (block_size_gt_1 tr).
  destruct ei_last as [Hl|[-> ->]].
  - pose proof (Z.div_mod t B ltac:(lia)). assert (t / B = f + zlength ring) as <- by nia. lia.
  - destruct ei_counters. assert (f = 0) as -> by nia. done.
Qed.

Lemma ring_in_blocks m h c f ring b : ring_repr tr m h c f ring -> b ∈ ring ->
  exists blk, blocks m !! b = Some blk.
Proof using Type.
  intros [_ Hr] [k Hk]%list_elem_of_lookup. destruct (Hr _ _ Hk) as (blk & Hb & _). eauto.
Qed.

Lemma ring_not_null s fl h t f ring c b :
  explicit_inv tr s fl h t f ring c -> b ∈ ring -> b <> nullptr.
Proof using Type.
  intros [] Hb. destruct (ring_in_blocks _ _ _ _ _ _ ei_ring Hb) as [blk Hblk].
  pose proof (pi_addr _ _ _ ei_pool b ltac:(eauto)). unfold nullptr. lia.
Qed.

(** The tail block pointer is null exactly while there are no blocks. *)
Lemma tail_null s fl h t f ring c :
  explicit_inv tr s fl h t f ring c ->
  match ring with
  | [] => tailBlock (ep_base (prod s)) = nullptr
  | b :: _ => exists tb blk, tailBlock (ep_base (prod s)) = tb /\ tb <> nullptr /\ last ring = Some tb /\
      blocks (mem s) !! tb = Some blk /\ next blk = b /\
      block_repr tr explicit_context h c (f + zlength ring - 1) blk
  end.
Proof using Type.
  intros Hinv. pose proof Hinv as []. destruct ring as [|b ring]; [done|].
  destruct (last (b :: ring)) as [tb|] eqn:Hl; [|by apply last_None in Hl].
  destruct (ring_last _ _ _ _ _ ei_ring Hl) as (blk & Hb & Hrep & [= Hn]).
  exists tb, blk. split_and!; try done. eapply ring_not_null; [done|].
  rewrite last_lookup in Hl. by eapply list_elem_of_lookup_2.
Qed.

Lemma next_block_is_empty_spec s fl h t f ring c :
  explicit_inv tr s fl h t f ring c ->
  wp (next_block_is_empty tr) (fun r s' => s' = s /\
    if r : bool then exists b rest, ring = b :: rest /\ (f + 1) * B <= h
    else ring = [] \/ h < (f + 1) * B) nothrow s.
Proof using All.
  intros Hinv. pose proof (tail_null _ _ _ _ _ _ _ Hinv) as Htb. pose proof Hinv as [].
  destruct s as [p m]. cbn in *. unfold next_block_is_empty. ep_steps.
  destruct ring as [|b rest].
  { rewrite Htb, Z.eqb_refl. ep_steps. split; [done|by left]. }
  destruct Htb as (tb & blk & -> & Hn & _ & Hb & Hnx & _). rewrite (proj2 (Z.eqb_neq _ _)) by done.
  ep_steps. eapply wp_block_get; [done|]. rewrite Hnx.
  destruct ei_ring as [_ Hr]. destruct (Hr O b eq_refl) as (blk0 & Hb0 & [] & _).
  rewrite Z.add_0_r in br_dequeued. eapply wp_on_block; [done|].
  eapply wp_mono; [by apply is_empty_spec| |done]. cbn beta. intros r blk' [-> ->].
  rewrite set_blocks_id by done. split; [done|]. pose proof (block_size_gt_1 tr).
  case_bool_decide as E.
  - exists b, rest. split; [done|]. apply offsets_inj in E; lia.
  - right. destruct (decide (h < (f + 1) * B)); [done|]. exfalso. apply E. f_equal. lia.
Qed.

Lemma reuse_next_block_spec s fl h t f b rest c :
  explicit_inv tr s fl h t f (b :: rest) c -> t mod B = 0 -> (f + 1) * B <= h ->
  zlength (b :: rest) * B < 2 ^ (w - 1) ->
  wp (reuse_next_block tr) (fun _ s' =>
    prepared s' fl h t f (b :: rest) c (f + 1) (rest ++ [b]) b /\
    mem_frame (b :: rest) (mem s) fl (rest ++ [b]) (mem s') fl) nothrow s.
Proof using All.
  intros Hinv Ht Hh Hsmall. pose proof (tail_null _ _ _ _ _ _ _ Hinv) as (tb & blk & Etb & _ & _ & Hb & Hnx & _).
  pose proof (at_boundary _ _ _ _ _ _ _ Hinv Ht) as Epos. pose proof Hinv as [].
  destruct s as [p m]. cbn in *. unfold reuse_next_block. ep_steps. rewrite Etb.
  eapply wp_block_get; [done|]. rewrite Hnx. ep_steps.
  pose proof ei_ring as [Hnd Hr]. destruct (Hr O b eq_refl) as (blk0 & Hb0 & Hrep & Hnext).
  rewrite Z.add_0_r in Hrep. eapply wp_on_block; [done|].
  eapply wp_mono; [by eapply reset_empty_spec, br_wf, Hrep| |done]. cbn beta.
  intros _ blk' (Hd & Hwf & Hel & Hnext' & Hdyn). split.
  - destruct ei_counters.
    split; cbn [prod mem set_ep_base ep_base set_tailBlock tailBlock ProducerBase.tailBlock]; try done.
    + constructor.
    + split; [lia|]. lia.
    + rewrite zlength_app. change (zlength [b]) with 1. unfold zlength in *. cbn [length] in *. lia.
    + rewrite zlength_app. change (zlength [b]) with 1. unfold zlength in *. cbn [length] in *. lia.
    + destruct ei_index as (E1 & E2 & E3 & [(hd & Hn & Hix & _)|(_ & [=] & _)]).
      exists hd. assert (zlength (rest ++ [b]) = zlength (b :: rest)) as El.
      { rewrite zlength_app. unfold zlength. cbn [length]. lia. }
      pose proof (ir_room _ _ _ _ _ Hix). rewrite El. split; try done. by eapply index_repr_ext.
    + by eapply pool_inv_update_block; [|exact Hb0|done|apply ei_in_use; left].
    + eapply ring_repr_reuse; [done|done|by rewrite Hnext'|].
      apply block_repr_unused; [done|done| |].
      * intros o Ho. rewrite Hel. eapply content_none_from; [done..| |done]. left. lia.
      * rewrite <- ei_contents. unfold zlength in *. cbn [length] in *. lia.
    + intros x Hx. apply ei_in_use. apply elem_of_app in Hx as [Hx|Hx%list_elem_of_singleton].
      * by right.
      * rewrite Hx. by left.
  - assert (forall l, l ∈ rest ++ [b] <-> l ∈ b :: rest) as Hsame.
    { intros l. rewrite elem_of_app, list_elem_of_singleton, elem_of_cons. tauto. }
    apply mem_frame_intro; [done| | |]; intros l; rewrite ?Hsame; [|done..]. cbn.
    intros [Hlb _]%not_elem_of_cons _. by rewrite lookup_insert_ne.
Qed.

Lemma link_block_spec (P : Z -> Block T -> Prop) p m fl f ring nb blk :
  (forall q bk x, P q bk -> P q (set_next x bk)) ->
  ring_with P m f ring -> (nb ∉ ring) -> blocks m !! nb = Some blk -> P (f + zlength ring) blk ->
  tailBlock (ep_base p) = default nullptr (last ring) -> (nullptr ∉ ring) ->
  pool_inv tr m fl -> (forall x, x ∈ ring ++ [nb] -> ~ available m fl x) ->
  wp (link_block nb) (fun _ s' => exists bs,
    s' = mkEState (set_ep_base (set_tailBlock nb (ep_base p)) p) (set_blocks bs m) /\
    ring_with P (set_blocks bs m) f (ring ++ [nb]) /\ pool_inv tr (set_blocks bs m) fl /\
    (forall l, (l ∉ ring) -> l <> nb -> bs !! l = blocks m !! l)) nothrow (mkEState p m).
Proof using Type.
  intros HP Hring Hnb Hb Hrep Htail Hnull Hpool Hav. unfold link_block. ep_steps. rewrite Htail.
  assert (~ available m fl nb) as Havnb by (apply Hav, elem_of_app; right; by left).
  destruct (last ring) as [tb|] eqn:Hl; cbn.
  - pose proof Hl as Hl'. rewrite last_lookup in Hl'. pose proof (list_elem_of_lookup_2 _ _ _ Hl') as Hin.
    destruct (ring_last _ _ _ _ _ Hring Hl) as (tblk & Htb & Htrep & Hhead).
    assert (tb <> nb) as Hne by (by intros ->).
    rewrite (proj2 (Z.eqb_neq _ _)) by (by intros ->). ep_steps.
    eapply wp_block_get; [done|]. ep_steps. eapply wp_on_block; [done|]. ep_steps.
    eapply wp_on_block; [cbn; by rewrite lookup_insert_ne|]. ep_steps. cbn [blocks set_blocks].
    eexists. split; [done|]. split; [|split].
    + eapply (ring_new P m); [done|done|done| | |by apply HP|].
      * cbn. rewrite lookup_insert_ne by done. apply lookup_insert_eq.
      * cbn. by rewrite <- Hhead.
      * intros k x xblk Hk Hx. cbn. case_decide as Hlast.
        -- assert (x = tb) as -> by (rewrite <- Hlast in Hl'; cbn in Hl'; congruence).
           assert (xblk = tblk) as -> by congruence. apply lookup_insert_eq.
        -- rewrite !lookup_insert_ne; [done|intros ->; apply Hnb; by eapply list_elem_of_lookup_2|].
           intros ->. apply Hlast. destruct Hring as [Hnd _].
           pose proof (NoDup_lookup _ _ _ _ Hnd Hk Hl'). pose proof (lookup_lt_Some _ _ _ Hk). lia.
    + refine (pool_inv_update_block tr (set_blocks (<[nb := set_next (next tblk) blk]> (blocks m)) m)
        fl tb tblk (set_next nb tblk) _ _ _ _).
      * by eapply pool_inv_update_block.
      * cbn. by rewrite lookup_insert_ne.
      * done.
      * apply Hav. apply elem_of_app. by left.
    + intros l Hlr Hlnb. rewrite !lookup_insert_ne; [done|done|]. intros ->. done.
  - apply last_None in Hl as ->. eapply wp_on_block; [done|]. ep_steps.
    eexists. split; [done|]. split; [|split].
    + eapply (ring_new P m); [done|done|done|cbn; apply lookup_insert_eq|done|by apply HP|by intros ??? [=]].
    + by eapply pool_inv_update_block.
    + intros l _ Hl. by rewrite lookup_insert_ne.
Qed.

Lemma grown_inv p m f ring p' m' :
  index_inv tr p f ring -> grown tr (zlength ring) p m f ring p' m' ->
  index_inv tr p' f ring /\ blockIndex p' <> nullptr /\ zlength ring + 1 <= pr_blockIndexSize p'.
Proof using Type.
  intros Hix ((E1 & E2 & E3 & Hcase) & Hn & Hpf & Hsz).
  destruct Hcase as [(hd & _ & Hr & Hf)|[? _]]; [|done]. pose proof Hr as [].
  pose proof (zlength_nonneg ring).
  assert (1 <= pr_blockIndexSize p /\ zlength ring <= pr_blockIndexSize p) as [].
  { destruct Hix as (_ & _ & _ & [(hd0 & _ & [] & _)|(_ & -> & k & Hk & ->)]).
    - lia.
    - pose proof (Z.pow_pos_nonneg 2 k ltac:(lia) ltac:(lia)). change (zlength (@nil loc)) with 0. lia. }
  split; [|split; [done|lia]]. split; [done|]. split; [done|]. split; [done|]. left.
  exists hd. split; [done|]. split; [done|]. intros Hne. rewrite Hf, Hpf.
  assert (0 < zlength ring) by (destruct ring; [done|unfold zlength; cbn; lia]).
  destruct ir_pow as (k & Hk & Ek). pose proof (Z.pow_lt_mono_r 2 k sb ltac:(lia) ltac:(lia) ltac:(lia)).
  rewrite wrap_small, Z.mod_small; lia.
Qed.

Lemma ensure_index_spec allocMode p m fl f ring :
  index_inv tr p f ring -> headers_inv p m -> pool_inv tr m fl ->
  zlength ring * B < 2 ^ (sb - 1) ->
  wp (ensure_index tr malloc_ok allocMode) (fun ok s' =>
    exists p' m', s' = mkEState p' m' /\ allocated m m' /\ ep_base p' = ep_base p /\
      headers_inv p' m' /\ index_inv tr p' f ring /\
      if ok : bool then blockIndex p' <> nullptr /\ zlength ring + 1 <= pr_blockIndexSize p'
      else no_memory malloc_ok allocMode) nothrow (mkEState p m : EState T).
Proof using All.
  intros Hix Hh Hpool Hsmall. pose proof Hix as (Eused & Eraw & Eent & Hcase).
  pose proof (block_size_gt_1 tr). pose proof (zlength_nonneg ring).
  unfold ensure_index. ep_steps. rewrite Eraw, Eused.
  destruct (Z.eqb_spec (blockIndex p) nullptr) as [Hnull|Hnull];
    [|destruct (Z.eqb_spec (zlength ring) (pr_blockIndexSize p)) as [Hfull|Hfull]]; cbn [orb].
  3:{ ep_step. exists p, m. split_and!; try done; [apply allocated_refl|].
      destruct Hcase as [(hd & _ & [] & _)|[? _]]; [|done]. lia. }
  all: assert (blockIndex p <> nullptr -> 2 * pr_blockIndexSize p < 2 ^ sb) as Hsize
    by (first [by intros ?|intros _; pose proof (size_le_index tr);
          pose proof (pow_half (w := sb) ltac:(lia)); nia]).
  all: clear Hcase; destruct allocMode;
    [|ep_steps; exists p, m; split_and!; try done; [apply allocated_refl|by left]].
  all: eapply wp_mono; [by eapply new_block_index_spec| |done]; cbn beta.
  all: intros ok s' (a & p' & -> & Ha & Eb & Hh' & Hok & Hgrown); exists p'; eexists.
  all: split; [done|]; split; [by eexists _, _|]; split; [done|]; split; [done|].
  all: destruct ok; [|rewrite Hgrown; split; [done|right; by eexists]].
  all: by eapply grown_inv.
Qed.

(** The invariant of the producer in a memory that differs from its own in
    blocks it does not have. *)
Lemma explicit_inv_frame s fl h t f ring c p' m' fl' :
  explicit_inv tr s fl h t f ring c ->
  ep_base p' = ep_base (prod s) -> headers_inv p' m' -> index_inv tr p' f ring ->
  pool_inv tr m' fl' ->
  (forall b, b ∈ ring -> blocks m' !! b = blocks (mem s) !! b /\ ~ available m' fl' b) ->
  explicit_inv tr (mkEState p' m') fl' h t f ring c.
Proof using Type.
  intros [] Eb Hh Hix Hpool Hf. split; cbn; rewrite ?Eb; try done.
  - eapply ring_repr_frame; [done|]. intros b Hb. by apply Hf.
  - intros b Hb. by apply Hf.
Qed.

Lemma add_new_block_spec allocMode s fl h t f ring c :
  explicit_inv tr s fl h t f ring c -> t mod B = 0 -> zlength ring * B < 2 ^ (sb - 1) ->
  wp (add_new_block tr malloc_ok indeterminate allocMode (wrap w t)) (fun ok s' => exists fl',
    if ok : bool then exists nb,
      prepared s' fl' h t f ring c f (ring ++ [nb]) nb /\ has_room tr h t /\
      mem_frame ring (mem s) fl (ring ++ [nb]) (mem s') fl'
    else explicit_inv tr s' fl' h t f ring c /\ mem_frame ring (mem s) fl ring (mem s') fl' /\
      (~ has_room tr h t \/ no_memory malloc_ok allocMode)) nothrow s.
Proof using All.
  intros Hinv Ht Hsmall. pose proof (at_boundary _ _ _ _ _ _ _ Hinv Ht) as Epos.
  pose proof (half_size_index tr _ Hsmall) as Hsmall'. pose proof (zlength_nonneg ring).
  pose proof (block_size_gt_1 tr) as HB. pose proof (size_le_index tr) as Hsz.
  pose proof Hinv as []. pose proof ei_counters as [Etail Ehead _ Hle]. destruct s as [p m]. cbn in *.
  assert (t - h < 2 ^ (w - 1)) as Hdist by lia.
  unfold add_new_block. ep_steps.
  { unfold lessi. rewrite Ehead, circular_less_than_wrap by lia.
    destruct (Z.ltb_spec t h); [lia|done]. }
  rewrite Ehead. destruct (no_room tr (wrap w h) (wrap w t)) eqn:Eroom.
  { ep_steps. exists fl. split; [done|]. split; [apply mem_frame_refl|]. left.
    intros Hroom%(no_room_spec tr); [congruence|lia|done]. }
  apply (no_room_spec tr) in Eroom; [|lia|done].
  ep_steps. eapply wp_mono; [by eapply ensure_index_spec| |done]. cbn beta.
  intros ok s1 (p1 & m1 & -> & Ham & Eb & Hh1 & Hix1 & Hok).
  pose proof (allocated_blocks _ _ Ham) as Ebl. pose proof (allocated_pool tr _ _ _ Ham ei_pool) as Hpool1.
  assert (forall l, available m1 fl l <-> available m fl l) as Hav1 by (intros; by apply allocated_available).
  destruct ok; cbn [negb].
  2:{ ep_steps. exists fl. split; [|split; [|by right]].
      - eapply (explicit_inv_frame (mkEState p m)); try done. intros b Hb. rewrite Hav1, Ebl. auto.
      - by apply mem_frame_allocated. }
  destruct Hok as [Hn1 Hroom1].
  ep_steps. apply wp_with_mem.
  eapply wp_mono; [by eapply requisition_block_spec| |done]. cbn beta.
  intros nb m2 (fl2 & Hpool2 & Hna2 & Hnb). destruct (Z.eqb_spec nb nullptr) as [->|Hnb0].
  { destruct Hnb as (Ebl2 & Hav2 & Hnone & Hfail). ep_steps. exists fl2. split; [|split].
    - eapply (explicit_inv_frame (mkEState p m)); try done.
      + destruct Hh1 as [Hc Ha]. split; [done|]. intros x Hx%Ha. lia.
      + intros b Hb. cbn. rewrite Ebl2, Ebl. split; [done|]. intros Hl%Hav2%Hav1. by apply (ei_in_use b).
    - eapply mem_frame_trans; [by apply mem_frame_allocated|by apply mem_frame_refused].
    - right. destruct Hfail as [|Hfail]; [by left|right; by eexists]. }
  destruct Hnb as (Hfresh & Hframe & blk & Hblk & Hwf & Hel).
  assert (nb ∉ ring) as Hnbr.
  { intros Hin. destruct (ring_in_blocks _ _ _ _ _ _ ei_ring Hin) as [bk Hbk].
    destruct Hfresh as [Hl%Hav1|[Hl _]]; [by apply (ei_in_use nb)|]. rewrite Ebl in Hl. congruence. }
  ep_steps. eapply wp_on_block; [done|].
  eapply wp_mono; [by eapply reset_empty_spec| |done]. cbn beta.
  intros _ blk' (Hd & Hwf' & Hel' & _ & Hdyn). ep_steps.
  set (m3 := set_blocks (<[nb := blk']> (blocks m2)) m2).
  assert (forall x, x ∈ ring -> blocks m3 !! x = blocks m !! x) as Hring3.
  { intros x Hx. cbn. rewrite lookup_insert_ne by (by intros ->).
    rewrite (proj1 Hframe), Ebl; [done|]. by intros ->. }
  assert (forall x, x ∈ ring ++ [nb] -> ~ available m3 fl2 x) as Hav3.
  { intros x [Hx|Hx%list_elem_of_singleton]%elem_of_app Hl; apply (proj2 Hframe) in Hl as [Hl Hne];
      [|done]. by apply (ei_in_use x Hx), Hav1. }
  assert (pool_inv tr m3 fl2) as Hpool3.
  { eapply pool_inv_update_block; [done|exact Hblk|done|]. apply Hav3, elem_of_app. right. by left. }
  eapply wp_mono; [eapply (link_block_spec (block_repr tr explicit_context h c) p1 m3 fl2 f ring nb blk')| |done].
  - intros. by apply block_repr_set_next.
  - by eapply ring_frame.
  - done.
  - apply lookup_insert_eq.
  - apply block_repr_unused; [done|done| |lia]. intros o Ho. rewrite Hel', Hel.
    apply zlookup_replicate. lia.
  - by rewrite Eb.
  - intros Hin. by apply (ring_not_null _ _ _ _ _ _ _ _ Hinv Hin).
  - done.
  - done.
  - cbn beta. intros _ s4 (bs & -> & Hring4 & Hpool4 & Hrest). ep_steps. exists fl2, nb.
    split; [|split; [done|]].
    + destruct ei_counters.
      assert (zlength (ring ++ [nb]) = zlength ring + 1) as El by (by rewrite zlength_app).
      split; cbn [prod mem set_ep_base ep_base set_slotsUsed]; rewrite ?Eb; try done.
      * constructor.
      * rewrite El. pose proof Eroom as [? _]. lia.
      * rewrite El. by apply round_up_half.
      * destruct Hix1 as (E1 & E2 & E3 & [(hd & _ & Hr1 & _)|[? _]]); [|done].
        exists hd. split; cbn; try done.
        -- rewrite E1, El. apply wrap_small. assert (0 < sb) as Hsb by lia.
           pose proof (pow_half Hsb). pose proof (pow_half_pos Hsb). nia.
        -- by eapply index_repr_ext.
        -- rewrite El. by destruct Hr1; lia.
      * destruct Hh1 as [Hc Ha]. split; [done|]. intros x Hx%Ha. cbn. lia.
    + eapply mem_frame_trans; [by apply mem_frame_allocated|].
      apply (mem_frame_blocks ring m1 fl (ring ++ [nb]) m2 fl2 bs); [apply mem_frame_taken; [done|done|tauto]|].
      intros l [Hlr Hlb%not_elem_of_cons]%not_elem_of_app. rewrite Hrest by tauto. cbn. by rewrite lookup_insert_ne by (intros ->; tauto).
Qed.

(** The construction of the new element. *)
Lemma new_T_spec p m fl h t c f ring b u v :
  ring_repr tr m h c f ring -> last ring = Some b -> pool_inv tr m fl ->
  (forall x, x ∈ ring -> ~ available m fl x) ->
  t = h + zlength c -> (f + zlength ring - 1) * B <= t < (f + zlength ring) * B ->
  make ops u = Some v ->
  wp (new_T tr ops b (wrap w t) u) (fun _ s' => exists bs,
    s' = mkEState p (set_blocks bs m) /\ ring_repr tr (set_blocks bs m) h (c ++ [v]) f ring /\
    pool_inv tr (set_blocks bs m) fl /\ (forall l, (l ∉ ring) -> bs !! l = blocks m !! l))
    nothrow (mkEState p m).
Proof using All.
  intros Hring Hl Hpool Hav Et Hpos Hmake. pose proof (block_size_gt_1 tr).
  destruct (ring_last _ _ _ _ _ Hring Hl) as (blk & Hb & Hrep & _).
  pose proof Hl as Hl'. rewrite last_lookup in Hl'. pose proof (lookup_lt_Some _ _ _ Hl').
  assert (f + Z.of_nat (pred (length ring)) = f + zlength ring - 1) as Eq by (unfold zlength; lia).
  destruct (block_repr_construct tr explicit_context h c v _ _ Hrep) as [Hslot Hrep']; [rewrite <- Et; lia|].
  assert (offset tr (wrap w t) = h + zlength c - (f + zlength ring - 1) * B) as Eo.
  { rewrite offset_eq, index_mod_block by done. rewrite <- Et. symmetry.
    apply Z.mod_unique_pos with (f + zlength ring - 1); lia. }
  unfold new_T. rewrite Hmake. eapply wp_on_block; [done|]. unfold construct. rewrite Eo.
  ep_steps; [done|]. ep_steps. eexists. split; [done|]. split; [|split].
  - eapply ring_repr_update; [exact Hring|exact Hl'|done|done|by rewrite Eq|].
    intros q bk Hq Hbk. apply block_repr_snoc_other; [done|]. rewrite <- Et. nia.
  - eapply pool_inv_update_block; [done|exact Hb|done|]. apply Hav. by eapply list_elem_of_lookup_2.
  - intros l Hlr. rewrite lookup_insert_ne; [done|]. intros ->. apply Hlr.
    by eapply list_elem_of_lookup_2.
Qed.

(** The final store of [tailIndex]. *)
Lemma explicit_inv_stored p m fl h t f ring c v pb :
  counters tr pb h t -> t - h = zlength c -> tailBlock pb = default nullptr (last ring) ->
  0 <= f /\ f * B <= h -> (f + zlength ring - 1) * B <= t < (f + zlength ring) * B ->
  (f + zlength ring) * B - h < 2 ^ (w - 1) -> zlength ring * B <= 2 ^ (w - 1) ->
  index_inv tr p f ring -> headers_inv p m -> pool_inv tr m fl ->
  ring_repr tr m h (c ++ [v]) f ring -> (forall b, b ∈ ring -> ~ available m fl b) ->
  isExplicit pb = true -> explicit_inv tr (mkEState (set_ep_base (set_tailIndex (wrap w (1 + wrap w t)) pb) p) m)
    fl h (t + 1) f ring (c ++ [v]).
Proof using Type.
  intros [] ?????? Hix ?????. split; cbn; try done.
  - split; cbn; try done; [|lia]. by rewrite wrap_add_r, Z.add_comm.
  - rewrite zlength_app. change (zlength [v]) with 1. lia.
  - lia.
  - by apply index_inv_base.
Qed.

(** A successful or failed search for a block at a block boundary. *)
Lemma find_block_spec allocMode s fl h t f ring c :
  explicit_inv tr s fl h t f ring c -> t mod B = 0 -> zlength ring * B < 2 ^ (sb - 1) ->
  wp (find_block tr malloc_ok indeterminate allocMode (wrap w t)) (fun ok s' => exists fl',
    if ok : bool then exists f' ring' b,
      prepared s' fl' h t f ring c f' ring' b /\ mem_frame ring (mem s) fl ring' (mem s') fl'
    else explicit_inv tr s' fl' h t f ring c /\ mem_frame ring (mem s) fl ring (mem s') fl' /\
      (~ has_room tr h t \/ no_memory malloc_ok allocMode)) nothrow s.
Proof using All.
  intros Hinv Ht Hsmall. unfold find_block. wp_step.
  eapply wp_mono; [by eapply next_block_is_empty_spec| |done].
  cbn beta. intros reuse s1 [-> Hreuse]. destruct reuse.
  - destruct Hreuse as (b & rest & -> & Hh). wp_step.
    eapply wp_mono; [eapply reuse_next_block_spec; [done|done|done|]| |done].
    { by apply half_size_index. }
    cbn beta. intros _ s2 [Hp Hf]. wp_step. exists fl, (f + 1), (rest ++ [b]), b. done.
  - eapply wp_mono; [by eapply add_new_block_spec| |done]. cbn beta.
    intros ok s2 (fl2 & H2). exists fl2. destruct ok; [|done].
    destruct H2 as (nb & Hp & _ & Hf). by eexists _, _, _.
Qed.

Definition enqueued allocMode s fl h t f ring c v (ok : bool) s' : Prop :=
  exists fl' f' ring', mem_frame ring (mem s) fl ring' (mem s') fl' /\
    zlength ring' <= zlength ring + 1 /\
    if ok then explicit_inv tr s' fl' h (t + 1) f' ring' (c ++ [v])
    else explicit_inv tr s' fl' h t f' ring' c /\ t mod B = 0 /\
      (~ has_room tr h t \/ no_memory malloc_ok allocMode).

(** Within a block: construct, then publish the element. *)
Lemma enqueue_inside allocMode u v s fl h t f ring c :
  explicit_inv tr s fl h t f ring c -> make ops u = Some v -> t mod B <> 0 ->
  wp (enqueue tr ops malloc_ok indeterminate allocMode u)
    (enqueued allocMode s fl h t f ring c v) nothrow s.
Proof using All.
  intros Hinv Hmake Ht. pose proof Hinv as []. pose proof ei_counters as [Etail _ _ Hle].
  destruct s as [p m]. cbn in *. unfold enqueue. ep_steps. rewrite Etail, (in_block_wrap tr).
  rewrite (proj2 (Z.eqb_neq _ _)) by done. ep_steps.
  destruct ei_last as [Hpos|[-> ->]]; [|by rewrite Z.mod_0_l in Ht by (pose proof (block_size_gt_1 tr); lia)].
  assert ((f + zlength ring - 1) * B <= t < (f + zlength ring) * B) as Hpos'.
  { split; [lia|]. pose proof (block_size_gt_1 tr).
    assert (t <> (f + zlength ring) * B); [|lia]. intros Et. apply Ht. rewrite Et.
    apply Z.mod_mul. lia. }
  assert (exists b, last ring = Some b) as [b Hb].
  { destruct (last ring) as [b|] eqn:E; [by exists b|]. apply last_None in E as ->.
    change (zlength (@nil loc)) with 0 in *. nia. }
  rewrite ei_tail, Hb. cbn [default from_option id].
  eapply wp_mono; [eapply (new_T_spec p m fl h t c f ring b u v); done || lia| |done].
  cbn beta. intros _ s1 (bs & -> & Hring1 & Hpool1 & Hrest). ep_steps.
  exists fl, f, ring. cbn. split; [by apply mem_frame_blocks; [apply mem_frame_refl|]|].
  split; [lia|]. eapply explicit_inv_stored; done.
Qed.

(** The two orders of construction and publication at a block boundary. *)
Lemma publish_construct p m fl h t f ring c f' ring' b u v hd :
  prepared (mkEState p m) fl h t f ring c f' ring' b ->
  unpublished tr p f ring (zlength ring') hd -> make ops u = Some v ->
  wp (publish_block tr (wrap w t)) (fun _ s1 => exists p',
    s1 = mkEState p' m /\ ep_base p' = ep_base p /\ index_inv tr p' f' ring' /\ headers_inv p' m)
    nothrow (mkEState p m).
Proof using All.
  intros [] Hup Hmake. cbn in *.
  eapply publish_block_spec; [done|done|done| |done]. by rewrite <- pr_pos0.
Qed.

Lemma prepared_pos s fl h t f ring c f' ring' b :
  prepared s fl h t f ring c f' ring' b ->
  last ring' = Some b /\ (f' + zlength ring' - 1) * B <= t < (f' + zlength ring') * B /\
  t = h + zlength c.
Proof using All.
  intros []. pose proof (push_length _ _ _ _ _ pr_push0) as [Hlen Hlast].
  pose proof (block_size_gt_1 tr). split; [done|]. rewrite Hlen. split; [nia|lia].
Qed.

Lemma enqueue_boundary allocMode u v s fl h t f ring c :
  explicit_inv tr s fl h t f ring c -> make ops u = Some v -> t mod B = 0 ->
  zlength ring * B < 2 ^ (sb - 1) ->
  wp (enqueue tr ops malloc_ok indeterminate allocMode u)
    (enqueued allocMode s fl h t f ring c v) nothrow s.
Proof using All.
  intros Hinv Hmake Ht Hsmall. pose proof (find_block_spec allocMode _ _ _ _ _ _ _ Hinv Ht Hsmall) as Hfind.
  pose proof (ei_counters _ _ _ _ _ _ _ _ Hinv) as [Etail _ _ Hle].
  destruct s as [p m]. cbn in *. unfold enqueue. ep_steps. rewrite Etail, (in_block_wrap tr), Ht.
  cbn [Z.eqb]. ep_steps. eapply wp_mono; [exact Hfind| |done]. clear Hfind.
  cbn beta. intros ok s1 (fl1 & H1). destruct ok; cbn [negb].
  2:{ destruct H1 as (Hinv1 & Hf & Hwhy). ep_step. exists fl1, f, ring. split; [done|]. split; [lia|done]. }
  destruct H1 as (f' & ring' & b & Hprep & Hf). destruct s1 as [p1 m1].
  pose proof (prepared_pos _ _ _ _ _ _ _ _ _ _ Hprep) as (Hlast & Hpos & Et).
  pose proof Hprep as []. cbn in *. destruct pr_index0 as [hd Hup].
  assert (forall p2 bs pb, ep_base p2 = pb -> counters tr pb h t -> tailBlock pb = b -> isExplicit pb = true ->
    index_inv tr p2 f' ring' -> headers_inv p2 m1 ->
    ring_repr tr (set_blocks bs m1) h (c ++ [v]) f' ring' -> pool_inv tr (set_blocks bs m1) fl1 ->
    (forall l, (l ∉ ring') -> bs !! l = blocks m1 !! l) ->
    enqueued allocMode (mkEState p m) fl h t f ring c v true
      (mkEState (set_ep_base (set_tailIndex (wrap w (1 + wrap w t)) pb) p2) (set_blocks bs m1))) as Hdone.
  { intros p2 bs pb Epb Hc Htb Hkind Hix Hh Hring Hpool Hrest. exists fl1, f', ring'.
    split; [by apply mem_frame_blocks|]. split.
    { destruct pr_push0; rewrite zlength_app; unfold zlength; cbn [length]; lia. }
    eapply explicit_inv_stored; try done. by rewrite Htb, Hlast. }
  destruct (noexcept_ctor ops); cbn [negb].
  - ep_steps. eapply wp_mono; [by eapply publish_construct| |done]. cbn beta.
    intros _ s2 (p2 & -> & Eb2 & Hix2 & Hh2). ep_steps. rewrite Eb2, pr_tail0.
    eapply wp_mono; [by eapply new_T_spec| |done]. cbn beta.
    intros _ s3 (bs & -> & Hring3 & Hpool3 & Hrest3). ep_steps. rewrite Eb2. by apply Hdone.
  - ep_steps. apply wp_try_catch. rewrite pr_tail0.
    eapply wp_mono; [by eapply new_T_spec| |done]. cbn beta.
    intros _ s3 (bs & -> & Hring3 & Hpool3 & Hrest3). ep_steps.
    eapply wp_mono; [eapply (publish_block_spec tr p1 (set_blocks bs m1)); try done| |done].
    { by rewrite <- pr_pos0. }
    cbn beta. intros _ s2 (p2 & -> & Eb2 & Hix2 & Hh2). ep_steps. rewrite Eb2. by apply Hdone.
Qed.

(** [enqueue] appends the element, or changes nothing of the queue and
    reports why it failed. *)
Lemma enqueue_spec allocMode u v s fl h t f ring c :
  explicit_inv tr s fl h t f ring c -> make ops u = Some v -> zlength ring * B < 2 ^ (sb - 1) ->
  wp (enqueue tr ops malloc_ok indeterminate allocMode u)
    (enqueued allocMode s fl h t f ring c v) nothrow s.
Proof using All.
  intros. destruct (decide (t mod B = 0)); [by apply enqueue_boundary|by apply enqueue_inside].
Qed.
End enqueue.

Section dequeue.
Context {U T R : Type} (tr : Traits) `{!TraitsOk tr} (ops : ElementOps U T R).
#[local] Abbreviation w := (index_bits tr).
#[local] Abbreviation B := (BLOCK_SIZE tr).
Implicit Types (h t f : Z) (ring : list loc) (c : list T) (m : Mem T) (s : EState T).

Lemma explicit_inv_dist s fl h t f ring c :
  explicit_inv tr s fl h t f ring c -> 0 <= h <= t /\ t - h < 2 ^ (w - 1).
Proof using TraitsOk0.
  intros []. destruct ei_counters. split; [done|].
  assert (0 < 2 ^ (w - 1)) by (apply Z.pow_pos_nonneg; pose proof (size_le_index tr); lia).
  destruct ei_last as [|[_ ->]]; lia.
Qed.

(** The block that holds the index [x] of a queued element. *)
Lemma find_block_of s fl h t f ring c x :
  explicit_inv tr s fl h t f ring c -> h <= x < t ->
  exists k b blk, ring !! k = Some b /\ x / B = f + Z.of_nat k /\
    blocks (mem s) !! b = Some blk /\ block_repr tr explicit_context h c (f + Z.of_nat k) blk /\
    (f + Z.of_nat k) * B <= x < (f + Z.of_nat k + 1) * B /\
    offset tr (wrap w x) = x - (f + Z.of_nat k) * B.
Proof using TraitsOk0.
  intros [] Hx. pose proof (block_size_gt_1 tr). destruct ei_last as [Hl|[-> ->]].
  2:{ destruct ei_counters. lia. }
  pose proof (Z.div_mod x B ltac:(lia)) as Hdm. pose proof (Z.mod_pos_bound x B ltac:(lia)).
  assert (f <= x / B < f + zlength ring) as Hq by nia.
  destruct (lookup_lt_is_Some_2 ring (Z.to_nat (x / B - f))) as [b Hb]; [unfold zlength in *; lia|].
  destruct ei_ring as [_ Hr]. destruct (Hr _ _ Hb) as (blk & Hblk & Hrep & _).
  exists (Z.to_nat (x / B - f)), b, blk.
  assert (f + Z.of_nat (Z.to_nat (x / B - f)) = x / B) as E by lia. rewrite E in *.
  split_and!; try done; try nia. rewrite offset_eq, index_mod_block by done. lia.
Qed.

(** Destroying the head element and marking its slot. *)
Lemma finish_spec p m fl h t f ring v c k b blk :
  ring_repr tr m h (v :: c) f ring -> pool_inv tr m fl ->
  (forall x, x ∈ ring -> ~ available m fl x) ->
  ring !! k = Some b -> blocks m !! b = Some blk -> block_repr tr explicit_context h (v :: c) (f + Z.of_nat k) blk ->
  (f + Z.of_nat k) * B <= h < (f + Z.of_nat k + 1) * B ->
  offset tr (wrap w h) = h - (f + Z.of_nat k) * B ->
  wp (on_block b (destroy_element tr (wrap w h));; on_block b (set_empty tr explicit_context (wrap w h)))
    (fun _ s' => exists bs, s' = mkEState p (set_blocks bs m) /\
       ring_repr tr (set_blocks bs m) (h + 1) c f ring /\ pool_inv tr (set_blocks bs m) fl /\
       (forall l, (l ∉ ring) -> bs !! l = blocks m !! l)) nothrow (mkEState p m).
Proof using All.
  intros Hring Hpool Hav Hk Hb Hrep Hpos Eo. pose proof (block_size_gt_1 tr).
  assert (zlookup (elements blk) (offset tr (wrap w h)) = Some (Some v)) as Hslot.
  { destruct Hrep. rewrite Eo, br_elements by lia.
    replace ((f + Z.of_nat k) * B + (h - (f + Z.of_nat k) * B)) with h by lia. by rewrite content_head. }
  wp_step. eapply wp_on_block; [done|]. unfold destroy_element, read. wp_steps; [done..|]. eapply wp_on_block; [cbn; apply lookup_insert_eq|].
  set (blk1 := set_elements _ blk). pose proof Hrep as [[] [] _].
  eapply wp_mono; [eapply (set_empty_spec tr explicit_context (offsets 0 (Z.min B (h - (f + Z.of_nat k) * B))) blk1)| |done].
  - split; [cbn; by rewrite zlength_zinsert|done].
  - by split.
  - rewrite Eo, elem_of_offsets. lia.
  - cbn beta. intros r blk' [Hupd _]. cbn. rewrite insert_insert_eq. eexists. split; [done|].
    rewrite Eo in Hupd. split; [|split].
    + eapply ring_repr_update; [exact Hring|exact Hk|done| | |].
      * by destruct Hupd as (_ & _ & _ & ? & _).
      * eapply block_repr_destroy; [done|done|]. subst blk1. by rewrite Eo in Hupd.
      * intros q bk Hq Hbk. eapply block_repr_tail_other; [done|]. nia.
    + eapply pool_inv_update_block; [done|exact Hb|by destruct Hupd as (_ & _ & _ & _ & ?)|]. apply Hav. by eapply list_elem_of_lookup_2.
    + intros l Hlr. rewrite lookup_insert_ne; [done|]. intros ->. apply Hlr.
      by eapply list_elem_of_lookup_2.
Qed.

(** The invariant after [n] elements were claimed and consumed. *)
Lemma explicit_inv_advance p m fl h t f ring c n pb bs c' :
  explicit_inv tr (mkEState p m) fl h t f ring c ->
  0 <= n -> counters tr pb (h + n) t -> same_tail (ep_base p) pb -> zlength c' = zlength c - n ->
  ring_repr tr (set_blocks bs m) (h + n) c' f ring -> pool_inv tr (set_blocks bs m) fl ->
  explicit_inv tr (mkEState (set_ep_base pb p) (set_blocks bs m)) fl (h + n) t f ring c'.
Proof using Type.
  intros [] Hn Hc (_ & Htb & Hkind) Hlen Hring Hpool. cbn in *. split; cbn; try done; try lia; try congruence.
  by apply index_inv_base.
Qed.

(** A [noexcept] assignment does not throw. *)
Context (Hnoexcept : noexcept_assign ops = true -> forall v, assign ops v <> None).

Definition dequeued_one s fl h t f ring c' s' : Prop :=
  explicit_inv tr s' fl (h + 1) t f ring c' /\ mem_frame ring (mem s) fl ring (mem s') fl.

(** [dequeue] removes the oldest element and hands it over, also when the
    assignment to the caller's object throws; it returns [false] exactly on
    an empty queue, which it leaves as it is. *)
Lemma dequeue_spec s fl h t f ring c :
  explicit_inv tr s fl h t f ring c ->
  wp (dequeue tr ops) (fun r s' =>
      match c with
      | [] => r = None /\ s' = s
      | v :: c' => is_Some r /\ r = assign ops v /\ dequeued_one s fl h t f ring c' s'
      end)
    (fun s' => exists v c', c = v :: c' /\ assign ops v = None /\
       dequeued_one s fl h t f ring c' s') s.
Proof using All.
  intros Hinv. pose proof (explicit_inv_dist _ _ _ _ _ _ _ Hinv) as [Hle Hdist].
  pose proof (ei_counters _ _ _ _ _ _ _ _ Hinv) as Hcnt. pose proof (ei_contents _ _ _ _ _ _ _ _ Hinv) as Hlen.
  destruct s as [p m]. cbn [prod mem ep_base] in *.
  destruct (claim_one_spec tr (ep_base p) h t Hcnt Hdist) as (pb & Eclaim & Hc').
  unfold dequeue. wp_step. eapply wp_with_base; [exact Eclaim|]. clear Eclaim.
  destruct c as [|v c'].
  { change (zlength (@nil T)) with 0 in Hlen. rewrite (proj2 (Z.ltb_ge h t)) in * by lia.
    subst pb. wp_step. split; [done|]. by destruct p. }
  assert (h < t) as Hlt by (unfold zlength in Hlen; cbn in Hlen; lia).
  rewrite (proj2 (Z.ltb_lt h t)) in * by done. destruct Hc' as [Hc' Hsame].
  destruct (find_block_of _ _ _ _ _ _ _ h Hinv ltac:(lia)) as
    (k & b & blk & Hk & Hq & Hb & Hrep & Hpos & Eo). cbn in Hb. pose proof Hinv as []. cbn [prod mem ep_base] in *.
  ep_steps. eapply wp_mono;
    [eapply (index_slot_spec tr (set_ep_base pb p)); [by apply index_inv_base|done..]| |done].
  cbn beta. intros slot s1 (-> & hd & e & Hhd & _ & He & Eb).
  ep_steps. eapply wp_read_entry; [done..|]. rewrite Eb. ep_steps.
  assert (zlookup (elements blk) (offset tr (wrap w h)) = Some (Some v)) as Hslot.
  { destruct Hrep. rewrite Eo, br_elements by lia.
    replace ((f + Z.of_nat k) * B + (h - (f + Z.of_nat k) * B)) with h by lia. by rewrite content_head. }
  eapply wp_on_block; [done|]. unfold read. wp_steps; [done..|]. rewrite set_blocks_id by done.
  assert (zlength c' = zlength (v :: c') - 1) as El by (unfold zlength; cbn; lia).
  destruct (assign ops v) as [r|] eqn:Ha.
  - wp_step. eapply wp_mono; [eapply (finish_spec _ m fl h t); done| |done].
    cbn beta. intros _ s2 (bs & -> & Hring & Hpool & Hrest). wp_step.
    split; [done|]. split; [done|]. split; [|by apply mem_frame_blocks; [apply mem_frame_refl|]].
    by eapply explicit_inv_advance.
  - destruct (noexcept_assign ops); [by destruct (Hnoexcept eq_refl v)|].
    wp_step. eapply wp_mono; [eapply (finish_spec _ m fl h t); done| |done].
    cbn beta. intros _ s2 (bs & -> & Hring & Hpool & Hrest). apply wp_throw.
    exists v, c'. split; [done|]. split; [done|].
    split; [|by apply mem_frame_blocks; [apply mem_frame_refl|]].
    by eapply explicit_inv_advance.
Qed.
End dequeue.
