(* ===== verification/ExplicitBulk.v ===== *)
(** [ExplicitProducer]'s [dequeue_bulk]: it hands over the oldest elements in
    order, and when an assignment throws it destroys the rest of what it has
    claimed. *)

From S2P Require Import Prelude MachineInt Traits FreeList Block BlockPool ProducerBase ProducerBaseProofs ExplicitProducer Contents ExplicitSpec ExplicitIndex ExplicitProofs.

Section loops.
Context {U T R : Type} (tr : Traits) `{!TraitsOk tr} (ops : ElementOps U T R).
Context (Hnoexcept : noexcept_assign ops = true -> forall v, assign ops v <> None).
#[local] Abbreviation w := (index_bits tr).
#[local] Abbreviation sb := (size_bits tr).
#[local] Abbreviation B := (BLOCK_SIZE tr).
Implicit Types (h t f q i n last : Z) (ring : list loc) (c : list T) (m : Mem T) (s : EState T).
Implicit Types (p : ExplicitProducer) (out rs : list R) (blk : Block T).

Lemma wp_inner {A} (g : M (EState T) A) (Q : A -> EState T * list R -> Prop) E s out :
  wp g (fun a s' => Q a (s', out)) (fun s' => E (s', out)) s -> wp (inner g) Q E (s, out).
Proof using Type. intros H. by apply wp_zoom. Qed.

Lemma wp_put r (Q : unit -> EState T * list R -> Prop) E s out :
  Q tt (s, out ++ [r]) -> wp (put r) Q E (s, out).
Proof using Type. done. Qed.

(** The innermost loops, from [i] to [stop]. *)
Lemma move_until_spec fuel i stop p m h c q b blk0 blk out :
  cleared tr h c q i blk0 blk -> q * B <= h -> h <= i <= stop -> stop <= (q + 1) * B ->
  stop <= h + zlength c -> stop - i <= Z.of_nat fuel ->
  wp (move_until tr ops fuel b (wrap w i) (wrap w stop)) (fun r so => exists j blk' rs,
      so = (mkEState p (put_block b blk' m), out ++ rs) /\ cleared tr h c q j blk0 blk' /\
      i <= j <= stop /\ r.1 = wrap w j /\
      moved ops (take (Z.to_nat (j - i)) (drop (Z.to_nat (i - h)) c)) rs /\
      if r.2 then j < stop /\ exists v, c !! Z.to_nat (j - h) = Some v /\ assign ops v = None
      else j = stop) nothrow (mkEState p (put_block b blk m), out).
Proof using TraitsOk0 Hnoexcept.
  intros Hcl Hq Hi Hstop Hc. revert i blk out Hcl Hi.
  induction fuel as [|fuel IH]; intros i blk out Hcl Hi Hf; cbn [move_until];
    rewrite (index_eqb tr) by lia; destruct (Z.eqb_spec i stop) as [->|Hne]; try lia.
  1,2: wp_step; exists stop, blk, []; rewrite app_nil_r, Z.sub_diag; split_and!; try done; try lia; constructor.
  wp_step. apply wp_inner. eapply wp_on_block; [apply put_lookup|].
  eapply wp_mono; [eapply (read_cleared tr h c q); [done|lia|lia]| |done]. cbn beta. intros v blk' [-> Hv].
  fold (put_block b blk (put_block b blk m)). rewrite put_put. destruct (assign ops v) as [r|] eqn:Ha.
  - wp_step. apply wp_put. wp_step. apply wp_inner. eapply wp_on_block; [apply put_lookup|].
    eapply wp_mono; [eapply (destroy_cleared tr h c q); [done|lia|lia]| |done]. cbn beta. intros _ blk' Hcl'.
    fold (put_block b blk' (put_block b blk m)). rewrite put_put, wrap_add_l.
    eapply wp_mono; [eapply (IH (i + 1)); [done|lia|lia]| |done]. cbn beta.
    intros [x thr] so (j & blk2 & rs & -> & Hcl2 & Hj & Ej & Hmoved & Hthr). cbn [fst snd] in *.
    exists j, blk2, (r :: rs). rewrite <- app_assoc. split_and!; try done; try lia.
    rewrite (drop_S _ _ _ Hv). replace (Z.to_nat (j - i)) with (S (Z.to_nat (j - (i + 1)))) by lia.
    constructor; [done|]. by replace (S (Z.to_nat (i - h))) with (Z.to_nat (i + 1 - h)) by lia.
  - destruct (noexcept_assign ops); [by destruct (Hnoexcept eq_refl v)|]. wp_step.
    exists i, blk, []. rewrite app_nil_r, Z.sub_diag. cbn [fst snd]. split_and!; try done; try lia; [constructor|].
    by exists v.
Qed.

Lemma destroy_until_spec fuel i stop p m h c q b blk0 blk :
  cleared tr h c q i blk0 blk -> q * B <= h -> h <= i <= stop -> stop <= (q + 1) * B ->
  stop <= h + zlength c -> stop - i <= Z.of_nat fuel ->
  wp (destroy_until tr fuel b (wrap w i) (wrap w stop)) (fun _ s' => exists blk',
      s' = mkEState p (put_block b blk' m) /\ cleared tr h c q stop blk0 blk') nothrow
    (mkEState p (put_block b blk m)).
Proof using TraitsOk0.
  intros Hcl Hq Hi Hstop Hc. revert i blk Hcl Hi.
  induction fuel as [|fuel IH]; intros i blk Hcl Hi Hf; cbn [destroy_until];
    rewrite (index_eqb tr) by lia; destruct (Z.eqb_spec i stop) as [->|Hne]; try lia.
  1,2: wp_step; by exists blk.
  wp_step. eapply wp_on_block; [apply put_lookup|].
  eapply wp_mono; [eapply (destroy_cleared tr h c q); [done|lia|lia]| |done]. cbn beta. intros _ blk' Hcl'.
  fold (put_block b blk' (put_block b blk m)). rewrite put_put, wrap_add_l. apply IH; [done|lia|lia].
Qed.

(** * Block after block *)

(** The contents from [h] on, in the blocks of the ring. *)
Definition ring_holds m fl h c f ring : Prop :=
  ring_repr tr m h c f ring /\ pool_inv tr m fl /\ (forall b, b ∈ ring -> ~ available m fl b).

(** What the operation changes: blocks of the ring. *)
Definition ring_only ring m m' : Prop :=
  m' = set_blocks (blocks m') m /\ forall l, (l ∉ ring) -> blocks m' !! l = blocks m !! l.

Lemma ring_only_refl ring m : ring_only ring m m.
Proof using Type. split; [by destruct m|done]. Qed.

Lemma ring_only_trans ring m m1 m2 : ring_only ring m m1 -> ring_only ring m1 m2 -> ring_only ring m m2.
Proof using Type.
  intros [E1 H1] [E2 H2]. split; [|intros l Hl; by rewrite H2, H1]. rewrite E2, E1. by destruct m.
Qed.

Lemma ring_block m h c f ring k b :
  ring_repr tr m h c f ring -> ring !! k = Some b ->
  exists blk, blocks m !! b = Some blk /\ block_repr tr explicit_context h c (f + Z.of_nat k) blk.
Proof using Type. intros [_ Hr] Hk. destruct (Hr k b Hk) as (blk & ? & ? & _). by exists blk. Qed.

(** Recording the elements of a block as dequeued. *)
Lemma set_many_ring p m fl h n c f ring k b blk0 blk :
  ring_holds m fl h c f ring -> ring !! k = Some b -> blocks m !! b = Some blk0 ->
  cleared tr h c (f + Z.of_nat k) (h + n) blk0 blk ->
  (f + Z.of_nat k) * B <= h < (f + Z.of_nat k + 1) * B -> 0 <= n -> h + n <= (f + Z.of_nat k + 1) * B ->
  wp (on_block b (set_many_empty tr explicit_context (wrap w h) (wrap sb (wrap w (wrap w (h + n) - wrap w h)))))
    (fun _ s' => exists m', s' = mkEState p m' /\ ring_only ring m m' /\
       ring_holds m' fl (h + n) (drop (Z.to_nat n) c) f ring) nothrow
    (mkEState p (put_block b blk m)).
Proof using TraitsOk0.
  intros (Hring & Hpool & Hav) Hk Hb Hcl Hpos Hn Hfit. pose proof (block_size_gt_1 tr). pose proof (size_le_index tr).
  pose proof (traits_block (tr := tr)). pose proof (size_pow_le_index tr).
  destruct (ring_block _ _ _ _ _ _ _ Hring Hk) as (blk1 & Hb1 & Hrep). assert (blk1 = blk0) as -> by congruence.
  pose proof (list_elem_of_lookup_2 _ _ _ Hk) as Hin. eapply wp_on_block; [apply put_lookup|].
  rewrite wrap_sub_l, wrap_sub_r. replace (h + n - h) with n by lia. rewrite (wrap_small (w := w) n), (wrap_small (w := sb) n) by lia.
  eapply wp_mono; [eapply (set_many_cleared tr explicit_context h c (f + Z.of_nat k) n blk0 blk); done| |done].
  cbn beta. intros r blk' (Hrep' & [Hnext Hdyn] & _). fold (put_block b blk' (put_block b blk m)). rewrite put_put.
  exists (put_block b blk' m). split; [done|]. split; [|split; [|split]].
  - split; [done|]. intros l Hl. cbn. rewrite lookup_insert_ne; [done|]. by intros <-.
  - eapply ring_repr_update; [exact Hring|exact Hk|done|done|done|].
    intros q bk Hq Hbk. apply block_repr_drop_other; [done|done|]. nia.
  - eapply pool_inv_update_block; [done|exact Hb1|done|auto].
  - done.
Qed.

(** The slot of the [k]-th block. *)
Definition ring_slot p ring (hd : BlockIndexHeader) k : Z :=
  (pr_blockIndexFront p - zlength ring + Z.of_nat k) mod size hd.

Lemma next_ring_slot p f ring hd k :
  index_repr tr p f ring hd ->
  Z.land (wrap sb (ring_slot p ring hd k + 1)) (wrap sb (size hd - 1)) = ring_slot p ring hd (S k).
Proof using TraitsOk0.
  intros []. destruct ir_pow as (e & He & Ee). unfold ring_slot. rewrite Ee, mask_slot by done.
  rewrite Zplus_mod_idemp_l. f_equal. lia.
Qed.

(** The claimed elements from [h], which is in the [k]-th block, up to [last];
    [fuel] blocks are enough. *)
Definition claimed_in h c f ring k last (fuel : nat) : Prop :=
  (f + Z.of_nat k) * B <= h < (f + Z.of_nat k + 1) * B /\ h <= last <= h + zlength c /\
  last - h < 2 ^ (w - 1) /\ last <= (f + zlength ring) * B /\ last <= (f + Z.of_nat k + Z.of_nat fuel) * B /\
  (k < length ring)%nat /\ (0 < fuel)%nat.

Lemma claimed_block h c f ring k last fuel :
  claimed_in h c f ring k last fuel -> exists b, ring !! k = Some b /\ (0 < fuel)%nat.
Proof using Type.
  intros (_ & _ & _ & _ & _ & Hk & Hfuel). destruct (lookup_lt_is_Some_2 ring k Hk) as [b Hb]. by exists b.
Qed.

Lemma claimed_next h c f ring k last fuel :
  let stop := (f + Z.of_nat k + 1) * B in
  claimed_in h c f ring k last (S fuel) -> stop < last ->
  claimed_in stop (drop (Z.to_nat (stop - h)) c) f ring (S k) last fuel.
Proof using TraitsOk0.
  intros stop (Hpos & Hlast & Hd & Hend & Hfuel & Hk & _) Hmore. pose proof (block_size_gt_1 tr).
  unfold claimed_in. rewrite zlength_drop by lia.
  assert (f + Z.of_nat k + 1 < f + zlength ring) by nia.
  assert (f + Z.of_nat k + 1 < f + Z.of_nat k + Z.of_nat (S fuel)) by nia. unfold zlength in *. lia.
Qed.

(** The loops run with a fixed index. *)
Section index.
Context (p : ExplicitProducer) (fl : list Z) (f : Z) (ring : list loc) (hd : BlockIndexHeader).
Context (Hix : index_repr tr p f ring hd).

Lemma wp_ring_entry k b (Q : BlockIndexEntry -> EState T -> Prop) E m :
  ring !! k = Some b -> Q (mkEntry (wrap w ((f + Z.of_nat k) * B)) b) (mkEState p m) ->
  wp (read_entry (blockIndex p) (ring_slot p ring hd k)) Q E (mkEState p m).
Proof using Hix.
  intros Hk HQ. pose proof Hix as []. eapply wp_read_entry; [done|by apply ir_entries|done].
Qed.

(** The exception handler, with the [k]-th block emptied up to [i]. *)
Lemma drain_blocks_spec fuel m h c k b blk0 blk last i :
  ring_holds m fl h c f ring -> ring !! k = Some b -> blocks m !! b = Some blk0 ->
  cleared tr h c (f + Z.of_nat k) i blk0 blk ->
  claimed_in h c f ring k last fuel -> h <= i <= Z.min last ((f + Z.of_nat k + 1) * B) ->
  wp (drain_blocks tr fuel (blockIndex p) (wrap w last) (ring_slot p ring hd k) (wrap w h) (wrap w i)
        (wrap w (Z.min last ((f + Z.of_nat k + 1) * B))))
    (fun _ s' => exists m', s' = mkEState p m' /\ ring_only ring m m' /\
       ring_holds m' fl last (drop (Z.to_nat (last - h)) c) f ring) nothrow
    (mkEState p (put_block b blk m)).
Proof using TraitsOk0 Hix.
  revert m h c k b blk0 blk i. induction fuel as [|fuel IH]; intros m h c k b blk0 blk i Hh Hk Hblk Hcl Hclaim Hi.
  { destruct (claimed_block _ _ _ _ _ _ _ Hclaim) as (? & _ & ?). lia. }
  pose proof (block_size_gt_1 tr). pose proof Hclaim as (Hpos & Hlast & Hd & _).
  set (stop := Z.min last ((f + Z.of_nat k + 1) * B)) in *.
  assert (h <= stop /\ stop <= last /\ stop <= (f + Z.of_nat k + 1) * B /\
    (stop = last \/ stop = (f + Z.of_nat k + 1) * B)) as Hstop by (unfold stop; lia). clearbody stop.
  cbn [drain_blocks]. ep_step. eapply wp_ring_entry; [done|]. cbn [entry_block]. ep_step.
  eapply wp_mono; [eapply (destroy_until_spec _ i stop p m h c (f + Z.of_nat k) b blk0 blk); done || lia| |done].
  cbn beta. intros _ s1 (blk1 & -> & Hcl1). ep_step.
  assert (stop = h + (stop - h)) as Estop by lia. rewrite Estop in Hcl1. rewrite Estop at 1.
  eapply wp_mono; [eapply (set_many_ring p m fl h (stop - h) c f ring k b blk0 blk1); done || lia| |done].
  cbn beta. intros _ s2 (m2 & -> & Hro & Hh2). rewrite <- Estop in Hh2.
  ep_step. eapply wp_header; [apply Hix|].
  rewrite (index_eqb_far tr) by lia. destruct (Z.eqb_spec stop last) as [->|Hmore].
  { ep_step. by exists m2. }
  assert (stop = (f + Z.of_nat k + 1) * B) as -> by lia.
  pose proof (claimed_next h c f ring k last fuel Hclaim ltac:(lia)) as Hclaim2.
  destruct (claimed_block _ _ _ _ _ _ _ Hclaim2) as (b2 & Hk2 & _). pose proof Hh2 as (Hring2 & _).
  destruct (ring_block _ _ _ _ _ _ _ Hring2 Hk2) as (blk2 & Hblk2 & Hrep2). pose proof Hclaim2 as (Hpos2 & Hlast2 & Hd2 & _).
  rewrite (next_ring_slot _ f) by done. rewrite (min_stop tr last (f + Z.of_nat (S k))) by lia.
  rewrite <- (put_id b2 blk2 m2) by done.
  eapply wp_mono; [eapply (IH m2 _ _ (S k) b2 blk2 blk2); try done; try lia; by eapply cleared_refl| |done].
  cbn beta. intros _ s3 (m3 & -> & Hro3 & Hh3). rewrite drop_claimed in Hh3 by lia.
  exists m3. split; [done|]. split; [by eapply ring_only_trans|done].
Qed.

(** What the loop leaves, whether it returns or throws. *)
Definition moved_ring m h c last out (thrown : bool) (so : EState T * list R) : Prop :=
  exists rs m', so = (mkEState p m', out ++ rs) /\ handed ops c (Z.to_nat (last - h)) thrown rs /\
    ring_only ring m m' /\ ring_holds m' fl last (drop (Z.to_nat (last - h)) c) f ring.

Lemma move_blocks_spec fuel m h c k last out :
  ring_holds m fl h c f ring -> claimed_in h c f ring k last fuel ->
  wp (move_blocks tr ops fuel (blockIndex p) (wrap w last) (ring_slot p ring hd k) (wrap w h))
    (fun _ => moved_ring m h c last out false) (moved_ring m h c last out true) (mkEState p m, out).
Proof using TraitsOk0 Hix Hnoexcept.
  revert m h c k out. induction fuel as [|fuel IH]; intros m h c k out Hh Hclaim;
    destruct (claimed_block _ _ _ _ _ _ _ Hclaim) as (b & Hk & Hf); [lia|].
  pose proof (block_size_gt_1 tr). pose proof Hclaim as (Hpos & Hlast & Hd & _). pose proof Hh as (Hring & _).
  destruct (ring_block _ _ _ _ _ _ _ Hring Hk) as (blk0 & Hblk0 & Hrep).
  cbn [move_blocks]. rewrite (min_stop tr last (f + Z.of_nat k)) by lia.
  set (stop := Z.min last ((f + Z.of_nat k + 1) * B)).
  assert (h <= stop /\ stop <= last /\ stop <= (f + Z.of_nat k + 1) * B /\
    (stop = last \/ stop = (f + Z.of_nat k + 1) * B)) as Hstop by (unfold stop; lia).
  ep_step. apply wp_inner. eapply wp_ring_entry; [done|]. cbn [entry_block]. ep_step.
  pose proof (move_until_spec (Z.to_nat B) h stop p m h c (f + Z.of_nat k) b blk0 blk0 out
    ltac:(by eapply cleared_refl) ltac:(lia) ltac:(lia) ltac:(lia) ltac:(lia) ltac:(lia)) as Hmove.
  rewrite put_id in Hmove by done. eapply wp_mono; [exact Hmove| |done]. clear Hmove.
  cbn beta. intros [x thrown] so (j & blk1 & rs & -> & Hcl & Hj & Ex & Hmoved & Hcase). cbn [fst snd] in *. subst x.
  rewrite Z.sub_diag in Hmoved. change (drop (Z.to_nat 0) c) with c in Hmoved.
  destruct thrown.
  { destruct Hcase as (Hlt & v & Hv & Ha). ep_step. apply wp_inner.
    eapply wp_mono; [eapply (drain_blocks_spec (S fuel) m h c k b blk0 blk1 last j); done || lia| |done].
    cbn beta. intros _ s' (m' & -> & Hro & Hh'). apply wp_throw.
    exists rs, m'. split; [done|]. split; [|done].
    exists (Z.to_nat (j - h)), v. split_and!; try done. lia. }
  subst j. ep_step. apply wp_inner. clearbody stop.
  assert (stop = h + (stop - h)) as Estop by lia. rewrite Estop in Hcl. rewrite Estop at 1.
  eapply wp_mono; [eapply (set_many_ring p m fl h (stop - h) c f ring k b blk0 blk1); done || lia| |done].
  cbn beta. intros _ s2 (m2 & -> & Hro & Hh2). rewrite <- Estop in Hh2.
  ep_step. apply wp_inner. eapply wp_header; [apply Hix|].
  rewrite (index_eqb_far tr) by lia. destruct (Z.eqb_spec stop last) as [->|Hmore].
  { ep_step. by exists rs, m2. }
  assert (stop = (f + Z.of_nat k + 1) * B) as -> by lia.
  pose proof (claimed_next h c f ring k last fuel Hclaim ltac:(lia)) as Hclaim2. rewrite (next_ring_slot _ f) by done.
  assert (forall thrown so, moved_ring m2 ((f + Z.of_nat k + 1) * B) (drop (Z.to_nat ((f + Z.of_nat k + 1) * B - h)) c)
      last (out ++ rs) thrown so -> moved_ring m h c last out thrown so) as Hcompose.
  { intros thrown so (rs2 & m3 & -> & Hrs & Hro3 & Hh3). exists (rs ++ rs2), m3. rewrite app_assoc. split; [done|].
    split; [|split; [by eapply ring_only_trans|by rewrite drop_claimed in Hh3 by lia]].
    replace (Z.to_nat (last - h)) with
      (Z.to_nat ((f + Z.of_nat k + 1) * B - h) + Z.to_nat (last - (f + Z.of_nat k + 1) * B))%nat by lia.
    by apply handed_app. }
  eapply wp_mono; [eapply IH; done|intros ?; apply Hcompose|apply Hcompose].
Qed.
End index.

(** * The operation *)

(** [n] elements have been taken; if an assignment threw, those from there on
    were destroyed. *)
Definition dequeued_many s fl h t f ring c n out (thrown : bool) (so : EState T * list R) : Prop :=
  exists rs s', so = (s', out ++ rs) /\ handed ops c (Z.to_nat n) thrown rs /\
    explicit_inv tr s' fl (h + n) t f ring (drop (Z.to_nat n) c) /\ mem_frame ring (mem s) fl ring (mem s') fl.

(** [dequeue_bulk] takes as many elements as there are, up to [max], and hands
    them over in order. *)
Lemma dequeue_bulk_spec max s fl h t f ring c out :
  explicit_inv tr s fl h t f ring c -> 0 <= max -> t - h < 2 ^ (sb - 1) ->
  let n := Z.min (zlength c) max in
  wp (dequeue_bulk tr ops max)
    (fun r so => r = n /\ dequeued_many s fl h t f ring c n out false so)
    (dequeued_many s fl h t f ring c n out true) (s, out).
Proof using TraitsOk0 Hnoexcept.
  intros Hinv Hmax Hsize n. pose proof (explicit_inv_dist tr _ _ _ _ _ _ _ Hinv) as [Hle Hdist].
  pose proof (block_size_gt_1 tr) as HB. pose proof (ei_counters _ _ _ _ _ _ _ _ Hinv) as Hcnt.
  pose proof (ei_contents _ _ _ _ _ _ _ _ Hinv) as Hlen. destruct s as [p m]. cbn [prod mem] in *.
  destruct (claim_many_spec tr max (ep_base p) h t Hcnt Hsize Hmax) as (pb & Eclaim & Hc').
  unfold dequeue_bulk. ep_step. apply wp_inner. eapply wp_with_base; [exact Eclaim|]. clear Eclaim.
  rewrite Hlen in *. destruct (Z.ltb_spec h t) as [Hlt|Hge].
  2:{ subst pb. ep_step. assert (n = 0) as -> by lia. split; [done|].
      exists [], (mkEState p m). rewrite app_nil_r, Z.add_0_r, drop_0.
      split_and!; [by destruct p|constructor|done|apply mem_frame_refl]. }
  fold n in Hc' |- *. destruct Hc' as [Hc' Hsame].
  destruct (find_block_of tr _ _ _ _ _ _ _ h Hinv ltac:(lia)) as (k & b & _ & Hk & Hq & _ & _ & Hpos & _).
  pose proof Hinv as []. cbn [prod mem ep_base] in *.
  assert (index_inv tr (set_ep_base pb p) f ring) as Hix by by apply index_inv_base.
  ep_step. apply wp_inner. ep_step. ep_step. apply wp_inner.
  eapply wp_mono; [by eapply (index_slot_spec tr (set_ep_base pb p))| |done].
  cbn beta. intros slot s1 (-> & hd & e & Hhd & -> & _).
  destruct Hix as (_ & _ & _ & [(hd' & _ & Hrep & _)|(_ & -> & _)]); [|done].
  assert (hd' = hd) as -> by (pose proof (ir_header _ _ _ _ _ Hrep); cbn in *; congruence).
  change ((pr_blockIndexFront (set_ep_base pb p) - zlength ring + Z.of_nat k) mod size hd)
    with (ring_slot (set_ep_base pb p) ring hd k). rewrite wrap_add_l.
  assert (ring_holds m fl h c f ring) as Hh by (by split_and!).
  assert (claimed_in h c f ring k (h + n) (S (S (Z.to_nat (n / B))))) as Hclaim.
  { pose proof (Z.div_mod n B ltac:(lia)). pose proof (Z.mod_pos_bound n B ltac:(lia)).
    pose proof (Z.div_pos n B ltac:(lia) ltac:(lia)). apply lookup_lt_Some in Hk. unfold claimed_in. split; [done|]. split; [lia|]. split; [lia|].
    split; [|split; [nia|lia]]. destruct ei_last as [|[-> ->]]; cbn in Hk; lia. }
  assert (forall thrown so, moved_ring (set_ep_base pb p) fl f ring m h c (h + n) out thrown so ->
    dequeued_many (mkEState p m) fl h t f ring c n out thrown so) as Hdone.
  { intros thrown so (rs & m' & -> & Hrs & [Em Hro] & Hh'). replace (h + n - h) with n in * by lia.
    exists rs, (mkEState (set_ep_base pb p) m'). split; [done|]. split; [done|]. destruct Hh' as (Hring' & Hpool' & _).
    rewrite Em in *. split.
    - eapply (explicit_inv_advance tr p m fl h t f ring c n); try done; [lia|]. by rewrite zlength_drop by lia.
    - apply mem_frame_blocks; [apply mem_frame_refl|done]. }
  ep_step. change (blockIndex p) with (blockIndex (set_ep_base pb p)).
  eapply wp_mono; [eapply (move_blocks_spec (set_ep_base pb p) fl f ring hd Hrep _ m h c k (h + n) out); done| |auto].
  cbn beta. intros _ so Hso. ep_step. split; [done|]. by apply Hdone.
Qed.
End loops.
