(* ===== verification/ExplicitFindings.v ===== *)
(** Three executions of [ExplicitProducer] that go wrong.  Each is a closed
    computation on the model: a constructor that throws in the first element
    of a new block leaves that block linked and marked as not empty, which the
    destructor takes for live elements; and a bulk enqueue that fails keeps the
    blocks it has linked but forgets their slots in the block index. *)

From S2P Require Import Prelude MachineInt Traits FreeList Block BlockPool ProducerBase ExplicitProducer.

(** Elements are integers; copying 666 throws. *)
Definition throwing_ops : ElementOps Z Z Z :=
  mkElementOps Z Z Z (fun u => if u =? 666 then None else Some u) false Some true false.

(** [small_traits] with sub-queues of at most 16 elements. *)
Definition limited_traits : Traits := {|
  size_bits := 32; index_bits := 32; BLOCK_SIZE := 4;
  EXPLICIT_BLOCK_EMPTY_COUNTER_THRESHOLD := 32;
  EXPLICIT_INITIAL_INDEX_SIZE := 2; IMPLICIT_INITIAL_INDEX_SIZE := 2;
  INITIAL_IMPLICIT_PRODUCER_HASH_SIZE := 2;
  EXPLICIT_CONSUMER_CONSUMPTION_QUOTA_BEFORE_ROTATE := 4;
  Traits_MAX_SUBQUEUE_SIZE := 16; MAX_SEMA_SPINS := 10;
  RECYCLE_ALLOCATED_BLOCKS := true; sizeof_Block := 40 |}.

Section executions.
Context (tr : Traits).

Definition always (n : nat) : bool := true.
Definition scenario_enqueue (u : Z) : M (EState Z) bool :=
  enqueue tr throwing_ops always (fun _ _ => false) CanAlloc u.
Fixpoint scenario_enqueue_all (us : list Z) : M (EState Z) unit :=
  match us with [] => ret tt | u :: us => scenario_enqueue u;; scenario_enqueue_all us end.
Fixpoint scenario_dequeue (n : nat) : M (EState Z) (list (option Z)) :=
  match n with
  | O => ret []
  | S n => let! r := dequeue tr throwing_ops in let! l := scenario_dequeue n in ret (r :: l)
  end.

(** Runs a script on a fresh producer of a queue with [blocks] initial blocks. *)
Definition scenario {A} (blocks : Z) (script : M (EState Z) A) : outcome unit A :=
  match populate_initial_block_list tr always (fun _ _ => false) blocks init_mem with
  | Ok _ m =>
      match (ExplicitProducer_ctor tr always;; script) (mkEState (new_explicit_producer tr) m) with
      | Ok a _ => Ok a tt
      | Throw _ => Throw tt
      | Fault f => Fault f
      end
  | _ => Fault OutOfFuel
  end.
End executions.

(** C35: The first element's constructor throws; the exception is caught, and the
    producer is destroyed: elements that were never constructed are
    destroyed. *)
Theorem throwing_first_enqueue_breaks_destructor :
  scenario small_traits 1
    (try_catch (scenario_enqueue small_traits 666;; ret tt) (ret tt);;
     ExplicitProducer_dtor small_traits) = Fault BadObject.
Proof. vm_compute. reflexivity. Qed.

(** C36: After a [try_enqueue_bulk] that fails, the index has more blocks to hold
    than it counts, and a live entry is overwritten: 8, 9 and 10 come out
    before 0. *)
Theorem failed_bulk_overwrites_live_index :
  scenario small_traits 2
    (scenario_enqueue_all small_traits [0; 1; 2; 3];;
     let! ok := enqueue_bulk small_traits throwing_ops always (fun _ _ => false) CannotAlloc (seqZ 100 8) 8 in
     scenario_enqueue_all small_traits (seqZ 4 8);;
     let! l := scenario_dequeue small_traits 3 in ret (ok, l))
  = Ok (false, [Some 8; Some 9; Some 10]) tt.
Proof. vm_compute. reflexivity. Qed.

(** C37: A bulk enqueue that grows the index and then exceeds the size limit
    leaves the index front pointing at the wrong slot. *)
Theorem failed_bulk_after_growth_breaks_dequeue :
  scenario limited_traits 1
    (scenario_enqueue_all limited_traits (seqZ 0 8);;
     let! l := scenario_dequeue limited_traits 4 in
     let! ok := enqueue_bulk limited_traits throwing_ops always (fun _ _ => false) CanAlloc (seqZ 100 20) 20 in
     scenario_enqueue_all limited_traits [8];;
     let! l2 := scenario_dequeue limited_traits 2 in ret (l, ok, l2))
  = Fault BadObject.
Proof. vm_compute. reflexivity. Qed.
