(* ===== verification/ExplicitInject.v ===== *)
(** The blocks that [ExplicitProducer]'s enqueue_bulk injects ahead of the tail
    before it constructs any element: those that are empty already, then new
    ones, with their entries of the index. *)

From S2P Require Import Prelude MachineInt Traits FreeList Block BlockPool ProducerBase ProducerBaseProofs ExplicitProducer Contents Fifo ExplicitSpec ExplicitIndex ExplicitProofs.

Section inject.
Context {U T R : Type} (tr : Traits) `{!TraitsOk tr} (ops : ElementOps U T R).
Context (malloc_ok : nat -> bool) (indeterminate : Indeterminate).
#[local] Abbreviation w := (index_bits tr).
#[local] Abbreviation sb := (size_bits tr).
#[local] Abbreviation B := (BLOCK_SIZE tr).
Implicit Types (h t f q n : Z) (ring : list loc) (c : list T) (m : Mem T) (s : EState T) (p : ExplicitProducer).
Implicit Types (fl : list loc) (b nb first start : loc).

(** A block without elements; what it remembers of its emptiness may be
    anything. *)
Definition vacant (blk : Block T) : Prop :=
  block_wf tr blk /\ forall o, 0 <= o < B -> zlookup (elements blk) o = Some None.

Lemma vacant_set_next x blk : vacant blk -> vacant (set_next x blk).
Proof using Type. intros [[] He]. by split; [split|]. Qed.

(** The blocks before number [q0] hold the queue, those from [q0] on are
    vacant. *)
Definition divided q0 h c q (blk : Block T) : Prop :=
  if decide (q < q0) then block_repr tr explicit_context h c q blk else vacant blk.

Lemma divided_set_next q0 h c q blk x : divided q0 h c q blk -> divided q0 h c q (set_next x blk).
Proof using Type. unfold divided. case_decide; [apply block_repr_set_next|apply vacant_set_next]. Qed.

(** [n] blocks, from number [q0] on, have been injected, the first of them
    [first]; the tail block was [start]. *)
Record injecting s fl h t q0 c start first f ring n : Prop := {
  in_counters : counters tr (ep_base (prod s)) h t;
  in_contents : t - h = zlength c;
  in_tail : tailBlock (ep_base (prod s)) = default nullptr (last ring);
  in_number : f + zlength ring = q0 + n /\ 0 <= n <= zlength ring;
  in_oldest : 0 <= f /\ f * B <= h;
  in_range : (f + zlength ring) * B - h < 2 ^ (w - 1);
  in_blocks : zlength ring * B <= 2 ^ (w - 1);
  in_index : index_ok tr (fun _ => True) (prod s) f ring;
  in_headers : headers_inv (prod s) (mem s);
  in_pool : pool_inv tr (mem s) fl;
  in_ring : ring_with (divided q0 h c) (mem s) f ring;
  in_in_use : forall b, b ∈ ring -> ~ available (mem s) fl b;
  in_kind : isExplicit (ep_base (prod s)) = true;
  in_first : if decide (n = 0) then first = nullptr else forall k b, ring !! k = Some b -> f + Z.of_nat k = q0 -> b = first;
  in_start : forall k b, ring !! k = Some b -> f + Z.of_nat k = q0 - 1 -> b = start
}.

(** The number of the next block. *)
Definition next_number t : Z := (t - 1) / B + 1.

Lemma next_number_spec s fl h t f ring c : explicit_inv tr s fl h t f ring c -> f + zlength ring = next_number t.
Proof using TraitsOk0.
  intros []. pose proof (block_size_gt_1 tr). unfold next_number. destruct ei_last as [Hl|[-> ->]].
  - assert ((t - 1) / B = f + zlength ring - 1); [|lia]. symmetry. apply Z.div_unique with (t - 1 - (f + zlength ring - 1) * B); lia.
  - assert (f = 0) as -> by (destruct ei_counters; nia). change (zlength (@nil loc)) with 0.
    assert ((0 - 1) / B = -1); [|lia]. symmetry. apply Z.div_unique with (B - 1); lia.
Qed.

Lemma injecting_start s fl h t f ring c :
  explicit_inv tr s fl h t f ring c -> zlength ring * B < 2 ^ (w - 1) ->
  injecting s fl h t (f + zlength ring) c (tailBlock (ep_base (prod s))) nullptr f ring 0.
Proof using Type.
  intros [] Hsmall. pose proof (zlength_nonneg ring). split; try done.
  - lia.
  - destruct ei_index as (E1 & E2 & E3 & [(hd & Hn & Hr & _)|H0]); (split; [done|split; [done|split; [done|]]]).
    + left. by exists hd.
    + by right.
  - eapply ring_weaken; [exact ei_ring|]. intros k b blk Hk _ Hb. unfold divided.
    apply lookup_lt_Some in Hk. rewrite decide_True by (unfold zlength; lia). done.
  - intros k b Hk E. rewrite ei_tail, last_lookup. apply lookup_lt_Some in Hk as Hlt.
    assert (pred (length ring) = k) as -> by (unfold zlength in E; lia). by rewrite Hk.
Qed.

(** ** The entry of an injected block *)

Lemma wp_add_entry {A} (rest : M (EState T) A) (Q : A -> EState T -> Prop) E p m f ring f' ring' b hd i :
  unpublished tr p f ring (zlength ring') hd -> push f ring f' ring' b ->
  tailBlock (ep_base p) = b -> i = wrap w ((f + zlength ring) * B) -> headers_inv p m ->
  (forall p', ep_base p' = ep_base p -> index_ok tr (fun _ => True) p' f' ring' -> headers_inv p' m ->
     wp rest Q E (mkEState p' m)) ->
  wp (add_index_entry i;; advance_front tr;; rest) Q E (mkEState p m).
Proof using Type.
  intros [] Hpush Htail -> Hh Hrest. pose proof up_repr as [].
  unfold add_index_entry, advance_front. ep_steps.
  eapply wp_write_entry; [done|lia|]. ep_steps. cbn [pr_blockIndexFront pr_blockIndexSize set_headers].
  set (e := mkEntry _ _). set (hd' := pushed_header hd (pr_blockIndexFront p) (front hd) e).
  destruct ir_pow as (k & Hk & Ek).
  assert (Z.land (wrap sb (pr_blockIndexFront p + 1)) (wrap sb (pr_blockIndexSize p - 1)) = (pr_blockIndexFront p + 1) mod size hd)
    as -> by (rewrite ir_size, Ek; by apply mask_slot).
  apply Hrest; [done| |by eapply (headers_inv_update p _ m _ _ hd')].
  split; [done|]. split; [done|]. split; [done|]. left. exists hd'. split; [done|]. split; [|done].
  subst e hd'. rewrite Htail. eapply index_repr_push; [done|done|lia|done|done|done|done].
Qed.

Lemma ring_blocks_not_null (P : Z -> Block T -> Prop) m fl f ring b :
  ring_with P m f ring -> pool_inv tr m fl -> b ∈ ring -> b <> nullptr.
Proof using Type.
  intros [_ Hr] Hpool [k Hk]%list_elem_of_lookup. destruct (Hr _ _ Hk) as (blk & Hb & _).
  pose proof (pi_addr _ _ _ Hpool b ltac:(eauto)). unfold nullptr. lia.
Qed.

(** After a block has become the tail, with its entry. *)
Lemma injecting_push s fl h t q0 c start first f ring n f' ring' b p' m' fl' :
  injecting s fl h t q0 c start first f ring n -> push f ring f' ring' b ->
  ep_base p' = set_tailBlock b (ep_base (prod s)) -> index_ok tr (fun _ => True) p' f' ring' -> headers_inv p' m' ->
  pool_inv tr m' fl' -> ring_with (divided q0 h c) m' f' ring' -> (forall x, x ∈ ring' -> ~ available m' fl' x) ->
  n + 1 <= zlength ring' -> f' * B <= h -> (f' + zlength ring') * B - h < 2 ^ (w - 1) -> zlength ring' * B <= 2 ^ (w - 1) ->
  injecting (mkEState p' m') fl' h t q0 c start (if first =? nullptr then b else first) f' ring' (n + 1).
Proof using Type.
  intros [] Hpush Eb Hix Hh Hpool Hring Hav Hlen Hold Hrange Hblocks. pose proof (push_length _ _ _ _ _ Hpush) as [Enum Elast].
  assert (f <= f') as Hf by (destruct Hpush; lia). destruct in_counters0.
  split; cbn [prod mem]; rewrite ?Eb; try done; try lia.
  - by rewrite Elast.
  - rewrite decide_False by lia. intros k x Hk E. destruct (push_lookup _ _ _ _ _ _ _ Hpush Hk) as [_ [[Ek ->]|(Hlt & k0 & Hk0 & Ek)]].
    + rewrite decide_True in in_first0 by lia. by rewrite in_first0, Z.eqb_refl.
    + case_decide as Hn0; [lia|]. assert (x = first) as -> by (eapply in_first0; [exact Hk0|lia]).
      rewrite (proj2 (Z.eqb_neq _ _)); [done|]. intros ->.
      by eapply (ring_blocks_not_null _ _ _ _ _ nullptr in_ring0 in_pool0); [eapply list_elem_of_lookup_2|].
  - intros k x Hk E. destruct (push_lookup _ _ _ _ _ _ _ Hpush Hk) as [_ [[Ek ->]|(Hlt & k0 & Hk0 & Ek)]]; [lia|].
    eapply in_start0; [exact Hk0|lia].
Qed.

(** ** Blocks that are empty already *)

Lemma elem_of_rotated (x : loc) b (rest : list loc) : x ∈ rest ++ [b] <-> x ∈ b :: rest.
Proof using Type. rewrite elem_of_app, list_elem_of_singleton, elem_of_cons. apply Logic.or_comm. Qed.

Lemma vacant_dequeued h c q blk : block_repr tr explicit_context h c q blk -> (q + 1) * B <= h -> vacant blk.
Proof using Type.
  intros [] Hq. split; [done|]. intros o Ho. rewrite br_elements by done. by rewrite content_before by lia.
Qed.

Lemma index_ok_base P p pb f ring : index_ok tr P p f ring -> index_ok tr P (set_ep_base pb p) f ring.
Proof using Type.
  intros (E1 & E2 & E3 & [(hd & Hn & Hr & HP)|H0]); (split; [done|split; [done|split; [done|]]]).
  - left. exists hd. split; [done|]. split; [by eapply index_repr_ext|done].
  - by right.
Qed.

(** The ring has an index. *)
Lemma index_unpublished P p f ring n' :
  index_ok tr P p f ring -> blockIndex p <> nullptr -> pr_blockIndexSlotsUsed p = zlength ring -> n' <= pr_blockIndexSize p ->
  forall p', headers p' = headers p -> blockIndex p' = blockIndex p -> pr_blockIndexRaw p' = pr_blockIndexRaw p ->
    pr_blockIndexEntries p' = pr_blockIndexEntries p -> pr_blockIndexSize p' = pr_blockIndexSize p ->
    pr_blockIndexFront p' = pr_blockIndexFront p -> pr_blockIndexSlotsUsed p' = n' -> exists hd, unpublished tr p' f ring n' hd.
Proof using Type.
  intros (E1 & E2 & E3 & [(hd & Hn & Hr & _)|[? _]]) Hnull _ Hroom p' H1 H2 H3 H4 H5 H6 H7; [|done].
  exists hd. split; try congruence; [by eapply index_repr_ext|]. by rewrite <- (ir_size _ _ _ _ _ Hr).
Qed.

(** Whether the oldest block can become the tail. *)
Lemma oldest_empty s fl h t q0 c start first f b rest n :
  injecting s fl h t q0 c start first f (b :: rest) n -> b <> first ->
  exists blk, blocks (mem s) !! b = Some blk /\ f < q0 /\
    wp (is_empty tr explicit_context) (fun r blk' => blk' = blk /\ r = bool_decide ((f + 1) * B <= h)) nothrow blk.
Proof using TraitsOk0.
  intros [] Hne. destruct in_ring0 as [_ Hr]. destruct (Hr O b eq_refl) as (blk & Hb & Hd & _). rewrite Z.add_0_r in Hd.
  assert (f < q0) as Hf.
  { assert (f <= q0) as Hle by lia. destruct (decide (f = q0)) as [->|]; [exfalso|lia]. case_decide as Hn0.
    - unfold zlength in *. cbn [length] in *. lia.
    - apply Hne. apply (in_first0 O b eq_refl). lia. }
  exists blk. split; [done|]. split; [done|]. unfold divided in Hd. rewrite decide_True in Hd by done. destruct Hd as [].
  eapply wp_mono; [by apply is_empty_spec| |done]. cbn beta. intros r blk' [-> ->]. split; [done|]. pose proof (block_size_gt_1 tr).
  apply bool_decide_ext. split.
  - intros E. apply offsets_inj in E; lia.
  - intros E. f_equal. lia.
Qed.

Lemma take_blocks_ahead_spec fuel s fl h t q0 c start first f ring n r :
  injecting s fl h t q0 c start first f ring n -> 0 <= r <= Z.of_nat fuel -> r * B < 2 ^ sb -> zlength ring * B < 2 ^ (w - 1) ->
  wp (take_blocks_ahead tr fuel (r * B) (wrap w ((q0 + n - 1) * B)) first) (fun res s' => exists first' f' ring' n' r',
      res = (r' * B, wrap w ((q0 + n' - 1) * B), first') /\ n' + r' = n + r /\ 0 <= r' /\ mem s' = mem s /\
      injecting s' fl h t q0 c start first' f' ring' n' /\ zlength ring' = zlength ring /\ forall x, x ∈ ring' <-> x ∈ ring)
    nothrow s.
Proof using TraitsOk0.
  revert s first f ring n r. induction fuel as [|fuel IH]; intros s first f ring n r Hin Hr Hrb Hsmall;
    pose proof (block_size_gt_1 tr); pose proof Hin as []; destruct s as [p m]; cbn [prod mem] in *; cbn [take_blocks_ahead]; do 2 ep_step; rewrite in_tail0.
  all: assert (wp (ret (r * B, wrap w ((q0 + n - 1) * B), first)) (fun res s' => exists first' f' ring' n' r',
      res = (r' * B, wrap w ((q0 + n' - 1) * B), first') /\ n' + r' = n + r /\ 0 <= r' /\ mem s' = m /\
      injecting s' fl h t q0 c start first' f' ring' n' /\ zlength ring' = zlength ring /\ forall x, x ∈ ring' <-> x ∈ ring)
    nothrow (mkEState p m)) as Hstop by (wp_step; exists first, f, ring, n, r; split_and!; done || lia).
  - assert (r * B <=? 0 = true) as -> by (apply Z.leb_le; nia). exact Hstop.
  - destruct (Z.leb_spec (r * B) 0) as [Hr0|Hr0]; [exact Hstop|]. destruct ring as [|b rest]; [exact Hstop|].
    destruct (last (b :: rest)) as [tb|] eqn:Hl; [|by apply last_None in Hl]. cbn [default from_option id].
    destruct (ring_last _ _ _ _ _ in_ring0 Hl) as (blk & Hb & _ & [= Hn]).
    assert (tb <> nullptr) as Htb.
    { eapply ring_blocks_not_null; [exact in_ring0|exact in_pool0|]. rewrite last_lookup in Hl. by eapply list_elem_of_lookup_2. }
    rewrite (proj2 (Z.eqb_neq _ _) Htb). cbn [orb]. ep_step. eapply wp_block_get; [exact Hb|]. rewrite Hn.
    destruct (Z.eqb_spec b first) as [Ef|Hne]; [exact Hstop|].
    destruct (oldest_empty _ _ _ _ _ _ _ _ _ _ _ _ Hin Hne) as (blk0 & Hb0 & Hf0 & Hempty). cbn [mem] in Hb0.
    ep_step. eapply wp_on_block; [exact Hb0|]. eapply wp_mono; [exact Hempty| |done]. cbn beta. intros e blk' [-> ->].
    rewrite set_blocks_id by done. case_bool_decide as Hh; cbn [negb]; [|exact Hstop].
    assert (1 <= r) as Hr1 by nia. pose proof (Z.mul_le_mono_nonneg_r 1 r B ltac:(lia) Hr1).
    assert (wrap sb (r * B - B) = (r - 1) * B) as -> by (rewrite wrap_small; lia).
    rewrite wrap_add_l. replace ((q0 + n - 1) * B + B) with ((q0 + (n + 1) - 1) * B) by lia.
    assert (zlength (rest ++ [b]) = zlength (b :: rest)) as El by (rewrite zlength_app; unfold zlength; cbn [length]; lia).
    do 2 ep_step. pose proof in_index0 as (Eused & _ & _ & Hcase).
    assert (blockIndex p <> nullptr /\ zlength (b :: rest) <= pr_blockIndexSize p) as [Hnull Hroom].
    { destruct Hcase as [(hd & Hn0 & [] & _)|(_ & [=] & _)]. split; [done|lia]. }
    set (p1 := set_ep_base _ p).
    destruct (index_unpublished _ p f (b :: rest) (zlength (rest ++ [b])) in_index0 Hnull Eused ltac:(lia) p1) as [hd Hup]; try done; [by rewrite El|].
    eapply wp_add_entry; [exact Hup|apply push_reuse|done|f_equal; lia|done|]. intros p2 Eb2 Hix2 Hh2.
    assert (injecting (mkEState p2 m) fl h t q0 c start (if first =? nullptr then b else first) (f + 1) (rest ++ [b]) (n + 1)) as Hin'.
    { eapply (injecting_push (mkEState p m)); [exact Hin|apply push_reuse|done|done|done|done| | | |lia| |].
      - assert (set_blocks (<[b := blk0]> (blocks m)) m = m) as <- by by apply set_blocks_id.
        eapply ring_reuse; [exact in_ring0|exact Hb0|done|]. unfold divided. rewrite decide_False by (unfold zlength in *; cbn [length] in *; lia).
        destruct in_ring0 as [_ Hrr]. destruct (Hrr O b eq_refl) as (blk1 & Hb1 & Hd & _). assert (blk1 = blk0) as -> by congruence.
        unfold divided in Hd. rewrite Z.add_0_r, decide_True in Hd by done. by eapply vacant_dequeued.
      - intros x Hx%elem_of_rotated. by apply in_in_use0.
      - rewrite El. lia.
      - rewrite El. lia.
      - by rewrite El. }
    eapply wp_mono; [eapply (IH _ _ _ _ _ (r - 1) Hin'); [lia|nia|by rewrite El]| |done]. cbn beta.
    intros res s' (first' & f' & ring' & n' & r' & -> & E1 & E2 & E3 & Hin2 & E4 & E5).
    exists first', f', ring', n', r'. split; [done|]. split; [lia|]. split; [done|]. split; [done|]. split; [done|].
    split; [by rewrite E4, El|]. intros x. by rewrite E5, elem_of_rotated.
Qed.

(** ** New blocks *)

(** Room in the index for another block, made by doubling it. *)
Lemma index_room_grown expose p m f ring p' m' :
  index_ok tr (fun _ => True) p f ring -> grown tr expose p m f ring p' m' ->
  index_ok tr (fun _ => True) p' f ring /\ blockIndex p' <> nullptr /\ zlength ring + 1 <= pr_blockIndexSize p'.
Proof using Type.
  intros Hix ((E1 & E2 & E3 & Hcase) & Hn & _ & Hsz). pose proof (zlength_nonneg ring).
  destruct Hcase as [(hd & _ & Hr & _)|[? _]]; [|done].
  split; [|split; [done|]].
  - split; [done|]. split; [done|]. split; [done|]. left. by exists hd.
  - destruct Hix as (_ & _ & _ & [(hd0 & _ & [] & _)|(_ & -> & k & Hk & E)]).
    + lia.
    + rewrite Hsz, E. pose proof (Z.pow_pos_nonneg 2 k ltac:(lia) ltac:(lia)). change (zlength (@nil loc)) with 0. lia.
Qed.

Lemma grow_index_spec allocMode (full : bool) expose p m fl f ring :
  index_ok tr (fun _ => True) p f ring -> headers_inv p m -> pool_inv tr m fl -> zlength ring * B < 2 ^ (sb - 1) ->
  wp (if (pr_blockIndexRaw p =? nullptr) || (pr_blockIndexSlotsUsed p =? pr_blockIndexSize p) || full then
        match allocMode with
        | CannotAlloc => ret false
        | CanAlloc => if full then ret false else new_block_index tr malloc_ok expose
        end
      else ret true) (fun ok s' =>
    exists p' m', s' = mkEState p' m' /\ allocated m m' /\ ep_base p' = ep_base p /\ headers_inv p' m' /\
      index_ok tr (fun _ => True) p' f ring /\
      if ok : bool then full = false /\ blockIndex p' <> nullptr /\ zlength ring + 1 <= pr_blockIndexSize p'
      else full = true \/ no_memory malloc_ok allocMode) nothrow (mkEState p m : EState T).
Proof using TraitsOk0.
  intros Hix Hh Hpool Hsmall. pose proof Hix as (Eused & Eraw & _ & Hcase). pose proof (block_size_gt_1 tr).
  rewrite Eraw, Eused. destruct ((blockIndex p =? nullptr) || (zlength ring =? pr_blockIndexSize p) || full) eqn:Egrow.
  - destruct allocMode; [destruct full|].
    2:{ assert (blockIndex p <> nullptr -> 2 * pr_blockIndexSize p < 2 ^ sb) as Hsize.
        { intros Hn. apply orb_true_iff in Egrow as [[E%Z.eqb_eq|E%Z.eqb_eq]%orb_true_iff|]; [done| |done].
          pose proof (size_le_index tr). pose proof (pow_half (w := sb) ltac:(lia)). nia. }
        eapply wp_mono; [by eapply new_block_index_spec| |done]. cbn beta.
        intros ok s' (a & p' & -> & Ha & Eb & Hh' & Hok & Hgrown). eexists p', _. split; [done|]. split; [by eexists _, _|].
        split; [done|]. split; [done|]. destruct ok.
        - destruct (index_room_grown _ _ _ _ _ _ _ Hix Hgrown) as (? & ? & ?). done.
        - rewrite Hgrown. split; [done|]. right. right. by eexists. }
    all: ep_step; exists p, m; split_and!; try done; try apply allocated_refl; first [by left|right; by left].
  - apply orb_false_iff in Egrow as [[Hn%Z.eqb_neq Hf%Z.eqb_neq]%orb_false_iff ->]. ep_step. exists p, m.
    split_and!; try done; [apply allocated_refl|]. destruct Hcase as [(hd & _ & [] & _)|[? _]]; [lia|done].
Qed.

(** Why an enqueue_bulk was refused: a block at [u] would not have had room. *)
Definition bulk_refusal allocMode h lo hi : Prop :=
  (exists u, lo <= u < hi /\ u mod B = 0 /\ ~ has_room tr h u) \/ no_memory malloc_ok allocMode.

Definition allocated_blocks_post allocMode s fl h t q0 c start f ring n r (res : option (loc * Z)) s' : Prop :=
  match res with
  | None => bulk_refusal allocMode h (q0 * B) ((q0 + n + r) * B)
  | Some (first', _) => exists fl' ring', injecting s' fl' h t q0 c start first' f ring' (n + r) /\
      mem_frame ring (mem s) fl ring' (mem s') fl' /\ zlength ring' = zlength ring + r
  end.

Lemma undo_none st first oF oU (Q : option (loc * Z) -> EState T -> Prop) p m :
  (forall s', Q None s') -> wp (undo_index st first oF oU;; ret None) Q nothrow (mkEState p m : EState T).
Proof using Type. intros HQ. unfold undo_index. ep_steps. apply HQ. Qed.

Lemma index_ok_ext p p' f ring :
  index_ok tr (fun _ => True) p f ring -> blockIndex p' = blockIndex p -> headers p' = headers p ->
  pr_blockIndexSize p' = pr_blockIndexSize p -> pr_blockIndexFront p' = pr_blockIndexFront p ->
  pr_blockIndexRaw p' = pr_blockIndexRaw p -> pr_blockIndexEntries p' = pr_blockIndexEntries p ->
  pr_blockIndexSlotsUsed p' = pr_blockIndexSlotsUsed p -> index_ok tr (fun _ => True) p' f ring.
Proof using Type.
  intros (E1 & E2 & E3 & Hcase) H1 H2 H3 H4 H5 H6 H7. split; [congruence|]. split; [congruence|]. split; [congruence|].
  destruct Hcase as [(hd & Hn & Hr & _)|(Hn & -> & k & Hk & Ek)].
  - left. exists hd. split; [congruence|]. split; [by eapply index_repr_ext|done].
  - right. split; [congruence|]. split; [done|]. exists k. split; [done|congruence].
Qed.

(** The state with a new block from the pool, linked in as the tail. *)
Lemma inject_new s fl h t q0 c start first f ring n p1 m1 nb m2 fl2 blk :
  injecting s fl h t q0 c start first f ring n -> mem s = m1 \/ allocated (mem s) m1 ->
  pool_inv tr m2 fl2 -> nb <> nullptr -> (available m1 fl nb \/ blocks m1 !! nb = None) -> frame nb m1 fl m2 fl2 ->
  blocks m2 !! nb = Some blk -> raw tr blk -> next_address m1 <= next_address m2 ->
  ep_base p1 = ep_base (prod s) ->
  wp (on_block nb (set_all_empty tr explicit_context);; link_block nb) (fun _ s' => exists bs,
    s' = mkEState (set_ep_base (set_tailBlock nb (ep_base p1)) p1) (set_blocks bs m2) /\
    ring_with (divided q0 h c) (set_blocks bs m2) f (ring ++ [nb]) /\ pool_inv tr (set_blocks bs m2) fl2 /\
    (forall x, x ∈ ring ++ [nb] -> ~ available (set_blocks bs m2) fl2 x) /\
    mem_frame ring (mem s) fl (ring ++ [nb]) (set_blocks bs m2) fl2) nothrow (mkEState p1 m2).
Proof using TraitsOk0.
  intros Hin Hal Hpool2 Hnb0 Hfresh Hframe Hblk [Hwf Hel] Hna2 Eb. pose proof Hin as [].
  assert (blocks m1 = blocks (mem s) /\ (forall l, available m1 fl l <-> available (mem s) fl l) /\ next_address (mem s) <= next_address m1) as (Ebl & Hav1 & Hna).
  { destruct Hal as [<-|Hal]; [done|]. split; [by apply allocated_blocks|]. split; [intros; by apply allocated_available|].
    destruct Hal as (a & k & -> & Ha). done. }
  assert (nb ∉ ring) as Hnbr.
  { intros Hi. destruct in_ring0 as [_ Hr]. pose proof Hi as [k Hk]%list_elem_of_lookup. destruct (Hr _ _ Hk) as (bk & Hbk & _).
    destruct Hfresh as [Hl%Hav1|Hl]; [by apply (in_in_use0 nb)|]. rewrite Ebl in Hl. congruence. }
  wp_step. eapply wp_on_block; [done|]. eapply wp_mono; [by eapply set_all_empty_spec| |done]. cbn beta.
  intros _ blk' (Hd & Hwf' & Hel' & _ & Hdyn). set (m3 := set_blocks (<[nb := blk']> (blocks m2)) m2).
  assert (forall x, x ∈ ring ++ [nb] -> ~ available m3 fl2 x) as Hav3.
  { intros x [Hx|Hx%list_elem_of_singleton]%elem_of_app Hl; apply (proj2 Hframe) in Hl as [Hl Hne]; [|done].
    by apply (in_in_use0 x Hx), Hav1. }
  eapply wp_mono; [eapply (link_block_spec tr (divided q0 h c) p1 m3 fl2 f ring nb blk')| |done].
  - intros. by apply divided_set_next.
  - eapply ring_frame; [exact in_ring0|]. intros x Hx. cbn. rewrite lookup_insert_ne by (by intros ->).
    rewrite (proj1 Hframe), Ebl; [done|]. by intros ->.
  - done.
  - apply lookup_insert_eq.
  - unfold divided. rewrite decide_False by lia. split; [done|]. intros o Ho. rewrite Hel', Hel. apply zlookup_replicate. lia.
  - by rewrite Eb.
  - intros Hi. by eapply (ring_blocks_not_null _ _ _ _ _ _ in_ring0 in_pool0 Hi).
  - eapply pool_inv_update_block; [done|exact Hblk|done|]. apply Hav3, elem_of_app. right. by left.
  - done.
  - cbn beta. intros _ s4 (bs & -> & Hring4 & Hpool4 & Hrest). exists bs. split; [done|]. split; [done|]. split; [done|].
    split; [exact Hav3|].
    assert (mem_frame ring (mem s) fl ring m1 fl) as Hf1.
    { apply mem_frame_intro; [done|by rewrite Ebl|..]; intros l; rewrite Hav1; done. }
    eapply mem_frame_trans; [exact Hf1|]. apply (mem_frame_blocks ring m1 fl (ring ++ [nb]) m2 fl2 bs); [by apply mem_frame_taken|].
    intros l [Hlr Hlb%not_elem_of_cons]%not_elem_of_app. rewrite Hrest by tauto. cbn. by rewrite lookup_insert_ne by (intros ->; tauto).
Qed.

Lemma allocate_blocks_spec fuel allocMode s fl h t q0 c start first f ring n r st oU oF :
  injecting s fl h t q0 c start first f ring n -> t <= q0 * B -> 0 <= r <= Z.of_nat fuel ->
  (zlength ring + r) * B < 2 ^ (sb - 1) ->
  wp (allocate_blocks tr malloc_ok indeterminate fuel allocMode st oU (r * B) (wrap w ((q0 + n - 1) * B)) first oF)
    (allocated_blocks_post allocMode s fl h t q0 c start f ring n r) nothrow s.
Proof using TraitsOk0.
  revert s fl first ring n r oF. induction fuel as [|fuel IH]; intros s fl first ring n r oF Hin Ht Hr Hsmall;
    pose proof (block_size_gt_1 tr) as HB; pose proof (zlength_nonneg ring); cbn [allocate_blocks].
  { assert (r = 0) as -> by lia. rewrite (proj2 (Z.leb_le (0 * B) 0)) by lia. wp_step. exists fl, ring. rewrite !Z.add_0_r.
    split; [done|]. split; [apply mem_frame_refl|done]. }
  destruct (Z.leb_spec (r * B) 0) as [Hr0|Hr0].
  { assert (r = 0) as -> by nia. wp_step. exists fl, ring. rewrite !Z.add_0_r. split; [done|]. split; [apply mem_frame_refl|done]. }
  assert (1 <= r) as Hr1 by nia. pose proof (Z.mul_le_mono_nonneg_r 1 r B ltac:(lia) Hr1).
  pose proof (size_le_index tr) as Hsz. pose proof (pow_half (w := sb) ltac:(lia)) as Hhalf. pose proof Hin as [].
  pose proof (half_size_index tr _ Hsmall) as Hsmall'. pose proof in_counters0 as [Etail Ehead _ Hle].
  set (u := (q0 + n) * B). assert (u = (f + zlength ring) * B) as Eu by (unfold u; lia).
  assert (t <= u) as Htu by (unfold u; nia).
  assert (wrap w (wrap w ((q0 + n - 1) * B) + B) = wrap w u) as ->.
  { rewrite wrap_add_l. f_equal. unfold u. lia. }
  assert (wrap sb (r * B - B) = (r - 1) * B) as -> by (rewrite wrap_small; nia).
  destruct s as [p m]. cbn [prod mem] in *. ep_step. ep_step. rewrite Ehead.
  ep_step. apply wp_cassert.
  { unfold lessi. rewrite circular_less_than_wrap by lia. destruct (Z.ltb_spec u h); [lia|done]. }
  do 6 ep_step.
  ep_step. eapply wp_mono; [eapply (grow_index_spec allocMode (no_room tr (wrap w h) (wrap w u)) oU p m fl f ring); [done|done|done|nia]| |done].
  cbn beta. intros ok s1 (p1 & m1 & -> & Ham & Eb & Hh1 & Hix1 & Hok).
  destruct ok; cbn [negb].
  2:{ apply undo_none. intros s'. destruct Hok as [Hfull|]; [left|by right]. exists u. split; [unfold u; nia|].
      split; [by apply Z.mod_mul; lia|]. intros Hroom%(no_room_spec tr); [congruence|lia..]. }
  destruct Hok as (Eroom & Hn1 & Hroom1). apply (no_room_spec tr) in Eroom; [|lia..]. pose proof (allocated_pool tr _ _ _ Ham in_pool0) as Hpool1.
  ep_step. apply wp_with_mem. eapply wp_mono; [by eapply requisition_block_spec| |done]. cbn beta.
  intros nb m2 (fl2 & Hpool2 & Hna2 & Hnb). destruct (Z.eqb_spec nb nullptr) as [->|Hnb0].
  { apply undo_none. intros s'. right. destruct Hnb as (_ & _ & _ & [|Hfail]); [by left|right; by eexists]. }
  destruct Hnb as (Hfresh & Hframe & blk & Hblk & Hraw).
  apply wp_seq. eapply wp_mono; [eapply (inject_new (mkEState p m) fl h t q0 c start first f ring n p1 m1 nb m2 fl2 blk); try done| |done].
  { by right. }
  { destruct Hfresh as [|[]]; [by left|by right]. }
  cbn beta. intros _ s4 (bs & -> & Hring4 & Hpool4 & Hav4 & Hfr4). do 2 ep_step. set (p3 := set_slotsUsed _ _).
  assert (zlength (ring ++ [nb]) = zlength ring + 1) as El by (by rewrite zlength_app).
  pose proof Hix1 as (Eused1 & _).
  assert (headers_inv p3 (set_blocks bs m2)) as Hh3 by (destruct Hh1 as [Hc1 Ha1]; split; [done|]; intros x Hx%Ha1; cbn; lia).
  destruct (index_unpublished _ p1 f ring (zlength (ring ++ [nb])) Hix1 Hn1 Eused1 ltac:(lia) p3) as [hd Hup]; try done.
  { cbn. rewrite Eused1, El. apply wrap_small. pose proof (pow_half_pos (w := sb) ltac:(lia)). nia. }
  eapply wp_add_entry; [exact Hup|apply push_new|done|by rewrite Eu|done|]. intros p4 Eb4 Hix4 Hh4.
  assert (injecting (mkEState p4 (set_blocks bs m2)) fl2 h t q0 c start (if first =? nullptr then nb else first) f (ring ++ [nb]) (n + 1)) as Hin4.
  { eapply (injecting_push (mkEState p m)); [exact Hin|apply push_new| |done|done|done|done|done| | | |].
    - rewrite Eb4. cbn. by rewrite Eb.
    - lia.
    - lia.
    - rewrite El. pose proof Eroom as [? _]. unfold u in *. lia.
    - rewrite El. apply (round_up_half tr). nia. }
  replace (wrap w u) with (wrap w ((q0 + (n + 1) - 1) * B)) by (f_equal; unfold u; lia).
  eapply wp_mono; [eapply (IH _ _ _ _ (n + 1) (r - 1) _ Hin4); [done|lia|rewrite El; lia]| |done]. cbn beta.
  intros res s5 Hpost. destruct res as [[first' oF']|].
  - destruct Hpost as (fl' & ring' & Hin5 & Hfr5 & El5). exists fl', ring'. split; [by replace (n + r) with (n + 1 + (r - 1)) by lia|].
    split; [by eapply mem_frame_trans|lia].
  - cbn in Hpost |- *. by replace (q0 + n + r) with (q0 + (n + 1) + (r - 1)) by lia.
Qed.

(** ** Resetting the injected blocks *)

Lemma ring_next (P : Z -> Block T -> Prop) m f ring k b :
  ring_with P m f ring -> ring !! k = Some b -> S k <> length ring ->
  exists blk b', blocks m !! b = Some blk /\ ring !! S k = Some b' /\ next blk = b'.
Proof using Type.
  intros [_ Hr] Hk Hlen. destruct (Hr _ _ Hk) as (blk & Hb & _ & Hn). pose proof (lookup_lt_Some _ _ _ Hk).
  destruct (lookup_lt_is_Some_2 ring (S k)) as [b' Hb']; [lia|]. exists blk, b'. split; [done|]. split; [done|].
  apply rot_lookup_lt in Hb'. congruence.
Qed.

Lemma is_tail (ring : list loc) k b : NoDup ring -> ring !! k = Some b -> (b =? default nullptr (last ring)) = bool_decide (S k = length ring).
Proof using Type.
  intros Hnd Hk. pose proof (lookup_lt_Some _ _ _ Hk) as Hlt. rewrite last_lookup.
  destruct (lookup_lt_is_Some_2 ring (pred (length ring))) as [b' Hb']; [lia|]. rewrite Hb'. cbn.
  case_bool_decide as E.
  - rewrite <- E in Hb'. cbn in Hb'. apply Z.eqb_eq. congruence.
  - apply Z.eqb_neq. intros ->. pose proof (NoDup_lookup _ _ _ _ Hnd Hk Hb'). lia.
Qed.

Lemma reset_blocks_spec fuel p m fl h c f ring k b :
  ring_with (divided (f + Z.of_nat k) h c) m f ring -> ring !! k = Some b -> pool_inv tr m fl ->
  (forall x, x ∈ ring -> ~ available m fl x) -> tailBlock (ep_base p) = default nullptr (last ring) ->
  h + zlength c <= (f + Z.of_nat k) * B -> (length ring <= k + fuel)%nat ->
  wp (reset_blocks tr fuel b) (fun _ s' => exists bs, s' = mkEState p (set_blocks bs m) /\
    ring_repr tr (set_blocks bs m) h c f ring /\ pool_inv tr (set_blocks bs m) fl /\
    forall l, (l ∉ ring) -> bs !! l = blocks m !! l) nothrow (mkEState p m).
Proof using TraitsOk0.
  revert m k b. induction fuel as [|fuel IH]; intros m k b Hr Hk Hpool Hav Htail Hq Hf; pose proof (lookup_lt_Some _ _ _ Hk) as Hlt; [lia|].
  pose proof (block_size_gt_1 tr). pose proof Hr as [Hnd Hrr]. destruct (Hrr _ _ Hk) as (blk & Hb & Hd & Hn).
  unfold divided in Hd. rewrite decide_False in Hd by lia. destruct Hd as [Hwf Hel]. cbn [reset_blocks]. ep_step.
  eapply wp_on_block; [exact Hb|]. eapply wp_mono; [by eapply reset_empty_spec| |done]. cbn beta.
  intros _ blk' (Hd' & Hwf' & Hel' & Hn' & Hdyn). set (m1 := set_blocks (<[b := blk']> (blocks m)) m).
  assert (ring_with (divided (f + Z.of_nat k + 1) h c) m1 f ring) as Hr1.
  { eapply (ring_update (divided (f + Z.of_nat k) h c)); [exact Hr|exact Hk|exact Hb|done| |].
    - unfold divided. rewrite decide_True by lia. apply block_repr_unused; [done|done| |done]. intros o Ho. by rewrite Hel', Hel.
    - intros q bk Hne Hbk. unfold divided in *. repeat case_decide; done || lia. }
  assert (pool_inv tr m1 fl) as Hpool1.
  { eapply pool_inv_update_block; [done|exact Hb|done|]. apply Hav. by eapply list_elem_of_lookup_2. }
  assert (forall l, (l ∉ ring) -> blocks m1 !! l = blocks m !! l) as Hother.
  { intros l Hl. cbn. rewrite lookup_insert_ne; [done|]. intros ->. apply Hl. by eapply list_elem_of_lookup_2. }
  do 2 ep_step. rewrite Htail, (is_tail ring k b Hnd Hk). case_bool_decide as Elast.
  - ep_step. eexists. split; [done|]. split; [|done]. eapply ring_weaken; [exact Hr1|]. intros j x xblk Hj _ Hx.
    apply lookup_lt_Some in Hj. unfold divided in Hx. by rewrite decide_True in Hx by lia.
  - destruct (ring_next _ _ _ _ _ _ Hr1 Hk Elast) as (blk1 & b' & Hb1 & Hk' & Enext).
    ep_step. eapply wp_block_get; [exact Hb1|]. rewrite Enext.
    eapply wp_mono; [eapply (IH m1 (S k) b')| |done]; try done.
    + by replace (f + Z.of_nat (S k)) with (f + Z.of_nat k + 1) by lia.
    + lia.
    + lia.
    + cbn beta. intros _ s2 (bs & -> & Hring & Hpool2 & Hrest). exists bs. split; [done|]. split; [done|]. split; [done|].
      intros l Hl. by rewrite Hrest, Hother.
Qed.
End inject.
