(* ===== verification/ExplicitEnqueueBulk.v ===== *)
(** [ExplicitProducer]'s enqueue_bulk: once the blocks are there, it constructs
    the elements and publishes them all at once. *)

From S2P Require Import Prelude MachineInt Traits FreeList Block BlockPool ProducerBase ProducerBaseProofs ExplicitProducer Contents Fifo ExplicitSpec ExplicitIndex ExplicitProofs ExplicitInject.

Section fill.
Context {U T R : Type} (tr : Traits) `{!TraitsOk tr} (ops : ElementOps U T R).
#[local] Abbreviation w := (index_bits tr).
#[local] Abbreviation sb := (size_bits tr).
#[local] Abbreviation B := (BLOCK_SIZE tr).
#[local] Abbreviation made := (made ops).
Implicit Types (h t f n : Z) (ring fl : list loc) (c vs : list T) (m : Mem T) (p : ExplicitProducer) (items : list U) (b : loc).

(** Only blocks of the ring differ. *)
Definition ring_changed m fl ring m' : Prop :=
  (exists bs, m' = set_blocks bs m) /\ pool_inv tr m' fl /\ forall l, (l ∉ ring) -> blocks m' !! l = blocks m !! l.

Lemma ring_changed_refl m fl ring : pool_inv tr m fl -> ring_changed m fl ring m.
Proof using Type. intros H. split; [exists (blocks m); by destruct m|done]. Qed.

Lemma ring_changed_trans m fl ring m1 m2 : ring_changed m fl ring m1 -> ring_changed m1 fl ring m2 -> ring_changed m fl ring m2.
Proof using Type.
  intros ((bs1 & ->) & _ & H1) ((bs2 & ->) & Hp & H2). split; [by exists bs2|]. split; [done|]. intros l Hl. by rewrite H2, H1.
Qed.

Lemma ring_changed_in_use m fl ring m' :
  ring_changed m fl ring m' -> (forall x, x ∈ ring -> ~ available m fl x) -> forall x, x ∈ ring -> ~ available m' fl x.
Proof using Type. by intros ((bs & ->) & _ & _) H. Qed.

Definition constructible items : Prop := forall u, u ∈ items -> make ops u <> None.

Lemma constructible_drop (n : nat) items : constructible items -> constructible (drop n items).
Proof using Type. intros H u (i & Hi)%list_elem_of_lookup. rewrite lookup_drop in Hi. apply H. by eapply list_elem_of_lookup_2. Qed.

Lemma ring_construct_next p m fl h c f ring k b v :
  ring_repr tr m h c f ring -> pool_inv tr m fl -> (forall x, x ∈ ring -> ~ available m fl x) ->
  ring !! k = Some b -> (f + Z.of_nat k) * B <= h + zlength c < (f + Z.of_nat k + 1) * B ->
  wp (on_block b (construct tr (wrap w (h + zlength c)) v)) (fun _ s' => exists m', s' = mkEState p m' /\
    ring_changed m fl ring m' /\ ring_repr tr m' h (c ++ [v]) f ring) nothrow (mkEState p m).
Proof using TraitsOk0.
  intros Hring Hpool Hav Hk Hx. pose proof Hring as [_ Hr]. destruct (Hr _ _ Hk) as (blk & Hb & Hrep & _).
  destruct (block_repr_construct tr explicit_context h c v _ _ Hrep) as [Hslot Hrep']; [lia|].
  eapply wp_on_block; [done|]. unfold construct. rewrite (offset_in_block tr (f + Z.of_nat k)) by lia.
  ep_steps; [done|]. ep_steps. eexists. split; [done|]. split; [split; [by eexists|split]|].
  - eapply pool_inv_update_block; [done|exact Hb|done|]. apply Hav. by eapply list_elem_of_lookup_2.
  - intros l Hl. cbn. rewrite lookup_insert_ne; [done|]. intros ->. apply Hl. by eapply list_elem_of_lookup_2.
  - eapply ring_repr_update; [exact Hring|exact Hk|done|done|exact Hrep'|].
    intros q bk Hq Hbk. apply block_repr_snoc_other; [done|]. pose proof (block_size_gt_1 tr). nia.
Qed.

Lemma construct_until_spec fuel p m fl h c f ring k b stop items :
  let i := h + zlength c in
  ring_repr tr m h c f ring -> pool_inv tr m fl -> (forall x, x ∈ ring -> ~ available m fl x) ->
  ring !! k = Some b -> (f + Z.of_nat k) * B <= i -> i <= stop <= (f + Z.of_nat k + 1) * B ->
  stop - i <= zlength items -> stop - i <= Z.of_nat fuel -> constructible items ->
  wp (construct_until tr ops fuel b (wrap w i) (wrap w stop) items) (fun r s' => exists vs m',
      s' = mkEState p m' /\ ring_changed m fl ring m' /\ ring_repr tr m' h (c ++ vs) f ring /\ made items vs /\
      r = (wrap w stop, drop (length vs) items, false) /\ i + zlength vs = stop) nothrow (mkEState p m).
Proof using TraitsOk0.
  revert m c items. induction fuel as [|fuel IH]; intros m c items i Hr Hpool Hav Hk Hlo Hstop Hitems Hf Hmake;
    cbn [construct_until]; rewrite (index_eqb tr) by lia; destruct (Z.eqb_spec i stop) as [E|Hne]; try lia.
  1,2: ep_step; exists [], m; rewrite app_nil_r; change (zlength (@nil T)) with 0; rewrite Z.add_0_r, E;
    split_and!; try done; [by apply ring_changed_refl|apply made_nil].
  destruct items as [|u items]; [change (zlength (@nil U)) with 0 in Hitems; lia|].
  assert (zlength (u :: items) = zlength items + 1) as El by (unfold zlength; cbn [length]; lia).
  destruct (make ops u) as [v|] eqn:Hu; [|by destruct (Hmake u ltac:(left))].
  ep_step. eapply wp_mono; [eapply (ring_construct_next p m fl h c f ring k b v); try done; lia| |done].
  cbn beta. intros _ s1 (m1 & -> & Hst1 & Hr1). rewrite wrap_add_l.
  assert (h + zlength (c ++ [v]) = i + 1) as Ei by (rewrite zlength_app; unfold zlength, i; cbn; unfold zlength; lia).
  rewrite <- Ei. pose proof (ring_changed_in_use _ _ _ _ Hst1 Hav) as Hav1. pose proof Hst1 as (_ & Hpool1 & _).
  eapply wp_mono; [eapply (IH m1 (c ++ [v]) items); try done; rewrite ?Ei; try lia; intros y Hy; apply Hmake; by right| |done]. cbn beta.
  intros r s2 (vs & m2 & -> & Hst2 & Hr2 & Hmade & -> & Es).
  exists (v :: vs), m2. assert (zlength (v :: vs) = zlength vs + 1) as Ev by (unfold zlength; cbn [length]; lia).
  rewrite Ei in *. rewrite <- app_assoc in Hr2. cbn [length drop]. split_and!; try done.
  - by eapply ring_changed_trans.
  - by apply made_cons.
  - lia.
Qed.

(** ** Block after block *)

Definition with_tailBlock b p : ExplicitProducer := set_ep_base (set_tailBlock b (ep_base p)) p.

Lemma fill_blocks_spec fuel p m fl h c f ring k b endBlock newTail items :
  let i := h + zlength c in
  ring_repr tr m h c f ring -> pool_inv tr m fl -> (forall x, x ∈ ring -> ~ available m fl x) ->
  last ring = Some endBlock -> ring !! k = Some b -> tailBlock (ep_base p) = b ->
  (f + Z.of_nat k) * B <= i < (f + Z.of_nat k + 1) * B -> i < newTail -> newTail - i < 2 ^ (w - 1) ->
  (f + zlength ring - 1) * B < newTail <= (f + zlength ring) * B -> newTail - i <= zlength items ->
  (length ring <= k + fuel)%nat -> constructible items ->
  wp (fill_blocks tr ops fuel endBlock (wrap w newTail) (wrap w i) items) (fun r s' => exists vs m',
      r = None /\ s' = mkEState (with_tailBlock endBlock p) m' /\ ring_changed m fl ring m' /\
      ring_repr tr m' h (c ++ vs) f ring /\ made items vs /\ i + zlength vs = newTail) nothrow (mkEState p m).
Proof using TraitsOk0.
  revert p m c k b items. induction fuel as [|fuel IH];
    intros p m c k b items i Hr Hpool Hav Hlast Hk Htb Hi Hnew Hd Hend Hitems Hf Hmake.
  { apply lookup_lt_Some in Hk. lia. }
  pose proof (block_size_gt_1 tr). pose proof (lookup_lt_Some _ _ _ Hk) as Hlt. pose proof Hr as [Hnd _].
  pose proof (is_tail ring k b Hnd Hk) as Htail. rewrite Hlast in Htail. cbn in Htail.
  cbn [fill_blocks]. ep_step. ep_step. rewrite Htb, (min_stop tr newTail (f + Z.of_nat k) i) by lia.
  set (stop := Z.min newTail ((f + Z.of_nat k + 1) * B)).
  assert (i < stop /\ stop <= newTail /\ stop <= (f + Z.of_nat k + 1) * B) as Hstop by (unfold stop; lia).
  ep_step. eapply wp_mono; [eapply (construct_until_spec _ p m fl h c f ring k b stop items); try done; lia| |done].
  cbn beta. intros r s1 (vs & m1 & -> & Hst1 & Hr1 & Hmade & -> & Es). cbn iota. fold i in Es. rewrite Htail.
  assert (with_tailBlock b p = p) as Ep by (subst b; by destruct p as [[] ? ? ? ? ? ? ?]).
  case_bool_decide as El.
  - assert (f + zlength ring = f + Z.of_nat k + 1) as Elast by (unfold zlength; lia). rewrite Elast in Hend.
    assert (stop = newTail) as -> by (unfold stop; lia). ep_steps; [apply Z.eqb_refl|]. exists vs, m1.
    assert (endBlock = b) as -> by (rewrite last_lookup, <- El in Hlast; cbn in Hlast; congruence). rewrite Ep. by split_and!.
  - assert (f + Z.of_nat k + 1 <= f + zlength ring - 1) as Elast by (unfold zlength; lia).
    pose proof (Z.mul_le_mono_nonneg_r _ _ B ltac:(lia) Elast) as Hmul.
    assert (stop = (f + Z.of_nat k + 1) * B /\ stop < newTail) as [Estop Hsn] by (unfold stop; lia).
    destruct (ring_next _ _ _ _ _ _ Hr1 Hk El) as (blk1 & b' & Hb1 & Hk' & Enext).
    ep_step. eapply wp_block_get; [exact Hb1|]. rewrite Enext. do 2 ep_step. fold (with_tailBlock b' p).
    assert (h + zlength (c ++ vs) = stop) as Ec by (rewrite zlength_app; unfold i in *; lia).
    rewrite <- Ec. pose proof Hst1 as (_ & Hpool1 & _).
    assert (zlength (drop (length vs) items) = zlength items - zlength vs) as Eld.
    { unfold zlength in *. rewrite length_drop. lia. }
    eapply wp_mono; [eapply (IH (with_tailBlock b' p) m1 (c ++ vs) (S k) b'); [done|done|by eapply ring_changed_in_use|done|done|done|..]| |done];
      rewrite ?Ec, ?Eld; try lia; [by apply constructible_drop|].
    cbn beta. intros r s2 (vs2 & m2 & -> & -> & Hst2 & Hr2 & Hmade2 & Hend2). rewrite ?Ec in Hend2.
    exists (vs ++ vs2), m2. rewrite zlength_app, app_assoc. split_and!; try done; [by eapply ring_changed_trans|by apply made_app|lia].
Qed.
End fill.

Section bulk.
Context {U T R : Type} (tr : Traits) `{!TraitsOk tr} (ops : ElementOps U T R).
Context (malloc_ok : nat -> bool) (indeterminate : Indeterminate).
#[local] Abbreviation w := (index_bits tr).
#[local] Abbreviation sb := (size_bits tr).
#[local] Abbreviation B := (BLOCK_SIZE tr).
#[local] Abbreviation constructible := (constructible ops).
#[local] Abbreviation refusal := (bulk_refusal tr malloc_ok).
Implicit Types (h t f q n N count : Z) (ring fl : list loc) (c vs : list T) (m : Mem T) (p : ExplicitProducer) (items : list U) (b first start : loc).

Lemma index_inv_ok p f ring : index_inv tr p f ring -> index_ok tr (fun _ => True) p f ring.
Proof using Type.
  intros (E1 & E2 & E3 & [(hd & Hn & Hr & _)|Hnone]); (split; [done|split; [done|split; [done|]]]); [left; by exists hd|by right].
Qed.

(** Publishing the index. *)
Definition store_index : M (EState T) unit :=
  let! bi := getp blockIndex in
  let! p := gets prod in
  store_front bi (Z.land (wrap sb (pr_blockIndexFront p - 1)) (wrap sb (pr_blockIndexSize p - 1))).

Lemma store_index_spec p m f ring :
  index_ok tr (fun _ => True) p f ring -> ring <> [] -> headers_inv p m ->
  wp store_index (fun _ s' => exists p', s' = mkEState p' m /\ ep_base p' = ep_base p /\ index_inv tr p' f ring /\ headers_inv p' m)
    nothrow (mkEState p m : EState T).
Proof using Type.
  intros (E1 & E2 & E3 & [(hd & Hn & Hr & _)|(_ & -> & _)]) Hne Hh; [|done]. pose proof Hr as [].
  unfold store_index. do 4 ep_step. cbn [prod]. destruct ir_pow as (k & Hk & Ek).
  assert (Z.land (wrap sb (pr_blockIndexFront p - 1)) (wrap sb (pr_blockIndexSize p - 1)) = (pr_blockIndexFront p - 1) mod size hd) as ->
    by (rewrite ir_size, Ek; by apply mask_slot).
  eapply wp_store_front; [done|]. set (hd' := mkHeader _ _ _ _). eexists. split; [done|]. split; [done|].
  split; [|by eapply (headers_inv_update p _ m _ _ hd')].
  split; [done|]. split; [done|]. split; [done|]. left. exists hd'. split; [done|]. split; [|done].
  split; cbn; try done; [apply lookup_insert_eq|by exists k].
Qed.

(** The blocks are there, empty and linked, with their entries; where nothing
    can throw the index has been published. *)
Definition bulk_ready s fl h t q0 c start first f ring N : Prop :=
  injecting tr s fl h t q0 c start first f ring N /\ ring_repr tr (mem s) h c f ring /\
  (noexcept_ctor ops = true \/ N = 0 -> index_inv tr (prod s) f ring) /\
  (N = 0 -> tailBlock (ep_base (prod s)) = start).

Lemma injecting_reset s fl h t q0 c start first f ring N p' m' :
  injecting tr s fl h t q0 c start first f ring N -> t <= q0 * B ->
  ep_base p' = ep_base (prod s) -> index_ok tr (fun _ => True) p' f ring -> headers_inv p' m' -> pool_inv tr m' fl ->
  (exists bs, m' = set_blocks bs (mem s)) -> ring_repr tr m' h c f ring ->
  injecting tr (mkEState p' m') fl h t q0 c start first f ring N.
Proof using TraitsOk0.
  intros [] Ht Eb Hix Hh Hpool (bs & ->) Hring. split; cbn [prod mem]; rewrite ?Eb; try done.
  eapply ring_weaken; [exact Hring|]. intros k b blk Hk _ Hb. unfold divided. destruct (decide (f + Z.of_nat k < q0)) as [Hq|Hq]; [done|].
  destruct Hb as []. split; [done|]. intros o Ho. rewrite br_elements by done. rewrite content_past; [done|].
  pose proof (block_size_gt_1 tr). nia.
Qed.

#[local] Abbreviation bulk_fuel count := (S (S (Z.to_nat (count / B)))).

Definition inject_blocks allocMode count (blockBaseDiff before startBlock originalUsed originalFront : Z) : M (EState T) (option (loc * Z)) :=
  if 0 <? blockBaseDiff then
    let! ahead := take_blocks_ahead tr (bulk_fuel count) blockBaseDiff before nullptr in
    let '(blockBaseDiff, currentTailIndex, firstAllocatedBlock) := ahead in
    let! r := allocate_blocks tr malloc_ok indeterminate (bulk_fuel count) allocMode startBlock originalUsed blockBaseDiff
                currentTailIndex firstAllocatedBlock originalFront in
    match r with
    | None => ret None
    | Some (firstAllocatedBlock, originalFront) =>
        reset_blocks tr (bulk_fuel count) firstAllocatedBlock;;
        (if noexcept_ctor ops then store_index else ret tt);;
        ret (Some (firstAllocatedBlock, originalFront))
    end
  else ret (Some (nullptr, originalFront)).

Lemma inject_blocks_spec allocMode count s fl h t f ring c N oU oF :
  explicit_inv tr s fl h t f ring c -> 0 <= N <= count / B + 1 -> (zlength ring + N) * B < 2 ^ (sb - 1) ->
  wp (inject_blocks allocMode count (N * B) (wrap w ((t - 1) / B * B)) (tailBlock (ep_base (prod s))) oU oF) (fun res s' =>
      match res with
      | None => refusal allocMode h ((f + zlength ring) * B) ((f + zlength ring + N) * B)
      | Some (first, _) => exists fl' f' ring', mem_frame ring (mem s) fl ring' (mem s') fl' /\ zlength ring' <= zlength ring + N /\
          bulk_ready s' fl' h t (f + zlength ring) c (tailBlock (ep_base (prod s))) first f' ring' N
      end) nothrow s.
Proof using TraitsOk0.
  intros Hinv HN Hsmall. pose proof (block_size_gt_1 tr). pose proof (zlength_nonneg ring).
  pose proof (half_size_index tr _ Hsmall) as Hsmall'. pose proof (size_le_index tr).
  pose proof (injecting_start tr s fl h t f ring c Hinv ltac:(nia)) as Hin. pose proof (next_number_spec tr _ _ _ _ _ _ _ Hinv) as Eq0.
  set (q0 := f + zlength ring) in *. assert (t <= q0 * B) as Ht.
  { destruct Hinv. destruct ei_last as [|[-> ->]]; [unfold q0; lia|unfold q0; change (zlength (@nil loc)) with 0; nia]. }
  unfold inject_blocks. destruct (Z.ltb_spec 0 (N * B)) as [HNB|HNB].
  2:{ assert (N = 0) as -> by nia. ep_step. exists fl, f, ring. split; [apply mem_frame_refl|]. split; [lia|]. split; [done|].
      split; [by destruct Hinv|]. split; [|done]. by destruct Hinv. }
  assert (1 <= N) as HN1 by nia. pose proof (pow_half (w := sb) ltac:(lia)).
  assert ((t - 1) / B = q0 + 0 - 1) as -> by (unfold next_number in Eq0; lia).
  ep_step. eapply wp_mono; [eapply (take_blocks_ahead_spec tr); [exact Hin|lia|nia|nia]| |done]. cbn beta.
  intros res s1 (first1 & f1 & ring1 & n1 & r1 & -> & En & Hr1 & Em1 & Hin1 & Elen1 & Hmem1). cbn iota beta.
  pose proof (in_number _ _ _ _ _ _ _ _ _ _ _ _ Hin1) as [_ Hn1].
  ep_step. eapply wp_mono; [eapply (allocate_blocks_spec tr malloc_ok indeterminate); [exact Hin1|done| |]| |done].
  { lia. }
  { rewrite Elen1. assert (r1 <= N) as Hr1N by lia. pose proof (Z.mul_le_mono_nonneg_r (zlength ring + r1) (zlength ring + N) B). lia. }
  cbn beta. intros [[first2 oF2]|] s2 Hpost.
  2:{ ep_step. cbn in Hpost. by replace (q0 + n1 + r1) with (q0 + N) in Hpost by lia. }
  destruct Hpost as (fl2 & ring2 & Hin2 & Hfr2 & Elen2). replace (n1 + r1) with N in Hin2 by lia.
  pose proof Hin2 as []. rewrite decide_False in in_first by lia.
  destruct (lookup_lt_is_Some_2 ring2 (Z.to_nat (q0 - f1))) as [b Hb]; [unfold zlength in *; lia|].
  assert (f1 + Z.of_nat (Z.to_nat (q0 - f1)) = q0) as Ek by lia.
  assert (first2 = b) as -> by (symmetry; by eapply in_first). destruct s2 as [p2 m2]. cbn [prod mem] in *.
  ep_step. eapply wp_mono; [eapply (reset_blocks_spec tr _ p2 m2 fl2 h c f1 ring2 _ b); try done| |done].
  { by rewrite Ek. }
  { rewrite Ek. destruct Hinv. lia. }
  { unfold zlength in *. lia. }
  cbn beta. intros _ s3 (bs & -> & Hring3 & Hpool3 & Hrest3).
  assert (forall p', ep_base p' = ep_base p2 -> index_ok tr (fun _ => True) p' f1 ring2 -> headers_inv p' (set_blocks bs m2) ->
    (noexcept_ctor ops = true -> index_inv tr p' f1 ring2) ->
    exists fl' f' ring', mem_frame ring (mem s) fl ring' (set_blocks bs m2) fl' /\ zlength ring' <= zlength ring + N /\
      bulk_ready (mkEState p' (set_blocks bs m2)) fl' h t q0 c (tailBlock (ep_base (prod s))) b f' ring' N) as Hdone.
  { intros p' Eb Hix Hh Hinv'. exists fl2, f1, ring2. split; [|split; [lia|split; [|split; [done|]]]].
    - apply mem_frame_blocks; [|done]. rewrite Em1 in Hfr2. eapply mem_frame_trans; [|exact Hfr2].
      apply mem_frame_intro; try done; intros l; by rewrite Hmem1.
    - eapply (injecting_reset (mkEState p2 m2)); try done. by exists bs.
    - split; [|lia]. intros [Hno|?]; [by apply Hinv'|lia]. }
  assert (ring2 <> []) as Hne by (intros ->; done).
  ep_step. destruct (noexcept_ctor ops) eqn:Eno.
  - eapply wp_mono; [by eapply store_index_spec| |done]. cbn beta. intros _ s4 (p4 & -> & Eb4 & Hix4 & Hh4). ep_step.
    apply Hdone; [done| |done|done]. by apply index_inv_ok.
  - ep_steps. by apply Hdone.
Qed.

(** ** The rest of the operation *)

Lemma next_number_bounds t : (next_number tr t - 1) * B < t <= next_number tr t * B.
Proof using TraitsOk0.
  pose proof (block_size_gt_1 tr). unfold next_number. pose proof (Z.mul_div_le (t - 1) B ltac:(lia)).
  pose proof (Z.mul_succ_div_gt (t - 1) B ltac:(lia)). lia.
Qed.

Definition fill_and_publish (handler : Z -> M (EState T) bool) count startTailIndex startBlock items (allocated : loc) : M (EState T) bool :=
  let newTailIndex := wrap w (startTailIndex + count) in
  let! endBlock := getb tailBlock in
  setb (set_tailBlock startBlock);;
  cassert (negb (in_block tr startTailIndex =? 0) || negb (allocated =? nullptr) || (count =? 0));;
  (if (in_block tr startTailIndex =? 0) && negb (allocated =? nullptr)
   then setb (set_tailBlock allocated) else ret tt);;
  let! thrown := fill_blocks tr ops (bulk_fuel count) endBlock newTailIndex startTailIndex items in
  match thrown with
  | Some constructedStopIndex => handler constructedStopIndex
  | None =>
      (if negb (noexcept_ctor ops) && negb (allocated =? nullptr) then store_index else ret tt);;
      setb (set_tailIndex newTailIndex);;
      ret true
  end.

(** The end of the operation: the tail block and the tail index are set. *)
Lemma bulk_published p m fl h t q0 c start first f ring N m' p' vs count :
  bulk_ready (mkEState p m) fl h t q0 c start first f ring N -> ring_changed tr m fl ring m' ->
  ring_repr tr m' h (c ++ vs) f ring -> zlength vs = count -> index_inv tr p' f ring -> headers_inv p' m' ->
  ep_base p' = set_tailBlock (default nullptr (last ring)) (ep_base p) ->
  (f + zlength ring - 1) * B < t + count <= (f + zlength ring) * B ->
  explicit_inv tr (mkEState (set_ep_base (set_tailIndex (wrap w (t + count)) (ep_base p')) p') m') fl h (t + count) f ring (c ++ vs).
Proof using TraitsOk0.
  intros ([] & _) ((bs & ->) & Hpool & _) Hring Hvs Hix Hh Eb Hlast. rewrite Eb. cbn [prod mem] in *. destruct in_counters.
  pose proof (zlength_nonneg vs). split; cbn; try done.
  - split; cbn; done || lia.
  - rewrite zlength_app. lia.
  - by left.
  - by apply index_inv_base.
Qed.

Lemma fill_nothing handler p m fl h t q0 c start first f ring items :
  bulk_ready (mkEState p m) fl h t q0 c start first f ring 0 -> q0 = next_number tr t ->
  wp (fill_and_publish handler 0 (wrap w t) start items first) (fun ok s' => ok = true /\
    explicit_inv tr s' fl h t f ring c /\ mem s' = m) nothrow (mkEState p m).
Proof using TraitsOk0.
  intros Hready Hq0. pose proof Hready as (Hin & Hring & Hix & Hstart). pose proof Hin as [].
  specialize (Hix (or_intror eq_refl)). specialize (Hstart eq_refl). cbn [prod mem] in *. rewrite decide_True in in_first by done. subst first.
  pose proof (block_size_gt_1 tr). pose proof (size_le_index tr). pose proof (block_size_half tr).
  unfold fill_and_publish. rewrite wrap_add_l, Z.add_0_r. do 4 ep_step. apply wp_bind, wp_cassert; [apply orb_true_r|].
  rewrite andb_false_r. do 2 ep_step. cbn [fill_blocks]. rewrite (stop_index_spec tr) by lia.
  assert (Z.min t ((t / B + 1) * B) = t) as -> by (pose proof (Z.mul_succ_div_gt t B ltac:(lia)); lia).
  do 3 ep_step. ep_step. assert (forall fuel, construct_until tr ops fuel start (wrap w t) (wrap w t) items = ret (wrap w t, items, false)) as Hnone
    by (intros []; cbn [construct_until]; by rewrite Z.eqb_refl).
  cbn [ProducerBase.tailBlock set_tailBlock ep_base set_ep_base]. rewrite Hnone. ep_step. rewrite Hstart, Z.eqb_refl.
  ep_steps; [apply Z.eqb_refl|]. ep_steps. rewrite andb_false_r. ep_steps. split; [done|]. split; [|done].
  pose proof (next_number_bounds t) as Hq. rewrite <- Hq0 in Hq.
  pose proof (bulk_published p m fl h t q0 c start nullptr f ring 0 m (set_ep_base (set_tailBlock start (ep_base p)) p) [] 0) as Hpub.
  rewrite app_nil_r, Z.add_0_r in Hpub. apply Hpub; try done.
  - by apply ring_changed_refl.
  - by apply index_inv_base.
  - cbn. by rewrite <- in_tail, Hstart.
  - assert (f + zlength ring = q0) as -> by lia. done.
Qed.

(** The block where construction starts. *)
Lemma first_to_fill s fl h t q0 c start first f ring N :
  injecting tr s fl h t q0 c start first f ring N -> q0 = next_number tr t -> (t mod B = 0 -> 0 < N) ->
  exists k b, ring !! k = Some b /\ b <> nullptr /\ f + Z.of_nat k = t / B /\ (f + zlength ring - t / B <= N + 1) /\
    b = (if (t mod B =? 0) && negb (first =? nullptr) then first else start) /\
    (t mod B = 0 -> first <> nullptr).
Proof using TraitsOk0.
  intros [] Hq0 HN. pose proof (next_number_bounds t) as Hq. rewrite <- Hq0 in Hq. pose proof (block_size_gt_1 tr).
  pose proof (Z.div_mod t B ltac:(lia)) as Hdm. pose proof (Z.mod_pos_bound t B ltac:(lia)). destruct in_counters.
  assert (forall k b, ring !! k = Some b -> b <> nullptr) as Hnn.
  { intros k b Hk. eapply (ring_blocks_not_null tr); [exact in_ring|exact in_pool|by eapply list_elem_of_lookup_2]. }
  destruct (Z.eqb_spec (t mod B) 0) as [E|E].
  - specialize (HN E). assert (t / B = q0) as Et by nia. rewrite decide_False in in_first by lia.
    destruct (lookup_lt_is_Some_2 ring (Z.to_nat (q0 - f))) as [b Hb]; [unfold zlength in *; lia|].
    assert (b = first) as -> by (eapply in_first; [exact Hb|lia]). exists (Z.to_nat (q0 - f)), first. split; [done|].
    pose proof (Hnn _ _ Hb). split; [done|]. split; [lia|]. split; [lia|]. by rewrite (proj2 (Z.eqb_neq _ _)).
  - assert (t / B = q0 - 1) as Et by nia. assert (f < q0) as Hf by nia.
    destruct (lookup_lt_is_Some_2 ring (Z.to_nat (q0 - 1 - f))) as [b Hb]; [unfold zlength in *; lia|].
    assert (b = start) as -> by (eapply in_start; [exact Hb|lia]). exists (Z.to_nat (q0 - 1 - f)), start. split; [done|].
    split; [by eapply Hnn|]. split; [lia|]. split; [lia|]. done.
Qed.

Lemma fill_and_publish_spec handler count p m fl h t q0 c start first f ring N items :
  bulk_ready (mkEState p m) fl h t q0 c start first f ring N -> q0 = next_number tr t ->
  0 < count <= zlength items -> (t + count - 1) / B = q0 + N - 1 -> N <= count / B + 1 -> count < 2 ^ (w - 1) -> constructible items ->
  wp (fill_and_publish handler count (wrap w t) start items first) (fun ok s' => ok = true /\ exists vs,
    zlength vs = count /\ made ops items vs /\ explicit_inv tr s' fl h (t + count) f ring (c ++ vs) /\
    ring_changed tr m fl ring (mem s')) nothrow (mkEState p m).
Proof using TraitsOk0.
  intros Hready Hq0 Hcount Hend HN Hcw Hmake. pose proof Hready as (Hin & Hring & Hix & _). pose proof (block_size_gt_1 tr).
  pose proof (next_number_bounds t) as Hq. rewrite <- Hq0 in Hq.
  pose proof (Z.mul_div_le (t + count - 1) B ltac:(lia)) as Hlo. pose proof (Z.mul_succ_div_gt (t + count - 1) B ltac:(lia)) as Hhi.
  rewrite Hend in Hlo, Hhi.
  destruct (first_to_fill _ _ _ _ _ _ _ _ _ _ _ Hin Hq0) as (k & b & Hk & Hb & Ek & Hlen & Eb & Hfirst).
  { intros E. pose proof (Z.div_mod t B ltac:(lia)). assert (t / B = q0) by nia. nia. }
  pose proof Hin as []. cbn [prod mem] in *. pose proof Hring as [Hnd _]. pose proof (lookup_lt_Some _ _ _ Hk).
  destruct (last ring) as [e|] eqn:Hlast; [|by apply last_None in Hlast as ->]. cbn in in_tail.
  pose proof (Z.div_mod t B ltac:(lia)). pose proof (Z.mod_pos_bound t B ltac:(lia)).
  unfold fill_and_publish. rewrite wrap_add_l, (in_block_wrap tr). do 4 ep_step. apply wp_bind, wp_cassert.
  { destruct (Z.eqb_spec (t mod B) 0) as [E|E]; [|done]. by rewrite (proj2 (Z.eqb_neq _ _) (Hfirst E)). }
  assert (forall (Q : unit -> EState T -> Prop), Q tt (mkEState (with_tailBlock b p) m) ->
    wp (if (t mod B =? 0) && negb (first =? nullptr) then setb (set_tailBlock first) else ret tt) Q nothrow
      (mkEState (set_ep_base (set_tailBlock start (ep_base p)) p) m)) as Hstart.
  { intros Q HQ. rewrite Eb in HQ. destruct ((t mod B =? 0) && negb (first =? nullptr)); by ep_step. }
  ep_step. apply Hstart. clear Hstart. ep_step. rewrite in_tail. assert (t = h + zlength c) as Et by lia.
  rewrite Et at 2. eapply wp_mono; [eapply (fill_blocks_spec tr ops _ (with_tailBlock b p) m fl h c f ring k b e (t + count) items); try done; rewrite <- ?Et| |done].
  { lia. }
  { lia. }
  { lia. }
  { assert (f + zlength ring = q0 + N) as -> by lia. lia. }
  { lia. }
  { unfold zlength in *. lia. }
  cbn beta. rewrite <- Et. intros r s1 (vs & m1 & -> & -> & Hch & Hring1 & Hmade & Evs).
  assert (forall p', index_inv tr p' f ring -> headers_inv p' m1 -> ep_base p' = set_tailBlock e (ep_base p) ->
    wp (setb (set_tailIndex (wrap w (t + count)));; ret true) (fun ok s' => ok = true /\ exists vs,
      zlength vs = count /\ made ops items vs /\ explicit_inv tr s' fl h (t + count) f ring (c ++ vs) /\
      ring_changed tr m fl ring (mem s')) nothrow (mkEState p' m1)) as Hdone.
  { intros p' Hix' Hh' Eb'. ep_steps. split; [done|]. exists vs. split; [lia|]. split; [done|]. split; [|done].
    eapply (bulk_published p m); try done; [lia|by rewrite Hlast|].
    assert (f + zlength ring = q0 + N) as -> by lia. lia. }
  assert (headers_inv (with_tailBlock e (with_tailBlock b p)) m1) as Hh1.
  { destruct Hch as ((bs & ->) & _). destruct in_headers as [Hc Ha]. split; [exact Hc|]. intros x Hx. by apply Ha. }
  ep_step. destruct (negb (noexcept_ctor ops) && negb (first =? nullptr)) eqn:Epub.
  - assert (index_ok tr (fun _ => True) (with_tailBlock e (with_tailBlock b p)) f ring) as Hok by by do 2 apply index_ok_base.
    eapply wp_mono; [eapply store_index_spec; [exact Hok|by intros ->|exact Hh1]| |done]. cbn beta.
    intros _ s2 (p2 & -> & Eb2 & Hix2 & Hh2). apply Hdone; [done|done|by rewrite Eb2].
  - ep_step. apply Hdone; [|done|done]. do 2 apply index_inv_base. apply Hix.
    apply andb_false_iff in Epub as [Hno%negb_false_iff|Hn%negb_false_iff%Z.eqb_eq]; [by left|right].
    destruct (decide (N = 0)) as [|HN0]; [done|]. exfalso. rewrite Hn in in_first.
    destruct (lookup_lt_is_Some_2 ring (Z.to_nat (q0 - f))) as [x Hx]; [unfold zlength in *; lia|].
    eapply (ring_blocks_not_null tr); [exact in_ring|exact in_pool|eapply list_elem_of_lookup_2, Hx|]. eapply in_first; [exact Hx|lia].
Qed.

(** ** The operation *)

(** The numbers of the blocks that the new elements need. *)
Lemma blocks_needed s fl h t f ring c count :
  explicit_inv tr s fl h t f ring c -> 0 <= count ->
  exists N, 0 <= N <= count / B + 1 /\ (t + count - 1) / B = f + zlength ring + N - 1 /\ (count = 0 -> N = 0).
Proof using TraitsOk0.
  intros Hinv Hc. pose proof (next_number_spec tr _ _ _ _ _ _ _ Hinv) as El. unfold next_number in El. pose proof (block_size_gt_1 tr).
  exists ((t + count - 1) / B - (f + zlength ring - 1)). rewrite El. split; [|split; [lia|intros ->; rewrite Z.add_0_r; lia]]. split.
  - pose proof (Z.div_le_mono (t - 1) (t + count - 1) B). lia.
  - pose proof (Z.div_mod (t - 1) B ltac:(lia)). pose proof (Z.mod_pos_bound (t - 1) B ltac:(lia)).
    pose proof (Z.div_mod count B ltac:(lia)). pose proof (Z.mod_pos_bound count B ltac:(lia)).
    enough ((t + count - 1) / B < (t - 1) / B + count / B + 2) by lia. apply Z.div_lt_upper_bound; lia.
Qed.

(** All the elements are added, or a block could not be had. *)
Definition bulk_enqueued allocMode items count s fl h t ring c (ok : bool) s' : Prop :=
  if ok then exists fl' f' ring' vs, mem_frame ring (mem s) fl ring' (mem s') fl' /\
    zlength ring' <= zlength ring + count / B + 1 /\ zlength vs = count /\ made ops items vs /\
    explicit_inv tr s' fl' h (t + count) f' ring' (c ++ vs)
  else refusal allocMode h t (t + count).

Lemma enqueue_bulk_spec allocMode items count s fl h t f ring c :
  explicit_inv tr s fl h t f ring c -> 0 <= count <= zlength items -> constructible items ->
  (zlength ring + count / B + 1) * B < 2 ^ (sb - 1) ->
  wp (enqueue_bulk tr ops malloc_ok indeterminate allocMode items count)
    (bulk_enqueued allocMode items count s fl h t ring c) nothrow s.
Proof using TraitsOk0.
  intros Hinv Hcount Hmake Hsmall. pose proof Hinv as [[Etail _ _ Hle] _ _ _ _ _ _ _ _ _ _ _ _].
  destruct (blocks_needed _ _ _ _ _ _ _ count Hinv ltac:(lia)) as (N & HN & Hend & HN0).
  pose proof (next_number_spec tr _ _ _ _ _ _ _ Hinv) as Eq0. pose proof (next_number_bounds t) as Hq. rewrite <- Eq0 in Hq.
  pose proof (block_size_gt_1 tr). pose proof (size_le_index tr). pose proof (pow_half (w := w) ltac:(lia)). pose proof (pow_half (w := sb) ltac:(lia)).
  pose proof (zlength_nonneg ring). pose proof (Z.mul_succ_div_gt count B ltac:(lia)). pose proof (Z.div_pos count B ltac:(lia) ltac:(lia)).
  pose proof (Z.pow_le_mono_r 2 (sb - 1) (w - 1) ltac:(lia) ltac:(lia)).
  assert ((zlength ring + N) * B < 2 ^ (sb - 1)) as HroomN by nia.
  assert (count < 2 ^ (w - 1) /\ 0 <= N * B < 2 ^ (sb - 1)) as [Hcw HNB] by nia.
  destruct s as [p m]. cbn [prod] in Etail. unfold enqueue_bulk. do 8 ep_step. rewrite Etail.
  assert (wrap w (wrap w t + count - 1) = wrap w (t + count - 1)) as ->.
  { replace (wrap w t + count - 1) with (wrap w t + (count - 1)) by lia. rewrite wrap_add_l. f_equal. lia. }
  rewrite wrap_sub_l, !(block_base_key tr), wrap_sub_l, wrap_sub_r, Hend.
  assert (wrap sb (wrap w ((f + zlength ring + N - 1) * B - (t - 1) / B * B)) = N * B) as ->.
  { unfold next_number in Eq0. replace ((t - 1) / B) with (f + zlength ring - 1) by lia. rewrite <- Z.mul_sub_distr_r.
    replace (f + zlength ring + N - 1 - (f + zlength ring - 1)) with N by lia. rewrite (wrap_small (w := w)) by lia. apply wrap_small. lia. }
  ep_step. eapply wp_mono; [eapply (inject_blocks_spec allocMode count (mkEState p m) fl h t f ring c N); done| |done].
  cbn beta. cbn [prod mem]. intros [[first oF]|] [p1 m1] Hres.
  2:{ ep_step. cbn. destruct Hres as [(u & Hu & Hmod & Hroom)|]; [left|by right]. exists u. split; [|done].
      pose proof (Z.div_mod u B ltac:(lia)). pose proof (Z.mul_div_le (t + count - 1) B ltac:(lia)) as Hlo. rewrite Hend in Hlo.
      assert (u / B < f + zlength ring + N) by nia. nia. }
  destruct Hres as (fl' & f' & ring' & Hfr & Hlen & Hready).
  match goal with |- wp ?body _ _ _ =>
    assert (exists handler, body = fill_and_publish handler count (wrap w t) (tailBlock (ep_base p)) items first) as [handler ->]
      by (eexists (fun stop => _); reflexivity)
  end.
  assert (forall l, l ∈ ring' -> ~ available m1 fl' l) as Hav by exact (in_in_use _ _ _ _ _ _ _ _ _ _ _ _ (proj1 Hready)).
  destruct (decide (count = 0)) as [->|Hne].
  - rewrite (HN0 eq_refl) in *. eapply wp_mono; [by eapply fill_nothing| |done]. cbn beta. intros ok s2 (-> & Hinv2 & Em2).
    exists fl', f', ring', []. rewrite app_nil_r, Em2. split_and!; try done; [lia|by apply made_nil|by rewrite Z.add_0_r].
  - eapply wp_mono; [eapply fill_and_publish_spec; try done; lia| |done]. cbn beta.
    intros ok s2 (-> & vs & Evs & Hmade & Hinv2 & Hch).
    exists fl', f', ring', vs. split_and!; try done; [|lia].
    destruct Hch as ((bs & ->) & _ & Hb). apply mem_frame_blocks; [done|exact Hb].
Qed.
End bulk.
