(* ===== verification/ExplicitQueue.v ===== *)
(** What [ExplicitProducer] promises its clients: a fresh one is an empty
    queue, and any sequence of [enqueue], [enqueue_bulk], [dequeue] and
    [dequeue_bulk] calls is answered as a FIFO queue answers it. *)

From S2P Require Import Prelude MachineInt Traits FreeList Block BlockPool ProducerBase ProducerBaseProofs ExplicitProducer Contents Fifo ExplicitSpec ExplicitIndex ExplicitProofs ExplicitBulk ExplicitInject ExplicitEnqueueBulk.

Section queue.
Context {U T R : Type} (tr : Traits) `{!TraitsOk tr} (ops : ElementOps U T R).
Context (malloc_ok : nat -> bool) (indeterminate : Indeterminate).
#[local] Abbreviation w := (index_bits tr).
#[local] Abbreviation sb := (size_bits tr).
#[local] Abbreviation B := (BLOCK_SIZE tr).
Implicit Types (s : EState T) (c : list T) (m : Mem T).

#[export] Instance explicit_calls : SubQueueCalls U R (EState T) := {|
  sc_enqueue := enqueue tr ops malloc_ok indeterminate;
  sc_enqueue_bulk := enqueue_bulk tr ops malloc_ok indeterminate;
  sc_dequeue := dequeue tr ops;
  sc_dequeue_bulk := dequeue_bulk tr ops
|}.

(** ** Construction *)

(** The size of the first index: half the trait, or half the initial pool
    if that is larger. *)
Lemma pool_based_size (k : nat) p :
  sb = 8 * 2 ^ Z.of_nat k -> 0 <= p < 2 ^ sb ->
  let x := Z.shiftr (ceil_to_pow_2 (sb / 8) p) 1 in
  x = 0 \/ exists j, 0 <= j < sb - 1 /\ x = 2 ^ j.
Proof using TraitsOk0.
  intros Hsb Hp x. pose proof (size_le_index tr). assert (0 < sb) as Hs by lia.
  pose proof (pow_half Hs). pose proof (pow_half_pos Hs).
  assert (sb / 8 = 2 ^ Z.of_nat k) as E by (rewrite Hsb, Z.mul_comm; by apply Z.div_mul).
  subst x. rewrite E, Z.shiftr_div_pow2 by lia. change (2 ^ 1) with 2.
  destruct (decide (1 <= p <= 2 ^ (sb - 1))) as [Hr|Hr].
  - rewrite ceil_to_pow_2_correct by (rewrite <- Hsb; done).
    pose proof (Z.log2_up_nonneg p). assert (Z.log2_up p <= sb - 1) by (apply Z.log2_up_le_pow2; lia).
    destruct (decide (Z.log2_up p = 0)) as [->|Hne]; [by left|]. right.
    exists (Z.log2_up p - 1). split; [lia|].
    replace (2 ^ Z.log2_up p) with (2 ^ (Z.log2_up p - 1) * 2); [by apply Z.div_mul|].
    rewrite Z.mul_comm, <- Z.pow_succ_r by lia. f_equal. lia.
  - left. rewrite ceil_to_pow_2_overflow; [done|]. rewrite <- Hsb. lia.
Qed.

Lemma new_counters : counters tr (new_producer_base true) 0 0.
Proof using Type. split; cbn; done || lia. Qed.

(** The producer when the constructor calls [new_block_index(0)]. *)
Definition unindexed (x : Z) : ExplicitProducer :=
  mkExplicit (new_producer_base true) nullptr 0 x 0 nullptr nullptr ∅.

Lemma first_index_spec j m fl :
  0 <= j < sb - 1 -> pool_inv tr m fl ->
  wp (new_block_index tr malloc_ok 0) (fun _ s' =>
    explicit_inv tr s' fl 0 0 0 [] [] /\ allocated m (mem s')) nothrow
    (mkEState (unindexed (2 ^ j)) m : EState T).
Proof using TraitsOk0.
  intros Hj Hpool. pose proof (size_le_index tr). pose proof (block_size_gt_1 tr).
  assert (index_inv tr (unindexed (2 ^ j)) 0 []) as Hix.
  { split; [done|]. split; [done|]. split; [done|]. right. split; [done|]. split; [done|]. by exists j. }
  assert (headers_inv (unindexed (2 ^ j)) m) as Hh.
  { split; [exists []; split; [done|]|].
    - intros x. cbn. rewrite lookup_empty. split; [by intros []|by intros ?%not_elem_of_nil].
    - intros x. cbn. rewrite lookup_empty. by intros []. }
  eapply wp_mono; [by eapply new_block_index_spec| |done]. cbn beta.
  intros ok s' (a & p' & -> & Ha & Eb & Hh' & _ & Hok).
  assert (allocated m (set_allocator a (S (malloc_calls m)) m)) as Hal by (by eexists _, _).
  split; [|done].
  assert (index_inv tr p' 0 []) as Hix' by (destruct ok; [by eapply grown_inv|by subst p']).
  split; cbn; rewrite ?Eb; try done; try lia.
  - by right.
  - apply Z.pow_pos_nonneg; lia.
  - apply Z.pow_nonneg; lia.
  - by eapply allocated_pool.
  - split; [apply NoDup_nil_2|]. intros ?? [=].
  - by intros b ?%not_elem_of_nil.
Qed.

(** The constructor makes an empty queue, also when the index cannot be
    allocated. *)
Lemma ctor_spec (k : nat) p0 m fl :
  sb = 8 * 2 ^ Z.of_nat k -> pool_inv tr m fl ->
  wp (ExplicitProducer_ctor tr malloc_ok) (fun _ s' =>
    explicit_inv tr s' fl 0 0 0 [] [] /\ allocated m (mem s')) nothrow (mkEState p0 m).
Proof using TraitsOk0.
  intros Hsb Hpool. pose proof (size_le_index tr).
  destruct (explicit_initial_index_pow tr) as [Hini Hlog].
  pose proof (traits_explicit_index (tr := tr)) as Hlt.
  set (e := Z.log2 (EXPLICIT_INITIAL_INDEX_SIZE tr)) in *.
  assert (e < sb) as He by (rewrite Hini in Hlt; apply Z.pow_lt_mono_r_iff in Hlt; lia).
  assert (Z.shiftr (EXPLICIT_INITIAL_INDEX_SIZE tr) 1 = 2 ^ (e - 1)) as Eini.
  { rewrite Hini, Z.shiftr_div_pow2 by lia. change (2 ^ 1) with 2.
    replace (2 ^ e) with (2 ^ (e - 1) * 2); [by apply Z.div_mul|].
    rewrite Z.mul_comm, <- Z.pow_succ_r by lia. f_equal. lia. }
  destruct (pool_based_size k (initialBlockPoolSize m) Hsb) as [Hx|(j & Hj & Hx)].
  { pose proof (pi_index _ _ _ Hpool). pose proof (pi_size _ _ _ Hpool). lia. }
  all: unfold ExplicitProducer_ctor; ep_step; apply wp_with_mem; ep_steps; unfold new_explicit_producer.
  all: cbn [pr_blockIndexSize]; rewrite Hx, Eini.
  2: destruct (Z.ltb_spec (2 ^ (e - 1)) (2 ^ j)).
  1: rewrite (proj2 (Z.ltb_ge _ _)) by (apply Z.pow_nonneg; lia).
  all: ep_steps.
  1,3: eapply wp_mono; [eapply (first_index_spec (e - 1) m fl); [lia|done]| |done].
  3: eapply wp_mono; [eapply (first_index_spec j m fl); [lia|done]| |done].
  all: cbn beta; intros; by ep_steps.
Qed.

(** ** Scripts *)

(** Nothing can refuse blocks: [malloc] succeeds and may be called, and there
    is no limit on the size of a sub-queue. *)
Definition unlimited allocMode : Prop :=
  allocMode = CanAlloc /\ (forall k, malloc_ok k = true) /\ MAX_SUBQUEUE_SIZE tr = size_max tr.

(** What is asked of a call.  A constructor that throws, and a bulk enqueue
    that is refused, can leave an explicit producer in a bad state. *)
Definition permitted (x : operation U) : Prop :=
  match x with
  | Enqueue _ u => make ops u <> None
  | EnqueueBulk allocMode items => constructible ops items /\ unlimited allocMode
  | Dequeue => True
  | DequeueBulk max => 0 <= max
  end.

(** A [noexcept] assignment does not throw. *)
Definition honest_assign : Prop := noexcept_assign ops = true -> forall v, assign ops v <> None.

(** Some state represents [c] with at most [n] blocks. *)
Definition represents (n : Z) s c : Prop :=
  exists fl h t f ring, explicit_inv tr s fl h t f ring c /\ zlength ring <= n.

Lemma enqueue_step allocMode u n s c :
  permitted (Enqueue allocMode u) -> represents n s c -> (n + 1) * B < 2 ^ (sb - 1) ->
  wp (call (Enqueue allocMode u)) (answers tr ops malloc_ok represents (Enqueue allocMode u) n c) nothrow s.
Proof using TraitsOk0.
  intros Hmake (fl & h & t & f & ring & Hinv & Hn) Hsmall. pose proof (block_size_gt_1 tr). cbn [permitted] in Hmake.
  destruct (make ops u) as [v|] eqn:Hv; [|done]. cbn [call]. apply wp_try_catch, wp_bind.
  eapply wp_mono; [eapply (enqueue_spec tr ops malloc_ok indeterminate allocMode u v); [exact Hinv|done|nia]| |done]. cbn beta.
  intros ok s1 (fl1 & f1 & ring1 & _ & Hr1 & Hpost). wp_step. destruct ok.
  - exists (c ++ [v]). split; [by constructor|]. eexists _, _, _, _, _. split; [exact Hpost|cbn; lia].
  - destruct Hpost as (Hinv1 & _ & Hwhy). exists c. split.
    + constructor. destruct Hwhy as [Hroom|Hmem]; [right|by left]. exists 0. split; [lia|].
      rewrite <- (Z.sub_diag t). eapply no_space_of; [apply Hinv|done].
    + eexists _, _, _, _, _. split; [exact Hinv1|cbn; lia].
Qed.

Lemma unlimited_granted allocMode s fl h t f ring c count :
  unlimited allocMode -> explicit_inv tr s fl h t f ring c -> 0 <= count -> (zlength ring + count / B + 1) * B < 2 ^ (sb - 1) ->
  ~ bulk_refusal tr malloc_ok allocMode h t (t + count).
Proof using TraitsOk0.
  intros (-> & Hmalloc & Hmax) Hinv Hc Hsmall. pose proof (block_size_gt_1 tr). pose proof (half_size_index tr _ Hsmall) as Hsmall'.
  pose proof (next_number_spec tr _ _ _ _ _ _ _ Hinv) as Eq. pose proof (next_number_bounds tr t) as Ht. rewrite <- Eq in Ht.
  destruct (ei_oldest _ _ _ _ _ _ _ _ Hinv) as [_ Hf]. pose proof (Z.mul_succ_div_gt count B ltac:(lia)).
  intros [(u & Hu & Hmod & Hroom)|Hmem]; [|by destruct Hmem as [|[k Hk]]; [|rewrite Hmalloc in Hk]].
  apply Hroom. split; [|by left]. pose proof (Z.div_mod u B ltac:(lia)) as Eu. rewrite Hmod in Eu.
  assert (u / B < f + zlength ring + count / B + 1) by nia. nia.
Qed.

Lemma enqueue_bulk_step allocMode items n s c :
  permitted (EnqueueBulk allocMode items) -> represents n s c -> (n + cost tr (EnqueueBulk allocMode items)) * B < 2 ^ (sb - 1) ->
  wp (call (EnqueueBulk allocMode items)) (answers tr ops malloc_ok represents (EnqueueBulk allocMode items) n c) nothrow s.
Proof using TraitsOk0.
  intros [Hmake Hun] (fl & h & t & f & ring & Hinv & Hn) Hsmall. pose proof (block_size_gt_1 tr). cbn [cost] in Hsmall.
  pose proof (zlength_nonneg items). assert ((zlength ring + zlength items / B + 1) * B < 2 ^ (sb - 1)) as Hring by nia.
  cbn [call]. apply wp_try_catch, wp_bind.
  eapply wp_mono; [eapply (enqueue_bulk_spec tr ops malloc_ok indeterminate allocMode items); [exact Hinv|lia|done|done]| |done].
  cbn beta. intros ok s1 Hpost. wp_step. destruct ok.
  - destruct Hpost as (fl1 & f1 & ring1 & vs & _ & Hr1 & Hvs & Hmade & Hinv1). exists (c ++ vs). split.
    + constructor. by apply made_whole.
    + eexists _, _, _, _, _. split; [exact Hinv1|cbn [cost]; lia].
  - by destruct (unlimited_granted _ _ _ _ _ _ _ _ (zlength items) Hun Hinv ltac:(lia) Hring).
Qed.

Lemma dequeue_step n s c :
  honest_assign -> represents n s c ->
  wp (call Dequeue) (answers tr ops malloc_ok represents Dequeue n c) nothrow s.
Proof using TraitsOk0.
  intros Hassign (fl & h & t & f & ring & Hinv & Hn). cbn [call]. apply wp_try_catch, wp_bind.
  eapply wp_mono; [by eapply (dequeue_spec tr ops Hassign)| |]; cbn beta.
  - intros r s1 Hpost. wp_step. destruct c as [|v c1].
    + destruct Hpost as [-> ->]. exists []. split; [constructor|]. eexists _, _, _, _, _. split; [exact Hinv|cbn; lia].
    + destruct Hpost as ([r' ->] & Hr & Hinv1 & _). exists c1. split; [by constructor|].
      eexists _, _, _, _, _. split; [exact Hinv1|cbn; lia].
  - intros s1 (v & c1 & -> & Hv & Hinv1 & _). wp_step. exists c1. split; [by constructor|].
    eexists _, _, _, _, _. split; [exact Hinv1|cbn; lia].
Qed.

Lemma represents_size n s fl h t f ring c :
  explicit_inv tr s fl h t f ring c -> zlength ring <= n -> n * B < 2 ^ (sb - 1) -> t - h < 2 ^ (sb - 1).
Proof using TraitsOk0.
  intros [] Hn Hsmall. pose proof (block_size_gt_1 tr). destruct ei_last as [|[-> ->]]; [nia|].
  destruct ei_counters. pose proof (size_le_index tr). pose proof (Z.pow_pos_nonneg 2 (sb - 1) ltac:(lia) ltac:(lia)). lia.
Qed.

Lemma dequeue_bulk_step max n s c :
  honest_assign -> 0 <= max -> represents n s c -> n * B < 2 ^ (sb - 1) ->
  wp (call (DequeueBulk max)) (answers tr ops malloc_ok represents (DequeueBulk max) n c) nothrow s.
Proof using TraitsOk0.
  intros Hassign Hmax (fl & h & t & f & ring & Hinv & Hn) Hsmall. cbn [call]. apply wp_with_output.
  pose proof (represents_size _ _ _ _ _ _ _ _ Hinv Hn Hsmall).
  eapply wp_mono; [by eapply (dequeue_bulk_spec tr ops Hassign)| |]; cbn beta.
  - intros r so (-> & rs & s' & -> & Hrs & Hinv' & _). eexists. split; [by eapply (fifo_handed tr ops malloc_ok c max false)|].
    eexists _, _, _, _, _. split; [exact Hinv'|cbn; lia].
  - intros so (rs & s' & -> & Hrs & Hinv' & _). eexists. split; [by eapply (fifo_handed tr ops malloc_ok c max true)|].
    eexists _, _, _, _, _. split; [exact Hinv'|cbn; lia].
Qed.

Lemma call_spec x n s c :
  honest_assign -> permitted x -> represents n s c -> (n + cost tr x) * B < 2 ^ (sb - 1) ->
  wp (call x) (answers tr ops malloc_ok represents x n c) nothrow s.
Proof using TraitsOk0.
  intros Ha Hp Hr Hsmall. destruct x; cbn [cost] in Hsmall.
  - by apply enqueue_step.
  - by apply enqueue_bulk_step.
  - by apply dequeue_step.
  - apply dequeue_bulk_step; try done. by rewrite Z.add_0_r in Hsmall.
Qed.

(** C3: A new explicit producer answers any sequence of permitted [enqueue],
    [enqueue_bulk], [dequeue] and [dequeue_bulk] calls as a FIFO queue, whichever
    assignments throw and, where there is no [enqueue_bulk], whichever
    allocations fail.  Permitted are calls whose elements have constructors that
    do not throw and, of [enqueue_bulk], those that may allocate, where no
    allocation fails and sub-queues have no size limit.  The producer never
    faults, elements come out once, in the order in which they went in,
    [enqueue_bulk] adds all of its elements, a refused [enqueue] has a reason,
    and an assignment that throws costs the elements that were to be received
    from there on. *)
Theorem explicit_producer_is_fifo (k : nat) l p0 m fl :
  sb = 8 * 2 ^ Z.of_nat k -> pool_inv tr m fl ->
  Forall permitted l -> honest_assign -> total_cost tr l * B < 2 ^ (sb - 1) ->
  exists rs s' c, (ExplicitProducer_ctor tr malloc_ok;; run_calls l) (mkEState p0 m) = Ok rs s' /\
    fifo tr ops malloc_ok [] l rs c.
Proof using TraitsOk0.
  intros Hsb Hpool Hp Hassign Hsmall.
  enough (wp (ExplicitProducer_ctor tr malloc_ok;; run_calls l) (fun rs s' => exists c, fifo tr ops malloc_ok [] l rs c)
    nothrow (mkEState p0 m)) as (rs & s' & E & c & Hc)%wp_nothrow_ok by (by exists rs, s', c).
  wp_step. eapply wp_mono; [by eapply ctor_spec| |done]. cbn beta. intros _ s1 [Hinv _].
  eapply wp_mono; [eapply (run_calls_spec tr ops malloc_ok represents permitted (fun x n s c => call_spec x n s c Hassign) l 0 s1 []);
    [done| |by rewrite Z.add_0_l]| |done].
  - by eexists _, _, _, _, _.
  - cbn beta. intros rs s2 (c2 & Hfifo & _). by exists c2.
Qed.
End queue.

(** * Example: integers that can always be copied, with blocks of four *)

Definition integer_ops : ElementOps Z Z Z := mkElementOps Z Z Z Some true Some true true.

Definition example_script : list (operation Z) :=
  (Enqueue CanAlloc <$> [1; 2; 3; 4; 5; 6; 7; 8; 9]) ++
  [Dequeue; EnqueueBulk CanAlloc [10; 11; 12; 13; 14; 15]; DequeueBulk 5; Dequeue; DequeueBulk 7; EnqueueBulk CanAlloc []].

Lemma explicit_producer_is_fifo_witness :
  exists rs s' c, (ExplicitProducer_ctor small_traits (fun _ => true);;
      run_calls (SubQueueCalls0 := explicit_calls small_traits integer_ops (fun _ => true) (fun _ _ => false)) example_script)
    (mkEState (unindexed 1) (init_mem (T := Z))) = Ok rs s' /\ fifo small_traits integer_ops (fun _ => true) [] example_script rs c.
Proof.
  apply (explicit_producer_is_fifo small_traits integer_ops (fun _ => true) (fun _ _ => false) 2 _ _ _ []);
    [reflexivity|apply init_mem_inv; apply _|repeat constructor; done|by intros ??|reflexivity].
Defined.
