(* ===== verification/ExplicitDestructor.v ===== *)
(** [ExplicitProducer::~ExplicitProducer]: it destroys the elements that are
    left, oldest first, and gives every block and every block index back. *)

From S2P Require Import Prelude MachineInt Traits FreeList Block BlockPool ProducerBase ProducerBaseProofs ExplicitProducer Contents Fifo ExplicitSpec ExplicitIndex ExplicitProofs Destruction.

Section destructor.
Context {T : Type} (tr : Traits) `{!TraitsOk tr}.
#[local] Abbreviation w := (index_bits tr).
#[local] Abbreviation sb := (size_bits tr).
#[local] Abbreviation B := (BLOCK_SIZE tr).
Implicit Types (h t f x q : Z) (ring : list loc) (c : list T) (m : Mem T) (p : ExplicitProducer) (s : EState T).

(** ** The block of the head *)

(** The search starts at the slot of the oldest block, and passes over the
    blocks that end before the head. *)
Lemma find_half_dequeued_spec fuel p m h f ring (j k : nat) b hd :
  index_repr tr p f ring hd -> blockIndex p <> nullptr -> pr_blockIndexEntries p = blockIndex p -> headIndex (ep_base p) = wrap w h ->
  f * B <= h -> zlength ring * B <= 2 ^ (w - 1) ->
  ring !! k = Some b -> (f + Z.of_nat k) * B < h < (f + Z.of_nat k + 1) * B -> (j <= k)%nat -> (k - j < fuel)%nat ->
  wp (find_half_dequeued tr fuel ((pr_blockIndexFront p - zlength ring + Z.of_nat j) mod size hd))
    (fun r s' => r = b /\ s' = mkEState p m) nothrow (mkEState p m : EState T).
Proof using TraitsOk0.
  intros Hix Hnn Ee Eh Hf Hblocks Hk Hh. pose proof Hix as []. revert j. induction fuel as [|fuel IH]; intros j Hj Hfuel; [lia|].
  cbn [find_half_dequeued]. pose proof (lookup_lt_Some _ _ _ Hk) as Hlt. pose proof (block_size_gt_1 tr).
  destruct (lookup_lt_is_Some_2 ring j) as [y Hy]; [lia|]. pose proof (ir_entries _ _ Hy) as Hslot.
  assert (forall z, f * B <= z <= (f + zlength ring) * B -> lessi tr (wrap w z) (wrap w h) = (z <? h)) as Hless.
  { intros z Hz. pose proof (size_le_index tr). apply circular_less_than_wrap; unfold zlength in *; [lia|nia]. }
  ep_steps. rewrite Ee, Eh, ir_size. eapply wp_read_entry; [done..|]. cbn [entry_base entry_block].
  rewrite wrap_add_l, !Hless by (unfold zlength in *; nia).
  destruct (Z.ltb_spec ((f + Z.of_nat j) * B + B) h) as [Hpast|Hhere].
  - destruct (decide (j = k)) as [->|]; [lia|]. destruct ir_pow as (e & He & Ese).
    assert (forall z, Z.land (wrap sb z) (wrap sb (size hd - 1)) = z mod size hd) as Hmask by (intros z; rewrite Ese; by apply mask_slot).
    rewrite Hmask, Zplus_mod_idemp_l.
    replace (pr_blockIndexFront p - zlength ring + Z.of_nat j + 1) with (pr_blockIndexFront p - zlength ring + Z.of_nat (S j)) by lia.
    apply IH; lia.
  - assert (j = k) as -> by nia. rewrite (proj2 (Z.ltb_lt _ _)) by lia. ep_step. split; [congruence|done].
Qed.

(** The half-dequeued block: the block that the head is inside, if there is one. *)
Definition is_half h f ring half : Prop :=
  forall k b, ring !! k = Some b -> (b =? half) = bool_decide ((f + Z.of_nat k) * B < h < (f + Z.of_nat k + 1) * B).

Lemma half_dequeued_spec p m fl h t f ring c :
  explicit_inv tr (mkEState p m) fl h t f ring c -> ring <> [] ->
  wp (if negb (in_block tr (wrap w h) =? 0) then
        let! p := gets prod in
        find_half_dequeued tr (Z.to_nat (pr_blockIndexSize p))
          (Z.land (wrap sb (pr_blockIndexFront p - pr_blockIndexSlotsUsed p)) (wrap sb (pr_blockIndexSize p - 1)))
      else ret nullptr) (fun half s' => is_half h f ring half /\ s' = mkEState p m) nothrow (mkEState p m).
Proof using TraitsOk0.
  intros Hinv Hne. pose proof (explicit_inv_dist _ _ _ _ _ _ _ _ Hinv) as [Hht _]. pose proof Hinv as []. cbn [prod mem] in *.
  pose proof (block_size_gt_1 tr). rewrite (in_block_wrap tr). pose proof (Z.mod_pos_bound h B ltac:(lia)).
  pose proof (Z.div_mod h B ltac:(lia)) as Hdm. destruct ei_ring as [Hnd _].
  destruct (Z.eqb_spec (h mod B) 0) as [Hz|Hz]; cbn [negb].
  { ep_step. split; [|done]. intros k b Hk. rewrite bool_decide_eq_false_2; [|intros Hin; assert (f + Z.of_nat k < h / B < f + Z.of_nat k + 1) by nia; lia]. apply Z.eqb_neq.
    eapply (ring_not_null tr); [exact Hinv|]. by eapply list_elem_of_lookup_2. }
  destruct ei_index as (Eused & _ & Eent & [(hd & Hnn & Hix & _)|(_ & ? & _)]); [|done]. pose proof Hix as [].
  destruct ei_last as [Hl|[? _]]; [|done].
  assert (f <= h / B < f + zlength ring) as Hq by nia.
  destruct (lookup_lt_is_Some_2 ring (Z.to_nat (h / B - f))) as [b Hb]; [unfold zlength in *; lia|].
  set (k := Z.to_nat (h / B - f)) in *. assert (f + Z.of_nat k = h / B) as Ek by lia.
  pose proof (lookup_lt_Some _ _ _ Hb) as Hlt. pose proof ir_pow as (e & He & Ese).
  do 2 ep_step. cbn [prod]. rewrite Eused, ir_size.
  assert (forall z, Z.land (wrap sb z) (wrap sb (size hd - 1)) = z mod size hd) as -> by (intros z; rewrite Ese; by apply mask_slot).
  rewrite <- (Z.add_0_r (pr_blockIndexFront p - zlength ring)).
  destruct ei_counters. eapply wp_mono; [eapply (find_half_dequeued_spec _ p m h f ring 0 k b hd); try done; try lia| |done].
  cbn beta. intros ? ? [-> ->]. split; [|done]. intros k' b' Hk'. case_bool_decide as Hin.
  - apply Z.eqb_eq. assert (k' = k) as -> by nia. congruence.
  - apply Z.eqb_neq. intros ->. apply Hin. rewrite (NoDup_lookup _ _ _ _ Hnd Hk' Hb). lia.
Qed.

(** ** The elements that are left *)

(** The ring while the elements from [x] on, [c], are left; no more of its
    elements than those before [h] were dequeued. *)
Definition left_in h x c q (blk : Block T) : Prop :=
  holds tr x c q blk /\ dequeued tr explicit_context (offsets 0 (Z.min B (h - q * B))) blk.

Record destroying m0 fl h x c f ring m : Prop := {
  ds_ring : ring_with (left_in h x c) m f ring;
  ds_pool : pool_inv tr m fl;
  ds_in_use : forall b, b ∈ ring -> ~ available m fl b;
  ds_frame : mem_frame ring m0 fl ring m fl
}.

Lemma destroying_step m0 fl h x v c f ring m k b blk :
  destroying m0 fl h x (v :: c) f ring m -> ring !! k = Some b -> blocks m !! b = Some blk ->
  let q := f + Z.of_nat k in q * B <= x < (q + 1) * B -> let o := x - q * B in
  zlookup (elements blk) o = Some (Some v) /\
  destroying m0 fl h (x + 1) c f ring
    (set_blocks (<[b := set_elements (zinsert o None (elements blk)) blk]> (blocks m)) m).
Proof using Type.
  intros [] Hk Hblk q Hx o. pose proof ds_ring0 as [_ Hr]. destruct (Hr _ _ Hk) as (blk0 & Hblk0 & [Hho Hdq] & _).
  assert (blk0 = blk) as -> by congruence. destruct (holds_destroy tr x v c q blk Hho Hx) as [Hv Hho']. split; [done|].
  assert (b ∈ ring) as Hb by (by eapply list_elem_of_lookup_2).
  destruct (update_owned tr m fl ring b blk (set_elements (zinsert o None (elements blk)) blk) m0 fl ring) as [Hp' Hf']; auto. split; try done.
  eapply ring_update; [exact ds_ring0|exact Hk|exact Hblk|done|split; [done|by destruct Hdq]|].
  intros q' bk Hq' [Hbk Hd]. split; [|done]. eapply holds_other; [done|]. nia.
Qed.

Lemma destroy_rest_spec fuel m0 fl h c f ring m p k b is_tail last i stop :
  let q := f + Z.of_nat k in
  destroying m0 fl h (q * B + i) c f ring m -> ring !! k = Some b -> stop = (if is_tail : bool then last else B) ->
  0 <= i <= stop -> stop <= B -> stop - i <= zlength c -> stop - i <= Z.of_nat fuel ->
  wp (destroy_rest tr fuel b is_tail last i) (fun _ s' => exists m', s' = mkEState p m' /\
    destroying m0 fl h (q * B + stop) (drop (Z.to_nat (stop - i)) c) f ring m') nothrow (mkEState p m).
Proof using TraitsOk0.
  intros q Hds Hk Hstop Hi HB Hc Hfuel. pose proof (block_size_gt_1 tr).
  assert (forall j, j <= stop -> (j =? B) || is_tail && (j =? last) = (j =? stop)) as Htest.
  { intros j Hj. destruct is_tail; cbn; subst stop; [|by rewrite orb_false_r].
    destruct (Z.eqb_spec j last), (Z.eqb_spec j B); try done; lia. }
  revert i c m Hds Hi Hc Hfuel. induction fuel as [|fuel IH]; intros i c m Hds Hi Hc Hfuel; cbn [destroy_rest];
    rewrite Htest by lia; destruct (Z.eqb_spec i stop) as [->|Hne]; try lia.
  1, 2: ep_step; exists m; split; [done|]; by rewrite Z.sub_diag, drop_0.
  - destruct c as [|v c]; [unfold zlength in Hc; cbn in Hc; lia|].
    pose proof (ds_ring _ _ _ _ _ _ _ _ Hds) as [_ Hr]. destruct (Hr _ _ Hk) as (blk & Hblk & _).
    destruct (destroying_step _ _ _ _ _ _ _ _ _ _ _ _ Hds Hk Hblk) as [Hv Hds']; [fold q; lia|]. fold q in Hv, Hds'.
    replace (q * B + i - q * B) with i in * by lia.
    assert (offset tr i = i) as Eo by (rewrite offset_eq by done; apply Z.mod_small; lia).
    ep_step. eapply wp_on_block; [exact Hblk|]. eapply wp_mono; [apply (destroy_element_spec tr i v); by rewrite Eo| |done].
    cbn beta. intros _ blk' ->. rewrite Eo.
    replace (q * B + i + 1) with (q * B + (i + 1)) in Hds' by lia.
    eapply wp_mono; [apply (IH (i + 1) c _ Hds')| |done]; try lia.
    { unfold zlength in *. cbn [length] in Hc. lia. }
    cbn beta. intros _ s' (m' & -> & Hm'). exists m'. split; [done|].
    by replace (Z.to_nat (stop - i)) with (S (Z.to_nat (stop - (i + 1)))) by lia.
Qed.

(** How far the elements are destroyed before the block at place [k]. *)
Definition destroyed_to h t f (k : nat) : Z := Z.max h (Z.min t ((f + Z.of_nat k) * B)).

Lemma destroyed_to_mono h t f k : h <= t -> h <= destroyed_to h t f k <= destroyed_to h t f (S k) /\ destroyed_to h t f (S k) <= t.
Proof using TraitsOk0.
  intros Hh. pose proof (block_size_gt_1 tr). unfold destroyed_to.
  assert ((f + Z.of_nat k) * B <= (f + Z.of_nat (S k)) * B) by nia. lia.
Qed.

Lemma destroyed_to_next h t f ring (k : nat) b :
  f * B <= h <= t -> (f + zlength ring - 1) * B < t <= (f + zlength ring) * B -> ring !! k = Some b ->
  let q := f + Z.of_nat k in
  ((q + 1) * B <= h /\ destroyed_to h t f k = h /\ destroyed_to h t f (S k) = h) \/
  (h < (q + 1) * B /\
   destroyed_to h t f k = q * B + (if bool_decide (q * B < h < (q + 1) * B) then h mod B else 0) /\
   destroyed_to h t f (S k) = q * B + (if bool_decide (S k = length ring) then if t mod B =? 0 then B else t mod B else B)).
Proof using TraitsOk0.
  intros Hh Ht Hk%lookup_lt_Some q. pose proof (block_size_gt_1 tr). unfold destroyed_to. fold q.
  replace (f + Z.of_nat (S k)) with (q + 1) by lia. assert (q <= f + zlength ring - 1) as Hq by (unfold zlength; lia).
  destruct (decide ((q + 1) * B <= h)) as [Hpast|Hhere]; [left; nia|right]. split; [lia|]. split.
  - case_bool_decide as Hb; [|nia]. assert (h mod B = h - q * B) as -> by (symmetry; apply Z.mod_unique_pos with q; lia). nia.
  - case_bool_decide as Hb; [|unfold zlength in *; nia]. assert (q + 1 = f + zlength ring) as Eq by (unfold zlength; lia).
    rewrite <- Eq in Ht. destruct (decide (t = (q + 1) * B)) as [->|].
    + rewrite Z.mod_mul by lia. cbn. lia.
    + assert (t mod B = t - q * B) as -> by (symmetry; apply Z.mod_unique_pos with q; lia).
      rewrite (proj2 (Z.eqb_neq _ _)) by lia. lia.
Qed.

Lemma destroy_elements_spec fuel m0 fl h t f ring c p half m (k : nat) b0 blk0 :
  counters tr (ep_base p) h t -> t - h = zlength c -> last ring = Some (tailBlock (ep_base p)) ->
  f * B <= h -> (f + zlength ring - 1) * B < t <= (f + zlength ring) * B ->
  is_half h f ring half ->
  let x := destroyed_to h t f k in
  destroying m0 fl h x (drop (Z.to_nat (x - h)) c) f ring m ->
  blocks m !! b0 = Some blk0 -> ring !! k = Some (next blk0) -> (length ring - k <= fuel)%nat ->
  wp (destroy_elements tr fuel b0 half) (fun _ s' => exists m', s' = mkEState p m' /\ destroying m0 fl h t [] f ring m')
    nothrow (mkEState p m).
Proof using TraitsOk0.
  intros Hcnt Hc Hlast Hf Ht Hhalf. pose proof Hcnt as []. pose proof (block_size_gt_1 tr).
  revert m k b0 blk0. induction fuel as [|fuel IH]; intros m k b0 blk0 x Hds Hb0 Hk Hfuel.
  { apply lookup_lt_Some in Hk. lia. }
  cbn [destroy_elements]. set (b := next blk0) in *. pose proof (ds_ring _ _ _ _ _ _ _ _ Hds) as [Hnd Hr].
  destruct (Hr _ _ Hk) as (blk & Hblk & [Hho Hdq] & Hnext).
  ep_step. eapply wp_block_get; [done|]. ep_steps. fold b. eapply wp_on_block; [done|].
  eapply wp_mono; [eapply (is_empty_spec tr explicit_context); [apply Hho|exact Hdq]| |done].
  cbn beta. intros empty ? [-> ->]. rewrite set_blocks_id by done.
  assert ((b =? tailBlock (ep_base p)) = bool_decide (S k = length ring)) as Etail.
  { rewrite last_lookup in Hlast. pose proof (lookup_lt_Some _ _ _ Hlast). case_bool_decide as Hl.
    - apply Z.eqb_eq. replace (pred (length ring)) with k in Hlast by lia. congruence.
    - apply Z.eqb_neq. intros E. rewrite <- E in Hlast. pose proof (NoDup_lookup _ _ _ _ Hnd Hlast Hk). lia. }
  rewrite ct_tail, ct_head, !(in_block_wrap tr), Etail, (Hhalf _ _ Hk).
  set (x' := destroyed_to h t f (S k)). pose proof (destroyed_to_mono h t f k ltac:(lia)) as Hmono. fold x x' in Hmono.
  ep_step. eapply (wp_mono _ (fun _ s' => exists m', s' = mkEState p m' /\ destroying m0 fl h x' (drop (Z.to_nat (x' - h)) c) f ring m'));
    [|clear m Hds Hb0 Hblk Hr; cbn beta; intros _ s' (m' & -> & Hds')|done].
  - destruct (destroyed_to_next h t f ring k b) as [(Hpast & Ex & Ex')|(Hhere & Ex & Ex')]; [lia|done|done| |];
      fold x in Ex; fold x' in Ex'; clearbody x x'.
    + rewrite bool_decide_eq_true_2 by (f_equal; lia). ep_step. exists m. split; [done|]. by subst x x'.
    + rewrite bool_decide_eq_false_2 by (intros E; apply offsets_inj in E; lia).
      set (i := if bool_decide _ then h mod B else 0) in *. rewrite Ex in Hds.
      pose proof (Z.mod_pos_bound h B ltac:(lia)). pose proof (Z.mod_pos_bound t B ltac:(lia)).
      set (stop := if bool_decide (S k = length ring) then _ else _) in Ex'.
      assert (0 <= i /\ stop <= B) as [Hi0 Hstop].
      { subst i stop. repeat case_bool_decide; try case_match; lia. }
      eapply wp_mono; [eapply (destroy_rest_spec (Z.to_nat B) m0 fl h _ f ring m p k b _ _ i stop); [exact Hds|done|done|lia|lia|..]| |done].
      * unfold zlength in *. rewrite length_drop. lia.
      * lia.
      * cbn beta. intros _ s' (m' & -> & Hm'). exists m'. split; [done|]. rewrite <- Ex', drop_drop in Hm'.
        by replace (Z.to_nat (_ - h) + Z.to_nat (stop - i))%nat with (Z.to_nat (x' - h)) in Hm' by lia.
  - case_bool_decide as Hend.
    + ep_step. exists m'. split; [done|]. assert (x' = t) as E.
      { subst x'. unfold destroyed_to. replace (f + Z.of_nat (S k)) with (f + zlength ring) by (unfold zlength; lia). lia. }
      rewrite E, Hc in Hds'. unfold zlength in Hds'. by rewrite Nat2Z.id, drop_all in Hds'.
    + pose proof (ds_ring _ _ _ _ _ _ _ _ Hds') as [_ Hr]. destruct (Hr _ _ Hk) as (blk' & Hblk' & _ & Hnext').
      pose proof (lookup_lt_Some _ _ _ Hk). destruct (lookup_lt_is_Some_2 ring (S k)) as [y Hy]; [lia|].
      rewrite (rot_lookup_lt _ _ _ Hy) in Hnext'. injection Hnext' as Ey.
      apply (IH m' (S k) b blk'); [done|done|by rewrite <- Ey|lia].
Qed.

(** ** The blocks *)

Lemma release_blocks_spec fuel p m fl b rest :
  let tb := tailBlock (ep_base p) in
  pool_inv tr m fl -> NoDup (b :: rest) -> (tb ∉ rest) -> (forall x, x ∈ b :: rest -> ~ available m fl x) ->
  (forall k x, (b :: rest) !! k = Some x -> exists blk, blocks m !! x = Some blk /\ raw tr blk /\ next blk = default tb (rest !! k)) ->
  (length rest < fuel)%nat ->
  wp (release_blocks tr fuel b) (fun _ s' => exists m' fl', s' = mkEState p m' /\ pool_inv tr m' fl' /\
    mem_frame (b :: rest) m fl [] m' fl') nothrow (mkEState p m).
Proof using Type.
  intros tb. revert m fl b rest. induction fuel as [|fuel IH]; intros m fl b rest Hpool Hnd Htb Hav Hr Hfuel; [lia|].
  cbn [release_blocks]. destruct (Hr O b eq_refl) as (blk & Hblk & Hraw & Hnext).
  ep_step. eapply wp_block_get; [done|]. ep_step. apply wp_with_mem.
  eapply wp_mono; [by eapply release_one| |done]. cbn beta. intros _ m1 (fl1 & Hpool1 & Hf & Hkeep). ep_step. ep_step.
  fold tb. rewrite Hnext. destruct rest as [|y rest]; cbn [lookup default].
  { cbn. rewrite Z.eqb_refl. ep_step. by exists m1, fl1. }
  cbn. rewrite (proj2 (Z.eqb_neq y tb)) by (intros ->; apply Htb; by left).
  eapply wp_mono; [apply (IH m1 fl1 y rest)| |done]; try done.
  - by apply NoDup_cons in Hnd as [_ ?].
  - intros ?. apply Htb. by right.
  - intros x Hx. by apply Hkeep.
  - intros k x Hk. destruct (Hr (S k) x Hk) as (bk & Hbk & ? & ?). exists bk. split; [|done].
    rewrite (proj1 (Hkeep x ltac:(by eapply list_elem_of_lookup_2))). done.
  - cbn in Hfuel. lia.
  - cbn beta. intros _ s' (m' & fl' & -> & Hp' & Hf'). exists m', fl'. split; [done|]. split; [done|]. by eapply mem_frame_trans.
Qed.

(** ** The index headers *)

Lemma free_headers_spec fuel p m x l :
  linked prev (headers p) x l -> (forall y, is_Some (headers p !! y) -> y ∈ l) -> (length l <= fuel)%nat ->
  wp (free_headers fuel x) (fun _ s' => s' = mkEState (set_headers ∅ p) m) nothrow (mkEState p m : EState T).
Proof using Type.
  revert fuel p x. induction l as [|y l IH]; intros fuel p x Hc Hall Hfuel.
  - cbn in Hc. subst x. assert (headers p = ∅) as E.
    { apply map_eq. intros y. rewrite lookup_empty. apply eq_None_not_Some. by intros ?%Hall%not_elem_of_nil. }
    assert (wp (ret tt) (fun _ s' => s' = mkEState (set_headers ∅ p) m) nothrow (mkEState p m : EState T)) as Hret.
    { ep_step. rewrite <- E. by destruct p. }
    by destruct fuel.
  - pose proof (linked_nodup _ _ _ Hc) as [Hy _]%NoDup_cons. destruct Hc as (-> & Hn & hd & Hhd & Hl).
    destruct fuel as [|fuel]; [cbn in Hfuel; lia|]. cbn [free_headers]. rewrite (proj2 (Z.eqb_neq y nullptr)) by done.
    ep_step. eapply wp_header; [done|]. ep_step. ep_step.
    eapply wp_mono; [apply (IH fuel)| |done]; cbn.
    + by apply linked_delete.
    + intros z [h' [Hz Hh]%lookup_delete_Some]. specialize (Hall z). apply elem_of_cons in Hall as [->|]; [done|done|by eexists].
    + cbn in Hfuel. lia.
    + by intros _ s' ->.
Qed.

(** ** The destructor *)

(** The blocks in the order in which they are given back: the tail block
    first, then from the oldest on. *)
Lemma drained_ring m0 fl h t f l tb m :
  destroying m0 fl h t [] f (l ++ [tb]) m -> forall k x, (tb :: l) !! k = Some x ->
  exists blk, blocks m !! x = Some blk /\ raw tr blk /\ next blk = default tb (l !! k).
Proof using TraitsOk0.
  intros [[Hnd Hr] _ _ _] k x Hk.
  assert (exists j, (l ++ [tb]) !! j = Some x /\ rot (l ++ [tb]) !! j = Some (default tb (l !! k))) as (j & Hj & Hrot).
  { destruct k as [|k].
    - injection Hk as <-. exists (length l). split; [by rewrite list_lookup_middle|].
      destruct l as [|y l]; [done|]. cbn [app]. rewrite rot_cons. cbn [length].
      rewrite lookup_app_r by (rewrite length_app; cbn; lia). rewrite length_app. cbn [length].
      by replace (S (length l) - (length l + 1))%nat with O by lia.
    - cbn in Hk. pose proof (lookup_lt_Some _ _ _ Hk). exists k. split; [by rewrite lookup_app_l|].
      apply rot_lookup_lt. destruct (decide (S k < length l)%nat) as [Hlt|Hge].
      + rewrite lookup_app_l by done. destruct (lookup_lt_is_Some_2 l (S k) Hlt) as [y Hy]. by rewrite Hy.
      + rewrite (lookup_ge_None_2 l) by lia. rewrite lookup_app_r by lia. by replace (S k - length l)%nat with O by lia. }
  destruct (Hr _ _ Hj) as (blk & Hblk & [Hho _] & Hnext). exists blk. split; [done|]. split; [|congruence].
  eapply (holds_raw tr); [done|by right].
Qed.

Lemma ExplicitProducer_dtor_spec s fl h t f ring c :
  explicit_inv tr s fl h t f ring c ->
  wp (ExplicitProducer_dtor tr) (fun _ s' => exists fl', headers (prod s') = ∅ /\ pool_inv tr (mem s') fl' /\
    mem_frame ring (mem s) fl [] (mem s') fl') nothrow s.
Proof using TraitsOk0.
  intros Hinv. destruct s as [p m]. pose proof (tail_null tr _ _ _ _ _ _ _ Hinv) as Htail. cbn [prod mem] in *.
  assert (forall m' fl', pool_inv tr m' fl' -> mem_frame ring m fl [] m' fl' ->
    wp (let! p := gets prod in free_headers (base.size (headers p)) (pr_blockIndexRaw p))
      (fun _ s' => exists fl', headers (prod s') = ∅ /\ pool_inv tr (mem s') fl' /\ mem_frame ring m fl [] (mem s') fl')
      nothrow (mkEState p m')) as Hheaders.
  { intros m' fl' Hpool' Hf'. destruct (ei_headers _ _ _ _ _ _ _ _ Hinv) as ((l & Hl & Hall) & _). cbn [prod] in *. ep_step. ep_step.
    eapply wp_mono; [eapply (free_headers_spec _ p m' _ l); [exact Hl|by intros y ?%Hall|]| |done].
    - by eapply linked_size.
    - cbn beta. intros _ s' ->. by exists fl'. }
  unfold ExplicitProducer_dtor. ep_step. ep_step. ep_step. apply wp_with_mem. ep_step. ep_step.
  destruct (decide (ring = [])) as [->|Hne].
  { rewrite Htail. cbn [negb Z.eqb nullptr]. ep_step. apply (Hheaders m fl); [apply (ei_pool _ _ _ _ _ _ _ _ Hinv)|apply mem_frame_refl]. }
  destruct ring as [|b0 ring0] eqn:Er; [done|]. rewrite <- Er in *.
  destruct Htail as (tb & blk & Etb & Hnn & Hlast & Hblk & Hnext & _).
  rewrite Etb, (proj2 (Z.eqb_neq tb nullptr)) by done. cbn [negb].
  pose proof Hinv as []. cbn [prod mem] in *. pose proof ei_counters as []. destruct ei_last as [Hlt|[? _]]; [|done].
  pose proof (explicit_inv_dist _ _ _ _ _ _ _ _ Hinv) as [Hht _].
  assert (length ring <= base.size (blocks m))%nat as Hsize.
  { apply blocks_in_heap; [by destruct ei_ring|]. intros b Hb. destruct (ring_in_blocks tr _ _ _ _ _ _ ei_ring Hb) as [bk ?]. by exists bk. }
  ep_step. ep_step. rewrite ct_head. ep_step. eapply wp_mono; [by eapply half_dequeued_spec| |done]. cbn beta. intros half ? [Hhalf ->].
  ep_step. eapply wp_mono; [eapply (destroy_elements_spec _ m fl h t f ring c p half m 0 tb blk); try done; try lia| |done].
  { by rewrite Etb. }
  { assert (destroyed_to h t f 0 = h) as -> by (unfold destroyed_to; rewrite Z.add_0_r; lia). rewrite Z.sub_diag, drop_0. split; try done.
    eapply ring_weaken; [done|]. intros k b bk _ _ Hbk. split; [by eapply block_repr_holds|by destruct Hbk]. }
  { by rewrite Hnext, Er. }
  cbn beta. intros _ ? (m' & -> & Hds). pose proof (last_Some ring tb) as [[l El] _]; [done|]. rewrite El in *.
  pose proof Hds as [[Hnd _] Hpool' Hav' Hf']. apply NoDup_app in Hnd as (Hndl & Hdis & _).
  assert (tb ∉ l) as Htb by (intros Htb; apply (Hdis tb Htb); by left).
  eapply wp_mono; [eapply (release_blocks_spec _ p m' fl tb l); rewrite ?Etb| |done].
  - done.
  - by constructor.
  - done.
  - intros x Hx. apply Hav'. rewrite elem_of_app, list_elem_of_singleton. apply elem_of_cons in Hx. tauto.
  - by eapply drained_ring.
  - rewrite length_app in Hsize. cbn in Hsize. lia.
  - cbn beta. intros _ ? (m'' & fl' & -> & Hpool'' & Hf''). apply (Hheaders m'' fl' Hpool'').
    eapply mem_frame_trans; [exact Hf'|]. eapply mem_frame_trans; [|exact Hf''].
    apply mem_frame_reorder. intros x. rewrite elem_of_app, list_elem_of_singleton, elem_of_cons. tauto.
Qed.
End destructor.
