(* ===== verification/ImplicitProducer.v ===== *)
(** [ImplicitProducer] of src/concurrentqueue.h: the sub-queue of a thread
    that enqueues without a token.  Its blocks go back to the shared pool as
    soon as they are dequeued completely; a circular index of entries that are
    shared between its successive versions maps block numbers to blocks. *)

From S2P Require Import Prelude MachineInt Traits FreeList Block BlockPool ProducerBase ExplicitProducer.

(** * State *)

Definition INVALID_BLOCK_BASE : Z := 1.

(** [ImplicitProducer::BlockIndexEntry] *)
Record ImplicitEntry := mkImplicitEntry { entry_key : Z; entry_value : loc }.

(** [ImplicitProducer::BlockIndexHeader]; [h_index] is the array [index] of
    pointers to entries, [h_tail] the atomic [tail], [h_prev] the link
    [prev]. *)
Record ImplicitHeader := mkImplicitHeader {
  h_capacity : Z;
  h_tail : Z;
  h_index : list loc;
  h_prev : loc
}.

Record ImplicitProducer := mkImplicit {
  ip_base : ProducerBase;
  nextBlockIndexCapacity : Z;
  ip_blockIndex : loc;
  ip_headers : gmap loc ImplicitHeader;
  ip_entries : gmap loc ImplicitEntry
}.

Definition set_ip_base x (p : ImplicitProducer) : ImplicitProducer :=
  mkImplicit x (nextBlockIndexCapacity p) (ip_blockIndex p) (ip_headers p) (ip_entries p).
Definition set_nextCapacity x (p : ImplicitProducer) : ImplicitProducer :=
  mkImplicit (ip_base p) x (ip_blockIndex p) (ip_headers p) (ip_entries p).
Definition set_ip_blockIndex x (p : ImplicitProducer) : ImplicitProducer :=
  mkImplicit (ip_base p) (nextBlockIndexCapacity p) x (ip_headers p) (ip_entries p).
Definition set_ip_headers x (p : ImplicitProducer) : ImplicitProducer :=
  mkImplicit (ip_base p) (nextBlockIndexCapacity p) (ip_blockIndex p) x (ip_entries p).
Definition set_ip_entries x (p : ImplicitProducer) : ImplicitProducer :=
  mkImplicit (ip_base p) (nextBlockIndexCapacity p) (ip_blockIndex p) (ip_headers p) x.

(** The producer and the memory of its queue. *)
Record IState (T : Type) := mkIState { iprod : ImplicitProducer; imem : Mem T }.
Arguments mkIState {T}. Arguments iprod {T}. Arguments imem {T}.

Section implicit.
Context {U T R : Type} (tr : Traits) (ops : ElementOps U T R).
Context (malloc_ok : nat -> bool) (indeterminate : Indeterminate).
Implicit Types s : IState T.

Let idx := wrap (index_bits tr).
Let sz := wrap (size_bits tr).

(** ** Field accesses *)

Definition i_prod {A} (f : M ImplicitProducer A) : M (IState T) A :=
  zoom iprod (fun p s => mkIState p (imem s)) f.
Definition i_mem {A} (f : M (Mem T) A) : M (IState T) A :=
  zoom imem (fun m s => mkIState (iprod s) m) f.
Definition i_base {A} (f : M ProducerBase A) : M (IState T) A := i_prod (zoom ip_base set_ip_base f).
Definition i_block {A} (b : loc) (f : M (Block T) A) : M (IState T) A := i_mem (at_block b f).
Definition i_getp {A} (f : ImplicitProducer -> A) : M (IState T) A := gets (fun s => f (iprod s)).
Definition i_getb {A} (f : ProducerBase -> A) : M (IState T) A := i_getp (fun p => f (ip_base p)).
Definition i_setp (f : ImplicitProducer -> ImplicitProducer) : M (IState T) unit := i_prod (modify f).
Definition i_setb (f : ProducerBase -> ProducerBase) : M (IState T) unit := i_base (modify f).

Definition i_header (h : loc) : M (IState T) ImplicitHeader :=
  let! hs := i_getp ip_headers in deref NullDeref (hs !! h).
Definition i_set_header (h : loc) (x : ImplicitHeader) : M (IState T) unit :=
  i_header h;; i_setp (fun p => set_ip_headers (<[h := x]> (ip_headers p)) p).
Definition i_entry (e : loc) : M (IState T) ImplicitEntry :=
  let! es := i_getp ip_entries in deref NullDeref (es !! e).
Definition i_set_entry (e : loc) (x : ImplicitEntry) : M (IState T) unit :=
  i_entry e;; i_setp (fun p => set_ip_entries (<[e := x]> (ip_entries p)) p).

(** Stores to [entry->key], [entry->value] and [header->tail]. *)
Definition store_key (e : loc) (k : Z) : M (IState T) unit :=
  let! x := i_entry e in i_set_entry e (mkImplicitEntry k (entry_value x)).
Definition store_value (e : loc) (v : loc) : M (IState T) unit :=
  let! x := i_entry e in i_set_entry e (mkImplicitEntry (entry_key x) v).
Definition store_tail (h : loc) (t : Z) : M (IState T) unit :=
  let! x := i_header h in i_set_header h (mkImplicitHeader (h_capacity x) t (h_index x) (h_prev x)).

(** [index\[i\]] *)
Definition index_at (hd : ImplicitHeader) (i : Z) : M (IState T) loc :=
  deref OutOfBounds (zlookup (h_index hd) i).

Definition i_new_T (b : loc) (i : Z) (u : U) : M (IState T) unit :=
  match make ops u with
  | Some v => i_block b (construct tr i v)
  | None => if noexcept_ctor ops then faults Terminates else throw
  end.

(** ** The block index *)

(** The pointers of the old index, the oldest first: the slots after
    [prevPos], up to [stop]; [fuel] bounds the loop. *)
Fixpoint copy_index (fuel : nat) (old : list loc) (mask stop prevPos : Z) (acc : list loc)
    : M (IState T) (list loc) :=
  match fuel with
  | O => faults OutOfFuel
  | S fuel =>
      let prevPos := Z.land (sz (prevPos + 1)) mask in
      let! e := deref OutOfBounds (zlookup old prevPos) in
      if prevPos =? stop then ret (acc ++ [e]) else copy_index fuel old mask stop prevPos (acc ++ [e])
  end.

(** The new entries are placed after the header. *)
Definition ImplicitProducer_new_block_index : M (IState T) bool :=
  let! prev := i_getp ip_blockIndex in
  let! nextCapacity := i_getp nextBlockIndexCapacity in
  let! prevCapacity := (if prev =? nullptr then ret 0
                        else let! hd := i_header prev in ret (h_capacity hd)) in
  let entryCount := if prev =? nullptr then nextCapacity else prevCapacity in
  let! raw := i_mem (malloc malloc_ok (1 + entryCount)) in
  if raw =? nullptr then ret false
  else
    let! copied :=
      (if negb (prev =? nullptr) then
         let! hd := i_header prev in
         let! l := copy_index (Z.to_nat (h_capacity hd)) (h_index hd) (sz (h_capacity hd - 1))
                     (h_tail hd) (h_tail hd) [] in
         cassert (zlength l =? prevCapacity);; ret l
       else ret []) in
    for_range 0 (Z.to_nat entryCount) (fun i =>
      i_setp (fun p => set_ip_entries
        (<[raw + 1 + i := mkImplicitEntry INVALID_BLOCK_BASE nullptr]> (ip_entries p)) p));;
    let new_entries := (fun i => raw + 1 + i) <$> seqZ 0 entryCount in
    i_setp (fun p => set_ip_headers (<[raw :=
      mkImplicitHeader nextCapacity
        (Z.land (sz (prevCapacity - 1)) (sz (nextCapacity - 1))) (copied ++ new_entries) prev]>
      (ip_headers p)) p);;
    i_setp (set_ip_blockIndex raw);;
    i_setp (set_nextCapacity (sz (Z.shiftl nextCapacity 1)));;
    ret true.

(** [insert_block_index_entry]: the entry for the block that starts at
    [blockStartIndex], or nothing. *)
Definition insert_block_index_entry (allocMode : AllocationMode) (blockStartIndex : Z)
    : M (IState T) (option loc) :=
  let! bi := i_getp ip_blockIndex in
  if bi =? nullptr then ret None
  else
    let! hd := i_header bi in
    let newTail := Z.land (sz (h_tail hd + 1)) (sz (h_capacity hd - 1)) in
    let! idxEntry := index_at hd newTail in
    let! e := i_entry idxEntry in
    if (entry_key e =? INVALID_BLOCK_BASE) || (entry_value e =? nullptr) then
      store_key idxEntry blockStartIndex;;
      store_tail bi newTail;;
      ret (Some idxEntry)
    else
      match allocMode with
      | CannotAlloc => ret None
      | CanAlloc =>
          let! ok := ImplicitProducer_new_block_index in
          if negb (ok : bool) then ret None
          else
            let! bi := i_getp ip_blockIndex in
            let! hd := i_header bi in
            let newTail := Z.land (sz (h_tail hd + 1)) (sz (h_capacity hd - 1)) in
            let! idxEntry := index_at hd newTail in
            let! e := i_entry idxEntry in
            cassert (entry_key e =? INVALID_BLOCK_BASE);;
            store_key idxEntry blockStartIndex;;
            store_tail bi newTail;;
            ret (Some idxEntry)
      end.

Definition rewind_block_index_tail : M (IState T) unit :=
  let! bi := i_getp ip_blockIndex in
  let! hd := i_header bi in
  store_tail bi (Z.land (sz (h_tail hd - 1)) (sz (h_capacity hd - 1))).

(** The slot, and the header it belongs to. *)
Definition get_block_index_index_for_index (index : Z) : M (IState T) (Z * loc) :=
  let index := block_base tr index in
  let! bi := i_getp ip_blockIndex in
  let! hd := i_header bi in
  let tail := h_tail hd in
  let! tailEntry := index_at hd tail in
  let! te := i_entry tailEntry in
  let tailBase := entry_key te in
  cassert (negb (tailBase =? INVALID_BLOCK_BASE));;
  let offset := sz (Z.quot (to_signed (index_bits tr) (idx (index - tailBase))) (BLOCK_SIZE tr)) in
  let i := Z.land (sz (tail + offset)) (sz (h_capacity hd - 1)) in
  let! slot := index_at hd i in
  let! e := i_entry slot in
  cassert ((entry_key e =? index) && negb (entry_value e =? nullptr));;
  ret (i, bi).

Definition get_block_index_entry_for_index (index : Z) : M (IState T) loc :=
  let! r := get_block_index_index_for_index index in
  let! hd := i_header (snd r) in index_at hd (fst r).

(** ** enqueue *)

Definition ImplicitProducer_enqueue (allocMode : AllocationMode) (element : U) : M (IState T) bool :=
  let! currentTailIndex := i_getb tailIndex in
  let newTailIndex := idx (1 + currentTailIndex) in
  let last : M (IState T) bool :=
    let! tb := i_getb tailBlock in
    i_new_T tb currentTailIndex element;;
    i_setb (set_tailIndex newTailIndex);;
    ret true in
  if in_block tr currentTailIndex =? 0 then
    let! head := i_getb headIndex in
    cassert (negb (lessi tr currentTailIndex head));;
    if no_room tr head currentTailIndex then ret false
    else
      let! inserted := insert_block_index_entry allocMode currentTailIndex in
      match inserted with
      | None => ret false
      | Some idxEntry =>
          let! newBlock := i_mem (requisition_block tr malloc_ok indeterminate allocMode) in
          if newBlock =? nullptr then
            rewind_block_index_tail;; store_value idxEntry nullptr;; ret false
          else
            i_block newBlock (reset_empty tr implicit_context);;
            (if negb (noexcept_ctor ops) then
               try_catch (i_new_T newBlock currentTailIndex element)
                 (rewind_block_index_tail;;
                  store_value idxEntry nullptr;;
                  i_mem (add_block_to_free_list tr newBlock);;
                  throw)
             else ret tt);;
            store_value idxEntry newBlock;;
            i_setb (set_tailBlock newBlock);;
            if negb (noexcept_ctor ops) then i_setb (set_tailIndex newTailIndex);; ret true
            else last
      end
  else last.

(** ** dequeue *)

(** The end of the guard: when the block is empty it leaves the index and
    goes back to the pool. *)
Definition release_if_empty (empty : bool) (entry block : loc) : M (IState T) unit :=
  if empty then store_value entry nullptr;; i_mem (add_block_to_free_list tr block) else ret tt.

Definition ImplicitProducer_dequeue : M (IState T) (option R) :=
  let! c := i_base (claim tr One) in
  match c with
  | None => ret None
  | Some (index, _) =>
      let! entry := get_block_index_entry_for_index index in
      let! e := i_entry entry in
      let block := entry_value e in
      let! el := i_block block (read tr index) in
      let finish :=
        i_block block (destroy_element tr index);;
        let! empty := i_block block (set_empty tr implicit_context index) in
        release_if_empty empty entry block in
      match assign ops el with
      | Some r => finish;; ret (Some r)
      | None => if noexcept_assign ops then faults Terminates else finish;; throw
      end
  end.
(** ** enqueue_bulk *)

(** Gives back the blocks of the chain [block] and takes their entries out of
    the index, the first block being the one after [currentTailIndex]. *)
Fixpoint revert_entries (fuel : nat) (block : loc) (currentTailIndex : Z) : M (IState T) unit :=
  if block =? nullptr then ret tt
  else
    match fuel with
    | O => faults OutOfFuel
    | S fuel =>
        let currentTailIndex := idx (currentTailIndex + BLOCK_SIZE tr) in
        let! idxEntry := get_block_index_entry_for_index currentTailIndex in
        store_value idxEntry nullptr;;
        rewind_block_index_tail;;
        let! nx := i_block block (gets next) in
        revert_entries fuel nx currentTailIndex
    end.

Definition revert_blocks (fuel : nat) (firstAllocatedBlock startBlock : loc) (startTailIndex : Z)
    : M (IState T) unit :=
  revert_entries fuel firstAllocatedBlock (block_base tr (idx (startTailIndex - 1)));;
  i_mem (add_blocks_to_free_list tr fuel firstAllocatedBlock);;
  i_setb (set_tailBlock startBlock).

(** The allocation loop; [None] when it fails and everything is undone, else
    the first block it allocated; [bound] limits the loops that undo it. *)
Fixpoint i_allocate_blocks (fuel bound : nat) (allocMode : AllocationMode) (startTailIndex : Z)
    (startBlock : loc) (blockBaseDiff currentTailIndex : Z) (firstAllocatedBlock : loc)
    : M (IState T) (option loc) :=
  match fuel with
  | O => faults OutOfFuel
  | S fuel' =>
      let blockBaseDiff := sz (blockBaseDiff - BLOCK_SIZE tr) in
      let currentTailIndex := idx (currentTailIndex + BLOCK_SIZE tr) in
      let! head := i_getb headIndex in
      cassert (negb (lessi tr currentTailIndex head));;
      let! inserted :=
        (if no_room tr head currentTailIndex then ret None
         else insert_block_index_entry allocMode currentTailIndex) in
      match inserted with
      | None => revert_blocks bound firstAllocatedBlock startBlock startTailIndex;; ret None
      | Some idxEntry =>
          let! newBlock := i_mem (requisition_block tr malloc_ok indeterminate allocMode) in
          if newBlock =? nullptr then
            rewind_block_index_tail;;
            store_value idxEntry nullptr;;
            revert_blocks bound firstAllocatedBlock startBlock startTailIndex;; ret None
          else
            i_block newBlock (reset_empty tr implicit_context);;
            i_block newBlock (modify (set_next nullptr));;
            store_value idxEntry newBlock;;
            let! tb := i_getb tailBlock in
            (if negb (in_block tr startTailIndex =? 0) || negb (firstAllocatedBlock =? nullptr)
             then cassert (negb (tb =? nullptr));; i_block tb (modify (set_next newBlock))
             else ret tt);;
            i_setb (set_tailBlock newBlock);;
            let first := if firstAllocatedBlock =? nullptr then newBlock else firstAllocatedBlock in
            if 0 <? blockBaseDiff
            then i_allocate_blocks fuel' bound allocMode startTailIndex startBlock blockBaseDiff
                   currentTailIndex first
            else ret (Some first)
      end
  end.

(** The innermost loop; also returns whether a constructor threw. *)
Fixpoint i_construct_until (fuel : nat) (b : loc) (i stop : Z) (items : list U)
    : M (IState T) (Z * list U * bool) :=
  if i =? stop then ret (i, items, false)
  else
    match fuel, items with
    | O, _ => faults OutOfFuel
    | _, [] => faults OutOfBounds
    | S fuel, u :: items' =>
        match make ops u with
        | Some v =>
            i_block b (construct tr i v);; i_construct_until fuel b (idx (i + 1)) stop items'
        | None => if noexcept_ctor ops then faults Terminates else ret (i, items, true)
        end
    end.

(** "Enqueue, one block at a time", from the tail block to [endBlock]; if a
    constructor throws, the index of its element is returned. *)
Fixpoint i_fill_blocks (fuel : nat) (endBlock : loc) (newTailIndex i : Z) (items : list U)
    : M (IState T) (option Z) :=
  match fuel with
  | O => faults OutOfFuel
  | S fuel =>
      let! tb := i_getb tailBlock in
      let! r := i_construct_until (Z.to_nat (BLOCK_SIZE tr)) tb i (stop_index tr i newTailIndex)
                  items in
      match r with
      | (i, _, true) => ret (Some i)
      | (i, items, false) =>
          if tb =? endBlock then cassert (i =? newTailIndex);; ret None
          else
            let! nx := i_block tb (gets next) in
            i_setb (set_tailBlock nx);; i_fill_blocks fuel endBlock newTailIndex i items
      end
  end.

(** Destroys the elements of a block from [i] up to [stop]. *)
Fixpoint i_destroy_until (fuel : nat) (b : loc) (i stop : Z) : M (IState T) unit :=
  if i =? stop then ret tt
  else
    match fuel with
    | O => faults OutOfFuel
    | S fuel => i_block b (destroy_element tr i);; i_destroy_until fuel b (idx (i + 1)) stop
    end.

(** The destruction of the elements constructed before an exception. *)
Fixpoint i_destroy_blocks (fuel : nat) (block lastBlockEnqueued : loc) (i stopAt : Z)
    : M (IState T) unit :=
  match fuel with
  | O => faults OutOfFuel
  | S fuel =>
      let stop := stop_index tr i stopAt in
      i_destroy_until (Z.to_nat (BLOCK_SIZE tr)) block i stop;;
      if block =? lastBlockEnqueued then ret tt
      else
        let! nx := i_block block (gets next) in
        i_destroy_blocks fuel nx lastBlockEnqueued stop stopAt
  end.

(** [itemFirst] ranges over [items]. *)
Definition ImplicitProducer_enqueue_bulk (allocMode : AllocationMode) (items : list U) (count : Z)
    : M (IState T) bool :=
  let! startTailIndex := i_getb tailIndex in
  let! startBlock := i_getb tailBlock in
  let before := block_base tr (idx (startTailIndex - 1)) in
  let blockBaseDiff := sz (idx (block_base tr (idx (startTailIndex + count - 1)) - before)) in
  let fuel := S (S (Z.to_nat (count / BLOCK_SIZE tr))) in
  let! allocated :=
    (if 0 <? blockBaseDiff then
       i_allocate_blocks fuel fuel allocMode startTailIndex startBlock blockBaseDiff before nullptr
     else ret (Some nullptr)) in
  match allocated with
  | None => ret false
  | Some firstAllocatedBlock =>
      let! endBlock := i_getb tailBlock in
      let newTailIndex := idx (startTailIndex + count) in
      i_setb (set_tailBlock startBlock);;
      cassert (negb (in_block tr startTailIndex =? 0) || negb (firstAllocatedBlock =? nullptr)
               || (count =? 0));;
      (if (in_block tr startTailIndex =? 0) && negb (firstAllocatedBlock =? nullptr)
       then i_setb (set_tailBlock firstAllocatedBlock) else ret tt);;
      let! thrown := i_fill_blocks fuel endBlock newTailIndex startTailIndex items in
      match thrown with
      | Some constructedStopIndex =>
          let! lastBlockEnqueued := i_getb tailBlock in
          (if negb (is_trivially_destructible ops) then
             i_destroy_blocks fuel
               (if in_block tr startTailIndex =? 0 then firstAllocatedBlock else startBlock)
               lastBlockEnqueued startTailIndex constructedStopIndex
           else ret tt);;
          revert_blocks fuel firstAllocatedBlock startBlock startTailIndex;;
          throw
      | None => i_setb (set_tailIndex newTailIndex);; ret true
      end
  end.

(** ** dequeue_bulk *)

(** The caller's output range is the second component of the state. *)
Definition i_inner {A} (f : M (IState T) A) : M (IState T * list R) A :=
  zoom fst (fun s so => (s, snd so)) f.
Definition i_put (r : R) : M (IState T * list R) unit :=
  modify (fun so => (fst so, snd so ++ [r])).

(** Moves the elements from [i] to [stop] out of the block; also returns
    whether an assignment threw. *)
Fixpoint i_move_until (fuel : nat) (b : loc) (i stop : Z) : M (IState T * list R) (Z * bool) :=
  if i =? stop then ret (i, false)
  else
    match fuel with
    | O => faults OutOfFuel
    | S fuel =>
        let! el := i_inner (i_block b (read tr i)) in
        match assign ops el with
        | Some r =>
            i_put r;; i_inner (i_block b (destroy_element tr i));;
            i_move_until fuel b (idx (i + 1)) stop
        | None => if noexcept_assign ops then faults Terminates else ret (i, true)
        end
    end.

(** Records the elements of [block] from [i] to [endIndex] as dequeued, and
    releases the block if they were the last. *)
Definition release_many (entry block : loc) (i endIndex : Z) : M (IState T) unit :=
  let! empty := i_block block (set_many_empty tr implicit_context i (sz (idx (endIndex - i)))) in
  release_if_empty empty entry block.

(** The handler's loop: destroys the rest of the claimed elements. *)
Fixpoint i_drain_blocks (fuel : nat) (bi : loc) (last slot blockStartIndex i endIndex : Z)
    : M (IState T) unit :=
  match fuel with
  | O => faults OutOfFuel
  | S fuel =>
      let! hd := i_header bi in
      let! entry := index_at hd slot in
      let! e := i_entry entry in
      i_destroy_until (Z.to_nat (BLOCK_SIZE tr)) (entry_value e) i endIndex;;
      release_many entry (entry_value e) blockStartIndex endIndex;;
      if endIndex =? last then ret tt
      else i_drain_blocks fuel bi last (Z.land (sz (slot + 1)) (sz (h_capacity hd - 1)))
             endIndex endIndex (stop_index tr endIndex last)
  end.

Fixpoint i_move_blocks (fuel : nat) (bi : loc) (last slot index : Z)
    : M (IState T * list R) unit :=
  match fuel with
  | O => faults OutOfFuel
  | S fuel =>
      let endIndex := stop_index tr index last in
      let! hd := i_inner (i_header bi) in
      let! entry := i_inner (index_at hd slot) in
      let! e := i_inner (i_entry entry) in
      let! r := i_move_until (Z.to_nat (BLOCK_SIZE tr)) (entry_value e) index endIndex in
      match r with
      | (i, true) => i_inner (i_drain_blocks (S fuel) bi last slot index i endIndex);; throw
      | (i, false) =>
          i_inner (release_many entry (entry_value e) index endIndex);;
          if i =? last then ret tt
          else i_move_blocks fuel bi last (Z.land (sz (slot + 1)) (sz (h_capacity hd - 1))) i
      end
  end.

Definition ImplicitProducer_dequeue_bulk (max : Z) : M (IState T * list R) Z :=
  let! c := i_inner (i_base (claim tr (Many max))) in
  match c with
  | None => ret 0
  | Some (firstIndex, actualCount) =>
      let! r := i_inner (get_block_index_index_for_index firstIndex) in
      i_move_blocks (S (S (Z.to_nat (actualCount / BLOCK_SIZE tr)))) (snd r)
        (idx (firstIndex + actualCount)) (fst r) firstIndex;;
      ret actualCount
  end.

(** ** Construction and destruction *)

Definition new_implicit_producer : ImplicitProducer :=
  mkImplicit (new_producer_base false) (IMPLICIT_INITIAL_INDEX_SIZE tr) nullptr ∅ ∅.

Definition ImplicitProducer_ctor : M (IState T) unit :=
  i_setp (fun _ => new_implicit_producer);;
  ImplicitProducer_new_block_index;;
  ret tt.

(** Destroys the elements from [index] to [tail]; [block] is the block of
    the element before. *)
Fixpoint i_destroy_remaining (fuel : nat) (index tail : Z) (block : loc) : M (IState T) unit :=
  if index =? tail then ret tt
  else
    match fuel with
    | O => faults OutOfFuel
    | S fuel =>
        let! block :=
          (if (in_block tr index =? 0) || (block =? nullptr) then
             (if negb (block =? nullptr) then i_mem (add_block_to_free_list tr block) else ret tt);;
             let! entry := get_block_index_entry_for_index index in
             let! e := i_entry entry in ret (entry_value e)
           else ret block) in
        i_block block (destroy_element tr index);;
        i_destroy_remaining fuel (idx (index + 1)) tail block
    end.

(** The entries live in the allocations of the headers: freeing the header at
    [h] frees the entries behind it. *)
Definition free_entries (h count : Z) : M (IState T) unit :=
  for_range 0 (Z.to_nat count) (fun i =>
    i_setp (fun p => set_ip_entries (delete (h + 1 + i) (ip_entries p)) p)).

Fixpoint i_free_headers (fuel : nat) (h : loc) : M (IState T) unit :=
  match fuel with
  | O => faults OutOfFuel
  | S fuel =>
      let! hd := i_header h in
      let! before := (if h_prev hd =? nullptr then ret 0
                      else let! p := i_header (h_prev hd) in ret (h_capacity p)) in
      free_entries h (h_capacity hd - before);;
      i_setp (fun p => set_ip_headers (delete h (ip_headers p)) p);;
      if h_prev hd =? nullptr then ret tt else i_free_headers fuel (h_prev hd)
  end.

(** The producer's part of the destructor; the thread exit listener is
    unsubscribed by the queue before. *)
Definition ImplicitProducer_dtor : M (IState T) unit :=
  let! tail := i_getb tailIndex in
  let! index := i_getb headIndex in
  cassert ((index =? tail) || lessi tr index tail);;
  let forceFreeLastBlock := negb (index =? tail) in
  i_destroy_remaining (Z.to_nat (idx (tail - index))) index tail nullptr;;
  let! tb := i_getb tailBlock in
  (if negb (tb =? nullptr) && (forceFreeLastBlock || negb (in_block tr tail =? 0))
   then i_mem (add_block_to_free_list tr tb) else ret tt);;
  let! bi := i_getp ip_blockIndex in
  if bi =? nullptr then ret tt
  else
    let! p := i_getp ip_headers in i_free_headers (base.size p) bi.
End implicit.
