(* ===== verification/ImplicitSpec.v ===== *)
(** The specification of [ImplicitProducer]: the invariant that relates its
    blocks and its circular block index to the queue of elements it
    represents, and the rules by which the proofs about it execute the code. *)

From S2P Require Import Prelude MachineInt Traits FreeList FreeListProofs Block BlockPool ProducerBase ProducerBaseProofs ExplicitProducer Contents ImplicitProducer.

(** * Rules for the accessors *)

Section rules.
Context {T : Type} (tr : Traits).
Implicit Types (s : IState T) (p : ImplicitProducer) (m : Mem T).

Lemma wp_i_prod {A} (f : M ImplicitProducer A) (Q : A -> IState T -> Prop) E p m :
  wp f (fun a p' => Q a (mkIState p' m)) (fun p' => E (mkIState p' m)) p ->
  wp (i_prod f) Q E (mkIState p m).
Proof. intros H. by apply wp_zoom. Qed.

Lemma wp_i_mem {A} (f : M (Mem T) A) (Q : A -> IState T -> Prop) E p m :
  wp f (fun a m' => Q a (mkIState p m')) (fun m' => E (mkIState p m')) m ->
  wp (i_mem f) Q E (mkIState p m).
Proof. intros H. by apply wp_zoom. Qed.

Lemma wp_i_getp {A} (f : ImplicitProducer -> A) (Q : A -> IState T -> Prop) E p m :
  Q (f p) (mkIState p m) -> wp (i_getp f) Q E (mkIState p m).
Proof. done. Qed.

Lemma wp_i_getb {A} (f : ProducerBase -> A) (Q : A -> IState T -> Prop) E p m :
  Q (f (ip_base p)) (mkIState p m) -> wp (i_getb f) Q E (mkIState p m).
Proof. done. Qed.

Lemma wp_i_setp f (Q : unit -> IState T -> Prop) E p m :
  Q tt (mkIState (f p) m) -> wp (i_setp f) Q E (mkIState p m).
Proof. done. Qed.

Lemma wp_i_setb f (Q : unit -> IState T -> Prop) E p m :
  Q tt (mkIState (set_ip_base (f (ip_base p)) p) m) -> wp (i_setb f) Q E (mkIState p m).
Proof. done. Qed.

Lemma wp_i_base {A} (f : M ProducerBase A) (Q : A -> IState T -> Prop) E p m a b' :
  f (ip_base p) = Ok a b' -> Q a (mkIState (set_ip_base b' p) m) ->
  wp (i_base f) Q E (mkIState p m).
Proof. intros Hf HQ. apply wp_i_prod, wp_zoom. by eapply wp_ok. Qed.

Lemma wp_i_block {A} b (f : M (Block T) A) blk (Q : A -> IState T -> Prop) E p m :
  blocks m !! b = Some blk ->
  wp f (fun a blk' => Q a (mkIState p (set_blocks (<[b := blk']> (blocks m)) m)))
       (fun blk' => E (mkIState p (set_blocks (<[b := blk']> (blocks m)) m))) blk ->
  wp (i_block b f) Q E (mkIState p m).
Proof. intros Hb Hf. apply wp_i_mem. by eapply wp_at_block. Qed.

Lemma wp_i_header h hd (Q : ImplicitHeader -> IState T -> Prop) E p m :
  ip_headers p !! h = Some hd -> Q hd (mkIState p m) -> wp (i_header h) Q E (mkIState p m).
Proof. intros Hh HQ. unfold i_header. apply wp_bind, wp_i_getp. by eapply wp_deref. Qed.

Lemma wp_i_entry e x (Q : ImplicitEntry -> IState T -> Prop) E p m :
  ip_entries p !! e = Some x -> Q x (mkIState p m) -> wp (i_entry e) Q E (mkIState p m).
Proof. intros Hh HQ. unfold i_entry. apply wp_bind, wp_i_getp. by eapply wp_deref. Qed.

Lemma wp_store_tail h t hd (Q : unit -> IState T -> Prop) E p m :
  ip_headers p !! h = Some hd ->
  Q tt (mkIState (set_ip_headers
     (<[h := mkImplicitHeader (h_capacity hd) t (h_index hd) (h_prev hd)]> (ip_headers p)) p) m) ->
  wp (store_tail h t) Q E (mkIState p m).
Proof.
  intros Hh HQ. unfold store_tail, i_set_header. apply wp_bind. eapply wp_i_header; [done|].
  apply wp_bind. eapply wp_i_header; [done|]. by apply wp_i_setp.
Qed.

Lemma wp_i_set_entry e x x' (Q : unit -> IState T -> Prop) E p m :
  ip_entries p !! e = Some x ->
  Q tt (mkIState (set_ip_entries (<[e := x']> (ip_entries p)) p) m) ->
  wp (i_set_entry e x') Q E (mkIState p m).
Proof. intros Hh HQ. unfold i_set_entry. apply wp_bind. eapply wp_i_entry; [done|]. by apply wp_i_setp. Qed.

Lemma wp_store_key e k x (Q : unit -> IState T -> Prop) E p m :
  ip_entries p !! e = Some x ->
  Q tt (mkIState (set_ip_entries (<[e := mkImplicitEntry k (entry_value x)]> (ip_entries p)) p) m) ->
  wp (store_key e k) Q E (mkIState p m).
Proof.
  intros Hh HQ. unfold store_key. apply wp_bind. eapply wp_i_entry; [done|]. by eapply wp_i_set_entry.
Qed.

Lemma wp_store_value e v x (Q : unit -> IState T -> Prop) E p m :
  ip_entries p !! e = Some x ->
  Q tt (mkIState (set_ip_entries (<[e := mkImplicitEntry (entry_key x) v]> (ip_entries p)) p) m) ->
  wp (store_value e v) Q E (mkIState p m).
Proof.
  intros Hh HQ. unfold store_value. apply wp_bind. eapply wp_i_entry; [done|]. by eapply wp_i_set_entry.
Qed.

Lemma wp_index_at hd i e (Q : loc -> IState T -> Prop) E p m :
  zlookup (h_index hd) i = Some e -> Q e (mkIState p m) -> wp (index_at hd i) Q E (mkIState p m).
Proof. intros. by eapply wp_deref. Qed.
End rules.

(** Symbolic execution of the producer's code. *)
Ltac ip_step :=
  first
  [ lazymatch goal with
    | |- wp (i_getp _) _ _ _ => apply wp_i_getp; cbn beta
    | |- wp (i_getb _) _ _ _ => apply wp_i_getb; cbn beta
    | |- wp (i_setp _) _ _ _ => apply wp_i_setp; cbn beta
    | |- wp (i_setb _) _ _ _ => apply wp_i_setb; cbn beta
    | |- wp (gets _) _ _ _ => apply wp_gets; cbn beta
    end
  | wp_step ].
Ltac ip_steps := repeat ip_step.

(** * Representation *)

(** The entry of the index [hd] at distance [j] after the slot [tl]. *)
Definition slot_entry (p : ImplicitProducer) (hd : ImplicitHeader) (tl j : Z) (e : loc)
    (x : ImplicitEntry) : Prop :=
  zlookup (h_index hd) ((tl + 1 + j) mod h_capacity hd) = Some e /\ ip_entries p !! e = Some x.

Section repr.
Context {T : Type} (tr : Traits) `{!TraitsOk tr} (malloc_ok : nat -> bool).
#[local] Abbreviation w := (index_bits tr).
#[local] Abbreviation sb := (size_bits tr).
#[local] Abbreviation B := (BLOCK_SIZE tr).
Implicit Types (h t f : Z) (bs : list loc) (c : list T) (m : Mem T) (p : ImplicitProducer).

(** The current index when [bs] lists the blocks from number [f] on, the
    last of them at the slot [tl]; the rest of the slots are free. *)
Record slots p f bs tl (hd : ImplicitHeader) : Prop := {
  sl_header : ip_headers p !! ip_blockIndex p = Some hd;
  sl_bound : ip_blockIndex p <> nullptr;
  sl_pow : exists k, 0 <= k < sb /\ h_capacity hd = 2 ^ k;
  sl_next : nextBlockIndexCapacity p = wrap sb (2 * h_capacity hd);
  sl_length : zlength (h_index hd) = h_capacity hd;
  sl_nodup : NoDup (h_index hd);
  sl_tail : 0 <= tl < h_capacity hd;
  sl_room : zlength bs <= h_capacity hd;
  sl_used : forall k b, bs !! k = Some b -> exists e,
    slot_entry p hd tl (Z.of_nat k - zlength bs) e
      (mkImplicitEntry (wrap w ((f + Z.of_nat k) * B)) b);
  sl_free : forall j, 0 <= j < h_capacity hd - zlength bs -> exists e x,
    slot_entry p hd tl j e x /\ entry_value x = nullptr
}.

(** The index between two operations: its tail is the slot of the last block.
    There is none if allocating the first one failed. *)
Definition implicit_index p f bs : Prop :=
  (exists hd, slots p f bs (h_tail hd) hd) \/
  (ip_blockIndex p = nullptr /\ bs = [] /\ exists k, malloc_ok k = false).

(** The entry [e] for the next block has been inserted, without its block. *)
Definition reserved p f bs (e : loc) : Prop :=
  exists hd tl k, slots p f bs tl hd /\ zlength bs < h_capacity hd /\
    h_tail hd = (tl + 1) mod h_capacity hd /\
    slot_entry p hd tl 0 e (mkImplicitEntry k nullptr) /\ k = wrap w ((f + zlength bs) * B).

(** The memory of the index: the headers are linked by [h_prev] from the
    current one on, and every entry is in the allocation of a header. *)
Definition capacity_before (hs : gmap loc ImplicitHeader) hd : Z :=
  if h_prev hd =? nullptr then 0 else from_option h_capacity 0 (hs !! h_prev hd).

Record index_memory (hs : gmap loc ImplicitHeader) (es : gmap loc ImplicitEntry) (bi next : loc) : Prop := {
  im_entries : forall e, is_Some (es !! e) -> 0 < e < next;
  im_headers : forall x, is_Some (hs !! x) -> 0 < x < next;
  im_chain : exists l, linked h_prev hs bi l /\ forall x, is_Some (hs !! x) <-> x ∈ l;
  im_owner : forall e, is_Some (es !! e) -> exists x hd, hs !! x = Some hd /\ x < e <= x + (h_capacity hd - capacity_before hs hd)
}.

Definition addresses p m : Prop := index_memory (ip_headers p) (ip_entries p) (ip_blockIndex p) (next_address m).

(** The blocks hold the contents. *)
Definition blocks_repr m h c f bs : Prop :=
  NoDup bs /\
  forall k b, bs !! k = Some b -> exists blk,
    blocks m !! b = Some blk /\ block_repr tr implicit_context h c (f + Z.of_nat k) blk.

(** [implicit_inv s fl h t f bs c]: the sub-queue holds the elements [c], with
    (unbounded) indices from [h] to [t], in the blocks [bs]. *)
Record implicit_inv (s : IState T) fl h t f bs c : Prop := {
  ii_counters : counters tr (ip_base (iprod s)) h t;
  ii_contents : t - h = zlength c;
  ii_tail : forall b, last bs = Some b -> tailBlock (ip_base (iprod s)) = b;
  ii_first : f * B <= h < (f + 1) * B;
  ii_last : t <= (f + zlength bs) * B < t + B;
  ii_range : (f + zlength bs) * B - h < 2 ^ (w - 1);
  ii_index : implicit_index (iprod s) f bs;
  ii_addresses : addresses (iprod s) (imem s);
  ii_pool : pool_inv tr (imem s) fl;
  ii_blocks : blocks_repr (imem s) h c f bs;
  ii_in_use : forall b, b ∈ bs -> ~ available (imem s) fl b;
  ii_kind : isExplicit (ip_base (iprod s)) = false
}.
End repr.
