(* ===== verification/ImplicitIndex.v ===== *)
(** The block index of [ImplicitProducer]: adding an entry, growing the index,
    taking an entry back, and finding the block of an element. *)

From S2P Require Import Prelude MachineInt Traits FreeList Block BlockPool ProducerBase ProducerBaseProofs ExplicitProducer Contents ImplicitProducer ImplicitSpec.

(** * Slots *)

Section slots.
Context (tr : Traits) `{!TraitsOk tr}.
#[local] Abbreviation w := (index_bits tr).
#[local] Abbreviation sb := (size_bits tr).
#[local] Abbreviation B := (BLOCK_SIZE tr).
Implicit Types (h t f tl : Z) (bs : list loc) (p : ImplicitProducer) (hd : ImplicitHeader).

Lemma index_capacity_pos p f bs tl hd : slots tr p f bs tl hd -> 0 < h_capacity hd < 2 ^ sb.
Proof using Type.
  intros []. destruct sl_pow as (k & Hk & ->). split; [apply Z.pow_pos_nonneg; lia|].
  apply Z.pow_lt_mono_r; lia.
Qed.

Lemma mask_capacity p f bs tl hd x :
  slots tr p f bs tl hd ->
  Z.land (wrap sb x) (wrap sb (h_capacity hd - 1)) = x mod h_capacity hd.
Proof using Type. intros []. destruct sl_pow as (k & Hk & ->). by apply mask_slot. Qed.

(** Distinct distances within the capacity are distinct entries. *)
Lemma slot_entry_inj p f bs tl hd j j' e x x' :
  slots tr p f bs tl hd -> - h_capacity hd < j - j' < h_capacity hd ->
  slot_entry p hd tl j e x -> slot_entry p hd tl j' e x' -> j = j'.
Proof using Type.
  intros Hs Hj [E1 _] [E2 _]. pose proof (index_capacity_pos _ _ _ _ _ Hs) as Hc. destruct Hs.
  unfold zlookup in *. pose proof (Z.mod_pos_bound (tl + 1 + j) (h_capacity hd) ltac:(lia)).
  pose proof (Z.mod_pos_bound (tl + 1 + j') (h_capacity hd) ltac:(lia)).
  rewrite decide_True in E1 by lia. rewrite decide_True in E2 by lia.
  pose proof (NoDup_lookup _ _ _ _ sl_nodup E1 E2) as Heq. apply Z2Nat.inj in Heq; [|lia..].
  apply mod_inj in Heq; lia.
Qed.

Lemma slot_entry_fun p hd tl j e x e' x' :
  slot_entry p hd tl j e x -> slot_entry p hd tl j e' x' -> e = e' /\ x = x'.
Proof using Type. intros [E1 E2] [E3 E4]. assert (e = e') as <- by congruence. split; congruence. Qed.

(** Going once around the index. *)
Lemma slot_entry_around p f bs tl hd j e x :
  slots tr p f bs tl hd ->
  slot_entry p hd tl (j + h_capacity hd) e x <-> slot_entry p hd tl j e x.
Proof using Type.
  intros Hs. pose proof (index_capacity_pos _ _ _ _ _ Hs). unfold slot_entry.
  replace (tl + 1 + (j + h_capacity hd)) with (tl + 1 + j + 1 * h_capacity hd) by lia.
  by rewrite Z.mod_add by lia.
Qed.

Lemma slots_ext p p' f bs tl hd :
  slots tr p f bs tl hd -> ip_blockIndex p' = ip_blockIndex p -> ip_headers p' = ip_headers p ->
  ip_entries p' = ip_entries p -> nextBlockIndexCapacity p' = nextBlockIndexCapacity p ->
  slots tr p' f bs tl hd.
Proof using Type.
  intros [] E1 E2 E3 E4. split; unfold slot_entry in *; rewrite ?E1, ?E2, ?E3, ?E4; done.
Qed.

(** The tail of the header is not part of what [slots] says. *)
Definition with_tail t hd : ImplicitHeader :=
  mkImplicitHeader (h_capacity hd) t (h_index hd) (h_prev hd).

Lemma slots_set_tail p f bs tl hd t :
  slots tr p f bs tl hd ->
  slots tr (set_ip_headers (<[ip_blockIndex p := with_tail t hd]> (ip_headers p)) p) f bs tl
    (with_tail t hd).
Proof using Type. intros []. split; cbn; try done. apply lookup_insert_eq. Qed.

(** Every slot has an entry. *)
Lemma slot_entry_exists p f bs tl hd j :
  slots tr p f bs tl hd -> - zlength bs <= j < h_capacity hd - zlength bs ->
  exists e x, slot_entry p hd tl j e x.
Proof using Type.
  intros [] Hj. destruct (decide (0 <= j)).
  - destruct (sl_free j) as (e & x & ? & _); eauto; lia.
  - destruct (lookup_lt_is_Some_2 bs (Z.to_nat (j + zlength bs))) as [b Hb]; [unfold zlength in *; lia|].
    destruct (sl_used _ _ Hb) as [e He]. unfold zlength in *.
    replace (Z.of_nat _ - _) with j in He by lia. eauto.
Qed.

(** A store to the entry of the slot at [j]. *)
Definition store_entry e x p : ImplicitProducer := set_ip_entries (<[e := x]> (ip_entries p)) p.

Lemma slot_entry_store p f bs tl hd j j' e x x' e1 x1 :
  slots tr p f bs tl hd -> - h_capacity hd < j - j' < h_capacity hd ->
  slot_entry p hd tl j e x -> slot_entry p hd tl j' e1 x1 ->
  slot_entry (store_entry e x' p) hd tl j' e1 (if decide (j = j') then x' else x1).
Proof using Type.
  intros Hs Hj He H1. split; [apply H1|]. cbn. case_decide as E.
  - subst j'. destruct (slot_entry_fun _ _ _ _ _ _ _ _ He H1) as [<- _]. apply lookup_insert_eq.
  - rewrite lookup_insert_ne; [apply H1|]. intros <-. apply E. by eapply slot_entry_inj.
Qed.

(** Stores to the next free slot keep it free, whatever the key. *)
Lemma slots_store_free p f bs tl hd e x k :
  slots tr p f bs tl hd -> zlength bs < h_capacity hd -> slot_entry p hd tl 0 e x ->
  slots tr (store_entry e (mkImplicitEntry k nullptr) p) f bs tl hd.
Proof using Type.
  intros Hs Hroom He. pose proof Hs as []. pose proof (zlength_nonneg bs).
  split; cbn; try done.
  - intros i b Hb. destruct (sl_used _ _ Hb) as [e1 H1]. exists e1.
    pose proof (lookup_lt_Some _ _ _ Hb).
    eapply slot_entry_store in H1; [|exact Hs| |exact He]; [|unfold zlength in *; lia].
    rewrite decide_False in H1 by (unfold zlength; lia). exact H1.
  - intros j Hj. destruct (sl_free j Hj) as (e1 & x1 & H1 & Hx).
    eapply slot_entry_store in H1; [|exact Hs| |exact He]; [|lia].
    eexists _, _. split; [exact H1|]. by case_decide.
Qed.

(** Storing the block makes it the last one. *)
Lemma slots_commit p f bs tl hd e x b :
  slots tr p f bs tl hd -> zlength bs < h_capacity hd -> slot_entry p hd tl 0 e x ->
  slots tr (store_entry e (mkImplicitEntry (wrap w ((f + zlength bs) * B)) b) p)
    f (bs ++ [b]) ((tl + 1) mod h_capacity hd) hd.
Proof using Type.
  intros Hs Hroom He. pose proof (index_capacity_pos _ _ _ _ _ Hs). pose proof Hs as [].
  pose proof (zlength_nonneg bs). assert (zlength (bs ++ [b]) = zlength bs + 1) as El
    by (rewrite zlength_app; unfold zlength; cbn; lia).
  set (p' := store_entry _ _ _).
  assert (forall j e1 x1, slot_entry p' hd ((tl + 1) mod h_capacity hd) j e1 x1 <->
    slot_entry p' hd tl (j + 1) e1 x1) as Hshift.
  { intros j e1 x1. unfold slot_entry. rewrite <- Z.add_assoc, Zplus_mod_idemp_l.
    by replace (tl + 1 + (1 + j)) with (tl + 1 + (j + 1)) by lia. }
  split; cbn; try done; rewrite ?El; [apply Z.mod_pos_bound; lia|lia| |].
  - intros i b' Hb. apply lookup_app_Some in Hb as [Hb|[Hge Hb]].
    + destruct (sl_used _ _ Hb) as [e1 H1]. exists e1. rewrite Hshift.
      pose proof (lookup_lt_Some _ _ _ Hb).
      eapply slot_entry_store in H1; [|exact Hs| |exact He]; [|unfold zlength in *; lia].
      rewrite decide_False in H1 by (unfold zlength; lia).
      replace (Z.of_nat i - (zlength bs + 1) + 1) with (Z.of_nat i - zlength bs) by lia. exact H1.
    + apply list_lookup_singleton_Some in Hb as [Hi ->]. exists e. rewrite Hshift.
      pose proof He as He'. eapply slot_entry_store in He'; [|exact Hs| |exact He]; [|lia].
      rewrite decide_True in He' by done.
      replace (Z.of_nat i - (zlength bs + 1) + 1) with 0 by (unfold zlength in *; lia).
      replace (Z.of_nat i) with (zlength bs) by (unfold zlength in *; lia). exact He'.
  - intros j Hj. destruct (sl_free (j + 1) ltac:(lia)) as (e1 & x1 & H1 & Hx).
    exists e1, x1. rewrite Hshift. split; [|done].
    eapply slot_entry_store in H1; [|exact Hs| |exact He]; [|lia].
    rewrite decide_False in H1 by lia. exact H1.
Qed.

(** The oldest block leaves the index. *)
Lemma slots_release p f b bs tl hd e k :
  slots tr p f (b :: bs) tl hd -> slot_entry p hd tl (- zlength (b :: bs)) e (mkImplicitEntry k b) ->
  slots tr (store_entry e (mkImplicitEntry k nullptr) p) (f + 1) bs tl hd.
Proof using Type.
  intros Hs He. pose proof (index_capacity_pos _ _ _ _ _ Hs). pose proof Hs as [].
  assert (zlength (b :: bs) = zlength bs + 1) as El by (unfold zlength; cbn [length]; lia).
  pose proof (zlength_nonneg bs). rewrite El in *.
  split; cbn; try done; try lia.
  - intros i b' Hb. pose proof (lookup_lt_Some _ _ _ Hb) as Hlt.
    destruct (sl_used (S i) b' Hb) as [e1 H1]. exists e1.
    eapply slot_entry_store in H1; [|exact Hs| |exact He]; [|unfold zlength in *; lia].
    rewrite decide_False in H1 by (unfold zlength in *; lia).
    replace (Z.of_nat i - zlength bs) with (Z.of_nat (S i) - (zlength bs + 1)) by lia.
    replace (f + 1 + Z.of_nat i) with (f + Z.of_nat (S i)) by lia. exact H1.
  - intros j Hj. destruct (decide (j = h_capacity hd - zlength bs - 1)) as [->|Hne].
    + exists e, (mkImplicitEntry k nullptr). split; [|done].
      pose proof He as He'. eapply slot_entry_store in He'; [|exact Hs| |exact He]; [|lia].
      rewrite decide_True in He' by done.
      replace (h_capacity hd - zlength bs - 1) with (- (zlength bs + 1) + h_capacity hd) by lia.
      unfold slot_entry in *. cbn in *.
      replace (tl + 1 + (- (zlength bs + 1) + h_capacity hd))
        with (tl + 1 + - (zlength bs + 1) + 1 * h_capacity hd) by lia.
      rewrite Z.mod_add by lia. exact He'.
    + destruct (sl_free j ltac:(lia)) as (e1 & x1 & H1 & Hx). exists e1, x1. split; [|done].
      eapply slot_entry_store in H1; [|exact Hs| |exact He]; [|lia].
      rewrite decide_False in H1 by lia. exact H1.
Qed.
End slots.

(** * Growing the index *)

Section grow.
Context {T : Type} (tr : Traits) `{!TraitsOk tr} (malloc_ok : nat -> bool).
#[local] Abbreviation w := (index_bits tr).
#[local] Abbreviation sb := (size_bits tr).
#[local] Abbreviation B := (BLOCK_SIZE tr).
Implicit Types (h t f tl : Z) (bs : list loc) (m : Mem T) (p : ImplicitProducer) (hd : ImplicitHeader).

(** [copy_index] visits the [r] slots up to [stop]. *)
Lemma copy_index_spec fuel old k stop r acc (s : IState T) :
  0 <= k < sb -> zlength old = 2 ^ k -> 0 <= stop < 2 ^ k -> 1 <= r <= 2 ^ k -> r <= Z.of_nat fuel ->
  wp (copy_index tr fuel old (wrap sb (2 ^ k - 1)) stop ((stop - r) mod 2 ^ k) acc)
    (fun L s' => s' = s /\ exists L', L = acc ++ L' /\ zlength L' = r /\
       forall j, 0 <= j < r -> zlookup L' j = zlookup old ((stop - r + 1 + j) mod 2 ^ k))
    nothrow s.
Proof using Type.
  intros Hk Hold Hstop. pose proof (Z.pow_pos_nonneg 2 k ltac:(lia) ltac:(lia)) as Hpos.
  revert r acc. induction fuel as [|fuel IH]; intros r acc Hr Hf; [lia|]. cbn [copy_index].
  rewrite mask_slot, Zplus_mod_idemp_l by done.
  destruct (zlookup_is_Some old ((stop - r + 1) mod 2 ^ k)) as [e He].
  { rewrite Hold. apply Z.mod_pos_bound. lia. }
  wp_step. eapply wp_deref; [done|].
  destruct (Z.eqb_spec ((stop - r + 1) mod 2 ^ k) stop) as [Hs|Hs].
  - assert (r = 1) as ->.
    { rewrite <- (Z.mod_small stop (2 ^ k)) in Hs at 2 by lia. apply mod_inj in Hs; lia. }
    wp_step. split; [done|]. exists [e]. split; [done|]. split; [done|].
    intros j Hj. replace j with 0 by lia. by rewrite Z.add_0_r, He.
  - assert (1 < r).
    { destruct (decide (r = 1)) as [->|]; [|lia]. exfalso. apply Hs. rewrite Z.mod_small; lia. }
    replace (stop - r + 1) with (stop - (r - 1)) by lia.
    eapply wp_mono; [apply IH; lia| |done]. cbn beta.
    intros L s' (-> & L' & -> & Hlen & HL'). split; [done|]. exists (e :: L').
    split; [by rewrite <- app_assoc|]. unfold zlength in *. cbn [length]. split; [lia|].
    intros j Hj. destruct (decide (j = 0)) as [->|].
    + rewrite Z.add_0_r. replace (stop - (r - 1)) with (stop - r + 1) by lia. by rewrite He.
    + replace (stop - (r - 1) + j) with (stop - (r - 1) + 1 + (j - 1)) by lia.
      rewrite <- HL' by lia. unfold zlookup. rewrite !decide_True by lia.
      by replace (Z.to_nat j) with (S (Z.to_nat (j - 1))) by lia.
Qed.

(** The pointers copied when the index is full: those of the blocks, in
    order. *)
Definition copied p f bs (L : list loc) : Prop :=
  zlength L = zlength bs /\ NoDup L /\ (forall e, e ∈ L -> is_Some (ip_entries p !! e)) /\
  forall k b, bs !! k = Some b -> exists e, L !! k = Some e /\
    ip_entries p !! e = Some (mkImplicitEntry (wrap w ((f + Z.of_nat k) * B)) b).

Lemma copied_nil p f : copied p f [] [].
Proof using Type.
  split; [done|]. split; [apply NoDup_nil_2|]. split; [by intros e ?%not_elem_of_nil|done].
Qed.

Lemma rotation_copied p f bs tl hd (L : list loc) :
  slots tr p f bs tl hd -> zlength bs = h_capacity hd -> zlength L = h_capacity hd ->
  (forall j, 0 <= j < h_capacity hd -> zlookup L j = zlookup (h_index hd) ((tl + 1 + j) mod h_capacity hd)) ->
  copied p f bs L.
Proof using Type.
  intros Hs Hfull Hlen HL. pose proof (index_capacity_pos _ _ _ _ _ _ Hs). pose proof Hs as [].
  assert (forall i e, L !! i = Some e -> Z.of_nat i < h_capacity hd /\
    exists b, bs !! i = Some b /\
    slot_entry p hd tl (Z.of_nat i - zlength bs) e (mkImplicitEntry (wrap w ((f + Z.of_nat i) * B)) b)) as Hin.
  { intros i e Hi. pose proof (lookup_lt_Some _ _ _ Hi).
    assert (Z.of_nat i < h_capacity hd) by (unfold zlength in *; lia). split; [done|].
    destruct (lookup_lt_is_Some_2 bs i) as [b Hb]; [unfold zlength in *; lia|]. exists b. split; [done|].
    destruct (sl_used _ _ Hb) as [e' He'].
    assert (zlookup L (Z.of_nat i) = Some e) as Hz
      by (unfold zlookup; rewrite decide_True by lia; by rewrite Nat2Z.id).
    rewrite HL in Hz by lia. pose proof He' as [E1 E2].
    replace (tl + 1 + (Z.of_nat i - zlength bs)) with (tl + 1 + Z.of_nat i + (-1) * h_capacity hd)
      in E1 by lia.
    rewrite Z.mod_add in E1 by lia. rewrite Hz in E1. injection E1 as ->. done. }
  split; [lia|]. split; [|split].
  - apply NoDup_alt. intros i j e Hi Hj. destruct (Hin _ _ Hi) as (Hi' & b & _ & E1).
    destruct (Hin _ _ Hj) as (Hj' & b' & _ & E2).
    assert (Z.of_nat i - zlength bs = Z.of_nat j - zlength bs); [|lia].
    eapply slot_entry_inj; [exact Hs| |exact E1|exact E2]; lia.
  - intros e [i Hi]%list_elem_of_lookup. destruct (Hin _ _ Hi) as (_ & b & _ & [_ E]). eauto.
  - intros i b Hb. pose proof (lookup_lt_Some _ _ _ Hb).
    destruct (lookup_lt_is_Some_2 L i) as [e He]; [unfold zlength in *; lia|].
    exists e. split; [done|]. destruct (Hin _ _ He) as (_ & b' & Hb' & [_ E]).
    assert (b' = b) as -> by congruence. done.
Qed.

(** The loop that constructs the new entries behind the header at [raw]. *)
Lemma new_entries_spec p m raw n :
  0 <= n ->
  wp (for_range 0 (Z.to_nat n) (fun i => i_setp (T := T) (fun p => set_ip_entries
        (<[raw + 1 + i := mkImplicitEntry INVALID_BLOCK_BASE nullptr]> (ip_entries p)) p)))
    (fun _ s' => exists es, s' = mkIState (set_ip_entries es p) m /\
       (forall j, 0 <= j < n -> es !! (raw + 1 + j) = Some (mkImplicitEntry INVALID_BLOCK_BASE nullptr)) /\
       (forall e, ~ (raw < e <= raw + n) -> es !! e = ip_entries p !! e))
    nothrow (mkIState p m).
Proof using Type.
  intros Hn. eapply wp_mono;
    [apply (wp_for_range (fun i s' => exists es, s' = mkIState (set_ip_entries es p) m /\
       (forall j, 0 <= j < i -> es !! (raw + 1 + j) = Some (mkImplicitEntry INVALID_BLOCK_BASE nullptr)) /\
       (forall e, ~ (raw < e <= raw + i) -> es !! e = ip_entries p !! e)))| |done].
  - exists (ip_entries p). split; [by destruct p|]. split; [intros; lia|done].
  - intros i s' Hi (es & -> & Hnew & Hold). apply wp_i_setp. eexists. split; [done|]. cbn. split.
    + intros j Hj. destruct (decide (j = i)) as [->|]; [apply lookup_insert_eq|].
      rewrite lookup_insert_ne by lia. apply Hnew. lia.
    + intros e He. rewrite lookup_insert_ne by lia. apply Hold. lia.
  - cbn beta. intros _ s'. by rewrite Z.add_0_l, Z2Nat.id by done.
Qed.

(** There is room for another block, in a slot that was never used. *)
Definition fresh p f bs : Prop :=
  exists hd, slots tr p f bs (h_tail hd) hd /\ zlength bs < h_capacity hd /\
    exists e, slot_entry p hd (h_tail hd) 0 e (mkImplicitEntry INVALID_BLOCK_BASE nullptr).

Lemma new_slots p p' f bs L raw k n prv :
  copied p f bs L -> 0 <= k < sb -> n = 2 ^ k - zlength bs -> 0 < n -> 0 < raw ->
  (forall e, is_Some (ip_entries p !! e) -> e < raw) ->
  ip_blockIndex p' = raw -> nextBlockIndexCapacity p' = wrap sb (2 * 2 ^ k) ->
  ip_headers p' !! raw = Some (mkImplicitHeader (2 ^ k) ((zlength bs - 1) mod 2 ^ k)
    (L ++ ((fun i => raw + 1 + i) <$> seqZ 0 n)) prv) ->
  (forall j, 0 <= j < n ->
     ip_entries p' !! (raw + 1 + j) = Some (mkImplicitEntry INVALID_BLOCK_BASE nullptr)) ->
  (forall e, ~ (raw < e <= raw + n) -> ip_entries p' !! e = ip_entries p !! e) ->
  fresh p' f bs.
Proof using Type.
  intros (HL & Hnd & Hdom & Hused) Hk -> Hn Hraw Hlow Ebi Enext Hhd Hnew Hold.
  set (hd := mkImplicitHeader _ _ _ _) in Hhd. set (n := 2 ^ k - zlength bs) in *.
  pose proof (zlength_nonneg bs). assert (0 < 2 ^ k) by lia.
  assert (zlength ((fun i => raw + 1 + i) <$> seqZ 0 n) = n) as Elen
    by (unfold zlength; rewrite length_fmap, length_seqZ; lia).
  assert (forall x, zlength bs <= x < 2 ^ k -> zlookup (h_index hd) x = Some (raw + 1 + (x - zlength bs))) as Htop.
  { intros x Hx. cbn. unfold zlookup, zlength in *. rewrite decide_True by lia.
    rewrite lookup_app_r by lia. rewrite list_lookup_fmap, lookup_seqZ_lt by lia. cbn. f_equal. lia. }
  assert (forall j, (h_tail hd + 1 + j) mod h_capacity hd = (zlength bs + j) mod 2 ^ k) as Hslot.
  { intros j. cbn. replace (_ + 1 + j) with ((zlength bs - 1) mod 2 ^ k + (1 + j)) by lia.
    rewrite Zplus_mod_idemp_l. f_equal. lia. }
  assert (forall j, 0 <= j < n -> slot_entry p' hd (h_tail hd) j (raw + 1 + j)
    (mkImplicitEntry INVALID_BLOCK_BASE nullptr)) as Hfree.
  { intros j Hj. split; [|by apply Hnew]. rewrite Hslot, Z.mod_small, Htop by lia. f_equal. lia. }
  exists hd. split; [|split; [cbn; lia|exists (raw + 1); rewrite <- (Z.add_0_r (raw + 1)); by apply Hfree]].
  split; try done.
  - by rewrite Ebi.
  - rewrite Ebi. unfold nullptr. lia.
  - by exists k.
  - cbn. rewrite zlength_app. lia.
  - cbn. apply NoDup_app. split; [done|]. split.
    + intros e He%Hdom%Hlow. rewrite list_elem_of_fmap. intros (i & -> & Hi%elem_of_seqZ). lia.
    + apply NoDup_fmap; [intros ???; lia|apply NoDup_seqZ].
  - by apply Z.mod_pos_bound.
  - cbn. lia.
  - intros i b Hb. pose proof (lookup_lt_Some _ _ _ Hb). destruct (Hused _ _ Hb) as (e & He & Ex).
    exists e. split.
    + rewrite Hslot. replace (zlength bs + (Z.of_nat i - zlength bs)) with (Z.of_nat i) by lia.
      pose proof (lookup_lt_Some _ _ _ He). rewrite Z.mod_small by (unfold zlength in *; lia). cbn.
      rewrite zlookup_app_l by (unfold zlength; lia). unfold zlookup. rewrite decide_True by lia.
      by rewrite Nat2Z.id.
    + rewrite Hold; [done|]. assert (e < raw) by (apply Hlow; eauto). lia.
  - intros j Hj. eexists _, _. split; [by apply Hfree|done].
Qed.

(** When the index is grown: at the start, or when it is full. *)
Definition must_grow p f bs : Prop :=
  (exists hd, slots tr p f bs (h_tail hd) hd /\ zlength bs = h_capacity hd /\ 2 * h_capacity hd < 2 ^ sb) \/
  ip_blockIndex p = nullptr /\ bs = [] /\ exists k, 0 < k < sb /\ nextBlockIndexCapacity p = 2 ^ k.

Lemma must_grow_capacity p f bs :
  must_grow p f bs ->
  exists k, 0 < k < sb /\ nextBlockIndexCapacity p = 2 ^ k /\ zlength bs < 2 ^ k /\
    (if ip_blockIndex p =? nullptr then nextBlockIndexCapacity p else zlength bs) = 2 ^ k - zlength bs.
Proof using Type.
  intros [(hd & Hs & Hfull & Hdouble)|(-> & -> & k & Hk & E)].
  - pose proof (index_capacity_pos _ _ _ _ _ _ Hs). destruct Hs.
    rewrite (proj2 (Z.eqb_neq _ _)) by done. destruct sl_pow as (k & Hk & Ek).
    rewrite (wrap_small (2 * h_capacity hd)) in sl_next by lia.
    assert (2 ^ (k + 1) = 2 * h_capacity hd) as E by (rewrite Z.pow_add_r by lia; lia).
    assert (k + 1 < sb) by (apply (Z.pow_lt_mono_r_iff 2); rewrite ?E; lia).
    exists (k + 1). rewrite E. split_and!; done || lia.
  - exists k. rewrite E. change (zlength (@nil loc)) with 0. cbn.
    pose proof (Z.pow_pos_nonneg 2 k). split_and!; lia.
Qed.

(** The number of entries copied, and the copy. *)
Lemma previous_capacity_spec p m f bs :
  must_grow p f bs ->
  wp (if ip_blockIndex p =? nullptr then ret 0
      else let! hd := i_header (ip_blockIndex p) in ret (h_capacity hd))
    (fun n s' => s' = mkIState p m /\ n = zlength bs) nothrow (mkIState p m : IState T).
Proof using Type.
  intros [(hd & [] & Hfull & _)|(-> & -> & _)].
  - rewrite (proj2 (Z.eqb_neq _ _)) by done. ip_step. eapply wp_i_header; [done|]. by ip_step.
  - rewrite Z.eqb_refl. by ip_step.
Qed.

Lemma copy_spec p m f bs :
  must_grow p f bs ->
  wp (if negb (ip_blockIndex p =? nullptr) then
        let! hd := i_header (ip_blockIndex p) in
        let! l := copy_index tr (Z.to_nat (h_capacity hd)) (h_index hd) (wrap sb (h_capacity hd - 1))
                    (h_tail hd) (h_tail hd) [] in
        cassert (zlength l =? zlength bs);; ret l
      else ret [])
    (fun L s' => s' = mkIState p m /\ copied p f bs L) nothrow (mkIState p m : IState T).
Proof using Type.
  intros [(hd & Hs & Hfull & _)|(-> & -> & _)].
  - pose proof (index_capacity_pos _ _ _ _ _ _ Hs). pose proof Hs as [].
    rewrite (proj2 (Z.eqb_neq _ _)) by done. cbn [negb]. ip_step. eapply wp_i_header; [done|].
    ip_step. destruct sl_pow as (k & Hk & Ek).
    replace (copy_index tr (Z.to_nat (h_capacity hd)) (h_index hd) (wrap sb (h_capacity hd - 1)) (h_tail hd) (h_tail hd) [])
      with (copy_index (T := T) tr (Z.to_nat (h_capacity hd)) (h_index hd) (wrap sb (2 ^ k - 1)) (h_tail hd)
              ((h_tail hd - 2 ^ k) mod 2 ^ k) []).
    2:{ rewrite <- Ek. f_equal. symmetry. apply Z.mod_unique_pos with (-1); lia. }
    eapply wp_mono; [apply (copy_index_spec _ _ k _ (2 ^ k)); try lia| |done]. cbn beta.
    intros L s' (-> & L' & -> & Hlen & HL'). cbn [app]. ip_steps; [apply Z.eqb_eq; lia|].
    split; [done|]. eapply rotation_copied; [done|done|lia|]. rewrite Ek. intros j Hj.
    rewrite HL' by done. f_equal. replace (h_tail hd + 1 + j) with (h_tail hd - 2 ^ k + 1 + j + 1 * 2 ^ k) by lia.
    by rewrite Z.mod_add by lia.
  - rewrite Z.eqb_refl. cbn [negb]. ip_step. split; [done|]. apply copied_nil.
Qed.

(** The new header joins the others; the new entries are in its allocation. *)
Lemma index_memory_grown p m es a n k f bs x L :
  must_grow p f bs -> addresses p m -> a = next_address m -> 0 < a -> n = 2 ^ k - zlength bs -> 0 <= n ->
  (forall e, ~ (a < e <= a + n) -> es !! e = ip_entries p !! e) ->
  index_memory (<[a := mkImplicitHeader (2 ^ k) x L (ip_blockIndex p)]> (ip_headers p)) es a (a + (1 + n)).
Proof using Type.
  intros Hgrow [] Ea Ha En Hn Hold. set (hd := mkImplicitHeader _ _ _ _).
  assert (ip_headers p !! a = None) as Hnew by (apply eq_None_not_Some; intros ?%im_headers; lia).
  split.
  - intros e He. destruct (decide (a < e <= a + n)); [lia|]. rewrite Hold in He by done.
    pose proof (im_entries e He). lia.
  - intros y [z [[<- _]|[_ Hz]]%lookup_insert_Some]; [lia|]. pose proof (im_headers y ltac:(eauto)). lia.
  - destruct im_chain as (l & Hl & Hall). exists (a :: l). split.
    + split; [done|]. split; [unfold nullptr; lia|]. exists hd. rewrite lookup_insert_eq. split; [done|].
      apply linked_insert; [|done]. intros Hin%Hall. rewrite Hnew in Hin. by destruct Hin.
    + intros y. rewrite elem_of_cons, <- Hall. destruct (decide (y = a)) as [->|].
      * rewrite lookup_insert_eq. split; [by left|by eauto].
      * rewrite lookup_insert_ne by done. split; [by right|by intros [|]].
  - intros e He. destruct (decide (a < e <= a + n)) as [Hin|Hout].
    + exists a, hd. rewrite lookup_insert_eq. split; [done|]. cbn [h_capacity hd].
      assert (capacity_before (<[a := hd]> (ip_headers p)) hd = zlength bs) as ->; [|lia]. unfold capacity_before. cbn [h_prev hd].
      destruct Hgrow as [(hd0 & [] & Hfull & _)|(-> & -> & _)]; [|done].
      rewrite (proj2 (Z.eqb_neq _ _)) by done. rewrite lookup_insert_ne by congruence. by rewrite sl_header.
    + rewrite Hold in He by done. destruct (im_owner e He) as (y & z & Hz & Hin). exists y, z.
      rewrite lookup_insert_ne by congruence. split; [done|]. unfold capacity_before in *. destruct (Z.eqb_spec (h_prev z) nullptr); [done|].
      destruct im_chain as (l & Hl & Hall). assert (y ∈ l) as Hy by (apply Hall; eauto).
      destruct (linked_next _ _ _ _ _ Hl Hy Hz) as [?|Hp]; [done|]. rewrite lookup_insert_ne; [done|].
      intros Eq. rewrite <- Eq, Hnew in Hp. by destruct Hp.
Qed.

Lemma i_new_block_index_spec p m f bs fl :
  must_grow p f bs -> addresses p m -> pool_inv tr m fl ->
  wp (ImplicitProducer_new_block_index tr malloc_ok) (fun ok s' => exists p' m',
      s' = mkIState p' m' /\ allocated m m' /\ ip_base p' = ip_base p /\ addresses p' m' /\
      if ok : bool then fresh p' f bs else p' = p /\ exists n, malloc_ok n = false)
    nothrow (mkIState p m).
Proof using All.
  intros Hgrow Haddr Hpool. pose proof (pi_next _ _ _ Hpool) as Hnext0. pose proof (zlength_nonneg bs).
  destruct (must_grow_capacity _ _ _ Hgrow) as (k & Hk & Enext & Hlt & Ecount).
  unfold ImplicitProducer_new_block_index. ip_steps.
  eapply wp_mono; [by eapply previous_capacity_spec| |done]. cbn beta. intros ? s0 [-> ->].
  rewrite Ecount. set (n := 2 ^ k - zlength bs). rewrite Enext.
  ip_step. apply wp_i_mem, wp_malloc; intros Hok; cbn beta.
  2:{ rewrite Z.eqb_refl. ip_step. exists p. eexists. split; [done|]. split; [by eexists _, _|].
      split_and!; try done. by eexists. }
  set (a := next_address m) in *. set (m1 := set_allocator _ _ m).
  rewrite (proj2 (Z.eqb_neq _ _)) by (unfold nullptr; lia).
  ip_step. eapply wp_mono; [by eapply copy_spec| |done]. cbn beta. intros L s0 [-> Hcopied].
  ip_step. eapply wp_mono; [apply new_entries_spec; lia| |done]. cbn beta.
  intros _ s0 (es & -> & Hnew & Hold). ip_steps.
  eexists _, m1. split; [done|]. split; [by eexists _, _; split; [done|lia]|]. split; [done|].
  split; [eapply (index_memory_grown p m es a n k f bs); done || lia|]. eapply (new_slots p _ f bs L a k n); try done; try lia.
  - intros e He. pose proof (im_entries _ _ _ _ Haddr e He). lia.
  - cbn. rewrite mask_slot by lia. apply lookup_insert_eq.
Qed.
End grow.

(** * Inserting an entry, and taking it back *)

Section insert.
Context {T : Type} (tr : Traits) `{!TraitsOk tr} (malloc_ok : nat -> bool).
#[local] Abbreviation w := (index_bits tr).
#[local] Abbreviation sb := (size_bits tr).
#[local] Abbreviation B := (BLOCK_SIZE tr).
Implicit Types (h t f tl : Z) (bs : list loc) (m : Mem T) (p : ImplicitProducer) (hd : ImplicitHeader).

(** The base of a block is never the invalid key. *)
Lemma key_valid q : (wrap w (q * B) =? INVALID_BLOCK_BASE) = false.
Proof using TraitsOk0.
  apply Z.eqb_neq. intros E. pose proof (block_size_gt_1 tr).
  assert (wrap w (q * B) mod B = 1 mod B) as E' by (by rewrite E).
  rewrite index_mod_block, Z.mod_mul, Z.mod_1_l in E' by (done || lia). done.
Qed.

Lemma addresses_store e x p m :
  addresses p m -> is_Some (ip_entries p !! e) -> addresses (store_entry e x p) m.
Proof using Type.
  intros [] He.
  assert (forall e', is_Some (<[e := x]> (ip_entries p) !! e') -> is_Some (ip_entries p !! e')) as Hd.
  { intros e' He'. destruct (decide (e = e')) as [->|]; [done|]. by rewrite lookup_insert_ne in He'. }
  split; cbn; auto.
Qed.

Lemma addresses_tail p m hd tl :
  addresses p m -> ip_headers p !! ip_blockIndex p = Some hd ->
  addresses (set_ip_headers (<[ip_blockIndex p := with_tail tl hd]> (ip_headers p)) p) m.
Proof using Type.
  intros [] Hhd. set (hs' := <[ip_blockIndex p := with_tail tl hd]> (ip_headers p)).
  assert (forall x, (fun y => (h_capacity y, h_prev y)) <$> hs' !! x = (fun y => (h_capacity y, h_prev y)) <$> ip_headers p !! x) as Hsame.
  { intros x. unfold hs'. destruct (decide (ip_blockIndex p = x)) as [<-|]; [|by rewrite lookup_insert_ne].
    by rewrite lookup_insert_eq, Hhd. }
  assert (forall x, is_Some (hs' !! x) <-> is_Some (ip_headers p !! x)) as Hd.
  { intros x. specialize (Hsame x). destruct (hs' !! x), (ip_headers p !! x); split; by eauto. }
  split; cbn; fold hs'; try done.
  - intros x. rewrite Hd. auto.
  - destruct im_chain as (l & Hl & Hall). exists l. split; [by eapply linked_update|]. intros x. by rewrite Hd.
  - intros e He. destruct (im_owner e He) as (x & y & Hy & Hin). pose proof (Hsame x) as E. rewrite Hy in E.
    destruct (hs' !! x) as [y'|] eqn:Hy'; [|done]. cbn in E. injection E as E1 E2. exists x, y'. split; [done|].
    assert (capacity_before hs' y' = capacity_before (ip_headers p) y) as ->; [|by rewrite E1].
    unfold capacity_before. rewrite E2. case_match; [done|]. specialize (Hsame (h_prev y)).
    destruct (hs' !! h_prev y), (ip_headers p !! h_prev y); try done. cbn in *. congruence.
Qed.

(** What every step on the index leaves alone. *)
Definition index_step p m p' : Prop := ip_base p' = ip_base p /\ addresses p' m.

Lemma reserve_spec p m f bs hd e x0 x :
  slots tr p f bs (h_tail hd) hd -> zlength bs < h_capacity hd ->
  slot_entry p hd (h_tail hd) 0 e x0 -> entry_value x0 = nullptr ->
  x = wrap w ((f + zlength bs) * B) -> addresses p m ->
  wp (store_key e x;; store_tail (ip_blockIndex p) ((h_tail hd + 1) mod h_capacity hd);; ret (Some e))
    (fun r s' => exists p', s' = mkIState p' m /\ index_step p m p' /\
       exists e', r = Some e' /\ reserved tr p' f bs e') nothrow (mkIState p m).
Proof using Type.
  intros Hs Hroom He Hx0 -> Ha. pose proof Hs as []. pose proof He as [E1 E2].
  ip_step. eapply wp_store_key; [done|]. rewrite Hx0. ip_step. eapply wp_store_tail; [done|]. ip_step.
  fold (store_entry e (mkImplicitEntry (wrap w ((f + zlength bs) * B)) nullptr) p).
  set (p1 := store_entry _ _ _). eexists. split; [done|]. split.
  { split; [done|]. apply (addresses_tail p1); [by apply addresses_store; [|eauto]|done]. }
  exists e. split; [done|]. fold (with_tail ((h_tail hd + 1) mod h_capacity hd) hd).
  assert (slots tr p1 f bs (h_tail hd) hd) as Hs1 by (by eapply slots_store_free).
  exists (with_tail ((h_tail hd + 1) mod h_capacity hd) hd), (h_tail hd), (wrap w ((f + zlength bs) * B)).
  split_and!; try done.
  - exact (slots_set_tail _ _ _ _ _ _ _ Hs1).
  - split; [exact E1|]. cbn. apply lookup_insert_eq.
Qed.

(** The test for a free slot, and its result. *)
Lemma next_slot_spec p f bs hd :
  slots tr p f bs (h_tail hd) hd -> (nullptr ∉ bs) ->
  exists e x, slot_entry p hd (h_tail hd) 0 e x /\
    ((entry_key x =? INVALID_BLOCK_BASE) || (entry_value x =? nullptr)) = (zlength bs <? h_capacity hd) /\
    (zlength bs < h_capacity hd -> entry_value x = nullptr).
Proof using TraitsOk0.
  intros Hs Hnull. pose proof (index_capacity_pos _ _ _ _ _ _ Hs). pose proof Hs as [].
  pose proof (zlength_nonneg bs). destruct (Z.ltb_spec (zlength bs) (h_capacity hd)).
  - destruct (sl_free 0) as (e & x & He & Hx); [lia|]. exists e, x. split; [done|].
    split; [|done]. rewrite Hx. by rewrite orb_true_r.
  - destruct (lookup_lt_is_Some_2 bs 0) as [b Hb]; [unfold zlength in *; lia|].
    destruct (sl_used _ _ Hb) as [e He]. rewrite <- slot_entry_around in He by done.
    replace (Z.of_nat 0 - zlength bs + h_capacity hd) with 0 in He by lia.
    eexists _, _. split; [exact He|]. split; [|lia]. cbn [entry_key entry_value]. rewrite key_valid. cbn.
    apply Z.eqb_neq. intros ->. apply Hnull. by eapply list_elem_of_lookup_2.
Qed.

Lemma insert_spec allocMode p m f bs fl x :
  implicit_index tr malloc_ok p f bs -> addresses p m -> pool_inv tr m fl ->
  (nullptr ∉ bs) -> zlength bs * B < 2 ^ (sb - 1) -> x = wrap w ((f + zlength bs) * B) ->
  wp (insert_block_index_entry tr malloc_ok allocMode x) (fun r s' => exists p' m',
      s' = mkIState p' m' /\ allocated m m' /\ ip_base p' = ip_base p /\ addresses p' m' /\
      match r with
      | Some e => reserved tr p' f bs e
      | None => implicit_index tr malloc_ok p' f bs /\ no_memory malloc_ok allocMode
      end) nothrow (mkIState p m).
Proof using All.
  intros Hix Ha Hpool Hnull Hsmall Hx. pose proof (block_size_gt_1 tr) as HB.
  unfold insert_block_index_entry. ip_steps.
  destruct Hix as [(hd & Hs)|(Hbi & -> & Hmal)].
  2:{ rewrite Hbi, Z.eqb_refl. ip_step. exists p, m. split_and!; try done; [apply allocated_refl| |by right].
      right. by split_and!. }
  rewrite (proj2 (Z.eqb_neq _ _)) by apply Hs. ip_step. eapply wp_i_header; [apply Hs|].
  ip_step. rewrite (mask_capacity tr _ _ _ _ _ _ Hs).
  destruct (next_slot_spec _ _ _ _ Hs Hnull) as (e & x0 & He & Htest & Hfree).
  rewrite <- (Z.add_0_r (h_tail hd + 1)) at 1.
  eapply wp_index_at; [apply He|]. ip_step. eapply wp_i_entry; [apply He|]. rewrite Htest.
  destruct (Z.ltb_spec (zlength bs) (h_capacity hd)) as [Hroom|Hfull].
  - eapply wp_mono; [eapply reserve_spec; [exact Hs|done|exact He|auto|done|done]| |done]. cbn beta.
    intros r s' (p' & -> & [Eb Ha'] & e' & -> & Hr). exists p', m. split_and!; try done. apply allocated_refl.
  - destruct allocMode.
    2:{ ip_step. exists p, m. split_and!; try done; [apply allocated_refl| |by left]. left. by exists hd. }
    ip_step. eapply wp_mono; [eapply (i_new_block_index_spec tr malloc_ok p m f bs fl)| |done]; try done.
    { left. exists hd. pose proof (sl_room _ _ _ _ _ _ Hs). split; [done|]. split; [lia|].
      pose proof (size_le_index tr). pose proof (pow_half (w := sb) ltac:(lia)). nia. }
    cbn beta. intros ok s' (p1 & m1 & -> & Hal & Eb & Ha1 & Hok). destruct ok; cbn [negb].
    2:{ destruct Hok as [-> Hmal]. ip_step. exists p, m1. split_and!; try done; [|by right]. left. by exists hd. }
    destruct Hok as (hd1 & Hs1 & Hroom1 & e1 & He1). ip_steps.
    eapply wp_i_header; [apply Hs1|]. ip_step. rewrite (mask_capacity tr _ _ _ _ _ _ Hs1).
    rewrite <- (Z.add_0_r (h_tail hd1 + 1)) at 1.
    eapply wp_index_at; [apply He1|]. ip_step. eapply wp_i_entry; [apply He1|]. ip_step. ip_step; [done|].
    eapply wp_mono; [eapply reserve_spec; [exact Hs1|done|exact He1|done|done|done]| |done]. cbn beta.
    intros r s' (p' & -> & [Eb' Ha'] & e' & -> & Hr). exists p', m1. rewrite Eb'. by split_and!.
Qed.

(** Committing: the entry gets its block. *)
Lemma commit_spec p m f bs e b :
  reserved tr p f bs e -> addresses p m ->
  wp (store_value e b) (fun _ s' => exists p', s' = mkIState p' m /\ index_step p m p' /\
    implicit_index tr malloc_ok p' f (bs ++ [b])) nothrow (mkIState p m).
Proof using Type.
  intros (hd & tl & k & Hs & Hroom & Etail & He & ->) Ha. pose proof He as [E1 E2].
  eapply wp_store_value; [done|]. cbn [entry_key].
  fold (store_entry e (mkImplicitEntry (wrap w ((f + zlength bs) * B)) b) p).
  eexists. split; [done|]. split; [split; [done|by eapply addresses_store]|].
  left. exists hd. rewrite Etail. by eapply slots_commit.
Qed.

(** Going back: the tail is rewound and the entry freed, in either order. *)
Lemma rewind_spec p m f bs e :
  reserved tr p f bs e -> addresses p m ->
  wp (rewind_block_index_tail tr) (fun _ s' => exists p', s' = mkIState p' m /\ index_step p m p' /\
    implicit_index tr malloc_ok p' f bs /\
    wp (store_value e nullptr) (fun _ s' => exists p'', s' = mkIState p'' m /\ index_step p m p'' /\
      implicit_index tr malloc_ok p'' f bs) nothrow s') nothrow (mkIState p m).
Proof using TraitsOk0.
  intros (hd & tl & k & Hs & Hroom & Etail & He & _) Ha. pose proof He as [E1 E2].
  pose proof (index_capacity_pos _ _ _ _ _ _ Hs). pose proof Hs as []. unfold rewind_block_index_tail. ip_steps.
  eapply wp_i_header; [done|]. eapply wp_store_tail; [done|].
  rewrite (mask_capacity tr _ _ _ _ _ _ Hs), Etail, Zminus_mod_idemp_l, Z.add_simpl_r, Z.mod_small by done.
  fold (with_tail tl hd). eexists. split; [done|]. split; [split; [done|by apply addresses_tail]|].
  pose proof (slots_set_tail _ _ _ _ _ _ tl Hs) as Hs1. split; [left; by exists (with_tail tl hd)|].
  eapply wp_store_value; [cbn; exact E2|]. eexists. split; [done|]. split.
  { split; [done|]. apply addresses_store; [by apply addresses_tail|by eexists]. }
  left. exists (with_tail tl hd). eapply slots_store_free; [exact Hs1|done|exact He].
Qed.
End insert.

(** * Finding the block of an element *)

Section find.
Context {T : Type} (tr : Traits) `{!TraitsOk tr} (malloc_ok : nat -> bool).
#[local] Abbreviation w := (index_bits tr).
#[local] Abbreviation sb := (size_bits tr).
#[local] Abbreviation B := (BLOCK_SIZE tr).
Implicit Types (h t f tl : Z) (bs : list loc) (m : Mem T) (p : ImplicitProducer) (hd : ImplicitHeader).

(** The entry of the last block but [j] of the list. *)
Lemma key_from_tail p f bs tl hd j :
  slots tr p f bs tl hd -> 0 <= j < zlength bs ->
  exists e b, zlookup (h_index hd) ((tl - j) mod h_capacity hd) = Some e /\
    ip_entries p !! e = Some (mkImplicitEntry (wrap w ((f + zlength bs - 1 - j) * B)) b).
Proof using Type.
  intros [] Hj. destruct (lookup_lt_is_Some_2 bs (Z.to_nat (zlength bs - 1 - j))) as [b Hb].
  { unfold zlength in *. lia. }
  destruct (sl_used _ _ Hb) as (e & E1 & E2). exists e, b.
  replace (f + Z.of_nat (Z.to_nat (zlength bs - 1 - j))) with (f + zlength bs - 1 - j) in E2 by lia.
  by replace (tl + 1 + _) with (tl - j) in E1 by lia.
Qed.

(** The search works from any tail that is the slot of a block of the list;
    [bs] may contain entries without a block. *)
Lemma lookup_from_tail p m f bs tl hd j k b x :
  slots tr p f bs tl hd -> h_tail hd = (tl - j) mod h_capacity hd -> 0 <= j < zlength bs ->
  bs !! k = Some b -> b <> nullptr -> x / B = f + Z.of_nat k ->
  - 2 ^ (w - 1) <= (Z.of_nat k - (zlength bs - 1 - j)) * B < 2 ^ (w - 1) ->
  wp (get_block_index_index_for_index tr (wrap w x)) (fun r s' => s' = mkIState p m /\
      exists e, snd r = ip_blockIndex p /\
        fst r = (tl + 1 + (Z.of_nat k - zlength bs)) mod h_capacity hd /\
        slot_entry p hd tl (Z.of_nat k - zlength bs) e
          (mkImplicitEntry (wrap w ((f + Z.of_nat k) * B)) b)) nothrow (mkIState p m).
Proof using TraitsOk0.
  intros Hs Etail Hj Hk Hb Hx Hdist. pose proof (index_capacity_pos _ _ _ _ _ _ Hs).
  destruct (key_from_tail _ _ _ _ _ _ Hs Hj) as (te & tb & Ete & Ekey). rewrite <- Etail in Ete.
  pose proof Hs as []. destruct (sl_used _ _ Hk) as [e He].
  unfold get_block_index_index_for_index. ip_steps. eapply wp_i_header; [done|]. ip_step.
  eapply wp_index_at; [done|]. ip_step. eapply wp_i_entry; [done|]. ip_step. ip_step.
  { cbn [entry_key]. by rewrite key_valid. }
  cbn [entry_key]. rewrite (block_offset tr).
  2:{ rewrite Hx. by replace (f + Z.of_nat k - (f + zlength bs - 1 - j)) with (Z.of_nat k - (zlength bs - 1 - j)) by lia. }
  rewrite wrap_add_r, (mask_capacity tr _ _ _ _ _ _ Hs), Etail, Zplus_mod_idemp_l.
  replace (tl - j + (x / B - (f + zlength bs - 1 - j))) with (tl + 1 + (Z.of_nat k - zlength bs)) by lia.
  ip_step. eapply wp_index_at; [apply He|]. ip_step. eapply wp_i_entry; [apply He|].
  ip_step. ip_step.
  { cbn [entry_key entry_value]. rewrite (block_base_key tr), Hx, Z.eqb_refl. cbn.
    by apply negb_true_iff, Z.eqb_neq. }
  ip_step. split; [done|]. by exists e.
Qed.

Lemma lookup_index_spec p m f bs k b x :
  implicit_index tr malloc_ok p f bs -> (nullptr ∉ bs) -> (zlength bs - 1) * B <= 2 ^ (w - 1) ->
  x / B = f + Z.of_nat k -> bs !! k = Some b ->
  wp (get_block_index_index_for_index tr (wrap w x)) (fun r s' => s' = mkIState p m /\
      exists hd e, slots tr p f bs (h_tail hd) hd /\ snd r = ip_blockIndex p /\
        fst r = (h_tail hd + 1 + (Z.of_nat k - zlength bs)) mod h_capacity hd /\
        slot_entry p hd (h_tail hd) (Z.of_nat k - zlength bs) e
          (mkImplicitEntry (wrap w ((f + Z.of_nat k) * B)) b)) nothrow (mkIState p m).
Proof using TraitsOk0.
  intros [(hd & Hs)|(_ & -> & _)] Hnull Hblocks Hx Hk; [|done].
  pose proof (lookup_lt_Some _ _ _ Hk) as Hlt. pose proof (block_size_gt_1 tr). pose proof (size_le_index tr).
  pose proof (pow_half_pos (w := w) ltac:(lia)). pose proof (sl_tail _ _ _ _ _ _ Hs).
  eapply wp_mono; [eapply (lookup_from_tail p m f bs (h_tail hd) hd 0 k b x)| |done]; try done.
  - rewrite Z.sub_0_r. symmetry. by apply Z.mod_small.
  - unfold zlength in *. lia.
  - intros ->. apply Hnull. by eapply list_elem_of_lookup_2.
  - unfold zlength in *. nia.
  - cbn beta. intros r s' (-> & e & Hr). split; [done|]. by exists hd, e.
Qed.

Lemma lookup_entry_spec p m f bs k b x :
  implicit_index tr malloc_ok p f bs -> (nullptr ∉ bs) -> (zlength bs - 1) * B <= 2 ^ (w - 1) ->
  x / B = f + Z.of_nat k -> bs !! k = Some b ->
  wp (get_block_index_entry_for_index tr (wrap w x)) (fun e s' => s' = mkIState p m /\
      exists hd, slots tr p f bs (h_tail hd) hd /\
        slot_entry p hd (h_tail hd) (Z.of_nat k - zlength bs) e
          (mkImplicitEntry (wrap w ((f + Z.of_nat k) * B)) b)) nothrow (mkIState p m).
Proof using TraitsOk0.
  intros Hix Hnull Hblocks Hx Hk. unfold get_block_index_entry_for_index. ip_step.
  eapply wp_mono; [by eapply lookup_index_spec| |done]. cbn beta.
  intros [i bi] s' (-> & hd & e & Hs & Ebi & Ei & He). cbn in Ebi, Ei. subst i bi. cbn [fst snd].
  ip_step. eapply wp_i_header; [apply Hs|]. eapply wp_index_at; [apply He|].
  split; [done|]. by exists hd.
Qed.
End find.
