(* ===== verification/ImplicitProofs.v ===== *)
(** [ImplicitProducer]'s enqueue and dequeue implement a bounded FIFO queue,
    and an exception in an element's constructor leaves it unchanged. *)

From S2P Require Import Prelude MachineInt Traits FreeList Block BlockPool ProducerBase ProducerBaseProofs ExplicitProducer Contents ImplicitProducer ImplicitSpec ImplicitIndex.

Section memory.
Context {T : Type} (tr : Traits) `{!TraitsOk tr} (malloc_ok : nat -> bool) (indeterminate : Indeterminate).
#[local] Abbreviation w := (index_bits tr).
#[local] Abbreviation sb := (size_bits tr).
#[local] Abbreviation B := (BLOCK_SIZE tr).
Implicit Types (h t f : Z) (bs : list loc) (c : list T) (m : Mem T) (s : IState T).

(** ** The blocks *)

Lemma blocks_repr_update m h c h' c' f bs k b blk' :
  blocks_repr tr m h c f bs -> bs !! k = Some b ->
  block_repr tr implicit_context h' c' (f + Z.of_nat k) blk' ->
  (forall q bk, q <> f + Z.of_nat k -> block_repr tr implicit_context h c q bk ->
     block_repr tr implicit_context h' c' q bk) ->
  blocks_repr tr (set_blocks (<[b := blk']> (blocks m)) m) h' c' f bs.
Proof using Type.
  intros [Hnd Hr] Hk Hblk Hother. split; [done|]. intros j x Hj. cbn.
  destruct (decide (j = k)) as [->|Hne].
  - assert (x = b) as -> by congruence. exists blk'. by rewrite lookup_insert_eq.
  - destruct (Hr _ _ Hj) as (blk0 & Hb0 & H0). exists blk0.
    rewrite lookup_insert_ne; [|intros ->; apply Hne; by eapply NoDup_lookup].
    split; [done|]. apply Hother; [lia|done].
Qed.

Lemma blocks_repr_frame m m' h c f bs :
  blocks_repr tr m h c f bs -> (forall b, b ∈ bs -> blocks m' !! b = blocks m !! b) ->
  blocks_repr tr m' h c f bs.
Proof using Type.
  intros [Hnd Hr] Hf. split; [done|]. intros k b Hk. rewrite Hf by (by eapply list_elem_of_lookup_2).
  by apply Hr.
Qed.

Lemma blocks_repr_in m h c f bs b :
  blocks_repr tr m h c f bs -> b ∈ bs -> is_Some (blocks m !! b).
Proof using Type.
  intros [_ Hr] [k Hk]%list_elem_of_lookup. destruct (Hr _ _ Hk) as (blk & Hb & _). eauto.
Qed.

(** ** Taking a block from the pool *)

(** The producer with the blocks [bs] has also got the block [nb]. *)
Record taken bs m fl nb m' fl' (blk : Block T) : Prop := {
  tk_pool : pool_inv tr m' fl';
  tk_block : blocks m' !! nb = Some blk;
  tk_raw : raw tr blk;
  tk_new : nb ∉ bs;
  tk_mine : ~ available m' fl' nb;
  tk_rest : forall b, b ∈ bs -> blocks m' !! b = blocks m !! b /\ ~ available m' fl' b;
  tk_address : next_address m <= next_address m';
  tk_frame : mem_frame bs m fl (bs ++ [nb]) m' fl'
}.

Definition in_use bs m fl : Prop := forall b, b ∈ bs -> is_Some (blocks m !! b) /\ ~ available m fl b.

Lemma take_block_spec allocMode m fl bs :
  pool_inv tr m fl -> in_use bs m fl ->
  wp (requisition_block tr malloc_ok indeterminate allocMode) (fun nb m' => exists fl',
    if nb =? nullptr then
      pool_inv tr m' fl' /\ blocks m' = blocks m /\ next_address m <= next_address m' /\
      (forall l, available m' fl' l -> available m fl l) /\ mem_frame bs m fl bs m' fl' /\ no_memory malloc_ok allocMode
    else exists blk, taken bs m fl nb m' fl' blk) nothrow m.
Proof using All.
  intros Hpool Huse. eapply wp_mono; [by eapply requisition_block_spec| |done]. cbn beta.
  intros nb m' (fl' & Hpool' & Hna & Hnb). exists fl'. destruct (nb =? nullptr).
  - destruct Hnb as (Ebl & Hav & Hnone & Hfail). split_and!; try done; [by apply mem_frame_refused|].
    destruct Hfail as [|Hfail]; [by left|right; by eexists].
  - destruct Hnb as (Hfresh & Hframe & blk & Hblk & Hraw). exists blk.
    assert (forall l, is_Some (blocks m !! l) -> ~ available m fl l -> l <> nb) as Hne.
    { intros l Hl Hla ->. destruct Hfresh as [|[Hn _]]; [done|]. rewrite Hn in Hl. by destruct Hl. }
    split; try done.
    + intros Hin. destruct (Huse _ Hin). by apply (Hne nb).
    + intros Hl%Hframe. by destruct Hl.
    + intros b Hb. destruct (Huse _ Hb). split; [|by eapply frame_in_use].
      apply (proj1 Hframe). by apply Hne.
    + apply mem_frame_taken; [done|done|tauto].
Qed.

Lemma taken_update bs m fl nb m' fl' blk blk' :
  taken bs m fl nb m' fl' blk -> raw tr blk' -> dynamicallyAllocated blk' = dynamicallyAllocated blk ->
  taken bs m fl nb (set_blocks (<[nb := blk']> (blocks m')) m') fl' blk'.
Proof using Type.
  intros [] Hraw Hdyn. split; try done.
  - by eapply pool_inv_update_block.
  - apply lookup_insert_eq.
  - intros b Hb. cbn. rewrite lookup_insert_ne by (by intros ->). by apply tk_rest0.
  - apply mem_frame_blocks; [done|]. intros l Hl. rewrite lookup_insert_ne; [done|].
    intros <-. apply Hl, elem_of_app. right. by left.
Qed.

Lemma blocks_repr_taken m fl h c f bs nb m' fl' blk :
  blocks_repr tr m h c f bs -> taken bs m fl nb m' fl' blk ->
  dequeued tr implicit_context ∅ blk -> h + zlength c <= (f + zlength bs) * B ->
  blocks_repr tr m' h c f (bs ++ [nb]).
Proof using Type.
  intros Hr [] Hd Hpos. destruct (blocks_repr_frame _ m' _ _ _ _ Hr) as [Hnd Hr'].
  { intros b Hb. by apply tk_rest0. }
  split.
  { apply NoDup_app. split; [done|]. split; [|apply NoDup_singleton].
    by intros x Hx ->%list_elem_of_singleton. }
  intros k b [Hk|[Hge Hk]]%lookup_app_Some; [by apply Hr'|].
  apply list_lookup_singleton_Some in Hk as [Hk ->]. exists blk. split; [done|].
  destruct tk_raw0 as [Hwf Hel]. replace (Z.of_nat k) with (zlength bs) by (unfold zlength; lia).
  apply block_repr_unused; [done|done| |done]. intros o Ho. rewrite Hel. by apply zlookup_replicate.
Qed.

Lemma in_use_allocated bs m fl m' : allocated m m' -> in_use bs m fl -> in_use bs m' fl.
Proof using Type.
  intros Hal Hu b Hb. rewrite (allocated_blocks _ _ Hal), (allocated_available m m' fl b Hal). by apply Hu.
Qed.
End memory.

Section enqueue.
Context {U T R : Type} (tr : Traits) `{!TraitsOk tr} (ops : ElementOps U T R).
Context (malloc_ok : nat -> bool) (indeterminate : Indeterminate).
#[local] Abbreviation w := (index_bits tr).
#[local] Abbreviation sb := (size_bits tr).
#[local] Abbreviation B := (BLOCK_SIZE tr).
Implicit Types (h t f : Z) (bs : list loc) (c : list T) (m : Mem T) (s : IState T).
Implicit Types (p : ImplicitProducer).
#[local] Abbreviation inv := (implicit_inv tr malloc_ok).

Lemma implicit_index_ext p p' f bs :
  implicit_index tr malloc_ok p f bs -> ip_blockIndex p' = ip_blockIndex p ->
  ip_headers p' = ip_headers p -> ip_entries p' = ip_entries p ->
  nextBlockIndexCapacity p' = nextBlockIndexCapacity p -> implicit_index tr malloc_ok p' f bs.
Proof using Type.
  intros [(hd & Hs)|H] E1 E2 E3 E4; [left; exists hd; by eapply slots_ext|right].
  by rewrite E1.
Qed.

Lemma inv_in_use s fl h t f bs c : inv s fl h t f bs c -> in_use bs (imem s) fl.
Proof using Type. intros [] b Hb. split; [by eapply blocks_repr_in|by apply ii_in_use]. Qed.

Lemma inv_not_null s fl h t f bs c : inv s fl h t f bs c -> nullptr ∉ bs.
Proof using Type.
  intros Hinv Hb. destruct (inv_in_use _ _ _ _ _ _ _ Hinv _ Hb) as [Hs _].
  apply (pi_addr _ _ _ (ii_pool _ _ _ _ _ _ _ _ _ Hinv)) in Hs. unfold nullptr in Hs. lia.
Qed.

Lemma inv_dist s fl h t f bs c :
  inv s fl h t f bs c -> 0 <= h <= t /\ t - h < 2 ^ (w - 1) /\ (zlength bs - 1) * B <= 2 ^ (w - 1).
Proof using TraitsOk0.
  intros []. destruct ii_counters. pose proof (block_size_gt_1 tr). split; [done|]. nia.
Qed.

(** The invariant in a memory that differs in blocks the producer does not
    have. *)
Lemma inv_frame s fl h t f bs c p' m' fl' :
  inv s fl h t f bs c -> ip_base p' = ip_base (iprod s) -> addresses p' m' ->
  implicit_index tr malloc_ok p' f bs -> pool_inv tr m' fl' ->
  (forall b, b ∈ bs -> blocks m' !! b = blocks (imem s) !! b /\ ~ available m' fl' b) ->
  inv (mkIState p' m') fl' h t f bs c.
Proof using Type.
  intros [] Eb Ha Hix Hpool Hf. split; cbn; rewrite ?Eb; try done.
  - eapply blocks_repr_frame; [done|]. intros b Hb. by apply Hf.
  - intros b Hb. by apply Hf.
Qed.

Lemma last_block m h c f bs b :
  blocks_repr tr m h c f bs -> last bs = Some b ->
  exists k blk, bs !! k = Some b /\ f + Z.of_nat k = f + zlength bs - 1 /\
    blocks m !! b = Some blk /\ block_repr tr implicit_context h c (f + Z.of_nat k) blk.
Proof using Type.
  intros [Hnd Hr] Hl. rewrite last_lookup in Hl. destruct (Hr _ _ Hl) as (blk & Hb & Hrep).
  pose proof (lookup_lt_Some _ _ _ Hl). exists (pred (length bs)), blk. split_and!; try done.
  unfold zlength. lia.
Qed.

(** Constructing the next element in the last block. *)
Lemma i_new_T_spec p m fl h t c f bs b u v :
  blocks_repr tr m h c f bs -> last bs = Some b -> pool_inv tr m fl ->
  (forall x, x ∈ bs -> ~ available m fl x) ->
  t = h + zlength c -> (f + zlength bs - 1) * B <= t < (f + zlength bs) * B ->
  make ops u = Some v ->
  wp (i_new_T tr ops b (wrap w t) u) (fun _ s' => exists bl,
    s' = mkIState p (set_blocks bl m) /\ blocks_repr tr (set_blocks bl m) h (c ++ [v]) f bs /\
    pool_inv tr (set_blocks bl m) fl /\ (forall l, (l ∉ bs) -> bl !! l = blocks m !! l))
    nothrow (mkIState p m).
Proof using All.
  intros Hr Hl Hpool Hav Et Hpos Hmake.
  destruct (last_block _ _ _ _ _ _ Hr Hl) as (k & blk & Hk & Eq & Hb & Hrep).
  destruct (block_repr_construct tr implicit_context h c v _ _ Hrep) as [Hslot Hrep'];
    [rewrite <- Et, Eq; lia|].
  assert (offset tr (wrap w t) = h + zlength c - (f + Z.of_nat k) * B) as Eo.
  { rewrite offset_eq, index_mod_block by done. rewrite <- Et. symmetry.
    apply Z.mod_unique_pos with (f + Z.of_nat k); rewrite Eq; lia. }
  unfold i_new_T. rewrite Hmake. eapply wp_i_block; [done|]. unfold construct. rewrite Eo.
  ip_steps; [done|]. ip_steps. eexists. split; [done|]. split; [|split].
  - eapply blocks_repr_update; [exact Hr|exact Hk|done|].
    intros q bk Hq Hbk. apply block_repr_snoc_other; [done|]. rewrite <- Et. nia.
  - eapply pool_inv_update_block; [done|exact Hb|done|]. apply Hav. by eapply list_elem_of_lookup_2.
  - intros l Hlr. rewrite lookup_insert_ne; [done|]. intros ->. apply Hlr.
    by eapply list_elem_of_lookup_2.
Qed.

(** The final store of [tailIndex]. *)
Lemma inv_stored p m fl h t f bs c v pb b :
  counters tr pb h t -> t - h = zlength c -> last bs = Some b -> tailBlock pb = b ->
  f * B <= h < (f + 1) * B -> (f + zlength bs - 1) * B <= t < (f + zlength bs) * B ->
  (f + zlength bs) * B - h < 2 ^ (w - 1) ->
  implicit_index tr malloc_ok p f bs -> addresses p m -> pool_inv tr m fl ->
  blocks_repr tr m h (c ++ [v]) f bs -> (forall b, b ∈ bs -> ~ available m fl b) ->
  isExplicit pb = false ->
  inv (mkIState (set_ip_base (set_tailIndex (wrap w (1 + wrap w t)) pb) p) m)
    fl h (t + 1) f bs (c ++ [v]).
Proof using Type.
  intros [] ? Hl Hb ??? Hix ?????. split; cbn; try done; try lia.
  - split; cbn; try done; [|lia]. by rewrite wrap_add_r, Z.add_comm.
  - rewrite zlength_app. change (zlength [v]) with 1. lia.
  - intros b' Hb'. congruence.
  - by eapply implicit_index_ext.
Qed.

Definition i_enqueued allocMode (u : U) s fl h t f bs c (ok : bool) s' : Prop :=
  exists fl' bs', mem_frame bs (imem s) fl bs' (imem s') fl' /\ zlength bs' <= zlength bs + 1 /\
    if ok then exists v, make ops u = Some v /\ inv s' fl' h (t + 1) f bs' (c ++ [v])
    else inv s' fl' h t f bs' c /\ t mod B = 0 /\
      (~ has_room tr h t \/ no_memory malloc_ok allocMode).

(** The constructor threw: nothing has changed. *)
Definition i_unchanged (u : U) s fl h t f bs c s' : Prop :=
  make ops u = None /\ exists fl', inv s' fl' h t f bs c /\
    mem_frame bs (imem s) fl bs (imem s') fl'.

Context (Hnoexcept : noexcept_ctor ops = true -> forall u, make ops u <> None).

Lemma i_enqueue_inside allocMode u s fl h t f bs c :
  inv s fl h t f bs c -> t mod B <> 0 ->
  wp (ImplicitProducer_enqueue tr ops malloc_ok indeterminate allocMode u)
    (i_enqueued allocMode u s fl h t f bs c) (i_unchanged u s fl h t f bs c) s.
Proof using All.
  intros Hinv Ht. pose proof Hinv as []. pose proof ii_counters as [Etail _ _ Hle].
  pose proof (block_size_gt_1 tr). pose proof (zlength_nonneg bs).
  destruct s as [p m]. cbn in *. unfold ImplicitProducer_enqueue. ip_steps. rewrite Etail, (in_block_wrap tr).
  rewrite (proj2 (Z.eqb_neq _ _)) by done. ip_steps.
  assert (t <> (f + zlength bs) * B) as Hne by (intros ->; rewrite Z.mod_mul in Ht; lia).
  assert ((f + zlength bs - 1) * B <= t < (f + zlength bs) * B) as Hpos by lia.
  destruct (last bs) as [b|] eqn:Hl.
  2:{ apply last_None in Hl as ->. change (zlength (@nil loc)) with 0 in *. lia. }
  rewrite (ii_tail b eq_refl). destruct (make ops u) as [v|] eqn:Hmake.
  - eapply wp_mono; [eapply (i_new_T_spec p m fl h t c f bs b u v); done || lia| |done].
    cbn beta. intros _ s1 (bl & -> & Hr1 & Hpool1 & Hrest). ip_steps. exists fl, bs. cbn.
    split; [by apply mem_frame_blocks; [apply mem_frame_refl|]|]. split; [lia|].
    exists v. split; [done|]. eapply inv_stored; try done. by apply ii_tail.
  - unfold i_new_T. rewrite Hmake. destruct (noexcept_ctor ops); [by destruct (Hnoexcept eq_refl u)|].
    apply wp_throw. split; [done|]. exists fl. split; [done|apply mem_frame_refl].
Qed.

(** ** At a block boundary *)

Lemma i_at_boundary s fl h t f bs c :
  inv s fl h t f bs c -> t mod B = 0 -> t = (f + zlength bs) * B.
Proof using TraitsOk0.
  intros [] Ht. pose proof (block_size_gt_1 tr). pose proof (Z.div_mod t B ltac:(lia)).
  assert (t / B = f + zlength bs) by nia. lia.
Qed.

Lemma taken_allocated bs m m1 fl nb m' fl' blk :
  allocated m m1 -> taken tr bs m1 fl nb m' fl' blk -> taken tr bs m fl nb m' fl' blk.
Proof using Type.
  intros Hal []. split; try done.
  - by rewrite <- (allocated_blocks _ _ Hal).
  - destruct Hal as (a & k & -> & Ha). cbn in *. lia.
  - eapply mem_frame_trans; [by apply mem_frame_allocated|done].
Qed.

Lemma taken_available bs m fl nb m' fl' blk :
  taken tr bs m fl nb m' fl' blk -> forall x, x ∈ bs ++ [nb] -> ~ available m' fl' x.
Proof using Type.
  intros [] x. rewrite elem_of_app, list_elem_of_singleton. intros [Hx| ->]; [by apply tk_rest0|done].
Qed.

(** Between taking the block [nb] and storing it in the entry [e]. *)
Record i_prepared s fl h c f bs nb e p2 m3 fl3 (blk : Block T) : Prop := {
  ipr_base : ip_base p2 = ip_base (iprod s);
  ipr_index : reserved tr p2 f bs e;
  ipr_addresses : addresses p2 m3;
  ipr_taken : taken tr bs (imem s) fl nb m3 fl3 blk;
  ipr_blocks : blocks_repr tr m3 h c f (bs ++ [nb])
}.

Lemma addresses_mono p m m' : addresses p m -> next_address m <= next_address m' -> addresses p m'.
Proof using Type.
  intros [] Hle. split; try done.
  - intros e He. specialize (im_entries e He). lia.
  - intros x Hx. specialize (im_headers x Hx). lia.
Qed.

(** The entry is given back. *)
Lemma undo_entry_spec p m f bs e :
  reserved tr p f bs e -> addresses p m ->
  wp (rewind_block_index_tail tr;; store_value e nullptr) (fun _ s' => exists p',
    s' = mkIState p' m /\ index_step p m p' /\ implicit_index tr malloc_ok p' f bs) nothrow (mkIState p m).
Proof using TraitsOk0.
  intros Hr Ha. ip_step. eapply wp_mono; [by eapply (rewind_spec tr malloc_ok)| |done]. cbn beta.
  intros _ s1 (p1 & -> & [Eb1 Ha1] & _ & Hst). eapply wp_mono; [exact Hst| |done]. cbn beta.
  intros _ s2 (p2 & -> & [Eb2 Ha2] & Hix). exists p2. split; [done|]. split; [|done].
  split; [congruence|done].
Qed.

(** The exception handler. *)
Lemma i_handler_spec {A} u s fl h t f bs c nb e p2 m3 fl3 blk (Q : A -> IState T -> Prop) :
  inv s fl h t f bs c -> i_prepared s fl h c f bs nb e p2 m3 fl3 blk -> make ops u = None ->
  wp (rewind_block_index_tail tr;; store_value e nullptr;; i_mem (add_block_to_free_list tr nb);; throw) Q
    (i_unchanged u s fl h t f bs c) (mkIState p2 m3).
Proof using TraitsOk0.
  intros Hinv [] Hmake. destruct ipr_taken0.
  ip_step. eapply wp_mono; [by eapply (rewind_spec tr malloc_ok)| |done]. cbn beta.
  intros _ s1 (p1 & -> & [Eb1 Ha1] & _ & Hst). ip_step. eapply wp_mono; [exact Hst| |done]. cbn beta.
  intros _ s2 (p3 & -> & [Eb3 Ha3] & Hix). ip_step. apply wp_i_mem.
  eapply wp_mono; [by eapply add_block_to_free_list_spec| |done]. cbn beta.
  intros _ m4 (fl4 & Hret & _). apply wp_throw. split; [done|]. exists fl4.
  pose proof Hret as (Hpool4 & Hbl4 & Hav4 & _ & _ & Hna4). split.
  - eapply inv_frame; [done|congruence| |done|done|].
    + eapply addresses_mono; [done|lia].
    + intros b Hb. destruct (tk_rest0 _ Hb) as [E Ha]. assert (b <> nb) by (by intros ->).
      rewrite Hbl4 by done. split; [done|]. by intros [|]%Hav4.
  - cbn. eapply mem_frame_trans; [done|by eapply mem_frame_returned].
Qed.

(** The element is in place and the block in the index: only the indices are
    left to store. *)
Lemma i_published_inv s fl h t f bs c nb e p2 m3 fl3 blk p4 bl v :
  inv s fl h t f bs c -> t = (f + zlength bs) * B -> has_room tr h t ->
  i_prepared s fl h c f bs nb e p2 m3 fl3 blk -> index_step p2 m3 p4 ->
  implicit_index tr malloc_ok p4 f (bs ++ [nb]) ->
  blocks_repr tr (set_blocks bl m3) h (c ++ [v]) f (bs ++ [nb]) ->
  pool_inv tr (set_blocks bl m3) fl3 -> (forall l, (l ∉ bs ++ [nb]) -> bl !! l = blocks m3 !! l) ->
  let pb := set_tailBlock nb (ip_base p4) in
  let s' := mkIState (set_ip_base (set_tailIndex (wrap w (1 + wrap w t)) pb) (set_ip_base pb p4))
              (set_blocks bl m3) in
  inv s' fl3 h (t + 1) f (bs ++ [nb]) (c ++ [v]) /\
  mem_frame bs (imem s) fl (bs ++ [nb]) (imem s') fl3 /\ zlength (bs ++ [nb]) <= zlength bs + 1.
Proof using TraitsOk0.
  intros [] Epos Hroom [] [Eb Ha] Hix Hr Hpool Hrest pb s'. pose proof (block_size_gt_1 tr).
  assert (zlength (bs ++ [nb]) = zlength bs + 1) as El by (rewrite zlength_app; unfold zlength; cbn; lia).
  destruct Hroom as [Hroom _]. split; [|split; [|lia]].
  - eapply (inv_stored (set_ip_base pb p4) (set_blocks bl m3) fl3 h t f (bs ++ [nb]) c v pb nb);
      try done; rewrite ?El; try lia.
    + subst pb. rewrite Eb, ipr_base0. by destruct ii_counters.
    + apply last_snoc.
    + by eapply implicit_index_ext.
    + exact (taken_available _ _ _ _ _ _ _ ipr_taken0).
    + subst pb. cbn. by rewrite Eb, ipr_base0.
  - destruct ipr_taken0. by apply mem_frame_blocks.
Qed.

(** From the requisitioned block to the end of [enqueue], in both orders of
    construction and publication. *)
Lemma i_place_spec allocMode u s fl h t f bs c nb e p2 m3 fl3 blk :
  inv s fl h t f bs c -> t = (f + zlength bs) * B -> has_room tr h t ->
  i_prepared s fl h c f bs nb e p2 m3 fl3 blk ->
  let last : M (IState T) bool :=
    let! tb := i_getb tailBlock in
    i_new_T tr ops tb (wrap w t) u;;
    i_setb (set_tailIndex (wrap w (1 + wrap w t)));;
    ret true in
  wp ((if negb (noexcept_ctor ops) then
         try_catch (i_new_T tr ops nb (wrap w t) u)
           (rewind_block_index_tail tr;; store_value e nullptr;; i_mem (add_block_to_free_list tr nb);; throw)
       else ret tt);;
      store_value e nb;;
      i_setb (set_tailBlock nb);;
      if negb (noexcept_ctor ops) then i_setb (set_tailIndex (wrap w (1 + wrap w t)));; ret true
      else last)
    (i_enqueued allocMode u s fl h t f bs c) (i_unchanged u s fl h t f bs c) (mkIState p2 m3).
Proof using All.
  intros Hinv Epos Hroom Hprep last. pose proof Hprep as [].
  assert (forall v p4, make ops u = Some v ->
    wp (i_new_T tr ops nb (wrap w t) u) (fun _ s' => exists bl,
      s' = mkIState p4 (set_blocks bl m3) /\ blocks_repr tr (set_blocks bl m3) h (c ++ [v]) f (bs ++ [nb]) /\
      pool_inv tr (set_blocks bl m3) fl3 /\ (forall l, (l ∉ bs ++ [nb]) -> bl !! l = blocks m3 !! l))
      nothrow (mkIState p4 m3)) as Hconstruct.
  { intros v p4 Hmake. pose proof Hinv as []. apply i_new_T_spec; try done.
    - apply last_snoc.
    - by destruct ipr_taken0.
    - exact (taken_available _ _ _ _ _ _ _ ipr_taken0).
    - lia.
    - rewrite zlength_app. change (zlength [nb]) with 1. pose proof (block_size_gt_1 tr). lia. }
  assert (forall m4, addresses p2 m3 -> next_address m4 = next_address m3 ->
    wp (store_value e nb) (fun _ s' => exists p4, s' = mkIState p4 m4 /\ index_step p2 m3 p4 /\
      implicit_index tr malloc_ok p4 f (bs ++ [nb])) nothrow (mkIState p2 m4 : IState T)) as Hcommit.
  { intros m4 Ha Hna. eapply wp_mono; [eapply (commit_spec tr malloc_ok p2 m4); [done|]| |done].
    - eapply addresses_mono; [done|lia].
    - cbn beta. intros _ s1 (p4 & -> & [Eb4 Ha4] & Hix). exists p4. split_and!; try done. split; [done|].
      eapply addresses_mono; [done|lia]. }
  destruct (make ops u) as [v|] eqn:Hmake.
  2:{ destruct (noexcept_ctor ops) eqn:En; [by destruct (Hnoexcept eq_refl u)|]. cbn [negb].
      ip_step. apply wp_try_catch. unfold i_new_T at 1. rewrite Hmake, En. apply wp_throw.
      by eapply i_handler_spec. }
  destruct (noexcept_ctor ops); cbn [negb].
  - ip_step. ip_step. ip_step. eapply wp_mono; [by apply Hcommit| |done]. cbn beta.
    intros _ s1 (p4 & -> & Hst & Hix). ip_step. ip_step. subst last. ip_step. ip_step. cbn [tailBlock ip_base set_ip_base set_tailBlock].
    ip_step. eapply wp_mono; [by eapply (Hconstruct v)| |done]. cbn beta.
    intros _ s2 (bl & -> & Hr & Hpool & Hrest). ip_steps.
    destruct (i_published_inv _ _ _ _ _ _ _ _ _ _ _ _ _ p4 bl v Hinv Epos Hroom Hprep Hst Hix Hr Hpool Hrest)
      as (Hinv' & Hf & Hlen). eexists _, _. split; [exact Hf|]. split; [exact Hlen|]. by exists v.
  - ip_step. apply wp_try_catch. eapply wp_mono; [by eapply (Hconstruct v)| |done]. cbn beta.
    intros _ s1 (bl & -> & Hr & Hpool & Hrest). ip_step. eapply wp_mono; [by apply Hcommit| |done]. cbn beta.
    intros _ s2 (p4 & -> & Hst & Hix). ip_steps.
    destruct (i_published_inv _ _ _ _ _ _ _ _ _ _ _ _ _ p4 bl v Hinv Epos Hroom Hprep Hst Hix Hr Hpool Hrest)
      as (Hinv' & Hf & Hlen). eexists _, _. split; [exact Hf|]. split; [exact Hlen|]. by exists v.
Qed.

Lemma i_enqueue_boundary allocMode u s fl h t f bs c :
  inv s fl h t f bs c -> t mod B = 0 -> zlength bs * B < 2 ^ (sb - 1) ->
  wp (ImplicitProducer_enqueue tr ops malloc_ok indeterminate allocMode u)
    (i_enqueued allocMode u s fl h t f bs c) (i_unchanged u s fl h t f bs c) s.
Proof using All.
  intros Hinv Ht Hsmall. pose proof (i_at_boundary _ _ _ _ _ _ _ Hinv Ht) as Epos.
  pose proof (inv_dist _ _ _ _ _ _ _ Hinv) as (_ & Hdist & _).
  pose proof (inv_not_null _ _ _ _ _ _ _ Hinv) as Hnull.
  pose proof (inv_in_use _ _ _ _ _ _ _ Hinv) as Huse.
  pose proof Hinv as []. pose proof ii_counters as [Etail Ehead _ Hle].
  pose proof (size_le_index tr). pose proof (zlength_nonneg bs).
  destruct s as [p m]. cbn in *. unfold ImplicitProducer_enqueue. ip_steps. rewrite Etail, (in_block_wrap tr), Ht.
  cbn [Z.eqb]. ip_step. ip_step. ip_step. ip_step.
  { unfold lessi. rewrite Ehead, circular_less_than_wrap by lia. destruct (Z.ltb_spec t h); [lia|done]. }
  rewrite Ehead. destruct (no_room tr (wrap w h) (wrap w t)) eqn:Eroom.
  { ip_step. exists fl, bs. split; [apply mem_frame_refl|]. split; [lia|]. split; [done|]. split; [done|].
    left. intros Hroom%(no_room_spec tr); [congruence|lia|done]. }
  apply (no_room_spec tr) in Eroom; [|lia|done].
  ip_step. eapply wp_mono; [eapply (insert_spec tr malloc_ok); try done; by rewrite Epos| |done]. cbn beta.
  intros r s1 (p1 & m1 & -> & Hal & Eb1 & Ha1 & Hr). pose proof (allocated_blocks _ _ Hal) as Ebl1.
  destruct r as [e|].
  2:{ destruct Hr as [Hix Hmem]. ip_step. exists fl, bs. split; [by apply mem_frame_allocated|]. split; [lia|].
      split; [|split; [done|by right]]. eapply inv_frame; try done; [by eapply allocated_pool|].
      intros b Hb. rewrite Ebl1, (allocated_available m m1 fl b Hal). split; [done|]. by apply ii_in_use. }
  ip_step. apply wp_i_mem. eapply wp_mono;
    [eapply (take_block_spec tr malloc_ok indeterminate allocMode m1 fl bs);
      [by eapply allocated_pool|by eapply in_use_allocated]| |done].
  cbn beta. intros nb m2 (fl2 & Hnb). destruct (Z.eqb_spec nb nullptr) as [->|Hnb0].
  { destruct Hnb as (Hpool2 & Ebl2 & Hna2 & Hav2 & Hf2 & Hmem).
    apply (wp_bind (rewind_block_index_tail tr)).
    eapply wp_mono; [eapply (rewind_spec tr malloc_ok); [done|by eapply addresses_mono]| |done]. cbn beta.
    intros _ s3 (p3 & -> & [Eb3 Ha3] & _ & Hst). ip_step. eapply wp_mono; [exact Hst| |done]. cbn beta.
    intros _ s4 (p4 & -> & [Eb4 Ha4] & Hix4). ip_step.
    assert (forall l, available m2 fl2 l -> available m fl l) as Hav.
    { intros l Hl%Hav2. by apply (allocated_available m m1 fl l Hal). }
    exists fl2, bs. split; [|split; [lia|split; [|split; [done|by right]]]].
    - eapply mem_frame_trans; [by apply mem_frame_allocated|done].
    - eapply inv_frame; try done; [cbn; congruence|].
      intros b Hb. rewrite Ebl2, Ebl1. split; [done|]. intros ?%Hav. by apply (ii_in_use b). }
  destruct Hnb as (blk & Htk). pose proof (tk_raw _ _ _ _ _ _ _ _ Htk) as [Hwf Hel].
  ip_step. eapply wp_i_block; [apply Htk|].
  eapply wp_mono; [by eapply (reset_empty_spec tr implicit_context)| |done]. cbn beta.
  intros _ blk' (Hd & Hwf' & Hel' & _ & Hdyn). set (m3 := set_blocks (<[nb := blk']> (blocks m2)) m2).
  assert (i_prepared (mkIState p m) fl h c f bs nb e p1 m3 fl2 blk') as Hprep.
  { assert (taken tr bs m1 fl nb m3 fl2 blk') as Htk'.
    { eapply taken_update; [done|split; [done|congruence]|done]. }
    split; try done.
    - eapply addresses_mono; [done|apply Htk].
    - by eapply taken_allocated.
    - eapply blocks_repr_taken; [|done|done|lia]. eapply blocks_repr_frame; [done|]. intros; by rewrite Ebl1. }
  by eapply i_place_spec.
Qed.

(** [enqueue] appends the element, or changes nothing of the queue and
    reports why; an exception changes nothing either. *)
Lemma i_enqueue_spec allocMode u s fl h t f bs c :
  inv s fl h t f bs c -> zlength bs * B < 2 ^ (sb - 1) ->
  wp (ImplicitProducer_enqueue tr ops malloc_ok indeterminate allocMode u)
    (i_enqueued allocMode u s fl h t f bs c) (i_unchanged u s fl h t f bs c) s.
Proof using All.
  intros. destruct (decide (t mod B = 0)); [by apply i_enqueue_boundary|by apply i_enqueue_inside].
Qed.
End enqueue.

Section dequeue.
Context {U T R : Type} (tr : Traits) `{!TraitsOk tr} (ops : ElementOps U T R) (malloc_ok : nat -> bool).
#[local] Abbreviation w := (index_bits tr).
#[local] Abbreviation B := (BLOCK_SIZE tr).
Implicit Types (h t f : Z) (bs : list loc) (c : list T) (m : Mem T) (s : IState T).
Implicit Types (p : ImplicitProducer).
#[local] Abbreviation inv := (implicit_inv tr malloc_ok).

(** What is left of the blocks when the head has moved to [h]. *)
Record consumed p m fl h c f bs p' m' fl' f' bs' : Prop := {
  cs_base : ip_base p' = ip_base p;
  cs_headers : ip_headers p' = ip_headers p /\ ip_blockIndex p' = ip_blockIndex p;
  cs_first : f' * B <= h < (f' + 1) * B;
  cs_length : f' + zlength bs' = f + zlength bs;
  cs_last : forall b, last bs' = Some b -> last bs = Some b;
  cs_index : implicit_index tr malloc_ok p' f' bs';
  cs_addresses : addresses p' m';
  cs_pool : pool_inv tr m' fl';
  cs_blocks : blocks_repr tr m' h c f' bs';
  cs_in_use : forall b, b ∈ bs' -> ~ available m' fl' b;
  cs_frame : mem_frame bs m fl bs' m' fl'
}.

(** The first block has been used up: it leaves the index and goes back to
    the pool. *)
Lemma release_spec p m fl h c f b bs hd e k :
  slots tr p f (b :: bs) (h_tail hd) hd ->
  slot_entry p hd (h_tail hd) (- zlength (b :: bs)) e (mkImplicitEntry k b) ->
  addresses p m -> pool_inv tr m fl -> blocks_repr tr m h c f (b :: bs) ->
  (forall x, x ∈ b :: bs -> ~ available m fl x) -> h = (f + 1) * B ->
  wp (release_if_empty tr true e b) (fun _ s' => exists p' m' fl',
    s' = mkIState p' m' /\ consumed p m fl h c f (b :: bs) p' m' fl' (f + 1) bs) nothrow (mkIState p m).
Proof using TraitsOk0.
  intros Hs He Ha Hpool Hr Hav Hh. pose proof (block_size_gt_1 tr). pose proof Hr as [Hnd Hbl].
  apply NoDup_cons in Hnd as [Hb Hnd]. destruct (Hbl O b eq_refl) as (blk & Hblk & Hrep).
  rewrite Z.add_0_r in Hrep. unfold release_if_empty. ip_step.
  eapply wp_store_value; [apply He|]. cbn [entry_key]. fold (store_entry e (mkImplicitEntry k nullptr) p).
  apply wp_i_mem. eapply wp_mono; [eapply (add_block_to_free_list_spec tr m fl b blk)| |done]; try done.
  { apply (raw_of_slots tr); [by destruct Hrep|]. intros o Ho.
    eapply (content_none_from tr implicit_context h c o (h + zlength c)); [done|done|left; lia|done]. }
  { apply Hav. by left. }
  cbn beta. intros _ m' (fl' & Hret & _). pose proof Hret as (Hpool' & Hrest & Hav' & _ & _ & Hna).
  assert (forall x, x ∈ bs -> blocks m' !! x = blocks m !! x /\ ~ available m' fl' x) as Hkeep.
  { intros x Hx. assert (x <> b) by (by intros ->). rewrite Hrest by done. split; [done|].
    intros [Hl|Hl]%Hav'; [|done]. apply (Hav x); [by right|done]. }
  assert (zlength (b :: bs) = zlength bs + 1) as El by (unfold zlength; cbn [length]; lia).
  eexists _, m', fl'. split; [done|]. split; try done; try lia.
  - intros x Hx. by rewrite last_cons, Hx.
  - left. exists hd. by eapply slots_release.
  - apply addresses_store; [|by exists (mkImplicitEntry k b); apply He].
    apply (addresses_mono p m); [done|lia].
  - split; [done|]. intros j x Hx. destruct (Hbl (S j) x Hx) as (bk & Hbk & Hrk). exists bk.
    rewrite (proj1 (Hkeep x ltac:(by eapply list_elem_of_lookup_2))). split; [done|].
    by replace (f + 1 + Z.of_nat j) with (f + Z.of_nat (S j)) by lia.
  - intros x Hx. by apply Hkeep.
  - by apply (mem_frame_released tr).
Qed.

(** Destroying the head element, marking its slot, and releasing the block
    if it was the last. *)
Lemma i_finish_spec p m fl h v c f b bs hd e k :
  slots tr p f (b :: bs) (h_tail hd) hd ->
  slot_entry p hd (h_tail hd) (- zlength (b :: bs)) e (mkImplicitEntry k b) ->
  addresses p m -> pool_inv tr m fl -> blocks_repr tr m h (v :: c) f (b :: bs) ->
  (forall x, x ∈ b :: bs -> ~ available m fl x) -> f * B <= h < (f + 1) * B ->
  wp (i_block b (destroy_element tr (wrap w h));;
      let! empty := i_block b (set_empty tr implicit_context (wrap w h)) in
      release_if_empty tr empty e b) (fun _ s' => exists p' m' fl' f' bs',
    s' = mkIState p' m' /\ consumed p m fl (h + 1) c f (b :: bs) p' m' fl' f' bs') nothrow (mkIState p m).
Proof using TraitsOk0.
  intros Hs He Ha Hpool Hr Hav Hpos. pose proof (block_size_gt_1 tr). pose proof Hr as [Hnd Hbl].
  destruct (Hbl O b eq_refl) as (blk & Hblk & Hrep). rewrite Z.add_0_r in Hrep.
  assert (offset tr (wrap w h) = h - f * B) as Eo.
  { rewrite offset_eq, index_mod_block by done. symmetry. apply Z.mod_unique_pos with f; lia. }
  assert (zlookup (elements blk) (offset tr (wrap w h)) = Some (Some v)) as Hslot.
  { destruct Hrep. rewrite Eo, br_elements by lia.
    replace (f * B + (h - f * B)) with h by lia. by rewrite content_head. }
  ip_step. eapply wp_i_block; [done|]. unfold destroy_element, read. wp_steps; [done..|].
  wp_steps. eapply wp_i_block; [cbn; apply lookup_insert_eq|].
  set (blk1 := set_elements _ blk). pose proof Hrep as [[] [] _].
  eapply wp_mono; [eapply (set_empty_spec tr implicit_context (offsets 0 (Z.min B (h - f * B))) blk1)| |done].
  - split; [cbn; by rewrite zlength_zinsert|done].
  - by split.
  - rewrite Eo, elem_of_offsets. lia.
  - cbn beta. intros r blk' [Hupd Er]. cbn. rewrite insert_insert_eq.
    rewrite Eo in Hupd, Er. cbn in Er. set (m1 := set_blocks (<[b := blk']> (blocks m)) m).
    assert (blocks_repr tr m1 (h + 1) c f (b :: bs)) as Hr1.
    { eapply (blocks_repr_update tr m h (v :: c) (h + 1) c f (b :: bs) 0 b); [done|done| |].
      - rewrite Z.add_0_r. eapply block_repr_destroy; [done|done|]. subst blk1. by rewrite Eo in Hupd.
      - intros q bk Hq Hbk. eapply block_repr_tail_other; [done|]. nia. }
    assert (pool_inv tr m1 fl) as Hpool1.
    { eapply pool_inv_update_block; [done|exact Hblk|by destruct Hupd as (_ & _ & _ & _ & ?)|]. apply Hav. by left. }
    assert (mem_frame (b :: bs) m fl (b :: bs) m1 fl) as Hf1.
    { apply mem_frame_blocks; [apply mem_frame_refl|]. intros l Hl. rewrite lookup_insert_ne; [done|].
      intros ->. apply Hl. by left. }
    assert ({[h - f * B]} ∪ offsets 0 (Z.min B (h - f * B)) = offsets 0 (h + 1 - f * B)) as Eset.
    { apply set_eq. intros x. rewrite elem_of_union, elem_of_singleton, !elem_of_offsets. lia. }
    rewrite Eset, size_offsets in Er by lia. subst r.
    destruct (Z.eqb_spec (h + 1 - f * B) B) as [Hlast|Hmore].
    + eapply wp_mono; [eapply (release_spec p m1 fl (h + 1) c f b bs hd e k); try done; lia| |done].
      cbn beta. intros _ s' (p' & m' & fl' & -> & []). exists p', m', fl', (f + 1), bs. split; [done|].
      split; try done. by eapply mem_frame_trans.
    + unfold release_if_empty. ip_step. exists p, m1, fl, f, (b :: bs). split; [done|]. split; try done; try lia.
      left. by exists hd.
Qed.

(** The invariant after the head has moved. *)
Lemma inv_consumed p m fl h t f bs c pb p1 m1 fl1 f1 bs1 c1 h1 :
  inv (mkIState p m) fl h t f bs c -> counters tr pb h1 t -> same_tail (ip_base p) pb -> h <= h1 ->
  zlength c1 = zlength c - (h1 - h) -> consumed (set_ip_base pb p) m fl h1 c1 f bs p1 m1 fl1 f1 bs1 ->
  inv (mkIState p1 m1) fl1 h1 t f1 bs1 c1.
Proof using Type.
  intros [] Hc (_ & Htb & Hkind) Hh Hlen []. cbn in *. split; cbn; rewrite ?cs_base0; try done; try lia.
  - intros b Hb. cbn. rewrite Htb. by apply ii_tail, cs_last0.
  - by rewrite <- ii_kind.
Qed.

(** A [noexcept] assignment does not throw. *)
Context (Hnoexcept : noexcept_assign ops = true -> forall v, assign ops v <> None).

Definition i_dequeued_one s fl h t f bs c' s' : Prop :=
  exists fl' f' bs', inv s' fl' (h + 1) t f' bs' c' /\ zlength bs' <= zlength bs /\
    mem_frame bs (imem s) fl bs' (imem s') fl'.

(** [dequeue] removes the oldest element and hands it over, also when the
    assignment to the caller's object throws; it returns [false] exactly on
    an empty queue, which it leaves as it is. *)
Lemma i_dequeue_spec s fl h t f bs c :
  inv s fl h t f bs c ->
  wp (ImplicitProducer_dequeue tr ops) (fun r s' =>
      match c with
      | [] => r = None /\ s' = s
      | v :: c' => is_Some r /\ r = assign ops v /\ i_dequeued_one s fl h t f bs c' s'
      end)
    (fun s' => exists v c', c = v :: c' /\ assign ops v = None /\ i_dequeued_one s fl h t f bs c' s') s.
Proof using All.
  intros Hinv. pose proof (inv_dist tr malloc_ok _ _ _ _ _ _ _ Hinv) as (Hle & Hdist & Hblocks).
  pose proof (inv_not_null tr malloc_ok _ _ _ _ _ _ _ Hinv) as Hnull. pose proof (block_size_gt_1 tr).
  pose proof Hinv as []. destruct s as [p m]. cbn [iprod imem] in *.
  destruct (claim_one_spec tr (ip_base p) h t ii_counters Hdist) as (pb & Eclaim & Hc').
  unfold ImplicitProducer_dequeue. ip_step. eapply wp_i_base; [exact Eclaim|]. clear Eclaim.
  destruct c as [|v c'].
  { change (zlength (@nil T)) with 0 in ii_contents. rewrite (proj2 (Z.ltb_ge h t)) in * by lia.
    subst pb. ip_step. split; [done|]. by destruct p. }
  assert (h < t) as Hlt by (unfold zlength in ii_contents; cbn in ii_contents; lia).
  rewrite (proj2 (Z.ltb_lt h t)) in * by done. destruct Hc' as [Hc' Hsame].
  destruct bs as [|b bs].
  { change (zlength (@nil loc)) with 0 in *. lia. }
  assert (h / B = f + Z.of_nat 0) as Hq by (symmetry; apply Z.div_unique with (h - f * B); lia).
  set (p1 := set_ip_base pb p).
  assert (implicit_index tr malloc_ok p1 f (b :: bs)) as Hix1 by (by eapply implicit_index_ext).
  ip_step. eapply wp_mono; [by eapply (lookup_entry_spec tr malloc_ok p1 m f (b :: bs) 0 b h)| |done].
  cbn beta. intros e s1 (-> & hd & Hs & He). ip_step. eapply wp_i_entry; [apply He|]. cbn [entry_value].
  destruct ii_blocks as [Hnd Hbl]. destruct (Hbl O b eq_refl) as (blk & Hblk & Hrep). rewrite Z.add_0_r in Hrep.
  assert (zlookup (elements blk) (offset tr (wrap w h)) = Some (Some v)) as Hslot.
  { destruct Hrep. assert (offset tr (wrap w h) = h - f * B) as ->.
    { rewrite offset_eq, index_mod_block by done. symmetry. apply Z.mod_unique_pos with f; lia. }
    rewrite br_elements by lia. replace (f * B + (h - f * B)) with h by lia. by rewrite content_head. }
  ip_step. eapply wp_i_block; [done|]. unfold read. wp_steps; [done..|]. wp_steps.
  assert (set_blocks (<[b := blk]> (blocks m)) m = m) as ->
    by (unfold set_blocks; rewrite insert_id by done; by destruct m).
  assert (zlength c' = zlength (v :: c') - (h + 1 - h)) as El by (unfold zlength; cbn; lia).
  replace (Z.of_nat 0 - zlength (b :: bs)) with (- zlength (b :: bs)) in He by lia.
  assert (forall E, wp (i_block b (destroy_element tr (wrap w h));;
      let! empty := i_block b (set_empty tr implicit_context (wrap w h)) in
      release_if_empty tr empty e b)
    (fun _ s' => i_dequeued_one (mkIState p m) fl h t f (b :: bs) c' s') E (mkIState p1 m)) as Hfinish.
  { intros E. eapply wp_mono; [eapply (i_finish_spec p1 m fl h v c' f b bs hd e); done| |done]. cbn beta.
    intros _ s' (p' & m' & fl' & f' & bs' & -> & Hcons). exists fl', f', bs'.
    split; [by eapply (inv_consumed p m fl h t f (b :: bs) (v :: c') pb); try done; lia|].
    destruct Hcons. assert (f <= f') by nia. split; [lia|done]. }
  destruct (assign ops v) as [r|] eqn:Hassign.
  - ip_step. eapply wp_mono; [apply (Hfinish nothrow)| |done]. cbn beta. intros _ s' Hs'. by ip_step.
  - destruct (noexcept_assign ops); [by destruct (Hnoexcept eq_refl v)|].
    ip_step. eapply wp_mono; [apply (Hfinish (fun _ => False))| |done]. cbn beta. intros _ s' Hs'.
    apply wp_throw. by exists v, c'.
Qed.
End dequeue.
