(* ===== verification/ImplicitBulk.v ===== *)
(** [ImplicitProducer]'s [dequeue_bulk]: it hands over the oldest elements in
    order, and when an assignment throws it destroys the rest of what it has
    claimed. *)

From S2P Require Import Prelude MachineInt Traits FreeList Block BlockPool ProducerBase ProducerBaseProofs ExplicitProducer Contents ImplicitProducer ImplicitSpec ImplicitIndex ImplicitProofs.

Section loops.
Context {U T R : Type} (tr : Traits) `{!TraitsOk tr} (ops : ElementOps U T R) (malloc_ok : nat -> bool).
#[local] Abbreviation w := (index_bits tr).
#[local] Abbreviation sb := (size_bits tr).
#[local] Abbreviation B := (BLOCK_SIZE tr).
Implicit Types (h t f q i n : Z) (bs : list loc) (c : list T) (m : Mem T) (s : IState T).
Implicit Types (p : ImplicitProducer) (out rs : list R) (blk : Block T).

Lemma wp_i_inner {A} (g : M (IState T) A) (Q : A -> IState T * list R -> Prop) E s out :
  wp g (fun a s' => Q a (s', out)) (fun s' => E (s', out)) s -> wp (i_inner g) Q E (s, out).
Proof using Type. intros H. by apply wp_zoom. Qed.

Lemma wp_i_put r (Q : unit -> IState T * list R -> Prop) E s out :
  Q tt (s, out ++ [r]) -> wp (i_put r) Q E (s, out).
Proof using Type. done. Qed.

Context (Hnoexcept : noexcept_assign ops = true -> forall v, assign ops v <> None).

(** The innermost loop, from [i] to [stop]. *)
Lemma i_move_until_spec fuel i stop p m h c q b blk0 blk out :
  cleared tr h c q i blk0 blk -> q * B <= h -> h <= i <= stop -> stop <= (q + 1) * B ->
  stop <= h + zlength c -> stop - i <= Z.of_nat fuel ->
  wp (i_move_until tr ops fuel b (wrap w i) (wrap w stop)) (fun r so => exists j blk' rs,
      so = (mkIState p (put_block b blk' m), out ++ rs) /\ cleared tr h c q j blk0 blk' /\
      i <= j <= stop /\ r.1 = wrap w j /\
      moved ops (take (Z.to_nat (j - i)) (drop (Z.to_nat (i - h)) c)) rs /\
      if r.2 then j < stop /\ exists v, c !! Z.to_nat (j - h) = Some v /\ assign ops v = None
      else j = stop) nothrow (mkIState p (put_block b blk m), out).
Proof using TraitsOk0 Hnoexcept.
  intros Hcl Hq Hi Hstop Hc. revert i blk out Hcl Hi.
  induction fuel as [|fuel IH]; intros i blk out Hcl Hi Hf; cbn [i_move_until];
    rewrite (index_eqb tr) by lia; destruct (Z.eqb_spec i stop) as [->|Hne]; try lia.
  1,2: wp_step; exists stop, blk, []; rewrite app_nil_r, Z.sub_diag; split_and!; try done; try lia; constructor.
  wp_step. apply wp_i_inner. eapply wp_i_block; [apply put_lookup|].
  eapply wp_mono; [eapply (read_cleared tr h c q); [done|lia|lia]| |done]. cbn beta. intros v blk' [-> Hv].
  fold (put_block b blk (put_block b blk m)). rewrite put_put. destruct (assign ops v) as [r|] eqn:Ha.
  - wp_step. apply wp_i_put. wp_step. apply wp_i_inner. eapply wp_i_block; [apply put_lookup|].
    eapply wp_mono; [eapply (destroy_cleared tr h c q); [done|lia|lia]| |done]. cbn beta. intros _ blk' Hcl'.
    fold (put_block b blk' (put_block b blk m)). rewrite put_put, wrap_add_l.
    eapply wp_mono; [eapply (IH (i + 1)); [done|lia|lia]| |done]. cbn beta.
    intros [x thr] so (j & blk2 & rs & -> & Hcl2 & Hj & Ej & Hmoved & Hthr). cbn [fst snd] in *.
    exists j, blk2, (r :: rs). rewrite <- app_assoc. split_and!; try done; try lia.
    rewrite (drop_S _ _ _ Hv). replace (Z.to_nat (j - i)) with (S (Z.to_nat (j - (i + 1)))) by lia.
    cbn [take firstn]. constructor; [done|]. by replace (S (Z.to_nat (i - h))) with (Z.to_nat (i + 1 - h)) by lia.
  - destruct (noexcept_assign ops); [by destruct (Hnoexcept eq_refl v)|]. wp_step.
    exists i, blk, []. rewrite app_nil_r, Z.sub_diag. cbn [fst snd]. split_and!; try done; try lia; [constructor|].
    by exists v.
Qed.

Lemma i_destroy_until_spec fuel i stop p m h c q b blk0 blk :
  cleared tr h c q i blk0 blk -> q * B <= h -> h <= i <= stop -> stop <= (q + 1) * B ->
  stop <= h + zlength c -> stop - i <= Z.of_nat fuel ->
  wp (i_destroy_until tr fuel b (wrap w i) (wrap w stop)) (fun _ s' => exists blk',
      s' = mkIState p (put_block b blk' m) /\ cleared tr h c q stop blk0 blk') nothrow
    (mkIState p (put_block b blk m)).
Proof using TraitsOk0.
  intros Hcl Hq Hi Hstop Hc. revert i blk Hcl Hi.
  induction fuel as [|fuel IH]; intros i blk Hcl Hi Hf; cbn [i_destroy_until];
    rewrite (index_eqb tr) by lia; destruct (Z.eqb_spec i stop) as [->|Hne]; try lia.
  1,2: wp_step; by exists blk.
  wp_step. eapply wp_i_block; [apply put_lookup|].
  eapply wp_mono; [eapply (destroy_cleared tr h c q); [done|lia|lia]| |done]. cbn beta. intros _ blk' Hcl'.
  fold (put_block b blk' (put_block b blk m)). rewrite put_put, wrap_add_l. apply IH; [done|lia|lia].
Qed.
End loops.

Section blocks.
Context {U T R : Type} (tr : Traits) `{!TraitsOk tr} (ops : ElementOps U T R) (malloc_ok : nat -> bool).
#[local] Abbreviation w := (index_bits tr).
#[local] Abbreviation sb := (size_bits tr).
#[local] Abbreviation B := (BLOCK_SIZE tr).
Implicit Types (h t f q i n : Z) (bs : list loc) (c : list T) (m : Mem T) (s : IState T).
Implicit Types (p : ImplicitProducer) (out rs : list R) (blk : Block T).

(** The contents from [h] on, in the blocks [bs], with the index header [hd]. *)
Record holding p m fl h c f bs hd : Prop := {
  hl_slots : slots tr p f bs (h_tail hd) hd;
  hl_addresses : addresses p m;
  hl_pool : pool_inv tr m fl;
  hl_blocks : blocks_repr tr m h c f bs;
  hl_in_use : forall b, b ∈ bs -> ~ available m fl b;
  hl_first : f * B <= h < (f + 1) * B;
  hl_last : h + zlength c <= (f + zlength bs) * B
}.

Lemma consumed_holding p m fl h c f bs p' m' fl' f' bs' hd :
  ip_headers p !! ip_blockIndex p = Some hd -> ip_blockIndex p <> nullptr ->
  consumed tr malloc_ok p m fl h c f bs p' m' fl' f' bs' -> h + zlength c <= (f + zlength bs) * B ->
  holding p' m' fl' h c f' bs' hd.
Proof using Type.
  intros Hhd Hn [] Hlast. destruct cs_headers as [Eh Eb]. split; try done; [|by rewrite cs_length].
  destruct cs_index as [(hd' & Hs)|(Hnull & _)]; [|congruence].
  pose proof (sl_header _ _ _ _ _ _ Hs) as Hhd'. rewrite Eh, Eb, Hhd in Hhd'. by injection Hhd' as ->.
Qed.

Lemma consumed_trans p m fl h c f bs p1 m1 fl1 f1 bs1 h2 c2 p2 m2 fl2 f2 bs2 :
  consumed tr malloc_ok p m fl h c f bs p1 m1 fl1 f1 bs1 ->
  consumed tr malloc_ok p1 m1 fl1 h2 c2 f1 bs1 p2 m2 fl2 f2 bs2 ->
  consumed tr malloc_ok p m fl h2 c2 f bs p2 m2 fl2 f2 bs2.
Proof using Type.
  intros [] []. destruct cs_headers, cs_headers0.
  split; try done; try congruence; [split; congruence|auto|by eapply mem_frame_trans].
Qed.

Lemma release_many_spec p m fl h n c f b bs hd e k blk0 blk :
  holding p m fl h c f (b :: bs) hd ->
  slot_entry p hd (h_tail hd) (- zlength (b :: bs)) e (mkImplicitEntry k b) ->
  blocks m !! b = Some blk0 -> cleared tr h c f (h + n) blk0 blk -> 0 <= n -> h + n <= (f + 1) * B ->
  wp (release_many tr e b (wrap w h) (wrap w (h + n))) (fun _ s' => exists p' m' fl' f' bs',
    s' = mkIState p' m' /\
    consumed tr malloc_ok p m fl (h + n) (drop (Z.to_nat n) c) f (b :: bs) p' m' fl' f' bs') nothrow
    (mkIState p (put_block b blk m)).
Proof using TraitsOk0.
  intros [] He Hblk Hcl Hn Hfit. pose proof (block_size_gt_1 tr). pose proof (size_le_index tr).
  pose proof (traits_block (tr := tr)). pose proof (size_pow_le_index tr).
  pose proof hl_blocks0 as [Hnd Hbl]. destruct (Hbl O b eq_refl) as (blk1 & Hblk1 & Hrep).
  assert (blk1 = blk0) as -> by congruence. rewrite Z.add_0_r in Hrep.
  unfold release_many. ip_step. eapply wp_i_block; [apply put_lookup|].
  rewrite wrap_sub_l, wrap_sub_r. replace (h + n - h) with n by lia. rewrite (wrap_small (w := w) n), (wrap_small (w := sb) n) by lia.
  eapply wp_mono; [by eapply (set_many_cleared tr implicit_context h c f n blk0 blk)| |done].
  cbn beta. intros r blk' (Hrep' & [_ Hdyn] & ->). fold (put_block b blk' (put_block b blk m)). rewrite put_put.
  set (m1 := put_block b blk' m). cbn [uses_flags negb andb].
  assert (blocks_repr tr m1 (h + n) (drop (Z.to_nat n) c) f (b :: bs)) as Hr1.
  { eapply (blocks_repr_update tr m h c _ _ f (b :: bs) 0 b); [done|done| |].
    - by rewrite Z.add_0_r.
    - intros q bk Hq Hbk. apply block_repr_drop_other; [done|done|]. nia. }
  assert (pool_inv tr m1 fl) as Hpool1.
  { eapply pool_inv_update_block; [done|exact Hblk1|done|]. apply hl_in_use0. by left. }
  assert (mem_frame (b :: bs) m fl (b :: bs) m1 fl) as Hf1.
  { apply mem_frame_blocks; [apply mem_frame_refl|]. intros l Hl. rewrite lookup_insert_ne; [done|].
    intros ->. apply Hl. by left. }
  destruct (Z.eqb_spec (h + n - f * B) B) as [Hlast|Hmore].
  - eapply wp_mono; [eapply (release_spec tr malloc_ok p m1 fl (h + n) _ f b bs hd e k); try done; lia| |done].
    cbn beta. intros _ s' (p' & m' & fl' & -> & []). exists p', m', fl', (f + 1), bs. split; [done|].
    split; try done. by eapply mem_frame_trans.
  - unfold release_if_empty. ip_step. exists p, m1, fl, f, (b :: bs). split; [done|].
    split; try done; try lia. left. by exists hd.
Qed.

(** The slot of the first block. *)
Definition first_slot hd bs : Z := (h_tail hd + 1 + - zlength bs) mod h_capacity hd.

Lemma first_entry p m fl h c f b bs hd :
  holding p m fl h c f (b :: bs) hd ->
  exists e, zlookup (h_index hd) (first_slot hd (b :: bs)) = Some e /\
    slot_entry p hd (h_tail hd) (- zlength (b :: bs)) e (mkImplicitEntry (wrap w (f * B)) b).
Proof using Type.
  intros []. destruct (sl_used _ _ _ _ _ _ hl_slots0 O b eq_refl) as [e He].
  rewrite Z.add_0_r in He. replace (Z.of_nat 0 - zlength (b :: bs)) with (- zlength (b :: bs)) in He by lia.
  exists e. split; [apply He|done].
Qed.

(** A block used up to its end leaves the index; the slot after its own is
    that of the next one. *)
Lemma consumed_next p m fl c f b bs p' m' fl' f' bs' :
  consumed tr malloc_ok p m fl ((f + 1) * B) c f (b :: bs) p' m' fl' f' bs' ->
  f' = f + 1 /\ zlength bs' = zlength bs.
Proof using TraitsOk0.
  intros []. pose proof (block_size_gt_1 tr). assert (f' = f + 1) as -> by nia. split; [done|].
  unfold zlength in *. cbn [length] in *. lia.
Qed.

Lemma next_slot p f0 bs0 tl0 hd b bs bs' :
  slots tr p f0 bs0 tl0 hd -> zlength bs' = zlength bs ->
  Z.land (wrap sb (first_slot hd (b :: bs) + 1)) (wrap sb (h_capacity hd - 1)) = first_slot hd bs'.
Proof using Type.
  intros Hs E. rewrite (mask_capacity tr _ _ _ _ _ _ Hs). unfold first_slot.
  rewrite Zplus_mod_idemp_l, E. f_equal. unfold zlength. cbn [length]. lia.
Qed.

(** The end of the claimed elements, seen from [h]: they are in the queue, and
    [fuel] blocks are enough. *)
Definition claimed h c f last (fuel : nat) : Prop :=
  h <= last <= h + zlength c /\ last - h < 2 ^ (w - 1) /\ last <= (f + Z.of_nat fuel) * B /\ (0 < fuel)%nat.

(** After the first block, used up: the loop goes on with the next one. *)
Lemma consumed_step p m fl h c f b bs hd p' m' fl' f' bs' last fuel :
  let stop := (f + 1) * B in
  holding p m fl h c f (b :: bs) hd ->
  consumed tr malloc_ok p m fl stop (drop (Z.to_nat (stop - h)) c) f (b :: bs) p' m' fl' f' bs' ->
  claimed h c f last (S fuel) -> stop < last ->
  exists b' bs'' blk, bs' = b' :: bs'' /\ f' = f + 1 /\
    holding p' m' fl' stop (drop (Z.to_nat (stop - h)) c) f' (b' :: bs'') hd /\
    blocks m' !! b' = Some blk /\
    cleared tr stop (drop (Z.to_nat (stop - h)) c) f' stop blk blk /\
    claimed stop (drop (Z.to_nat (stop - h)) c) f' last fuel /\
    Z.land (wrap sb (first_slot hd (b :: bs) + 1)) (wrap sb (h_capacity hd - 1)) = first_slot hd (b' :: bs'').
Proof using TraitsOk0.
  intros stop Hh Hcons (Hlast & Hd & Hfuel & _) Hmore. pose proof (block_size_gt_1 tr).
  pose proof Hh as [Hs _ _ _ _ Hfirst Hend].
  destruct (consumed_next _ _ _ _ _ _ _ _ _ _ _ _ Hcons) as [-> El].
  assert (zlength (b :: bs) = zlength bs + 1) as El' by (unfold zlength; cbn [length]; lia).
  rewrite El' in Hend.
  assert (zlength (drop (Z.to_nat (stop - h)) c) = zlength c - (stop - h)) as Ec by (apply zlength_drop; lia).
  destruct bs' as [|b' bs'']; [change (zlength (@nil loc)) with 0 in El; lia|].
  assert (holding p' m' fl' stop (drop (Z.to_nat (stop - h)) c) (f + 1) (b' :: bs'') hd) as Hh'.
  { eapply consumed_holding; [apply Hs|apply Hs|exact Hcons|]. rewrite El'. lia. }
  pose proof (hl_blocks _ _ _ _ _ _ _ _ Hh') as [_ Hbl].
  destruct (Hbl O b' eq_refl) as (blk & Hblk & Hrep). rewrite Z.add_0_r in Hrep.
  exists b', bs'', blk. split_and!; try done.
  - by eapply cleared_refl.
  - split; [lia|]. split; [lia|]. split; [lia|]. destruct fuel; lia.
  - by eapply next_slot.
Qed.

(** The exception handler. *)
Lemma i_drain_blocks_spec fuel p m fl h c f b bs blk0 blk hd last i :
  holding p m fl h c f (b :: bs) hd -> blocks m !! b = Some blk0 -> cleared tr h c f i blk0 blk ->
  h <= i <= Z.min last ((f + 1) * B) -> claimed h c f last fuel ->
  wp (i_drain_blocks tr fuel (ip_blockIndex p) (wrap w last) (first_slot hd (b :: bs)) (wrap w h) (wrap w i)
        (wrap w (Z.min last ((f + 1) * B))))
    (fun _ s' => exists p' m' fl' f' bs', s' = mkIState p' m' /\
       consumed tr malloc_ok p m fl last (drop (Z.to_nat (last - h)) c) f (b :: bs) p' m' fl' f' bs') nothrow
    (mkIState p (put_block b blk m)).
Proof using TraitsOk0.
  revert p m fl h c f b bs blk0 blk i. induction fuel as [|fuel IH];
    intros p m fl h c f b bs blk0 blk i Hh Hblk Hcl Hi Hclaim; [destruct Hclaim as (_ & _ & _ & ?); lia|].
  pose proof (block_size_gt_1 tr). pose proof Hclaim as (Hlast & Hd & _).
  pose proof Hh as [Hs _ _ _ _ Hfirst _]. destruct (first_entry _ _ _ _ _ _ _ _ _ Hh) as (e & Eslot & He).
  set (stop := Z.min last ((f + 1) * B)) in *.
  assert (h <= stop /\ stop <= last /\ stop <= (f + 1) * B /\ (stop = last \/ stop = (f + 1) * B)) as Hstop
    by (unfold stop; lia). clearbody stop. cbn [i_drain_blocks].
  ip_step. eapply wp_i_header; [apply Hs|]. ip_step. eapply wp_index_at; [exact Eslot|].
  ip_step. eapply wp_i_entry; [apply He|]. cbn [entry_value]. ip_step.
  eapply wp_mono; [eapply (i_destroy_until_spec tr _ i stop p m h c f b blk0 blk); try done; lia| |done].
  cbn beta. intros _ s1 (blk1 & -> & Hcl1). ip_step.
  assert (stop = h + (stop - h)) as Estop by lia. rewrite Estop in Hcl1. rewrite Estop at 1.
  eapply wp_mono; [eapply (release_many_spec p m fl h (stop - h) c f b bs hd e); try done; lia| |done].
  cbn beta. intros _ s2 (p2 & m2 & fl2 & f2 & bs2 & -> & Hcons). rewrite <- Estop in Hcons.
  rewrite (index_eqb_far tr) by lia. destruct (Z.eqb_spec stop last) as [E|Hmore].
  { ip_step. rewrite E in Hcons. by exists p2, m2, fl2, f2, bs2. }
  assert (stop = (f + 1) * B) as Efull by lia. rewrite Efull in Hcons |- *.
  destruct (consumed_step _ _ _ _ _ _ _ _ _ _ _ _ _ _ last fuel Hh Hcons Hclaim ltac:(lia))
    as (b' & bs' & blk' & -> & -> & Hh' & Hblk' & Hcl' & Hclaim' & Eslot').
  rewrite Eslot'. pose proof Hclaim' as (? & ? & ? & ?).
  rewrite (min_stop tr last (f + 1)) by lia.
  destruct (cs_headers _ _ _ _ _ _ _ _ _ _ _ _ _ _ Hcons) as [_ <-].
  rewrite <- (put_id b' blk' m2) by done.
  eapply wp_mono; [eapply IH; try done; lia| |done].
  cbn beta. intros _ s3 (p3 & m3 & fl3 & f3 & bs3 & -> & Hcons3). rewrite drop_claimed in Hcons3 by lia.
  exists p3, m3, fl3, f3, bs3. split; [done|]. by eapply consumed_trans.
Qed.
End blocks.

Section dequeue_bulk.
Context {U T R : Type} (tr : Traits) `{!TraitsOk tr} (ops : ElementOps U T R) (malloc_ok : nat -> bool).
Context (Hnoexcept : noexcept_assign ops = true -> forall v, assign ops v <> None).
#[local] Abbreviation w := (index_bits tr).
#[local] Abbreviation sb := (size_bits tr).
#[local] Abbreviation B := (BLOCK_SIZE tr).
Implicit Types (h t f q i n : Z) (bs : list loc) (c : list T) (m : Mem T) (s : IState T).
Implicit Types (p : ImplicitProducer) (out rs : list R) (blk : Block T).

(** What the loop over the blocks leaves, whether it returns or throws. *)
Definition moved_blocks p m fl h c f bs last out (thrown : bool) (so : IState T * list R) : Prop :=
  exists rs p' m' fl' f' bs', so = (mkIState p' m', out ++ rs) /\ handed ops c (Z.to_nat (last - h)) thrown rs /\
    consumed tr malloc_ok p m fl last (drop (Z.to_nat (last - h)) c) f bs p' m' fl' f' bs'.

Lemma i_move_blocks_spec fuel p m fl h c f b bs hd last out :
  holding tr p m fl h c f (b :: bs) hd -> claimed tr h c f last fuel ->
  wp (i_move_blocks tr ops fuel (ip_blockIndex p) (wrap w last) (first_slot hd (b :: bs)) (wrap w h))
    (fun _ => moved_blocks p m fl h c f (b :: bs) last out false)
    (moved_blocks p m fl h c f (b :: bs) last out true) (mkIState p m, out).
Proof using All.
  revert p m fl h c f b bs out. induction fuel as [|fuel IH];
    intros p m fl h c f b bs out Hh Hclaim; [destruct Hclaim as (_ & _ & _ & ?); lia|].
  pose proof (block_size_gt_1 tr). pose proof Hclaim as (Hlast & Hd & _).
  pose proof Hh as [Hs _ _ Hbl _ Hfirst _]. destruct (first_entry _ _ _ _ _ _ _ _ _ _ Hh) as (e & Eslot & He).
  destruct Hbl as [_ Hbl]. destruct (Hbl O b eq_refl) as (blk0 & Hblk0 & Hrep). rewrite Z.add_0_r in Hrep.
  cbn [i_move_blocks]. rewrite (min_stop tr last f h) by lia.
  set (stop := Z.min last ((f + 1) * B)).
  assert (h <= stop /\ stop <= last /\ stop <= (f + 1) * B /\ (stop = last \/ stop = (f + 1) * B)) as Hstop
    by (unfold stop; lia).
  ip_step. apply wp_i_inner. eapply wp_i_header; [apply Hs|]. ip_step. apply wp_i_inner.
  eapply wp_index_at; [exact Eslot|]. ip_step. apply wp_i_inner. eapply wp_i_entry; [apply He|].
  cbn [entry_value]. ip_step.
  pose proof (i_move_until_spec tr ops Hnoexcept (Z.to_nat B) h stop p m h c f b blk0 blk0 out
    ltac:(by eapply cleared_refl) ltac:(lia) ltac:(lia) ltac:(lia) ltac:(lia) ltac:(lia)) as Hmove.
  rewrite put_id in Hmove by done. eapply wp_mono; [exact Hmove| |done]. clear Hmove.
  cbn beta. intros [x thrown] so (j & blk1 & rs & -> & Hcl & Hj & Ex & Hmoved & Hcase). cbn [fst snd] in *. subst x.
  rewrite Z.sub_diag in Hmoved. change (drop (Z.to_nat 0) c) with c in Hmoved.
  destruct thrown.
  { destruct Hcase as (Hlt & v & Hv & Ha). ip_step. apply wp_i_inner.
    eapply wp_mono; [eapply (i_drain_blocks_spec tr malloc_ok (S fuel) p m fl h c f b bs blk0 blk1 hd last j);
      done || lia| |done].
    cbn beta. intros _ s' (p' & m' & fl' & f' & bs' & -> & Hcons). apply wp_throw.
    exists rs, p', m', fl', f', bs'. split; [done|]. split; [|done].
    exists (Z.to_nat (j - h)), v. split_and!; try done. lia. }
  subst j. ip_step. apply wp_i_inner. clearbody stop.
  assert (stop = h + (stop - h)) as Estop by lia. rewrite Estop in Hcl. rewrite Estop at 1.
  eapply wp_mono; [eapply (release_many_spec tr malloc_ok p m fl h (stop - h) c f b bs hd e); done || lia| |done].
  cbn beta. intros _ s2 (p2 & m2 & fl2 & f2 & bs2 & -> & Hcons). rewrite <- Estop in Hcons.
  rewrite (index_eqb_far tr) by lia. destruct (Z.eqb_spec stop last) as [E|Hmore].
  { ip_step. rewrite E in Hcons, Hmoved. by exists rs, p2, m2, fl2, f2, bs2. }
  assert (stop = (f + 1) * B) as Efull by lia. rewrite Efull in Hcons, Hmoved |- *.
  destruct (consumed_step _ _ _ _ _ _ _ _ _ _ _ _ _ _ _ _ last fuel Hh Hcons Hclaim ltac:(lia))
    as (b' & bs' & blk' & -> & -> & Hh' & Hblk' & Hcl' & Hclaim' & Eslot').
  rewrite Eslot'. destruct (cs_headers _ _ _ _ _ _ _ _ _ _ _ _ _ _ Hcons) as [_ <-].
  assert (forall thrown so, moved_blocks p2 m2 fl2 ((f + 1) * B) (drop (Z.to_nat ((f + 1) * B - h)) c) (f + 1)
      (b' :: bs') last (out ++ rs) thrown so -> moved_blocks p m fl h c f (b :: bs) last out thrown so) as Hcompose.
  { intros thrown so (rs2 & p3 & m3 & fl3 & f3 & bs3 & -> & Hrs & Hcons3).
    exists (rs ++ rs2), p3, m3, fl3, f3, bs3. rewrite app_assoc. split; [done|]. split.
    - replace (Z.to_nat (last - h)) with (Z.to_nat ((f + 1) * B - h) + Z.to_nat (last - (f + 1) * B))%nat by lia.
      by apply handed_app.
    - rewrite drop_claimed in Hcons3 by lia. by eapply consumed_trans. }
  eapply wp_mono; [eapply IH; done|intros ?; apply Hcompose|apply Hcompose].
Qed.

(** [dequeue_bulk] takes as many elements as there are, up to [max]; they
    are handed over in order, and if an assignment throws the rest of them is
    destroyed. *)
Definition i_dequeued_many s fl h t f bs c n out (thrown : bool) (so : IState T * list R) : Prop :=
  exists rs s' fl' f' bs', so = (s', out ++ rs) /\ handed ops c (Z.to_nat n) thrown rs /\
    implicit_inv tr malloc_ok s' fl' (h + n) t f' bs' (drop (Z.to_nat n) c) /\
    zlength bs' <= zlength bs /\ mem_frame bs (imem s) fl bs' (imem s') fl'.

Lemma i_dequeue_bulk_spec max s fl h t f bs c out :
  implicit_inv tr malloc_ok s fl h t f bs c -> 0 <= max -> t - h < 2 ^ (sb - 1) ->
  let n := Z.min (zlength c) max in
  wp (ImplicitProducer_dequeue_bulk tr ops max)
    (fun r so => r = n /\ i_dequeued_many s fl h t f bs c n out false so)
    (i_dequeued_many s fl h t f bs c n out true) (s, out).
Proof using All.
  intros Hinv Hmax Hsize n.
  pose proof (inv_dist tr malloc_ok _ _ _ _ _ _ _ Hinv) as (Hle & Hdist & Hblocks).
  pose proof (inv_not_null tr malloc_ok _ _ _ _ _ _ _ Hinv) as Hnull. pose proof (block_size_gt_1 tr) as HB.
  pose proof Hinv as []. destruct s as [p m]. cbn [iprod imem] in *.
  destruct (claim_many_spec tr max (ip_base p) h t ii_counters Hsize Hmax) as (pb & Eclaim & Hc').
  unfold ImplicitProducer_dequeue_bulk. ip_step. apply wp_i_inner. eapply wp_i_base; [exact Eclaim|]. clear Eclaim.
  rewrite ii_contents in *. destruct (Z.ltb_spec h t) as [Hlt|Hge].
  2:{ subst pb. ip_step. assert (n = 0) as -> by lia. split; [done|].
      exists [], (mkIState p m), fl, f, bs. rewrite app_nil_r, Z.add_0_r, drop_0.
      split_and!; [by destruct p|constructor|done|done|apply mem_frame_refl]. }
  fold n in Hc' |- *. destruct Hc' as [Hc' Hsame].
  destruct bs as [|b bs].
  { change (zlength (@nil loc)) with 0 in *. lia. }
  assert (h / B = f + Z.of_nat 0) as Hq by (symmetry; apply Z.div_unique with (h - f * B); lia).
  set (p1 := set_ip_base pb p).
  assert (implicit_index tr malloc_ok p1 f (b :: bs)) as Hix1 by (by eapply implicit_index_ext).
  ip_step. apply wp_i_inner.
  eapply wp_mono; [by eapply (lookup_index_spec tr malloc_ok p1 m f (b :: bs) 0 b h)| |done].
  cbn beta. intros [slot bi] s1 (-> & hd & e & Hs & -> & -> & He). cbn [fst snd].
  replace (Z.of_nat 0 - zlength (b :: bs)) with (- zlength (b :: bs)) by lia.
  fold (first_slot hd (b :: bs)). rewrite wrap_add_l.
  assert (holding tr p1 m fl h c f (b :: bs) hd) as Hh by (split; try done; lia).
  assert (claimed tr h c f (h + n) (S (S (Z.to_nat (n / B))))) as Hclaim.
  { split; [lia|]. split; [lia|]. split; [|lia]. pose proof (Z.div_mod n B ltac:(lia)).
    pose proof (Z.mod_pos_bound n B ltac:(lia)). pose proof (Z.div_pos n B ltac:(lia) ltac:(lia)). nia. }
  assert (forall thrown so, moved_blocks p1 m fl h c f (b :: bs) (h + n) out thrown so ->
    i_dequeued_many (mkIState p m) fl h t f (b :: bs) c n out thrown so) as Hdone.
  { intros thrown so (rs & p' & m' & fl' & f' & bs' & -> & Hrs & Hcons).
    replace (h + n - h) with n in * by lia. exists rs, (mkIState p' m'), fl', f', bs'.
    split_and!; try done.
    - eapply (inv_consumed tr malloc_ok p m fl h t f (b :: bs) c pb); try done; [lia|].
      rewrite zlength_drop; lia.
    - destruct Hcons. assert (f <= f') by nia. lia.
    - by destruct Hcons. }
  ip_step. eapply wp_mono; [eapply (i_move_blocks_spec _ p1 m fl h c f b bs hd (h + n) out); done| |auto].
  cbn beta. intros _ so Hso. ip_step. split; [done|]. by apply Hdone.
Qed.
End dequeue_bulk.
