(* ===== verification/ImplicitRevert.v ===== *)
(** Undoing the allocations of [ImplicitProducer]'s [enqueue_bulk]: the new
    blocks leave the block index, from the first to the last while the tail
    goes back from the last to the first, and return to the pool. *)

From S2P Require Import Prelude MachineInt Traits FreeList Block BlockPool ProducerBase ProducerBaseProofs ExplicitProducer Contents ImplicitProducer ImplicitSpec ImplicitIndex ImplicitProofs.

(** Two steps taken together. *)
Lemma wp_assoc {S A B} (g : M S A) (k : A -> M S unit) (k2 : M S unit) (rest : M S B) Q E (s : S) :
  wp (let! x := g in k x;; k2) (fun _ s' => wp rest Q E s') E s ->
  wp (let! x := g in k x;; k2;; rest) Q E s.
Proof.
  unfold wp, bind. destruct (g s) as [x s1| |]; try done.
  destruct (k x s1) as [? s2| |]; try done. by destruct (k2 s2).
Qed.

(** * The index *)

(** The chain of blocks from [b] on. *)
Abbreviation next_chain m := (linked next (blocks m)).

Section index.
Context {T : Type} (tr : Traits) `{!TraitsOk tr} (malloc_ok : nat -> bool).
#[local] Abbreviation w := (index_bits tr).
#[local] Abbreviation sb := (size_bits tr).
#[local] Abbreviation B := (BLOCK_SIZE tr).
Implicit Types (h t f tl : Z) (bs vs new : list loc) (m : Mem T) (p : ImplicitProducer).

(** A store to the entry of a block of the list. *)
Lemma slots_store_used p f vs tl hd k e b b' :
  slots tr p f vs tl hd -> vs !! k = Some b ->
  slot_entry p hd tl (Z.of_nat k - zlength vs) e (mkImplicitEntry (wrap w ((f + Z.of_nat k) * B)) b) ->
  slots tr (store_entry e (mkImplicitEntry (wrap w ((f + Z.of_nat k) * B)) b') p) f (<[k := b']> vs) tl hd.
Proof using Type.
  intros Hs Hk He. pose proof (lookup_lt_Some _ _ _ Hk) as Hlt. pose proof Hs as [].
  assert (zlength (<[k := b']> vs) = zlength vs) as El by (unfold zlength; by rewrite length_insert).
  split; cbn; rewrite ?El; try done.
  - intros i x Hi. destruct (decide (i = k)) as [->|Hne].
    + rewrite list_lookup_insert_eq in Hi by done. injection Hi as <-. exists e.
      pose proof He as He'. eapply slot_entry_store in He'; [|exact Hs| |exact He].
      * rewrite decide_True in He' by done. exact He'.
      * pose proof (index_capacity_pos _ _ _ _ _ _ Hs). lia.
    + rewrite list_lookup_insert_ne in Hi by done. destruct (sl_used _ _ Hi) as [e1 H1]. exists e1.
      pose proof (lookup_lt_Some _ _ _ Hi).
      eapply slot_entry_store in H1; [|exact Hs| |exact He]; [|unfold zlength in *; lia].
      rewrite decide_False in H1 by lia. exact H1.
  - intros j Hj. destruct (sl_free j Hj) as (e1 & x1 & H1 & Hx). exists e1, x1. split; [|done].
    eapply slot_entry_store in H1; [|exact Hs| |exact He]; [|unfold zlength in *; lia].
    rewrite decide_False in H1 by (unfold zlength; lia). exact H1.
Qed.

(** Entries without a block at the end of the list are free slots. *)
Lemma slots_drop_nulls p f bs tl hd n :
  slots tr p f (bs ++ replicate n nullptr) tl hd ->
  slots tr p f bs ((tl - Z.of_nat n) mod h_capacity hd) hd.
Proof using Type.
  intros Hs. pose proof (index_capacity_pos _ _ _ _ _ _ Hs). pose proof Hs as []. pose proof (zlength_nonneg bs).
  assert (zlength (bs ++ replicate n nullptr) = zlength bs + Z.of_nat n) as El
    by (rewrite zlength_app; unfold zlength; rewrite length_replicate; lia).
  rewrite El in *.
  assert (forall j e x, slot_entry p hd ((tl - Z.of_nat n) mod h_capacity hd) j e x <->
    slot_entry p hd tl (j - Z.of_nat n) e x) as Hshift.
  { intros j e x. unfold slot_entry. rewrite <- Z.add_assoc, Zplus_mod_idemp_l.
    by replace (tl - Z.of_nat n + (1 + j)) with (tl + 1 + (j - Z.of_nat n)) by lia. }
  split; try done; [apply Z.mod_pos_bound; lia|lia| |].
  - intros k b Hk. destruct (sl_used k b) as [e He]; [by apply lookup_app_l_Some|]. exists e.
    rewrite Hshift. by replace (Z.of_nat k - zlength bs - Z.of_nat n)
      with (Z.of_nat k - (zlength bs + Z.of_nat n)) by lia.
  - intros j Hj. setoid_rewrite Hshift. destruct (decide (j < Z.of_nat n)) as [Hlt|Hge].
    + destruct (sl_used (length bs + Z.to_nat j)%nat nullptr) as [e He].
      { rewrite lookup_app_r by lia. apply lookup_replicate. split; [done|lia]. }
      eexists e, (mkImplicitEntry _ nullptr). split; [|done]. replace (j - Z.of_nat n)
        with (Z.of_nat (length bs + Z.to_nat j)%nat - (zlength bs + Z.of_nat n)) by (unfold zlength; lia).
      exact He.
    + apply sl_free. lia.
Qed.

(** [j] of the new blocks have been taken out again. *)
Definition reverting p f bs (j : nat) new tl hd : Prop :=
  slots tr p f (bs ++ replicate j nullptr ++ new) tl hd /\
  h_tail hd = (tl - Z.of_nat j) mod h_capacity hd.

Lemma app_replicate_snoc bs j new :
  bs ++ replicate j nullptr ++ nullptr :: new = bs ++ replicate (S j) nullptr ++ new.
Proof using Type.
  f_equal. replace (S j) with (j + 1)%nat by lia. rewrite replicate_add, <- app_assoc. done.
Qed.

(** One round of the loop. *)
Lemma revert_one_spec p m f bs j b new tl hd x :
  reverting p f bs j (b :: new) tl hd -> b <> nullptr -> addresses p m ->
  x / B = f + zlength bs + Z.of_nat j -> (zlength bs + Z.of_nat j + zlength (b :: new)) * B <= 2 ^ (w - 1) ->
  wp (let! e := get_block_index_entry_for_index tr (wrap w x) in
      store_value e nullptr;; rewind_block_index_tail tr)
    (fun _ s' => exists p' hd', s' = mkIState p' m /\ index_step p m p' /\
       reverting p' f bs (S j) new tl hd') nothrow (mkIState p m : IState T).
Proof using TraitsOk0.
  intros [Hs Etail] Hb Ha Hx Hdist. pose proof (block_size_gt_1 tr). pose proof (size_le_index tr).
  pose proof (zlength_nonneg bs). pose proof (zlength_nonneg new). pose proof (pow_half_pos (w := w) ltac:(lia)).
  set (vs := bs ++ replicate j nullptr ++ b :: new) in *. set (k := (length bs + j)%nat).
  assert (vs !! k = Some b) as Hk.
  { unfold vs. rewrite lookup_app_r by lia. rewrite lookup_app_r by (rewrite length_replicate; lia).
    rewrite length_replicate. by replace (k - length bs - j)%nat with O by lia. }
  assert (zlength vs = zlength bs + Z.of_nat j + (zlength new + 1)) as Evs.
  { unfold vs. rewrite !zlength_app. unfold zlength. rewrite length_replicate. cbn [length]. lia. }
  assert (zlength (b :: new) = zlength new + 1) as El by (unfold zlength; cbn [length]; lia). rewrite El in Hdist.
  assert (Z.of_nat k = zlength bs + Z.of_nat j) as Ek by (unfold zlength; lia).
  unfold get_block_index_entry_for_index. ip_step. ip_step.
  eapply wp_mono; [eapply (lookup_from_tail tr p m f vs tl hd (Z.of_nat j) k b x); try done; try nia| |done].
  cbn beta. intros [i bi] s1 (-> & e & -> & -> & He). cbn [fst snd].
  ip_step. eapply wp_i_header; [apply Hs|]. eapply wp_index_at; [apply He|].
  ip_step. eapply wp_store_value; [apply He|]. cbn [entry_key].
  pose proof (slots_store_used _ _ _ _ _ _ _ _ nullptr Hs Hk He) as Hs1.
  fold (store_entry e (mkImplicitEntry (wrap w ((f + Z.of_nat k) * B)) nullptr) p).
  set (p1 := store_entry _ _ _) in *. unfold rewind_block_index_tail. ip_steps.
  eapply wp_i_header; [apply Hs1|]. eapply wp_store_tail; [apply Hs1|].
  rewrite (mask_capacity tr _ _ _ _ _ _ Hs1). set (nt := (h_tail hd - 1) mod h_capacity hd).
  fold (with_tail nt hd). eexists _, (with_tail nt hd). split; [done|]. split.
  { split; [done|]. apply (addresses_tail p1); [|apply Hs1]. apply addresses_store; [done|]. eexists. apply He. }
  assert (<[k := nullptr]> vs = bs ++ replicate (S j) nullptr ++ new) as Enew.
  { rewrite <- app_replicate_snoc. unfold vs, k. rewrite insert_app_r, insert_app_r_alt by (rewrite length_replicate; lia).
    rewrite length_replicate, Nat.sub_diag. done. }
  rewrite Enew in Hs1. split; [exact (slots_set_tail tr _ _ _ _ _ nt Hs1)|].
  cbn. unfold nt. rewrite Etail, Zminus_mod_idemp_l. f_equal. lia.
Qed.

(** The whole loop. *)
Lemma revert_entries_spec fuel p m f bs j b new tl hd x :
  reverting p f bs j new tl hd -> next_chain m b new -> addresses p m ->
  x = (f + zlength bs + Z.of_nat j - 1) * B ->
  (zlength bs + Z.of_nat j + zlength new) * B <= 2 ^ (w - 1) -> (length new <= fuel)%nat ->
  wp (revert_entries tr fuel b (wrap w x))
    (fun _ s' => exists p' hd', s' = mkIState p' m /\ index_step p m p' /\
       reverting p' f bs (j + length new) [] tl hd') nothrow (mkIState p m : IState T).
Proof using TraitsOk0.
  revert p j b hd x fuel. induction new as [|b' new IH]; intros p j b hd x fuel Hrev Hchain Ha -> Hdist Hfuel.
  { cbn in Hchain. subst b. assert (forall fuel, revert_entries (T := T) tr fuel nullptr (wrap w ((f + zlength bs + Z.of_nat j - 1) * B)) = ret tt) as E
      by (by intros []). rewrite E. ip_step. rewrite Nat.add_0_r. exists p, hd. split; [done|]. split; [|done]. done. }
  destruct Hchain as (-> & Hb' & blk & Hblk & Hchain). destruct fuel as [|fuel]; [cbn in Hfuel; lia|].
  pose proof (block_size_gt_1 tr).
  assert (zlength (b' :: new) = zlength new + 1) as El by (unfold zlength; cbn [length]; lia).
  cbn [revert_entries]. rewrite (proj2 (Z.eqb_neq _ _)) by done. rewrite wrap_add_l.
  replace ((f + zlength bs + Z.of_nat j - 1) * B + B) with ((f + zlength bs + Z.of_nat j) * B) by lia.
  apply (wp_assoc _ (fun e => store_value e nullptr)).
  eapply wp_mono; [eapply (revert_one_spec p m f bs j b' new tl hd); try done| |done].
  { rewrite Z.div_mul by lia. done. }
  cbn beta. intros _ s1 (p1 & hd1 & -> & [Eb1 Ha1] & Hrev1). ip_step.
  eapply wp_i_block; [done|]. ip_step. fold (set_blocks (T := T)).
  assert (set_blocks (<[b' := blk]> (blocks m)) m = m) as ->
    by (unfold set_blocks; rewrite insert_id by done; by destruct m).
  eapply wp_mono; [eapply (IH p1 (S j)); [exact Hrev1|exact Hchain|done|f_equal; lia|lia|cbn in Hfuel; lia]| |done].
  cbn beta. intros _ s2 (p2 & hd2 & -> & [Eb2 Ha2] & Hrev2). exists p2, hd2. split; [done|].
  split; [split; [congruence|done]|]. cbn [length]. by replace (j + S (length new))%nat with (S j + length new)%nat by lia.
Qed.
End index.

(** * The pool *)

Section pool.
Context {T : Type} (tr : Traits) `{!TraitsOk tr} (malloc_ok : nat -> bool).
#[local] Abbreviation w := (index_bits tr).
#[local] Abbreviation B := (BLOCK_SIZE tr).
Implicit Types (bs new : list loc) (m : Mem T).

Lemma next_chain_frame m m' b l :
  next_chain m b l -> (forall x, x ∈ l -> blocks m' !! x = blocks m !! x) -> next_chain m' b l.
Proof using Type.
  intros Hc Hf. eapply linked_frame; [exact Hc|]. intros x blk Hx Hblk. exists blk. by rewrite Hf.
Qed.

(** What [add_blocks_to_free_list] does to the memory. *)
Definition all_returned new m fl m' fl' : Prop :=
  pool_inv tr m' fl' /\ next_address m' = next_address m /\
  (forall l, (l ∉ new) -> blocks m' !! l = blocks m !! l) /\
  (forall l, available m' fl' l -> available m fl l \/ l ∈ new) /\
  (forall l, available m fl l -> available m' fl' l) /\
  (forall l, l ∈ new -> available m' fl' l \/ blocks m' !! l = None).

Lemma add_blocks_spec fuel m fl b new :
  pool_inv tr m fl -> next_chain m b new -> NoDup new ->
  (forall x, x ∈ new -> ~ available m fl x /\ exists blk, blocks m !! x = Some blk /\ raw tr blk) ->
  (length new <= fuel)%nat ->
  wp (add_blocks_to_free_list tr fuel b) (fun _ m' => exists fl', all_returned new m fl m' fl') nothrow m.
Proof using Type.
  revert m fl b fuel. induction new as [|b' new IH]; intros m fl b fuel Hpool Hc Hnd Hnew Hfuel.
  { cbn in Hc. subst b. assert (add_blocks_to_free_list (T := T) tr fuel nullptr = ret tt) as -> by (by destruct fuel).
    wp_step. exists fl. split_and!; try done; [by left|by intros l ?%not_elem_of_nil]. }
  destruct Hc as (-> & Hb' & blk & Hblk & Hc). destruct fuel as [|fuel]; [cbn in Hfuel; lia|].
  apply NoDup_cons in Hnd as [Hnb Hnd].
  destruct (Hnew b' ltac:(by left)) as (Hav & blk' & Hblk' & Hraw). assert (blk' = blk) as -> by congruence.
  cbn [add_blocks_to_free_list]. rewrite (proj2 (Z.eqb_neq _ _)) by done.
  wp_step. eapply wp_at_block; [done|]. wp_step.
  assert (set_blocks (<[b' := blk]> (blocks m)) m = m) as ->
    by (unfold set_blocks; rewrite insert_id by done; by destruct m).
  wp_step. eapply wp_mono; [by eapply add_block_to_free_list_spec| |done]. cbn beta.
  intros _ m1 (fl1 & (Hpool1 & Hbl1 & Hav1 & Hback1 & Hgone1 & Hna1) & _).
  assert (forall x, x ∈ new -> x <> b') as Hne by (by intros x Hx ->).
  eapply wp_mono; [eapply (IH m1 fl1); try done| |done].
  - eapply next_chain_frame; [done|]. intros x Hx. by apply Hbl1, Hne.
  - intros x Hx. destruct (Hnew x ltac:(by right)) as (Ha & bk & Hbk & Hr).
    split; [intros [|]%Hav1; [done|by apply (Hne x)]|]. exists bk. by rewrite Hbl1 by (by apply Hne).
  - cbn in Hfuel. lia.
  - cbn beta. intros _ m2 (fl2 & Hpool2 & Hna2 & Hbl2 & Hav2 & Hback2 & Hgone2). exists fl2. split; [done|]. split; [congruence|]. split_and!.
    + intros l Hl. apply not_elem_of_cons in Hl as [Hlb Hl]. rewrite Hbl2, Hbl1 by done. done.
    + intros l [Hl|Hl]%Hav2; [|right; by right]. apply Hav1 in Hl as [Hl| ->]; [by left|right; by left].
    + auto.
    + intros l [->|Hl]%elem_of_cons; [|auto]. destruct Hgone1; [auto|right]. by rewrite Hbl2.
Qed.
End pool.
