(* ===== verification/ImplicitEnqueueBulk.v ===== *)
(** [ImplicitProducer]'s [enqueue_bulk]: all or nothing.  The blocks it needs
    are allocated first and given back when one of them, or the constructor of
    an element, fails. *)

From S2P Require Import Prelude MachineInt Traits FreeList Block BlockPool ProducerBase ProducerBaseProofs ExplicitProducer Contents ImplicitProducer ImplicitSpec ImplicitIndex ImplicitProofs ImplicitBulk ImplicitRevert.

(** * The producer with additional blocks *)

(** Each block of the list points to the next one. *)
Definition path {T} (m : Mem T) (l : list loc) : Prop :=
  forall i x y, l !! i = Some x -> l !! S i = Some y ->
    exists blk, blocks m !! x = Some blk /\ next blk = y.

Section path.
Context {T : Type}.
Implicit Types (m : Mem T) (l : list loc) (b x y : loc).

Lemma path_frame m m' l :
  path m l -> (forall x, x ∈ l -> next <$> (blocks m' !! x) = next <$> (blocks m !! x)) -> path m' l.
Proof.
  intros Hp Hf i x y Hx Hy. destruct (Hp i x y Hx Hy) as (blk & Hb & Hn).
  specialize (Hf x ltac:(by eapply list_elem_of_lookup_2)). rewrite Hb in Hf.
  destruct (blocks m' !! x) as [blk'|] eqn:E; [|done]. cbn in Hf. injection Hf as Hf.
  exists blk'. split; [done|congruence].
Qed.

(** [l] is extended by a block to which its last one has been made to
    point. *)
Lemma path_snoc m m' l b :
  path m l -> NoDup l ->
  (forall x, x ∈ l -> last l <> Some x -> next <$> (blocks m' !! x) = next <$> (blocks m !! x)) ->
  (forall x, last l = Some x -> exists blk, blocks m' !! x = Some blk /\ next blk = b) ->
  path m' (l ++ [b]).
Proof.
  intros Hp Hnd Hf Hl i x y Hx Hy. apply lookup_app_Some in Hy as [Hy|[Hge Hy]].
  - pose proof (lookup_lt_Some _ _ _ Hy). rewrite lookup_app_l in Hx by lia.
    destruct (Hp i x y Hx Hy) as (blk & Hb & Hn).
    assert (last l <> Some x) as Hnl.
    { rewrite last_lookup. intros E. pose proof (NoDup_lookup _ _ _ _ Hnd Hx E). lia. }
    specialize (Hf x ltac:(by eapply list_elem_of_lookup_2) Hnl). rewrite Hb in Hf.
    destruct (blocks m' !! x) as [blk'|] eqn:E; [|done]. cbn in Hf. injection Hf as Hf.
    exists blk'. split; [done|congruence].
  - apply list_lookup_singleton_Some in Hy as [Hi <-]. rewrite lookup_app_l in Hx by lia.
    apply Hl. rewrite last_lookup. by replace (pred (length l)) with i by lia.
Qed.

Lemma path_tail m l k : path m l -> path m (drop k l).
Proof.
  intros Hp i x y. rewrite !lookup_drop. replace (k + S i)%nat with (S (k + i)) by lia. apply Hp.
Qed.

(** A path that ends with a null link is a chain. *)
Lemma path_chain m l :
  path m l -> nullptr ∉ l ->
  (forall x, last l = Some x -> exists blk, blocks m !! x = Some blk /\ next blk = nullptr) ->
  next_chain m (default nullptr (head l)) l.
Proof.
  induction l as [|x l IH]; intros Hp Hn Hl; [done|]. apply not_elem_of_cons in Hn as [Hx Hn].
  cbn. split; [done|]. split; [done|]. destruct l as [|y l].
  - destruct (Hl x eq_refl) as (blk & ? & E). exists blk. by rewrite E.
  - destruct (Hp 0%nat x y eq_refl eq_refl) as (blk & Hb & E). exists blk. split; [done|]. rewrite E.
    apply (IH (path_tail m (x :: y :: l) 1 Hp) Hn). intros z Hz. apply Hl. by rewrite last_cons, Hz.
Qed.
End path.

Section extend.
Context {U T R : Type} (tr : Traits) `{!TraitsOk tr} (ops : ElementOps U T R).
Context (malloc_ok : nat -> bool) (indeterminate : Indeterminate).
#[local] Abbreviation w := (index_bits tr).
#[local] Abbreviation sb := (size_bits tr).
#[local] Abbreviation B := (BLOCK_SIZE tr).
Implicit Types (h t f : Z) (bs new : list loc) (c : list T) (m : Mem T) (s : IState T).
Implicit Types (p : ImplicitProducer).
#[local] Abbreviation inv := (implicit_inv tr malloc_ok).

(** The last block, if the next element goes there. *)
Definition start_blocks t bs : list loc := if t mod B =? 0 then [] else from_option (fun b => [b]) [] (last bs).

(** The blocks [new] have been added to those of [s]; the block pointer is
    [tb]. *)
Record extended s fl h t c f bs new p m fl' tb : Prop := {
  ex_base : ip_base p = set_tailBlock tb (ip_base (iprod s));
  ex_index : implicit_index tr malloc_ok p f (bs ++ new);
  ex_addresses : addresses p m;
  ex_pool : pool_inv tr m fl';
  ex_blocks : blocks_repr tr m h c f (bs ++ new);
  ex_in_use : forall b, b ∈ bs ++ new -> ~ available m fl' b;
  ex_path : path m (start_blocks t bs ++ new);
  ex_end : forall x, last new = Some x -> exists blk, blocks m !! x = Some blk /\ next blk = nullptr;
  ex_range : (f + zlength bs + zlength new) * B - h < 2 ^ (w - 1);
  ex_frame : mem_frame bs (imem s) fl (bs ++ new) m fl'
}.

Lemma set_tailBlock_same (b : ProducerBase) : set_tailBlock (tailBlock b) b = b.
Proof using Type. by destruct b. Qed.

Lemma extended_nil s fl h t c f bs :
  inv s fl h t f bs c ->
  extended s fl h t c f bs [] (iprod s) (imem s) fl (tailBlock (ip_base (iprod s))).
Proof using Type.
  intros []. split; rewrite ?app_nil_r; try done.
  - by rewrite set_tailBlock_same.
  - unfold start_blocks. destruct (t mod B =? 0); [done|]. destruct (last bs); [|done]. intros [|i]; done.
  - change (zlength (@nil loc)) with 0. by rewrite Z.add_0_r.
Qed.

(** The same blocks in a memory that agrees on them. *)
Lemma extended_frame s fl h t c f bs new p m fl1 tb p' m' fl' :
  extended s fl h t c f bs new p m fl1 tb -> ip_base p' = ip_base p -> addresses p' m' ->
  implicit_index tr malloc_ok p' f (bs ++ new) -> pool_inv tr m' fl' ->
  blocks m' = blocks m -> (forall l, available m' fl' l -> available m fl1 l) -> mem_frame (bs ++ new) m fl1 (bs ++ new) m' fl' ->
  extended s fl h t c f bs new p' m' fl' tb.
Proof using Type.
  intros [] Eb Ha Hix Hpool Ebl Hav Hf. split; try done.
  - congruence.
  - eapply blocks_repr_frame; [done|]. intros b _. by rewrite Ebl.
  - intros b Hb Hl. by apply (ex_in_use0 b Hb), Hav.
  - eapply path_frame; [done|]. intros x _. by rewrite Ebl.
  - intros x Hx. rewrite Ebl. auto.
  - by eapply mem_frame_trans.
Qed.

Lemma start_blocks_in t bs x : x ∈ start_blocks t bs -> last bs = Some x /\ x ∈ bs.
Proof using Type.
  unfold start_blocks. destruct (t mod B =? 0); [by intros ?%not_elem_of_nil|].
  destruct (last bs) as [b|] eqn:E; [|by intros ?%not_elem_of_nil]. cbn. intros ->%list_elem_of_singleton.
  split; [done|]. rewrite last_lookup in E. by eapply list_elem_of_lookup_2.
Qed.

Lemma extended_nodup s fl h t c f bs new p m fl' tb :
  extended s fl h t c f bs new p m fl' tb -> NoDup (start_blocks t bs ++ new).
Proof using Type.
  intros []. destruct ex_blocks0 as [Hnd _]. apply NoDup_app in Hnd as (_ & Hd & Hnd).
  apply NoDup_app. split; [|split; [|done]].
  - unfold start_blocks. destruct (t mod B =? 0); [apply NoDup_nil_2|].
    destruct (last bs); [apply NoDup_singleton|apply NoDup_nil_2].
  - intros x Hx. apply Hd. by apply start_blocks_in in Hx as [_ ?].
Qed.

Lemma extended_not_null s fl h t c f bs new p m fl' tb :
  extended s fl h t c f bs new p m fl' tb -> nullptr ∉ bs ++ new.
Proof using Type.
  intros [] Hb. pose proof (blocks_repr_in _ _ _ _ _ _ _ ex_blocks0 Hb) as Hs.
  apply (pi_addr _ _ _ ex_pool0) in Hs. unfold nullptr in Hs. lia.
Qed.

(** Everything is undone. *)
Lemma revert_blocks_spec bound s fl h t c f bs new p m fl' tb :
  inv s fl h t f bs c -> extended s fl h t c f bs new p m fl' tb -> (length new <= bound)%nat ->
  wp (revert_blocks tr bound (default nullptr (head new)) (tailBlock (ip_base (iprod s))) (wrap w t))
    (fun _ s' => exists fl'', inv s' fl'' h t f bs c /\ mem_frame bs (imem s) fl bs (imem s') fl'') nothrow
    (mkIState p m).
Proof using TraitsOk0.
  intros Hinv Hex Hbound. pose proof (extended_not_null _ _ _ _ _ _ _ _ _ _ _ _ Hex) as Hnull.
  pose proof Hinv as []. pose proof Hex as []. pose proof (block_size_gt_1 tr).
  assert (nullptr ∉ new) as Hnew by (intros ?; apply Hnull, elem_of_app; by right).
  assert (next_chain m (default nullptr (head new)) new) as Hchain.
  { apply path_chain; [|done|done]. pose proof (path_tail m _ (length (start_blocks t bs)) ex_path0) as Hp.
    by rewrite drop_app_length in Hp. }
  assert (block_base tr (wrap w (wrap w t - 1)) = wrap w ((f + zlength bs + Z.of_nat 0 - 1) * B)) as Ebase.
  { rewrite wrap_sub_l, (block_base_key tr). do 2 f_equal. symmetry. apply Z.div_unique with (t - 1 - (f + zlength bs - 1) * B); lia. }
  unfold revert_blocks. rewrite Ebase. ip_step.
  assert (wp (revert_entries tr bound (default nullptr (head new)) (wrap w ((f + zlength bs + Z.of_nat 0 - 1) * B)))
    (fun _ s' => exists p', s' = mkIState p' m /\ index_step p m p' /\ implicit_index tr malloc_ok p' f bs)
    nothrow (mkIState p m)) as Hentries.
  { destruct ex_index0 as [(hd & Hs)|(Hn & E & Hm)].
    - eapply wp_mono; [eapply (revert_entries_spec tr bound p m f bs 0 _ new (h_tail hd) hd); try done| |done].
      + split; [done|]. rewrite Z.sub_0_r. symmetry. apply Z.mod_small, Hs.
      + pose proof (zlength_nonneg bs). pose proof (zlength_nonneg new).
        assert ((zlength bs + zlength new - 1) * B < 2 ^ (w - 1)) as Hlt by nia.
        replace (zlength bs + Z.of_nat 0 + zlength new) with (zlength bs + zlength new - 1 + 1) by lia.
        by apply (round_up_half tr).
      + cbn beta. intros _ s' (p' & hd' & -> & Hst & [Hs' Etail]). exists p'. split; [done|]. split; [done|].
        rewrite app_nil_r in Hs'. left. exists hd'. rewrite Etail. by apply slots_drop_nulls.
    - apply app_nil in E as [-> ->]. destruct bound; apply wp_ret; exists p; (split; [done|]); (split; [done|]); right; by split_and!. }
  eapply wp_mono; [exact Hentries| |done]. cbn beta. intros _ s1 (p1 & -> & [Eb1 Ha1] & Hix1).
  ip_step. apply wp_i_mem.
  pose proof ex_blocks0 as [Hnd Hbl]. pose proof Hnd as Hnd'. apply NoDup_app in Hnd' as (_ & Hdisj & Hndnew).
  eapply wp_mono; [eapply (add_blocks_spec tr bound m fl' _ new); try done| |done].
  { intros x Hx. split; [apply ex_in_use0, elem_of_app; by right|].
    apply list_elem_of_lookup in Hx as [k Hk].
    destruct (Hbl (length bs + k)%nat x) as (blk & Hblk & Hrep).
    { by rewrite lookup_app_r, Nat.add_comm, Nat.add_sub by lia. }
    exists blk. split; [done|]. apply (raw_of_slots tr); [by destruct Hrep|]. intros o Ho.
    eapply (content_none_from tr implicit_context h c o (h + zlength c)); [done|done|right|done].
    unfold zlength in *. nia. }
  cbn beta. intros _ m2 (fl2 & Hpool2 & Hna2 & Hbl2 & Hav2 & Hback2 & Hgone2). ip_step. exists fl2.
  assert (set_tailBlock (tailBlock (ip_base (iprod s))) (ip_base p1) = ip_base (iprod s)) as Eb.
  { rewrite Eb1, ex_base0. by destruct (ip_base (iprod s)). }
  rewrite Eb. assert (forall b, b ∈ bs -> blocks m2 !! b = blocks m !! b) as Hkeep.
  { intros b Hb. apply Hbl2. by apply Hdisj. }
  split.
  - split; try done; cbn.
    + by eapply implicit_index_ext.
    + eapply (addresses_mono p1 m); [done|lia].
    + eapply blocks_repr_frame; [|done]. split; [by apply NoDup_app in Hnd as (? & _)|].
      intros k b Hk. apply Hbl. by apply lookup_app_l_Some.
    + intros b Hb [Hl|Hl]%Hav2; [|by apply (Hdisj b)]. apply (ex_in_use0 b); [|done].
      apply elem_of_app. by left.
  - eapply mem_frame_trans; [exact ex_frame0|]. apply mem_frame_intro; [cbn; lia| | |]; intros l; rewrite elem_of_app; cbn.
    + intros Hl _. apply Hbl2. tauto.
    + intros [Hl Ha] _. split; [tauto|]. intros [|]%Hav2; tauto.
    + intros [Hl Ha] Hsome. split; [|auto]. intros [|Hin]; [done|]. destruct (Hgone2 l Hin) as [|Hnone]; [done|].
      rewrite Hnone in Hsome. by destruct Hsome.
Qed.

(** ** The allocation loop *)

Definition tail_after s new : loc := default (tailBlock (ip_base (iprod s))) (last new).

(** Whether there is a block to link the next one to, and which. *)
Lemma run_last s fl h t f bs c new :
  inv s fl h t f bs c -> (nullptr ∉ new) ->
  last (start_blocks t bs ++ new) =
    if negb (t mod B =? 0) || negb (default nullptr (head new) =? nullptr)
    then Some (tail_after s new) else None.
Proof using TraitsOk0.
  intros [] Hnull. pose proof (block_size_gt_1 tr). unfold tail_after. rewrite last_app.
  destruct new as [|b new].
  - cbn. rewrite orb_false_r. unfold start_blocks. destruct (Z.eqb_spec (t mod B) 0) as [|Hne]; [done|]. cbn.
    destruct (last bs) as [b|] eqn:E; cbn; [by rewrite (ii_tail b)|]. exfalso. apply Hne.
    apply last_None in E as ->. change (zlength (@nil loc)) with 0 in *.
    assert (t = f * B) as ->; [|apply Z.mod_mul; lia]. destruct ii_counters. lia.
  - apply not_elem_of_cons in Hnull as [Hb _]. change (default nullptr (head (b :: new))) with b.
    rewrite (proj2 (Z.eqb_neq b nullptr)) by done.
    rewrite orb_true_r. destruct (last (b :: new)) as [x|] eqn:E; [done|]. by apply last_None in E.
Qed.

Lemma block_repr_next h c q x (blk : Block T) :
  block_repr tr implicit_context h c q blk -> block_repr tr implicit_context h c q (set_next x blk).
Proof using Type. apply block_repr_set_next. Qed.

(** Pointing a block of the producer at another one changes nothing else. *)
Lemma relink_spec m fl h c f all b blk x :
  blocks_repr tr m h c f all -> b ∈ all -> blocks m !! b = Some blk -> pool_inv tr m fl ->
  (forall y, y ∈ all -> ~ available m fl y) ->
  blocks_repr tr (put_block b (set_next x blk) m) h c f all /\ pool_inv tr (put_block b (set_next x blk) m) fl.
Proof using Type.
  intros Hr [k Hk]%list_elem_of_lookup Hb Hpool Hav. pose proof Hr as [_ Hbl].
  destruct (Hbl k b Hk) as (blk' & Hb' & Hrep). assert (blk' = blk) as -> by congruence. split.
  - eapply (blocks_repr_update tr m h c h c f all k b); [done|done|by apply block_repr_set_next|done].
  - eapply pool_inv_update_block; [done|exact Hb|done|]. apply Hav. by eapply list_elem_of_lookup_2.
Qed.

(** Linking the block [nb], which is in the index already. *)
Lemma link_spec s fl h t c f bs new p m fl' p2 m2 fl2 nb blk :
  inv s fl h t f bs c -> extended s fl h t c f bs new p m fl' (tail_after s new) ->
  ip_base p2 = ip_base p -> addresses p2 m2 -> implicit_index tr malloc_ok p2 f ((bs ++ new) ++ [nb]) ->
  taken tr (bs ++ new) m fl' nb m2 fl2 blk -> next blk = nullptr -> dequeued tr implicit_context ∅ blk ->
  (f + zlength bs + zlength new + 1) * B - h < 2 ^ (w - 1) ->
  let linked : M (IState T) unit :=
    let! tb := i_getb tailBlock in
    (if negb (t mod B =? 0) || negb (default nullptr (head new) =? nullptr)
     then cassert (negb (tb =? nullptr));; i_block tb (modify (set_next nb))
     else ret tt);;
    i_setb (set_tailBlock nb) in
  wp linked (fun _ s' => exists p' m', s' = mkIState p' m' /\ nb <> nullptr /\
      extended s fl h t c f bs (new ++ [nb]) p' m' fl2 (tail_after s (new ++ [nb]))) nothrow (mkIState p2 m2).
Proof using TraitsOk0.
  intros Hinv Hex Eb2 Ha2 Hix2 Htk Hnext Hd Hrange linked.
  pose proof (extended_not_null _ _ _ _ _ _ _ _ _ _ _ _ Hex) as Hnull.
  assert (nullptr ∉ new) as Hnew by (intros ?; apply Hnull, elem_of_app; by right).
  pose proof (run_last _ _ _ _ _ _ _ new Hinv Hnew) as Hlast.
  pose proof (extended_nodup _ _ _ _ _ _ _ _ _ _ _ _ Hex) as Hnd.
  pose proof Hex as []. pose proof Htk as [].
  assert (nb <> nullptr) as Hnb.
  { assert (0 < nb) by (apply (pi_addr _ _ _ tk_pool); eauto). unfold nullptr. lia. }
  assert (tail_after s (new ++ [nb]) = nb) as Etail by (unfold tail_after; by rewrite last_snoc).
  assert (zlength (new ++ [nb]) = zlength new + 1) as El by (rewrite zlength_app; unfold zlength; cbn; lia).
  set (run := start_blocks t bs ++ new) in *.
  assert (forall x, x ∈ run -> x ∈ bs ++ new) as Hrun.
  { intros x [Hx|Hx]%elem_of_app; apply elem_of_app; [left|by right]. by apply start_blocks_in in Hx as [_ ?]. }
  assert (blocks_repr tr m2 h c f ((bs ++ new) ++ [nb])) as Hr2.
  { eapply blocks_repr_taken; [done|done|done|]. destruct Hinv. rewrite zlength_app.
    pose proof (zlength_nonneg new). pose proof (block_size_gt_1 tr). nia. }
  assert (forall x, x ∈ (bs ++ new) ++ [nb] -> ~ available m2 fl2 x) as Hav2 by exact (taken_available tr _ _ _ _ _ _ _ Htk).
  (* what remains to be shown of the memory after linking *)
  assert (forall m', blocks_repr tr m' h c f ((bs ++ new) ++ [nb]) -> pool_inv tr m' fl2 ->
    next_address m' = next_address m2 -> (forall l, available m' fl2 l <-> available m2 fl2 l) ->
    (forall x, last run <> Some x -> blocks m' !! x = blocks m2 !! x) ->
    (forall x, last run = Some x -> exists bk, blocks m' !! x = Some bk /\ next bk = nb) ->
    mem_frame bs (imem s) fl (bs ++ new ++ [nb]) m' fl2 ->
    extended s fl h t c f bs (new ++ [nb]) (set_ip_base (set_tailBlock nb (ip_base p2)) p2) m' fl2
      (tail_after s (new ++ [nb]))) as Hdone.
  { intros m' Hr' Hpool' Hna' Hav' Hother Hlink Hframe. rewrite Etail, <- !app_assoc in *. split; try done.
    - cbn. rewrite Eb2, ex_base0. by destruct (ip_base (iprod s)).
    - by eapply implicit_index_ext.
    - eapply (addresses_mono p2 m2); [done|lia].
    - intros b Hb. rewrite Hav'. by apply Hav2.
    - rewrite app_assoc. eapply (path_snoc m); [done|done| |done].
      intros x Hx Hnl. rewrite Hother by done. f_equal. by apply tk_rest, Hrun.
    - intros x. rewrite last_snoc. intros [= <-]. exists blk. split; [|done]. rewrite Hother; [done|].
      intros E. apply tk_new, Hrun. rewrite last_lookup in E. by eapply list_elem_of_lookup_2.
    - rewrite El. lia. }
  assert (mem_frame bs (imem s) fl (bs ++ new ++ [nb]) m2 fl2) as Hframe2.
  { rewrite app_assoc. by eapply mem_frame_trans. }
  subst linked. ip_step. ip_step. rewrite Eb2, ex_base0. cbn [tailBlock set_tailBlock].
  destruct (negb (t mod B =? 0) || _).
  - assert (tail_after s new ∈ run) as Hin.
    { rewrite last_lookup in Hlast. by eapply list_elem_of_lookup_2. }
    destruct (blocks_repr_in tr m2 h c f _ _ Hr2 (proj2 (elem_of_app _ _ _) (or_introl (Hrun _ Hin)))) as [tblk Htblk].
    ip_step. ip_step. ip_step.
    { apply negb_true_iff, Z.eqb_neq. intros E. apply Hnull. rewrite <- E. by apply Hrun. }
    eapply wp_i_block; [done|]. ip_step. ip_step. eexists _, _. split; [done|]. split; [done|].
    fold (put_block (tail_after s new) (set_next nb tblk) m2).
    destruct (relink_spec m2 fl2 h c f ((bs ++ new) ++ [nb]) (tail_after s new) tblk nb) as [Hr3 Hpool3]; try done.
    { apply elem_of_app. left. by apply Hrun. }
    apply Hdone; try done.
    + intros x Hx. cbn. rewrite lookup_insert_ne; [done|]. intros <-. by apply Hx.
    + intros x Hx. rewrite Hlast in Hx. injection Hx as <-. exists (set_next nb tblk). split; [apply put_lookup|done].
    + eapply mem_frame_blocks; [done|]. intros l Hl. rewrite lookup_insert_ne; [done|]. intros <-. apply Hl.
      rewrite app_assoc. apply elem_of_app. left. by apply Hrun.
  - ip_step. ip_step. ip_step. eexists _, _. split; [done|]. split; [done|].
    apply Hdone; try done. intros x Hx. by rewrite Hlast in Hx.
Qed.

(** From the requisitioned block to the end of the round. *)
Lemma add_taken_spec {A} (rest : M (IState T) A) Q E s fl h t c f bs new p m fl' p1 m2 fl2 nb e blk :
  inv s fl h t f bs c -> extended s fl h t c f bs new p m fl' (tail_after s new) ->
  ip_base p1 = ip_base p -> reserved tr p1 f (bs ++ new) e -> addresses p1 m2 ->
  taken tr (bs ++ new) m fl' nb m2 fl2 blk ->
  (f + zlength bs + zlength new + 1) * B - h < 2 ^ (w - 1) ->
  (forall p' m', nb <> nullptr -> extended s fl h t c f bs (new ++ [nb]) p' m' fl2 (tail_after s (new ++ [nb])) ->
     wp rest Q E (mkIState p' m')) ->
  wp (i_block nb (reset_empty tr implicit_context);;
      i_block nb (modify (set_next nullptr));;
      store_value e nb;;
      let! tb := i_getb tailBlock in
      (if negb (t mod B =? 0) || negb (default nullptr (head new) =? nullptr)
       then cassert (negb (tb =? nullptr));; i_block tb (modify (set_next nb))
       else ret tt);;
      i_setb (set_tailBlock nb);;
      rest) Q E (mkIState p1 m2).
Proof using TraitsOk0.
  intros Hinv Hex Eb1 Hres Ha1 Htk Hrange Hrest. pose proof (tk_raw _ _ _ _ _ _ _ _ Htk) as [Hwf Hel].
  ip_step. eapply wp_i_block; [apply Htk|].
  eapply wp_mono; [by eapply (reset_empty_spec tr implicit_context)| |by intros ? []]. cbn beta.
  intros _ blk1 (Hd & Hwf1 & Hel1 & _ & Hdyn1). fold (put_block nb blk1 m2).
  ip_step. eapply wp_i_block; [apply put_lookup|]. ip_step. fold (put_block nb (set_next nullptr blk1) (put_block nb blk1 m2)).
  rewrite put_put. set (blk2 := set_next nullptr blk1). set (m3 := put_block nb blk2 m2).
  assert (taken tr (bs ++ new) m fl' nb m3 fl2 blk2) as Htk3.
  { eapply taken_update; [done| |done]. destruct Hwf1. split; [by split|]. cbn. congruence. }
  ip_step. eapply wp_mono; [eapply (commit_spec tr malloc_ok p1 m3); [done|by eapply (addresses_mono p1 m2)]| |by intros ? []].
  cbn beta. intros _ s1 (p2 & -> & [Eb2 Ha2] & Hix2).
  apply (wp_assoc _ (fun tb => if negb (t mod B =? 0) || negb (default nullptr (head new) =? nullptr)
     then cassert (negb (tb =? nullptr));; i_block tb (modify (set_next nb)) else ret tt)).
  eapply wp_mono; [eapply (link_spec s fl h t c f bs new p m fl' p2 m3 fl2 nb blk2); try done| |by intros ? []].
  - congruence.
  - destruct Hd. by split.
  - cbn beta. intros _ s2 (p' & m' & -> & Hnb & Hex'). by apply Hrest.
Qed.

(** Why the operation was refused: one of the [count] elements would not
    have had room. *)
Definition no_bulk_room h t count allocMode : Prop :=
  (exists u, t <= u < t + count /\ u mod B = 0 /\ ~ has_room tr h u) \/ no_memory malloc_ok allocMode.

Definition bulk_refused allocMode count s fl h t f bs c s' : Prop :=
  (exists fl', inv s' fl' h t f bs c /\ mem_frame bs (imem s) fl bs (imem s') fl') /\
  no_bulk_room h t count allocMode.

Lemma revert_refused bound allocMode count s fl h t c f bs new p m fl' :
  inv s fl h t f bs c -> extended s fl h t c f bs new p m fl' (tail_after s new) ->
  (length new <= bound)%nat -> no_bulk_room h t count allocMode ->
  wp (revert_blocks tr bound (default nullptr (head new)) (tailBlock (ip_base (iprod s))) (wrap w t);; ret None)
    (fun (r : option loc) s' => r = None /\ bulk_refused allocMode count s fl h t f bs c s') nothrow (mkIState p m).
Proof using TraitsOk0.
  intros Hinv Hex Hbound Hwhy. ip_step. eapply wp_mono; [by eapply revert_blocks_spec| |done]. cbn beta.
  intros _ s' Hs'. ip_step. done.
Qed.

(** What the loop returns: nothing, after undoing everything, or the first of
    the [k] blocks it has added. *)
Definition allocate_result allocMode count s fl h t c f bs (n : Z) (r : option loc) s' : Prop :=
  match r with
  | None => bulk_refused allocMode count s fl h t f bs c s'
  | Some first => exists new p m fl', s' = mkIState p m /\ first = default nullptr (head new) /\ zlength new = n /\
      extended s fl h t c f bs new p m fl' (tail_after s new)
  end.

Lemma i_allocate_blocks_spec fuel bound allocMode count s fl h t c f bs new p m fl' (k : nat) :
  inv s fl h t f bs c -> extended s fl h t c f bs new p m fl' (tail_after s new) ->
  (0 < k <= fuel)%nat -> (length new + k <= bound)%nat ->
  (zlength bs + zlength new + Z.of_nat k) * B < 2 ^ (sb - 1) ->
  (f + zlength bs + zlength new + Z.of_nat k - 1) * B < t + count ->
  wp (i_allocate_blocks tr malloc_ok indeterminate fuel bound allocMode (wrap w t) (tailBlock (ip_base (iprod s)))
        (Z.of_nat k * B) (wrap w ((f + zlength bs + zlength new - 1) * B)) (default nullptr (head new)))
    (allocate_result allocMode count s fl h t c f bs (zlength new + Z.of_nat k)) nothrow (mkIState p m).
Proof using TraitsOk0.
  intros Hinv. revert new p m fl' k. induction fuel as [|fuel IH]; intros new p m fl' k Hex Hk Hbound Hsmall Hcount; [lia|].
  pose proof (size_le_index tr) as Hsz. pose proof (block_size_gt_1 tr) as HB. pose proof (zlength_nonneg new).
  pose proof (zlength_nonneg bs). pose proof (pow_half (w := sb) ltac:(lia)).
  pose proof Hinv as []. pose proof ii_counters as [_ Ehead _ Hle].
  assert (zlength (bs ++ new) = zlength bs + zlength new) as El by apply zlength_app.
  set (T0 := (f + zlength bs + zlength new) * B) in *.
  assert (t <= T0 /\ h <= T0 /\ T0 - h < 2 ^ (w - 1) /\ T0 mod B = 0 /\ T0 < t + count) as (HtT & HhT & HdT & HmT & HcT).
  { subst T0. pose proof (ex_range _ _ _ _ _ _ _ _ _ _ _ _ Hex). split_and!; try nia. apply Z.mod_mul. lia. }
  pose proof Hex as []. cbn [i_allocate_blocks]. rewrite wrap_add_l.
  replace ((f + zlength bs + zlength new - 1) * B + B) with T0 by (subst T0; lia).
  ip_step. ip_step. ip_step. ip_step.
  { unfold lessi. rewrite ex_base0. cbn. rewrite Ehead, circular_less_than_wrap by lia. destruct (Z.ltb_spec T0 h); [lia|done]. }
  rewrite ex_base0. cbn [headIndex set_tailBlock]. rewrite Ehead.
  destruct (no_room tr (wrap w h) (wrap w T0)) eqn:Eroom.
  { ip_step. ip_step. eapply wp_mono; [eapply (revert_refused bound allocMode count); [done|done|lia|]| |done].
    - left. exists T0. split_and!; try done. intros Hroom%(no_room_spec tr); [congruence|lia|done].
    - cbn beta. by intros r s' [-> Hr]. }
  apply (no_room_spec tr) in Eroom; [|lia|done]. pose proof (extended_not_null _ _ _ _ _ _ _ _ _ _ _ _ Hex) as Hnull.
  ip_step. eapply wp_mono; [eapply (insert_spec tr malloc_ok allocMode p m f (bs ++ new) fl'); try done| |done].
  { rewrite El. nia. }
  { subst T0. by rewrite El, Z.add_assoc. }
  cbn beta. intros r s1 (p1 & m1 & -> & Hal & Eb1 & Ha1 & Hr). pose proof (allocated_blocks _ _ Hal) as Ebl1.
  assert (forall l, available m1 fl' l <-> available m fl' l) as Hav1 by (intros; by apply allocated_available).
  destruct r as [e|].
  2:{ destruct Hr as [Hix Hmem].
      eapply wp_mono; [eapply (revert_refused bound allocMode count s fl h t c f bs new p1 m1 fl'); [done| |lia|by right]| |done].
      - eapply extended_frame; try done; [by eapply allocated_pool|intros l; apply Hav1|by apply mem_frame_allocated].
      - cbn beta. by intros r s' [-> Hr']. }
  ip_step. apply wp_i_mem. eapply wp_mono;
    [eapply (take_block_spec tr malloc_ok indeterminate allocMode m1 fl' (bs ++ new)); [by eapply allocated_pool|]| |done].
  { eapply in_use_allocated; [done|]. intros b Hb. split; [by eapply blocks_repr_in|by apply ex_in_use0]. }
  cbn beta. intros nb m2 (fl2 & Hnb). destruct (Z.eqb_spec nb nullptr) as [->|Hnb0].
  { destruct Hnb as (Hpool2 & Ebl2 & Hna2 & Hav2 & Hf2 & Hmem).
    apply (wp_bind (rewind_block_index_tail tr)).
    eapply wp_mono; [eapply (rewind_spec tr malloc_ok); [done|by eapply (addresses_mono p1 m1)]| |done]. cbn beta.
    intros _ s3 (p3 & -> & [Eb3 Ha3] & _ & Hst). ip_step. eapply wp_mono; [exact Hst| |done]. cbn beta.
    intros _ s4 (p4 & -> & [Eb4 Ha4] & Hix4).
    eapply wp_mono; [eapply (revert_refused bound allocMode count s fl h t c f bs new p4 m2 fl2); [done| |lia|by right]| |done].
    - eapply (extended_frame _ _ _ _ _ _ _ _ p m fl'); try done; [congruence|congruence|intros l Hl%Hav2; by apply Hav1|].
      eapply mem_frame_trans; [by apply mem_frame_allocated|done].
    - cbn beta. by intros r s' [-> Hr']. }
  destruct Hnb as (blk & Htk). pose proof (tk_address _ _ _ _ _ _ _ _ Htk) as Hna2. apply (taken_allocated tr _ _ _ _ _ _ _ _ Hal) in Htk.
  assert (in_block tr (wrap w t) = t mod B) as -> by apply (in_block_wrap tr).
  assert (zlength (new ++ [nb]) = zlength new + 1) as El' by (rewrite zlength_app; unfold zlength; cbn; lia).
  assert (nullptr ∉ new) as Hnew by (intros ?; apply Hnull, elem_of_app; by right).
  assert ((if default nullptr (head new) =? nullptr then nb else default nullptr (head new))
    = default nullptr (head (new ++ [nb]))) as ->.
  { destruct new as [|b new]; [done|]. apply not_elem_of_cons in Hnew as [Hb _].
    change (default nullptr (head (b :: new))) with b. by rewrite (proj2 (Z.eqb_neq b nullptr)) by done. }
  eapply add_taken_spec; [exact Hinv|exact Hex|done|exact Hr| |exact Htk| |].
  { by eapply (addresses_mono p1 m1). }
  { destruct Eroom as [Hroom _]. subst T0. lia. }
  intros p2 m3 Hnb Hex2. assert (Z.of_nat k * B - B = Z.of_nat (k - 1) * B) as -> by nia.
  rewrite wrap_small by nia. destruct (Z.ltb_spec 0 (Z.of_nat (k - 1) * B)).
  - replace (zlength new + Z.of_nat k) with (zlength (new ++ [nb]) + Z.of_nat (k - 1)) by lia.
    replace T0 with ((f + zlength bs + zlength (new ++ [nb]) - 1) * B) by (subst T0; rewrite El'; lia).
    eapply IH; try done; rewrite ?El', ?length_app; cbn [length]; try lia.
  - assert (k = 1%nat) as -> by nia. ip_step. exists (new ++ [nb]), p2, m3, fl2. split_and!; done || lia.
Qed.
End extend.
