(* ===== verification/ImplicitFill.v ===== *)
(** The loops of [ImplicitProducer]'s [enqueue_bulk] that construct the
    elements block by block and, when a constructor throws, destroy again what
    they have constructed. *)

From S2P Require Import Prelude MachineInt Traits FreeList Block BlockPool ProducerBase ProducerBaseProofs ExplicitProducer Contents ImplicitProducer ImplicitSpec ImplicitIndex ImplicitProofs ImplicitBulk ImplicitRevert ImplicitEnqueueBulk.

Section fill.
Context {U T R : Type} (tr : Traits) `{!TraitsOk tr} (ops : ElementOps U T R) (malloc_ok : nat -> bool).
#[local] Abbreviation w := (index_bits tr).
#[local] Abbreviation B := (BLOCK_SIZE tr).
Implicit Types (h t f q i : Z) (bs all run : list loc) (c vs : list T) (m : Mem T) (s : IState T).
Implicit Types (p : ImplicitProducer) (items : list U) (phi : Z -> option T).

(** Only elements of the blocks [all] have changed. *)
Definition stored m fl all m' : Prop :=
  pool_inv tr m' fl /\ next_address m' = next_address m /\
  (forall l, available m' fl l <-> available m fl l) /\
  (forall l, (l ∉ all) -> blocks m' !! l = blocks m !! l) /\
  (forall l, next <$> (blocks m' !! l) = next <$> (blocks m !! l)).

Lemma stored_refl m fl all : pool_inv tr m fl -> stored m fl all m.
Proof using Type. by intros. Qed.

Lemma stored_trans m fl all m1 m2 : stored m fl all m1 -> stored m1 fl all m2 -> stored m fl all m2.
Proof using Type.
  intros (H1 & H2 & H3 & H4 & H5) (H1' & H2' & H3' & H4' & H5'). split; [done|]. split; [congruence|].
  split; [intros l; by rewrite H3'|]. split; intros l; [intros Hl; by rewrite H4', H4|congruence].
Qed.

Lemma stored_put m fl all b blk e :
  pool_inv tr m fl -> b ∈ all -> blocks m !! b = Some blk -> ~ available m fl b ->
  stored m fl all (put_block b (set_elements e blk) m).
Proof using Type.
  intros Hpool Hb Hblk Hav. split; [by eapply pool_inv_update_block|]. split; [done|]. split; [done|].
  split; intros l; cbn.
  - intros Hl. rewrite lookup_insert_ne; [done|]. by intros <-.
  - destruct (decide (l = b)) as [->|]; [by rewrite lookup_insert_eq, Hblk|by rewrite lookup_insert_ne].
Qed.

Lemma path_stored m fl all m' l : path m l -> stored m fl all m' -> path m' l.
Proof using Type. intros Hp (_ & _ & _ & _ & Hn). eapply path_frame; [done|]. intros x _. apply Hn. Qed.

(** ** The elements as a function of their index *)

Definition blocks_fun m h phi f all : Prop :=
  NoDup all /\
  forall k b, all !! k = Some b -> exists blk, blocks m !! b = Some blk /\ block_wf tr blk /\
    dequeued tr implicit_context (offsets 0 (Z.min B (h - (f + Z.of_nat k) * B))) blk /\
    forall o, 0 <= o < B -> zlookup (elements blk) o = Some (phi ((f + Z.of_nat k) * B + o)).

Lemma blocks_repr_fun m h c f all : blocks_repr tr m h c f all <-> blocks_fun m h (content h c) f all.
Proof using Type.
  split; intros [Hnd Hbl]; (split; [done|]); intros k b Hk.
  - destruct (Hbl k b Hk) as (blk & Hb & []). by exists blk.
  - destruct (Hbl k b Hk) as (blk & Hb & ? & ? & ?). exists blk. by split.
Qed.

Lemma blocks_fun_ext m h phi phi' f all :
  blocks_fun m h phi f all -> (forall x, phi x = phi' x) -> blocks_fun m h phi' f all.
Proof using Type.
  intros [Hnd Hbl] E. split; [done|]. intros k b Hk. destruct (Hbl k b Hk) as (blk & Hb & ? & ? & He).
  exists blk. split_and!; try done. intros o Ho. by rewrite He, E.
Qed.

(** Changing the element with index [x]. *)
Definition updated x (v : option T) phi : Z -> option T := fun y => if decide (y = x) then v else phi y.

Lemma blocks_fun_store m fl h phi f all k b x v blk :
  blocks_fun m h phi f all -> pool_inv tr m fl -> (forall y, y ∈ all -> ~ available m fl y) ->
  all !! k = Some b -> blocks m !! b = Some blk -> (f + Z.of_nat k) * B <= x < (f + Z.of_nat k + 1) * B ->
  let m' := put_block b (set_elements (zinsert (offset tr (wrap w x)) v (elements blk)) blk) m in
  stored m fl all m' /\ blocks_fun m' h (updated x v phi) f all.
Proof using TraitsOk0.
  intros [Hnd Hbl] Hpool Hav Hk Hb Hx m'. pose proof (list_elem_of_lookup_2 _ _ _ Hk) as Hin.
  split; [apply stored_put; auto|]. split; [done|]. intros j y Hj.
  destruct (Hbl j y Hj) as (bk & Hbk & Hwf & Hd & He). unfold m', put_block. cbn.
  destruct (decide (j = k)) as [->|Hne].
  - assert (y = b) as -> by congruence. assert (bk = blk) as -> by congruence. rewrite lookup_insert_eq.
    eexists. split; [done|]. rewrite (offset_in_block tr (f + Z.of_nat k)) by lia.
    split; [destruct Hwf; split; cbn; [by rewrite zlength_zinsert|done]|]. split; [by destruct Hd|].
    intros o Ho. cbn. unfold updated. destruct (decide (x - (f + Z.of_nat k) * B = o)) as [<-|Hno].
    + rewrite zlookup_zinsert_eq by (rewrite (wf_elements _ _ Hwf); lia). by rewrite decide_True by lia.
    + rewrite zlookup_zinsert_ne, He by lia. by rewrite decide_False by lia.
  - exists bk. rewrite lookup_insert_ne; [|intros <-; apply Hne; by eapply NoDup_lookup].
    split_and!; try done. intros o Ho. rewrite He by done. unfold updated. rewrite decide_False; [done|].
    intros E. apply Hne. nia.
Qed.

Lemma blocks_fun_slot m h phi f all k b x :
  blocks_fun m h phi f all -> all !! k = Some b -> (f + Z.of_nat k) * B <= x < (f + Z.of_nat k + 1) * B ->
  exists blk, blocks m !! b = Some blk /\ zlookup (elements blk) (offset tr (wrap w x)) = Some (phi x).
Proof using TraitsOk0.
  intros [_ Hbl] Hk Hx. destruct (Hbl k b Hk) as (blk & Hb & _ & _ & He). exists blk. split; [done|].
  rewrite (offset_in_block tr (f + Z.of_nat k)), He by lia. do 2 f_equal. lia.
Qed.

Lemma construct_at p m fl h phi f all k b x v :
  blocks_fun m h phi f all -> pool_inv tr m fl -> (forall y, y ∈ all -> ~ available m fl y) ->
  all !! k = Some b -> (f + Z.of_nat k) * B <= x < (f + Z.of_nat k + 1) * B -> phi x = None ->
  wp (i_block b (construct tr (wrap w x) v)) (fun _ s' => exists m', s' = mkIState p m' /\
    stored m fl all m' /\ blocks_fun m' h (updated x (Some v) phi) f all) nothrow (mkIState p m).
Proof using TraitsOk0.
  intros Hf Hpool Hav Hk Hx Hnone. destruct (blocks_fun_slot _ _ _ _ _ _ _ _ Hf Hk Hx) as (blk & Hb & Hslot).
  eapply wp_i_block; [done|]. unfold construct. rewrite Hnone in Hslot. ip_steps; [done|]. ip_steps.
  eexists. split; [done|]. by eapply (blocks_fun_store m fl h phi f all k b x (Some v) blk).
Qed.

Lemma destroy_at p m fl h phi f all k b x v :
  blocks_fun m h phi f all -> pool_inv tr m fl -> (forall y, y ∈ all -> ~ available m fl y) ->
  all !! k = Some b -> (f + Z.of_nat k) * B <= x < (f + Z.of_nat k + 1) * B -> phi x = Some v ->
  wp (i_block b (destroy_element tr (wrap w x))) (fun _ s' => exists m', s' = mkIState p m' /\
    stored m fl all m' /\ blocks_fun m' h (updated x None phi) f all) nothrow (mkIState p m).
Proof using TraitsOk0.
  intros Hf Hpool Hav Hk Hx Hsome. destruct (blocks_fun_slot _ _ _ _ _ _ _ _ Hf Hk Hx) as (blk & Hb & Hslot).
  eapply wp_i_block; [done|]. unfold destroy_element, read. rewrite Hsome in Hslot. ip_steps; [done..|]. ip_steps.
  eexists. split; [done|]. by eapply (blocks_fun_store m fl h phi f all k b x None blk).
Qed.

(** ** Constructing *)

Lemma in_use_stored m fl all m' :
  stored m fl all m' -> (forall y, y ∈ all -> ~ available m fl y) -> forall y, y ∈ all -> ~ available m' fl y.
Proof using Type. intros (_ & _ & Hav & _) Hu y Hy. rewrite Hav. by apply Hu. Qed.

Lemma construct_next p m fl h c f all k b v :
  blocks_repr tr m h c f all -> pool_inv tr m fl -> (forall y, y ∈ all -> ~ available m fl y) ->
  all !! k = Some b -> (f + Z.of_nat k) * B <= h + zlength c < (f + Z.of_nat k + 1) * B ->
  wp (i_block b (construct tr (wrap w (h + zlength c)) v)) (fun _ s' => exists m', s' = mkIState p m' /\
    stored m fl all m' /\ blocks_repr tr m' h (c ++ [v]) f all) nothrow (mkIState p m).
Proof using TraitsOk0.
  intros Hr Hpool Hav Hk Hx. eapply wp_mono;
    [eapply (construct_at p m fl h (content h c) f all k b (h + zlength c) v); try done; [by apply blocks_repr_fun|by apply content_past]| |done].
  cbn beta. intros _ s' (m' & -> & Hst & Hf). exists m'. split; [done|]. split; [done|]. apply blocks_repr_fun.
  eapply blocks_fun_ext; [done|]. intros x. by rewrite content_snoc.
Qed.

#[local] Abbreviation made := (made ops).

(** The next item does not construct. *)
Definition fails_next items (n : nat) : Prop := exists u, items !! n = Some u /\ make ops u = None.

Context (Hnoexcept : noexcept_ctor ops = true -> forall u, make ops u <> None).

Lemma i_construct_until_spec fuel p m fl h c f all k b stop items :
  let i := h + zlength c in
  blocks_repr tr m h c f all -> pool_inv tr m fl -> (forall y, y ∈ all -> ~ available m fl y) ->
  all !! k = Some b -> (f + Z.of_nat k) * B <= i -> i <= stop <= (f + Z.of_nat k + 1) * B ->
  stop - i <= zlength items -> stop - i <= Z.of_nat fuel ->
  wp (i_construct_until tr ops fuel b (wrap w i) (wrap w stop) items) (fun r s' => exists vs m',
      s' = mkIState p m' /\ stored m fl all m' /\ blocks_repr tr m' h (c ++ vs) f all /\ made items vs /\
      r.1.1 = wrap w (i + zlength vs) /\ r.1.2 = drop (length vs) items /\
      if r.2 then i + zlength vs < stop /\ fails_next items (length vs) else i + zlength vs = stop) nothrow
    (mkIState p m).
Proof using TraitsOk0 Hnoexcept.
  revert m c items. induction fuel as [|fuel IH]; intros m c items i Hr Hpool Hav Hk Hlo Hstop Hitems Hf;
    cbn [i_construct_until]; rewrite (index_eqb tr) by lia; destruct (Z.eqb_spec i stop) as [E|Hne]; try lia.
  1,2: ip_step; exists [], m; rewrite app_nil_r; change (zlength (@nil T)) with 0; rewrite Z.add_0_r;
    split_and!; try done; apply made_nil.
  destruct items as [|u items]; [change (zlength (@nil U)) with 0 in Hitems; lia|].
  assert (zlength (u :: items) = zlength items + 1) as El by (unfold zlength; cbn [length]; lia).
  destruct (make ops u) as [v|] eqn:Hmake.
  - ip_step. eapply wp_mono; [eapply (construct_next p m fl h c f all k b v); try done; lia| |done].
    cbn beta. intros _ s1 (m1 & -> & Hst1 & Hr1). rewrite wrap_add_l.
    assert (h + zlength (c ++ [v]) = i + 1) as Ei by (rewrite zlength_app; unfold zlength, i; cbn; unfold zlength; lia).
    rewrite <- Ei. pose proof (in_use_stored _ _ _ _ Hst1 Hav) as Hav1. pose proof Hst1 as (Hpool1 & _).
    eapply wp_mono; [eapply (IH m1 (c ++ [v]) items); try done; rewrite ?Ei; lia| |done]. cbn beta.
    intros [[x rest] thrown] s2 (vs & m2 & -> & Hst2 & Hr2 & Hmade & Ex & Erest & Hcase). cbn [fst snd] in *.
    exists (v :: vs), m2. assert (zlength (v :: vs) = zlength vs + 1) as Ev by (unfold zlength; cbn [length]; lia).
    rewrite Ei in *. rewrite <- app_assoc in Hr2. cbn [length drop]. split_and!; try done.
    + by eapply stored_trans.
    + by apply made_cons.
    + rewrite Ex. f_equal. lia.
    + rewrite Ev. replace (i + (zlength vs + 1)) with (i + 1 + zlength vs) by lia. destruct thrown; [|done].
      by destruct Hcase.
  - destruct (noexcept_ctor ops); [by destruct (Hnoexcept eq_refl u)|]. ip_step. exists [], m. cbn [fst snd].
    rewrite app_nil_r. change (zlength (@nil T)) with 0. rewrite Z.add_0_r. split_and!; try done; [apply made_nil|lia|].
    by exists u.
Qed.

(** ** Block after block *)

(** [run] lists the blocks from number [q0] on, at the end of [all]. *)
Definition run_of f all q0 run : Prop :=
  exists k0, f + Z.of_nat k0 = q0 /\ forall j b, run !! j = Some b -> all !! (k0 + j)%nat = Some b.

Lemma run_lookup f all q0 run j b :
  run_of f all q0 run -> run !! j = Some b ->
  exists k, all !! k = Some b /\ f + Z.of_nat k = q0 + Z.of_nat j.
Proof using Type. intros (k0 & E & Hr) Hj. exists (k0 + j)%nat. split; [by apply Hr|lia]. Qed.

Definition with_tailBlock b p : ImplicitProducer := set_ip_base (set_tailBlock b (ip_base p)) p.

Lemma with_tailBlock_twice b b' p : with_tailBlock b (with_tailBlock b' p) = with_tailBlock b p.
Proof using Type. by destruct p. Qed.

Lemma i_fill_blocks_spec fuel p m fl h c f all q0 run j b endBlock newTail items :
  let i := h + zlength c in
  blocks_repr tr m h c f all -> pool_inv tr m fl -> (forall y, y ∈ all -> ~ available m fl y) ->
  run_of f all q0 run -> NoDup run -> path m run -> last run = Some endBlock ->
  run !! j = Some b -> tailBlock (ip_base p) = b ->
  (q0 + Z.of_nat j) * B <= i < (q0 + Z.of_nat j + 1) * B -> i < newTail -> newTail - i < 2 ^ (w - 1) ->
  (q0 + zlength run - 1) * B < newTail <= (q0 + zlength run) * B -> newTail - i <= zlength items ->
  (length run <= j + fuel)%nat ->
  wp (i_fill_blocks tr ops fuel endBlock (wrap w newTail) (wrap w i) items) (fun r s' => exists vs m' b' j',
      s' = mkIState (with_tailBlock b' p) m' /\ stored m fl all m' /\ blocks_repr tr m' h (c ++ vs) f all /\
      made items vs /\ run !! j' = Some b' /\ (j <= j')%nat /\
      match r with
      | None => i + zlength vs = newTail /\ b' = endBlock
      | Some x => x = wrap w (i + zlength vs) /\ i + zlength vs < newTail /\ fails_next items (length vs) /\
          (q0 + Z.of_nat j') * B <= i + zlength vs < (q0 + Z.of_nat j' + 1) * B
      end) nothrow (mkIState p m).
Proof using TraitsOk0 Hnoexcept.
  revert p m c j b items. induction fuel as [|fuel IH];
    intros p m c j b items i Hr Hpool Hav Hrun Hnd Hpath Hlast Hj Htb Hi Hnew Hd Hend Hitems Hf.
  { apply lookup_lt_Some in Hj. lia. }
  pose proof (block_size_gt_1 tr). destruct (run_lookup _ _ _ _ _ _ Hrun Hj) as (k & Hk & Eq). rewrite <- Eq in *.
  pose proof (lookup_lt_Some _ _ _ Hj) as Hjlt. pose proof Hlast as Hlk. rewrite last_lookup in Hlk.
  cbn [i_fill_blocks]. ip_step. ip_step. rewrite Htb, (min_stop tr newTail (f + Z.of_nat k) i) by lia.
  set (stop := Z.min newTail ((f + Z.of_nat k + 1) * B)).
  assert (i < stop /\ stop <= newTail /\ stop <= (f + Z.of_nat k + 1) * B /\
    (stop = newTail \/ stop = (f + Z.of_nat k + 1) * B)) as Hstop by (unfold stop; lia).
  ip_step. eapply wp_mono; [eapply (i_construct_until_spec _ p m fl h c f all k b stop items); try done; lia| |done].
  cbn beta. intros [[x rest] thrown] s1 (vs & m1 & -> & Hst1 & Hr1 & Hmade & Ex & Erest & Hcase). cbn [fst snd] in *.
  fold i in Ex, Hcase. subst x rest. pose proof (zlength_nonneg vs).
  assert (with_tailBlock b p = p) as Ep by (subst b; by destruct p as [[] ? ? ? ?]).
  destruct thrown.
  { destruct Hcase as [Hlt Hfail]. ip_step. exists vs, m1, b, j. rewrite Ep. split_and!; try done; lia. }
  destruct (Z.eqb_spec b endBlock) as [->|Hne].
  - pose proof (NoDup_lookup _ _ _ _ Hnd Hj Hlk) as Ej.
    assert (q0 + zlength run = f + Z.of_nat k + 1) as Elast by (unfold zlength; lia). rewrite Elast in Hend.
    assert (stop = newTail) as Es by (unfold stop; lia). rewrite Es in Hcase.
    ip_steps; [rewrite Hcase; apply Z.eqb_refl|]. exists vs, m1, endBlock, j. rewrite Ep. by split_and!.
  - assert (S j < length run)%nat as Hjlt'.
    { destruct (decide (S j < length run)%nat); [done|]. exfalso. apply Hne.
      assert (pred (length run) = j) as E by lia. rewrite E in Hlk. congruence. }
    assert (f + Z.of_nat k + 1 <= q0 + zlength run - 1) as Elast by (unfold zlength; lia).
    pose proof (Z.mul_le_mono_nonneg_r _ _ B ltac:(lia) Elast) as Hmul.
    assert (stop = (f + Z.of_nat k + 1) * B /\ stop < newTail) as [Es Hsn] by (unfold stop; lia).
    destruct (lookup_lt_is_Some_2 run (S j) Hjlt') as [b' Hb'].
    pose proof (path_stored _ _ _ _ _ Hpath Hst1) as Hpath1.
    destruct (Hpath1 j b b' Hj Hb') as (blk & Hblk & Enext).
    ip_step. eapply wp_i_block; [done|]. ip_step. fold (put_block b blk m1). rewrite put_id by done.
    ip_step. ip_step. rewrite Enext. fold (with_tailBlock b' p).
    assert (h + zlength (c ++ vs) = stop) as Ec by (rewrite zlength_app; unfold i in *; lia).
    rewrite Hcase. rewrite <- Ec. pose proof Hst1 as (Hpool1 & _).
    assert (zlength (drop (length vs) items) = zlength items - zlength vs) as Eld.
    { unfold zlength in *. rewrite length_drop. lia. }
    eapply wp_mono; [eapply (IH (with_tailBlock b' p) m1 (c ++ vs) (S j) b'); [done|done|by eapply in_use_stored|done..| | | | | |]; rewrite ?Ec, ?Eld; try lia| |done].
    cbn beta. intros r s2 (vs2 & m2 & b2 & j2 & -> & Hst2 & Hr2 & Hmade2 & Hj2 & Hle & Hres).
    exists (vs ++ vs2), m2, b2, j2. rewrite with_tailBlock_twice, zlength_app, length_app, app_assoc.
    rewrite Ec in Hres. replace (i + (zlength vs + zlength vs2)) with (stop + zlength vs2) by lia.
    split_and!; try done; [by eapply stored_trans|by apply made_app|lia|].
    destruct r; [|done]. destruct Hres as (? & ? & (u & Hu & Hm) & ?). split_and!; try done || lia.
    exists u. by rewrite lookup_drop in Hu.
Qed.

(** ** Destroying again *)

(** Without the elements from [i] to [j]. *)
Definition cleared_range i j phi : Z -> option T := fun x => if decide (i <= x < j) then None else phi x.

Lemma cleared_range_step i j phi x :
  i < j -> cleared_range (i + 1) j (updated i None phi) x = cleared_range i j phi x.
Proof using Type. intros Hij. unfold cleared_range, updated. repeat case_decide; done || lia. Qed.

Lemma cleared_range_app i j l phi x :
  i <= j <= l -> cleared_range j l (cleared_range i j phi) x = cleared_range i l phi x.
Proof using Type. intros Hij. unfold cleared_range. repeat case_decide; done || lia. Qed.

Lemma i_destroy_range_spec fuel p m fl h phi f all k b i stop :
  blocks_fun m h phi f all -> pool_inv tr m fl -> (forall y, y ∈ all -> ~ available m fl y) ->
  all !! k = Some b -> (f + Z.of_nat k) * B <= i -> i <= stop <= (f + Z.of_nat k + 1) * B ->
  (forall x, i <= x < stop -> is_Some (phi x)) -> stop - i <= Z.of_nat fuel ->
  wp (i_destroy_until tr fuel b (wrap w i) (wrap w stop)) (fun _ s' => exists m', s' = mkIState p m' /\
    stored m fl all m' /\ blocks_fun m' h (cleared_range i stop phi) f all) nothrow (mkIState p m).
Proof using TraitsOk0.
  revert m phi i. induction fuel as [|fuel IH]; intros m phi i Hr Hpool Hav Hk Hlo Hstop Hel Hf;
    cbn [i_destroy_until]; rewrite (index_eqb tr) by lia; destruct (Z.eqb_spec i stop) as [E|Hne]; try lia.
  1,2: ip_step; exists m; split_and!; try done; eapply blocks_fun_ext; [done|]; intros x; unfold cleared_range;
    rewrite decide_False by lia; done.
  destruct (Hel i ltac:(lia)) as [v Hv]. ip_step.
  eapply wp_mono; [eapply (destroy_at p m fl h phi f all k b i v); try done; lia| |done].
  cbn beta. intros _ s1 (m1 & -> & Hst1 & Hr1). rewrite wrap_add_l. pose proof Hst1 as (Hpool1 & _).
  eapply wp_mono; [eapply (IH m1 (updated i None phi) (i + 1)); try done; try lia| |done].
  - by eapply in_use_stored.
  - intros x Hx. unfold updated. rewrite decide_False by lia. apply Hel. lia.
  - cbn beta. intros _ s2 (m2 & -> & Hst2 & Hr2). exists m2. split; [done|]. split; [by eapply stored_trans|].
    eapply blocks_fun_ext; [done|]. intros x. apply cleared_range_step. lia.
Qed.

Lemma i_destroy_blocks_spec fuel p m fl h phi f all q0 run j b j' lastBlock i stopAt :
  blocks_fun m h phi f all -> pool_inv tr m fl -> (forall y, y ∈ all -> ~ available m fl y) ->
  run_of f all q0 run -> NoDup run -> path m run ->
  run !! j = Some b -> run !! j' = Some lastBlock -> (j <= j')%nat ->
  (q0 + Z.of_nat j) * B <= i < (q0 + Z.of_nat j + 1) * B -> i <= stopAt -> stopAt - i < 2 ^ (w - 1) ->
  (q0 + Z.of_nat j') * B <= stopAt < (q0 + Z.of_nat j' + 1) * B ->
  (forall x, i <= x < stopAt -> is_Some (phi x)) -> (j' < j + fuel)%nat ->
  wp (i_destroy_blocks tr fuel b lastBlock (wrap w i) (wrap w stopAt)) (fun _ s' => exists m', s' = mkIState p m' /\
    stored m fl all m' /\ blocks_fun m' h (cleared_range i stopAt phi) f all) nothrow (mkIState p m).
Proof using TraitsOk0.
  revert m phi j b i. induction fuel as [|fuel IH]; intros m phi j b i Hr Hpool Hav Hrun Hnd Hpath Hj Hj' Hle Hi Hs Hd Hend Hel Hf; [lia|].
  pose proof (block_size_gt_1 tr). destruct (run_lookup _ _ _ _ _ _ Hrun Hj) as (k & Hk & Eq). rewrite <- Eq in *.
  cbn [i_destroy_blocks]. rewrite (min_stop tr stopAt (f + Z.of_nat k) i) by lia.
  set (stop := Z.min stopAt ((f + Z.of_nat k + 1) * B)).
  assert (i <= stop /\ stop <= stopAt /\ stop <= (f + Z.of_nat k + 1) * B) as Hstop by (unfold stop; lia).
  ip_step. eapply wp_mono; [eapply (i_destroy_range_spec _ p m fl h phi f all k b i stop); try done; try lia| |done].
  { intros x Hx. apply Hel. lia. }
  cbn beta. intros _ s1 (m1 & -> & Hst1 & Hr1). pose proof Hst1 as (Hpool1 & _).
  destruct (Z.eqb_spec b lastBlock) as [->|Hne].
  - pose proof (NoDup_lookup _ _ _ _ Hnd Hj Hj') as <-. rewrite <- Eq in Hend.
    assert (stop = stopAt) as Es by (unfold stop; lia). rewrite Es in Hr1. ip_step. by exists m1.
  - assert (j <> j') by (intros <-; congruence).
    assert (f + Z.of_nat k + 1 <= q0 + Z.of_nat j') as Elast by lia.
    pose proof (Z.mul_le_mono_nonneg_r _ _ B ltac:(lia) Elast) as Hmul.
    assert (stop = (f + Z.of_nat k + 1) * B) as Es by (unfold stop; lia).
    pose proof (lookup_lt_Some _ _ _ Hj').
    destruct (lookup_lt_is_Some_2 run (S j)) as [b' Hb']; [lia|].
    pose proof (path_stored _ _ _ _ _ Hpath Hst1) as Hpath1.
    destruct (Hpath1 j b b' Hj Hb') as (blk & Hblk & Enext).
    ip_step. eapply wp_i_block; [done|]. ip_step. fold (put_block b blk m1). rewrite put_id, Enext by done.
    eapply wp_mono; [eapply (IH m1 (cleared_range i stop phi) (S j) b' stop); [done|done|by eapply in_use_stored|done..| | | | | | |]; try lia| |done].
    + intros x Hx. unfold cleared_range. rewrite decide_False by lia. apply Hel. lia.
    + cbn beta. intros _ s2 (m2 & -> & Hst2 & Hr2). exists m2. split; [done|]. split; [by eapply stored_trans|].
      eapply blocks_fun_ext; [done|]. intros x. apply cleared_range_app. lia.
Qed.
End fill.
