(* ===== verification/ImplicitAtomic.v ===== *)
(** [ImplicitProducer]'s [enqueue_bulk] as a whole: either all the elements are
    in the queue afterwards, or none of them is. *)

From S2P Require Import Prelude MachineInt Traits FreeList Block BlockPool ProducerBase ProducerBaseProofs ExplicitProducer Contents ImplicitProducer ImplicitSpec ImplicitIndex ImplicitProofs ImplicitBulk ImplicitRevert ImplicitEnqueueBulk ImplicitFill.

Section atomic.
Context {U T R : Type} (tr : Traits) `{!TraitsOk tr} (ops : ElementOps U T R).
Context (malloc_ok : nat -> bool) (indeterminate : Indeterminate).
#[local] Abbreviation w := (index_bits tr).
#[local] Abbreviation sb := (size_bits tr).
#[local] Abbreviation B := (BLOCK_SIZE tr).
Implicit Types (h t f : Z) (bs new : list loc) (c vs : list T) (m : Mem T) (s : IState T).
Implicit Types (p : ImplicitProducer) (items : list U).
#[local] Abbreviation inv := (implicit_inv tr malloc_ok).

(** The blocks that the new elements go to: *)
#[local] Abbreviation run t bs new := (start_blocks tr t bs ++ new).

(** Storing elements keeps the blocks and their links. *)
Lemma extended_stored s fl h t c c' f bs new p m fl' tb m' b :
  extended tr malloc_ok s fl h t c f bs new p m fl' tb -> stored tr m fl' (bs ++ new) m' ->
  blocks_repr tr m' h c' f (bs ++ new) ->
  extended tr malloc_ok s fl h t c' f bs new (with_tailBlock b p) m' fl' b.
Proof using Type.
  intros [] Hst Hr. pose proof Hst as (Hpool & Hna & Hav & Hbl & Hnext). split; try done.
  - unfold with_tailBlock. cbn. rewrite ex_base. by destruct (ip_base (iprod s)).
  - by eapply implicit_index_ext.
  - eapply (addresses_mono p m); [done|lia].
  - intros x Hx. rewrite Hav. auto.
  - by eapply path_stored.
  - intros x Hx. destruct (ex_end x Hx) as (blk & Hb & E). specialize (Hnext x). rewrite Hb in Hnext.
    destruct (blocks m' !! x) as [blk'|]; [|done]. cbn in Hnext. injection Hnext as Hn. exists blk'. split; [done|congruence].
  - eapply mem_frame_trans; [done|]. apply mem_frame_intro; [lia|auto|..]; intros l; by rewrite Hav.
Qed.

(** The number of the last block, and where the first element goes. *)
Lemma last_number s fl h t f bs c : inv s fl h t f bs c -> (t - 1) / B = f + zlength bs - 1.
Proof using TraitsOk0.
  intros []. pose proof (block_size_gt_1 tr). symmetry. apply Z.div_unique with (t - 1 - (f + zlength bs - 1) * B); lia.
Qed.

Lemma run_numbers s fl h t c f bs new :
  inv s fl h t f bs c ->
  run_of f (bs ++ new) (t / B) (run t bs new) /\
  t / B + zlength (run t bs new) = f + zlength bs + zlength new.
Proof using TraitsOk0.
  intros Hinv. pose proof Hinv as []. pose proof (block_size_gt_1 tr). unfold start_blocks.
  destruct (Z.eqb_spec (t mod B) 0) as [Hb|Hb].
  - assert (t / B = f + zlength bs) as -> by (rewrite (i_at_boundary tr malloc_ok s fl h t f bs c) by done; apply Z.div_mul; lia).
    split; [|done]. exists (length bs). split; [unfold zlength; lia|]. intros j b Hj. cbn in Hj.
    by rewrite lookup_app_r, Nat.add_comm, Nat.add_sub by lia.
  - assert (t <> (f + zlength bs) * B) as Hne by (intros ->; rewrite Z.mod_mul in Hb; lia).
    assert (t / B = f + zlength bs - 1) as ->.
    { symmetry. apply Z.div_unique with (t - (f + zlength bs - 1) * B); lia. }
    destruct (last bs) as [b|] eqn:Hl.
    2:{ apply last_None in Hl as ->. change (zlength (@nil loc)) with 0 in *. destruct ii_counters. lia. }
    apply last_Some in Hl as [l ->]. cbn. rewrite !zlength_app. change (zlength [b]) with 1. split.
    + exists (length l). split; [unfold zlength; lia|]. intros [|j] x Hj; cbn in Hj.
      * injection Hj as <-. rewrite Nat.add_0_r, <- app_assoc. by rewrite lookup_app_r, Nat.sub_diag by lia.
      * rewrite <- app_assoc, lookup_app_r by lia. by replace (length l + S j - length l)%nat with (S j) by lia.
    + unfold zlength. cbn [length]. lia.
Qed.

(** Where the first element goes. *)
Lemma run_start s fl h t c f bs new p m fl' tb :
  inv s fl h t f bs c -> extended tr malloc_ok s fl h t c f bs new p m fl' tb -> (t mod B = 0 -> 0 < zlength new) ->
  exists b, run t bs new !! 0%nat = Some b /\
    b = (if t mod B =? 0 then default nullptr (head new) else tailBlock (ip_base (iprod s))) /\
    (t mod B = 0 -> default nullptr (head new) <> nullptr).
Proof using TraitsOk0.
  intros Hinv Hex Hpos. pose proof (extended_not_null tr malloc_ok _ _ _ _ _ _ _ _ _ _ _ _ Hex) as Hnull.
  pose proof Hinv as []. unfold start_blocks. destruct (Z.eqb_spec (t mod B) 0) as [Ht|Ht].
  - destruct new as [|x new]; [by specialize (Hpos Ht)|]. exists x. split; [done|]. split; [done|]. intros _ E. apply Hnull.
    cbn in E. subst x. apply elem_of_app. right. apply elem_of_cons. by left.
  - destruct (last bs) as [b|] eqn:Hl.
    + exists b. cbn. split; [done|]. split; [symmetry; by apply ii_tail|done].
    + apply last_None in Hl as ->. change (zlength (@nil loc)) with 0 in *. destruct ii_counters.
      assert (t = f * B) as -> by lia. pose proof (block_size_gt_1 tr). by rewrite Z.mod_mul in Ht by lia.
Qed.

(** The number of blocks to be allocated. *)
Lemma bulk_blocks s fl h t f bs c count :
  inv s fl h t f bs c -> 0 < count ->
  exists n, 0 <= n /\ n <= count / B + 1 /\ (t + count - 1) / B = f + zlength bs + n - 1.
Proof using TraitsOk0.
  intros Hinv Hc. pose proof (last_number _ _ _ _ _ _ _ Hinv) as El. pose proof (block_size_gt_1 tr).
  exists ((t + count - 1) / B - (f + zlength bs - 1)). rewrite <- El. split; [|split].
  - pose proof (Z.div_le_mono (t - 1) (t + count - 1) B). lia.
  - pose proof (Z.div_mod (t - 1) B ltac:(lia)). pose proof (Z.mod_pos_bound (t - 1) B ltac:(lia)).
    pose proof (Z.div_mod count B ltac:(lia)). pose proof (Z.mod_pos_bound count B ltac:(lia)).
    enough ((t + count - 1) / B < (t - 1) / B + count / B + 2) by lia. apply Z.div_lt_upper_bound; lia.
  - lia.
Qed.

(** ** The parts of the operation *)

#[local] Abbreviation fuel_for count := (S (S (Z.to_nat (count / B)))).

Lemma bulk_allocation_spec allocMode count s fl h t f bs c n :
  inv s fl h t f bs c -> 0 < count -> 0 <= n <= count / B + 1 -> (t + count - 1) / B = f + zlength bs + n - 1 ->
  (zlength bs + n) * B < 2 ^ (sb - 1) ->
  wp (if 0 <? n * B
      then i_allocate_blocks tr malloc_ok indeterminate (fuel_for count) (fuel_for count) allocMode (wrap w t)
             (tailBlock (ip_base (iprod s))) (n * B) (wrap w ((t - 1) / B * B)) nullptr
      else ret (Some nullptr))
    (allocate_result tr malloc_ok allocMode count s fl h t c f bs n) nothrow s.
Proof using TraitsOk0.
  intros Hinv Hc Hn Hlast Hsmall. pose proof (block_size_gt_1 tr). pose proof (extended_nil tr malloc_ok _ _ _ _ _ _ _ Hinv) as Hex.
  pose proof (Z.mul_div_le (t + count - 1) B ltac:(lia)) as Hle. rewrite Hlast in Hle.
  fold (tail_after s []) in Hex. destruct s as [p m].
  destruct (Z.ltb_spec 0 (n * B)).
  - rewrite (last_number _ _ _ _ _ _ _ Hinv). assert (n = 0 + Z.of_nat (Z.to_nat n)) as En by lia.
    rewrite En at 2. replace (n * B) with (Z.of_nat (Z.to_nat n) * B) by lia.
    replace (f + zlength bs - 1) with (f + zlength bs + zlength (@nil loc) - 1) by (unfold zlength; cbn; lia).
    eapply (i_allocate_blocks_spec tr malloc_ok indeterminate _ _ allocMode count (mkIState p m) fl h t c f bs []);
      try done; change (zlength (@nil loc)) with 0; cbn [length]; rewrite ?Z2Nat.id; nia.
  - assert (n = 0) as -> by nia. ip_step. exists [], p, m, fl. by split_and!.
Qed.

(** Success: the new tail is published. *)
Lemma bulk_commit s fl h t c vs f bs new p m fl' :
  inv s fl h t f bs c -> extended tr malloc_ok s fl h t (c ++ vs) f bs new p m fl' (tail_after s new) ->
  0 < zlength vs -> (t + zlength vs - 1) / B = f + zlength bs + zlength new - 1 ->
  inv (mkIState (set_ip_base (set_tailIndex (wrap w (t + zlength vs)) (ip_base p)) p) m) fl' h (t + zlength vs) f
    (bs ++ new) (c ++ vs).
Proof using TraitsOk0.
  intros Hinv [] Hvs Hlast. pose proof Hinv as []. pose proof (block_size_gt_1 tr).
  pose proof (Z.div_mod (t + zlength vs - 1) B ltac:(lia)) as Hdm. rewrite Hlast in Hdm.
  pose proof (Z.mod_pos_bound (t + zlength vs - 1) B ltac:(lia)).
  split; cbn [iprod imem ip_base set_ip_base]; rewrite ?zlength_app; try done; try lia.
  - rewrite ex_base. destruct ii_counters. split; cbn; try done. lia.
  - intros b Hb. rewrite ex_base. cbn. unfold tail_after. rewrite last_app in Hb.
    destruct (last new); [by injection Hb|]. cbn. by apply ii_tail.
  - by eapply implicit_index_ext.
  - by rewrite ex_base.
Qed.

(** Failure: the elements are destroyed again and the blocks given back. *)
Lemma bulk_undo fuel s fl h t c vs f bs new p m fl' b b' (j' : nat) :
  inv s fl h t f bs c -> extended tr malloc_ok s fl h t (c ++ vs) f bs new p m fl' b' ->
  run t bs new !! 0%nat = Some b -> run t bs new !! j' = Some b' ->
  (t / B + Z.of_nat j') * B <= t + zlength vs < (t / B + Z.of_nat j' + 1) * B -> zlength vs < 2 ^ (w - 1) ->
  (j' < fuel)%nat -> (length new <= fuel)%nat ->
  wp (i_destroy_blocks tr fuel b b' (wrap w t) (wrap w (t + zlength vs));;
      revert_blocks tr fuel (default nullptr (head new)) (tailBlock (ip_base (iprod s))) (wrap w t))
    (fun _ s' => exists fl'', inv s' fl'' h t f bs c /\ mem_frame bs (imem s) fl bs (imem s') fl'') nothrow
    (mkIState p m).
Proof using TraitsOk0.
  intros Hinv Hex Hb Hb' Hpos Hd Hj Hnew. pose proof (block_size_gt_1 tr). pose proof (zlength_nonneg vs). pose proof (zlength_nonneg c).
  destruct (run_numbers s fl h t c f bs new Hinv) as [Hrun _]. pose proof Hex as []. pose proof Hinv as [].
  pose proof (Z.div_mod t B ltac:(lia)). pose proof (Z.mod_pos_bound t B ltac:(lia)).
  apply blocks_repr_fun in ex_blocks. ip_step.
  eapply wp_mono; [eapply (i_destroy_blocks_spec tr fuel p m fl' h _ f (bs ++ new) (t / B) (run t bs new) 0 b j' b');
    try done; try lia; try (by eapply extended_nodup)| |done].
  { intros x Hx. unfold content. rewrite decide_True by lia. apply lookup_lt_is_Some_2.
    rewrite length_app. unfold zlength in *. lia. }
  cbn beta. intros _ s1 (m1 & -> & Hst & Hf).
  assert (blocks_repr tr m1 h c f (bs ++ new)) as Hr1.
  { apply blocks_repr_fun. eapply blocks_fun_ext; [done|]. intros x. unfold cleared_range.
    assert (zlength (c ++ vs) = zlength c + zlength vs) as El by apply zlength_app.
    case_decide; [by rewrite content_past by lia|]. destruct (decide (x < t)).
    - unfold content. case_decide; [|done]. apply lookup_app_l. unfold zlength in *. lia.
    - rewrite !content_past by lia. done. }
  assert (with_tailBlock b' p = p) as Ep.
  { unfold with_tailBlock. rewrite ex_base, <- (set_tailBlock_same (ip_base (iprod s))) at 1. destruct p. cbn in *. by subst. }
  pose proof (extended_stored _ _ _ _ _ _ _ _ _ _ _ _ _ _ b' Hex Hst Hr1) as Hex1. rewrite Ep in Hex1.
  by eapply revert_blocks_spec.
Qed.

(** ** The operation *)

Context (Hnoexcept : noexcept_ctor ops = true -> forall u, make ops u <> None).

(** Elements that need not be destroyed are constructed without exceptions.
    (The program simply overwrites such elements; here every slot of a released
    block is empty.) *)
Context (Htrivial : is_trivially_destructible ops = true -> forall u, make ops u <> None).

(** All elements are in the queue, or none. *)
Definition i_bulk_enqueued allocMode items count s fl h t f bs c (ok : bool) s' : Prop :=
  exists fl' bs', mem_frame bs (imem s) fl bs' (imem s') fl' /\ zlength bs' <= zlength bs + count / B + 1 /\
    if ok then exists vs, zlength vs = count /\ made ops items vs /\ inv s' fl' h (t + count) f bs' (c ++ vs)
    else inv s' fl' h t f bs' c /\ no_bulk_room tr malloc_ok h t count allocMode.

(** A constructor threw: nothing has changed. *)
Definition i_bulk_unchanged items count s fl h t f bs c s' : Prop :=
  (exists k, Z.of_nat k < count /\ fails_next ops items k) /\
  exists fl', inv s' fl' h t f bs c /\ mem_frame bs (imem s) fl bs (imem s') fl'.

(** Filling the allocated blocks. *)
Lemma bulk_fill_spec allocMode items count s fl h t f bs c new p m fl' b :
  inv s fl h t f bs c -> 0 < count <= zlength items -> count < 2 ^ (w - 1) ->
  extended tr malloc_ok s fl h t c f bs new p m fl' (tail_after s new) ->
  (t + count - 1) / B = f + zlength bs + zlength new - 1 -> zlength new <= count / B + 1 ->
  run t bs new !! 0%nat = Some b ->
  wp (let! thrown := i_fill_blocks tr ops (fuel_for count) (tail_after s new) (wrap w (t + count)) (wrap w t) items in
      match thrown with
      | Some constructedStopIndex =>
          let! lastBlockEnqueued := i_getb tailBlock in
          (if negb (is_trivially_destructible ops) then
             i_destroy_blocks tr (fuel_for count) b lastBlockEnqueued (wrap w t) constructedStopIndex
           else ret tt);;
          revert_blocks tr (fuel_for count) (default nullptr (head new)) (tailBlock (ip_base (iprod s))) (wrap w t);;
          throw
      | None => i_setb (set_tailIndex (wrap w (t + count)));; ret true
      end)
    (i_bulk_enqueued allocMode items count s fl h t f bs c) (i_bulk_unchanged items count s fl h t f bs c)
    (mkIState (with_tailBlock b p) m).
Proof using TraitsOk0 Hnoexcept Htrivial.
  intros Hinv Hc Hcw Hex Hlast Hn Hb. pose proof (block_size_gt_1 tr). destruct (run_numbers s fl h t c f bs new Hinv) as [Hrun Enum].
  pose proof (extended_nodup tr malloc_ok _ _ _ _ _ _ _ _ _ _ _ _ Hex) as Hnd.
  pose proof (extended_not_null tr malloc_ok _ _ _ _ _ _ _ _ _ _ _ _ Hex) as Hnull.
  assert (nullptr ∉ new) as Hnew by (intros ?; apply Hnull, elem_of_app; by right).
  assert (last (run t bs new) = Some (tail_after s new)) as Hend.
  { rewrite (run_last tr malloc_ok s fl h t f bs c) by done. destruct (_ || _) eqn:E; [done|].
    apply orb_false_iff in E as [E1%negb_false_iff E2%negb_false_iff]. unfold start_blocks in Hb. rewrite E1 in Hb.
    destruct new as [|x new]; [done|]. apply Z.eqb_eq in E2. destruct Hnew. rewrite <- E2. apply elem_of_cons. by left. }
  pose proof Hex as []. pose proof Hinv as [].
  pose proof (Z.div_mod t B ltac:(lia)). pose proof (Z.mod_pos_bound t B ltac:(lia)).
  pose proof (Z.div_mod (t + count - 1) B ltac:(lia)) as Hdm. rewrite Hlast in Hdm.
  pose proof (Z.mod_pos_bound (t + count - 1) B ltac:(lia)). pose proof (Z.div_pos count B ltac:(lia) ltac:(lia)).
  assert (zlength (run t bs new) <= zlength new + 1) as Hlen.
  { rewrite zlength_app. unfold start_blocks. destruct (t mod B =? 0); [unfold zlength; cbn; lia|].
    destruct (last bs); unfold zlength; cbn; lia. }
  assert (t = h + zlength c) as Et by lia. ip_step.
  eapply wp_mono; [rewrite Et at 2; eapply (i_fill_blocks_spec tr ops Hnoexcept _ (with_tailBlock b p) m fl' h c f (bs ++ new) (t / B) (run t bs new) 0 b);
    try done; rewrite <- ?Et; try (rewrite Enum); try lia; unfold zlength in *; lia| |done].
  cbn beta. intros r s1 (vs & m1 & b' & j' & -> & Hst & Hr1 & Hmade & Hj' & _ & Hres). rewrite <- Et in Hres.
  rewrite with_tailBlock_twice. pose proof (extended_stored _ _ _ _ _ _ _ _ _ _ _ _ _ _ b' Hex Hst Hr1) as Hex1.
  destruct r as [x|].
  - destruct Hres as (-> & Hlt & Hfail & Hpos). ip_step. ip_step.
    destruct (is_trivially_destructible ops); [by destruct Hfail as (u & _ & ?%Htrivial)|].
    cbn [negb]. apply wp_seq.
    eapply wp_mono; [eapply (bulk_undo _ s fl h t c vs f bs new (with_tailBlock b' p) m1 fl' b b' j'); try done| |done].
    + lia.
    + apply lookup_lt_Some in Hj'. unfold zlength in *. lia.
    + unfold zlength in *. lia.
    + cbn beta. intros _ s2 Hs2. apply wp_throw. split; [|done]. exists (length vs). split; [unfold zlength in *; lia|done].
  - destruct Hres as [Hcount ->]. ip_step. ip_step. ip_step.
    exists fl', (bs ++ new). cbn. split; [by destruct Hex1|]. rewrite zlength_app. split; [lia|].
    assert (zlength vs = count) as Ev by lia. exists vs. split; [done|]. split; [done|]. rewrite <- Ev.
    eapply (bulk_commit s fl h t c vs f bs new (with_tailBlock (tail_after s new) p) m1 fl'); try done; [lia|by rewrite Ev].
Qed.

(** No elements: nothing happens, although the block pointer and the tail are
    written. *)
Lemma i_enqueue_bulk_nothing allocMode items s fl h t f bs c :
  inv s fl h t f bs c ->
  wp (ImplicitProducer_enqueue_bulk tr ops malloc_ok indeterminate allocMode items 0)
    (i_bulk_enqueued allocMode items 0 s fl h t f bs c) nothrow s.
Proof using TraitsOk0.
  intros Hinv. pose proof Hinv as []. pose proof ii_counters as [Etail _ _ _]. pose proof (block_size_gt_1 tr).
  pose proof (size_le_index tr). pose proof (pow_half (w := w) ltac:(lia)).
  destruct s as [p m]. cbn in *. unfold ImplicitProducer_enqueue_bulk. ip_steps. rewrite Etail, !Z.add_0_r.
  rewrite Z.sub_diag. change (wrap sb (wrap w 0)) with 0. rewrite Z.ltb_irrefl. cbn beta iota.
  assert (stop_index tr (wrap w t) (wrap w t) = wrap w t) as Estop.
  { rewrite (stop_index_spec tr) by lia. f_equal. pose proof (Z.div_mod t B ltac:(lia)).
    pose proof (Z.mod_pos_bound t B ltac:(lia)). lia. }
  assert (forall n b, i_construct_until tr ops n b (wrap w t) (wrap w t) items = ret (wrap w t, items, false)) as Enone.
  { intros [|n] b; cbn [i_construct_until]; by rewrite Z.eqb_refl. }
  rewrite (wrap_wrap (w := w)) by lia. set (n := Z.to_nat (0 / B)). ip_step. cbv beta iota zeta. rewrite Z.eqb_refl. cbn [negb]. rewrite andb_false_r, orb_false_r, orb_true_r.
  ip_step. ip_step. ip_step. ip_step. ip_step. ip_step; [done|]. ip_step. ip_step. ip_step.
  cbn [i_fill_blocks]. ip_step. ip_step. rewrite Estop, Enone. ip_step. ip_step. cbn beta iota.
  rewrite Z.eqb_refl. ip_step. ip_step; [by rewrite Z.eqb_refl|]. ip_step. ip_step. ip_step. ip_step.
  match goal with |- i_bulk_enqueued _ _ _ _ _ _ _ _ _ _ _ (mkIState ?q _) => assert (q = p) as -> end.
  { destruct p as [[] ? ? ? ?]. cbn in *. by rewrite Etail. }
  pose proof (zlength_nonneg bs). exists fl, bs. split; [apply mem_frame_refl|]. split; [rewrite Z.div_0_l; lia|].
  exists []. rewrite app_nil_r, Z.add_0_r. split; [done|]. split; [apply made_nil|done].
Qed.

Lemma i_enqueue_bulk_spec allocMode items count s fl h t f bs c :
  inv s fl h t f bs c -> 0 <= count <= zlength items -> (zlength bs + count / B + 1) * B < 2 ^ (sb - 1) ->
  wp (ImplicitProducer_enqueue_bulk tr ops malloc_ok indeterminate allocMode items count)
    (i_bulk_enqueued allocMode items count s fl h t f bs c) (i_bulk_unchanged items count s fl h t f bs c) s.
Proof using TraitsOk0 Hnoexcept Htrivial.
  intros Hinv Hc Hsmall. destruct (decide (count = 0)) as [->|Hne].
  { eapply wp_mono; [by eapply i_enqueue_bulk_nothing|done|by intros ? []]. }
  destruct (bulk_blocks s fl h t f bs c count Hinv ltac:(lia)) as (n & Hn0 & Hn & Hlast).
  pose proof Hinv as []. pose proof ii_counters as [Etail _ _ _]. pose proof (block_size_gt_1 tr).
  pose proof (size_le_index tr). pose proof (pow_half (w := w) ltac:(lia)). pose proof (pow_half (w := sb) ltac:(lia)).
  pose proof (zlength_nonneg bs). pose proof (Z.mul_succ_div_gt count B ltac:(lia)).
  pose proof (last_number _ _ _ _ _ _ _ Hinv) as Elast.
  pose proof (Z.div_pos count B ltac:(lia) ltac:(lia)). pose proof (Z.pow_le_mono_r 2 (sb - 1) (w - 1) ltac:(lia) ltac:(lia)).
  assert ((zlength bs + n) * B < 2 ^ (sb - 1)) as Hroom by nia.
  assert (count < 2 ^ (w - 1) /\ 0 <= n * B < 2 ^ (sb - 1)) as [Hcw HnB] by nia.
  destruct s as [p m]. unfold ImplicitProducer_enqueue_bulk. ip_step. ip_step. ip_step. ip_step.
  cbn [iprod] in Etail. rewrite Etail.
  assert (wrap w (wrap w t + count - 1) = wrap w (t + count - 1)) as ->.
  { replace (wrap w t + count - 1) with (wrap w t + (count - 1)) by lia. rewrite wrap_add_l. f_equal. lia. }
  rewrite wrap_sub_l, !(block_base_key tr), wrap_sub_l, wrap_sub_r, Hlast.
  assert (wrap sb (wrap w ((f + zlength bs + n - 1) * B - (t - 1) / B * B)) = n * B) as ->.
  { rewrite Elast, <- Z.mul_sub_distr_r. replace (f + zlength bs + n - 1 - (f + zlength bs - 1)) with n by lia.
    rewrite (wrap_small (w := w)) by lia. apply wrap_small. lia. }
  rewrite wrap_add_l, (in_block_wrap tr). ip_step.
  eapply wp_mono; [eapply (bulk_allocation_spec allocMode count (mkIState p m) fl h t f bs c n); done || lia| |by intros ? []].
  cbn beta. intros [first|] s1 Hres.
  2:{ destruct Hres as ((fl' & Hinv' & Hfr) & Hwhy). ip_step. exists fl', bs. by split_and!; [|lia|..]. }
  destruct Hres as (new & p1 & m1 & fl' & -> & -> & Enew & Hex). rewrite <- Enew in *.
  destruct (run_start (mkIState p m) fl h t c f bs new p1 m1 fl' (tail_after (mkIState p m) new)) as (b & Hb & Eb & Hnull); try done.
  { intros Ht. pose proof (i_at_boundary tr malloc_ok _ _ _ _ _ _ _ Hinv Ht) as Et.
    pose proof (Z.mul_div_le (t + count - 1) B ltac:(lia)) as Hle. pose proof (Z.mul_succ_div_gt (t + count - 1) B ltac:(lia)). nia. }
  ip_step. ip_step. ip_step. ip_step. rewrite (ex_base tr malloc_ok _ _ _ _ _ _ _ _ _ _ _ _ Hex).
  cbn [iprod set_tailBlock tailBlock] in *. fold (with_tailBlock (tailBlock (ip_base p)) p1).
  pose proof (bulk_fill_spec allocMode items count (mkIState p m) fl h t f bs c new p1 m1 fl' b) as Hfill.
  cbn [iprod] in Hfill.
  assert (with_tailBlock b p1 = set_ip_base (set_tailBlock b (ip_base p)) p1) as Ew.
  { unfold with_tailBlock. by rewrite (ex_base tr malloc_ok _ _ _ _ _ _ _ _ _ _ _ _ Hex). }
  rewrite Ew in Hfill. clear Ew.
  ip_step. ip_step.
  { destruct (Z.eqb_spec (t mod B) 0); [|done]. cbn. rewrite (proj2 (Z.eqb_neq _ _)); [done|auto]. }
  destruct (Z.eqb_spec (t mod B) 0) as [Ht|Ht].
  - rewrite (proj2 (Z.eqb_neq _ _)) by auto. cbn [negb andb]. ip_step. ip_step. subst b. apply Hfill; auto; lia.
  - cbn [negb andb]. ip_step. ip_step. subst b. apply Hfill; auto; lia.
Qed.
End atomic.
