(* ===== verification/ImplicitQueue.v ===== *)
(** [ImplicitProducer] refines a FIFO queue: its constructor makes an empty
    queue, and any script of calls, in bulk or not, is answered as the abstract
    queue answers it, exceptions of the element type included. *)

From S2P Require Import Prelude MachineInt Traits FreeList Block BlockPool ProducerBase ProducerBaseProofs ExplicitProducer Contents Fifo ImplicitProducer ImplicitSpec ImplicitIndex ImplicitProofs ImplicitBulk ImplicitRevert ImplicitEnqueueBulk ImplicitFill ImplicitAtomic.

Section queue.
Context {U T R : Type} (tr : Traits) `{!TraitsOk tr} (ops : ElementOps U T R).
Context (malloc_ok : nat -> bool) (indeterminate : Indeterminate).
#[local] Abbreviation w := (index_bits tr).
#[local] Abbreviation sb := (size_bits tr).
#[local] Abbreviation B := (BLOCK_SIZE tr).
Implicit Types (s : IState T) (c : list T) (m : Mem T).

(** ** Construction *)

Lemma i_ctor_spec p0 m fl :
  pool_inv tr m fl ->
  wp (ImplicitProducer_ctor tr malloc_ok) (fun _ s' =>
    implicit_inv tr malloc_ok s' fl 0 0 0 [] [] /\ allocated m (imem s')) nothrow (mkIState p0 m).
Proof using TraitsOk0.
  intros Hpool. pose proof (block_size_gt_1 tr). pose proof (size_le_index tr).
  destruct (implicit_initial_index_pow tr) as [Hini Hlog].
  pose proof (traits_implicit_index (tr := tr)) as Hlt.
  set (e := Z.log2 (IMPLICIT_INITIAL_INDEX_SIZE tr)) in *.
  assert (e < sb) as He by (rewrite Hini in Hlt; apply Z.pow_lt_mono_r_iff in Hlt; lia).
  assert (addresses (new_implicit_producer tr) m) as Ha.
  { split; cbn; try (intros x; rewrite lookup_empty; by intros []).
    exists []. split; [done|]. intros x. rewrite lookup_empty. split; [by intros []|by intros ?%not_elem_of_nil]. }
  unfold ImplicitProducer_ctor. ip_step. ip_step. ip_step.
  eapply wp_mono; [eapply (i_new_block_index_spec tr malloc_ok _ m 0 [] fl); try done| |done].
  { right. split; [done|]. split; [done|]. by exists e. }
  cbn beta. intros ok s' (p' & m' & -> & Hal & Eb & Ha' & Hok). ip_step. split; [|done].
  split; cbn; rewrite ?Eb; try done; try lia.
  - change (zlength (@nil loc)) with 0. lia.
  - change (zlength (@nil loc)) with 0. apply Z.pow_pos_nonneg; lia.
  - destruct ok.
    + destruct Hok as (hd & Hs & _). left. by exists hd.
    + destruct Hok as [-> Hm]. by right.
  - by eapply allocated_pool.
  - split; [apply NoDup_nil_2|]. intros ?? [=].
  - by intros b ?%not_elem_of_nil.
Qed.

(** ** Scripts *)

#[export] Instance implicit_calls : SubQueueCalls U R (IState T) := {|
  sc_enqueue := ImplicitProducer_enqueue tr ops malloc_ok indeterminate;
  sc_enqueue_bulk := ImplicitProducer_enqueue_bulk tr ops malloc_ok indeterminate;
  sc_dequeue := ImplicitProducer_dequeue tr ops;
  sc_dequeue_bulk := ImplicitProducer_dequeue_bulk tr ops
|}.

(** [noexcept] operations do not throw. *)
Definition honest : Prop :=
  (noexcept_ctor ops = true -> forall u, make ops u <> None) /\
  (noexcept_assign ops = true -> forall v, assign ops v <> None).

(** What is asked of a call: elements that need not be destroyed are
    constructed in bulk without exceptions. *)
Definition i_permitted (x : operation U) : Prop :=
  match x with
  | EnqueueBulk _ _ => is_trivially_destructible ops = true -> forall u, make ops u <> None
  | DequeueBulk max => 0 <= max
  | _ => True
  end.

(** Some state represents [c] with at most [n] blocks. *)
Definition i_represents (n : Z) s c : Prop :=
  exists fl h t f bs, implicit_inv tr malloc_ok s fl h t f bs c /\ zlength bs <= n.

#[local] Abbreviation i_answers := (answers tr ops malloc_ok i_represents).

Lemma i_enqueue_step allocMode u n s c :
  honest -> i_represents n s c -> n * B < 2 ^ (sb - 1) ->
  wp (call (Enqueue allocMode u)) (i_answers (Enqueue allocMode u) n c) nothrow s.
Proof using TraitsOk0.
  intros [Hmake _] (fl & h & t & f & bs & Hinv & Hn) Hsmall. pose proof (block_size_gt_1 tr).
  cbn [call]. apply wp_try_catch, wp_bind.
  eapply wp_mono; [eapply (i_enqueue_spec tr ops malloc_ok indeterminate); [done|done|nia]| |]; cbn beta.
  - intros ok s' (fl' & bs' & _ & Hbs & Hpost). ip_step. destruct ok.
    + destruct Hpost as (v & Hv & Hinv'). exists (c ++ [v]). split; [by constructor|].
      eexists _, _, _, _, _. split; [exact Hinv'|cbn; lia].
    + destruct Hpost as (Hinv' & _ & Hwhy). exists c. split.
      * constructor. destruct Hwhy as [Hroom|Hmem]; [right|by left]. exists 0. split; [lia|].
        rewrite <- (Z.sub_diag t). eapply no_space_of; [apply Hinv|done].
      * eexists _, _, _, _, _. split; [exact Hinv'|cbn; lia].
  - intros s' (Hu & fl' & Hinv' & _). ip_step. exists c. split; [by constructor|].
    eexists _, _, _, _, _. split; [exact Hinv'|cbn; lia].
Qed.

Lemma i_enqueue_bulk_step allocMode items n s c :
  honest -> i_permitted (EnqueueBulk allocMode items) -> i_represents n s c ->
  (n + cost tr (EnqueueBulk allocMode items)) * B < 2 ^ (sb - 1) ->
  wp (call (EnqueueBulk allocMode items)) (i_answers (EnqueueBulk allocMode items) n c) nothrow s.
Proof using TraitsOk0.
  intros [Hmake _] Htrivial (fl & h & t & f & bs & Hinv & Hn) Hsmall. pose proof (block_size_gt_1 tr).
  cbn [cost] in Hsmall. pose proof (zlength_nonneg items). cbn [call]. apply wp_try_catch, wp_bind.
  eapply wp_mono; [eapply (i_enqueue_bulk_spec tr ops malloc_ok indeterminate Hmake Htrivial); [done|lia|nia]| |]; cbn beta.
  - intros ok s' (fl' & bs' & _ & Hbs & Hpost). ip_step. destruct ok.
    + destruct Hpost as (vs & Hvs & Hmade & Hinv'). exists (c ++ vs). split.
      * constructor. by apply made_whole.
      * eexists _, _, _, _, _. split; [exact Hinv'|cbn [cost]; lia].
    + destruct Hpost as (Hinv' & Hwhy). exists c. split.
      * constructor. destruct Hwhy as [(u & Hu & _ & Hroom)|Hmem]; [right|by left]. exists (u - t). split; [lia|].
        eapply no_space_of; [apply Hinv|done].
      * eexists _, _, _, _, _. split; [exact Hinv'|cbn [cost]; lia].
  - intros s' ((k & _ & u & Hu & Hfail) & fl' & Hinv' & _). ip_step. exists c. split.
    + eapply fifo_enqueue_bulk_throws; [by eapply list_elem_of_lookup_2|done].
    + pose proof (cost_nonneg tr (EnqueueBulk allocMode items)). eexists _, _, _, _, _. split; [exact Hinv'|lia].
Qed.

Lemma i_dequeue_step n s c :
  honest -> i_represents n s c -> wp (call Dequeue) (i_answers Dequeue n c) nothrow s.
Proof using TraitsOk0.
  intros [_ Hassign] (fl & h & t & f & bs & Hinv & Hn). cbn [call]. apply wp_try_catch, wp_bind.
  eapply wp_mono; [eapply (i_dequeue_spec tr ops malloc_ok); [done|done]| |]; cbn beta.
  - intros r s' Hpost. ip_step. destruct c as [|v c].
    + destruct Hpost as [-> ->]. exists []. split; [constructor|].
      eexists _, _, _, _, _. split; [exact Hinv|cbn; lia].
    + destruct Hpost as ([r' ->] & Hr & fl' & f' & bs' & Hinv' & Hbs & _). exists c.
      split; [by constructor|]. eexists _, _, _, _, _. split; [exact Hinv'|cbn; lia].
  - intros s' (v & c' & -> & Hv & fl' & f' & bs' & Hinv' & Hbs & _). ip_step. exists c'.
    split; [by constructor|]. eexists _, _, _, _, _. split; [exact Hinv'|cbn; lia].
Qed.

Lemma i_dequeue_bulk_step max n s c :
  honest -> 0 <= max -> i_represents n s c -> n * B < 2 ^ (sb - 1) ->
  wp (call (DequeueBulk max)) (i_answers (DequeueBulk max) n c) nothrow s.
Proof using TraitsOk0.
  intros [_ Hassign] Hmax (fl & h & t & f & bs & Hinv & Hn) Hsmall.
  pose proof (block_size_gt_1 tr). pose proof Hinv as []. cbn [call]. apply wp_with_output.
  eapply wp_mono; [eapply (i_dequeue_bulk_spec tr ops malloc_ok Hassign); [done|done|nia]| |]; cbn beta.
  - intros r so (-> & rs & s' & fl' & f' & bs' & -> & Hrs & Hinv' & Hbs & _). eexists.
    split; [by eapply (fifo_handed tr ops malloc_ok c max false)|]. eexists _, _, _, _, _. split; [exact Hinv'|cbn; lia].
  - intros so (rs & s' & fl' & f' & bs' & -> & Hrs & Hinv' & Hbs & _). eexists.
    split; [by eapply (fifo_handed tr ops malloc_ok c max true)|]. eexists _, _, _, _, _. split; [exact Hinv'|cbn; lia].
Qed.

Lemma i_call_spec x n s c :
  honest -> i_permitted x -> i_represents n s c -> (n + cost tr x) * B < 2 ^ (sb - 1) ->
  wp (call x) (i_answers x n c) nothrow s.
Proof using TraitsOk0.
  intros Hh Hp Hr Hsmall. pose proof (block_size_gt_1 tr). pose proof (cost_nonneg tr x).
  assert (n * B < 2 ^ (sb - 1)) by nia. destruct x.
  - by apply i_enqueue_step.
  - by apply i_enqueue_bulk_step.
  - by apply i_dequeue_step.
  - by apply i_dequeue_bulk_step.
Qed.

(** C4: A new implicit producer answers any sequence of [enqueue], [enqueue_bulk],
    [dequeue] and [dequeue_bulk] calls as a FIFO queue, whichever allocations
    fail and whichever operations of the elements throw: it never faults,
    elements come out once and in order, [enqueue_bulk] adds all of its
    elements or none, a refusal has a reason, a constructor that throws leaves
    the queue unchanged, and an assignment that throws costs the elements
    that were to be received from there on. *)
Theorem implicit_producer_is_fifo l p0 m fl :
  pool_inv tr m fl -> honest -> Forall i_permitted l -> total_cost tr l * B < 2 ^ (sb - 1) ->
  exists rs s' c, (ImplicitProducer_ctor tr malloc_ok;; run_calls l) (mkIState p0 m) = Ok rs s' /\
    fifo tr ops malloc_ok [] l rs c.
Proof using TraitsOk0.
  intros Hpool Hh Hp Hsmall.
  enough (wp (ImplicitProducer_ctor tr malloc_ok;; run_calls l) (fun rs s' => exists c, fifo tr ops malloc_ok [] l rs c)
    nothrow (mkIState p0 m)) as (rs & s' & E & c & Hc)%wp_nothrow_ok by (by exists rs, s', c).
  ip_step. eapply wp_mono; [by eapply i_ctor_spec| |done]. cbn beta. intros _ s1 [Hinv _].
  eapply wp_mono; [eapply (run_calls_spec tr ops malloc_ok i_represents i_permitted
    (fun x n s c => i_call_spec x n s c Hh) l 0 s1 []); [done| |by rewrite Z.add_0_l]| |done].
  - by eexists _, _, _, _, _.
  - cbn beta. intros rs s2 (c2 & Hfifo & _). by exists c2.
Qed.
End queue.

(** * Example: copying 666 throws, assigning 5 throws *)

Definition partial_ops : ElementOps Z Z Z :=
  mkElementOps Z Z Z (fun u => if u =? 666 then None else Some u) false
    (fun v => if v =? 5 then None else Some v) false false.

Definition partial_script : list (operation Z) :=
  (Enqueue CanAlloc <$> [1; 2; 3; 4; 666]) ++
  [EnqueueBulk CanAlloc [11; 12; 13; 14; 666; 15]; EnqueueBulk CanAlloc [5; 6; 7; 8; 9]] ++
  [Dequeue; DequeueBulk 2; Dequeue; Dequeue; Dequeue; DequeueBulk 7].

Definition partial_run : M (IState Z) (list (answer Z)) :=
  ImplicitProducer_ctor small_traits (fun _ => true);;
  run_calls (SubQueueCalls0 := implicit_calls small_traits partial_ops (fun _ => true) (fun _ _ => false)) partial_script.

Lemma implicit_producer_is_fifo_witness :
  exists rs s' c, partial_run (mkIState (new_implicit_producer small_traits) (init_mem (T := Z))) = Ok rs s' /\
    fifo small_traits partial_ops (fun _ => true) [] partial_script rs c.
Proof.
  apply (implicit_producer_is_fifo small_traits partial_ops (fun _ => true) (fun _ _ => false) _ _ _ []);
    [apply init_mem_inv; apply _|split; by intros [=]|repeat constructor; by intros [=]|reflexivity].
Defined.

(** The answers of the example, computed. *)
Example partial_answers :
  match partial_run (mkIState (new_implicit_producer small_traits) (init_mem (T := Z))) with
  | Ok rs _ => rs
  | _ => []
  end =
  [Enqueued true; Enqueued true; Enqueued true; Enqueued true; Threw; Threw; Enqueued true;
   Dequeued (Some 1); DequeuedMany (Some 2) [2; 3]; Dequeued (Some 4); Threw; Dequeued (Some 6);
   DequeuedMany (Some 3) [7; 8; 9]].
Proof. reflexivity. Qed.
