(* ===== verification/ImplicitDestructor.v ===== *)
(** [ImplicitProducer::~ImplicitProducer]: it destroys the elements that are
    left, oldest first, gives each block back when it comes to the next, and
    frees the block indices. *)

From S2P Require Import Prelude MachineInt Traits FreeList Block BlockPool ProducerBase ProducerBaseProofs ExplicitProducer Contents Destruction ImplicitProducer ImplicitSpec ImplicitIndex ImplicitProofs.

Section remaining.
Context {T : Type} (tr : Traits) `{!TraitsOk tr} (malloc_ok : nat -> bool).
#[local] Abbreviation w := (index_bits tr).
#[local] Abbreviation sb := (size_bits tr).
#[local] Abbreviation B := (BLOCK_SIZE tr).
Implicit Types (h t x : Z) (c : list T) (m : Mem T).

(** ** The elements that are left

    The destructor runs on a producer [p] whose blocks, from number [f] on,
    are [bs]. *)
Context (p : ImplicitProducer) (m0 : Mem T) (fl0 : list loc) (f : Z) (bs : list loc).
Context (Hindex : implicit_index tr malloc_ok p f bs) (Hnull : nullptr ∉ bs).
Context (Hblocks : (zlength bs - 1) * B <= 2 ^ (w - 1)).

(** The elements from [x] on, [c], are left; the first [k] blocks have been
    given back. *)
Record i_destroying (k : nat) x c m fl : Prop := {
  ids_nodup : NoDup (drop k bs);
  ids_blocks : forall j b, drop k bs !! j = Some b -> exists blk,
    blocks m !! b = Some blk /\ holds tr x c (f + Z.of_nat (k + j)) blk;
  ids_pool : pool_inv tr m fl;
  ids_in_use : forall b, b ∈ drop k bs -> ~ available m fl b;
  ids_frame : mem_frame bs m0 fl0 (drop k bs) m fl
}.

(** The first block that is left. *)
Lemma i_destroying_first k x c m fl b :
  i_destroying k x c m fl -> bs !! k = Some b -> drop k bs = b :: drop (S k) bs /\ (b ∉ drop (S k) bs) /\
    ~ available m fl b /\ exists blk, blocks m !! b = Some blk /\ holds tr x c (f + Z.of_nat k) blk.
Proof using Type.
  intros [] Hb. pose proof (drop_S _ _ _ Hb) as E. split; [done|]. rewrite E in *.
  apply NoDup_cons in ids_nodup0 as [? _]. split; [done|]. split; [apply ids_in_use0; by left|].
  destruct (ids_blocks0 O b eq_refl) as (blk & Hblk & Hho). rewrite Nat.add_0_r in Hho. eauto.
Qed.

Lemma i_release_spec k x c m fl b :
  i_destroying k x c m fl -> bs !! k = Some b -> (f + Z.of_nat k + 1) * B <= x \/ c = [] ->
  wp (i_mem (add_block_to_free_list tr b)) (fun _ s' => exists m' fl', s' = mkIState p m' /\ i_destroying (S k) x c m' fl')
    nothrow (mkIState p m).
Proof using TraitsOk0.
  intros Hds Hb Hx. destruct (i_destroying_first _ _ _ _ _ _ Hds Hb) as (E & Hbn & Hav & blk & Hblk & Hho). destruct Hds. rewrite E in *.
  apply wp_i_mem. eapply wp_mono; [eapply (release_one tr m fl b (drop (S k) bs) blk); try done; by eapply holds_raw| |done].
  cbn beta. intros _ m' (fl' & Hpool' & Hf' & Hkeep). exists m', fl'. split; [done|]. split.
  - by apply NoDup_cons in ids_nodup0 as [_ ?].
  - intros j y Hj. destruct (ids_blocks0 (S j) y Hj) as (bk & Hbk & Hhb). exists bk.
    rewrite (proj1 (Hkeep y ltac:(by eapply list_elem_of_lookup_2))). split; [done|].
    by replace (S k + j)%nat with (k + S j)%nat by lia.
  - done.
  - intros y Hy. by apply Hkeep.
  - by eapply mem_frame_trans.
Qed.

Lemma i_destroy_one_spec k x v c m fl b :
  i_destroying k x (v :: c) m fl -> bs !! k = Some b -> (f + Z.of_nat k) * B <= x < (f + Z.of_nat k + 1) * B ->
  wp (i_block b (destroy_element tr (wrap w x))) (fun _ s' => exists m', s' = mkIState p m' /\ i_destroying k (x + 1) c m' fl)
    nothrow (mkIState p m).
Proof using TraitsOk0.
  intros Hds Hb Hx. destruct (i_destroying_first _ _ _ _ _ _ Hds Hb) as (E & Hbn & Hav & blk & Hblk & Hho). destruct Hds.
  destruct (holds_destroy tr x v c _ blk Hho Hx) as [Hv Hho']. pose proof (offset_in_block tr _ _ Hx) as Eo.
  eapply wp_i_block; [exact Hblk|]. eapply wp_mono; [apply (destroy_element_spec tr _ v); by rewrite Eo| |done].
  cbn beta. intros _ blk' ->. rewrite Eo. eexists. split; [done|].
  destruct (update_owned tr m fl (drop k bs) b blk (set_elements (zinsert (x - (f + Z.of_nat k) * B) None (elements blk)) blk) m0 fl0 bs)
    as [Hp' Hf']; try done; [rewrite E; by left|].
  split; try done. intros j y Hj. cbn. destruct (decide (b = y)) as [<-|Hne].
  - rewrite lookup_insert_eq. eexists. split; [done|]. assert (j = O) as ->; [|by rewrite Nat.add_0_r].
    rewrite E in Hj. destruct j as [|j]; [done|]. destruct Hbn. by eapply list_elem_of_lookup_2.
  - rewrite lookup_insert_ne by done. destruct (ids_blocks0 j y Hj) as (bk & Hbk & Hhb). exists bk. split; [done|].
    eapply holds_other; [done|]. rewrite E in Hj. destruct j as [|j]; [by injection Hj|]. nia.
Qed.

(** The loop's [block]: none yet, or that of the element before [x]. *)
Definition current (k : nat) x (block : loc) : Prop :=
  block = nullptr /\ (f + Z.of_nat k) * B <= x < (f + Z.of_nat k + 1) * B \/
  bs !! k = Some block /\ (f + Z.of_nat k) * B < x <= (f + Z.of_nat k + 1) * B.

Lemma current_not_null k b : bs !! k = Some b -> b <> nullptr.
Proof using Hnull. intros Hb ->. apply Hnull. by eapply list_elem_of_lookup_2. Qed.

(** The block of the next element: the same, or the one in the index. *)
Lemma i_next_block_spec k x v c m fl block :
  i_destroying k x (v :: c) m fl -> current k x block -> x < (f + zlength bs) * B ->
  wp (if (in_block tr (wrap w x) =? 0) || (block =? nullptr) then
        (if negb (block =? nullptr) then i_mem (add_block_to_free_list tr block) else ret tt);;
        let! entry := get_block_index_entry_for_index tr (wrap w x) in
        let! e := i_entry entry in ret (entry_value e)
      else ret block) (fun b s' => exists k' m' fl', s' = mkIState p m' /\ i_destroying k' x (v :: c) m' fl' /\
    bs !! k' = Some b /\ (f + Z.of_nat k') * B <= x < (f + Z.of_nat k' + 1) * B) nothrow (mkIState p m).
Proof using All.
  intros Hds Hcur Hx. pose proof (block_size_gt_1 tr). rewrite (in_block_wrap tr).
  assert (forall k' m' fl', i_destroying k' x (v :: c) m' fl' -> (f + Z.of_nat k') * B <= x < (f + Z.of_nat k' + 1) * B ->
    wp (let! entry := get_block_index_entry_for_index tr (wrap w x) in let! e := i_entry entry in ret (entry_value e))
      (fun b s' => exists k' m' fl', s' = mkIState p m' /\ i_destroying k' x (v :: c) m' fl' /\
        bs !! k' = Some b /\ (f + Z.of_nat k') * B <= x < (f + Z.of_nat k' + 1) * B) nothrow (mkIState p m')) as Hlookup.
  { intros k' m' fl' Hds' Hin. destruct (lookup_lt_is_Some_2 bs k') as [b Hb]; [unfold zlength in *; nia|].
    ip_step. eapply wp_mono; [eapply (lookup_entry_spec tr malloc_ok p m' f bs k' b x); try done| |done].
    { symmetry. apply Z.div_unique with (x - (f + Z.of_nat k') * B); lia. }
    cbn beta. intros e s' (-> & hd & _ & _ & He). ip_step. eapply wp_i_entry; [exact He|]. ip_step.
    exists k', m', fl'. split; [done|]. split; [done|]. split; [done|lia]. }
  destruct Hcur as [(-> & Hin)|(Hb & Hin)].
  - rewrite orb_true_r. cbn. ip_step. apply (Hlookup k m fl); done.
  - rewrite (proj2 (Z.eqb_neq block nullptr)) by (by eapply current_not_null). rewrite orb_false_r. cbn [negb].
    destruct (Z.eqb_spec (x mod B) 0) as [Hz|Hz].
    + assert (x = (f + Z.of_nat k + 1) * B) as Ex.
      { pose proof (Z.div_mod x B ltac:(lia)). assert (f + Z.of_nat k < x / B <= f + Z.of_nat k + 1) by nia. nia. }
      ip_step. eapply wp_mono; [eapply i_release_spec; [done|done|left; lia]| |done].
      cbn beta. intros _ s' (m' & fl' & -> & Hds'). apply (Hlookup (S k) m' fl'); [done|]. nia.
    + ip_step. exists k, m, fl. split; [done|]. split; [done|]. split; [done|]. assert (x <> (f + Z.of_nat k + 1) * B); [|lia].
      intros ->. by rewrite Z.mod_mul in Hz by lia.
Qed.

Lemma i_destroy_remaining_spec fuel k x t c m fl block :
  i_destroying k x c m fl -> current k x block -> t - x = zlength c -> t <= (f + zlength bs) * B ->
  t - x < 2 ^ (w - 1) -> t - x <= Z.of_nat fuel ->
  wp (i_destroy_remaining tr fuel (wrap w x) (wrap w t) block) (fun _ s' => exists k' m' fl', s' = mkIState p m' /\
    i_destroying k' t [] m' fl' /\
    (x = t /\ k' = k \/ x < t /\ (f + Z.of_nat k') * B < t <= (f + Z.of_nat k' + 1) * B)) nothrow (mkIState p m).
Proof using All.
  revert k x c m fl block. induction fuel as [|fuel IH]; intros k x c m fl block Hds Hcur Hc Ht Hd Hfuel; cbn [i_destroy_remaining];
    pose proof (zlength_nonneg c); rewrite (index_eqb_far tr) by lia; destruct (Z.eqb_spec x t) as [->|Hne]; try lia.
  1, 2: ip_step; exists k, m, fl; split; [done|]; split; [|by left];
    assert (c = []) as -> by (destruct c; [done|unfold zlength in Hc; cbn in Hc; lia]); done.
  destruct c as [|v c]; [change (zlength (@nil T)) with 0 in Hc; lia|].
  ip_step. eapply wp_mono; [eapply i_next_block_spec; [done|done|lia]| |done]. cbn beta.
  intros b s' (k1 & m1 & fl1 & -> & Hds1 & Hb & Hin).
  ip_step. eapply wp_mono; [by eapply i_destroy_one_spec| |done]. cbn beta. intros _ s' (m2 & -> & Hds2).
  rewrite wrap_add_l. assert (t - (x + 1) = zlength c) as Hc' by (unfold zlength in *; cbn [length] in Hc; lia).
  eapply wp_mono; [eapply (IH k1 (x + 1) c m2 fl1 b); try done; try lia; right; split; [done|lia]| |done].
  cbn beta. intros _ s' (k' & m' & fl' & -> & Hds' & Hk'). exists k', m', fl'. split; [done|]. split; [done|]. right.
  split; [lia|]. destruct Hk' as [[<- ->]|[_ Hk']]; lia.
Qed.
End remaining.

Section destructor.
Context {T : Type} (tr : Traits) `{!TraitsOk tr} (malloc_ok : nat -> bool).
#[local] Abbreviation w := (index_bits tr).
#[local] Abbreviation B := (BLOCK_SIZE tr).
Implicit Types (h t f : Z) (bs : list loc) (c : list T) (m : Mem T) (p : ImplicitProducer) (s : IState T).
Implicit Types (hs : gmap loc ImplicitHeader) (es : gmap loc ImplicitEntry).

(** ** The index headers *)

Lemma free_entries_spec p m x n :
  wp (free_entries x n) (fun _ s' => exists es, s' = mkIState (set_ip_entries es p) m /\
    forall e, es !! e = if decide (x < e <= x + n) then None else ip_entries p !! e) nothrow (mkIState p m : IState T).
Proof using Type.
  unfold free_entries.
  eapply wp_mono; [apply (wp_for_range (fun i s' => exists es, s' = mkIState (set_ip_entries es p) m /\
    forall e, es !! e = if decide (x < e <= x + i) then None else ip_entries p !! e))| |done].
  - exists (ip_entries p). split; [by destruct p|]. intros e. by rewrite decide_False by lia.
  - intros i s' Hi (es & -> & Hes). apply wp_i_setp. eexists. split; [done|]. intros e. cbn.
    destruct (decide (e = x + 1 + i)) as [->|Hne].
    + by rewrite lookup_delete_eq, decide_True by lia.
    + rewrite lookup_delete_ne, Hes by done. repeat case_decide; done || lia.
  - cbn beta. intros _ s' (es & -> & Hes). exists es. split; [done|]. intros e. rewrite Hes. repeat case_decide; done || lia.
Qed.

Lemma index_memory_none hs es next : index_memory hs es nullptr next -> hs = ∅ /\ es = ∅.
Proof using Type.
  intros []. destruct im_chain as ([|y l] & Hl & Hall); [|destruct Hl as (<- & ? & _); done].
  assert (hs = ∅) as ->.
  { apply map_eq. intros x. rewrite lookup_empty. apply eq_None_not_Some. by intros ?%Hall%not_elem_of_nil. }
  split; [done|]. apply map_eq. intros e. rewrite lookup_empty. apply eq_None_not_Some.
  intros (x & hd & Hhd & _)%im_owner. by rewrite lookup_empty in Hhd.
Qed.

(** Without its first header, and the entries in its allocation. *)
Lemma index_memory_rest hs es es' x hd next :
  index_memory hs es x next -> hs !! x = Some hd ->
  (forall e, es' !! e = if decide (x < e <= x + (h_capacity hd - capacity_before hs hd)) then None else es !! e) ->
  index_memory (delete x hs) es' (h_prev hd) next.
Proof using Type.
  intros [] Hx Hes. destruct im_chain as (l & Hl & Hall).
  destruct (linked_cons_inv _ _ _ Hl) as (hd' & l' & -> & Hhd' & Hl').
  { intros ->. pose proof (im_headers nullptr ltac:(eauto)). unfold nullptr in *. lia. }
  assert (hd' = hd) as -> by congruence. pose proof (linked_nodup _ _ _ Hl) as [Hxl _]%NoDup_cons. split.
  - intros e He. rewrite Hes in He. case_decide; [by destruct He|]. auto.
  - intros y [z [_ Hz]%lookup_delete_Some]. eauto.
  - exists l'. split; [by apply linked_delete|]. intros y. specialize (Hall y). rewrite elem_of_cons in Hall.
    destruct (decide (y = x)) as [->|Hne].
    + rewrite lookup_delete_eq. split; [by intros []|done].
    + rewrite lookup_delete_ne by done. rewrite Hall. tauto.
  - intros e He. rewrite Hes in He. case_decide as Hin; [by destruct He|]. destruct (im_owner e He) as (y & z & Hz & Hyz).
    assert (y <> x) as Hne by (intros ->; assert (z = hd) as -> by congruence; done).
    exists y, z. rewrite lookup_delete_ne by done. split; [done|].
    assert (capacity_before (delete x hs) z = capacity_before hs z) as ->; [|done].
    unfold capacity_before. destruct (Z.eqb_spec (h_prev z) nullptr); [done|]. rewrite lookup_delete_ne; [done|].
    assert (y ∈ l') as Hy by (assert (y ∈ x :: l') as [?|?]%elem_of_cons by (apply Hall; eauto); done).
    intros Eq. apply list_elem_of_split in Hy as (l1 & l2 & ->). apply linked_middle in Hl' as (_ & _ & z' & Hz' & Hl2).
    assert (z' = z) as -> by congruence. rewrite <- Eq in Hl2. apply Hxl. apply elem_of_app. right. right.
    destruct l2 as [|y2 l2]; [cbn in Hl2; congruence|]. destruct Hl2 as (-> & _). by left.
Qed.

Lemma i_free_headers_spec fuel p m x next :
  index_memory (ip_headers p) (ip_entries p) x next -> is_Some (ip_headers p !! x) -> (base.size (ip_headers p) <= fuel)%nat ->
  wp (i_free_headers fuel x) (fun _ s' => exists p', s' = mkIState p' m /\ ip_base p' = ip_base p /\
    ip_headers p' = ∅ /\ ip_entries p' = ∅) nothrow (mkIState p m : IState T).
Proof using Type.
  revert p x. induction fuel as [|fuel IH]; intros p x Hmem [hd Hhd] Hfuel.
  { assert (base.size (ip_headers p) = O) as E%map_size_empty_inv by lia. rewrite E, lookup_empty in Hhd. done. }
  cbn [i_free_headers]. ip_step. eapply wp_i_header; [done|].
  assert (wp (if h_prev hd =? nullptr then ret 0 else let! y := i_header (h_prev hd) in ret (h_capacity y))
    (fun n s' => n = capacity_before (ip_headers p) hd /\ s' = mkIState p m) nothrow (mkIState p m : IState T)) as Hbefore.
  { unfold capacity_before. destruct (Z.eqb_spec (h_prev hd) nullptr) as [|Hn]; [by ip_step|].
    destruct (im_chain _ _ _ _ Hmem) as (l & Hl & Hall).
    destruct (linked_next _ _ _ x _ Hl (proj1 (Hall x) ltac:(eauto)) Hhd) as [|[y Hy]]; [done|].
    ip_step. eapply wp_i_header; [done|]. ip_step. by rewrite Hy. }
  ip_step. eapply wp_mono; [exact Hbefore| |done]. cbn beta. intros n ? [-> ->].
  ip_step. eapply wp_mono; [apply free_entries_spec| |done]. cbn beta. intros _ ? (es & -> & Hes). ip_step. ip_step.
  set (p1 := set_ip_headers _ _). pose proof (index_memory_rest _ _ _ _ _ _ Hmem Hhd Hes) as Hmem1.
  destruct (Z.eqb_spec (h_prev hd) nullptr) as [E|Hn].
  - rewrite E in Hmem1. apply index_memory_none in Hmem1 as [E1 E2]. ip_step. by exists p1.
  - eapply wp_mono; [apply (IH p1); [exact Hmem1| |]| |done].
    + destruct (im_chain _ _ _ _ Hmem1) as (l & Hl & Hall). destruct (linked_head _ _ _ Hl); done.
    + cbn. rewrite map_size_delete_Some by done. lia.
    + cbn beta. intros _ s' (p' & -> & ?). by exists p'.
Qed.

(** ** The destructor *)

(** The last block is given back if it was in use. *)
Lemma last_block_spec p m fl h t f bs c k m1 fl1 :
  implicit_inv tr malloc_ok (mkIState p m) fl h t f bs c -> h <= t ->
  i_destroying tr m fl f bs k t [] m1 fl1 ->
  h = t /\ k = O \/ h < t /\ (f + Z.of_nat k) * B < t <= (f + Z.of_nat k + 1) * B ->
  wp (if negb (tailBlock (ip_base p) =? nullptr) && (negb (h =? t) || negb (t mod B =? 0))
      then i_mem (add_block_to_free_list tr (tailBlock (ip_base p))) else ret tt)
    (fun _ s' => exists m' fl', s' = mkIState p m' /\ pool_inv tr m' fl' /\ mem_frame bs m fl [] m' fl') nothrow (mkIState p m1).
Proof using TraitsOk0.
  intros Hinv Hle Hds Hk. pose proof (inv_not_null tr malloc_ok _ _ _ _ _ _ _ Hinv) as Hnull. pose proof Hinv as []. cbn [iprod imem] in *.
  pose proof (block_size_gt_1 tr). pose proof (Z.div_mod t B ltac:(lia)) as Hdm. pose proof (Z.mod_pos_bound t B ltac:(lia)).
  destruct (decide (h = t /\ t mod B = 0)) as [[Eh Ez]|Hrel].
  - rewrite Eh, Ez, !Z.eqb_refl, andb_false_r. ip_step. assert (bs = []) as Ebs.
    { assert (t mod B = t - f * B) by (symmetry; apply Z.mod_unique_pos with f; lia). pose proof (zlength_nonneg bs).
      assert (zlength bs = 0) by nia. destruct bs; [done|unfold zlength in *; cbn in *; lia]. }
    destruct Hds. subst bs. rewrite drop_nil in *. by exists m1, fl1.
  - assert (zlength bs = Z.of_nat k + 1) as El.
    { destruct Hk as [[-> ->]|[Hlt Hk]]; [|nia]. assert (t mod B <> 0) by tauto.
      assert (t mod B = t - f * B) by (symmetry; apply Z.mod_unique_pos with f; lia). nia. }
    destruct (lookup_lt_is_Some_2 bs k) as [b Hb]; [unfold zlength in *; lia|].
    assert (tailBlock (ip_base p) = b) as -> by (apply ii_tail; rewrite last_lookup; replace (pred (length bs)) with k; [done|unfold zlength in *; lia]).
    assert (b <> nullptr) by (intros ->; apply Hnull; by eapply list_elem_of_lookup_2).
    assert (negb (b =? nullptr) && (negb (h =? t) || negb (t mod B =? 0)) = true) as ->.
    { rewrite (proj2 (Z.eqb_neq b nullptr)) by done. cbn. destruct (Z.eqb_spec h t), (Z.eqb_spec (t mod B) 0); tauto. }
    eapply wp_mono; [eapply (i_release_spec tr p m fl f bs k t [] m1 fl1 b); [done|done|by right]| |done].
    cbn beta. intros _ s' (m' & fl' & -> & []). rewrite drop_ge in * by (unfold zlength in *; lia). by exists m', fl'.
Qed.

Lemma ImplicitProducer_dtor_spec s fl h t f bs c :
  implicit_inv tr malloc_ok s fl h t f bs c ->
  wp (ImplicitProducer_dtor tr) (fun _ s' => exists fl', ip_headers (iprod s') = ∅ /\ ip_entries (iprod s') = ∅ /\
    pool_inv tr (imem s') fl' /\ mem_frame bs (imem s) fl [] (imem s') fl') nothrow s.
Proof using TraitsOk0.
  intros Hinv. pose proof (inv_dist tr malloc_ok _ _ _ _ _ _ _ Hinv) as [Hht Hdist].
  pose proof (inv_not_null tr malloc_ok _ _ _ _ _ _ _ Hinv) as Hnull. destruct s as [p m]. pose proof Hinv as []. cbn [iprod imem] in *.
  pose proof ii_counters as []. pose proof (block_size_gt_1 tr). pose proof (size_le_index tr).
  assert (forall m' fl', pool_inv tr m' fl' -> mem_frame bs m fl [] m' fl' ->
    wp (let! bi := i_getp ip_blockIndex in
        if bi =? nullptr then ret tt else let! p := i_getp ip_headers in i_free_headers (base.size p) bi)
      (fun _ s' => exists fl', ip_headers (iprod s') = ∅ /\ ip_entries (iprod s') = ∅ /\
        pool_inv tr (imem s') fl' /\ mem_frame bs m fl [] (imem s') fl') nothrow (mkIState p m')) as Hheaders.
  { intros m' fl' Hpool' Hf'. ip_steps. destruct (Z.eqb_spec (ip_blockIndex p) nullptr) as [E|Hn].
    - unfold addresses in ii_addresses. rewrite E in ii_addresses. apply index_memory_none in ii_addresses as [E1 E2].
      ip_step. by exists fl'.
    - ip_steps. destruct (im_chain _ _ _ _ ii_addresses) as (l & Hl & Hall).
      eapply wp_mono; [eapply i_free_headers_spec; [exact ii_addresses|by destruct (linked_head _ _ _ Hl)|done]| |done].
      cbn beta. intros _ s' (p' & -> & _ & E1 & E2). by exists fl'. }
  unfold ImplicitProducer_dtor. do 2 ip_step. do 2 ip_step. rewrite ct_tail, ct_head.
  assert ((wrap w h =? wrap w t) = (h =? t)) as Eeq by (apply (index_eqb_far tr); lia). rewrite Eeq.
  assert (lessi tr (wrap w h) (wrap w t) = (h <? t)) as Eless by (apply circular_less_than_wrap; lia). rewrite Eless.
  ip_step. ip_step. { destruct (Z.eqb_spec h t), (Z.ltb_spec h t); done || lia. }
  rewrite wrap_sub_l, wrap_sub_r, wrap_small by (pose proof (pow_half (w := w)); lia).
  ip_step. eapply wp_mono; [eapply (i_destroy_remaining_spec tr malloc_ok p m fl f bs ii_index Hnull (proj2 Hdist) _ 0 h t c m fl nullptr)| |done].
  - destruct ii_blocks as [Hnd Hr]. split; rewrite ?drop_0; try done. intros j b Hj. destruct (Hr j b Hj) as (blk & Hblk & Hrep). exists blk. split; [done|]. by eapply block_repr_holds.
  - left. rewrite Z.add_0_r. done.
  - done.
  - lia.
  - lia.
  - lia.
  - cbn beta. intros _ s' (k & m1 & fl1 & -> & Hds & Hk). ip_step. ip_step. rewrite (in_block_wrap tr).
    ip_step. eapply wp_mono; [eapply (last_block_spec p m fl h t f bs c k m1 fl1); [exact Hinv|lia|exact Hds|exact Hk]| |done].
    + cbn beta. intros _ s' (m' & fl' & -> & Hpool' & Hf'). by apply (Hheaders m' fl').
Qed.
End destructor.
