(* ===== verification/Semaphore.v ===== *)
(** The semaphores of src/lightweightsemaphore.h: the wrapper [Semaphore] of
    the operating system's semaphore in its three versions (Windows, Mach,
    POSIX), and [LightweightSemaphore], whose operations are programs of
    atomic steps that any number of threads interleave. *)

From S2P Require Import Prelude MachineInt.

(** * The operating system's semaphore *)

(** How a blocking call of the system returns; [OsInterrupted] is -1 with
    [errno == EINTR], [OsFailed] a timeout or any other error. *)
Inductive os_result := OsSuccess | OsInterrupted | OsFailed.

#[global] Instance os_result_eq_dec : EqDecision os_result.
Proof. solve_decision. Defined.

(** The waits of the wrapper: [wait], [timed_wait] and [try_wait]. *)
Inductive os_request := Endless | Timed (usecs : Z) | Try.

(** The calls of the system; a choice says what the system decides when a call
    returns.  [os_release] adds the given number of permits or fails. *)
Class OsSemaphore := {
  os_state : Type;
  os_choice : Type;
  os_init : os_state;
  os_value : os_state -> Z;
  os_acquire : os_request -> os_choice -> os_state -> os_result * os_state;
  os_release : os_choice -> Z -> os_state -> bool * os_state
}.

(** The documented behaviour: a call that succeeds takes a permit that was
    there, or adds the permits; one that fails changes no permit; while there
    are permits, a blocked call can succeed. *)
Class OsSemaphoreLaws (os : OsSemaphore) : Prop := {
  os_init_value : os_value os_init = 0;
  os_acquire_success req ch s s' :
    os_acquire req ch s = (OsSuccess, s') -> 0 < os_value s /\ os_value s' = os_value s - 1;
  os_acquire_failure req ch s r s' :
    os_acquire req ch s = (r, s') -> r <> OsSuccess -> os_value s' = os_value s;
  os_acquire_enabled req s :
    0 < os_value s -> exists ch s', os_acquire req ch s = (OsSuccess, s');
  os_release_success ch n s s' :
    os_release ch n s = (true, s') -> os_value s' = os_value s + n;
  os_release_failure ch n s s' :
    os_release ch n s = (false, s') -> os_value s' = os_value s
}.

(** A counter that is interrupted, or fails unless it waits without end,
    whenever the choice says so. *)
#[export] Instance counting_os : OsSemaphore := {|
  os_state := Z;
  os_choice := os_result;
  os_init := 0;
  os_value n := n;
  os_acquire req ch n :=
    match ch, req with
    | OsSuccess, _ => if 0 <? n then (OsSuccess, n - 1) else (OsInterrupted, n)
    | OsFailed, Endless => (OsInterrupted, n)
    | r, _ => (r, n)
    end;
  os_release ch k n := match ch with OsSuccess => (true, n + k) | _ => (false, n) end
|}.

#[export] Instance counting_os_laws : OsSemaphoreLaws counting_os.
Proof.
  split; cbn; try done.
  - intros [|t|] [] n n' H; try done; destruct (Z.ltb_spec 0 n); by simplify_eq.
  - intros [|t|] [] n r n' H Hr; try by simplify_eq. all: destruct (Z.ltb_spec 0 n); by simplify_eq.
  - intros req n Hn. exists OsSuccess, (n - 1). destruct req; by rewrite (proj2 (Z.ltb_lt _ _)).
  - intros [] k n n' H; by simplify_eq.
  - intros [] k n n' H; by simplify_eq.
Qed.

(** * The wrapper [Semaphore] *)

Inductive Platform := Windows | Mach | Posix.

(** [wait], [try_wait] and [timed_wait] after their system call: the value they
    return, or [None] to call again. *)
Definition wait_returns (p : Platform) (r : os_result) : option bool :=
  match p, r with
  | Posix, OsInterrupted => None
  | _, _ => Some (bool_decide (r = OsSuccess))
  end.

(** A wait without a timeout ends only with a permit. *)
Definition os_reliable (p : Platform) (os : OsSemaphore) : Prop :=
  forall ch s r s', os_acquire Endless ch s = (r, s') -> wait_returns p r <> Some false.

(** The permits one call of the system in [signal] releases: Windows releases
    all at once. *)
Definition release_batch (p : Platform) (count : Z) : Z :=
  match p with Windows => count | _ => 1 end.

(** Whether [signal] calls the system (again): the loop over the count, which
    Windows does not have. *)
Definition calls_release (p : Platform) (count : Z) : bool :=
  match p with Windows => true | _ => 0 <? count end.

(** The argument of the system's timed call. *)
Record timespec := mkTimespec { tv_sec : Z; tv_nsec : Z }.

Definition usecs_in_1_sec : Z := 1000000.
Definition nsecs_in_1_sec : Z := 1000000000.

(** POSIX: an absolute time, [now] read from the clock, whose seconds are a
    [time_t] of [time_bits] bits. *)
Definition posix_deadline {S} (time_bits : Z) (now : timespec) (usecs : Z) : M S timespec :=
  let! sec := signed_result time_bits
    (tv_sec now + to_signed time_bits (wrap time_bits (usecs / usecs_in_1_sec))) in
  let nsec := tv_nsec now + usecs mod usecs_in_1_sec * 1000 in
  if nsecs_in_1_sec <=? nsec then
    let! sec := signed_result time_bits (sec + 1) in ret (mkTimespec sec (nsec - nsecs_in_1_sec))
  else ret (mkTimespec sec nsec).

(** Mach: an interval, its seconds an [unsigned int]. *)
Definition mach_timeout (timeout_usecs : Z) : timespec :=
  mkTimespec (wrap 32 (timeout_usecs / 1000000)) (timeout_usecs mod 1000000 * 1000).

(** Windows: milliseconds as a 32-bit [unsigned long]. *)
Definition windows_timeout (usecs : Z) : Z := wrap 32 (usecs / 1000).

(** * [LightweightSemaphore] *)

Section semaphore.
(** The width of [ssize_t], the platform, and the constant [m_maxSpins]. *)
Context (sb : Z) (platform : Platform) (m_maxSpins : Z) {os : OsSemaphore}.

Record LightweightSemaphore := mkSemaphore { m_count : Z; m_sema : os_state }.

Definition LightweightSemaphore_ctor (initialCount : Z) : M unit LightweightSemaphore :=
  cassert (0 <=? initialCount);;
  cassert (0 <=? m_maxSpins);;
  ret (mkSemaphore initialCount os_init).

(** What the environment decides in a step: whether a weak compare-exchange
    fails spuriously, and what the system does. *)
Record choice := mkChoice { spurious : bool; os_decides : os_choice }.

(** Atomic operations on [m_count], which return the previous value;
    [fetch_add] wraps around in two's complement. *)
Definition load_count : M LightweightSemaphore Z := gets m_count.
Definition set_count (n : Z) : M LightweightSemaphore unit :=
  modify (fun s => mkSemaphore n (m_sema s)).
Definition fetch_add_count (d : Z) : M LightweightSemaphore Z :=
  let! old := load_count in set_count (to_signed sb (wrap sb (old + d)));; ret old.
Definition cas_count (expected desired : Z) : M LightweightSemaphore (bool * Z) :=
  let! old := load_count in
  if old =? expected then set_count desired;; ret (true, old) else ret (false, old).

(** One system call of a wait, and of a [signal]. *)
Definition acquire (req : os_request) (c : choice) : M LightweightSemaphore os_result := fun s =>
  let (r, sema) := os_acquire req (os_decides c) (m_sema s) in Ok r (mkSemaphore (m_count s) sema).
Definition release (c : choice) (n : Z) : M LightweightSemaphore bool := fun s =>
  let (r, sema) := os_release (os_decides c) n (m_sema s) in Ok r (mkSemaphore (m_count s) sema).

(** The two functions with partial spinning share their structure.
    [asserted]: the caller is [waitMany(max)], which asserts that the result
    is positive. *)
Inductive spin_call :=
  | WaitOne (timeout_usecs : Z)
  | WaitMany (max timeout_usecs : Z) (asserted : bool).
Definition timeout_of (m : spin_call) : Z :=
  match m with WaitOne t => t | WaitMany _ t _ => t end.
Definition asserted_of (m : spin_call) : bool :=
  match m with WaitOne _ => false | WaitMany _ _ a => a end.
Definition os_wait_of (m : spin_call) : os_request :=
  if timeout_of m <? 0 then Endless else Timed (wrap 64 (timeout_of m)).

(** What runs after [tryWaitMany]: nothing, the rest of [waitMany], or the
    addition of the permit that [waitManyWithPartialSpinning] has already. *)
Inductive many_after :=
  | ManyReturn
  | ManyOrWait (max timeout_usecs : Z) (asserted : bool)
  | PlusOne (asserted : bool).
(** What runs after [tryWait]: nothing, or the rest of [wait]. *)
Inductive try_after := TryReturn | TryOrWait (timeout_usecs : Z).

Inductive sem_pc :=
  (* tryWait *)
  | TryLoad (k : try_after)
  | TryLoop (oldCount : Z) (k : try_after)
  (* tryWaitMany *)
  | ManyLoad (max : Z) (k : many_after)
  | ManyLoop (oldCount max : Z) (k : many_after)
  (* waitWithPartialSpinning and waitManyWithPartialSpinning *)
  | SpinLoop (spin : Z) (m : spin_call)
  | SpinCas (oldCount spin : Z) (m : spin_call)
  | FetchSub (m : spin_call)
  | OsWait (m : spin_call)
  | AdjustLoad (m : spin_call)
  | AdjustTryWait (m : spin_call)
  | AdjustCas (oldCount : Z) (m : spin_call)
  (* the assertion of waitMany(max) *)
  | AssertResult (result : Z)
  (* signal, and Semaphore::signal *)
  | SignalAdd (count : Z)
  | SignalPost (count : Z).

(** The result: permits acquired, or the end of [signal]. *)
Inductive sem_result := Acquired (n : Z) | Signalled.

(** The public functions. *)
Definition tryWait : sem_pc := TryLoad TryReturn.
Definition wait (timeout_usecs : Z) : sem_pc := TryLoad (TryOrWait timeout_usecs).
Definition wait_forever : sem_pc := wait (-1).
Definition tryWaitMany (max : Z) : sem_pc := ManyLoad max ManyReturn.
Definition waitMany (max timeout_usecs : Z) : sem_pc :=
  ManyLoad max (ManyOrWait max timeout_usecs false).
Definition waitMany_forever (max : Z) : sem_pc := ManyLoad max (ManyOrWait max (-1) true).
Definition signal (count : Z) : sem_pc := SignalAdd count.

Definition after_try (got : bool) (k : try_after) : sem_result + sem_pc :=
  if got then inl (Acquired 1)
  else match k with
       | TryReturn => inl (Acquired 0)
       | TryOrWait t => inr (SpinLoop m_maxSpins (WaitOne t))
       end.

(** The end of [waitMany]. *)
Definition many_returns (asserted : bool) (n : Z) : sem_result + sem_pc :=
  if asserted then inr (AssertResult n) else inl (Acquired n).

Definition after_many (n : Z) (k : many_after) : sem_result + sem_pc :=
  match k with
  | ManyReturn => inl (Acquired n)
  | ManyOrWait max t asserted =>
      if (n =? 0) && (0 <? max) then inr (SpinLoop m_maxSpins (WaitMany max t asserted))
      else many_returns asserted n
  | PlusOne asserted => many_returns asserted (1 + n)
  end.

(** One permit is acquired: [waitManyWithPartialSpinning] tries for more. *)
Definition acquired_one (m : spin_call) : sem_result + sem_pc :=
  match m with
  | WaitOne _ => inl (Acquired 1)
  | WaitMany max _ asserted =>
      if 1 <? max then inr (ManyLoad (max - 1) (PlusOne asserted)) else many_returns asserted 1
  end.

(** One atomic step, with the local computation around it.  Of the signed sums
    and differences only that of [signal] can leave the range of its type. *)
Definition sem_step (c : choice) (p : sem_pc) : M LightweightSemaphore (sem_result + sem_pc) :=
  match p with
  | TryLoad k => let! oldCount := load_count in ret (inr (TryLoop oldCount k))
  | TryLoop oldCount k =>
      if 0 <? oldCount then
        if spurious c then let! oldCount := load_count in ret (inr (TryLoop oldCount k))
        else
          let! r := cas_count oldCount (oldCount - 1) in
          ret (if r.1 : bool then after_try true k else inr (TryLoop r.2 k))
      else ret (after_try false k)
  | ManyLoad max k =>
      cassert (0 <=? max);;
      let! oldCount := load_count in ret (inr (ManyLoop oldCount max k))
  | ManyLoop oldCount max k =>
      if 0 <? oldCount then
        let newCount := if max <? oldCount then oldCount - max else 0 in
        if spurious c then let! oldCount := load_count in ret (inr (ManyLoop oldCount max k))
        else
          let! r := cas_count oldCount newCount in
          ret (if r.1 : bool then after_many (oldCount - newCount) k else inr (ManyLoop r.2 max k))
      else ret (after_many 0 k)
  | SpinLoop spin m =>
      (match m with WaitMany max _ _ => cassert (0 <? max) | WaitOne _ => ret tt end);;
      let spin := spin - 1 in
      if 0 <=? spin then
        let! oldCount := load_count in
        ret (inr (if 0 <? oldCount then SpinCas oldCount spin m else SpinLoop spin m))
      else ret (inr (FetchSub m))
  | SpinCas oldCount spin m =>
      let newCount :=
        match m with
        | WaitOne _ => oldCount - 1
        | WaitMany max _ _ => if max <? oldCount then oldCount - max else 0
        end in
      let! r := cas_count oldCount newCount in
      ret (if r.1 : bool then many_returns (asserted_of m) (oldCount - newCount) else inr (SpinLoop spin m))
  | FetchSub m =>
      let! oldCount := fetch_add_count (-1) in
      ret (if 0 <? oldCount then acquired_one m
           else if timeout_of m =? 0 then inr (AdjustLoad m) else inr (OsWait m))
  | OsWait m =>
      let! r := acquire (os_wait_of m) c in
      ret (match wait_returns platform r with
           | None => inr (OsWait m)
           | Some true => acquired_one m
           | Some false => inr (AdjustLoad m)
           end)
  | AdjustLoad m =>
      let! oldCount := load_count in
      ret (inr (if 0 <=? oldCount then AdjustTryWait m else AdjustCas oldCount m))
  | AdjustTryWait m =>
      let! r := acquire Try c in
      ret (match wait_returns platform r with
           | None => inr (AdjustTryWait m)
           | Some true => acquired_one m
           | Some false => inr (AdjustLoad m)
           end)
  | AdjustCas oldCount m =>
      let! r := cas_count oldCount (oldCount + 1) in
      ret (if r.1 : bool then many_returns (asserted_of m) 0 else inr (AdjustLoad m))
  | AssertResult result => cassert (0 <? result);; ret (inl (Acquired result))
  | SignalAdd count =>
      cassert (0 <=? count);;
      let! oldCount := fetch_add_count count in
      let! negated := signed_result sb (- oldCount) in
      let toRelease := if negated <? count then negated else count in
      ret (if 0 <? toRelease then inr (SignalPost (to_signed 32 (wrap 32 toRelease)))
           else inl Signalled)
  | SignalPost count =>
      if calls_release platform count then
        let! ok := release c (release_batch platform count) in
        ret (if ok : bool then
               if 0 <? count - release_batch platform count
               then inr (SignalPost (count - release_batch platform count)) else inl Signalled
             else inr (SignalPost count))
      else ret (inl Signalled)
  end.

Definition availableApprox : M LightweightSemaphore Z :=
  let! count := load_count in ret (if 0 <? count then wrap sb count else 0).

(** ** Threads

    [granted] counts the permits that calls have returned, [released] those
    that [signal] has added to the count. *)
Record sem_config := mkSemConfig {
  semaphore_of : LightweightSemaphore;
  sem_threads : list (option sem_pc);
  granted : Z;
  released : Z
}.

(** The first program points of the public functions; the arguments are
    those the assertions of the functions allow: [waitMany(max)], which is to
    return a positive number, needs a positive [max]. *)
Definition sem_call (p : sem_pc) : bool :=
  match p with
  | TryLoad _ => true
  | ManyLoad max ManyReturn => 0 <=? max
  | ManyLoad max (ManyOrWait max' t asserted) =>
      (max =? max') && (0 <=? max) && (negb asserted || (0 <? max) && (t <? 0))
  | SignalAdd count => 0 <=? count
  | _ => false
  end.

Definition releases (p : sem_pc) : Z := match p with SignalAdd count => count | _ => 0 end.
Definition acquires (r : sem_result) : Z := match r with Acquired n => n | Signalled => 0 end.

Inductive sem_cstep : sem_config -> sem_config -> Prop :=
  | sem_begin s ths g rl i p :
      ths !! i = Some None -> sem_call p = true ->
      sem_cstep (mkSemConfig s ths g rl) (mkSemConfig s (<[i := Some p]> ths) g rl)
  | sem_continue s ths g rl i c p p' s' :
      ths !! i = Some (Some p) -> sem_step c p s = Ok (inr p') s' ->
      sem_cstep (mkSemConfig s ths g rl)
        (mkSemConfig s' (<[i := Some p']> ths) g (rl + releases p))
  | sem_return s ths g rl i c p r s' :
      ths !! i = Some (Some p) -> sem_step c p s = Ok (inl r) s' ->
      sem_cstep (mkSemConfig s ths g rl)
        (mkSemConfig s' (<[i := None]> ths) (g + acquires r) (rl + releases p)).

Definition sem_init (N : nat) (initialCount : Z) : sem_config :=
  mkSemConfig (mkSemaphore initialCount os_init) (replicate N None) 0 0.

Definition sem_reachable (N : nat) (initialCount : Z) (c : sem_config) : Prop :=
  rtc sem_cstep (sem_init N initialCount) c.

(** A schedule is a list of moves; one that is not possible does nothing. *)
Inductive sem_move := Begin (i : nat) (p : sem_pc) | Continue (i : nat) (c : choice).

Definition sem_exec (m : sem_move) (c : sem_config) : sem_config :=
  match m with
  | Begin i p =>
      match sem_threads c !! i, sem_call p with
      | Some None, true =>
          mkSemConfig (semaphore_of c) (<[i := Some p]> (sem_threads c)) (granted c) (released c)
      | _, _ => c
      end
  | Continue i ch =>
      match sem_threads c !! i with
      | Some (Some p) =>
          match sem_step ch p (semaphore_of c) with
          | Ok (inr p') s' =>
              mkSemConfig s' (<[i := Some p']> (sem_threads c)) (granted c) (released c + releases p)
          | Ok (inl r) s' =>
              mkSemConfig s' (<[i := None]> (sem_threads c)) (granted c + acquires r)
                (released c + releases p)
          | _ => c
          end
      | _ => c
      end
  end.

Definition sem_schedule (l : list sem_move) (c : sem_config) : sem_config :=
  foldl (flip sem_exec) c l.
End semaphore.
