(* ===== verification/SemaphoreProofs.v ===== *)
(** The invariant of [LightweightSemaphore] under every interleaving, and what
    it gives: no permit is granted twice, none is lost, and no thread stays
    blocked while there is one. *)

From S2P Require Import Prelude MachineInt Semaphore.

Section proofs.
Context (sb : Z) (platform : Platform) (m_maxSpins : Z).
Context {os : OsSemaphore} `{!OsSemaphoreLaws os}.
Context (Hsb : 32 <= sb).
Implicit Types (s : LightweightSemaphore) (p : sem_pc) (r : sem_result + sem_pc).

(** Threads whose decrement of the count is not a permit yet. *)
Definition waiting p : Z :=
  match p with OsWait _ | AdjustLoad _ | AdjustTryWait _ | AdjustCas _ _ => 1 | _ => 0 end.
(** Permits for the system's semaphore that are on their way. *)
Definition posting p : Z := match p with SignalPost n => n | _ => 0 end.
(** Permits acquired by a call that has not returned. *)
Definition holding p : Z :=
  match p with
  | ManyLoad _ (PlusOne _) | ManyLoop _ _ (PlusOne _) => 1
  | AssertResult n => Z.max 0 n
  | _ => 0
  end.

Definition spin_wf (m : spin_call) : Prop :=
  match m with WaitOne _ => True | WaitMany max _ _ => 0 < max end.
Definition pc_wf p : Prop :=
  match p with
  | TryLoad _ | TryLoop _ _ => True
  | ManyLoad max _ | ManyLoop _ max _ => 0 <= max
  | SpinLoop _ m | FetchSub m | OsWait m | AdjustLoad m | AdjustTryWait m => spin_wf m
  | SpinCas oldCount _ m => spin_wf m /\ 0 < oldCount
  | AdjustCas oldCount m => spin_wf m /\ oldCount < 0
  | AssertResult n => 0 <= n
  | SignalAdd count => 0 <= count
  | SignalPost count => 0 < count
  end.

Definition on (f : sem_pc -> Z) r : Z := match r with inl _ => 0 | inr p => f p end.
Definition acquired r : Z := match r with inl x => acquires x | inr _ => 0 end.

(** What one step does to the accounts. *)
Record accounts s p r s' : Prop := {
  ac_count : m_count s' + on holding r + on waiting r + acquired r
             = m_count s + holding p + waiting p + releases p;
  ac_value : os_value (m_sema s') + on posting r - on waiting r - Z.min 0 (m_count s')
             = os_value (m_sema s) + posting p - waiting p - Z.min 0 (m_count s);
  ac_nonneg : 0 <= os_value (m_sema s');
  ac_acquired : 0 <= acquired r;
  ac_wf : match r with inl _ => True | inr p' => pc_wf p' end
}.

(** The count is far enough from the ends of its type. *)
Definition in_range s p : Prop :=
  - 2 ^ 31 < m_count s /\ m_count s + releases p < 2 ^ (sb - 1).

Lemma wp_cas (e d : Z) (Q : bool * Z -> LightweightSemaphore -> Prop) E s :
  (m_count s = e -> Q (true, e) (mkSemaphore d (m_sema s))) ->
  (m_count s <> e -> Q (false, m_count s) s) ->
  wp (cas_count e d) Q E s.
Proof using Type.
  intros H1 H2. unfold cas_count, load_count, set_count. wp_steps.
  destruct (Z.eqb_spec (m_count s) e); wp_steps; [subst e|]; auto.
Qed.

Lemma wp_fetch_add d (Q : Z -> LightweightSemaphore -> Prop) E s :
  - 2 ^ (sb - 1) <= m_count s + d < 2 ^ (sb - 1) ->
  Q (m_count s) (mkSemaphore (m_count s + d) (m_sema s)) -> wp (fetch_add_count sb d) Q E s.
Proof using Hsb.
  intros Hd HQ. unfold fetch_add_count, load_count, set_count. wp_steps.
  by rewrite to_signed_wrap_small by lia.
Qed.

Lemma wp_acquire req c (Q : os_result -> LightweightSemaphore -> Prop) E s :
  0 <= os_value (m_sema s) ->
  (forall sema, 0 < os_value (m_sema s) -> os_value sema = os_value (m_sema s) - 1 ->
     Q OsSuccess (mkSemaphore (m_count s) sema)) ->
  (forall x sema, x <> OsSuccess -> os_value sema = os_value (m_sema s) ->
     Q x (mkSemaphore (m_count s) sema)) ->
  wp (acquire req c) Q E s.
Proof using OsSemaphoreLaws0.
  intros Hv H1 H2. unfold acquire, wp. destruct (os_acquire _ _ _) as [x sema] eqn:Ha.
  destruct (decide (x = OsSuccess)) as [->|Hx].
  - apply os_acquire_success in Ha as [??]. auto.
  - apply os_acquire_failure in Ha; auto.
Qed.

Lemma wp_release c n (Q : bool -> LightweightSemaphore -> Prop) E s :
  (forall sema, os_value sema = os_value (m_sema s) + n ->
     Q true (mkSemaphore (m_count s) sema)) ->
  (forall sema, os_value sema = os_value (m_sema s) ->
     Q false (mkSemaphore (m_count s) sema)) ->
  wp (release c n) Q E s.
Proof using OsSemaphoreLaws0.
  intros H1 H2. unfold release, wp. destruct (os_release _ _ _) as [[] sema] eqn:Ha.
  - apply os_release_success in Ha. auto.
  - apply os_release_failure in Ha. auto.
Qed.

Lemma wait_returns_success : wait_returns platform OsSuccess = Some true.
Proof using Type. by destruct platform. Qed.

Lemma wait_returns_failure x : x <> OsSuccess ->
  wait_returns platform x = None \/ wait_returns platform x = Some false.
Proof using Type. by destruct platform, x; auto. Qed.

Lemma acquired_one_accounts m s s' p :
  spin_wf m -> holding p = 0 -> releases p = 0 -> posting p = 0 ->
  m_count s' + 1 = m_count s + waiting p ->
  os_value (m_sema s') - Z.min 0 (m_count s')
    = os_value (m_sema s) - waiting p - Z.min 0 (m_count s) ->
  0 <= os_value (m_sema s') ->
  accounts s p (acquired_one m) s'.
Proof using Type.
  intros Hm H1 H2 H3 H4 H5 H6. destruct m as [t|max t []]; cbn in *; [|destruct (Z.ltb_spec 1 max)..];
    split; cbn; rewrite ?H1, ?H2, ?H3; try done; lia.
Qed.

Ltac account := split; cbn in *; try done; try lia.

Lemma after_try_accounts (got : bool) k s s' p :
  holding p = 0 -> releases p = 0 -> posting p = 0 -> waiting p = 0 ->
  m_count s' + (if got then 1 else 0) = m_count s -> 0 <= m_count s' \/ s' = s ->
  m_sema s' = m_sema s -> 0 <= os_value (m_sema s) ->
  accounts s p (after_try m_maxSpins got k) s'.
Proof using Type.
  intros H1 H2 H3 H4 H5 H6 H7 H8. destruct got, k; split; cbn in *; rewrite ?H1, ?H2, ?H3, ?H4, ?H7;
    try done; destruct H6 as [|]; subst; lia.
Qed.

Lemma after_many_accounts n k s s' p :
  holding p = match k with PlusOne _ => 1 | _ => 0 end ->
  releases p = 0 -> posting p = 0 -> waiting p = 0 -> 0 <= n ->
  m_count s' + n = m_count s -> 0 <= m_count s' \/ s' = s ->
  m_sema s' = m_sema s -> 0 <= os_value (m_sema s) ->
  accounts s p (after_many m_maxSpins n k) s'.
Proof using Type.
  intros H1 H2 H3 H4 Hn H5 H6 H7 H8.
  assert (Z.min 0 (m_count s') = Z.min 0 (m_count s)) as E by (destruct H6 as [|]; subst; lia).
  destruct k as [|max t []|[]]; cbn in *.
  2, 3: destruct (Z.eqb_spec n 0), (Z.ltb_spec 0 max); cbn.
  all: split; cbn in *; rewrite ?H1, ?H2, ?H3, ?H4, ?H7, ?E; try done; lia.
Qed.

Lemma many_returns_accounts a n s s' p :
  holding p = 0 -> releases p = 0 -> posting p = 0 -> 0 <= n ->
  m_count s' + n = m_count s + waiting p ->
  os_value (m_sema s') - Z.min 0 (m_count s')
    = os_value (m_sema s) - waiting p - Z.min 0 (m_count s) ->
  0 <= os_value (m_sema s') ->
  accounts s p (many_returns a n) s'.
Proof using Type. intros H1 H2 H3 H4 H5 H6 H7. destruct a; split; cbn in *; rewrite ?H1, ?H2, ?H3; try done; lia. Qed.

(** The assertion of [waitMany(max)]. *)
Definition assert_ok p : Prop := match p with AssertResult n => 0 < n | _ => True end.

(** No step but a failing assertion of a result faults, and each keeps the
    accounts. *)
Lemma sem_step_spec c p s :
  assert_ok p -> pc_wf p -> 0 <= os_value (m_sema s) -> in_range s p ->
  wp (sem_step sb platform m_maxSpins c p) (fun r s' => accounts s p r s') nothrow s.
Proof using All.
  intros Hassert Hp Hv [Hlo Hhi]. pose proof (Z.pow_le_mono_r 2 31 (sb - 1) ltac:(lia) ltac:(lia)) as H31.
  destruct p as [k|old k|max k|old max k|spin m|old spin m|m|m|m|m|old m|result|count|count];
    cbn [sem_step pc_wf releases] in *; unfold load_count.
  - wp_steps. account.
  - destruct (Z.ltb_spec 0 old); [destruct (spurious c)|]; [wp_steps; account| |].
    + wp_step. apply wp_cas; intros E; wp_steps; cbn [fst snd]; [|account].
      apply (after_try_accounts true); cbn; try done; lia.
    + wp_steps. apply (after_try_accounts false); cbn; auto with lia.
  - wp_steps; [by apply Z.leb_le|]. account.
  - destruct (Z.ltb_spec 0 old); [destruct (spurious c)|]; [wp_steps; account| |].
    + wp_step. apply wp_cas; intros E; wp_steps; cbn [fst snd]; [|account].
      apply after_many_accounts; cbn; try done; destruct (Z.ltb_spec max old); lia.
    + wp_steps. apply after_many_accounts; cbn; auto with lia.
  - wp_step. assert (wp (match m with WaitMany max _ _ => cassert (0 <? max) | WaitOne _ => ret tt end)
      (fun _ s' => s' = s) nothrow s) as Hm.
    { destruct m; wp_steps; [done|by apply Z.ltb_lt|done]. }
    eapply wp_mono; [exact Hm| |done]. cbn beta. intros _ ? ->.
    destruct (Z.leb_spec 0 (spin - 1)); wp_steps; [destruct (Z.ltb_spec 0 (m_count s))|]; account.
  - wp_step. destruct Hp as [Hm Hold]. apply wp_cas; intros E; wp_steps; cbn [fst snd]; [|account].
    assert (0 <= match m with WaitOne _ => old - 1
                 | WaitMany max _ _ => if max <? old then old - max else 0 end < old + 1).
    { destruct m as [|max t a]; [lia|]. cbn in Hm. destruct (Z.ltb_spec max old); lia. }
    apply many_returns_accounts; cbn; done || lia.
  - wp_step. apply wp_fetch_add; [lia|]. wp_steps.
    destruct (Z.ltb_spec 0 (m_count s)).
    + apply acquired_one_accounts; cbn; done || lia.
    + destruct (Z.eqb_spec (timeout_of m) 0); account.
  - wp_step. apply wp_acquire; [done|..].
    + intros sema H1 H2. wp_steps. rewrite wait_returns_success.
      apply acquired_one_accounts; cbn; done || lia.
    + intros x sema Hx Hs. wp_steps. destruct (wait_returns_failure x Hx) as [-> | ->]; account.
  - wp_steps. destruct (Z.leb_spec 0 (m_count s)); account.
  - wp_step. apply wp_acquire; [done|..].
    + intros sema H1 H2. wp_steps. rewrite wait_returns_success.
      apply acquired_one_accounts; cbn; done || lia.
    + intros x sema Hx Hs. wp_steps. destruct (wait_returns_failure x Hx) as [-> | ->]; account.
  - destruct Hp as [Hm Hold]. wp_step. apply wp_cas; intros E; wp_steps; cbn [fst snd]; [|account].
    apply many_returns_accounts; cbn; done || lia.
  - cbn in Hassert. wp_step. apply wp_cassert; [by apply Z.ltb_lt|]. account.
  - wp_steps; [by apply Z.leb_le|]. apply wp_fetch_add; [lia|]. wp_step. apply wp_signed_result; [lia|]. wp_steps.
    set (n := if - m_count s <? count then - m_count s else count).
    assert (n = Z.min (- m_count s) count) as En.
    { unfold n. destruct (Z.ltb_spec (- m_count s) count); lia. }
    destruct (Z.ltb_spec 0 n); [|account]. rewrite to_signed_wrap_small by (cbn; lia). account.
  - replace (calls_release platform count) with true by (destruct platform; cbn; lia). wp_step.
    assert (1 <= release_batch platform count <= count) by (destruct platform; cbn; lia).
    apply wp_release; intros sema Hs; wp_steps; [|account].
    destruct (Z.ltb_spec 0 (count - release_batch platform count)); account.
Qed.

Lemma step_assert_ok c p s r s' : sem_step sb platform m_maxSpins c p s = Ok r s' -> assert_ok p.
Proof using Type.
  destruct p; cbn; try done. unfold bind, cassert, ret. destruct (Z.ltb_spec 0 result); [done|discriminate].
Qed.

(** ** Every reachable configuration *)

Implicit Types c : sem_config.

Record sem_inv (N : nat) (I : Z) c : Prop := {
  si_length : length (sem_threads c) = N;
  si_wf : forall i p, sem_threads c !! i = Some (Some p) -> pc_wf p;
  si_count : m_count (semaphore_of c) + thread_sum holding (sem_threads c)
               + thread_sum waiting (sem_threads c) + granted c = I + released c;
  si_value : os_value (m_sema (semaphore_of c)) + thread_sum posting (sem_threads c)
               = thread_sum waiting (sem_threads c) + Z.min 0 (m_count (semaphore_of c));
  si_nonneg : 0 <= os_value (m_sema (semaphore_of c));
  si_granted : 0 <= granted c
}.

Lemma holding_nonneg p : 0 <= holding p.
Proof using Type. destruct p; cbn; try case_match; lia. Qed.
Lemma waiting_range p : 0 <= waiting p <= 1.
Proof using Type. destruct p; cbn; lia. Qed.

Lemma posting_sum_nonneg N I c : sem_inv N I c -> 0 <= thread_sum posting (sem_threads c).
Proof using Type.
  intros []. apply zsum_nonneg_in. intros [p|] [i Hi]%list_elem_of_lookup; cbn; [|lia].
  apply si_wf0 in Hi. destruct p; cbn in *; lia.
Qed.

(** Permits are on their way to waiting threads only. *)
Lemma posting_bound N I c i n :
  sem_inv N I c -> sem_threads c !! i = Some (Some (SignalPost n)) -> n <= Z.of_nat N.
Proof using Type.
  intros Hinv Hi. destruct Hinv.
  pose proof (thread_sum_bound waiting (sem_threads c) ltac:(intros; apply waiting_range)).
  enough (n <= thread_sum posting (sem_threads c)) by lia.
  apply (zsum_elem_in (from_option posting 0) _ i (Some (SignalPost n))); [|done].
  intros [p|] [j Hj]%list_elem_of_lookup; cbn; [|lia]. apply si_wf0 in Hj. destruct p; cbn in *; lia.
Qed.

(** The count stays within the permits and the threads. *)
Lemma sem_inv_range N I c :
  sem_inv N I c -> - Z.of_nat N <= m_count (semaphore_of c) <= I + released c /\
  granted c + thread_sum holding (sem_threads c) <= I + released c.
Proof using Type.
  intros H. pose proof (posting_sum_nonneg _ _ _ H). destruct H.
  pose proof (thread_sum_bound waiting (sem_threads c) ltac:(intros; apply waiting_range)).
  pose proof (thread_sum_nonneg waiting (sem_threads c) ltac:(intros; apply waiting_range)).
  pose proof (thread_sum_nonneg holding (sem_threads c) holding_nonneg). lia.
Qed.

Lemma releases_nonneg p : pc_wf p -> 0 <= releases p.
Proof using Type. destruct p; cbn; lia. Qed.

(** A step of the thread [i], whatever it leads to. *)
Lemma sem_inv_step N I c i ch p r s' :
  Z.of_nat N < 2 ^ 31 -> I + released c + releases p < 2 ^ (sb - 1) ->
  sem_inv N I c -> sem_threads c !! i = Some (Some p) ->
  sem_step sb platform m_maxSpins ch p (semaphore_of c) = Ok r s' ->
  sem_inv N I (mkSemConfig s' (<[i := match r with inl _ => None | inr p' => Some p' end]> (sem_threads c))
    (granted c + acquired r) (released c + releases p)).
Proof using All.
  intros HN Hr Hinv Hi Hs. pose proof (sem_inv_range _ _ _ Hinv) as [Hm _]. destruct Hinv.
  assert (accounts (semaphore_of c) p r s') as [].
  { pose proof (sem_step_spec ch p (semaphore_of c)) as H. unfold wp in H. rewrite Hs in H.
    apply H; [by eapply step_assert_ok|by eapply si_wf0|done|]. split; lia. }
  split; cbn [semaphore_of sem_threads granted released].
  - by rewrite length_insert.
  - intros j q Hj. apply list_lookup_insert_Some in Hj as [(<- & E & _)|[_ Hj]]; [|by eapply si_wf0].
    destruct r; by simplify_eq.
  - rewrite !(thread_sum_insert _ _ _ _ _ Hi). destruct r; cbn in *; lia.
  - rewrite !(thread_sum_insert _ _ _ _ _ Hi). destruct r; cbn in *; lia.
  - done.
  - lia.
Qed.

Lemma sem_call_wf p : sem_call p = true -> pc_wf p.
Proof using Type.
  destruct p as [| |max k| | | | | | | | | |count|]; cbn; try done; [destruct k; try done|];
    intros H; rewrite ?andb_true_iff in H; lia.
Qed.

Lemma sem_call_accounts p :
  sem_call p = true -> holding p = 0 /\ waiting p = 0 /\ posting p = 0.
Proof using Type. destruct p as [| |max k| | | | | | | | | |count|]; cbn; try done. by destruct k. Qed.

Lemma sem_inv_cstep N I c c' :
  Z.of_nat N < 2 ^ 31 -> I + released c' < 2 ^ (sb - 1) ->
  sem_cstep sb platform m_maxSpins c c' -> sem_inv N I c -> sem_inv N I c'.
Proof using All.
  intros HN Hr Hstep Hinv. destruct Hstep as [s ths g rl i p Hi Hp|s ths g rl i ch p p' s' Hi Hs
    |s ths g rl i ch p r s' Hi Hs].
  - destruct Hinv. cbn in *. split; cbn.
    + by rewrite length_insert.
    + intros j q Hj. apply list_lookup_insert_Some in Hj as [(<- & E & _)|[_ Hj]]; [|by eapply si_wf0].
      simplify_eq. by apply sem_call_wf.
    + rewrite !(thread_sum_insert _ _ _ _ _ Hi). cbn.
      pose proof (sem_call_accounts p Hp) as (-> & -> & _). lia.
    + rewrite !(thread_sum_insert _ _ _ _ _ Hi). cbn.
      pose proof (sem_call_accounts p Hp) as (_ & -> & ->). lia.
    + done.
    + done.
  - cbn in Hr. pose proof (sem_inv_step N I (mkSemConfig s ths g rl) i ch p (inr p') s' HN ltac:(cbn; lia) Hinv Hi Hs) as H. cbn in H. by rewrite Z.add_0_r in H.
  - cbn in Hr. exact (sem_inv_step N I (mkSemConfig s ths g rl) i ch p (inl r) s' HN ltac:(cbn; lia) Hinv Hi Hs).
Qed.

Lemma sem_inv_init N I : 0 <= I -> sem_inv N I (sem_init N I).
Proof using OsSemaphoreLaws0.
  intros HI. split; cbn; rewrite ?thread_sum_replicate, ?os_init_value; try lia.
  - apply length_replicate.
  - intros i p [[=] _]%lookup_replicate.
Qed.

(** Only a call of [signal] adds to the count. *)
Lemma sem_step_releases ch p p' s s' :
  sem_step sb platform m_maxSpins ch p s = Ok (inr p') s' -> releases p' = 0.
Proof using Type.
  intros H. destruct p; cbn in H; unfold bind, ret, gets, modify, cassert, acquire, release, load_count,
    fetch_add_count, cas_count, set_count, bind, ret, gets, modify, faults, after_try, after_many,
    acquired_one, many_returns, signed_result, ret, faults in H; repeat case_match; by simplify_eq/=.
Qed.

Lemma sem_reachable_releases N I c :
  sem_reachable sb platform m_maxSpins N I c ->
  forall i p, sem_threads c !! i = Some (Some p) -> 0 <= releases p.
Proof using Type.
  intros Hreach. pattern c. revert c Hreach. apply rtc_ind_r; [|intros c c' _ Hstep IH].
  - intros i p [[=] _]%lookup_replicate.
  - intros j q Hj. destruct Hstep as [s ths g rl i p Hi Hp|s ths g rl i ch p p' s' Hi Hs
      |s ths g rl i ch p r s' Hi Hs]; cbn in *;
      apply list_lookup_insert_Some in Hj as [(<- & E & _)|[_ Hj]]; simplify_eq; try by eapply IH.
    + apply releases_nonneg. by apply sem_call_wf.
    + by rewrite (sem_step_releases _ _ _ _ _ Hs).
Qed.

Lemma released_mono c c' :
  (forall i p, sem_threads c !! i = Some (Some p) -> 0 <= releases p) ->
  sem_cstep sb platform m_maxSpins c c' -> released c <= released c'.
Proof using Type.
  intros Hwf Hs. destruct Hs as [|? ? ? ? i ? p ? ? Hi|? ? ? ? i ? p ? ? Hi]; cbn in *; [lia|..];
    specialize (Hwf i p Hi); lia.
Qed.

Lemma sem_reachable_inv N I c :
  0 <= I -> Z.of_nat N < 2 ^ 31 -> I + released c < 2 ^ (sb - 1) ->
  sem_reachable sb platform m_maxSpins N I c -> sem_inv N I c.
Proof using All.
  intros HI HN Hr Hreach. revert Hr. pattern c. revert c Hreach.
  apply rtc_ind_r; [intros _; by apply sem_inv_init|intros c c' Hreach Hstep IH Hr].
  pose proof (released_mono _ _ (sem_reachable_releases _ _ _ Hreach) Hstep).
  eapply sem_inv_cstep; eauto with lia.
Qed.

(** ** The assertion of [waitMany(max)]

    Its result is positive because a wait without a timeout does not fail. *)

Definition spin_safe (m : spin_call) : Prop := asserted_of m = true -> timeout_of m < 0.
Definition pc_safe p : Prop :=
  match p with
  | ManyLoad max (ManyOrWait max' t a) | ManyLoop _ max (ManyOrWait max' t a) =>
      a = true -> 0 < max' /\ max = max' /\ t < 0
  | SpinLoop _ m | SpinCas _ _ m | FetchSub m | OsWait m => spin_safe m
  | AdjustLoad m | AdjustTryWait m | AdjustCas _ m => asserted_of m = false
  | AssertResult n => 0 < n
  | _ => True
  end.

Lemma pc_safe_assert p : pc_safe p -> assert_ok p.
Proof using Type. by destruct p. Qed.

Lemma sem_call_safe p : sem_call p = true -> pc_safe p.
Proof using Type.
  destruct p as [| |max k| | | | | | | | | |count|]; cbn; try done. destruct k as [|max' t []|]; cbn; try done. lia.
Qed.

Lemma many_returns_safe a n p' : 0 < n -> many_returns a n = inr p' -> pc_safe p'.
Proof using Type. destruct a; cbn; by intros ? [= <-]. Qed.

Lemma acquired_one_safe m p' : acquired_one m = inr p' -> pc_safe p'.
Proof using Type.
  destruct m as [t|max t a]; cbn; [done|]. destruct (1 <? max); [by intros [= <-]|by apply many_returns_safe].
Qed.

Lemma after_many_safe n k p' :
  0 <= n -> (forall max t, k = ManyOrWait max t true -> 0 < max /\ t < 0) ->
  after_many m_maxSpins n k = inr p' -> pc_safe p'.
Proof using Type.
  destruct k as [|max t a|a]; cbn [after_many]; intros Hn Hk; [done| |apply many_returns_safe; lia].
  assert (a = true -> 0 < max /\ t < 0) as Ha by (intros ->; by apply Hk).
  destruct (Z.eqb_spec n 0), (Z.ltb_spec 0 max); cbn [andb]; [|destruct a; [|done]; destruct Ha; [done|lia]|by apply many_returns_safe; lia..].
  intros [= <-]. intros Eq. by apply Ha.
Qed.

(** The steps of a wait that depend on what the system answers. *)
Lemma acquire_safe req (c : choice) m p p' s s' :
  pc_safe p -> (asserted_of m = true -> req = Endless) -> os_reliable platform os ->
  (let! r := acquire req c in
   ret (match wait_returns platform r with
        | None => inr p | Some true => acquired_one m | Some false => inr (AdjustLoad m) end)) s = Ok (inr p') s' ->
  pc_safe p'.
Proof using Type.
  intros Hp Hreq Hrel. unfold bind, acquire. destruct (os_acquire _ _ _) as [x sema] eqn:Ha. unfold ret.
  destruct (wait_returns platform x) as [[]|] eqn:Hx; intros [= H _]; [by eapply acquired_one_safe| |by subst].
  subst p'. cbn. destruct (asserted_of m); [|done]. rewrite Hreq in Ha by done. by apply Hrel in Ha.
Qed.

Lemma sem_step_safe (c : choice) p p' s s' :
  os_reliable platform os -> pc_wf p -> pc_safe p ->
  sem_step sb platform m_maxSpins c p s = Ok (inr p') s' -> pc_safe p'.
Proof using Type.
  intros Hrel Hwf Hp H. destruct p as [k|old k|max k|old max k|spin m|old spin m|m|m|m|m|old m|result|count|count];
    cbn [sem_step] in H.
  8, 10: eapply acquire_safe; [exact Hp| |done|exact H].
  8: { intros Ha. unfold os_wait_of. rewrite (proj2 (Z.ltb_lt _ _)); [done|]. by apply Hp. }
  8: { cbn in Hp. by rewrite Hp. }
  all: unfold cassert, release, cas_count, fetch_add_count, signed_result, load_count, set_count, bind, ret, gets, modify, faults in H.
  - by simplify_eq.
  - repeat case_match; simplify_eq/=; try done; destruct k; by simplify_eq/=.
  - case_match; simplify_eq/=. done.
  - destruct (Z.ltb_spec 0 old).
    + destruct (spurious c); [by injection H as <- _|].
      destruct (m_count s =? old); cbn in H; [|by injection H as <- _].
      injection H as H _. eapply (fun n => after_many_safe n k); [|intros ?? ->|exact H].
      * destruct (Z.ltb_spec max old); cbn in Hwf; lia.
      * by destruct (Hp eq_refl) as (? & ? & ?).
    + injection H as H _. eapply (fun n => after_many_safe n k); [|intros ?? ->|exact H]; [done|].
      by destruct (Hp eq_refl) as (? & ? & ?).
  - repeat case_match; simplify_eq/=; done.
  - destruct Hwf as [Hm Hold]. destruct (m_count s =? old); cbn in H; [|by simplify_eq].
    injection H as H _. eapply many_returns_safe; [|exact H]. destruct m as [|max t a]; cbn in Hm; [lia|].
    destruct (Z.ltb_spec max old); lia.
  - destruct (_ <? _); injection H as H _; [by eapply acquired_one_safe|].
    destruct (Z.eqb_spec (timeout_of m) 0); injection H as <-; [|done]. cbn in *. unfold spin_safe in Hp.
    destruct (asserted_of m); [|done]. specialize (Hp eq_refl). lia.
  - destruct (0 <=? m_count s); by simplify_eq.
  - cbn in Hp. rewrite Hp in H. destruct (m_count s =? old); by simplify_eq/=.
  - case_match; simplify_eq/=.
  - repeat case_match; simplify_eq/=; done.
  - repeat case_match; simplify_eq/=; done.
Qed.

Lemma sem_reachable_safe N I c :
  os_reliable platform os -> 0 <= I -> Z.of_nat N < 2 ^ 31 -> I + released c < 2 ^ (sb - 1) ->
  sem_reachable sb platform m_maxSpins N I c ->
  forall i p, sem_threads c !! i = Some (Some p) -> pc_safe p.
Proof using All.
  intros Hrel HI HN Hr Hreach. revert Hr. pattern c. revert c Hreach.
  apply rtc_ind_r; [by intros _ i p [[=] _]%lookup_replicate|].
  intros c c' Hreach Hstep IH Hr.
  pose proof (released_mono _ _ (sem_reachable_releases _ _ _ Hreach) Hstep).
  pose proof (sem_reachable_inv N I c HI HN ltac:(lia) Hreach) as Hinv. specialize (IH ltac:(lia)).
  intros j q Hj. destruct Hstep as [s ths g rl i p Hi Hp|s ths g rl i ch p p' s' Hi Hs|s ths g rl i ch p x s' Hi Hs];
    cbn in *; apply list_lookup_insert_Some in Hj as [(<- & E & _)|[_ Hj]]; simplify_eq; try by eapply IH.
  - by apply sem_call_safe.
  - eapply sem_step_safe; [done|by eapply (si_wf _ _ _ Hinv)|by eapply IH|done].
Qed.

(** No addition to the count wraps around: the step is the same with a count
    of any greater width. *)
Lemma sem_step_width sb' ch p s :
  sb <= sb' -> pc_wf p -> in_range s p ->
  sem_step sb' platform m_maxSpins ch p s = sem_step sb platform m_maxSpins ch p s.
Proof using Hsb.
  intros Hw Hp [Hlo Hhi]. pose proof (Z.pow_le_mono_r 2 31 (sb - 1) ltac:(lia) ltac:(lia)).
  pose proof (Z.pow_le_mono_r 2 (sb - 1) (sb' - 1) ltac:(lia) ltac:(lia)).
  assert (forall d, - 2 ^ 31 <= m_count s + d < 2 ^ (sb - 1) -> fetch_add_count sb' d s = fetch_add_count sb d s) as Hadd.
  { intros d Hd. unfold fetch_add_count, load_count, bind, gets. by rewrite !to_signed_wrap_small by lia. }
  destruct p as [k|old k|max k|old max k|spin m|old spin m|m|m|m|m|old m|result|count|count]; cbn [sem_step releases pc_wf] in *; try done.
  - unfold bind. by rewrite Hadd by lia.
  - unfold cassert. rewrite (proj2 (Z.leb_le _ _) Hp). unfold bind, ret. rewrite Hadd by lia.
    unfold fetch_add_count, load_count, set_count, bind, gets, modify, ret, signed_result.
    assert (forall w, sb <= w -> (- 2 ^ (w - 1) <=? - m_count s) && (- m_count s <? 2 ^ (w - 1)) = true) as Hne.
    { intros w Hw'. pose proof (Z.pow_le_mono_r 2 (sb - 1) (w - 1) ltac:(lia) ltac:(lia)). lia. }
    by rewrite !Hne by lia.
Qed.

(** C27: Under every interleaving of any number of threads below 2^31, no step
    of a semaphore call faults -- not even at the assertion of [waitMany(max)]
    that its result is positive, as long as the system's wait without a timeout
    does not fail -- and the count stays between minus the number of threads
    and the permits there were and have been signalled.  So no addition to it
    wraps around (at any greater width the step is the same), and the permits
    that [signal] releases fit into an [int]. *)
Theorem semaphore_never_faults N I c i p ch :
  os_reliable platform os ->
  0 <= I -> Z.of_nat N < 2 ^ 31 -> sem_reachable sb platform m_maxSpins N I c ->
  sem_threads c !! i = Some (Some p) -> I + released c + releases p < 2 ^ (sb - 1) ->
  exists r s', (forall sb', sb <= sb' -> sem_step sb' platform m_maxSpins ch p (semaphore_of c) = Ok r s') /\
    - Z.of_nat N <= m_count s' <= I + released c + releases p /\
    forall n, r = inr (SignalPost n) -> 0 < n <= Z.of_nat N.
Proof using All.
  intros Hrel HI HN Hreach Hi Hr.
  pose proof (sem_reachable_releases _ _ _ Hreach _ _ Hi).
  assert (sem_inv N I c) as Hinv by (apply sem_reachable_inv; [done|done|lia|done]).
  assert (pc_safe p) as Hsafe by (eapply (sem_reachable_safe N I c); [done|done|done|lia|done|done]).
  pose proof (sem_inv_range _ _ _ Hinv) as [Hm _].
  assert (in_range (semaphore_of c) p) as Hrange by (split; lia).
  pose proof (si_wf _ _ _ Hinv _ _ Hi) as Hwf.
  destruct (wp_nothrow_ok _ _ _ (sem_step_spec ch p (semaphore_of c) (pc_safe_assert _ Hsafe) Hwf (si_nonneg _ _ _ Hinv) Hrange))
    as (r & s' & E & _).
  pose proof (sem_inv_step N I c i ch p r s' HN Hr Hinv Hi E) as Hinv'.
  pose proof (sem_inv_range _ _ _ Hinv') as [Hm' _]. cbn in Hm'.
  exists r, s'. split; [intros sb' Hw; by rewrite sem_step_width|]. split; [lia|]. intros n ->.
  set (c' := mkSemConfig _ _ _ _) in Hinv'.
  assert (sem_threads c' !! i = Some (Some (SignalPost n))) as Hj by (eapply list_lookup_insert_eq, lookup_lt_Some, Hi).
  split; [exact (si_wf _ _ _ Hinv' _ _ Hj)|by eapply posting_bound].
Qed.

(** C16: Permits are never handed out twice: under every interleaving, the
    permits acquired by [wait], [tryWait], [waitMany] and [tryWaitMany] never
    exceed the initial count plus what [signal] has added. *)
Theorem semaphore_no_over_grant N I c :
  0 <= I -> Z.of_nat N < 2 ^ 31 -> I + released c < 2 ^ (sb - 1) ->
  sem_reachable sb platform m_maxSpins N I c -> granted c <= I + released c.
Proof using All.
  intros HI HN Hr Hreach. pose proof (sem_reachable_inv _ _ _ HI HN Hr Hreach) as Hinv.
  pose proof (thread_sum_nonneg holding (sem_threads c) holding_nonneg).
  pose proof (sem_inv_range _ _ _ Hinv). lia.
Qed.

Lemma sem_inv_quiescent N I c :
  0 <= I -> I + released c < 2 ^ (sb - 1) -> sem_inv N I c ->
  (forall i o, sem_threads c !! i = Some o -> o = None) ->
  m_count (semaphore_of c) = I + released c - granted c /\
  os_value (m_sema (semaphore_of c)) = 0 /\
  availableApprox sb (semaphore_of c) = Ok (I + released c - granted c) (semaphore_of c).
Proof using All.
  intros HI Hr Hinv Hidle. pose proof (sem_inv_range _ _ _ Hinv). destruct Hinv.
  rewrite !(thread_sum_idle _ _ Hidle) in *.
  assert (m_count (semaphore_of c) = I + released c - granted c) as E by lia.
  split; [done|]. split; [lia|].
  assert (0 < sb) as Hs0 by lia. pose proof (pow_half Hs0). pose proof (pow_half_pos Hs0).
  unfold availableApprox, load_count, bind, gets, ret. rewrite <- E.
  destruct (Z.ltb_spec 0 (m_count (semaphore_of c))); [rewrite wrap_small by lia; done|].
  f_equal. lia.
Qed.

Lemma sem_inv_wakeup N I c i m :
  sem_inv N I c ->
  (forall j p, sem_threads c !! j = Some (Some p) -> exists m', p = OsWait m') ->
  sem_threads c !! i = Some (Some (OsWait m)) -> granted c < I + released c ->
  exists ch s', sem_step sb platform m_maxSpins ch (OsWait m) (semaphore_of c)
    = Ok (acquired_one m) s'.
Proof using All.
  intros Hinv Hblock Hi Hleft. destruct Hinv.
  assert (thread_sum holding (sem_threads c) = 0) as Eh
    by (apply thread_sum_zero; intros j p Hj; by destruct (Hblock j p Hj) as [? ->]).
  assert (thread_sum posting (sem_threads c) = 0) as Ep
    by (apply thread_sum_zero; intros j p Hj; by destruct (Hblock j p Hj) as [? ->]).
  pose proof (thread_sum_elem waiting _ _ _ ltac:(intros; apply waiting_range) Hi) as Ew. cbn in Ew.
  destruct (os_acquire_enabled (os_wait_of m) (m_sema (semaphore_of c))) as (ch & s' & E); [lia|].
  exists (mkChoice false ch). eexists. cbn. unfold acquire, bind. cbn. rewrite E.
  by rewrite wait_returns_success.
Qed.

(** C28: Permits are never lost: whenever no call is in progress, the count
    is exactly the number of permits that were not acquired, the system's
    semaphore holds none, and [availableApprox] returns that number. *)
Theorem semaphore_quiescent N I c :
  0 <= I -> Z.of_nat N < 2 ^ 31 -> I + released c < 2 ^ (sb - 1) ->
  sem_reachable sb platform m_maxSpins N I c ->
  (forall i o, sem_threads c !! i = Some o -> o = None) ->
  m_count (semaphore_of c) = I + released c - granted c /\
  os_value (m_sema (semaphore_of c)) = 0 /\
  availableApprox sb (semaphore_of c) = Ok (I + released c - granted c) (semaphore_of c).
Proof using All.
  intros HI HN Hr Hreach Hidle. apply (sem_inv_quiescent N); [done|done| |done].
  by apply sem_reachable_inv.
Qed.

(** C18: No wakeup is lost: when every call in progress is blocked in the
    system's semaphore and a permit is left, the system can let one of them
    go, and that call acquires the permit. *)
Theorem semaphore_no_lost_wakeup N I c i m :
  0 <= I -> Z.of_nat N < 2 ^ 31 -> I + released c < 2 ^ (sb - 1) ->
  sem_reachable sb platform m_maxSpins N I c ->
  (forall j p, sem_threads c !! j = Some (Some p) -> exists m', p = OsWait m') ->
  sem_threads c !! i = Some (Some (OsWait m)) -> granted c < I + released c ->
  exists ch s', sem_step sb platform m_maxSpins ch (OsWait m) (semaphore_of c)
    = Ok (acquired_one m) s'.
Proof using All.
  intros HI HN Hr Hreach Hblock Hi Hleft. apply (sem_inv_wakeup N I c i); try done.
  by apply sem_reachable_inv.
Qed.

(** Schedules reach reachable configurations. *)
Lemma sem_schedule_reachable N I l :
  sem_reachable sb platform m_maxSpins N I
    (sem_schedule sb platform m_maxSpins l (sem_init N I)).
Proof using Type.
  unfold sem_reachable, sem_schedule. induction l as [|m l IH] using rev_ind; [constructor|].
  rewrite foldl_snoc. cbn [flip]. generalize dependent (foldl (flip (sem_exec sb platform m_maxSpins)) (sem_init N I) l).
  intros c Hc. etrans; [exact Hc|]. destruct c as [s ths g rl], m as [i p|i ch]; cbn.
  - destruct (ths !! i) as [[q|]|] eqn:Hi; [constructor| |constructor].
    destruct (sem_call p) eqn:Hp; [|constructor]. apply rtc_once. by constructor.
  - destruct (ths !! i) as [[p|]|] eqn:Hi; [|constructor..].
    destruct (sem_step sb platform m_maxSpins ch p s) as [[r|p'] s'|s'|f] eqn:Hs; [..|constructor|constructor];
      apply rtc_once; [by eapply sem_return|by eapply sem_continue].
Qed.
End proofs.

(** * Witnesses: two threads, POSIX, one spin; thread 0 waits before thread 1
    signals twice. *)

Section example.
#[local] Abbreviation go i := (Continue i (mkChoice false OsSuccess)).
#[local] Abbreviation start := (@sem_init counting_os 2 0).
#[local] Abbreviation at_schedule l := (sem_schedule 64 Posix 1 l start).

(** Thread 0 is blocked in the system's semaphore. *)
Definition blocked_schedule : list sem_move :=
  [Begin 0 wait_forever; go 0%nat; go 0%nat; go 0%nat; go 0%nat; go 0%nat].
(** Thread 1 has signalled two permits and posted one of them. *)
Definition posted_schedule : list sem_move :=
  blocked_schedule ++ [Begin 1 (signal 2); go 1%nat; go 1%nat].
(** Both calls have returned. *)
Definition quiet_schedule : list sem_move := posted_schedule ++ [go 0%nat].

Lemma counting_os_reliable : os_reliable Posix counting_os.
Proof. intros [] n r n' H; cbn in H; try destruct (0 <? n); by simplify_eq. Qed.

(** Thread 0 has acquired a permit in [waitMany(2)] after sleeping for it. *)
Definition asserting_schedule : list sem_move :=
  [Begin 0 (waitMany_forever 2); go 0%nat; go 0%nat; go 0%nat; go 0%nat; go 0%nat; Begin 1 (signal 1); go 1%nat; go 1%nat;
   go 0%nat; go 0%nat; go 0%nat].

Lemma semaphore_never_faults_witness :
  exists r s', (forall sb', 64 <= sb' -> sem_step sb' Posix 1 (mkChoice false OsSuccess) (AssertResult 1)
      (semaphore_of (at_schedule asserting_schedule)) = Ok r s') /\
    - 2 <= m_count s' <= 1 /\ forall n, r = inr (SignalPost n) -> 0 < n <= 2.
Proof.
  apply (semaphore_never_faults 64 Posix 1 ltac:(lia) 2 0 (at_schedule asserting_schedule) 0%nat);
    [exact counting_os_reliable|done|done|apply sem_schedule_reachable|reflexivity|reflexivity].
Defined.

Lemma semaphore_no_over_grant_witness : granted (at_schedule quiet_schedule) <= 2.
Proof.
  apply (semaphore_no_over_grant 64 Posix 1 ltac:(lia) 2 0 (at_schedule quiet_schedule));
    [done|done|reflexivity|apply sem_schedule_reachable].
Defined.

Lemma semaphore_quiescent_witness :
  m_count (semaphore_of (at_schedule quiet_schedule)) = 1.
Proof.
  refine (proj1 (semaphore_quiescent 64 Posix 1 ltac:(lia) 2 0 (at_schedule quiet_schedule) _ _ _ _ _));
    [done|done|reflexivity|apply sem_schedule_reachable|].
  intros [|[|i]] o Ho; vm_compute in Ho; congruence.
Defined.

Lemma semaphore_no_lost_wakeup_witness :
  exists ch s', sem_step 64 Posix 1 ch (OsWait (WaitOne (-1)))
    (semaphore_of (at_schedule posted_schedule)) = Ok (acquired_one (WaitOne (-1))) s'.
Proof.
  apply (semaphore_no_lost_wakeup 64 Posix 1 ltac:(lia) 2 0 (at_schedule posted_schedule) 0%nat);
    [done|done|reflexivity|apply sem_schedule_reachable| |reflexivity|reflexivity].
  intros [|[|i]] p Hp; vm_compute in Hp; simplify_eq. by eexists.
Defined.
End example.
