(* ===== verification/SystemSemaphore.v ===== *)
(** The wrapper [Semaphore] of src/lightweightsemaphore.h in its three versions
    (Windows, Mach, POSIX), over the semaphore calls of the operating system.

    The calls themselves are not part of the program: each version has a class
    of them and a class of laws, their documented behaviour.  What the system
    decides in each call (whether it blocks until a permit comes, is
    interrupted or times out) is read from a list of decisions; a call that
    would need more decisions than there are is out of fuel. *)

From S2P Require Import Prelude MachineInt Semaphore.

(** * Calls of the system *)

Record World (S D : Type) := mkWorld { system : S; decisions : list D }.
Arguments mkWorld {S D}.
Arguments system {S D}.
Arguments decisions {S D}.

Section calls.
Context {S D : Type}.

Definition system_call {A} (call : D -> S -> A * S) : M (World S D) A := fun w =>
  match decisions w with
  | [] => Fault OutOfFuel
  | d :: ds => let (a, s) := call d (system w) in Ok a (mkWorld s ds)
  end.

(** [do call while (again)]; every round takes a decision. *)
Fixpoint repeat_while {A} (fuel : nat) (call : D -> S -> A * S) (again : A -> bool) : M (World S D) A :=
  match fuel with
  | O => faults OutOfFuel
  | Datatypes.S fuel =>
      let! a := system_call call in if again a then repeat_while fuel call again else ret a
  end.
Definition do_while {A} (call : D -> S -> A * S) (again : A -> bool) : M (World S D) A :=
  let! n := gets (fun w => length (decisions w)) in repeat_while (Datatypes.S n) call again.
End calls.

(** What calls do to the permits of a semaphore ([None]: it does not exist). *)
Definition taken (v v' : option Z) : Prop := exists n, v = Some n /\ 0 < n /\ v' = Some (n - 1).
Definition added (k : Z) (v v' : option Z) : Prop := exists n, v = Some n /\ v' = Some (n + k).

(** * Windows *)

(** The state of the system is that of the one semaphore the object has a
    handle to, so calls do not name it. *)
Class WindowsCalls := {
  win_sys : Type;
  win_decision : Type;
  win_value : win_sys -> option Z;
  CreateSemaphoreW (lInitialCount lMaximumCount : Z) : win_decision -> win_sys -> loc * win_sys;
  CloseHandle : win_decision -> win_sys -> Z * win_sys;
  WaitForSingleObject (dwMilliseconds : Z) : win_decision -> win_sys -> Z * win_sys;
  ReleaseSemaphore (lReleaseCount : Z) : win_decision -> win_sys -> Z * win_sys
}.

Class WindowsLaws `{WindowsCalls} : Prop := {
  CreateSemaphoreW_ok init max d s h s' :
    CreateSemaphoreW init max d s = (h, s') -> h <> nullptr -> win_value s' = Some init;
  WaitForSingleObject_ok ms d s r s' :
    WaitForSingleObject ms d s = (r, s') ->
    if r =? 0 then taken (win_value s) (win_value s') else win_value s' = win_value s;
  WaitForSingleObject_enabled ms s n :
    win_value s = Some n -> 0 < n -> exists d s', WaitForSingleObject ms d s = (0, s');
  ReleaseSemaphore_ok n d s r s' :
    ReleaseSemaphore n d s = (r, s') ->
    if r =? 0 then win_value s' = win_value s else added n (win_value s) (win_value s')
}.

Section windows.
Context `{WindowsCalls}.
#[local] Abbreviation W := (World win_sys win_decision).

Definition windows_ctor (initialCount : Z) : M W unit :=
  cassert (0 <=? initialCount);;
  let maxLong := 2147483647 in
  let! m_hSema := system_call (CreateSemaphoreW initialCount maxLong) in
  cassert (negb (m_hSema =? nullptr)).
Definition windows_dtor : M W unit := let! _ := system_call CloseHandle in ret tt.
Definition windows_wait : M W bool :=
  let infinite := 4294967295 in
  let! r := system_call (WaitForSingleObject infinite) in ret (r =? 0).
Definition windows_try_wait : M W bool :=
  let! r := system_call (WaitForSingleObject 0) in ret (r =? 0).
Definition windows_timed_wait (usecs : Z) : M W bool :=
  let! r := system_call (WaitForSingleObject (windows_timeout usecs)) in ret (r =? 0).
Definition windows_signal (count : Z) : M W unit :=
  let! _ := do_while (ReleaseSemaphore count) (fun r => r =? 0) in ret tt.
End windows.

(** * Mach *)

Definition KERN_SUCCESS : Z := 0.

Class MachCalls := {
  mach_sys : Type;
  mach_decision : Type;
  mach_value : mach_sys -> option Z;
  semaphore_create (value : Z) : mach_decision -> mach_sys -> Z * mach_sys;
  semaphore_destroy : mach_decision -> mach_sys -> Z * mach_sys;
  semaphore_wait : mach_decision -> mach_sys -> Z * mach_sys;
  semaphore_timedwait (wait_time : timespec) : mach_decision -> mach_sys -> Z * mach_sys;
  semaphore_signal : mach_decision -> mach_sys -> Z * mach_sys
}.

Class MachLaws `{MachCalls} : Prop := {
  semaphore_create_ok v d s r s' :
    semaphore_create v d s = (r, s') -> r = KERN_SUCCESS -> mach_value s' = Some v;
  semaphore_wait_ok d s r s' :
    semaphore_wait d s = (r, s') ->
    if r =? KERN_SUCCESS then taken (mach_value s) (mach_value s') else mach_value s' = mach_value s;
  semaphore_wait_enabled s n :
    mach_value s = Some n -> 0 < n -> exists d s', semaphore_wait d s = (KERN_SUCCESS, s');
  semaphore_timedwait_enabled ts s n :
    mach_value s = Some n -> 0 < n -> exists d s', semaphore_timedwait ts d s = (KERN_SUCCESS, s');
  semaphore_timedwait_ok ts d s r s' :
    semaphore_timedwait ts d s = (r, s') ->
    if r =? KERN_SUCCESS then taken (mach_value s) (mach_value s') else mach_value s' = mach_value s;
  semaphore_signal_ok d s r s' :
    semaphore_signal d s = (r, s') ->
    if r =? KERN_SUCCESS then added 1 (mach_value s) (mach_value s') else mach_value s' = mach_value s
}.

Section mach.
Context `{MachCalls}.
#[local] Abbreviation W := (World mach_sys mach_decision).

Definition mach_ctor (initialCount : Z) : M W unit :=
  cassert (0 <=? initialCount);;
  let! rc := system_call (semaphore_create initialCount) in cassert (rc =? KERN_SUCCESS).
Definition mach_dtor : M W unit := let! _ := system_call semaphore_destroy in ret tt.
Definition mach_wait : M W bool :=
  let! rc := system_call semaphore_wait in ret (rc =? KERN_SUCCESS).
Definition mach_timed_wait (timeout_usecs : Z) : M W bool :=
  let ts := mach_timeout timeout_usecs in
  let! rc := system_call (semaphore_timedwait ts) in ret (rc =? KERN_SUCCESS).
Definition mach_try_wait : M W bool := mach_timed_wait 0.
Definition mach_signal_one : M W unit :=
  let! _ := do_while semaphore_signal (fun rc => negb (rc =? KERN_SUCCESS)) in ret tt.
Definition mach_signal (count : Z) : M W unit :=
  for_range 0 (Z.to_nat count) (fun _ => mach_signal_one).
End mach.

(** * POSIX *)

(** A call that waits returns a value and leaves one in [errno]. *)
Class PosixCalls := {
  posix_sys : Type;
  posix_decision : Type;
  posix_value : posix_sys -> option Z;
  EINTR : Z;
  ETIMEDOUT : Z;
  EINVAL : Z;
  SEM_VALUE_MAX : Z;
  (** The width of [time_t]. *)
  time_bits : Z;
  (** [CLOCK_MONOTONIC] or [CLOCK_REALTIME]. *)
  clock_gettime (monotonic : bool) : posix_sys -> timespec;
  sem_init (value : Z) : posix_decision -> posix_sys -> Z * posix_sys;
  sem_destroy : posix_decision -> posix_sys -> Z * posix_sys;
  sem_wait : posix_decision -> posix_sys -> (Z * Z) * posix_sys;
  sem_trywait : posix_decision -> posix_sys -> (Z * Z) * posix_sys;
  sem_timedwait (abs_timeout : timespec) : posix_decision -> posix_sys -> (Z * Z) * posix_sys;
  sem_clockwait (abs_timeout : timespec) : posix_decision -> posix_sys -> (Z * Z) * posix_sys;
  sem_post : posix_decision -> posix_sys -> Z * posix_sys
}.

Definition nanoseconds (t : timespec) : Z := tv_sec t * nsecs_in_1_sec + tv_nsec t.
Definition normalised (t : timespec) : Prop := 0 <= tv_nsec t < nsecs_in_1_sec.

Section posix.
(** The macro of this name. *)
Context `{PosixCalls} (MOODYCAMEL_LIGHTWEIGHTSEMAPHORE_MONOTONIC : bool).
#[local] Abbreviation W := (World posix_sys posix_decision).

Definition posix_ctor (initialCount : Z) : M W unit :=
  cassert (0 <=? initialCount);;
  let! rc := system_call (sem_init (wrap 32 initialCount)) in cassert (rc =? 0).
Definition posix_dtor : M W unit := let! _ := system_call sem_destroy in ret tt.

(** [rc == -1 && errno == EINTR]. *)
Definition interrupted (r : Z * Z) : bool := (r.1 =? -1) && (r.2 =? EINTR).

Definition posix_wait : M W bool := let! r := do_while sem_wait interrupted in ret (r.1 =? 0).
Definition posix_try_wait : M W bool := let! r := do_while sem_trywait interrupted in ret (r.1 =? 0).

(** [sem_clockwait(&m_sema, CLOCK_MONOTONIC, &ts)] or [sem_timedwait(&m_sema, &ts)]. *)
Definition sem_wait_until (ts : timespec) : posix_decision -> posix_sys -> (Z * Z) * posix_sys :=
  if MOODYCAMEL_LIGHTWEIGHTSEMAPHORE_MONOTONIC then sem_clockwait ts else sem_timedwait ts.

Definition posix_timed_wait (usecs : Z) : M W bool :=
  let! now := gets (fun w => clock_gettime MOODYCAMEL_LIGHTWEIGHTSEMAPHORE_MONOTONIC (system w)) in
  let! ts := posix_deadline time_bits now usecs in
  let! r := do_while (sem_wait_until ts) interrupted in ret (r.1 =? 0).

Definition posix_signal_one : M W unit := let! _ := do_while sem_post (fun rc => rc =? -1) in ret tt.
Definition posix_signal (count : Z) : M W unit :=
  for_range 0 (Z.to_nat count) (fun _ => posix_signal_one).
End posix.

(** A wait that fails for good has timed out, or its arguments were not valid. *)
Class PosixLaws `{PosixCalls} : Prop := {
  time_bits_ok : 32 <= time_bits;
  clock_gettime_ok monotonic s :
    normalised (clock_gettime monotonic s) /\ 0 <= tv_sec (clock_gettime monotonic s);
  sem_init_ok v d s r s' : sem_init v d s = (r, s') -> r = 0 -> posix_value s' = Some v;
  sem_wait_ok d s r s' :
    sem_wait d s = (r, s') ->
    if r.1 =? 0 then taken (posix_value s) (posix_value s') else posix_value s' = posix_value s;
  sem_wait_enabled s n :
    posix_value s = Some n -> 0 < n -> exists d e s', sem_wait d s = ((0, e), s');
  sem_wait_failed d s r s' : sem_wait d s = (r, s') -> r.1 <> 0 -> r = (-1, EINTR);
  sem_trywait_ok d s r s' :
    sem_trywait d s = (r, s') ->
    if r.1 =? 0 then taken (posix_value s) (posix_value s') else posix_value s' = posix_value s;
  sem_wait_until_ok monotonic ts d s r s' :
    sem_wait_until monotonic ts d s = (r, s') ->
    if r.1 =? 0 then taken (posix_value s) (posix_value s') else posix_value s' = posix_value s;
  sem_trywait_enabled s n :
    posix_value s = Some n -> 0 < n -> exists d e s', sem_trywait d s = ((0, e), s');
  sem_wait_until_enabled monotonic ts s n :
    posix_value s = Some n -> 0 < n -> exists d e s', sem_wait_until monotonic ts d s = ((0, e), s');
  sem_wait_until_failed monotonic ts d s r s' :
    sem_wait_until monotonic ts d s = (r, s') -> r.1 <> 0 ->
    r.1 = -1 /\
    (r.2 = EINTR \/
     r.2 = ETIMEDOUT /\ nanoseconds ts <= nanoseconds (clock_gettime monotonic s') \/
     r.2 = EINVAL /\ (posix_value s = None \/ ~ normalised ts));
  sem_post_ok d s r s' :
    sem_post d s = (r, s') ->
    r = 0 /\ added 1 (posix_value s) (posix_value s') \/
    r = -1 /\ posix_value s' = posix_value s;
  sem_post_enabled d s n :
    posix_value s = Some n -> n < SEM_VALUE_MAX -> (sem_post d s).1 = 0
}.

(** * The class of the platform *)

Section system.
Context {Win : WindowsCalls} {Mac : MachCalls} {Pos : PosixCalls} (monotonic : bool).

Definition sys (p : Platform) : Type := match p with Windows => win_sys | Mach => mach_sys | Posix => posix_sys end.
Definition decision (p : Platform) : Type :=
  match p with Windows => win_decision | Mach => mach_decision | Posix => posix_decision end.
Definition sys_value (p : Platform) : sys p -> option Z :=
  match p return sys p -> option Z with Windows => win_value | Mach => mach_value | Posix => posix_value end.

Definition Semaphore_ctor (p : Platform) (initialCount : Z) : M (World (sys p) (decision p)) unit :=
  match p return M (World (sys p) (decision p)) unit with
  | Windows => windows_ctor initialCount
  | Mach => mach_ctor initialCount
  | Posix => posix_ctor initialCount
  end.
Definition Semaphore_dtor (p : Platform) : M (World (sys p) (decision p)) unit :=
  match p return M (World (sys p) (decision p)) unit with
  | Windows => windows_dtor
  | Mach => mach_dtor
  | Posix => posix_dtor
  end.
Definition Semaphore_wait (p : Platform) : M (World (sys p) (decision p)) bool :=
  match p return M (World (sys p) (decision p)) bool with
  | Windows => windows_wait
  | Mach => mach_wait
  | Posix => posix_wait
  end.
Definition Semaphore_try_wait (p : Platform) : M (World (sys p) (decision p)) bool :=
  match p return M (World (sys p) (decision p)) bool with
  | Windows => windows_try_wait
  | Mach => mach_try_wait
  | Posix => posix_try_wait
  end.
Definition Semaphore_timed_wait (p : Platform) (usecs : Z) : M (World (sys p) (decision p)) bool :=
  match p return M (World (sys p) (decision p)) bool with
  | Windows => windows_timed_wait usecs
  | Mach => mach_timed_wait usecs
  | Posix => posix_timed_wait monotonic usecs
  end.
Definition Semaphore_signal (p : Platform) (count : Z) : M (World (sys p) (decision p)) unit :=
  match p return M (World (sys p) (decision p)) unit with
  | Windows => windows_signal count
  | Mach => mach_signal count
  | Posix => posix_signal count
  end.

(** How [LightweightSemaphore] waits: without end, or for the given time. *)
Definition wait_or_timed_wait (p : Platform) (timeout_usecs : Z) : M (World (sys p) (decision p)) bool :=
  if timeout_usecs <? 0 then Semaphore_wait p else Semaphore_timed_wait p (wrap 64 timeout_usecs).

(** ** The system as an [OsSemaphore]

    A choice is a decision of the system together with the deadline that a
    timed wait of POSIX has computed when it was called. *)
Definition acquire_call (p : Platform) (req : os_request) (deadline : timespec) :
    decision p -> sys p -> os_result * sys p :=
  match p return decision p -> sys p -> os_result * sys p with
  | Windows => fun d s =>
      let ms := match req with
                | Endless => 4294967295
                | Timed usecs => windows_timeout usecs
                | Try => 0
                end in
      let (r, s') := WaitForSingleObject ms d s in (if r =? 0 then OsSuccess else OsFailed, s')
  | Mach => fun d s =>
      let (rc, s') := match req with
                      | Endless => semaphore_wait d s
                      | Timed usecs => semaphore_timedwait (mach_timeout usecs) d s
                      | Try => semaphore_timedwait (mach_timeout 0) d s
                      end in
      (if rc =? KERN_SUCCESS then OsSuccess else OsFailed, s')
  | Posix => fun d s =>
      let (r, s') := match req with
                     | Endless => sem_wait d s
                     | Timed _ => sem_wait_until monotonic deadline d s
                     | Try => sem_trywait d s
                     end in
      (if r.1 =? 0 then OsSuccess else if decide (r = (-1, EINTR)) then OsInterrupted else OsFailed, s')
  end.

(** Mach and POSIX have no call for any other number than one. *)
Definition release_call (p : Platform) (n : Z) : decision p -> sys p -> bool * sys p :=
  match p return decision p -> sys p -> bool * sys p with
  | Windows => fun d s => let (r, s') := ReleaseSemaphore n d s in (negb (r =? 0), s')
  | Mach => fun d s =>
      if n =? 1 then let (rc, s') := semaphore_signal d s in (rc =? KERN_SUCCESS, s') else (false, s)
  | Posix => fun d s =>
      if n =? 1 then let (rc, s') := sem_post d s in (negb (rc =? -1), s') else (false, s)
  end.

Definition system_os (p : Platform) (created : sys p) : OsSemaphore := {|
  os_state := sys p;
  os_choice := decision p * timespec;
  os_init := created;
  os_value s := default 0 (sys_value p s);
  os_acquire req ch s := acquire_call p req ch.2 ch.1 s;
  os_release ch n s := release_call p n ch.1 s
|}.
End system.
