(* ===== verification/SystemSemaphoreProofs.v ===== *)
(** What the wrapper [Semaphore] does on each platform: each of its functions
    runs as the steps that [LightweightSemaphore] takes for it, the system is
    an [OsSemaphore] with its laws, and waits of POSIX with a timeout do not
    end early. *)

From S2P Require Import Prelude MachineInt Semaphore SemaphoreProofs SystemSemaphore.

(** * Loops around calls of the system *)

Section loops.
Context {S D A : Type} (call : D -> S -> A * S) (again : A -> bool).

Lemma repeat_while_step n d ds s a s' :
  call d s = (a, s') ->
  repeat_while (Datatypes.S n) call again (mkWorld s (d :: ds)) =
    if again a then repeat_while n call again (mkWorld s' ds) else Ok a (mkWorld s' ds).
Proof using Type.
  intros E. cbn [repeat_while]. unfold bind, system_call. cbn [decisions system]. rewrite E. by destruct (again a).
Qed.

(** One of the decisions ends the loop. *)
Fixpoint answered (ds : list D) (s : S) : bool :=
  match ds with
  | [] => false
  | d :: ds => let (a, s') := call d s in negb (again a) || answered ds s'
  end.

Lemma wp_do_while (I : S -> Prop) (Q : A -> World S D -> Prop) w :
  answered (decisions w) (system w) = true -> I (system w) ->
  (forall d s a s', I s -> call d s = (a, s') -> again a = true -> I s') ->
  (forall d s a s' ds, I s -> call d s = (a, s') -> again a = false -> Q a (mkWorld s' ds)) ->
  wp (do_while call again) Q nothrow w.
Proof using Type.
  destruct w as [s ds]. cbn [decisions system]. intros Hans Hs Hagain Hend.
  unfold do_while. wp_steps. cbn [decisions]. revert s Hans Hs.
  induction ds as [|d ds IH]; intros s Hans Hs; [done|]. cbn [answered length] in *.
  destruct (call d s) as [a s'] eqn:E. unfold wp. rewrite (repeat_while_step _ _ _ _ _ _ E).
  destruct (again a) eqn:Ha; [apply IH; eauto|by eapply Hend].
Qed.
End loops.

Lemma answered_ext {S D A} (call : D -> S -> A * S) (again again' : A -> bool) :
  (forall a, again a = again' a) -> forall ds s, answered call again ds s = answered call again' ds s.
Proof.
  intros H. induction ds as [|d ds IH]; intros s; cbn; [done|]. destruct (call d s) as [a s']. by rewrite H, IH.
Qed.

(** * Steps of one thread *)

Section drive.
Context (sb : Z) (platform : Platform) (m_maxSpins : Z) {os : OsSemaphore}.
Implicit Types (cs : list choice) (pc : sem_pc).

(** The thread takes a step for each choice, until its call returns. *)
Fixpoint drive cs pc : M LightweightSemaphore (sem_result + sem_pc) :=
  match cs with
  | [] => ret (inr pc)
  | c :: cs =>
      let! r := sem_step sb platform m_maxSpins c pc in
      match r with inl x => ret (inl x) | inr pc => drive cs pc end
  end.

(** Where [pc] is the point of a system call, which call it is, and what it
    leads to. *)
Definition after_wait (b : bool) (m : spin_call) : sem_result + sem_pc :=
  if b then acquired_one m else inr (AdjustLoad m).
Definition waits_at pc (m : spin_call) (req : os_request) : Prop :=
  pc = OsWait m /\ req = os_wait_of m \/ pc = AdjustTryWait m /\ req = Try.

Lemma wait_step pc m req c k s :
  waits_at pc m req ->
  sem_step sb platform m_maxSpins c pc (mkSemaphore k s) =
    let (r, s') := os_acquire req (os_decides c) s in
    Ok (match wait_returns platform r with None => inr pc | Some b => after_wait b m end) (mkSemaphore k s').
Proof using Type.
  intros [[-> ->]|[-> ->]]; cbn; unfold bind, acquire; cbn; destruct (os_acquire _ _ _) as [r s'];
    by destruct (wait_returns platform r) as [[]|].
Qed.
End drive.

Section wrapper.
Context (sb : Z) (m_maxSpins : Z).
Context {Win : WindowsCalls} {Mac : MachCalls} {Pos : PosixCalls} (monotonic : bool).
Context (p : Platform) (created : sys p).
#[local] Abbreviation os := (system_os monotonic p created).
#[local] Abbreviation W := (World (sys p) (decision p)).
#[local] Abbreviation run := (drive sb p m_maxSpins (os := os)).
#[local] Abbreviation sem := (@mkSemaphore os).
#[local] Abbreviation go := (@mkChoice os false).
Implicit Types (w : W) (s : sys p) (ds : list (decision p)) (k : Z).

(** The function runs as the steps from [pc] on do, one for each call of the
    system, and leads where they lead, for any count of the
    [LightweightSemaphore].  If the decisions run out, then because the thread
    is still at a call of the system, at one of the points [blocked]. *)
Definition runs_as_at {A} (op : M W A) (pc : sem_pc) (next : A -> sem_result + sem_pc)
    (blocked : sem_pc -> Prop) w : Prop := forall k,
  match op w with
  | Ok a w' =>
      exists cs, length (decisions w) = (length cs + length (decisions w'))%nat /\
      run cs pc (sem k (system w)) = Ok (next a) (sem k (system w'))
  | Throw _ => False
  | Fault f =>
      f = OutOfFuel /\ exists cs pc' s', length (decisions w) = length cs /\ blocked pc' /\
      run cs pc (sem k (system w)) = Ok (inr pc') (sem k s')
  end.
Definition runs_as {A} (op : M W A) pc next blocked : Prop := forall w, runs_as_at (A := A) op pc next blocked w.

(** A function that waits, at a point where [LightweightSemaphore] waits. *)
Definition waits_as (op : M W bool) (pc : sem_pc) (m : spin_call) w : Prop :=
  runs_as_at op pc (fun b => after_wait b m) (eq pc) w.

(** A function that releases [n] permits. *)
Definition posts_as (op : M W unit) (n : Z) : Prop :=
  runs_as op (SignalPost n) (fun _ => inl Signalled) (fun pc => exists n', pc = SignalPost n').

Lemma drive_app cs cs' pc pc' x x' : run cs pc x = Ok (inr pc') x' -> run (cs ++ cs') pc x = run cs' pc' x'.
Proof using Type.
  revert pc x. induction cs as [|c cs IH]; intros pc x H; [by injection H as -> ->|].
  cbn [app drive] in *. unfold bind in *. destruct (sem_step _ _ _ c pc x) as [[y|q] x1|x1|f]; try done. by apply IH.
Qed.

Lemma runs_as_seq {A B} (op : M W A) (op' : M W B) pc pc' next blocked :
  runs_as op pc (fun _ => inr pc') blocked -> runs_as op' pc' next blocked ->
  runs_as (let! _ := op in op') pc next blocked.
Proof using Type.
  intros H H' w k. unfold bind. specialize (H w k). destruct (op w) as [a w1| |f]; [|done|done].
  destruct H as (cs & Hlen & Hcs). specialize (H' w1 k). destruct (op' w1) as [b w2| |f]; [|done|].
  - destruct H' as (cs' & Hlen' & Hcs'). exists (cs ++ cs'). rewrite (drive_app _ _ _ _ _ _ Hcs), length_app. split; [lia|done].
  - destruct H' as (-> & cs' & q & s' & Hlen' & Hq & Hcs'). split; [done|]. exists (cs ++ cs'), q, s'.
    rewrite (drive_app _ _ _ _ _ _ Hcs), length_app. split; [lia|done].
Qed.

(** A loop around one call of the system, of which every round is a step. *)
Section loop.
Context {A : Type} (call : decision p -> sys p -> A * sys p) (choose : decision p -> choice (os := os)).
Context (again : A -> bool) (pc : sem_pc) (next : A -> sem_result + sem_pc) (blocked : sem_pc -> Prop).
Context (Hpc : blocked pc).
Context (Hstep : forall d s a s' k, call d s = (a, s') ->
  @sem_step sb p m_maxSpins os (choose d) pc (sem k s) = Ok (if again a then inr pc else next a) (sem k s')).

Lemma drive_one d s a s' k :
  call d s = (a, s') -> again a = false -> run [choose d] pc (sem k s) = Ok (next a) (sem k s').
Proof using Hstep.
  intros E Ha. cbn [drive]. unfold bind. rewrite (Hstep _ _ _ _ _ E), Ha. by destruct (next a).
Qed.

Lemma call_runs_as : (forall a, again a = false) -> runs_as (system_call call) pc next blocked.
Proof using Hpc Hstep.
  intros Hagain [s ds] k. unfold system_call. cbn [decisions system].
  destruct ds as [|d ds]; [split; [done|]; by exists [], pc, s|].
  destruct (call d s) as [a s'] eqn:E. exists [choose d]. split; [done|]. by apply drive_one.
Qed.

Lemma loop_runs_as : runs_as (do_while call again) pc next blocked.
Proof using Hpc Hstep.
  intros [s ds] k. unfold do_while, bind at 1, gets. cbn [decisions system].
  revert s. induction ds as [|d ds IH]; intros s; [split; [done|]; by exists [], pc, s|].
  destruct (call d s) as [a s'] eqn:E. specialize (IH s').
  cbn [length]. rewrite (repeat_while_step _ _ _ _ _ _ _ _ E). destruct (again a) eqn:Ha.
  - assert (run [choose d] pc (sem k s) = Ok (inr pc) (sem k s')) as Hd.
    { cbn [drive]. unfold bind. by rewrite (Hstep _ _ _ _ _ E), Ha. }
    destruct (repeat_while _ _ _ _) as [a' w'|w'|f]; [..|done|].
    + destruct IH as (cs & Hlen & Hcs). exists ([choose d] ++ cs). split; [cbn; lia|].
      by rewrite (drive_app _ _ _ _ _ _ Hd).
    + destruct IH as (-> & cs & q & s2 & Hlen & Hq & Hcs). split; [done|]. exists ([choose d] ++ cs), q, s2.
      split; [cbn; lia|]. by rewrite (drive_app _ _ _ _ _ _ Hd).
  - exists [choose d]. split; [done|]. by apply drive_one.
Qed.
End loop.

Lemma runs_as_ret {A B} (op : M W A) (f : A -> B) pc next blocked w :
  runs_as_at op pc (fun a => next (f a)) blocked w -> runs_as_at (let! a := op in ret (f a)) pc next blocked w.
Proof using Type. intros H k. specialize (H k). unfold bind. by destruct (op w). Qed.

Section retry.
Context {A : Type} (call : decision p -> sys p -> A * sys p) (req : os_request) (deadline : timespec).
Context (again b : A -> bool) (pc : sem_pc) (m : spin_call).
Context (Hpc : waits_at pc m req).
Context (Hcall : forall d s a s', call d s = (a, s') -> exists r,
  acquire_call monotonic p req deadline d s = (r, s') /\ wait_returns p r = if again a then None else Some (b a)).

(** One call of the system is one step. *)
Lemma call_step d s a s' k :
  call d s = (a, s') ->
  @sem_step sb p m_maxSpins os (go (d, deadline)) pc (sem k s) =
    Ok (if again a then inr pc else after_wait (b a) m) (sem k s').
Proof using Hpc Hcall.
  intros (r & E & Er)%Hcall. rewrite (wait_step _ _ _ _ m req) by done. cbn. rewrite E, Er. by destruct (again a).
Qed.

Lemma call_waits_as w : (forall a, again a = false) -> waits_as (let! a := system_call call in ret (b a)) pc m w.
Proof using Hpc Hcall.
  intros Hagain. apply runs_as_ret, (call_runs_as _ (fun d => go (d, deadline)) again); try done. apply call_step.
Qed.

Lemma retry_waits_as w : waits_as (let! a := do_while call again in ret (b a)) pc m w.
Proof using Hpc Hcall.
  apply runs_as_ret, (loop_runs_as _ (fun d => go (d, deadline))); try done. apply call_step.
Qed.
End retry.

(** ** Releasing permits *)

Definition posted (n : Z) : sem_result + sem_pc :=
  if 0 <? n - release_batch p n then inr (SignalPost (n - release_batch p n)) else inl Signalled.
Definition posting_at (pc : sem_pc) : Prop := exists n, pc = SignalPost n.

Lemma post_runs_as {A} (call : decision p -> sys p -> A * sys p) (again : A -> bool) n :
  0 < n ->
  (forall d s a s', call d s = (a, s') -> release_call p (release_batch p n) d s = (negb (again a), s')) ->
  runs_as (let! _ := do_while call again in ret tt) (SignalPost n) (fun _ => posted n) posting_at.
Proof using Type.
  intros Hn Hcall. intros w. apply (runs_as_ret _ (fun _ => tt)), (loop_runs_as _ (fun d => go (d, mkTimespec 0 0))); [by eexists|].
  intros d s a s' k E%Hcall. cbn. unfold bind, release.
  replace (calls_release p n) with true by (destruct p; cbn; lia). cbn. rewrite E. by destruct (again a).
Qed.

(** The loops of Mach and POSIX. *)
Lemma posts_one_by_one (one : M W unit) (i : Z) n :
  (forall n, 0 < n -> runs_as one (SignalPost n)
     (fun _ => if 0 <? n - 1 then inr (SignalPost (n - 1)) else inl Signalled) posting_at) ->
  0 < n -> posts_as (for_range i (Z.to_nat n) (fun _ => one)) n.
Proof using Type.
  intros Hone Hn. destruct (Z.to_nat n) as [|c] eqn:E; [lia|]. replace n with (Z.of_nat (Datatypes.S c)) by lia.
  clear Hn E. revert i. induction c as [|c IH]; intros i; cbn [for_range].
  - intros w. apply (runs_as_ret _ (fun _ => tt)). apply Hone. lia.
  - eapply runs_as_seq; [|apply IH]. specialize (Hone (Z.of_nat (Datatypes.S (Datatypes.S c))) ltac:(lia)).
    rewrite (proj2 (Z.ltb_lt _ _)) in Hone by lia. by replace (Z.of_nat (Datatypes.S c)) with (Z.of_nat (Datatypes.S (Datatypes.S c)) - 1) by lia.
Qed.
End wrapper.

(** * Deadlines *)

(** [usecs] microseconds after [now]. *)
Definition later (now : timespec) (usecs : Z) : timespec :=
  let n := nanoseconds now + usecs * 1000 in mkTimespec (n / nsecs_in_1_sec) (n mod nsecs_in_1_sec).

Lemma later_normalised now usecs : normalised (later now usecs).
Proof. unfold normalised, later, nsecs_in_1_sec. cbn [tv_nsec]. zdm. Qed.

Lemma later_nanoseconds now usecs : nanoseconds (later now usecs) = nanoseconds now + usecs * 1000.
Proof. unfold nanoseconds at 1, later, nsecs_in_1_sec. cbn [tv_sec tv_nsec]. zdm. Qed.

(** The deadline is exact if [time_t] can hold it. *)
Lemma posix_deadline_exact {S} now tb usecs (s : S) :
  0 <= usecs -> tv_sec now + usecs / usecs_in_1_sec + 1 < 2 ^ (tb - 1) ->
  normalised now /\ 0 <= tv_sec now -> 0 < tb ->
  posix_deadline tb now usecs s = Ok (later now usecs) s.
Proof.
  intros Hu Hfits [Hn Hlo] Htb.
  enough (wp (posix_deadline tb now usecs) (fun ts s' => ts = later now usecs /\ s' = s) nothrow s)
    as (ts & s' & -> & -> & ->)%wp_nothrow_ok by done.
  assert (0 <= usecs / usecs_in_1_sec) by (unfold usecs_in_1_sec; zdm).
  unfold posix_deadline. wp_step. apply wp_signed_result; rewrite to_signed_wrap_small by lia; [lia|].
  destruct (Z.leb_spec nsecs_in_1_sec (tv_nsec now + usecs mod usecs_in_1_sec * 1000)).
  - wp_step. apply wp_signed_result; [lia|]. wp_step. split; [|done].
    unfold later, nanoseconds, normalised, nsecs_in_1_sec, usecs_in_1_sec in *. f_equal; zdm.
  - wp_step. split; [|done].
    unfold later, nanoseconds, normalised, nsecs_in_1_sec, usecs_in_1_sec in *. f_equal; zdm.
Qed.

(** * The three versions *)

Section system.
Context (sb : Z) (m_maxSpins : Z).
Context {Win : WindowsCalls} {Mac : MachCalls} {Pos : PosixCalls} (monotonic : bool).
Context {WinLaws : WindowsLaws} {MacLaws : MachLaws} {PosLaws : PosixLaws}.

Lemma interrupted_spec (r : Z * Z) : interrupted r = bool_decide (r = (-1, EINTR)).
Proof using Type.
  destruct r as [x e]. unfold interrupted. cbn.
  destruct (Z.eqb_spec x (-1)), (Z.eqb_spec e EINTR); cbn; symmetry; rewrite ?bool_decide_eq_true, ?bool_decide_eq_false; congruence.
Qed.

Lemma wait_returns_posix (r : Z * Z) :
  wait_returns Posix (if r.1 =? 0 then OsSuccess else if decide (r = (-1, EINTR)) then OsInterrupted else OsFailed) =
    if interrupted r then None else Some (r.1 =? 0).
Proof using Type.
  rewrite interrupted_spec. destruct (decide (r = (-1, EINTR))) as [->|Hr].
  - by rewrite bool_decide_eq_true_2.
  - rewrite bool_decide_eq_false_2 by done. by destruct (r.1 =? 0).
Qed.

(** A call of the system that waits does what the choice of its request and
    its decision does. *)
Ltac answers :=
  intros d s a s' E; unfold acquire_call; rewrite E; eexists; split; [done|];
  by first [apply wait_returns_posix | destruct (_ =? _)].

Lemma Semaphore_wait_runs p created m w :
  timeout_of m < 0 -> waits_as sb m_maxSpins monotonic p created (Semaphore_wait p) (OsWait m) m w.
Proof using Type.
  intros Ht. assert (waits_at (OsWait m) m Endless) as Hpc.
  { left. split; [done|]. unfold os_wait_of. by rewrite (proj2 (Z.ltb_lt _ _)). }
  destruct p; cbn.
  - apply (call_waits_as _ _ _ Windows _ _ Endless (mkTimespec 0 0) (fun _ => false)); [done|answers|done].
  - apply (call_waits_as _ _ _ Mach _ _ Endless (mkTimespec 0 0) (fun _ => false)); [done|answers|done].
  - apply (retry_waits_as _ _ _ Posix _ _ Endless (mkTimespec 0 0)); [done|answers].
Qed.

(** The time at which a timed wait of POSIX is to end is a [time_t]. *)
Definition deadline_fits (p : Platform) (usecs : Z) (w : World (sys p) (decision p)) : Prop :=
  match p return World (sys p) (decision p) -> Prop with
  | Posix => fun w =>
      tv_sec (clock_gettime monotonic (system w)) + usecs / usecs_in_1_sec + 1 < 2 ^ (time_bits - 1)
  | _ => fun _ => True
  end w.

Lemma Semaphore_timed_wait_runs p created m w :
  0 <= timeout_of m -> deadline_fits p (wrap 64 (timeout_of m)) w ->
  waits_as sb m_maxSpins monotonic p created (Semaphore_timed_wait monotonic p (wrap 64 (timeout_of m))) (OsWait m) m w.
Proof using PosLaws.
  intros Ht Hfits. set (usecs := wrap 64 (timeout_of m)) in *.
  assert (waits_at (OsWait m) m (Timed usecs)) as Hpc.
  { left. split; [done|]. unfold os_wait_of. by rewrite (proj2 (Z.ltb_ge _ _)). }
  destruct p; cbn.
  - apply (call_waits_as _ _ _ Windows _ _ (Timed usecs) (mkTimespec 0 0) (fun _ => false)); [done|answers|done].
  - apply (call_waits_as _ _ _ Mach _ _ (Timed usecs) (mkTimespec 0 0) (fun _ => false)); [done|answers|done].
  - intros k. unfold posix_timed_wait, bind at 1 2, gets.
    rewrite (posix_deadline_exact (clock_gettime monotonic (system w))); 
      [|by apply wrap_range|exact Hfits|apply clock_gettime_ok|pose proof time_bits_ok; lia].
    revert k. apply (retry_waits_as _ _ _ Posix _ (sem_wait_until monotonic (later (clock_gettime monotonic (system w)) usecs))
      (Timed usecs) (later (clock_gettime monotonic (system w)) usecs)); [done|answers].
Qed.

Lemma Semaphore_try_wait_runs p created m w :
  waits_as sb m_maxSpins monotonic p created (Semaphore_try_wait p) (AdjustTryWait m) m w.
Proof using Type.
  assert (waits_at (AdjustTryWait m) m Try) as Hpc by (by right). destruct p; cbn.
  - apply (call_waits_as _ _ _ Windows _ _ Try (mkTimespec 0 0) (fun _ => false)); [done|answers|done].
  - apply (call_waits_as _ _ _ Mach _ _ Try (mkTimespec 0 0) (fun _ => false)); [done|answers|done].
  - apply (retry_waits_as _ _ _ Posix _ _ Try (mkTimespec 0 0)); [done|answers].
Qed.

Lemma Semaphore_signal_runs p created n :
  0 < n -> posts_as sb m_maxSpins monotonic p created (Semaphore_signal p n) n.
Proof using Type.
  intros Hn. destruct p; cbn.
  - pose proof (post_runs_as sb m_maxSpins monotonic Windows created (ReleaseSemaphore n) (fun r => r =? 0) n Hn) as H.
    unfold posted in H. cbn in H. rewrite Z.sub_diag in H. apply H. intros d s a s' E. cbn. by rewrite E.
  - apply posts_one_by_one; [|done]. clear n Hn. intros n Hn.
    apply (post_runs_as sb m_maxSpins monotonic Mach created semaphore_signal
      (fun rc => negb (rc =? KERN_SUCCESS)) n Hn).
    intros d s a s' E. cbn. by rewrite E, negb_involutive.
  - apply posts_one_by_one; [|done]. clear n Hn. intros n Hn.
    apply (post_runs_as sb m_maxSpins monotonic Posix created sem_post (fun rc => rc =? -1) n Hn).
    intros d s a s' E. cbn. by rewrite E.
Qed.

(** ** The laws of the system *)

Lemma taken_default v v' : taken v v' -> 0 < default 0 v /\ default 0 v' = default 0 v - 1.
Proof using Type. by intros (n & -> & ? & ->). Qed.
Lemma added_default k v v' : added k v v' -> default 0 v' = default 0 v + k.
Proof using Type. by intros (n & -> & ->). Qed.

(** A call that waits takes a permit, or changes nothing. *)
Lemma acquire_call_ok p req dl d s r s' :
  acquire_call monotonic p req dl d s = (r, s') ->
  if decide (r = OsSuccess) then taken (sys_value p s) (sys_value p s') else sys_value p s' = sys_value p s.
Proof using WinLaws MacLaws PosLaws.
  destruct p; cbn [acquire_call sys_value].
  - destruct (WaitForSingleObject _ d s) as [x t] eqn:E. intros [= <- <-].
    apply WaitForSingleObject_ok in E. by destruct (x =? 0).
  - destruct (match req with Endless => _ | _ => _ end) as [x t] eqn:E. intros [= <- <-].
    assert (if x =? KERN_SUCCESS then taken (mach_value s) (mach_value t) else mach_value t = mach_value s) as H
      by (destruct req; [by eapply semaphore_wait_ok|by eapply semaphore_timedwait_ok..]).
    by destruct (x =? KERN_SUCCESS).
  - destruct (match req with Endless => _ | _ => _ end) as [x t] eqn:E. intros [= <- <-].
    assert (if x.1 =? 0 then taken (posix_value s) (posix_value t) else posix_value t = posix_value s) as H
      by (destruct req; [by eapply sem_wait_ok|by eapply sem_wait_until_ok|by eapply sem_trywait_ok]).
    destruct (x.1 =? 0); [done|]. by destruct (decide (x = _)).
Qed.

Lemma release_call_ok p n d s b s' :
  release_call p n d s = (b, s') ->
  if b : bool then added n (sys_value p s) (sys_value p s') else sys_value p s' = sys_value p s.
Proof using WinLaws MacLaws PosLaws.
  destruct p; cbn.
  - destruct (ReleaseSemaphore n d s) as [x t] eqn:E. intros [= <- <-]. apply ReleaseSemaphore_ok in E. by destruct (x =? 0).
  - destruct (Z.eqb_spec n 1) as [->|]; [|by intros [= <- <-]]. destruct (semaphore_signal d s) as [x t] eqn:E.
    intros [= <- <-]. apply semaphore_signal_ok in E. by destruct (x =? KERN_SUCCESS).
  - destruct (Z.eqb_spec n 1) as [->|]; [|by intros [= <- <-]]. destruct (sem_post d s) as [x t] eqn:E.
    intros [= <- <-]. by apply sem_post_ok in E as [[-> ?]|[-> ?]].
Qed.

Lemma acquire_call_enabled p req dl s n :
  sys_value p s = Some n -> 0 < n -> exists d s', acquire_call monotonic p req dl d s = (OsSuccess, s').
Proof using WinLaws MacLaws PosLaws.
  intros Hs Hn. destruct p; cbn [acquire_call sys_value] in *.
  - destruct (WaitForSingleObject_enabled (match req with Endless => 4294967295 | Timed u => windows_timeout u | Try => 0 end)
      s n Hs Hn) as (d & s' & E). exists d, s'. by rewrite E.
  - assert (exists d s', match req with Endless => semaphore_wait d s | Timed u => semaphore_timedwait (mach_timeout u) d s
      | Try => semaphore_timedwait (mach_timeout 0) d s end = (KERN_SUCCESS, s')) as (d & s' & E)
      by (destruct req; eauto using semaphore_wait_enabled, semaphore_timedwait_enabled).
    exists d, s'. by rewrite E.
  - assert (exists d e s', match req with Endless => sem_wait d s | Timed _ => sem_wait_until monotonic dl d s
      | Try => sem_trywait d s end = ((0, e), s')) as (d & e & s' & E)
      by (destruct req; eauto using sem_wait_enabled, sem_wait_until_enabled, sem_trywait_enabled).
    exists d, s'. by rewrite E.
Qed.

(** A wait of POSIX without a timeout is not given up. *)
Lemma posix_reliable created : os_reliable Posix (system_os monotonic Posix created).
Proof using PosLaws.
  intros [d dl] s r s'. cbn. destruct (sem_wait d s) as [x t] eqn:E. intros [= <- <-].
  destruct (Z.eqb_spec x.1 0) as [|Hx]; [done|]. by rewrite decide_True by (by eapply sem_wait_failed).
Qed.

Lemma system_os_laws p created :
  sys_value p created = Some 0 -> OsSemaphoreLaws (system_os monotonic p created).
Proof using WinLaws MacLaws PosLaws.
  intros H0. split; cbn.
  - by rewrite H0.
  - intros req [d dl] s s' E%acquire_call_ok. by apply taken_default.
  - intros req [d dl] s r s' E%acquire_call_ok Hr. rewrite decide_False in E by done. by rewrite E.
  - intros req s Hs. destruct (sys_value p s) as [n|] eqn:E; cbn in Hs; [|lia].
    destruct (acquire_call_enabled p req (mkTimespec 0 0) s n E Hs) as (d & s' & E'). by eexists (d, _), s'.
  - intros [d req] n s s' E%release_call_ok. by apply added_default.
  - intros [d req] n s s' E%release_call_ok. by rewrite E.
Qed.

(** The constructor creates a semaphore without permits, or its assertion fails. *)
Lemma Semaphore_ctor_ok p w w' :
  Semaphore_ctor p 0 w = Ok tt w' -> sys_value p (system w') = Some 0.
Proof using WinLaws MacLaws PosLaws.
  destruct w as [s [|d ds]]; destruct p; cbn; unfold bind, system_call, cassert; cbn; try done.
  - destruct (CreateSemaphoreW _ _ d s) as [h t] eqn:E. destruct (Z.eqb_spec h nullptr); cbn; [done|].
    intros [= <-]. by eapply CreateSemaphoreW_ok.
  - destruct (semaphore_create 0 d s) as [x t] eqn:E. destruct (Z.eqb_spec x KERN_SUCCESS); cbn; [|done].
    intros [= <-]. by eapply semaphore_create_ok.
  - destruct (sem_init _ d s) as [x t] eqn:E. destruct (Z.eqb_spec x 0); cbn; [|done].
    intros [= <-]. by eapply sem_init_ok.
Qed.

(** C17: On Windows, Mach and POSIX, once the constructor has created the
    system's semaphore, the system behaves as [LightweightSemaphore] relies on,
    and the functions of the wrapper [Semaphore] -- [wait], [timed_wait] (with a
    deadline that [time_t] can hold), [try_wait] and [signal], with their loops
    around calls that were interrupted or failed -- run as the steps that
    [LightweightSemaphore] is modelled to take in them, one for each call of the
    system.  A [wait] of POSIX returns only with a permit. *)
Theorem system_semaphore_correct p w0 w :
  Semaphore_ctor p 0 w0 = Ok tt w ->
  OsSemaphoreLaws (system_os monotonic p (system w)) /\
  (p = Posix -> os_reliable p (system_os monotonic p (system w))) /\
  forall m n w', let created := system w in
    (0 <= timeout_of m -> deadline_fits p (wrap 64 (timeout_of m)) w') ->
    waits_as sb m_maxSpins monotonic p created (wait_or_timed_wait monotonic p (timeout_of m)) (OsWait m) m w' /\
    waits_as sb m_maxSpins monotonic p created (Semaphore_try_wait p) (AdjustTryWait m) m w' /\
    (0 < n -> posts_as sb m_maxSpins monotonic p created (Semaphore_signal p n) n).
Proof using WinLaws MacLaws PosLaws.
  intros Hw%Semaphore_ctor_ok. split; [by apply system_os_laws|].
  split; [intros Ep; subst p; apply posix_reliable|]. intros m n w' created Hfits. split; [|split].
  - unfold wait_or_timed_wait. destruct (Z.ltb_spec (timeout_of m) 0) as [Ht|Ht];
      [by apply Semaphore_wait_runs|by apply Semaphore_timed_wait_runs; auto].
  - apply Semaphore_try_wait_runs.
  - apply Semaphore_signal_runs.
Qed.
End system.

(** * POSIX: timeouts and overflow *)

Section posix.
Context {Pos : PosixCalls} {PosLaws : PosixLaws} (monotonic : bool).
#[local] Abbreviation W := (World posix_sys posix_decision).
Implicit Types (w : W) (s : posix_sys).

Lemma interrupted_not_zero (r : Z * Z) : interrupted r = true -> (r.1 =? 0) = false.
Proof using Type. unfold interrupted. lia. Qed.

(** C34: A [timed_wait] of POSIX, on either clock, whose end [time_t] can
    represent, returns as soon as the system answers one of its calls otherwise
    than with an interruption.  It returns [true] having taken one permit, or
    [false] having taken none, and then at least [usecs] microseconds have
    passed on its clock since it was called, however often it was interrupted. *)
Theorem posix_timed_wait_correct usecs w :
  let clock s := clock_gettime monotonic s in
  0 <= usecs < 2 ^ 64 -> tv_sec (clock (system w)) + usecs / usecs_in_1_sec + 1 < 2 ^ (time_bits - 1) ->
  is_Some (posix_value (system w)) ->
  answered (sem_wait_until monotonic (later (clock (system w)) usecs)) (fun r => bool_decide (r = (-1, EINTR)))
    (decisions w) (system w) = true ->
  exists b w', posix_timed_wait monotonic usecs w = Ok b w' /\
    if b : bool then taken (posix_value (system w)) (posix_value (system w'))
    else posix_value (system w') = posix_value (system w) /\
         nanoseconds (clock (system w)) + usecs * 1000 <= nanoseconds (clock (system w')).
Proof using PosLaws.
  intros clock Hu Hfits Hv Hans. subst clock. pose proof time_bits_ok.
  set (ts := later (clock_gettime monotonic (system w)) usecs) in *.
  pose proof (later_normalised (clock_gettime monotonic (system w)) usecs) as Hnorm. fold ts in Hnorm.
  pose proof (later_nanoseconds (clock_gettime monotonic (system w)) usecs) as Hts. fold ts in Hts.
  rewrite <- (answered_ext _ _ _ interrupted_spec) in Hans.
  apply wp_nothrow_ok. unfold posix_timed_wait. wp_step. wp_step. wp_step.
  eapply wp_ok; [apply (posix_deadline_exact (clock_gettime monotonic (system w))); [lia|done|apply clock_gettime_ok|lia]|].
  cbn beta. fold ts. wp_step.
  apply (wp_do_while _ _ (fun s => posix_value s = posix_value (system w))); [done|done|..].
  - intros d s r s' Hs E Hr. apply sem_wait_until_ok in E. rewrite interrupted_not_zero in E by done. congruence.
  - intros d s r s' ds Hs E Hr. wp_steps. cbn [system]. pose proof (sem_wait_until_ok _ _ _ _ _ _ E) as Hok.
    destruct (Z.eqb_spec r.1 0) as [|Hr1]; [by rewrite <- Hs|].
    split; [congruence|]. unfold interrupted in Hr.
    apply sem_wait_until_failed in E as (? & [|[[_ Hend]|[_ [Hnone|]]]]); [lia|lia| |done|done].
    rewrite Hs in Hnone. destruct Hv as [n Hv]. congruence.
Qed.

(** [sem_post] fails only where the value cannot grow: below that, [signal]
    makes one call for each permit. *)
Lemma posix_signal_one_spec n w :
  posix_value (system w) = Some n -> n < SEM_VALUE_MAX -> decisions w <> [] ->
  wp posix_signal_one (fun _ w' => posix_value (system w') = Some (n + 1) /\
    length (decisions w) = Datatypes.S (length (decisions w'))) nothrow w.
Proof using PosLaws.
  destruct w as [s [|d ds]]; [done|]. intros Hs Hn _. cbn [system decisions] in *.
  unfold posix_signal_one, do_while. wp_steps. cbn [decisions length].
  destruct (sem_post d s) as [r s'] eqn:E. unfold wp. rewrite (repeat_while_step _ _ _ _ _ _ _ _ E).
  pose proof (sem_post_enabled d s n Hs Hn) as Hr. rewrite E in Hr. cbn in Hr. subst r.
  apply sem_post_ok in E as [[_ (n' & E1 & E2)]|[]]; [|done]. cbn. rewrite E2. split; [congruence|done].
Qed.

Lemma posix_signal_spec count n w :
  posix_value (system w) = Some n -> 0 <= count -> n + count <= SEM_VALUE_MAX ->
  (Z.to_nat count <= length (decisions w))%nat ->
  wp (posix_signal count) (fun _ w' => posix_value (system w') = Some (n + count)) nothrow w.
Proof using PosLaws.
  intros Hs Hc Hmax Hlen. unfold posix_signal.
  eapply wp_mono; [apply (wp_for_range (fun i w' => posix_value (system w') = Some (n + i) /\
    (Z.to_nat (count - i) <= length (decisions w'))%nat)); [split; [by rewrite Z.add_0_r|by rewrite Z.sub_0_r]|]| |done].
  - intros i w' Hi [Hi1 Hi2]. eapply wp_mono; [apply (posix_signal_one_spec (n + i)); [done|lia|]| |done].
    + intros E. rewrite E in Hi2. cbn in Hi2. lia.
    + intros _ w2 [E1 E2]. split; [rewrite E1; f_equal; lia|lia].
  - intros _ w' [E _]. rewrite E. f_equal. lia.
Qed.
End posix.

(** * Windows: timeouts that are not what they say *)

(** The milliseconds wrap around and are rounded down: a timed wait of
    2^32 milliseconds, or of less than one, does not wait, and one of
    2^32 - 1 milliseconds waits without end. *)
Theorem windows_timed_wait_wraps `{WindowsCalls} :
  windows_timed_wait (2 ^ 32 * 1000) = windows_try_wait /\
  windows_timed_wait ((2 ^ 32 - 1) * 1000) = windows_wait /\
  windows_timed_wait 999 = windows_try_wait.
Proof. done. Qed.

(** * Witnesses: a system with a clock in nanoseconds *)

Section example.
(** What the system decides; [Expire] is the timeout of a timed wait. *)
Inductive served := Serve | Interrupt | Expire.

Definition clock_of (t : Z) : timespec := mkTimespec (t / nsecs_in_1_sec) (t mod nsecs_in_1_sec).

Definition serve (s : option Z * Z) : option (option Z * Z) :=
  match s.1 with Some n => if 0 <? n then Some (Some (n - 1), s.2) else None | None => None end.

Definition serve_or {A} (ok failed : A) (d : served) (s : option Z * Z) : A * (option Z * Z) :=
  match d, serve s with Serve, Some s' => (ok, s') | _, _ => (failed, s) end.

Definition timed_serve (ts : timespec) (d : served) (s : option Z * Z) : (Z * Z) * (option Z * Z) :=
  match d with
  | Expire =>
      if decide (0 <= tv_nsec ts < nsecs_in_1_sec)
      then ((-1, 110), (s.1, Z.max s.2 (nanoseconds ts))) else ((-1, 22), s)
  | _ => serve_or (0, 0) (-1, 4) d s
  end.

Definition release_up_to (max n : Z) (s : option Z * Z) : bool * (option Z * Z) :=
  match s.1 with
  | Some v => if v + n <=? max then (true, (Some (v + n), s.2)) else (false, s)
  | None => (false, s)
  end.

#[local] Instance windows_example : WindowsCalls := {|
  win_sys := option Z * Z; win_decision := served; win_value := fst;
  CreateSemaphoreW init max d s := (1, (Some init, s.2));
  CloseHandle d s := (1, (None, s.2));
  WaitForSingleObject ms := serve_or 0 258;
  ReleaseSemaphore n d s := let (b, s') := release_up_to 2147483647 n s in (Z.b2z b, s')
|}.
#[local] Instance mach_example : MachCalls := {|
  mach_sys := option Z * Z; mach_decision := served; mach_value := fst;
  semaphore_create v d s := (KERN_SUCCESS, (Some v, s.2));
  semaphore_destroy d s := (KERN_SUCCESS, (None, s.2));
  semaphore_wait := serve_or KERN_SUCCESS 14;
  semaphore_timedwait ts := serve_or KERN_SUCCESS 49;
  semaphore_signal d s := let (b, s') := release_up_to 2147483647 1 s in (if b then KERN_SUCCESS else 5, s')
|}.
#[local] Instance posix_example : PosixCalls := {|
  posix_sys := option Z * Z; posix_decision := served; posix_value := fst;
  EINTR := 4; ETIMEDOUT := 110; EINVAL := 22; SEM_VALUE_MAX := 2147483647; time_bits := 64;
  clock_gettime _ s := clock_of (Z.max 0 s.2);
  sem_init v d s := (0, (Some v, s.2));
  sem_destroy d s := (0, (None, s.2));
  sem_wait := serve_or (0, 0) (-1, 4);
  sem_trywait := serve_or (0, 0) (-1, 11);
  sem_timedwait := timed_serve;
  sem_clockwait := timed_serve;
  sem_post d s := let (b, s') := release_up_to 2147483647 1 s in (if b then 0 else -1, s')
|}.

Lemma serve_taken s s' : serve s = Some s' -> taken s.1 s'.1.
Proof.
  destruct s as [[n|] t]; unfold serve; cbn; [|done]. destruct (Z.ltb_spec 0 n); [|done]. intros [= <-]. by exists n.
Qed.

Lemma serve_or_ok {A} (ok failed : A) (is_ok : A -> bool) d s r s' :
  is_ok ok = true -> is_ok failed = false -> serve_or ok failed d s = (r, s') ->
  if is_ok r then taken s.1 s'.1 else s'.1 = s.1.
Proof.
  intros H1 H2. unfold serve_or. destruct (serve s) as [t|] eqn:E, d; intros [= <- <-]; rewrite ?H1, ?H2; try done.
  by apply serve_taken.
Qed.

Lemma serve_or_enabled {A} (ok failed : A) s n : s.1 = Some n -> 0 < n -> exists d s', serve_or ok failed d s = (ok, s').
Proof. intros Hs Hn%Z.ltb_lt. unfold serve_or, serve. exists Serve. rewrite Hs, Hn. by eexists. Qed.

Lemma release_up_to_ok max n s b s' :
  release_up_to max n s = (b, s') -> if b : bool then added n s.1 s'.1 else s'.1 = s.1.
Proof.
  destruct s as [[v|] t]; unfold release_up_to; cbn; [|by intros [= <- <-]].
  destruct (Z.leb_spec (v + n) max); intros [= <- <-]; [by exists v|done].
Qed.

#[local] Instance windows_example_laws : WindowsLaws.
Proof.
  split; cbn.
  - by intros init max d s h s' [= <- <-].
  - intros ms d s r s'. by apply (serve_or_ok 0 258 (fun r => r =? 0)).
  - intros ms. apply serve_or_enabled.
  - intros n d s r s'. destruct (release_up_to _ _ _) as [b t] eqn:E. apply release_up_to_ok in E.
    intros [= <- <-]. by destruct b.
Qed.

#[local] Instance mach_example_laws : MachLaws.
Proof.
  split; cbn.
  - by intros v d s r s' [= <- <-].
  - intros d s r s'. by apply (serve_or_ok 0 14 (fun r => r =? 0)).
  - apply serve_or_enabled.
  - intros ts. apply serve_or_enabled.
  - intros ts d s r s'. by apply (serve_or_ok 0 49 (fun r => r =? 0)).
  - intros d s r s'. destruct (release_up_to _ _ _) as [b t] eqn:E. apply release_up_to_ok in E.
    intros [= <- <-]. by destruct b.
Qed.

Lemma nanoseconds_clock_of t : nanoseconds (clock_of t) = t.
Proof. unfold nanoseconds, clock_of, nsecs_in_1_sec. cbn [tv_sec tv_nsec]. zdm. Qed.

Lemma timed_serve_ok ts d s r s' :
  timed_serve ts d s = (r, s') -> if r.1 =? 0 then taken s.1 s'.1 else s'.1 = s.1.
Proof.
  destruct d; [apply (serve_or_ok _ _ (fun r => r.1 =? 0)); done..|]. unfold timed_serve.
  destruct (decide _); by intros [= <- <-].
Qed.

#[local] Instance posix_example_laws : PosixLaws.
Proof.
  split; cbn.
  - done.
  - intros _ s. unfold normalised, clock_of, nsecs_in_1_sec. cbn [tv_sec tv_nsec]. zdm.
  - by intros v d s r s' [= <- <-].
  - intros d s r s'. by apply (serve_or_ok (0, 0) (-1, 4) (fun r => r.1 =? 0)).
  - intros s n Hs Hn. destruct (serve_or_enabled (0, 0) (-1, 4) s n Hs Hn) as (d & s' & E). by exists d, 0, s'.
  - intros d s r s'. unfold serve_or. destruct d, (serve s); by intros [= <- <-].
  - intros d s r s'. by apply (serve_or_ok (0, 0) (-1, 11) (fun r => r.1 =? 0)).
  - intros [] ts d s r s'; apply timed_serve_ok.
  - intros s n Hs Hn. destruct (serve_or_enabled (0, 0) (-1, 11) s n Hs Hn) as (d & s' & E). by exists d, 0, s'.
  - intros monotonic ts [v t] n Hs Hn%Z.ltb_lt. cbn in Hs. subst v. exists Serve, 0, (Some (n - 1), t).
    destruct monotonic; cbn; unfold serve_or, serve; cbn; by rewrite Hn.
  - intros monotonic ts d s r s' E Hr.
    assert (timed_serve ts d s = (r, s')) as E' by (by destruct monotonic). clear E. revert E'.
    rewrite nanoseconds_clock_of. unfold timed_serve, serve_or.
    destruct d, (serve s); try (intros [= <- <-]; cbn in *; by auto); destruct (decide _); intros [= <- <-]; cbn;
      (split; [done|right]); [left; lia|right; auto|left; lia|right; auto].
  - intros d s r s'. destruct (release_up_to _ _ _) as [b t] eqn:E. apply release_up_to_ok in E.
    intros [= <- <-]. destruct b; auto.
  - intros d s n Hs Hn. unfold release_up_to. rewrite Hs. by rewrite (proj2 (Z.leb_le _ _)) by lia.
Qed.

(** A wait that is interrupted twice and expires, and one that is served. *)
Example timed_waits : 
  let w n := mkWorld (Some n, 1999999999) [Interrupt; Interrupt; Expire; Serve] in
  posix_timed_wait true 2000001 (w 1) = Ok false (mkWorld (Some 1, 4000000999) [Serve]) /\
  posix_timed_wait true 0 (mkWorld (Some 1, 0) [Interrupt; Serve]) = Ok true (mkWorld (Some 0, 0) []) /\
  Semaphore_ctor Posix 0 (mkWorld (None, 0) [Serve]) = Ok tt (mkWorld (Some 0, 0) []) /\
  Semaphore_signal Posix 2 (mkWorld (Some 0, 0) [Serve; Serve]) = Ok tt (mkWorld (Some 2, 0) []).
Proof. by vm_compute. Qed.

Lemma posix_timed_wait_correct_witness :
  exists b w', posix_timed_wait true 2000001 (mkWorld (Some 1, 1999999999) [Interrupt; Expire]) = Ok b w' /\
    if b : bool then taken (Some 1) (posix_value (system w'))
    else posix_value (system w') = Some 1 /\
         1999999999 + 2000001 * 1000 <= nanoseconds (clock_gettime true (system w')).
Proof.
  apply (posix_timed_wait_correct (Pos := posix_example) true 2000001 (mkWorld (Some 1, 1999999999) [Interrupt; Expire]));
    [done|reflexivity|by eexists|reflexivity].
Defined.

Lemma system_semaphore_correct_witness :
  let created := (Some 0, 0) : sys Posix in
  OsSemaphoreLaws (system_os true Posix created) /\
  (Posix = Posix -> os_reliable Posix (system_os true Posix created)) /\
  forall m n w',
    (0 <= timeout_of m -> deadline_fits true Posix (wrap 64 (timeout_of m)) w') ->
    waits_as 64 10000 true Posix created (wait_or_timed_wait true Posix (timeout_of m)) (OsWait m) m w' /\
    waits_as 64 10000 true Posix created (Semaphore_try_wait Posix) (AdjustTryWait m) m w' /\
    (0 < n -> posts_as 64 10000 true Posix created (Semaphore_signal Posix n) n).
Proof.
  apply (system_semaphore_correct (Win := windows_example) (Mac := mach_example) (Pos := posix_example) 64 10000 true Posix (mkWorld (None, 0) [Serve; Serve]) (mkWorld (Some 0, 0) [Serve])).
  reflexivity.
Defined.
End example.
