(* ===== verification/ThreadExit.v ===== *)
(** Thread identifiers, and [ThreadExitListener] and [ThreadExitNotifier] of
    src/concurrentqueue.h: the list of listeners of each thread, whose
    callbacks run when the thread exits. *)

From S2P Require Import Prelude MachineInt.

(** * Thread identifiers *)

(** The identifier of a thread is a number; two values are reserved to mark
    hash table slots that are free, or that were freed by a thread that
    exited. *)
Inductive ThreadIdPlatform := Relacy | Win32 | ThreadLocalAddress.

Definition invalid_thread_id (p : ThreadIdPlatform) : Z :=
  match p with Relacy => 0xFFFFFFFF | Win32 => 0 | ThreadLocalAddress => 0 end.
Definition invalid_thread_id2 (p : ThreadIdPlatform) : Z :=
  match p with Relacy => 0xFFFFFFFE | Win32 => 0xFFFFFFFF | ThreadLocalAddress => 1 end.

(** [thread_id_converter::prehash] *)
Definition prehash (x : Z) : Z := x.

Lemma invalid_thread_ids_differ p : invalid_thread_id p <> invalid_thread_id2 p.
Proof. by destruct p. Qed.

(** * State *)

(** The notifier of a thread is its thread-local [instance()], named by the
    thread's identifier; [chain] is the notifier a listener is subscribed to. *)
Record ThreadExitListener := mkListener {
  userData : loc;
  listener_next : loc;
  chain : option Z
}.

Record ExitState := mkExit {
  notifier_tail : gmap Z loc;
  listeners : gmap loc ThreadExitListener
}.

Definition set_tails x (s : ExitState) : ExitState := mkExit x (listeners s).
Definition set_listeners x (s : ExitState) : ExitState := mkExit (notifier_tail s) x.

(** [instance().tail]; the instance is created, with an empty list, by its
    first use. *)
Definition tail_of (tid : Z) : M ExitState loc :=
  gets (fun s => default nullptr (notifier_tail s !! tid)).
Definition set_tail_of (tid : Z) (l : loc) : M ExitState unit :=
  modify (fun s => set_tails (<[tid := l]> (notifier_tail s)) s).
Definition listener (l : loc) : M ExitState ThreadExitListener :=
  let! ls := gets listeners in deref NullDeref (ls !! l).
Definition set_listener (l : loc) (x : ThreadExitListener) : M ExitState unit :=
  listener l;; modify (fun s => set_listeners (<[l := x]> (listeners s)) s).

Definition store_listener_next (l n : loc) : M ExitState unit :=
  let! x := listener l in set_listener l (mkListener (userData x) n (chain x)).
Definition store_chain (l : loc) (c : option Z) : M ExitState unit :=
  let! x := listener l in set_listener l (mkListener (userData x) (listener_next x) c).

(** * Operations *)

(** The calls hold the global mutex. *)
Definition subscribe (tid : Z) (l : loc) : M ExitState unit :=
  let! t := tail_of tid in
  store_listener_next l t;;
  store_chain l (Some tid);;
  set_tail_of tid l.

(** [*prev = next]: [prev] points to the tail of the notifier, or to the
    [next] field of a listener. *)
Definition store_link (tid : Z) (prev : option loc) (n : loc) : M ExitState unit :=
  match prev with None => set_tail_of tid n | Some l => store_listener_next l n end.

Fixpoint unlink (fuel : nat) (tid : Z) (prev : option loc) (ptr l : loc) : M ExitState unit :=
  if ptr =? nullptr then ret tt
  else
    match fuel with
    | O => faults OutOfFuel
    | S fuel =>
        let! x := listener ptr in
        if ptr =? l then store_link tid prev (listener_next x)
        else unlink fuel tid (Some ptr) (listener_next x) l
    end.

Definition unsubscribe (l : loc) : M ExitState unit :=
  let! x := listener l in
  match chain x with
  | None => ret tt
  | Some tid =>
      store_chain l None;;
      let! t := tail_of tid in
      let! n := gets (fun s => size (listeners s)) in
      unlink n tid None t l
  end.

(** [~ThreadExitNotifier] of the thread [tid], in a program whose state [S]
    has the notifiers as a component. *)
Section exit.
Context {S : Type} (view : S -> ExitState) (set : ExitState -> S -> S).
Context (callback : loc -> M S unit).

Fixpoint notify (fuel : nat) (ptr : loc) : M S unit :=
  if ptr =? nullptr then ret tt
  else
    match fuel with
    | O => faults OutOfFuel
    | Datatypes.S fuel =>
        zoom view set (store_chain ptr None);;
        let! x := zoom view set (listener ptr) in
        callback (userData x);;
        let! x := zoom view set (listener ptr) in
        notify fuel (listener_next x)
    end.

Definition ThreadExitNotifier_dtor (tid : Z) : M S unit :=
  let! t := zoom view set (tail_of tid) in
  let! n := gets (fun s => size (listeners (view s))) in
  notify n t;;
  zoom view set (modify (fun s => set_tails (delete tid (notifier_tail s)) s)).
End exit.

(** * Specification

    [listener_chain s p l]: the list of listeners that starts at [p] is [l]. *)

Abbreviation listener_chain := (linked listener_next).

(** The listeners of every thread form disjoint duplicate-free lists, and the
    [chain] of a listener says in whose list it is. *)
Record exit_inv (s : ExitState) (L : Z -> list loc) : Prop := {
  ex_chain tid : listener_chain (listeners s) (default nullptr (notifier_tail s !! tid)) (L tid);
  ex_nodup tid : NoDup (L tid);
  ex_member tid l : l ∈ L tid <-> exists r, listeners s !! l = Some r /\ chain r = Some tid;
  ex_not_null : listeners s !! nullptr = None
}.

Section spec.
Implicit Types (s : ExitState) (L : Z -> list loc).

Lemma wp_listener l x (Q : ThreadExitListener -> ExitState -> Prop) E s :
  listeners s !! l = Some x -> Q x s -> wp (listener l) Q E s.
Proof. intros H HQ. unfold listener. wp_steps; done. Qed.

Lemma wp_set_listener l x (Q : unit -> ExitState -> Prop) E s :
  is_Some (listeners s !! l) ->
  Q tt (set_listeners (<[l := x]> (listeners s)) s) -> wp (set_listener l x) Q E s.
Proof. intros [y H] HQ. unfold set_listener. wp_step. eapply wp_listener; [done|]. by wp_steps. Qed.

(** The list without [l]. *)
Definition without (l : loc) (ks : list loc) : list loc := filter (fun x => x <> l) ks.

Lemma without_id l ks : l ∉ ks -> without l ks = ks.
Proof.
  unfold without. induction ks as [|x ks IH]; intros H; [done|].
  rewrite filter_cons, decide_True by (by intros ->; apply H; left).
  rewrite IH; [done|]. intros ?. apply H. by right.
Qed.

Definition update (L : Z -> list loc) (tid : Z) (ks : list loc) : Z -> list loc :=
  fun t => if decide (t = tid) then ks else L t.

(** [unlink] removes the listener from the list that starts at [ptr]. *)
Lemma unlink_spec fuel tid l ks prev ptr s :
  (length ks <= fuel)%nat -> NoDup ks -> l ∈ ks ->
  listener_chain (listeners s) ptr ks -> (forall p, prev = Some p -> p ∉ ks) ->
  is_Some (from_option (fun p => listeners s !! p) (Some (mkListener 0 0 None)) prev) ->
  wp (unlink fuel tid prev ptr l) (fun _ s' => exists ptr',
    listener_chain (listeners s') ptr' (without l ks) /\
    match prev with
    | None => notifier_tail s' = <[tid := ptr']> (notifier_tail s) \/
              notifier_tail s' = notifier_tail s /\ ptr' = ptr
    | Some p => notifier_tail s' = notifier_tail s
    end /\
    (forall x r, listeners s !! x = Some r -> exists r', listeners s' !! x = Some r' /\
       userData r' = userData r /\ chain r' = chain r /\
       (Some x = prev -> listener_next r' = ptr' \/ ptr' = ptr /\ listener_next r' = listener_next r) /\
       (x ∉ ks -> Some x <> prev -> r' = r)) /\
    (forall x, listeners s !! x = None -> listeners s' !! x = None)) nothrow s.
Proof.
  revert prev ptr fuel s. induction ks as [|x ks IH]; intros prev ptr fuel s Hf Hnd Hl Hc Hp Hprev.
  { by apply not_elem_of_nil in Hl. }
  destruct Hc as (-> & Hx & r & Hr & Hc). apply NoDup_cons in Hnd as [Hxn Hnd].
  destruct fuel as [|fuel]; [cbn in Hf; lia|]. cbn [unlink length] in *.
  rewrite (proj2 (Z.eqb_neq _ _)) by done. wp_step. eapply wp_listener; [done|].
  destruct (Z.eqb_spec x l) as [->|Hne].
  - assert (without l (l :: ks) = ks) as ->.
    { unfold without. rewrite filter_cons, decide_False by tauto. by apply without_id. }
    destruct prev as [p|]; cbn [store_link from_option] in *.
    + unfold store_listener_next. destruct Hprev as [rp Hrp]. wp_step. eapply wp_listener; [done|].
      apply wp_set_listener; [done|]. cbn. exists (listener_next r).
      assert (p ∉ l :: ks) as Hpn by (by apply Hp). split; [|split; [done|split]].
      * eapply linked_frame; [done|]. intros y ry Hy Hry. exists ry. split; [|done].
        rewrite lookup_insert_ne; [done|]. intros ->. apply Hpn. by right.
      * intros y ry Hy. destruct (decide (p = y)) as [->|Hpy].
        -- rewrite lookup_insert_eq. simplify_eq. eexists. split; [done|]. cbn.
           split_and!; try done. by left.
        -- rewrite lookup_insert_ne by done. exists ry. split_and!; try done.
           intros [= ->]. done.
      * intros y Hy. rewrite lookup_insert_ne; [done|]. intros ->. congruence.
    + unfold set_tail_of. wp_step. exists (listener_next r). split; [done|]. split; [by left|].
      split; [|done]. intros y ry Hy. exists ry. by split_and!.
  - apply elem_of_cons in Hl as [->|Hl]; [done|].
    assert (without l (x :: ks) = x :: without l ks) as ->.
    { unfold without. by rewrite filter_cons, decide_True. }
    eapply wp_mono; [eapply (IH (Some x)); [lia|done|done|done|by intros p [= <-]|done]| |done].
    cbn beta. intros _ s' (ptr' & Hc' & Ht & Hrec & Hnone).
    destruct (Hrec _ _ Hr) as (rx & Hrx & Hu & Hch & Hnx & _).
    exists x. split.
    { cbn. split; [done|]. split; [done|]. exists rx. split; [done|].
      destruct Hnx as [->|[-> ->]]; done. }
    split; [destruct prev; [done|by right]|]. split; [|done].
    intros y ry Hy. destruct (Hrec _ _ Hy) as (ry' & Hy' & Huy & Hcy & Hny & Hoy).
    exists ry'. split_and!; try done.
    + intros <-. right. split; [done|]. rewrite Hoy; [done| |]; specialize (Hp y eq_refl);
        rewrite not_elem_of_cons in Hp; [tauto|]. intros [= ->]. tauto.
    + intros [??]%not_elem_of_cons Hyp. apply Hoy; [done|]. by intros [= ->].
Qed.

Lemma ex_is_Some s L tid l : exit_inv s L -> l ∈ L tid -> is_Some (listeners s !! l).
Proof. intros H (r & Hr & _)%(ex_member _ _ H). eauto. Qed.

(** The conditions that do not depend on the links. *)
Lemma exit_inv_intro s' L' :
  (forall tid, listener_chain (listeners s') (default nullptr (notifier_tail s' !! tid)) (L' tid)) ->
  (forall tid, NoDup (L' tid)) ->
  (forall tid l, l ∈ L' tid <-> exists r, listeners s' !! l = Some r /\ chain r = Some tid) ->
  listeners s' !! nullptr = None -> exit_inv s' L'.
Proof. by split. Qed.

Lemma exit_inv_ext s L L' : exit_inv s L -> (forall t, L t = L' t) -> exit_inv s L'.
Proof. intros [Hc Hnd Hm Hnull] E. split; [| | |done]; intros; rewrite <- E; auto. Qed.

(** Writing a listener that is in no list. *)
Lemma exit_inv_fresh s L l u n :
  exit_inv s L -> (forall t, l ∉ L t) -> l <> nullptr ->
  exit_inv (set_listeners (<[l := mkListener u n None]> (listeners s)) s) L.
Proof.
  intros [Hc Hnd Hm Hnull] Hl Hnn. apply exit_inv_intro; cbn; [|done| |by rewrite lookup_insert_ne].
  - intros t. eapply linked_frame; [apply Hc|]. intros x r Hx Hr. exists r.
    rewrite lookup_insert_ne; [done|]. intros ->. by apply (Hl t).
  - intros t x. destruct (decide (x = l)) as [->|Hne]; [|rewrite lookup_insert_ne by done; apply Hm].
    rewrite lookup_insert_eq. split; [by intros ?%Hl|]. by intros (r & [= <-] & ?).
Qed.

Lemma subscribe_spec s L tid l r :
  exit_inv s L -> listeners s !! l = Some r -> chain r = None ->
  wp (subscribe tid l) (fun _ s' => exit_inv s' (update L tid (l :: L tid)) /\
    forall x rx, listeners s !! x = Some rx -> exists rx', listeners s' !! x = Some rx' /\ userData rx' = userData rx) nothrow s.
Proof.
  intros [Hc Hnd Hm Hnull] Hr Hch.
  assert (forall t, l ∉ L t) as Hnew.
  { intros t (r' & Hr' & E)%Hm. congruence. }
  unfold subscribe, tail_of, store_listener_next, store_chain, set_tail_of. wp_step. wp_step.
  wp_step. wp_step. eapply wp_listener; [done|]. apply wp_set_listener; [eauto|]. wp_step. wp_step.
  eapply wp_listener; [cbn; apply lookup_insert_eq|].
  apply wp_set_listener; [cbn; rewrite lookup_insert_eq; eauto|]. wp_step. cbn.
  rewrite insert_insert_eq. set (n := default nullptr (notifier_tail s !! tid)).
  assert (forall p k, listener_chain (listeners s) p k -> l ∉ k ->
    listener_chain (<[l := mkListener (userData r) n (Some tid)]> (listeners s)) p k) as Hframe.
  { intros p k Hk Hl. eapply linked_frame; [done|]. intros x rx Hx Hrx. exists rx.
    rewrite lookup_insert_ne; [done|]. by intros ->. }
  split.
  2:{ cbn. intros x rx Hx. destruct (decide (x = l)) as [->|Hne]; [|by rewrite lookup_insert_ne; eauto].
      rewrite lookup_insert_eq. eexists. split; [done|]. cbn. congruence. }
  apply exit_inv_intro; cbn.
  - intros t. unfold update. destruct (decide (t = tid)) as [->|Hne].
    + rewrite lookup_insert_eq. cbn. split; [done|]. split; [intros ->; congruence|].
      eexists. rewrite lookup_insert_eq. split; [done|]. cbn. apply Hframe; [apply Hc|apply Hnew].
    + rewrite lookup_insert_ne by done. apply Hframe; [apply Hc|apply Hnew].
  - intros t. unfold update. case_decide; [|done]. apply NoDup_cons. split; [apply Hnew|done].
  - intros t x. unfold update. destruct (decide (l = x)) as [<-|Hx].
    + rewrite lookup_insert_eq. split.
      * intros Ht. case_decide; [subst; eexists; by split|]. by apply Hnew in Ht.
      * intros (? & ? & ?). simplify_eq/=. rewrite decide_True by done. by left.
    + rewrite lookup_insert_ne by done. rewrite <- Hm. case_decide; [subst|done].
      rewrite elem_of_cons. split; [intros [?|?]; [congruence|done]|by right].
  - rewrite lookup_insert_ne; [done|]. intros ->. congruence.
Qed.

(** Subscribing a listener that is in no list puts it at the front of the
    list of the calling thread, and changes no other list. *)
Theorem subscribe_correct s L tid l r :
  exit_inv s L -> listeners s !! l = Some r -> chain r = None ->
  exists s', subscribe tid l s = Ok tt s' /\ exit_inv s' (update L tid (l :: L tid)).
Proof.
  intros Hinv Hr Hch. destruct (wp_nothrow_ok _ _ _ (subscribe_spec s L tid l r Hinv Hr Hch)) as ([] & s' & E & H & _). eauto.
Qed.

Lemma elem_of_without x l ks : x ∈ without l ks <-> x <> l /\ x ∈ ks.
Proof. unfold without. by rewrite list_elem_of_filter. Qed.

Lemma unsubscribe_spec s L l r :
  exit_inv s L -> listeners s !! l = Some r ->
  wp (unsubscribe l) (fun _ s' => match chain r with
    | None => s' = s | Some tid => exit_inv s' (update L tid (without l (L tid))) /\
        forall x, is_Some (listeners s !! x) -> is_Some (listeners s' !! x) end) nothrow s.
Proof.
  intros Hinv Hr. pose proof Hinv as [Hc Hnd Hm Hnull].
  unfold unsubscribe, store_chain, tail_of. wp_step. eapply wp_listener; [done|].
  destruct (chain r) as [tid|] eqn:Hch; [|by wp_step].
  assert (l ∈ L tid) as Hl by (apply Hm; eauto).
  wp_step. wp_step. eapply wp_listener; [done|]. apply wp_set_listener; [eauto|].
  set (ls := <[l := mkListener (userData r) (listener_next r) None]> (listeners s)).
  assert (forall p k, listener_chain (listeners s) p k -> listener_chain ls p k) as Hframe.
  { intros p k Hk. eapply linked_frame; [done|]. intros x rx Hx Hrx. unfold ls.
    destruct (decide (l = x)) as [<-|]; [|by rewrite lookup_insert_ne; eauto].
    rewrite lookup_insert_eq. simplify_eq. eexists. by split. }
  wp_step. wp_step. cbn [set_listeners notifier_tail listeners]. wp_step. wp_step.
  eapply wp_mono; [eapply (unlink_spec _ tid l (L tid) None); [|done|done|apply Hframe, Hc|done|eauto]| |done].
  { apply (linked_size _ _ _ (Hframe _ _ (Hc tid))). }
  cbn. intros _ s' (ptr & Hptr & Ht & Hrec & Hnone).
  assert (forall x rx, ls !! x = Some rx -> exists rx', listeners s' !! x = Some rx' /\ chain rx' = chain rx)
    as Hchain by (intros x rx (rx' & ? & _ & ? & _)%Hrec; eauto).
  split.
  2:{ intros x Hx. assert (is_Some (ls !! x)) as [y Hy].
      { unfold ls. destruct (decide (l = x)) as [<-|]; [rewrite lookup_insert_eq|rewrite lookup_insert_ne by done]; by eauto. }
      destruct (Hchain x y Hy) as (y' & Hy' & _). by exists y'. }
  apply exit_inv_intro.
  - intros t. unfold update. destruct (decide (t = tid)) as [->|Hne].
    + destruct Ht as [->|[-> ->]]; [by rewrite lookup_insert_eq|done].
    + assert (notifier_tail s' !! t = notifier_tail s !! t) as ->.
      { destruct Ht as [->|[-> _]]; [by rewrite lookup_insert_ne|done]. }
      eapply linked_frame; [apply Hframe, Hc|]. intros x rx Hx Hrx.
      destruct (Hrec _ _ Hrx) as (rx' & Hrx' & _ & _ & _ & Hsame). exists rx'. split; [done|].
      rewrite Hsame; [done| |done]. intros (? & E1 & E2)%Hm. apply Hm in Hx as (? & E3 & E4). congruence.
  - intros t. unfold update. case_decide; [|done]. by apply NoDup_filter.
  - intros t x. unfold update.
    assert ((exists rx, listeners s' !! x = Some rx /\ chain rx = Some t) <->
            (exists rx, ls !! x = Some rx /\ chain rx = Some t)) as ->.
    { split.
      - intros (rx' & Hrx' & E). destruct (ls !! x) as [rx|] eqn:Hrx; [|by rewrite Hnone in Hrx'].
        destruct (Hchain _ _ Hrx) as (? & ? & ?). simplify_eq. exists rx. by rewrite <- H0.
      - intros (rx & Hrx & E). destruct (Hchain _ _ Hrx) as (rx' & ? & E'). exists rx'. by rewrite E'. }
    unfold ls. destruct (decide (l = x)) as [<-|Hx].
    + rewrite lookup_insert_eq. split; [|by intros (? & ? & ?); simplify_eq/=].
      case_decide as Ht'; [rewrite elem_of_without; tauto|]. intros (? & ? & ?)%Hm. by simplify_eq.
    + rewrite lookup_insert_ne by done. rewrite <- Hm.
      case_decide; [subst; rewrite elem_of_without; intuition congruence|done].
  - apply Hnone. unfold ls. rewrite lookup_insert_ne; [done|]. intros ->. congruence.
Qed.

(** C33: Unsubscribing takes exactly that listener out of the list it is in
    and does nothing when it is in no list, which is the case when the
    notifier of its thread ran first. *)
Theorem unsubscribe_correct s L l r :
  exit_inv s L -> listeners s !! l = Some r ->
  exists s', unsubscribe l s = Ok tt s' /\
    match chain r with
    | None => s' = s
    | Some tid => exit_inv s' (update L tid (without l (L tid)))
    end.
Proof.
  intros Hinv Hr. destruct (wp_nothrow_ok _ _ _ (unsubscribe_spec s L l r Hinv Hr)) as ([] & s' & E & H).
  exists s'. split; [done|]. by destruct (chain r); [destruct H|].
Qed.
End spec.

(** The exit of a thread, with a callback that records whom it was called for. *)
Section exit_spec.
#[local] Abbreviation S := (ExitState * list loc)%type.
Definition recording_callback (u : loc) : M S unit := modify (fun s => (fst s, snd s ++ [u])).
Definition thread_exit (tid : Z) : M S unit :=
  ThreadExitNotifier_dtor fst (fun e s => (e, snd s)) recording_callback tid.

Definition unchained (ks : list loc) (ls ls' : gmap loc ThreadExitListener) : Prop :=
  forall x, ls' !! x = (if decide (x ∈ ks)
    then (fun r => mkListener (userData r) (listener_next r) None) <$> ls !! x else ls !! x).

Lemma notify_spec fuel ks ptr s log :
  (length ks <= fuel)%nat -> NoDup ks -> listener_chain (listeners s) ptr ks ->
  wp (notify fst (fun e (s : S) => (e, snd s)) recording_callback fuel ptr) (fun _ s' =>
    exists us, us = omap (fun x => userData <$> listeners s !! x) ks /\ snd s' = log ++ us /\
    notifier_tail (fst s') = notifier_tail s /\ unchained ks (listeners s) (listeners (fst s')))
    nothrow (s, log).
Proof.
  revert ptr fuel s log. induction ks as [|x ks IH]; intros ptr fuel s log Hf Hnd Hc.
  { cbn in Hc. subst ptr. destruct fuel; cbn; exists []; rewrite app_nil_r; split_and!; try done. }
  destruct Hc as (-> & Hx & r & Hr & Hc). apply NoDup_cons in Hnd as [Hxn Hnd].
  destruct fuel as [|fuel]; [cbn in Hf; lia|]. cbn [notify length] in *.
  rewrite (proj2 (Z.eqb_neq _ _)) by done. unfold store_chain.
  wp_step. apply wp_zoom. wp_step. eapply wp_listener; [done|]. apply wp_set_listener; [eauto|].
  cbn [fst snd]. set (s1 := set_listeners (<[x := mkListener (userData r) (listener_next r) None]> (listeners s)) s).
  assert (listeners s1 !! x = Some (mkListener (userData r) (listener_next r) None)) as Hr1
    by apply lookup_insert_eq.
  wp_step. apply wp_zoom. eapply wp_listener; [done|]. wp_step. unfold recording_callback. wp_step.
  cbn [fst snd userData]. wp_step. apply wp_zoom. eapply wp_listener; [done|]. cbn [fst snd listener_next].
  eapply wp_mono; [apply (IH _ _ s1 (log ++ [userData r])); [lia|done|]| |done].
  { eapply linked_frame; [done|]. intros y ry Hy Hry. exists ry. cbn.
    rewrite lookup_insert_ne; [done|]. by intros ->. }
  cbn beta. intros _ s' (us & Hus & Hlog & Ht & Hun). exists (userData r :: us).
  assert (forall y, y <> x -> listeners s1 !! y = listeners s !! y) as Hne
    by (intros; by apply lookup_insert_ne).
  split_and!; [| |done|].
  - assert (omap (fun y => userData <$> listeners s1 !! y) ks
      = omap (fun y => userData <$> listeners s !! y) ks) as Hom.
    { apply list_omap_ext, Forall_Forall2_diag, Forall_forall. intros y Hy. rewrite Hne; [done|].
      by intros ->. }
    cbn. rewrite Hr. cbn. f_equal. by rewrite Hus.
  - rewrite Hlog. by rewrite <- app_assoc.
  - intros y. rewrite Hun. destruct (decide (y = x)) as [->|Hyx].
    + rewrite decide_False by done. rewrite decide_True by (by left). by rewrite Hr1, Hr.
    + rewrite Hne by done. rewrite (decide_ext (y ∈ ks) (y ∈ x :: ks)); [done|].
      rewrite elem_of_cons. tauto.
Qed.

(** When the listeners of a thread are chained to nothing, its list can go. *)
Lemma exit_inv_exited s L tid ls' :
  exit_inv s L -> unchained (L tid) (listeners s) ls' ->
  exit_inv (mkExit (delete tid (notifier_tail s)) ls') (update L tid []).
Proof.
  intros [Hc Hnd Hm Hnull] Hun. apply exit_inv_intro; cbn.
  - intros t. unfold update. destruct (decide (t = tid)) as [->|Hne]; [by rewrite lookup_delete_eq|].
    rewrite lookup_delete_ne by done. eapply linked_frame; [apply Hc|].
    intros x r Hx Hr. rewrite Hun, Hr. case_decide; eexists; by split.
  - intros t. unfold update. case_decide; [apply NoDup_nil_2|done].
  - intros t x. rewrite Hun. unfold update. destruct (decide (t = tid)) as [->|Hne].
    + split; [by intros ?%not_elem_of_nil|]. intros (r & Hr & E). case_decide as Hx.
      * destruct (listeners s !! x); cbn in *; by simplify_eq/=.
      * exfalso. apply Hx, Hm. eauto.
    + rewrite Hm. case_decide as Hx; [|done]. split.
      * intros (r & Hr & E). apply Hm in Hx as (? & ? & ?). congruence.
      * intros (r & Hr & E). destruct (listeners s !! x); by simplify_eq/=.
  - rewrite Hun, Hnull. by case_decide.
Qed.

(** When a thread exits, the callback runs exactly once for each
    listener that is subscribed to it, the last subscribed first, and
    afterwards none of them is subscribed to anything. *)
Theorem thread_exit_notifies_all s L tid :
  exit_inv s L ->
  exists s', thread_exit tid (s, []) =
      Ok tt (s', omap (fun x => userData <$> listeners s !! x) (L tid)) /\
    exit_inv s' (update L tid []).
Proof.
  intros Hinv. pose proof Hinv as [Hc Hnd Hm Hnull].
  enough (wp (thread_exit tid) (fun _ s' =>
    snd s' = omap (fun x => userData <$> listeners s !! x) (L tid) /\
    exit_inv (fst s') (update L tid [])) nothrow (s, []))
    as ([] & [s' log] & E & Hlog & H)%wp_nothrow_ok by (cbn in *; subst; eauto).
  unfold thread_exit, ThreadExitNotifier_dtor, tail_of. wp_step. apply wp_zoom. wp_step. cbn [fst snd].
  wp_step. wp_step. cbn [fst snd]. wp_step.
  eapply wp_mono; [apply notify_spec; [by eapply linked_size|done|done]| |done].
  cbn beta. intros _ [s1 log] (us & -> & Hlog & Ht & Hun). cbn in Hlog, Ht, Hun. subst log.
  apply wp_zoom. wp_step. cbn [fst snd]. split; [done|]. destruct s1 as [tails1 ls1]. cbn in *. subst tails1.
  by apply exit_inv_exited.
Qed.
End exit_spec.

(** * Witnesses: the thread 5 with the listeners 10 and 20, and 30 in no list *)

Section example.
Definition example_exit : ExitState :=
  mkExit {[5 := 20]}
    (<[10 := mkListener 100 nullptr (Some 5)]> (<[20 := mkListener 200 10 (Some 5)]>
      {[30 := mkListener 300 nullptr None]})).
Definition example_lists (tid : Z) : list loc := if decide (tid = 5) then [20; 10] else [].

Lemma example_exit_inv : exit_inv example_exit example_lists.
Proof.
  split.
  - intros tid. unfold example_lists, example_exit. cbn [notifier_tail listeners].
    destruct (decide (tid = 5)) as [->|Hne]; [|by rewrite lookup_singleton_ne].
    vm_compute. split_and!; try done. eexists. split; [done|]. cbn. split_and!; try done.
    by eexists.
  - intros tid. unfold example_lists. case_decide; [|apply NoDup_nil_2]. by apply (bool_decide_unpack _).
  - intros tid l. unfold example_lists, example_exit. cbn [listeners].
    destruct (decide (l = 10)) as [->|H10]; [|destruct (decide (l = 20)) as [->|H20];
      [|destruct (decide (l = 30)) as [->|H30]]].
    4:{ rewrite !lookup_insert_ne, lookup_singleton_ne by done. case_decide; set_solver. }
    all: case_decide; (split; [intros Hl|intros (r & Hr & E); vm_compute in Hr]); simplify_eq/=.
    all: try (by eexists); set_solver.
  - done.
Qed.

Lemma subscribe_correct_witness :
  exists s', subscribe 5 30 example_exit = Ok tt s' /\
    exit_inv s' (update example_lists 5 [30; 20; 10]).
Proof.
  apply (subscribe_correct example_exit example_lists 5 30 (mkListener 300 nullptr None));
    [exact example_exit_inv|done|done].
Defined.

Lemma unsubscribe_correct_witness :
  exists s', unsubscribe 10 example_exit = Ok tt s' /\
    exit_inv s' (update example_lists 5 [20]).
Proof.
  apply (unsubscribe_correct example_exit example_lists 10 (mkListener 100 nullptr (Some 5)));
    [exact example_exit_inv|done].
Defined.

Lemma thread_exit_notifies_all_witness :
  exists s', thread_exit 5 (example_exit, []) = Ok tt (s', [200; 100]) /\
    exit_inv s' (update example_lists 5 []).
Proof. apply (thread_exit_notifies_all example_exit example_lists 5). exact example_exit_inv. Defined.
End example.
