(* ===== verification/ImplicitHash.v ===== *)
(** The hash table of src/concurrentqueue.h that maps the identifier of a
    thread to its implicit producer: open addressing with linear probing,
    tombstones for threads that exited, and a chain of older tables that stay
    readable after a resize.  The operations are those of one thread at a
    time. *)

From S2P Require Import Prelude MachineInt Traits ThreadExit.

(** * State *)

Record ImplicitProducerKVP := mkKVP { kvp_key : Z; kvp_value : loc }.

Record ImplicitProducerHash := mkHash {
  hash_capacity : Z;
  hash_entries : list ImplicitProducerKVP;
  hash_prev : loc
}.

(** The first table is a member of the queue, at the address
    [initialImplicitProducerHash]; the others are allocated. *)
Record HashState := mkHashState {
  implicitProducerHash : loc;
  implicitProducerHashCount : Z;
  implicitProducerHashResizeInProgress : bool;
  initialImplicitProducerHash : loc;
  tables : gmap loc ImplicitProducerHash
}.

Definition set_hash x (s : HashState) : HashState :=
  mkHashState x (implicitProducerHashCount s) (implicitProducerHashResizeInProgress s)
    (initialImplicitProducerHash s) (tables s).
Definition set_hashCount x (s : HashState) : HashState :=
  mkHashState (implicitProducerHash s) x (implicitProducerHashResizeInProgress s)
    (initialImplicitProducerHash s) (tables s).
Definition set_resizing x (s : HashState) : HashState :=
  mkHashState (implicitProducerHash s) (implicitProducerHashCount s) x
    (initialImplicitProducerHash s) (tables s).
Definition set_tables x (s : HashState) : HashState :=
  mkHashState (implicitProducerHash s) (implicitProducerHashCount s)
    (implicitProducerHashResizeInProgress s) (initialImplicitProducerHash s) x.

Section hash.
Context (tr : Traits) (platform : ThreadIdPlatform).
(** [MOODYCAMEL_CPP11_THREAD_LOCAL_SUPPORTED] *)
Context (thread_local_supported : bool).

Let sz := wrap (size_bits tr).
#[local] Abbreviation empty := (invalid_thread_id platform).
#[local] Abbreviation reusable := (invalid_thread_id2 platform).

Definition table (h : loc) : M HashState ImplicitProducerHash :=
  let! ts := gets tables in deref NullDeref (ts !! h).
Definition slot (h : loc) (i : Z) : M HashState ImplicitProducerKVP :=
  let! t := table h in deref OutOfBounds (zlookup (hash_entries t) i).
Definition store_slot (h : loc) (i : Z) (e : ImplicitProducerKVP) : M HashState unit :=
  let! t := table h in
  modify (fun s => set_tables (<[h := mkHash (hash_capacity t) (zinsert i e (hash_entries t))
    (hash_prev t)]> (tables s)) s).

(** [entries\[i\].key.compare_exchange_strong]; also returns the value found. *)
Definition cas_key (h : loc) (i expected desired : Z) : M HashState (bool * Z) :=
  let! e := slot h i in
  if kvp_key e =? expected
  then store_slot h i (mkKVP desired (kvp_value e));; ret (true, kvp_key e)
  else ret (false, kvp_key e).
Definition store_kvp_value (h : loc) (i : Z) (v : loc) : M HashState unit :=
  let! e := slot h i in store_slot h i (mkKVP (kvp_key e) v).

(** The entries of a new table. *)
Definition empty_entries (n : Z) : list ImplicitProducerKVP :=
  replicate (Z.to_nat n) (mkKVP empty nullptr).

Definition populate_initial_implicit_producer_hash : M HashState unit :=
  if INITIAL_IMPLICIT_PRODUCER_HASH_SIZE tr =? 0 then ret tt
  else
    modify (set_hashCount 0);;
    let! hash := gets initialImplicitProducerHash in
    modify (fun s => set_tables (<[hash := mkHash (INITIAL_IMPLICIT_PRODUCER_HASH_SIZE tr)
      (empty_entries (INITIAL_IMPLICIT_PRODUCER_HASH_SIZE tr)) nullptr]> (tables s)) s);;
    modify (set_hash hash).

(** ** Lookup *)

(** The masking of an index with [hash->capacity - 1u]. *)
Definition masked (t : ImplicitProducerHash) (index : Z) : Z :=
  Z.land index (sz (hash_capacity t - 1)).

(** The slot of [id] in one table, or nothing. *)
Fixpoint probe (fuel : nat) (h : loc) (id index : Z) : M HashState (option Z) :=
  match fuel with
  | O => faults OutOfFuel
  | S fuel =>
      let! t := table h in
      let index := masked t index in
      let! e := slot h index in
      if kvp_key e =? id then ret (Some index)
      else if kvp_key e =? empty then ret None
      else probe fuel h id (sz (index + 1))
  end.

(** Adds an entry found in an older table to the main table. *)
Fixpoint migrate (fuel : nat) (h : loc) (id index : Z) (value : loc) : M HashState unit :=
  match fuel with
  | O => faults OutOfFuel
  | S fuel =>
      let! t := table h in
      let index := masked t index in
      let! r := cas_key h index empty id in
      if fst r : bool then store_kvp_value h index value
      else
        let! r := (if thread_local_supported then cas_key h index reusable id
                   else ret (false, snd r)) in
        if fst r : bool then store_kvp_value h index value
        else migrate fuel h id (sz (index + 1)) value
  end.

(** The tables from [hash] on. *)
Fixpoint find_in_tables (fuel : nat) (mainHash hash : loc) (id hashedId : Z)
    : M HashState (option loc) :=
  if hash =? nullptr then ret None
  else
    match fuel with
    | O => faults OutOfFuel
    | S fuel =>
        let! t := table hash in
        let! found := probe (Z.to_nat (hash_capacity t)) hash id hashedId in
        match found with
        | Some index =>
            let! e := slot hash index in
            (if negb (hash =? mainHash) then
               let! mt := table mainHash in
               migrate (Z.to_nat (hash_capacity mt)) mainHash id hashedId (kvp_value e)
             else ret tt);;
            ret (Some (kvp_value e))
        | None => find_in_tables fuel mainHash (hash_prev t) id hashedId
        end
    end.

(** The number of tables bounds the length of the chain. *)
Definition find_producer (id hashedId : Z) : M HashState (option loc) :=
  let! mainHash := gets implicitProducerHash in
  cassert (negb (mainHash =? nullptr));;
  let! n := gets (fun s => base.size (tables s)) in
  find_in_tables n mainHash mainHash id hashedId.

(** ** Insertion *)

(** [1 + implicitProducerHashCount.fetch_add(1)], and [fetch_sub(1)]. *)
Definition count_slot : M HashState Z :=
  let! c := gets implicitProducerHashCount in
  modify (set_hashCount (sz (c + 1)));; ret (sz (1 + c)).
Definition uncount_slot : M HashState unit :=
  let! c := gets implicitProducerHashCount in modify (set_hashCount (sz (c - 1))).

(** [implicitProducerHashResizeInProgress.test_and_set()] and [clear()]. *)
Definition test_and_set_resizing : M HashState bool :=
  let! b := gets implicitProducerHashResizeInProgress in
  modify (set_resizing true);; ret b.
Definition clear_resizing : M HashState unit := modify (set_resizing false).

(** [newCapacity]: doubled until the count is below half of it. *)
Fixpoint double_capacity (fuel : nat) (newCount newCapacity : Z) : M HashState Z :=
  if Z.shiftr newCapacity 1 <=? newCount then
    match fuel with
    | O => faults OutOfFuel
    | S fuel => double_capacity fuel newCount (sz (Z.shiftl newCapacity 1))
    end
  else ret newCapacity.

(** The new table, in the memory at [raw]. *)
Definition install_table (raw newCapacity mainHash : loc) : M HashState unit :=
  modify (fun s => set_tables (<[raw := mkHash newCapacity (empty_entries newCapacity) mainHash]>
    (tables s)) s);;
  modify (set_hash raw).

(** Puts [id] in the first slot that is free or reusable. *)
Fixpoint claim_slot (fuel : nat) (h : loc) (id index : Z) (producer : loc) : M HashState unit :=
  match fuel with
  | O => faults OutOfFuel
  | S fuel =>
      let! t := table h in
      let index := masked t index in
      let! r := (if thread_local_supported then cas_key h index reusable id
                 else ret (false, 0)) in
      if fst r : bool then uncount_slot;; store_kvp_value h index producer
      else
        let! r := cas_key h index empty id in
        if fst r : bool then store_kvp_value h index producer
        else claim_slot fuel h id (sz (index + 1)) producer
  end.

(** ** Removal *)

Fixpoint remove_id (fuel : nat) (h : loc) (id index : Z) : M HashState unit :=
  match fuel with
  | O => faults OutOfFuel
  | S fuel =>
      let! t := table h in
      let index := masked t index in
      let! r := cas_key h index id reusable in
      if fst r : bool then ret tt
      else if snd r =? empty then ret tt
      else remove_id fuel h id (sz (index + 1))
  end.

Fixpoint remove_from_tables (fuel : nat) (hash : loc) (id hashedId : Z) : M HashState unit :=
  if hash =? nullptr then ret tt
  else
    match fuel with
    | O => faults OutOfFuel
    | S fuel =>
        let! t := table hash in
        remove_id (Z.to_nat (hash_capacity t)) hash id hashedId;;
        remove_from_tables fuel (hash_prev t) id hashedId
    end.

(** The part of [implicit_producer_thread_exited] that concerns the hash. *)
Definition remove_thread (id hashedId : Z) : M HashState unit :=
  let! hash := gets implicitProducerHash in
  cassert (negb (hash =? nullptr));;
  let! n := gets (fun s => base.size (tables s)) in
  remove_from_tables n hash id hashedId.

(** ** Destruction and swap *)

(** The loop of [~ConcurrentQueue]: frees all tables but the last, which is
    part of the queue object. *)
Fixpoint free_tables (fuel : nat) (hash : loc) : M HashState unit :=
  if hash =? nullptr then ret tt
  else
    match fuel with
    | O => faults OutOfFuel
    | S fuel =>
        let! t := table hash in
        (if negb (hash_prev t =? nullptr)
         then modify (fun s => set_tables (delete hash (tables s)) s) else ret tt);;
        free_tables fuel (hash_prev t)
    end.

Definition destroy_hash_tables : M HashState unit :=
  if negb (INITIAL_IMPLICIT_PRODUCER_HASH_SIZE tr =? 0) then
    let! hash := gets implicitProducerHash in
    let! n := gets (fun s => base.size (tables s)) in
    free_tables n hash
  else ret tt.

(** Makes the last pointer to the initial table of the other queue, [from],
    point to this queue's own, [to]. *)
Fixpoint relink_from (fuel : nat) (hash from to : loc) : M HashState unit :=
  match fuel with
  | O => faults OutOfFuel
  | S fuel =>
      let! t := table hash in
      if hash_prev t =? from then
        modify (fun s => set_tables (<[hash := mkHash (hash_capacity t) (hash_entries t) to]>
          (tables s)) s)
      else relink_from fuel (hash_prev t) from to
  end.

Definition relink (from to : loc) : M HashState unit :=
  let! hash := gets implicitProducerHash in
  if hash =? from then modify (set_hash to)
  else let! n := gets (fun s => base.size (tables s)) in relink_from n hash from to.

(** The tables that [b] hands over to [a]: those that were allocated, and the
    entries of the initial table, which stay in the object of [a]. *)
Definition received (a b : HashState) : gmap loc ImplicitProducerHash :=
  let allocated := delete (initialImplicitProducerHash b) (tables b) in
  match tables a !! initialImplicitProducerHash a, tables b !! initialImplicitProducerHash b with
  | Some ta, Some tb =>
      <[initialImplicitProducerHash a := mkHash (hash_capacity ta) (hash_entries tb) (hash_prev ta)]>
        allocated
  | _, _ => allocated
  end.

Definition swap_implicit_producer_hashes : M (HashState * HashState) unit :=
  if INITIAL_IMPLICIT_PRODUCER_HASH_SIZE tr =? 0 then ret tt
  else
    let! ab := gets (fun s => s) in
    let (a, b) := ab : HashState * HashState in
    modify (fun _ =>
      (mkHashState (implicitProducerHash b) (implicitProducerHashCount b)
         (implicitProducerHashResizeInProgress a) (initialImplicitProducerHash a) (received a b),
       mkHashState (implicitProducerHash a) (implicitProducerHashCount a)
         (implicitProducerHashResizeInProgress b) (initialImplicitProducerHash b) (received b a)));;
    zoom fst (fun x s => (x, snd s))
      (relink (initialImplicitProducerHash b) (initialImplicitProducerHash a));;
    zoom snd (fun x s => (fst s, x))
      (relink (initialImplicitProducerHash a) (initialImplicitProducerHash b)).
End hash.
