(* ===== verification/ImplicitHashProofs.v ===== *)
(** Each table of the implicit producer hash implements a finite map from
    thread identifiers to producers. *)

From S2P Require Import Prelude MachineInt Traits ThreadExit ImplicitHash.

Section proofs.
Context (tr : Traits) `{!TraitsOk tr} (platform : ThreadIdPlatform).
(** The hash function. *)
Context (hashf : Z -> Z).
#[local] Abbreviation sb := (size_bits tr).
#[local] Abbreviation empty := (invalid_thread_id platform).
#[local] Abbreviation reusable := (invalid_thread_id2 platform).
Implicit Types (t : ImplicitProducerHash) (s : HashState) (m : gmap Z loc).

Definition valid_id (id : Z) : Prop := id <> empty /\ id <> reusable.

Record table_wf t : Prop := {
  tw_power : exists k, 0 <= k < sb /\ hash_capacity t = 2 ^ k;
  tw_length : zlength (hash_entries t) = hash_capacity t
}.

(** The slot [d] steps after the slot of [index]. *)
Definition at_distance t (index d : Z) : option ImplicitProducerKVP :=
  zlookup (hash_entries t) ((index + d) mod hash_capacity t).

Lemma capacity_pos t : table_wf t -> 0 < hash_capacity t.
Proof using Type. intros [(k & Hk & ->) _]. apply Z.pow_pos_nonneg; lia. Qed.

Lemma masked_eq t index : table_wf t -> masked tr t index = index mod hash_capacity t.
Proof using TraitsOk0.
  intros [(k & Hk & E) _]. unfold masked. rewrite E.
  assert (0 < 2 ^ k) by (apply Z.pow_pos_nonneg; lia).
  assert (2 ^ k < 2 ^ sb) by (apply Z.pow_lt_mono_r; lia).
  rewrite wrap_small by lia. apply land_mask. lia.
Qed.

(** Moving on by one slot. *)
Lemma next_distance t index d :
  table_wf t ->
  at_distance t (wrap sb (masked tr t index + 1)) d = at_distance t index (d + 1).
Proof using TraitsOk0.
  intros Hwf. unfold at_distance. f_equal. rewrite masked_eq by done. pose proof (capacity_pos _ Hwf).
  destruct Hwf as [(k & Hk & E) _]. rewrite E in *.
  rewrite <- Z.add_mod_idemp_l, wrap_mod_pow2, Z.add_mod_idemp_l by lia.
  rewrite <- Z.add_assoc, Z.add_mod_idemp_l by lia. f_equal. lia.
Qed.

Lemma masked_slot t index : table_wf t ->
  zlookup (hash_entries t) (masked tr t index) = at_distance t index 0.
Proof using TraitsOk0. intros Hwf. unfold at_distance. by rewrite masked_eq, Z.add_0_r. Qed.

Lemma at_distance_is_Some t index d : table_wf t -> is_Some (at_distance t index d).
Proof using Type.
  intros Hwf. unfold at_distance. apply zlookup_is_Some. rewrite (tw_length _ Hwf).
  apply Z.mod_pos_bound. by apply capacity_pos.
Qed.

(** Every slot is at a distance less than the capacity. *)
Lemma slot_distance t index j e :
  table_wf t -> zlookup (hash_entries t) j = Some e ->
  exists d, 0 <= d < hash_capacity t /\ (index + d) mod hash_capacity t = j.
Proof using Type.
  intros Hwf Hj. pose proof (capacity_pos _ Hwf). apply zlookup_Some_range in Hj.
  rewrite (tw_length _ Hwf) in Hj. exists ((j - index) mod hash_capacity t).
  split; [by apply Z.mod_pos_bound|]. rewrite Z.add_mod_idemp_r by lia.
  replace (index + (j - index)) with j by lia. by apply Z.mod_small.
Qed.

(** The first slot from [index] on whose key satisfies [P]. *)
Definition first_at (P : Z -> bool) t (index d : Z) (e : ImplicitProducerKVP) : Prop :=
  0 <= d /\ at_distance t index d = Some e /\ P (kvp_key e) = true /\
  forall d' e', 0 <= d' < d -> at_distance t index d' = Some e' -> P (kvp_key e') = false.

Lemma first_exists P t index j e :
  table_wf t -> zlookup (hash_entries t) j = Some e -> P (kvp_key e) = true ->
  exists d e, d < hash_capacity t /\ first_at P t index d e.
Proof using Type.
  intros Hwf Hj HP. destruct (slot_distance t index j e Hwf Hj) as (d & Hd & E).
  assert (at_distance t index d = Some e) as He by (unfold at_distance; by rewrite E).
  enough (forall n lo, 0 <= lo -> lo + Z.of_nat n < hash_capacity t ->
    (forall d' e', 0 <= d' < lo -> at_distance t index d' = Some e' -> P (kvp_key e') = false) ->
    at_distance t index (lo + Z.of_nat n) = Some e ->
    exists d e, d < hash_capacity t /\ first_at P t index d e) as Hgen.
  { apply (Hgen (Z.to_nat d) 0); [lia|lia|intros; lia|]. by rewrite Z.add_0_l, Z2Nat.id by lia. }
  clear d Hd E He. induction n as [|n IH]; intros lo Hlo Hn Hbefore He.
  { rewrite Z.add_0_r in *. exists lo, e. by split_and!. }
  destruct (at_distance_is_Some t index lo Hwf) as [e0 He0].
  destruct (P (kvp_key e0)) eqn:HP0; [exists lo, e0; split_and!; done || lia|].
  apply (IH (lo + 1)); [lia|lia| |by replace (lo + 1 + Z.of_nat n) with (lo + Z.of_nat (S n)) by lia].
  intros d' e' Hd' He'. destruct (decide (d' = lo)) as [->|]; [by simplify_eq|].
  eapply Hbefore; [|done]. lia.
Qed.

(** The next slot is one closer to the first that satisfies [P]. *)
Lemma first_at_next P t index d e :
  table_wf t -> first_at P t index d e -> 0 < d ->
  first_at P t (wrap sb (masked tr t index + 1)) (d - 1) e.
Proof using TraitsOk0.
  intros Hwf (H0 & He & HP & Hbefore) Hd. split; [lia|]. split; [|split; [done|]].
  - rewrite next_distance by done. by replace (d - 1 + 1) with d by lia.
  - intros d' e' Hd'. rewrite next_distance by done. apply Hbefore. lia.
Qed.

(** ** Slot accesses *)

Lemma wp_table h t (Q : ImplicitProducerHash -> HashState -> Prop) E s :
  tables s !! h = Some t -> Q t s -> wp (table h) Q E s.
Proof using Type. intros Ht HQ. unfold table. by wp_steps. Qed.

Lemma wp_slot h i t e (Q : ImplicitProducerKVP -> HashState -> Prop) E s :
  tables s !! h = Some t -> zlookup (hash_entries t) i = Some e -> Q e s -> wp (slot h i) Q E s.
Proof using Type. intros Ht He HQ. unfold slot. wp_step. eapply wp_table; [done|]. by wp_steps. Qed.

(** The table [t] with the entry [e] in the slot [i]. *)
Definition with_slot t (i : Z) (e : ImplicitProducerKVP) : ImplicitProducerHash :=
  mkHash (hash_capacity t) (zinsert i e (hash_entries t)) (hash_prev t).
Definition with_table s h t : HashState := set_tables (<[h := t]> (tables s)) s.

Lemma wp_store_slot h i e t (Q : unit -> HashState -> Prop) E s :
  tables s !! h = Some t -> Q tt (with_table s h (with_slot t i e)) -> wp (store_slot h i e) Q E s.
Proof using Type.
  intros Ht HQ. unfold store_slot. wp_step. eapply wp_table; [done|]. by wp_step.
Qed.

Lemma wp_cas_key h i x d t e (Q : bool * Z -> HashState -> Prop) E s :
  tables s !! h = Some t -> zlookup (hash_entries t) i = Some e ->
  (kvp_key e = x -> Q (true, x) (with_table s h (with_slot t i (mkKVP d (kvp_value e))))) ->
  (kvp_key e <> x -> Q (false, kvp_key e) s) ->
  wp (cas_key h i x d) Q E s.
Proof using Type.
  intros Ht He H1 H2. unfold cas_key. wp_step. eapply wp_slot; [done|done|].
  destruct (Z.eqb_spec (kvp_key e) x) as [E'|]; [|wp_step; auto].
  wp_step. eapply wp_store_slot; [done|]. wp_step. subst x. auto.
Qed.

Lemma with_slot_wf t i e : table_wf t -> table_wf (with_slot t i e).
Proof using Type. intros []. split; [done|]. cbn. by rewrite zlength_zinsert. Qed.

Lemma masked_with_slot t i e index : masked tr (with_slot t i e) index = masked tr t index.
Proof using Type. done. Qed.

Lemma with_slot_lookup t i e j :
  0 <= i < zlength (hash_entries t) ->
  zlookup (hash_entries (with_slot t i e)) j
    = if decide (j = i) then Some e else zlookup (hash_entries t) j.
Proof using Type.
  intros Hi. cbn. case_decide as Hj; [subst; by apply zlookup_zinsert_eq|].
  by apply zlookup_zinsert_ne.
Qed.

(** ** The loops stop at the first slot they look for *)

Definition id_or_empty (id k : Z) : bool := (k =? id) || (k =? empty).
Definition available_key (tls : bool) (k : Z) : bool := (tls && (k =? reusable)) || (k =? empty).
Definition slot_index t (index d : Z) : Z := (index + d) mod hash_capacity t.

Lemma slot_index_range t index d : table_wf t -> 0 <= slot_index t index d < zlength (hash_entries t).
Proof using Type. intros Hwf. rewrite (tw_length _ Hwf). by apply Z.mod_pos_bound, capacity_pos. Qed.

Lemma slot_index_next t index d :
  table_wf t -> slot_index t (wrap sb (masked tr t index + 1)) (d - 1) = slot_index t index d.
Proof using TraitsOk0.
  intros Hwf. unfold slot_index. rewrite masked_eq by done. pose proof (capacity_pos _ Hwf).
  destruct Hwf as [(k & Hk & E) _]. rewrite E in *.
  rewrite <- Z.add_mod_idemp_l, wrap_mod_pow2, Z.add_mod_idemp_l by lia.
  rewrite <- Z.add_assoc, Z.add_mod_idemp_l by lia. f_equal. lia.
Qed.

(** Either the loop is at the slot, or it goes on to the next one. *)
Lemma first_at_cases P t index d e :
  table_wf t -> first_at P t index d e ->
  d = 0 /\ zlookup (hash_entries t) (masked tr t index) = Some e /\ P (kvp_key e) = true /\
    slot_index t index d = masked tr t index \/
  0 < d /\ exists e0, zlookup (hash_entries t) (masked tr t index) = Some e0 /\ P (kvp_key e0) = false.
Proof using TraitsOk0.
  intros Hwf Hf. pose proof Hf as (H0 & He & HP & Hbefore). rewrite masked_slot by done.
  destruct (decide (d = 0)) as [->|]; [left|right].
  - split; [done|]. split; [done|]. split; [done|]. unfold slot_index. by rewrite Z.add_0_r, masked_eq.
  - split; [lia|]. destruct (at_distance_is_Some t index 0 Hwf) as [e0 He0]. exists e0.
    split; [done|]. eapply Hbefore; [|done]. lia.
Qed.

Lemma probe_spec fuel h id index t d e s :
  tables s !! h = Some t -> table_wf t -> first_at (id_or_empty id) t index d e ->
  d < Z.of_nat fuel ->
  wp (probe tr platform fuel h id index) (fun r s' =>
    s' = s /\ r = if kvp_key e =? id then Some (slot_index t index d) else None) nothrow s.
Proof using TraitsOk0.
  intros Ht Hwf. revert index d. induction fuel as [|fuel IH]; intros index d Hf Hd.
  { destruct Hf. lia. }
  cbn [probe]. wp_step. eapply wp_table; [done|]. wp_step.
  destruct (first_at_cases _ _ _ _ _ Hwf Hf) as [(-> & He & HP & Hs)|(Hd0 & e0 & He0 & HP)].
  - rewrite Hs. eapply wp_slot; [done|done|]. unfold id_or_empty in HP.
    destruct (Z.eqb_spec (kvp_key e) id); [by wp_step|].
    cbn in HP. rewrite HP. by wp_step.
  - eapply wp_slot; [done|done|]. unfold id_or_empty in HP. apply orb_false_iff in HP as [-> ->].
    eapply wp_mono; [apply (IH _ (d - 1)); [by apply first_at_next|lia]| |done].
    cbn beta. intros r s' [-> ->]. by rewrite slot_index_next.
Qed.

(** The slot that a new entry takes. *)
Lemma claim_slot_spec tls fuel h id index producer t d e s :
  tables s !! h = Some t -> table_wf t -> first_at (available_key tls) t index d e ->
  d < Z.of_nat fuel ->
  wp (claim_slot tr platform tls fuel h id index producer) (fun _ s' =>
    tables s' = <[h := with_slot t (slot_index t index d) (mkKVP id producer)]> (tables s) /\
    implicitProducerHashCount s' = (if tls && (kvp_key e =? reusable)
      then wrap sb (implicitProducerHashCount s - 1) else implicitProducerHashCount s) /\
    s' = set_hashCount (implicitProducerHashCount s') (set_tables (tables s') s)) nothrow s.
Proof using TraitsOk0.
  intros Ht Hwf. revert index d. induction fuel as [|fuel IH]; intros index d Hf Hd.
  { destruct Hf. lia. }
  cbn [claim_slot]. wp_step. eapply wp_table; [done|]. wp_step.
  assert (forall (Q : _ -> _ -> Prop) E i, zlookup (hash_entries t) (masked tr t index) = Some i ->
    (tls = true -> kvp_key i = reusable ->
      Q (true, reusable) (with_table s h (with_slot t (masked tr t index) (mkKVP id (kvp_value i))))) ->
    (tls && (kvp_key i =? reusable) = false -> forall x, Q (false, x) s) ->
    wp (if tls then cas_key h (masked tr t index) reusable id else ret (false, 0)) Q E s) as Hreuse.
  { intros Q E i Hi H1 H2. destruct tls; [|wp_step; auto].
    eapply wp_cas_key; [done|done|auto|]. intros Hne. apply H2. by apply Z.eqb_neq. }
  destruct (first_at_cases _ _ _ _ _ Hwf Hf) as [(-> & He & HP & Hs)|(Hd0 & e0 & He0 & HP)].
  - pose proof (slot_index_range t index 0 Hwf) as Hr. rewrite Hs in *.
    assert (forall v, zlookup (hash_entries (with_slot t (masked tr t index) (mkKVP id v)))
      (masked tr t index) = Some (mkKVP id v)) as Hback.
    { intros v. rewrite with_slot_lookup by done. by rewrite decide_True. }
    eapply Hreuse; [done|..]; cbn [fst snd].
    + intros -> Ek. wp_step. unfold uncount_slot, store_kvp_value. wp_steps.
      eapply wp_slot; [apply lookup_insert_eq|done|].
      eapply wp_store_slot; [apply lookup_insert_eq|]. cbn.
      rewrite Ek, Z.eqb_refl, insert_insert_eq. split; [|split; [done|]].
      * unfold with_slot. cbn. by rewrite zinsert_zinsert.
      * unfold with_table, set_tables, set_hashCount. cbn. by rewrite !insert_insert_eq.
    + intros Hnot x. wp_step. rewrite Hnot in *. eapply wp_cas_key; [done|done|..]; cbn [fst snd].
      * intros Ek. unfold store_kvp_value. wp_step.
        eapply wp_slot; [apply lookup_insert_eq|done|].
        eapply wp_store_slot; [apply lookup_insert_eq|]. cbn. rewrite insert_insert_eq. split; [|split; [done|]].
        -- unfold with_slot. cbn. by rewrite zinsert_zinsert.
        -- unfold with_table, set_tables, set_hashCount. cbn. by rewrite !insert_insert_eq.
      * intros Hne. unfold available_key in HP. rewrite Hnot in HP. cbn in HP. by apply Z.eqb_eq in HP.
  - unfold available_key in HP. apply orb_false_iff in HP as [HP1 HP2]. apply Z.eqb_neq in HP2.
    eapply Hreuse; [done|..]; cbn [fst snd].
    + intros -> Ek. rewrite Ek, Z.eqb_refl in HP1. done.
    + intros _ x. wp_step. eapply wp_cas_key; [done|done|done|]. intros _. cbn [fst snd].
      eapply wp_mono; [apply (IH _ (d - 1)); [by apply first_at_next|lia]| |done].
      cbn beta. by rewrite slot_index_next.
Qed.

(** The slot of [id] becomes a tombstone, if there is one. *)
Lemma remove_id_spec fuel h id index t d e s :
  tables s !! h = Some t -> table_wf t -> first_at (id_or_empty id) t index d e ->
  d < Z.of_nat fuel ->
  wp (remove_id tr platform fuel h id index) (fun _ s' =>
    s' = if kvp_key e =? id
         then with_table s h (with_slot t (slot_index t index d) (mkKVP reusable (kvp_value e)))
         else s) nothrow s.
Proof using TraitsOk0.
  intros Ht Hwf. revert index d. induction fuel as [|fuel IH]; intros index d Hf Hd.
  { destruct Hf. lia. }
  cbn [remove_id]. wp_step. eapply wp_table; [done|]. wp_step.
  destruct (first_at_cases _ _ _ _ _ Hwf Hf) as [(-> & He & HP & Hs)|(Hd0 & e0 & He0 & HP)].
  - rewrite Hs. eapply wp_cas_key; [done|done|..]; intros Ek; cbn [fst snd].
    + rewrite Ek, Z.eqb_refl. by wp_step.
    + unfold id_or_empty in HP. rewrite (proj2 (Z.eqb_neq _ _) Ek) in *. cbn in HP. rewrite HP. by wp_step.
  - unfold id_or_empty in HP. apply orb_false_iff in HP as [HP1 HP2]. apply Z.eqb_neq in HP1.
    eapply wp_cas_key; [done|done|done|]. intros _. cbn [fst snd]. rewrite HP2.
    eapply wp_mono; [apply (IH _ (d - 1)); [by apply first_at_next|lia]| |done].
    cbn beta. by rewrite slot_index_next.
Qed.

Lemma migrate_spec tls fuel h id index value t d e s :
  tables s !! h = Some t -> table_wf t -> first_at (available_key tls) t index d e ->
  d < Z.of_nat fuel ->
  wp (migrate tr platform tls fuel h id index value) (fun _ s' =>
    s' = with_table s h (with_slot t (slot_index t index d) (mkKVP id value))) nothrow s.
Proof using TraitsOk0.
  intros Ht Hwf. revert index d. induction fuel as [|fuel IH]; intros index d Hf Hd.
  { destruct Hf. lia. }
  cbn [migrate]. wp_step. eapply wp_table; [done|]. wp_step.
  assert (forall v, slot_index t index 0 = masked tr t index ->
    wp (store_kvp_value h (masked tr t index) value) (fun _ s' =>
      s' = with_table s h (with_slot t (slot_index t index 0) (mkKVP id value))) nothrow
      (with_table s h (with_slot t (masked tr t index) (mkKVP id v)))) as Hstore.
  { intros v Hs. pose proof (slot_index_range t index 0 Hwf) as Hr. rewrite Hs in *.
    unfold store_kvp_value. wp_step. eapply wp_slot; [apply lookup_insert_eq| |].
    { rewrite with_slot_lookup by done. by rewrite decide_True. }
    eapply wp_store_slot; [apply lookup_insert_eq|]. unfold with_table, set_tables. cbn.
    rewrite insert_insert_eq. unfold with_slot. cbn. by rewrite zinsert_zinsert. }
  destruct (first_at_cases _ _ _ _ _ Hwf Hf) as [(-> & He & HP & Hs)|(Hd0 & e0 & He0 & HP)].
  - eapply wp_cas_key; [done|done|..]; intros Ek; cbn [fst snd]; [by apply Hstore|].
    unfold available_key in HP. rewrite (proj2 (Z.eqb_neq _ _) Ek), orb_false_r in HP.
    apply andb_true_iff in HP as [-> HP%Z.eqb_eq]. wp_step.
    eapply wp_cas_key; [done|done|..]; intros Ek'; cbn [fst snd]; [by apply Hstore|done].
  - unfold available_key in HP. apply orb_false_iff in HP as [HP1 HP2]. apply Z.eqb_neq in HP2.
    eapply wp_cas_key; [done|done|done|]. intros _. cbn [fst snd]. wp_step.
    assert (wp (if tls then cas_key h (masked tr t index) reusable id else ret (false, kvp_key e0))
      (fun r s' => fst r = false /\ s' = s) nothrow s) as Hr.
    { destruct tls; [|by wp_step]. cbn in HP1. apply Z.eqb_neq in HP1.
      by eapply wp_cas_key. }
    eapply wp_mono; [exact Hr| |done]. cbn beta. intros r s' [-> ->].
    eapply wp_mono; [apply (IH _ (d - 1)); [by apply first_at_next|lia]| |done].
    cbn beta. by rewrite slot_index_next.
Qed.

(** ** A table represents a finite map *)

Record hash_repr t m : Prop := {
  hr_wf : table_wf t;
  hr_slot : forall j e, zlookup (hash_entries t) j = Some e -> valid_id (kvp_key e) ->
    m !! kvp_key e = Some (kvp_value e);
  hr_reach : forall id v, m !! id = Some v -> valid_id id /\ exists d, 0 <= d /\
    at_distance t (hashf id) d = Some (mkKVP id v) /\
    forall d' e', 0 <= d' < d -> at_distance t (hashf id) d' = Some e' -> kvp_key e' <> empty;
  hr_unique : forall i j ei ej, zlookup (hash_entries t) i = Some ei ->
    zlookup (hash_entries t) j = Some ej -> valid_id (kvp_key ei) -> kvp_key ei = kvp_key ej -> i = j
}.

Definition has_empty t : Prop := exists j e, zlookup (hash_entries t) j = Some e /\ kvp_key e = empty.

Lemma repr_first t m id :
  hash_repr t m -> valid_id id -> has_empty t ->
  exists d e, d < hash_capacity t /\ first_at (id_or_empty id) t (hashf id) d e /\
    m !! id = if kvp_key e =? id then Some (kvp_value e) else None.
Proof using Type.
  intros [] Hid (j & e0 & Hj & Ee0).
  destruct (first_exists (id_or_empty id) t (hashf id) j e0) as (d & e & Hd & Hf); [done|done| |].
  { unfold id_or_empty. by rewrite Ee0, Z.eqb_refl, orb_true_r. }
  exists d, e. split; [done|]. split; [done|]. destruct Hf as (H0 & He & HP & Hbefore).
  destruct (Z.eqb_spec (kvp_key e) id) as [<-|Hne]; [by eapply hr_slot0|].
  destruct (m !! id) as [v|] eqn:Hm; [exfalso|done].
  destruct (hr_reach0 _ _ Hm) as (_ & d0 & Hd0 & He0 & Hb0).
  unfold id_or_empty in HP. rewrite (proj2 (Z.eqb_neq _ _) Hne) in HP. apply Z.eqb_eq in HP.
  destruct (Z.lt_trichotomy d d0) as [Hlt|[->|Hlt]].
  - by apply (Hb0 d e).
  - rewrite He in He0. by simplify_eq/=.
  - specialize (Hbefore d0 _ ltac:(lia) He0). unfold id_or_empty in Hbefore. cbn in Hbefore.
    by rewrite Z.eqb_refl in Hbefore.
Qed.

Lemma at_distance_with_slot t i e index d :
  0 <= i < zlength (hash_entries t) ->
  at_distance (with_slot t i e) index d
    = if decide (slot_index t index d = i) then Some e else at_distance t index d.
Proof using Type. intros Hi. unfold at_distance. by rewrite with_slot_lookup. Qed.

Lemma available_key_invalid tls k : available_key tls k = true -> ~ valid_id k.
Proof using Type.
  unfold available_key, valid_id. rewrite orb_true_iff, andb_true_iff, !Z.eqb_eq. intros [[_ ->]| ->] [H1 H2]; done.
Qed.

(** Writing a slot that holds no valid identifier keeps the others. *)
Lemma reach_frame t m i e0 e id v :
  hash_repr t m -> 0 <= i < zlength (hash_entries t) -> zlookup (hash_entries t) i = Some e0 ->
  kvp_key e0 <> id -> kvp_key e <> empty -> m !! id = Some v ->
  exists d, 0 <= d /\ at_distance (with_slot t i e) (hashf id) d = Some (mkKVP id v) /\
    forall d' e', 0 <= d' < d -> at_distance (with_slot t i e) (hashf id) d' = Some e' -> kvp_key e' <> empty.
Proof using Type.
  intros H Hi He0 Hne Hen Hm. destruct (hr_reach _ _ H _ _ Hm) as (_ & d & Hd & He & Hb).
  exists d. split; [done|]. split.
  - rewrite at_distance_with_slot by done. rewrite decide_False; [done|]. intros <-.
    unfold at_distance, slot_index in *. rewrite He0 in He. by simplify_eq/=.
  - intros d' e' Hd'. rewrite at_distance_with_slot by done. case_decide; [by intros [= <-]|]. by apply Hb.
Qed.

Lemma repr_insert tls t m id v d e :
  hash_repr t m -> valid_id id -> m !! id = None -> first_at (available_key tls) t (hashf id) d e ->
  hash_repr (with_slot t (slot_index t (hashf id) d) (mkKVP id v)) (<[id := v]> m).
Proof using Type.
  intros H Hid Hm (Hd & He & HP & Hbefore). pose proof H as [].
  pose proof (slot_index_range t (hashf id) d hr_wf0) as Hi. set (i := slot_index t (hashf id) d) in *.
  pose proof (available_key_invalid _ _ HP) as Hinv.
  assert (forall j ej, zlookup (hash_entries t) j = Some ej -> kvp_key ej <> id) as Hfresh.
  { intros j ej Hj <-. specialize (hr_slot0 _ _ Hj Hid). congruence. }
  split; [by apply with_slot_wf|..].
  - intros j ej. rewrite with_slot_lookup by done. case_decide.
    + intros [= <-] _. apply lookup_insert_eq.
    + intros Hj Hv. rewrite lookup_insert_ne by (by apply not_eq_sym, (Hfresh j)). by eapply hr_slot0.
  - intros id' v'. destruct (decide (id = id')) as [<-|Hne].
    + rewrite lookup_insert_eq. intros [= <-]. split; [done|]. exists d. split; [done|]. split.
      * rewrite at_distance_with_slot by done. by rewrite decide_True.
      * intros d' e' Hd'. rewrite at_distance_with_slot by done. case_decide.
        -- intros [= <-]. cbn. apply Hid.
        -- intros He'. specialize (Hbefore d' e' Hd' He'). unfold available_key in Hbefore.
           apply orb_false_iff in Hbefore as [_ Hbefore]. by apply Z.eqb_neq.
    + rewrite lookup_insert_ne by done. intros Hm'. destruct (hr_reach0 _ _ Hm') as [Hid' _].
      split; [done|]. eapply reach_frame; [done|done|exact He| |apply Hid|done]. by intros <-.
  - intros j k ej ek. rewrite !with_slot_lookup by done. repeat case_decide; subst; try done.
    + intros [= <-] Hk _ E. cbn in E. by destruct (Hfresh k ek).
    + intros Hj [= <-] _ E. cbn in E. by destruct (Hfresh j ej).
    + by apply hr_unique0.
Qed.

Lemma repr_remove t m id d e :
  hash_repr t m -> valid_id id -> at_distance t (hashf id) d = Some e -> kvp_key e = id ->
  hash_repr (with_slot t (slot_index t (hashf id) d) (mkKVP reusable (kvp_value e))) (delete id m).
Proof using Type.
  intros H Hid He Ek. pose proof H as [].
  pose proof (slot_index_range t (hashf id) d hr_wf0) as Hi.
  change (zlookup (hash_entries t) (slot_index t (hashf id) d) = Some e) in He.
  set (i := slot_index t (hashf id) d) in *.
  split; [by apply with_slot_wf|..].
  - intros j ej. rewrite with_slot_lookup by done. case_decide as Hj.
    + intros [= <-] [_ ?]. done.
    + intros Hej Hv. rewrite lookup_delete_ne; [by eapply hr_slot0|]. intros ->.
      apply Hj. by apply (hr_unique0 j i ej e).
  - intros id' v' [Hne Hm']%lookup_delete_Some. destruct (hr_reach0 _ _ Hm') as [Hid' _].
    split; [done|]. eapply reach_frame; [done|done|exact He| | |done]; [by rewrite Ek|].
    cbn. by apply not_eq_sym, invalid_thread_ids_differ.
  - intros j k ej ek. rewrite !with_slot_lookup by done. repeat case_decide; subst; try done.
    + intros [= <-] _ [_ ?]. done.
    + intros Hj [= <-] Hv E. cbn in E. destruct Hv. by rewrite E in *.
    + by apply hr_unique0.
Qed.

(** ** Insertion *)

(** Inserting a thread that is not in the table takes the first slot that
    is free or was freed by a thread that exited, maps the thread to its
    producer and keeps all other threads; the count of used slots is
    corrected when a freed slot is reused. *)
Theorem hash_insert_correct tls s h t m id producer :
  tables s !! h = Some t -> hash_repr t m -> has_empty t -> valid_id id -> m !! id = None ->
  exists s' t' reused, claim_slot tr platform tls (Z.to_nat (hash_capacity t)) h id (hashf id) producer s
      = Ok tt s' /\
    tables s' = <[h := t']> (tables s) /\ hash_repr t' (<[id := producer]> m) /\
    implicitProducerHashCount s' = (if reused : bool then wrap sb (implicitProducerHashCount s - 1)
                                    else implicitProducerHashCount s).
Proof using TraitsOk0.
  intros Ht Hm (j & e0 & Hj & Ee0) Hid Hnone. pose proof (hr_wf _ _ Hm) as Hwf.
  pose proof (capacity_pos _ Hwf).
  destruct (first_exists (available_key tls) t (hashf id) j e0) as (d & e & Hd & Hf); [done|done| |].
  { unfold available_key. by rewrite Ee0, Z.eqb_refl, orb_true_r. }
  pose proof (claim_slot_spec tls (Z.to_nat (hash_capacity t)) h id (hashf id) producer t d e s
    Ht Hwf Hf ltac:(lia)) as Hc.
  apply wp_nothrow_ok in Hc as ([] & s' & E & Ht' & Hcount & _).
  eexists s', _, _. split; [done|]. split; [done|]. split; [|done]. by eapply repr_insert.
Qed.

End proofs.

(** * Witnesses: a table with four slots in which the threads 16 and 32 collide *)

Section example.
#[local] Abbreviation plat := ThreadLocalAddress.
Definition example_table : ImplicitProducerHash :=
  mkHash 4 [mkKVP 16 100; mkKVP 1 0; mkKVP 32 200; mkKVP 0 0] nullptr.
Definition example_hash : HashState := mkHashState (-1) 3 false (-1) {[-1 := example_table]}.
Definition example_map : gmap Z loc := <[16 := 100]> {[32 := 200]}.
(** All threads hash to the slot 0. *)
Definition example_hashf (id : Z) : Z := id.

Lemma example_hash_repr : hash_repr small_traits plat example_hashf example_table example_map.
Proof.
  assert (forall j e, zlookup (hash_entries example_table) j = Some e ->
    j = 0 /\ e = mkKVP 16 100 \/ j = 1 /\ e = mkKVP 1 0 \/ j = 2 /\ e = mkKVP 32 200 \/
    j = 3 /\ e = mkKVP 0 0) as Hcases.
  { intros j e Hj. pose proof (zlookup_Some_range _ _ _ Hj) as Hr.
    change (zlength (hash_entries example_table)) with 4 in Hr.
    assert (j = 0 \/ j = 1 \/ j = 2 \/ j = 3) as [->|[->|[->| ->]]] by lia; vm_compute in Hj;
      simplify_eq; tauto. }
  split.
  - split; [by exists 2|done].
  - intros j e Hj. destruct (Hcases _ _ Hj) as [[-> ->]|[[-> ->]|[[-> ->]|[-> ->]]]]; intros [H1 H2]; done.
  - intros id v Hm. unfold example_map in Hm. rewrite lookup_insert, lookup_singleton in Hm.
    repeat case_decide; simplify_eq.
    + split; [done|]. exists 0. split; [lia|]. split; [done|]. intros; lia.
    + split; [done|]. exists 2. split; [lia|]. split; [done|]. intros d' e' Hd'.
      assert (d' = 0 \/ d' = 1) as [->| ->] by lia; vm_compute; intros; by simplify_eq.
  - intros i j ei ej Hi Hj Hv E.
    destruct (Hcases _ _ Hi) as [[-> ->]|[[-> ->]|[[-> ->]|[-> ->]]]],
      (Hcases _ _ Hj) as [[-> ->]|[[-> ->]|[[-> ->]|[-> ->]]]]; cbn in *; destruct Hv; done.
Qed.

Lemma example_has_empty : has_empty plat example_table.
Proof. by exists 3, (mkKVP 0 0). Qed.

Lemma hash_insert_correct_witness :
  exists s' t' reused, claim_slot small_traits plat true 4 (-1) 48 48 300 example_hash = Ok tt s' /\
    tables s' = <[-1 := t']> (tables example_hash) /\
    hash_repr small_traits plat example_hashf t' (<[48 := 300]> example_map) /\
    implicitProducerHashCount s' = (if reused : bool then 2 else 3).
Proof.
  apply (hash_insert_correct small_traits plat example_hashf true example_hash (-1) example_table
    example_map 48 300); [done|exact example_hash_repr|exact example_has_empty|done|done].
Defined.
End example.
