(* ===== verification/HashChain.v ===== *)
(** The whole hash of implicit producers -- the main table and the older ones
    that a growing hash leaves behind -- implements a finite map from threads
    to producers.  The shared count of used slots guarantees that a loop always
    meets a free slot, also when it copies an entry out of an older table. *)

From S2P Require Import Prelude MachineInt Traits ThreadExit ImplicitHash ImplicitHashProofs.

(** * Used slots *)

Section used.
Context (tr : Traits) `{!TraitsOk tr} (platform : ThreadIdPlatform) (hashf : Z -> Z).
#[local] Abbreviation empty := (invalid_thread_id platform).
#[local] Abbreviation reusable := (invalid_thread_id2 platform).
#[local] Abbreviation repr := (hash_repr tr platform hashf).
Implicit Types (t : ImplicitProducerHash) (m : gmap Z loc) (e : ImplicitProducerKVP).

Definition slot_used e : Z := if kvp_key e =? empty then 0 else 1.
Definition used t : Z := zsum (slot_used <$> hash_entries t).

Lemma used_with_slot t i e e' :
  zlookup (hash_entries t) i = Some e -> used (with_slot t i e') = used t - slot_used e + slot_used e'.
Proof using Type.
  unfold used, zlookup, with_slot, zinsert. cbn. case_decide; [|done]. intros Hi. by apply zsum_insert.
Qed.

(** A table that is not full has a free slot. *)
Lemma used_has_empty t : table_wf tr t -> used t < hash_capacity t -> has_empty platform t.
Proof using Type.
  intros [_ <-]. unfold used, has_empty, zlength. intros Hlt.
  assert (exists e, e ∈ hash_entries t /\ kvp_key e = empty) as (e & (i & Hi)%list_elem_of_lookup & E).
  { induction (hash_entries t) as [|e l IH]; [by vm_compute in Hlt|]. rewrite fmap_cons, zsum_cons in Hlt. unfold slot_used at 1 in Hlt.
    destruct (Z.eqb_spec (kvp_key e) empty) as [E|_]; [exists e; split; [by left|done]|].
    cbn [length] in Hlt. destruct IH as (e' & He' & E); [unfold zlength in *; lia|]. exists e'. split; [by right|done]. }
  exists (Z.of_nat i), e. split; [|done]. unfold zlookup. rewrite decide_True by lia. by rewrite Nat2Z.id.
Qed.

(** Every thread has a slot of its own. *)
Lemma size_le_used t m : repr t m -> Z.of_nat (base.size m) <= used t.
Proof using Type.
  intros [_ _ Hr _].
  set (ks := filter (fun k => valid_id platform k) (kvp_key <$> hash_entries t)).
  assert (dom m ⊆ list_to_set (C := gset Z) ks) as Hsub.
  { intros id [v Hv]%elem_of_dom. destruct (Hr id v Hv) as (Hid & d & _ & Hd & _). apply elem_of_list_to_set.
    unfold ks. apply list_elem_of_filter. split; [done|]. unfold at_distance, zlookup in Hd. case_decide; [|done].
    apply list_elem_of_lookup_2 in Hd. apply list_elem_of_fmap. by exists (mkKVP id v). }
  apply subseteq_size in Hsub. rewrite size_dom in Hsub.
  assert (base.size (list_to_set (C := gset Z) ks) <= length ks)%nat as Hle.
  { clear. induction ks as [|k ks IH]; [done|]. cbn. rewrite size_union_alt. pose proof (subseteq_size ({[k]} : gset Z) _ (reflexivity _)).
    assert (base.size (list_to_set (C := gset Z) ks ∖ {[k]}) <= base.size (list_to_set (C := gset Z) ks))%nat
      by (by apply subseteq_size, subseteq_difference_l). rewrite size_singleton. lia. }
  assert (Z.of_nat (length ks) <= used t); [|lia]. unfold ks, used. clear.
  induction (hash_entries t) as [|e l IH]; [done|]. rewrite !fmap_cons, zsum_cons, filter_cons. unfold slot_used at 1.
  case_decide as Hv; cbn [length]; [|destruct (_ =? _); lia].
  destruct Hv as [Hv _]. rewrite (proj2 (Z.eqb_neq _ _) Hv). lia.
Qed.
End used.

(** * The chain of tables *)

Section chain.
Context (tr : Traits) `{!TraitsOk tr} (platform : ThreadIdPlatform) (hashf : Z -> Z) (tls : bool).
#[local] Abbreviation sb := (size_bits tr).
#[local] Abbreviation empty := (invalid_thread_id platform).
#[local] Abbreviation reusable := (invalid_thread_id2 platform).
#[local] Abbreviation repr := (hash_repr tr platform hashf).
#[local] Abbreviation used := (used platform).
#[local] Abbreviation valid := (valid_id platform).
Implicit Types (t : ImplicitProducerHash) (m mt : gmap Z loc) (e : ImplicitProducerKVP) (s : HashState).
Implicit Types (ts : gmap loc ImplicitProducerHash) (l : list (loc * gmap Z loc)) (c : Z).

(** The tables from [p] on, with the map that each of them represents. *)
Fixpoint table_chain ts (p : loc) l : Prop :=
  match l with
  | [] => p = nullptr
  | (x, mt) :: l => p = x /\ x <> nullptr /\
      exists t, ts !! x = Some t /\ repr t mt /\ has_empty platform t /\ table_chain ts (hash_prev t) l
  end.

Lemma table_chain_frame ts ts' p l :
  table_chain ts p l -> (forall x, x ∈ l.*1 -> ts' !! x = ts !! x) -> table_chain ts' p l.
Proof using Type.
  revert p. induction l as [|[x mt] l IH]; intros p Hc Hf; [done|]. destruct Hc as (-> & Hx & t & Ht & Hm & He & Hc).
  split; [done|]. split; [done|]. exists t. split; [rewrite Hf; [done|by left]|]. split; [done|]. split; [done|].
  apply IH; [done|]. intros y Hy. apply Hf. by right.
Qed.

Lemma table_chain_tables ts p l x : table_chain ts p l -> x ∈ l.*1 -> is_Some (ts !! x).
Proof using Type.
  revert p. induction l as [|[y mt] l IH]; intros p Hc; [by intros ?%not_elem_of_nil|].
  destruct Hc as (-> & _ & t & Ht & _ & _ & Hc). intros [->|Hx]%elem_of_cons; [by exists t|by eapply IH].
Qed.

(** The hash represents [m].  [c] slots are accounted for: those in use in the
    main table, and one for each thread that is in older tables only.  The last
    table is the initial one; the others were allocated. *)
Record hash_inv s m c (main : loc) (m0 : gmap Z loc) l : Prop := {
  hi_main : implicitProducerHash s = main;
  hi_not_null : main <> nullptr;
  hi_table : exists t, tables s !! main = Some t /\ repr t m0 /\ table_chain (tables s) (hash_prev t) l /\
    used t + Z.of_nat (base.size (dom m ∖ dom m0)) <= c < hash_capacity t;
  hi_nodup : NoDup (main :: l.*1);
  hi_sub : forall mt, mt ∈ m0 :: l.*2 -> mt ⊆ m;
  hi_cover : forall id v, m !! id = Some v -> exists mt, mt ∈ m0 :: l.*2 /\ mt !! id = Some v;
  hi_dom : dom (tables s) = list_to_set (main :: l.*1);
  hi_initial : exists (xs : list loc) t, main :: l.*1 = xs ++ [initialImplicitProducerHash s] /\ Forall (fun x => 0 < x) xs /\
    tables s !! initialImplicitProducerHash s = Some t /\ hash_capacity t = INITIAL_IMPLICIT_PRODUCER_HASH_SIZE tr
}.

Lemma hash_inv_valid s m c main m0 l id v : hash_inv s m c main m0 l -> m !! id = Some v -> valid id.
Proof using Type.
  intros [] (mt & Hmt & Hv)%hi_cover0. destruct hi_table0 as (t & _ & Hm0 & Hc & _).
  apply elem_of_cons in Hmt as [->|Hmt]; [by apply (hr_reach _ _ _ _ _ Hm0 id v)|].
  revert Hc. generalize (hash_prev t). clear -Hmt Hv. induction l as [|[x m'] l IH]; [by apply not_elem_of_nil in Hmt|].
  intros p (_ & _ & t & _ & Hm' & _ & Hc). cbn in Hmt. apply elem_of_cons in Hmt as [->|Hmt]; [|by eapply IH].
  by apply (hr_reach _ _ _ _ _ Hm' id v).
Qed.

(** The main table has a free slot. *)
Lemma hash_inv_free s m c main m0 l t :
  hash_inv s m c main m0 l -> tables s !! main = Some t -> repr t m0 -> has_empty platform t.
Proof using Type.
  intros [] Ht Hm0. destruct hi_table0 as (t' & Ht' & _ & _ & Hc). rewrite Ht in Ht'. injection Ht' as <-.
  eapply used_has_empty; [by destruct Hm0|]. lia.
Qed.

Lemma hash_inv_size s m c main m0 l : hash_inv s m c main m0 l -> Z.of_nat (base.size m) <= c.
Proof using Type.
  intros []. destruct hi_table0 as (t & _ & Hm0 & _ & Hc). pose proof (size_le_used _ _ _ _ _ Hm0) as Hle.
  rewrite <- (size_dom m0) in Hle. rewrite <- (size_dom m).
  assert (dom m ⊆ dom m0 ∪ (dom m ∖ dom m0)) as Hsub.
  { intros x Hx. destruct (decide (x ∈ dom m0)); [by apply elem_of_union_l|apply elem_of_union_r; by apply elem_of_difference]. }
  apply subseteq_size in Hsub. rewrite size_union in Hsub; [lia|]. intros x Hx Hx'. by apply elem_of_difference in Hx' as [_ ?].
Qed.

Lemma chain_length s m c main m0 l :
  hash_inv s m c main m0 l -> (S (length l) <= base.size (tables s))%nat.
Proof using Type.
  intros []. destruct hi_table0 as (t & Ht & _ & Hc & _).
  assert (S (length l) = length (main :: l.*1)) as -> by (cbn; by rewrite length_fmap).
  rewrite <- size_dom, <- (size_list_to_set (C := gset loc) _ hi_nodup0). apply subseteq_size. intros x Hx%elem_of_list_to_set.
  apply elem_of_dom. apply elem_of_cons in Hx as [->|Hx]; [by exists t|by eapply table_chain_tables].
Qed.

(** ** Lookup *)

Lemma probe_map s h t mt id :
  tables s !! h = Some t -> repr t mt -> has_empty platform t -> valid id ->
  wp (probe tr platform (Z.to_nat (hash_capacity t)) h id (hashf id)) (fun r s' => s' = s /\
    match r with
    | Some i => exists e, zlookup (hash_entries t) i = Some e /\ mt !! id = Some (kvp_value e)
    | None => mt !! id = None
    end) nothrow s.
Proof using TraitsOk0.
  intros Ht Hm Hfree Hid. destruct (repr_first tr platform hashf t mt id Hm Hid Hfree) as (d & e & Hd & Hf & Hl).
  pose proof (hr_wf _ _ _ _ _ Hm) as Hwf. pose proof (capacity_pos _ _ Hwf).
  eapply wp_mono; [eapply (probe_spec tr platform _ _ _ _ t d e); try done; lia| |done].
  cbn beta. intros r s' [-> ->]. split; [done|]. destruct (Z.eqb_spec (kvp_key e) id); [|done].
  exists e. split; [apply Hf|done].
Qed.

(** Changing the main table. *)
Lemma hash_inv_update s m c main m0 l t m' m0' c' t' s' :
  hash_inv s m c main m0 l -> tables s !! main = Some t -> tables s' = <[main := t']> (tables s) ->
  implicitProducerHash s' = main -> initialImplicitProducerHash s' = initialImplicitProducerHash s ->
  hash_prev t' = hash_prev t -> hash_capacity t' = hash_capacity t -> repr t' m0' ->
  used t' + Z.of_nat (base.size (dom m' ∖ dom m0')) <= c' < hash_capacity t' ->
  m0' ⊆ m' -> m ⊆ m' -> (forall id v, m' !! id = Some v -> m !! id = None -> m0' !! id = Some v) -> m0 ⊆ m0' ->
  hash_inv s' m' c' main m0' l.
Proof using Type.
  intros [Emain Hnn (t0 & Ht0 & Hrepr & Hchain & Hc) Hnd Hsub Hcover Hdm (l0 & ti & El & Hl0 & Hti & Ecap)] Ht Ets Eh Ei Ep Ec Hrepr' Hc' H0 Hm Hnew H00.
  rewrite Ht in Ht0. injection Ht0 as <-. assert (main ∉ l.*1) as Hml by (by apply NoDup_cons in Hnd as [? _]).
  split; try done.
  - exists t'. rewrite Ets, lookup_insert_eq, Ep. split; [done|]. split; [done|]. split; [|done].
    eapply table_chain_frame; [done|]. intros x Hx. rewrite lookup_insert_ne; [done|]. by intros ->.
  - intros mt [->|Hmt]%elem_of_cons; [done|]. transitivity m; [|done]. apply Hsub. by right.
  - intros id v Hv. destruct (m !! id) as [v0|] eqn:Hid.
    + pose proof (lookup_weaken _ _ _ _ Hid Hm) as Hv'. rewrite Hv in Hv'. injection Hv' as <-.
      destruct (Hcover id v Hid) as (mt & [->|Hmt]%elem_of_cons & E).
      * exists m0'. split; [by left|]. by eapply lookup_weaken.
      * exists mt. split; [by right|done].
    + exists m0'. split; [by left|auto].
  - rewrite Ets, dom_insert_lookup_L; [done|by exists t].
  - rewrite Ei, Ets. destruct (decide (main = initialImplicitProducerHash s)) as [E|Hne].
    + exists l0, t'. rewrite <- E in *. rewrite lookup_insert_eq. split_and!; try done. congruence.
    + exists l0, ti. by rewrite lookup_insert_ne.
Qed.

(** The slot for a new entry of the main table. *)
Lemma main_slot s m c main m0 l t id :
  hash_inv s m c main m0 l -> tables s !! main = Some t -> repr t m0 -> valid id ->
  exists d e, 0 <= d < hash_capacity t /\ first_at (available_key platform tls) t (hashf id) d e /\
    zlookup (hash_entries t) (slot_index t (hashf id) d) = Some e /\
    (forall v, used (with_slot t (slot_index t (hashf id) d) (mkKVP id v)) =
       used t + (if tls && (kvp_key e =? reusable) then 0 else 1)).
Proof using TraitsOk0.
  intros Hinv Ht Hrepr [Hid _]. destruct (hash_inv_free _ _ _ _ _ _ _ Hinv Ht Hrepr) as (j & e0 & Hj & Ee0).
  pose proof (hr_wf _ _ _ _ _ Hrepr) as Hwf.
  destruct (first_exists tr (available_key platform tls) t (hashf id) j e0) as (d & e & Hd & Hf); [done|done| |].
  { unfold available_key. by rewrite Ee0, Z.eqb_refl, orb_true_r. }
  pose proof Hf as (H0 & Hde & Hav & _). exists d, e. split; [lia|]. split; [done|]. split; [done|]. intros v.
  rewrite (used_with_slot platform t _ e) by done. unfold slot_used. cbn. rewrite (proj2 (Z.eqb_neq _ _) Hid).
  unfold available_key in Hav. pose proof (invalid_thread_ids_differ platform) as Hdiff.
  destruct (tls && (kvp_key e =? reusable)) eqn:Er.
  - apply andb_true_iff in Er as [_ Er%Z.eqb_eq]. rewrite (proj2 (Z.eqb_neq (kvp_key e) empty)) by congruence. lia.
  - cbn in Hav. rewrite Hav. lia.
Qed.

(** Copying the entry of a thread into the main table. *)
Lemma migrate_inv s m c main m0 l t id v :
  hash_inv s m c main m0 l -> tables s !! main = Some t -> repr t m0 -> m0 !! id = None -> m !! id = Some v ->
  wp (migrate tr platform tls (Z.to_nat (hash_capacity t)) main id (hashf id) v) (fun _ s' =>
    hash_inv s' m c main (<[id := v]> m0) l /\ dom (tables s') = dom (tables s) /\
    s' = set_tables (tables s') s) nothrow s.
Proof using TraitsOk0.
  intros Hinv Ht Hrepr Hm0 Hm. pose proof (hash_inv_valid _ _ _ _ _ _ _ _ Hinv Hm) as Hid.
  pose proof (hr_wf _ _ _ _ _ Hrepr) as Hwf.
  destruct (main_slot _ _ _ _ _ _ _ _ Hinv Ht Hrepr Hid) as (d & e & Hd & Hf & _ & Hu).
  eapply wp_mono; [eapply (migrate_spec tr platform tls); try done; lia| |done]. cbn beta. intros _ s' ->.
  assert (main ∈ dom (tables s)) as Hdom by (apply elem_of_dom; by exists t).
  split; [|split; [cbn; rewrite dom_insert_L; by apply subseteq_union_1_L, singleton_subseteq_l|done]].
  pose proof Hinv as [Emain _ (t0 & Ht0 & _ & _ & Hc) _ Hsub _ _ _]. rewrite Ht in Ht0. injection Ht0 as <-.
  eapply hash_inv_update; try done; [by eapply repr_insert|..].
  - rewrite Hu. cbn [hash_capacity with_slot]. rewrite dom_insert_L.
    assert (base.size (dom m ∖ ({[id]} ∪ dom m0)) + 1 = base.size (dom m ∖ dom m0))%nat as Es.
    { rewrite <- (size_singleton (C := gset Z) id). rewrite <- size_union.
      - f_equal. apply set_eq. intros x. rewrite elem_of_union, !elem_of_difference, elem_of_union, elem_of_singleton.
        destruct (decide (x = id)) as [->|]; [|tauto]. split; [|tauto]. intros _. split; [apply elem_of_dom; by exists v|].
        by apply not_elem_of_dom.
      - intros x [_ Hx]%elem_of_difference Hx'. apply Hx. by apply elem_of_union_l. }
    destruct (tls && _); lia.
  - apply insert_subseteq_l; [done|]. apply Hsub. by left.
  - intros id' v' H1 H2. congruence.
  - by apply insert_subseteq.
Qed.

(** Only entries of tables change. *)
Definition entries_only s s' : Prop := dom (tables s') = dom (tables s) /\ s' = set_tables (tables s') s.

Lemma entries_only_refl s : entries_only s s.
Proof using Type. split; [done|by destruct s]. Qed.

Lemma find_older_spec s m c main m0 l id l2 p fuel :
  hash_inv s m c main m0 l -> m0 !! id = None -> valid id -> table_chain (tables s) p l2 ->
  (forall x mt, (x, mt) ∈ l2 -> x <> main /\ mt ⊆ m) -> (length l2 <= fuel)%nat ->
  wp (find_in_tables tr platform tls fuel main p id (hashf id)) (fun r s' =>
    (r = None /\ s' = s /\ forall mt, mt ∈ l2.*2 -> mt !! id = None) \/
    (exists v m0', r = Some v /\ m !! id = Some v /\ hash_inv s' m c main m0' l /\ entries_only s s')) nothrow s.
Proof using TraitsOk0.
  intros Hinv Hm0 Hid. revert p fuel. induction l2 as [|[x mt] l2 IH]; intros p fuel Hchain Hl2 Hf.
  { cbn in Hchain. subst p. destruct fuel; cbn; left; (split; [done|]; split; [done|]); by intros mt ?%not_elem_of_nil. }
  destruct Hchain as (-> & Hx & t & Ht & Hm & Hfree & Hchain). destruct fuel as [|fuel]; [cbn in Hf; lia|].
  cbn [find_in_tables length] in *. rewrite (proj2 (Z.eqb_neq _ _) Hx). wp_step. eapply wp_table; [done|]. wp_step.
  eapply wp_mono; [by eapply probe_map| |done]. cbn beta. intros [i|] s' [-> Hr].
  - destruct Hr as (e & He & Hv). destruct (Hl2 x mt ltac:(by left)) as [Hxm Hsub]. wp_step. eapply wp_slot; [done|done|].
    wp_step. rewrite (proj2 (Z.eqb_neq _ _) Hxm). cbn [negb].
    pose proof Hinv as [_ _ (t0 & Ht0 & Hrepr & _) _ _ _ _]. wp_step. eapply wp_table; [done|].
    eapply wp_mono; [eapply migrate_inv; try done; by eapply lookup_weaken| |done]. cbn beta. intros _ s' [Hinv' He'].
    wp_step. right. exists (kvp_value e), (<[id := kvp_value e]> m0). split; [done|]. split; [by eapply lookup_weaken|done].
  - eapply wp_mono; [apply (IH (hash_prev t)); [done| |lia]| |done].
    { intros y mt' Hy. apply Hl2. by right. }
    cbn beta. intros r s' [(-> & -> & Hall)|?]; [left|by right]. split; [done|]. split; [done|].
    intros mt' [->|Hmt]%elem_of_cons; [done|by apply Hall].
Qed.

(** The lookup finds a thread in whichever table it is. *)
Lemma find_producer_spec s m c main m0 l id :
  hash_inv s m c main m0 l -> valid id ->
  wp (find_producer tr platform tls id (hashf id)) (fun r s' =>
    r = m !! id /\ (exists m0', hash_inv s' m c main m0' l) /\ entries_only s s') nothrow s.
Proof using TraitsOk0.
  intros Hinv Hid. pose proof Hinv as [Emain Hnn (t & Ht & Hrepr & Hchain & Hc) Hnd Hsub Hcover Hdm (l0 & ti & El & Hl0 & Hti & Eci)].
  unfold find_producer. do 3 wp_step. rewrite Emain. apply wp_cassert; [by rewrite (proj2 (Z.eqb_neq _ _) Hnn)|]. do 2 wp_step.
  pose proof (chain_length _ _ _ _ _ _ Hinv) as Hlen. destruct (base.size (tables s)) as [|fuel]; [lia|]. cbn [find_in_tables].
  rewrite (proj2 (Z.eqb_neq _ _) Hnn). wp_step. eapply wp_table; [done|]. wp_step.
  eapply wp_mono; [eapply probe_map; [done|done|by eapply hash_inv_free|done]| |done]. cbn beta. intros [i|] s' [-> Hr].
  - destruct Hr as (e & He & Hv). wp_step. eapply wp_slot; [done|done|]. wp_step. rewrite Z.eqb_refl. cbn [negb]. do 2 wp_step.
    split; [|split; [by exists m0|apply entries_only_refl]]. symmetry. eapply lookup_weaken; [done|]. apply Hsub. by left.
  - eapply wp_mono; [apply (find_older_spec s m c main m0 l id l (hash_prev t)); try done; [|lia]| |done].
    { intros x mt Hx. split.
      - intros ->. apply NoDup_cons in Hnd as [Hn _]. apply Hn, list_elem_of_fmap. by exists (main, mt).
      - apply Hsub. right. apply list_elem_of_fmap. by exists (x, mt). }
    cbn beta. intros r s' [(-> & -> & Hall)|(v & m0' & -> & Hv & Hinv' & He)].
    + split; [|split; [by exists m0|apply entries_only_refl]]. destruct (m !! id) as [v|] eqn:Hv; [|done].
      destruct (Hcover id v Hv) as (mt & [->|Hmt]%elem_of_cons & E); [congruence|]. specialize (Hall mt Hmt). congruence.
    + split; [done|]. split; [by exists m0'|done].
Qed.

(** ** Insertion *)

Lemma claim_inv s m c main m0 l t id p :
  hash_inv s m c main m0 l -> tables s !! main = Some t -> repr t m0 -> m !! id = None -> valid id ->
  c + 1 < hash_capacity t -> implicitProducerHashCount s = c + 1 -> 0 <= c -> c + 1 < 2 ^ sb ->
  wp (claim_slot tr platform tls (Z.to_nat (hash_capacity t)) main id (hashf id) p) (fun _ s' =>
    exists c', c <= c' <= c + 1 /\ hash_inv s' (<[id := p]> m) c' main (<[id := p]> m0) l /\
      s' = set_hashCount c' (set_tables (tables s') s) /\ dom (tables s') = dom (tables s)) nothrow s.
Proof using TraitsOk0.
  intros Hinv Ht Hrepr Hm Hid Hcap Hcount Hc0 Hcs.
  pose proof (hr_wf _ _ _ _ _ Hrepr) as Hwf. pose proof (hi_main _ _ _ _ _ _ Hinv) as Emain.
  pose proof (hi_sub _ _ _ _ _ _ Hinv m0 ltac:(by left)) as Hsub.
  assert (m0 !! id = None) as Hm0 by (by eapply lookup_weaken_None).
  destruct (main_slot _ _ _ _ _ _ _ _ Hinv Ht Hrepr Hid) as (d & e & Hd & Hf & _ & Hu).
  eapply wp_mono; [eapply (claim_slot_spec tr platform tls); try done; lia| |done]. cbn beta.
  intros _ s' (Ets & Ecount & Eh). rewrite Hcount in Ecount.
  exists (if tls && (kvp_key e =? reusable) then c else c + 1).
  split; [destruct (tls && _); lia|]. split.
  - eapply hash_inv_update; try done; [by rewrite Eh|by rewrite Eh|by eapply repr_insert| |by apply insert_mono|by apply insert_subseteq| |by apply insert_subseteq].
    + rewrite Hu. cbn [hash_capacity with_slot]. pose proof Hinv as [_ _ (t0 & Ht0 & _ & _ & Hc) _ _ _ _].
      rewrite Ht in Ht0. injection Ht0 as <-.
      assert (dom (<[id := p]> m) ∖ dom (<[id := p]> m0) = dom m ∖ dom m0) as ->.
      { apply set_eq. intros x. rewrite !dom_insert_L, !elem_of_difference, !elem_of_union, !elem_of_singleton.
        assert (id ∉ dom m) by (by apply not_elem_of_dom). destruct (decide (x = id)) as [->|]; tauto. }
      destruct (tls && _); lia.
    + intros id' v Hv Hn. destruct (decide (id' = id)) as [->|Hne]; [by rewrite lookup_insert_eq in *|].
      rewrite lookup_insert_ne in Hv by done. congruence.
  - split.
    + assert (implicitProducerHashCount s' = if tls && (kvp_key e =? reusable) then c else c + 1) as <-; [|done].
      rewrite Ecount. destruct (tls && _); [|done]. rewrite wrap_small by lia. lia.
    + rewrite Ets, dom_insert_L. apply subseteq_union_1_L, singleton_subseteq_l, elem_of_dom. by exists t.
Qed.

(** ** Growth *)

Lemma empty_table_repr k prev :
  0 <= k < sb -> let t := mkHash (2 ^ k) (empty_entries platform (2 ^ k)) prev in repr t ∅ /\ used t = 0.
Proof using Type.
  intros Hk t. assert (0 < 2 ^ k) by (apply Z.pow_pos_nonneg; lia).
  assert (forall i e, zlookup (hash_entries t) i = Some e -> kvp_key e = empty) as Hall.
  { intros i e Hi. pose proof (zlookup_Some_range _ _ _ Hi) as Hr. cbn in Hr, Hi. unfold empty_entries in Hr, Hi.
    rewrite zlength_replicate in Hr by lia. rewrite zlookup_replicate in Hi by lia. by injection Hi as <-. }
  split.
  - split.
    + split; [by exists k|]. cbn. unfold empty_entries. by rewrite zlength_replicate by lia.
    + intros j e Hj [Hv _]. by apply Hall in Hj.
    + intros id v. by rewrite lookup_empty.
    + intros i j ei ej Hi _ [Hv _]. by apply Hall in Hi.
  - unfold HashChain.used. apply zsum_zero. intros e (i & Hi)%list_elem_of_lookup. unfold slot_used.
    rewrite (Hall (Z.of_nat i) e); [by rewrite Z.eqb_refl|]. unfold zlookup. rewrite decide_True by lia. by rewrite Nat2Z.id.
Qed.

Lemma install_inv s m c main m0 l raw k :
  hash_inv s m c main m0 l -> 0 < raw -> tables s !! raw = None -> 0 <= k < sb -> c < 2 ^ k ->
  wp (install_table platform raw (2 ^ k) main) (fun _ s' =>
    hash_inv s' m c raw ∅ ((main, m0) :: l) /\ s' = set_hash raw (set_tables (tables s') s) /\
    dom (tables s') = {[raw]} ∪ dom (tables s) /\
    exists t, tables s' !! raw = Some t /\ hash_capacity t = 2 ^ k /\ repr t ∅) nothrow s.
Proof using TraitsOk0.
  intros Hinv Hraw Hnew Hk Hc. unfold install_table. wp_steps. set (t := mkHash _ _ _).
  pose proof (hash_inv_size _ _ _ _ _ _ Hinv) as Hsize. destruct (empty_table_repr k main Hk) as [Hrepr Hu]. fold t in Hrepr, Hu.
  pose proof Hinv as [Emain Hnn (t0 & Ht0 & Hrepr0 & Hchain & Hc0) Hnd Hsub Hcover Hdm (l0 & ti & El & Hl0 & Hti & Eci)].
  assert (forall x, is_Some (tables s !! x) -> tables (set_hash raw (set_tables (<[raw := t]> (tables s)) s)) !! x = tables s !! x) as Hkeep.
  { intros x [y Hy]. cbn. rewrite lookup_insert_ne; [done|]. intros <-. congruence. }
  split; [|split; [done|split; [cbn; by rewrite dom_insert_L|exists t; cbn; by rewrite lookup_insert_eq]]].
  split; try done.
  - unfold nullptr. lia.
  - exists t. cbn [tables set_hash set_tables]. rewrite lookup_insert_eq. split; [done|]. split; [done|]. split.
    + split; [done|]. split; [done|]. exists t0. rewrite lookup_insert_ne by congruence. split; [done|]. split; [done|].
      split; [by eapply hash_inv_free|]. eapply table_chain_frame; [done|]. intros x Hx. apply Hkeep. by eapply table_chain_tables.
    + rewrite Hu. rewrite dom_empty_L, difference_empty_L, size_dom. cbn. lia.
  - apply NoDup_cons. split; [|done]. intros Hin. assert (is_Some (tables s !! raw)) as [? ?]; [|congruence].
    apply elem_of_cons in Hin as [->|Hin]; [by exists t0|by eapply table_chain_tables].
  - intros mt [->|Hmt]%elem_of_cons; [apply map_empty_subseteq|by apply Hsub].
  - intros id v Hv. destruct (Hcover id v Hv) as (mt & Hmt & E). exists mt. split; [by right|done].
  - cbn [tables set_hash set_tables]. by rewrite dom_insert_L, Hdm.
  - exists (raw :: l0), ti. cbn [fmap list_fmap fst initialImplicitProducerHash set_hash set_tables]. rewrite Hkeep by by exists ti.
    split; [by rewrite El|]. split; [by constructor|done].
Qed.

(** Doubling stops below the range of [size_t], when half of that is not
    reached by the count. *)
Lemma double_capacity_spec fuel newCount a s :
  1 <= a < sb -> newCount < 2 ^ (sb - 2) -> sb - a <= Z.of_nat fuel ->
  wp (double_capacity tr fuel newCount (2 ^ a)) (fun r s' =>
    s' = s /\ exists b, a <= b < sb /\ r = 2 ^ b /\ newCount < 2 ^ (b - 1)) nothrow s.
Proof using TraitsOk0.
  intros Ha Hn. revert a Ha. induction fuel as [|fuel IH]; intros a Ha Hf; [lia|]. cbn [double_capacity].
  assert (Z.shiftr (2 ^ a) 1 = 2 ^ (a - 1)) as ->.
  { rewrite Z.shiftr_div_pow2 by lia. change (2 ^ 1) with 2. replace (2 ^ a) with (2 ^ (a - 1) * 2); [by apply Z.div_mul|].
    rewrite Z.mul_comm, <- Z.pow_succ_r by lia. f_equal. lia. }
  destruct (Z.leb_spec (2 ^ (a - 1)) newCount) as [Hle|Hlt].
  - assert (a - 1 < sb - 2) as Ha1 by (apply (Z.pow_lt_mono_r_iff 2); lia).
    assert (wrap sb (Z.shiftl (2 ^ a) 1) = 2 ^ (a + 1)) as ->.
    { rewrite Z.shiftl_mul_pow2 by lia. change (2 ^ 1) with 2. rewrite Z.mul_comm, <- Z.pow_succ_r by lia.
      rewrite wrap_small; [done|]. split; [apply Z.pow_nonneg; lia|]. apply Z.pow_lt_mono_r; lia. }
    eapply wp_mono; [apply IH; lia| |done]. cbn beta. intros r s' (-> & b & Hb & -> & Hlt). split; [done|]. exists b. by split_and!; try lia.
  - wp_step. split; [done|]. exists a. by split_and!; try lia.
Qed.

(** ** Removal *)

Lemma remove_table s x t mt id :
  tables s !! x = Some t -> repr t mt -> has_empty platform t -> valid id ->
  wp (remove_id tr platform (Z.to_nat (hash_capacity t)) x id (hashf id)) (fun _ s' => exists t',
    s' = set_tables (<[x := t']> (tables s)) s /\ repr t' (delete id mt) /\ has_empty platform t' /\
    used t' = used t /\ hash_capacity t' = hash_capacity t /\ hash_prev t' = hash_prev t) nothrow s.
Proof using TraitsOk0.
  intros Ht Hm Hfree Hid. destruct (repr_first tr platform hashf t mt id Hm Hid Hfree) as (d & e & Hd & Hf & Hl).
  pose proof (hr_wf _ _ _ _ _ Hm) as Hwf. pose proof (capacity_pos _ _ Hwf).
  eapply wp_mono; [eapply (remove_id_spec tr platform _ _ _ _ t d e); try done; lia| |done]. cbn beta. intros _ s' ->.
  destruct (Z.eqb_spec (kvp_key e) id) as [Ek|Hne].
  - pose proof (slot_index_range tr t (hashf id) d Hwf) as Hr. destruct Hf as (_ & He & _ & _).
    eexists. split; [done|]. split; [by apply repr_remove|].
    assert (zlookup (hash_entries t) (slot_index t (hashf id) d) = Some e) as He' by done.
    destruct Hid as [Hid1 Hid2]. split; [|split; [|done]].
    + destruct Hfree as (j & e0 & Hj & Ee0). exists j, e0. split; [|done]. rewrite with_slot_lookup by done.
      rewrite decide_False; [done|]. intros ->. congruence.
    + rewrite (used_with_slot platform _ _ _ _ He'). unfold slot_used. cbn. pose proof (invalid_thread_ids_differ platform).
      rewrite !(proj2 (Z.eqb_neq _ _)) by congruence. lia.
  - exists t. rewrite insert_id by done. split; [by destruct s|]. rewrite delete_id by done. done.
Qed.

Definition removed id l : list (loc * gmap Z loc) := prod_map (fun x => x) (delete id) <$> l.

Lemma removed_tables id l : (removed id l).*1 = l.*1.
Proof using Type. induction l as [|[x mt] l IH]; [done|]. cbn. by f_equal. Qed.

(** Tables keep their size. *)
Definition same_capacities s s' : Prop :=
  forall x t, tables s !! x = Some t -> exists t', tables s' !! x = Some t' /\ hash_capacity t' = hash_capacity t.

Lemma same_capacities_insert s s' x t t' :
  tables s !! x = Some t -> hash_capacity t' = hash_capacity t -> same_capacities (set_tables (<[x := t']> (tables s)) s) s' ->
  same_capacities s s'.
Proof using Type.
  intros Ht E H y r Hr. destruct (decide (x = y)) as [<-|Hne].
  - destruct (H x t') as (r' & Hr' & E'); [apply lookup_insert_eq|]. exists r'. split; [done|]. congruence.
  - apply H. cbn. by rewrite lookup_insert_ne.
Qed.

Lemma remove_from_spec s l p id fuel :
  table_chain (tables s) p l -> NoDup l.*1 -> (length l <= fuel)%nat -> valid id ->
  wp (remove_from_tables tr platform fuel p id (hashf id)) (fun _ s' =>
    table_chain (tables s') p (removed id l) /\ (forall x, (x ∉ l.*1) -> tables s' !! x = tables s !! x) /\
    entries_only s s' /\ same_capacities s s') nothrow s.
Proof using TraitsOk0.
  revert s p fuel. induction l as [|[x mt] l IH]; intros s p fuel Hc Hnd Hf Hid.
  { cbn in Hc. subst p. destruct fuel; cbn; (split; [done|]; split; [done|split; [apply entries_only_refl|by intros x t Ht; exists t]]). }
  destruct Hc as (-> & Hx & t & Ht & Hm & Hfree & Hc). destruct fuel as [|fuel]; [cbn in Hf; lia|].
  cbn [fmap list_fmap] in Hnd. apply NoDup_cons in Hnd as [Hxl Hnd]. cbn [remove_from_tables length fst] in *.
  rewrite (proj2 (Z.eqb_neq _ _) Hx). wp_step. eapply wp_table; [done|]. wp_step.
  eapply wp_mono; [by eapply remove_table| |done]. cbn beta. intros _ s1 (t' & -> & Hm' & Hfree' & _ & Ecap & Ep).
  eapply wp_mono; [apply (IH _ (hash_prev t) fuel); [|done|lia|done]| |done].
  { eapply table_chain_frame; [done|]. intros y Hy. cbn. rewrite lookup_insert_ne; [done|]. by intros ->. }
  cbn beta. intros _ s' (Hc' & Hkeep & (Hdom & Hs') & Hcaps). cbn [tables set_tables] in *.
  assert (tables s' !! x = Some t') as Hx' by (rewrite (Hkeep x Hxl); apply lookup_insert_eq).
  split; [|split; [|split; [split|]]].
  - cbn. split; [done|]. split; [done|]. exists t'. rewrite Ep. done.
  - intros y [Hyx Hyl]%not_elem_of_cons. rewrite Hkeep by done. by rewrite lookup_insert_ne.
  - rewrite Hdom, dom_insert_L. apply subseteq_union_1_L, singleton_subseteq_l, elem_of_dom. by exists t.
  - by rewrite Hs' at 1.
  - by eapply same_capacities_insert.
Qed.

(** A thread that exits is forgotten by all tables. *)
Lemma remove_thread_spec s m c main m0 l id :
  hash_inv s m c main m0 l -> valid id ->
  wp (remove_thread tr platform id (hashf id)) (fun _ s' =>
    hash_inv s' (delete id m) c main (delete id m0) (removed id l) /\ entries_only s s') nothrow s.
Proof using TraitsOk0.
  intros Hinv Hid. pose proof Hinv as [Emain Hnn (t & Ht & Hrepr & Hchain & Hc) Hnd Hsub Hcover Hdm (l0 & ti & El & Hl0 & Hti & Eci)].
  unfold remove_thread. do 3 wp_step. rewrite Emain. apply wp_cassert; [by rewrite (proj2 (Z.eqb_neq _ _) Hnn)|]. do 2 wp_step.
  pose proof (chain_length _ _ _ _ _ _ Hinv) as Hlen. destruct (base.size (tables s)) as [|fuel]; [lia|]. cbn [remove_from_tables].
  rewrite (proj2 (Z.eqb_neq _ _) Hnn). wp_step. eapply wp_table; [done|]. wp_step. apply NoDup_cons in Hnd as [Hml Hnd].
  eapply wp_mono; [eapply remove_table; [done|done|by eapply hash_inv_free|done]| |done].
  cbn beta. intros _ s1 (t' & -> & Hm' & _ & Hu & Ecap & Ep).
  eapply wp_mono; [apply (remove_from_spec _ l (hash_prev t)); [|done|lia|done]| |done].
  { eapply table_chain_frame; [done|]. intros y Hy. cbn. rewrite lookup_insert_ne; [done|]. by intros ->. }
  cbn beta. intros _ s' (Hc' & Hkeep & (Hdom & Hs') & Hcaps). cbn [tables set_tables] in *.
  assert (tables s' !! main = Some t') as Ht' by (rewrite (Hkeep main Hml); apply lookup_insert_eq).
  split; [|split].
  - split.
    + by rewrite Hs'.
    + done.
    + exists t'. split; [done|]. split; [done|]. rewrite Ep. split; [done|]. rewrite Hu, Ecap. rewrite !dom_delete_L.
      assert ((dom m ∖ {[id]}) ∖ (dom m0 ∖ {[id]}) ⊆ dom m ∖ dom m0) as Hs%subseteq_size.
      { intros x. rewrite !elem_of_difference, elem_of_singleton. intros [[H1 H2] H3]. split; [done|]. intros H4. by apply H3. }
      lia.
    + rewrite removed_tables. by apply NoDup_cons.
    + intros mt Hmt. apply elem_of_cons in Hmt as [->|Hmt]; [apply delete_mono, Hsub; by left|].
      unfold removed in Hmt. rewrite <- list_fmap_compose in Hmt. apply list_elem_of_fmap in Hmt as ([x mt0] & -> & Hin). cbn.
      apply delete_mono, Hsub. right. apply list_elem_of_fmap. by exists (x, mt0).
    + intros id' v [Hne Hv]%lookup_delete_Some. destruct (Hcover id' v Hv) as (mt & Hmt & E). exists (delete id mt).
      split; [|by rewrite lookup_delete_ne]. apply elem_of_cons in Hmt as [->|Hmt]; [by left|right].
      apply list_elem_of_fmap in Hmt as ([x mt0] & -> & Hin). unfold removed. rewrite <- list_fmap_compose.
      apply list_elem_of_fmap. by exists (x, mt0).
    + rewrite Hdom, dom_insert_lookup_L, removed_tables by (by exists t). done.
    + rewrite removed_tables. assert (initialImplicitProducerHash s' = initialImplicitProducerHash s) as -> by by rewrite Hs'.
      destruct (same_capacities_insert s s' main t t' Ht Ecap Hcaps _ _ Hti) as (ti' & Hti' & Eti).
      exists l0, ti'. split_and!; try done. congruence.
  - rewrite Hdom, dom_insert_L. apply subseteq_union_1_L, singleton_subseteq_l, elem_of_dom. by exists t.
  - by rewrite Hs' at 1.
Qed.

(** The constructor makes an empty hash. *)
Lemma populate_hash_spec s :
  INITIAL_IMPLICIT_PRODUCER_HASH_SIZE tr <> 0 -> initialImplicitProducerHash s <> nullptr -> tables s = ∅ ->
  wp (populate_initial_implicit_producer_hash tr platform) (fun _ s' =>
    hash_inv s' ∅ 0 (initialImplicitProducerHash s) ∅ [] /\ implicitProducerHashCount s' = 0 /\
    implicitProducerHashResizeInProgress s' = implicitProducerHashResizeInProgress s /\
    initialImplicitProducerHash s' = initialImplicitProducerHash s /\
    dom (tables s') = {[initialImplicitProducerHash s]}) nothrow s.
Proof using TraitsOk0.
  intros Hsize Hnn Hts. unfold populate_initial_implicit_producer_hash. rewrite (proj2 (Z.eqb_neq _ _) Hsize). wp_steps. cbn.
  destruct (initial_hash_pow tr Hsize) as (e & He & Ee). rewrite Ee, Hts. destruct (empty_table_repr e nullptr He) as [Hrepr Hu].
  split; [|by rewrite dom_insert_L, dom_empty_L, union_empty_r_L]. split; try done.
  - cbn. eexists. rewrite lookup_insert_eq. split; [done|]. split; [done|]. split; [done|]. rewrite Hu. cbn.
    split; [done|]. by apply Z.pow_pos_nonneg; lia.
  - cbn. apply NoDup_singleton.
  - by intros mt ->%list_elem_of_singleton.
  - cbn. by rewrite dom_insert_L, dom_empty_L.
  - exists [], (mkHash (2 ^ e) (empty_entries platform (2 ^ e)) nullptr). cbn. split; [done|]. split; [constructor|].
    by rewrite lookup_insert_eq, Ee.
Qed.

(** ** Destruction *)

Lemma table_chain_linked ts p l : table_chain ts p l -> linked hash_prev ts p l.*1.
Proof using Type.
  revert p. induction l as [|[x mt] l IH]; intros p; [done|]. intros (-> & Hx & t & Ht & _ & _ & Hc).
  split; [done|]. split; [done|]. exists t. split; [done|]. by apply IH.
Qed.

(** All tables are freed but the last, which is a part of the queue object. *)
Lemma free_tables_spec fuel s p xs :
  linked hash_prev (tables s) p xs -> (length xs <= fuel)%nat ->
  wp (free_tables fuel p) (fun _ s' => exists ts, s' = set_tables ts s /\
    forall x, ts !! x = if decide (x ∈ xs /\ last xs <> Some x) then None else tables s !! x) nothrow s.
Proof using Type.
  revert s p fuel. induction xs as [|y xs IH]; intros s p fuel Hc Hf.
  { cbn in Hc. subst p. assert (exists ts, s = set_tables ts s /\ forall x, ts !! x = if decide (x ∈ [] /\ last (@nil loc) <> Some x) then None else tables s !! x) as H.
    { exists (tables s). split; [by destruct s|]. intros x. rewrite decide_False; [done|]. by intros [?%not_elem_of_nil _]. }
    by destruct fuel. }
  pose proof (linked_nodup _ _ _ Hc) as [Hy _]%NoDup_cons. destruct Hc as (-> & Hn & t & Ht & Hc).
  destruct fuel as [|fuel]; [cbn in Hf; lia|]. cbn [free_tables]. rewrite (proj2 (Z.eqb_neq _ _) Hn). wp_step. eapply wp_table; [done|]. wp_step.
  destruct xs as [|z xs].
  { cbn in Hc. rewrite Hc. rewrite Z.eqb_refl. cbn [negb]. wp_step.
    assert (exists ts, s = set_tables ts s /\ forall x, ts !! x = if decide (x ∈ [y] /\ last [y] <> Some x) then None else tables s !! x) as H.
    { exists (tables s). split; [by destruct s|]. intros x. rewrite decide_False; [done|].
      intros [->%list_elem_of_singleton Hl]. by apply Hl. }
    by destruct fuel. }
  destruct Hc as (Ez & Hnz & Hc). rewrite Ez, (proj2 (Z.eqb_neq _ _) Hnz). cbn [negb]. wp_step.
  eapply wp_mono; [apply (IH _ z fuel); [|cbn in *; lia]| |done].
  { apply linked_delete; [done|]. by split. }
  cbn beta. intros _ s' (ts & -> & Hts). exists ts. split; [done|]. intros x. rewrite Hts. cbn [tables set_tables].
  assert (last (y :: z :: xs) = last (z :: xs)) as -> by done.
  destruct (decide (x = y)) as [->|Hne].
  - rewrite decide_False by (intros [? _]; done). rewrite lookup_delete_eq, decide_True; [done|]. split; [by left|].
    intros Hl. apply Hy. rewrite last_lookup in Hl. by eapply list_elem_of_lookup_2.
  - rewrite lookup_delete_ne by done. assert (x ∈ y :: z :: xs <-> x ∈ z :: xs) as E by (rewrite (elem_of_cons (z :: xs) x y); split; [by intros [|]|by right]).
    apply decide_ext. by rewrite E.
Qed.

Lemma destroy_hash_tables_spec s m c main m0 l :
  hash_inv s m c main m0 l -> INITIAL_IMPLICIT_PRODUCER_HASH_SIZE tr <> 0 ->
  wp (destroy_hash_tables tr) (fun _ s' => initialImplicitProducerHash s' = initialImplicitProducerHash s /\
    dom (tables s') = {[initialImplicitProducerHash s]}) nothrow s.
Proof using Type.
  intros [Emain Hnn (t & Ht & _ & Hc & _) Hnd _ _ Hdm (xs & ti & El & _)] Hsize. unfold destroy_hash_tables. rewrite (proj2 (Z.eqb_neq _ _) Hsize). cbn [negb].
  do 4 wp_step. rewrite Emain.
  assert (linked hash_prev (tables s) main (main :: l.*1)) as Hl by (split; [done|]; split; [done|]; exists t; split; [done|by apply table_chain_linked]).
  eapply wp_mono; [eapply free_tables_spec; [exact Hl|by eapply linked_size]| |done].
  cbn beta. intros _ s' (ts & -> & Hts). split; [done|]. set (x := initialImplicitProducerHash s) in *.
  assert (last (main :: l.*1) = Some x) as Ex by by rewrite El, last_snoc.
  cbn. apply set_eq. intros y. rewrite elem_of_dom, Hts, elem_of_singleton.
  case_decide as Hy; [split; [by intros []|intros ->; by destruct Hy]|]. rewrite <- elem_of_dom, Hdm, elem_of_list_to_set.
  split; [|intros ->; rewrite last_lookup in Ex; by eapply list_elem_of_lookup_2].
  intros Hin. destruct (decide (y = x)) as [|Hne]; [done|]. destruct Hy. split; [done|]. congruence.
Qed.

(** C19: Looking a thread up finds exactly the producer it has, in whichever
    table that is; copying an entry of an older table into the current one
    changes no answer. *)
Theorem hash_find_correct s m c main m0 l id :
  hash_inv s m c main m0 l -> valid id ->
  exists s', find_producer tr platform tls id (hashf id) s = Ok (m !! id) s' /\
    (exists m0', hash_inv s' m c main m0' l) /\ entries_only s s'.
Proof using TraitsOk0.
  intros Hinv Hid. destruct (wp_nothrow_ok _ _ _ (find_producer_spec s m c main m0 l id Hinv Hid)) as (r & s' & E & -> & H).
  by exists s'.
Qed.

(** C29: When a thread exits it disappears from all tables; no other thread
    does. *)
Theorem hash_forget_correct s m c main m0 l id :
  hash_inv s m c main m0 l -> valid id ->
  exists s', remove_thread tr platform id (hashf id) s = Ok tt s' /\
    hash_inv s' (delete id m) c main (delete id m0) (removed id l) /\ entries_only s s'.
Proof using TraitsOk0.
  intros Hinv Hid. destruct (wp_nothrow_ok _ _ _ (remove_thread_spec s m c main m0 l id Hinv Hid)) as ([] & s' & E & H).
  by exists s'.
Qed.
End chain.

(** * Witnesses: the example table behind a new, empty one *)

Section example.
#[local] Abbreviation plat := ThreadLocalAddress.
Definition example_chain : HashState :=
  mkHashState 500 3 false (-1)
    (<[500 := mkHash (2 ^ 3) (empty_entries plat (2 ^ 3)) (-1)]> (tables example_hash)).
#[local] Abbreviation chain_inv := (hash_inv small_traits plat example_hashf).

Lemma example_chain_inv : chain_inv example_chain example_map 3 500 ∅ [(-1, example_map)].
Proof.
  destruct (empty_table_repr small_traits plat example_hashf 3 (-1)) as [Hrepr Hu]; [by cbn|]. split; try done.
  - eexists. split; [done|]. split; [exact Hrepr|]. split; [|rewrite Hu; by vm_compute].
    split; [done|]. split; [done|]. exists example_table. split; [done|]. split; [exact example_hash_repr|].
    split; [exact example_has_empty|done].
  - cbn. apply NoDup_cons. split; [by intros ?%list_elem_of_singleton|apply NoDup_singleton].
  - intros mt [->|[->|[]%not_elem_of_nil]%elem_of_cons]%elem_of_cons; [apply map_empty_subseteq|done].
  - intros id v Hv. exists example_map. split; [right; by left|done].
  - exists [500], example_table. split; [done|]. split; [by repeat constructor|done].
Qed.

Lemma hash_find_correct_witness :
  exists s', find_producer small_traits plat true 32 32 example_chain = Ok (Some 200) s' /\
    (exists m0', chain_inv s' example_map 3 500 m0' [(-1, example_map)]) /\ entries_only example_chain s'.
Proof.
  apply (hash_find_correct small_traits plat example_hashf true example_chain example_map 3 500 ∅ [(-1, example_map)] 32);
    [exact example_chain_inv|done].
Defined.

Lemma hash_forget_correct_witness :
  exists s', remove_thread small_traits plat 16 16 example_chain = Ok tt s' /\
    chain_inv s' (delete 16 example_map) 3 500 (delete 16 ∅) (removed 16 [(-1, example_map)]) /\ entries_only example_chain s'.
Proof.
  apply (hash_forget_correct small_traits plat example_hashf example_chain example_map 3 500 ∅ [(-1, example_map)] 16);
    [exact example_chain_inv|done].
Defined.
End example.
