(* ===== verification/HashSwap.v ===== *)
(** Queues that are moved or swapped exchange their hashes.  The tables that
    were allocated change hands; the initial table stays in its queue, so its
    entries are exchanged, and the last table that was allocated is linked to
    the initial one of its new queue. *)

From S2P Require Import Prelude MachineInt Traits ThreadExit ImplicitHash ImplicitHashProofs HashChain.

Section swap.
Context (tr : Traits) `{!TraitsOk tr} (platform : ThreadIdPlatform) (hashf : Z -> Z).
#[local] Abbreviation repr := (hash_repr tr platform hashf).
#[local] Abbreviation hinv := (hash_inv tr platform hashf).
#[local] Abbreviation table_chain := (table_chain tr platform hashf).
Implicit Types (t : ImplicitProducerHash) (m mt : gmap Z loc) (s a b : HashState) (p from to : loc).
Implicit Types (ts : gmap loc ImplicitProducerHash) (l : list (loc * gmap Z loc)) (c : Z).

(** The tables from [p] on until the pointer [q]. *)
Fixpoint chain_to ts p l (q : loc) : Prop :=
  match l with
  | [] => p = q
  | (x, mt) :: l => p = x /\ x <> nullptr /\
      exists t, ts !! x = Some t /\ repr t mt /\ has_empty platform t /\ chain_to ts (hash_prev t) l q
  end.

Lemma chain_to_end ts p l : chain_to ts p l nullptr <-> table_chain ts p l.
Proof using Type.
  revert p. induction l as [|[x mt] l IH]; intros p; [done|]. cbn.
  split; intros (? & ? & t & ? & ? & ? & ?); (split; [done|]); (split; [done|]); exists t; (split_and!; try done); by apply IH.
Qed.

Lemma chain_to_snoc ts p l x mt q :
  chain_to ts p (l ++ [(x, mt)]) q <->
  chain_to ts p l x /\ x <> nullptr /\ exists t, ts !! x = Some t /\ repr t mt /\ has_empty platform t /\ hash_prev t = q.
Proof using Type.
  revert p. induction l as [|[y my] l IH]; intros p; [done|]. cbn [app chain_to]. split.
  - intros (-> & Hy & t & Ht & Hr & He & (Hc & ?)%IH). split; [|done]. split; [done|]. split; [done|]. by exists t.
  - intros ((-> & Hy & t & Ht & Hr & He & Hc) & ?). split; [done|]. split; [done|]. exists t. split_and!; try done. by apply IH.
Qed.

Lemma chain_to_frame ts ts' p l q :
  chain_to ts p l q -> (forall x, x ∈ l.*1 -> ts' !! x = ts !! x) -> chain_to ts' p l q.
Proof using Type.
  revert p. induction l as [|[x mt] l IH]; intros p Hc Hf; [done|]. destruct Hc as (-> & Hx & t & Ht & Hm & He & Hc).
  split; [done|]. split; [done|]. exists t. split; [rewrite Hf; [done|by left]|]. split; [done|]. split; [done|].
  apply IH; [done|]. intros y Hy. apply Hf. by right.
Qed.

Lemma chain_to_in ts p l q x : chain_to ts p l q -> x ∈ l.*1 -> is_Some (ts !! x).
Proof using Type.
  revert p. induction l as [|[y mt] l IH]; intros p; [by intros _ ?%not_elem_of_nil|]. intros (-> & _ & t & Ht & _ & _ & Hc).
  intros [->|Hx]%elem_of_cons; [by exists t|by eapply IH].
Qed.

(** ** Relinking *)

(** Only links to older tables change. *)
Definition contents_of_table t : Z * list ImplicitProducerKVP := (hash_capacity t, hash_entries t).
Definition links_only ts ts' : Prop := forall x, contents_of_table <$> ts' !! x = contents_of_table <$> ts !! x.

Lemma repr_contents t t' mt : contents_of_table t' = contents_of_table t -> repr t mt -> repr t' mt.
Proof using Type. destruct t, t'. intros [= -> ->] [[] ? ? ?]. by split; [split|..]. Qed.

Lemma has_empty_contents t t' : contents_of_table t' = contents_of_table t -> has_empty platform t -> has_empty platform t'.
Proof using Type. destruct t, t'. by intros [= -> ->] He. Qed.

Lemma used_contents t t' : contents_of_table t' = contents_of_table t -> used platform t' = used platform t.
Proof using Type. destruct t, t'. by intros [= -> ->]. Qed.

Lemma relink_from_spec fuel p l s from to :
  chain_to (tables s) p l from -> l <> [] -> (from ∉ l.*1) -> NoDup l.*1 -> (length l <= fuel)%nat ->
  wp (relink_from fuel p from to) (fun _ s' => exists ts, s' = set_tables ts s /\ chain_to ts p l to /\
    (forall y, (y ∉ l.*1) -> ts !! y = tables s !! y) /\ links_only (tables s) ts) nothrow s.
Proof using Type.
  revert p fuel. induction l as [|[x mt] l IH]; intros p fuel Hc Hne Hfrom Hnd Hf; [done|].
  destruct Hc as (-> & Hx & t & Ht & Hr & He & Hc). destruct fuel as [|fuel]; [cbn in Hf; lia|].
  cbn [relink_from fmap list_fmap fst] in *. apply NoDup_cons in Hnd as [Hxl Hnd]. wp_step. eapply wp_table; [done|].
  destruct l as [|[y my] l].
  - cbn in Hc. rewrite Hc, Z.eqb_refl. wp_step. set (t' := mkHash _ _ _). eexists. split; [done|].
    split; [|split].
    + split; [done|]. split; [done|]. exists t'. rewrite lookup_insert_eq. split; [done|]. split; [by apply (repr_contents t)|].
      split; [by apply (has_empty_contents t)|done].
    + intros z [Hz _]%not_elem_of_cons. by rewrite lookup_insert_ne.
    + intros z. destruct (decide (x = z)) as [<-|]; [by rewrite lookup_insert_eq, Ht|by rewrite lookup_insert_ne].
  - pose proof Hc as (Ey & _). apply not_elem_of_cons in Hfrom as [_ Hfrom].
    rewrite (proj2 (Z.eqb_neq _ _)). 2:{ rewrite Ey. intros ->. apply Hfrom. by left. }
    eapply wp_mono; [apply (IH _ fuel); [exact Hc|done|done|done|cbn in Hf |- *; lia]| |done].
    cbn beta. intros _ s' (ts & -> & Hc' & Hkeep & Hlinks). exists ts. split; [done|]. split; [|split; [|done]].
    + split; [done|]. split; [done|]. exists t. by rewrite Hkeep.
    + intros z [_ Hz]%not_elem_of_cons. by apply Hkeep.
Qed.

(** ** What a hash hands over *)

(** The hash as a list of tables that ends with the initial one. *)
Record split_chain s m c (main : loc) (m0 : gmap Z loc) l (l1 : list (loc * gmap Z loc)) mi ti : Prop := {
  sc_split : (main, m0) :: l = l1 ++ [(initialImplicitProducerHash s, mi)];
  sc_chain : chain_to (tables s) main l1 (initialImplicitProducerHash s);
  sc_positive : Forall (fun x => 0 < x) l1.*1;
  sc_nodup : NoDup l1.*1;
  sc_not_initial : initialImplicitProducerHash s ∉ l1.*1;
  sc_initial : tables s !! initialImplicitProducerHash s = Some ti;
  sc_not_null : initialImplicitProducerHash s <> nullptr;
  sc_repr : repr ti mi;
  sc_empty : has_empty platform ti;
  sc_prev : hash_prev ti = nullptr;
  sc_capacity : hash_capacity ti = INITIAL_IMPLICIT_PRODUCER_HASH_SIZE tr
}.

Lemma split_chain_exists s m c main m0 l : hinv s m c main m0 l -> exists l1 mi ti, split_chain s m c main m0 l l1 mi ti.
Proof using Type.
  intros Hinv. pose proof Hinv as [_ Hnn (t & Ht & Hrepr & Hchain & _) Hnd _ _ _ (xs & ti & El & Hxs & Hti & Ecap)].
  assert (exists l1 mi, (main, m0) :: l = l1 ++ [(initialImplicitProducerHash s, mi)] /\ l1.*1 = xs) as (l1 & mi & Es & E1).
  { destruct (exists_last (l := (main, m0) :: l)) as (l1 & [x mi] & Es); [done|]. exists l1, mi.
    assert (((main, m0) :: l).*1 = xs ++ [initialImplicitProducerHash s]) as E by done. rewrite Es, fmap_app in E.
    apply app_inj_tail in E as [<- <-]. done. }
  assert (chain_to (tables s) main ((main, m0) :: l) nullptr) as Hc.
  { split; [done|]. split; [done|]. exists t. split; [done|]. split; [done|]. split; [by eapply hash_inv_free|by apply chain_to_end]. }
  rewrite Es in Hc. apply chain_to_snoc in Hc as (Hc & Hi & t' & Ht' & Hr' & He' & Hp'). rewrite Hti in Ht'. injection Ht' as <-.
  rewrite El in Hnd. apply NoDup_app in Hnd as (Hnd & Hdis & _). exists l1, mi, ti. rewrite <- E1 in *. split; try done.
  intros Hin. apply (Hdis _ Hin). by left.
Qed.

(** The tables of [s] in a queue whose initial table is at [to]. *)
Definition handed_over s (ti : ImplicitProducerHash) (to : loc) : gmap loc ImplicitProducerHash :=
  <[to := ti]> (delete (initialImplicitProducerHash s) (tables s)).

(** The hash is as before, but for the address of the initial table. *)
Lemma moved_inv s s' m c main m0 l l1 mi ti to ts :
  hinv s m c main m0 l -> split_chain s m c main m0 l l1 mi ti -> to <> nullptr -> (to ∉ l1.*1) -> initialImplicitProducerHash s' = to ->
  tables s' = ts -> chain_to ts (implicitProducerHash s') l1 to -> ts !! to = Some ti -> links_only (handed_over s ti to) ts ->
  exists main' l', hinv s' m c main' m0 l'.
Proof using TraitsOk0.
  intros Hinv Hsc Hto Hto1 Ei Ets Hc Hti Hlinks. pose proof Hinv as [_ Hnn (t & Ht & Hrepr & _ & Hu) _ Hsub Hcover Hdom _]. destruct Hsc.
  assert (dom ts = list_to_set ((l1 ++ [(to, mi)]).*1)) as Edom.
  { assert (dom ts = dom (handed_over s ti to)) as ->.
    { apply set_eq. intros x. rewrite !elem_of_dom. specialize (Hlinks x). by destruct (ts !! x), (handed_over s ti to !! x). }
    unfold handed_over. rewrite dom_insert_L, dom_delete_L, Hdom. change (main :: l.*1) with ((main, m0) :: l).*1.
    rewrite sc_split0, !fmap_app, !list_to_set_app_L. cbn. apply set_eq. intros x.
    rewrite !elem_of_union, elem_of_difference, !elem_of_union, !elem_of_singleton, elem_of_empty, elem_of_list_to_set.
    destruct (decide (x = initialImplicitProducerHash s)) as [->|]; tauto. }
  assert (Forall (fun x => 0 < x) l1.*1 -> exists xs t, (l1 ++ [(to, mi)]).*1 = xs ++ [initialImplicitProducerHash s'] /\
    Forall (fun x => 0 < x) xs /\ tables s' !! initialImplicitProducerHash s' = Some t /\
    hash_capacity t = INITIAL_IMPLICIT_PRODUCER_HASH_SIZE tr) as Hinitial.
  { intros Hpos. exists l1.*1, ti. rewrite Ei, Ets, fmap_app. done. }
  specialize (Hinitial sc_positive0).
  assert (NoDup (l1 ++ [(to, mi)]).*1) as Hnd.
  { rewrite fmap_app. apply NoDup_app. split; [done|]. split; [by intros x Hx ->%list_elem_of_singleton|apply NoDup_singleton]. }
  subst ts to. destruct l1 as [|[x mx] l1]; cbn [app] in *.
  - injection sc_split0 as -> -> ->. cbn in Hc. exists (initialImplicitProducerHash s'), []. rewrite Ht in sc_initial0. injection sc_initial0 as ->. split; try done.
    exists ti. split; [done|]. split; [done|]. split; [exact sc_prev0|exact Hu].
  - injection sc_split0 as <- <- ->. destruct Hc as (Ex & Hx & t' & Ht' & Hr' & He' & Hc). exists main, (l1 ++ [(initialImplicitProducerHash s', mi)]).
    assert (contents_of_table t' = contents_of_table t) as Ec.
    { specialize (Hlinks main). rewrite Ht' in Hlinks. unfold handed_over in Hlinks. cbn in sc_not_initial0, Hto1.
      apply not_elem_of_cons in sc_not_initial0 as [? _]. apply not_elem_of_cons in Hto1 as [? _].
      rewrite lookup_insert_ne, lookup_delete_ne, Ht in Hlinks by done.
      change (Some (contents_of_table t') = Some (contents_of_table t)) in Hlinks. congruence. }
    assert ((l1 ++ [(initialImplicitProducerHash s', mi)]).*2 = (l1 ++ [(initialImplicitProducerHash s, mi)]).*2) as E2 by by rewrite !fmap_app.
    split; rewrite ?E2; try done.
    exists t'. split; [done|]. split; [done|]. split.
    + apply chain_to_end, chain_to_snoc. split; [done|]. split; [done|]. by exists ti.
    + rewrite (used_contents _ _ Ec). by injection Ec as -> _.
Qed.

(** The hash [s'] of a queue whose hash was [s] is that of another queue, [r]. *)
Definition hash_became s r m c s' : Prop :=
  (exists main m0 l, hinv s' m c main m0 l) /\ implicitProducerHashCount s' = implicitProducerHashCount r /\
  implicitProducerHashResizeInProgress s' = implicitProducerHashResizeInProgress s /\
  initialImplicitProducerHash s' = initialImplicitProducerHash s /\
  (forall y, is_Some (tables s' !! y) -> y = initialImplicitProducerHash s \/ is_Some (tables r !! y)).

Lemma relink_initial_spec r m c main m0 l l1 mi ti s s0 :
  hinv r m c main m0 l -> split_chain r m c main m0 l l1 mi ti -> let to := initialImplicitProducerHash s in
  to < 0 -> to <> initialImplicitProducerHash r ->
  s0 = mkHashState (implicitProducerHash r) (implicitProducerHashCount r) (implicitProducerHashResizeInProgress s) to (handed_over r ti to) ->
  wp (relink (initialImplicitProducerHash r) to) (fun _ s' => hash_became s r m c s') nothrow s0.
Proof using TraitsOk0.
  intros Hinv Hsc to Hto Hne ->. pose proof Hsc as []. set (ts0 := handed_over r ti to).
  assert (to <> nullptr) as Hnn by (unfold nullptr; lia).
  assert (to ∉ l1.*1) as Hto1.
  { intros Hin. rewrite Forall_forall in sc_positive0. specialize (sc_positive0 _ Hin). lia. }
  assert (forall ts, links_only ts0 ts -> forall y, is_Some (ts !! y) -> y = to \/ is_Some (tables r !! y)) as Htables.
  { intros ts Hlinks y Hy. assert (is_Some (ts0 !! y)) as [t Ht] by (specialize (Hlinks y); destruct Hy as [t Ht]; rewrite Ht in Hlinks; by destruct (ts0 !! y)).
    unfold ts0, handed_over in Ht. apply lookup_insert_Some in Ht as [[<- _]|[_ [_ Ht]%lookup_delete_Some]]; [by left|right; by exists t]. }
  assert (ts0 !! to = Some ti) as Hti by apply lookup_insert_eq.
  assert (chain_to ts0 main l1 (initialImplicitProducerHash r)) as Hc.
  { eapply chain_to_frame; [done|]. intros x Hx. unfold ts0, handed_over. by rewrite lookup_insert_ne, lookup_delete_ne by (by intros <-). }
  unfold relink. wp_step. wp_step. cbn [implicitProducerHash]. rewrite (hi_main _ _ _ _ _ _ _ _ _ Hinv).
  destruct (Z.eqb_spec main (initialImplicitProducerHash r)) as [E|Hmain].
  - wp_step. assert (l1 = []) as ->.
    { destruct l1 as [|[x mx] l1]; [done|]. destruct Hc as (Ex & _). destruct sc_not_initial0. rewrite <- E, Ex. by left. }
    split; [|split; [done|split; [done|split; [done|by apply Htables]]]].
    destruct (moved_inv r (set_hash to (mkHashState main (implicitProducerHashCount r) (implicitProducerHashResizeInProgress s) to ts0))
      m c main m0 l [] mi ti to ts0 Hinv Hsc) as (main' & l' & H); try done. by exists main', m0, l'.
  - wp_step. wp_step. cbn [tables]. assert (l1 <> []) as Hl1 by by intros ->.
    assert (length l1 <= base.size ts0)%nat as Hsize.
    { rewrite <- (length_fmap fst), <- (size_list_to_set (C := gset loc)) by done. rewrite <- size_dom. apply subseteq_size.
      intros x Hx%elem_of_list_to_set. apply elem_of_dom. by eapply chain_to_in. }
    eapply wp_mono; [by eapply relink_from_spec| |done]. cbn beta. intros _ s' (ts & -> & Hc' & Hkeep & Hlinks). cbn [tables] in *.
    split; [|split; [done|split; [done|split; [done|by apply Htables]]]].
    destruct (moved_inv r (set_tables ts (mkHashState main (implicitProducerHashCount r) (implicitProducerHashResizeInProgress s) to ts0))
      m c main m0 l l1 mi ti to ts Hinv Hsc) as (main' & l' & H); try done; [by rewrite Hkeep|]. by exists main', m0, l'.
Qed.

Lemma received_handed_over a b ta tb :
  tables a !! initialImplicitProducerHash a = Some ta -> tables b !! initialImplicitProducerHash b = Some tb ->
  hash_capacity ta = hash_capacity tb -> hash_prev ta = hash_prev tb ->
  received a b = handed_over b tb (initialImplicitProducerHash a).
Proof using Type. intros Ha Hb Ec Ep. unfold received, handed_over. rewrite Ha, Hb, Ec, Ep. by destruct tb. Qed.

Lemma swap_hashes_spec a b ma mb (ca cb : Z) (maina mainb : loc) (m0a m0b : gmap Z loc) la lb :
  hinv a ma ca maina m0a la -> hinv b mb cb mainb m0b lb -> INITIAL_IMPLICIT_PRODUCER_HASH_SIZE tr <> 0 ->
  initialImplicitProducerHash a < 0 -> initialImplicitProducerHash b < 0 ->
  initialImplicitProducerHash a <> initialImplicitProducerHash b ->
  wp (swap_implicit_producer_hashes tr) (fun _ (ab : HashState * HashState) => hash_became a b mb cb (fst ab) /\ hash_became b a ma ca (snd ab)) nothrow (a, b).
Proof using TraitsOk0.
  intros Ha Hb Hsize Hia Hib Hne. unfold swap_implicit_producer_hashes. rewrite (proj2 (Z.eqb_neq _ _) Hsize).
  destruct (split_chain_exists _ _ _ _ _ _ Ha) as (l1a & mia & tia & Hsa), (split_chain_exists _ _ _ _ _ _ Hb) as (l1b & mib & tib & Hsb).
  do 5 wp_step. wp_step.
  rewrite (received_handed_over a b tia tib), (received_handed_over b a tib tia); try apply Hsa; try apply Hsb;
    try (rewrite (sc_capacity _ _ _ _ _ _ _ _ _ Hsa), (sc_capacity _ _ _ _ _ _ _ _ _ Hsb); done);
    try (rewrite (sc_prev _ _ _ _ _ _ _ _ _ Hsa), (sc_prev _ _ _ _ _ _ _ _ _ Hsb); done).
  cbn [fst snd]. eapply wp_mono; [by eapply (relink_initial_spec b)| |done]. cbn beta. intros _ a' Ha'.
  wp_step. cbn [fst snd]. eapply wp_mono; [eapply (relink_initial_spec a); [exact Ha|exact Hsa|done|by apply not_eq_sym|done]| |done].
  cbn beta. intros _ b' Hb'. by split.
Qed.
End swap.
