(* ===== verification/SubQueues.v ===== *)
(** The consuming side of [ConcurrentQueue] in src/concurrentqueue.h: how
    [try_dequeue] and its variants choose among the sub-queues of the
    producers, with and without a [ConsumerToken].  It is written against an
    interface, [SubQueues], of what the producers offer. *)

From S2P Require Import Prelude MachineInt Traits.

(** * The interface

    The producers of a queue form a linked list; each can say how many elements
    it has and hand elements over.  [sq_dequeue_bulk] returns the elements it
    moved to the caller's range, in order; the number it returns is their
    number.  [sq_bound] bounds the length of the list. *)

Class SubQueues (S R : Type) := {
  sq_tail : S -> loc;
  sq_producer_count : S -> Z;
  sq_bound : S -> nat;
  sq_next : loc -> M S loc;
  sq_size_approx : loc -> M S Z;
  sq_dequeue : loc -> M S (option R);
  sq_dequeue_bulk : loc -> Z -> M S (list R);
  sq_offset : S -> Z;
  sq_set_offset : Z -> S -> S
}.

(** * Consumer tokens *)

Record ConsumerToken := mkConsumerToken {
  initialOffset : Z;
  lastKnownGlobalOffset : Z;
  itemsConsumedFromCurrent : Z;
  currentProducer : loc;
  desiredProducer : loc
}.

Definition set_lastKnown x (t : ConsumerToken) : ConsumerToken :=
  mkConsumerToken (initialOffset t) x (itemsConsumedFromCurrent t) (currentProducer t) (desiredProducer t).
Definition set_consumed x (t : ConsumerToken) : ConsumerToken :=
  mkConsumerToken (initialOffset t) (lastKnownGlobalOffset t) x (currentProducer t) (desiredProducer t).
Definition set_current x (t : ConsumerToken) : ConsumerToken :=
  mkConsumerToken (initialOffset t) (lastKnownGlobalOffset t) (itemsConsumedFromCurrent t) x (desiredProducer t).
Definition set_desired x (t : ConsumerToken) : ConsumerToken :=
  mkConsumerToken (initialOffset t) (lastKnownGlobalOffset t) (itemsConsumedFromCurrent t) (currentProducer t) x.

(** The constructor, [id] being the previous [nextExplicitConsumerId], the move
    constructor, and [swap]. *)
Definition ConsumerToken_ctor (id : Z) : ConsumerToken :=
  mkConsumerToken id (wrap 32 (-1)) 0 nullptr nullptr.
Definition ConsumerToken_move_ctor (other : ConsumerToken) : ConsumerToken :=
  mkConsumerToken (initialOffset other) (lastKnownGlobalOffset other)
    (itemsConsumedFromCurrent other) (currentProducer other) (desiredProducer other).
Definition ConsumerToken_swap (ab : ConsumerToken * ConsumerToken) : ConsumerToken * ConsumerToken :=
  let (a, b) := ab in
  (mkConsumerToken (initialOffset b) (lastKnownGlobalOffset b) (itemsConsumedFromCurrent b)
     (currentProducer b) (desiredProducer b),
   mkConsumerToken (initialOffset a) (lastKnownGlobalOffset a) (itemsConsumedFromCurrent a)
     (currentProducer a) (desiredProducer a)).

Section consume.
Context {S R : Type} `{!SubQueues S R} (tr : Traits).
Let sz := wrap (size_bits tr).

(** ** Without a token *)

(** The loop of [try_dequeue] that scores up to three non-empty producers;
    returns [nonEmptyCount], [best] and [bestSize]. *)
Fixpoint score (fuel : nat) (ptr : loc) (nonEmptyCount : Z) (best : loc) (bestSize : Z)
    : M S (Z * loc * Z) :=
  if (nonEmptyCount <? 3) && negb (ptr =? nullptr) then
    match fuel with
    | O => faults OutOfFuel
    | Datatypes.S fuel =>
        let! size := sq_size_approx ptr in
        let! nx := sq_next ptr in
        if 0 <? size then
          if bestSize <? size then score fuel nx (nonEmptyCount + 1) ptr size
          else score fuel nx (nonEmptyCount + 1) best bestSize
        else score fuel nx nonEmptyCount best bestSize
    end
  else ret (nonEmptyCount, best, bestSize).

(** Tries every producer from [ptr] on, except [best]. *)
Fixpoint try_others (fuel : nat) (best ptr : loc) : M S (option R) :=
  if ptr =? nullptr then ret None
  else
    match fuel with
    | O => faults OutOfFuel
    | Datatypes.S fuel =>
        let! r := (if negb (ptr =? best) then sq_dequeue ptr else ret None) in
        match r with
        | Some x => ret (Some x)
        | None => let! nx := sq_next ptr in try_others fuel best nx
        end
    end.

Definition try_dequeue : M S (option R) :=
  let! n := gets sq_bound in
  let! tail := gets sq_tail in
  let! s := score n tail 0 nullptr 0 in
  let '(nonEmptyCount, best, _) := s in
  if 0 <? nonEmptyCount then
    let! r := sq_dequeue best in
    match r with
    | Some x => ret (Some x)
    | None => let! tail := gets sq_tail in try_others n best tail
    end
  else ret None.

(** Each producer in turn. *)
Fixpoint try_in_order (fuel : nat) (ptr : loc) : M S (option R) :=
  if ptr =? nullptr then ret None
  else
    match fuel with
    | O => faults OutOfFuel
    | Datatypes.S fuel =>
        let! r := sq_dequeue ptr in
        match r with
        | Some x => ret (Some x)
        | None => let! nx := sq_next ptr in try_in_order fuel nx
        end
    end.

Definition try_dequeue_non_interleaved : M S (option R) :=
  let! n := gets sq_bound in
  let! tail := gets sq_tail in try_in_order n tail.

(** [itemFirst] is shared by the calls: what they move is concatenated. *)
Fixpoint bulk_in_order (fuel : nat) (ptr : loc) (max : Z) (out : list R) : M S (list R) :=
  if ptr =? nullptr then ret out
  else
    match fuel with
    | O => faults OutOfFuel
    | Datatypes.S fuel =>
        let! l := sq_dequeue_bulk ptr (sz (max - zlength out)) in
        let out := out ++ l in
        if zlength out =? max then ret out
        else let! nx := sq_next ptr in bulk_in_order fuel nx max out
    end.

Definition try_dequeue_bulk (max : Z) : M S (list R) :=
  let! n := gets sq_bound in
  let! tail := gets sq_tail in bulk_in_order n tail max [].

Fixpoint sum_sizes (fuel : nat) (ptr : loc) (size : Z) : M S Z :=
  if ptr =? nullptr then ret size
  else
    match fuel with
    | O => faults OutOfFuel
    | Datatypes.S fuel =>
        let! x := sq_size_approx ptr in
        let! nx := sq_next ptr in sum_sizes fuel nx (sz (size + x))
    end.

Definition queue_size_approx : M S Z :=
  let! n := gets sq_bound in
  let! tail := gets sq_tail in sum_sizes n tail 0.

(** ** With a token, the second component of the state *)

Definition queue {A} (m : M S A) : M (S * ConsumerToken) A :=
  zoom fst (fun s st => (s, snd st)) m.
Definition token {A} (f : ConsumerToken -> A) : M (S * ConsumerToken) A := gets (fun st => f (snd st)).
Definition set_token (f : ConsumerToken -> ConsumerToken) : M (S * ConsumerToken) unit :=
  modify (fun st => (fst st, f (snd st))).

(** [n] steps along the list, which is treated as circular. *)
Fixpoint advance (n : nat) (tail ptr : loc) : M S loc :=
  match n with
  | O => ret ptr
  | Datatypes.S n =>
      let! nx := sq_next ptr in
      advance n tail (if nx =? nullptr then tail else nx)
  end.

Definition update_current_producer_after_rotation : M (S * ConsumerToken) bool :=
  let! tail := queue (gets sq_tail) in
  let! desired := token desiredProducer in
  if (desired =? nullptr) && (tail =? nullptr) then ret false
  else
    let! prodCount := queue (gets sq_producer_count) in
    let! globalOffset := queue (gets sq_offset) in
    (if desired =? nullptr then
       let! initial := token initialOffset in
       let offset := wrap 32 (prodCount - 1 - initial mod prodCount) in
       let! p := queue (advance (Z.to_nat offset) tail tail) in
       set_token (set_desired p)
     else ret tt);;
    let! last := token lastKnownGlobalOffset in
    let delta := wrap 32 (globalOffset - last) in
    let delta := if prodCount <=? delta then delta mod prodCount else delta in
    let! desired := token desiredProducer in
    let! p := queue (advance (Z.to_nat delta) tail desired) in
    set_token (set_desired p);;
    set_token (set_lastKnown globalOffset);;
    set_token (set_current p);;
    set_token (set_consumed 0);;
    ret true.

(** The guard of both token variants. *)
Definition rotate_if_needed : M (S * ConsumerToken) bool :=
  let! desired := token desiredProducer in
  let! last := token lastKnownGlobalOffset in
  let! offset := queue (gets sq_offset) in
  if (desired =? nullptr) || negb (last =? offset)
  then update_current_producer_after_rotation else ret true.

(** [globalExplicitConsumerOffset.fetch_add(1)] *)
Definition rotate_everyone : M (S * ConsumerToken) unit :=
  queue (modify (fun s => sq_set_offset (wrap 32 (sq_offset s + 1)) s)).

(** The producers from [ptr] around the list up to the current one. *)
Fixpoint try_around (fuel : nat) (tail current ptr : loc) : M (S * ConsumerToken) (option R) :=
  if ptr =? current then ret None
  else
    match fuel with
    | O => faults OutOfFuel
    | Datatypes.S fuel =>
        let! r := queue (sq_dequeue ptr) in
        match r with
        | Some x => set_token (set_current ptr);; set_token (set_consumed 1);; ret (Some x)
        | None =>
            let! nx := queue (sq_next ptr) in
            try_around fuel tail current (if nx =? nullptr then tail else nx)
        end
    end.

Definition try_dequeue_token : M (S * ConsumerToken) (option R) :=
  let! ok := rotate_if_needed in
  if negb (ok : bool) then ret None
  else
    let! current := token currentProducer in
    let! r := queue (sq_dequeue current) in
    match r with
    | Some x =>
        set_token (fun t => set_consumed (wrap 32 (itemsConsumedFromCurrent t + 1)) t);;
        let! consumed := token itemsConsumedFromCurrent in
        (if consumed =? EXPLICIT_CONSUMER_CONSUMPTION_QUOTA_BEFORE_ROTATE tr
         then rotate_everyone else ret tt);;
        ret (Some x)
    | None =>
        let! n := queue (gets sq_bound) in
        let! tail := queue (gets sq_tail) in
        let! nx := queue (sq_next current) in
        try_around n tail current (if nx =? nullptr then tail else nx)
    end.

(** The current producer changes while the loop runs. *)
Fixpoint bulk_around (fuel : nat) (tail ptr : loc) (max : Z) (out : list R)
    : M (S * ConsumerToken) (list R) :=
  let! current := token currentProducer in
  if ptr =? current then ret out
  else
    match fuel with
    | O => faults OutOfFuel
    | Datatypes.S fuel =>
        let! l := queue (sq_dequeue_bulk ptr max) in
        (if negb (zlength l =? 0)
         then set_token (set_current ptr);; set_token (set_consumed (wrap 32 (zlength l)))
         else ret tt);;
        if zlength l =? max then ret (out ++ l)
        else
          let! nx := queue (sq_next ptr) in
          bulk_around fuel tail (if nx =? nullptr then tail else nx) (sz (max - zlength l)) (out ++ l)
    end.

Definition try_dequeue_bulk_token (max : Z) : M (S * ConsumerToken) (list R) :=
  let! ok := rotate_if_needed in
  if negb (ok : bool) then ret []
  else
    let! current := token currentProducer in
    let! l := queue (sq_dequeue_bulk current max) in
    if zlength l =? max then
      set_token (fun t => set_consumed (wrap 32 (itemsConsumedFromCurrent t + wrap 32 max)) t);;
      let! consumed := token itemsConsumedFromCurrent in
      (if EXPLICIT_CONSUMER_CONSUMPTION_QUOTA_BEFORE_ROTATE tr <=? consumed
       then rotate_everyone else ret tt);;
      ret l
    else
      set_token (fun t => set_consumed (wrap 32 (itemsConsumedFromCurrent t + wrap 32 (zlength l))) t);;
      let! n := queue (gets sq_bound) in
      let! tail := queue (gets sq_tail) in
      let! nx := queue (sq_next current) in
      bulk_around (n + n) tail (if nx =? nullptr then tail else nx) (sz (max - zlength l)) l.
End consume.
