(* ===== verification/SubQueuesProofs.v ===== *)
(** What consumers get from a queue whose sub-queues keep the promises of
    [SubQueuesLaws]: nothing is lost, nothing is invented, and a consumer that
    gets nothing found every sub-queue empty. *)

From S2P Require Import Prelude MachineInt Traits SubQueues.

(** The first of a list of producers. *)
Definition first_of (l : list loc) : loc := match l with [] => nullptr | p :: _ => p end.

(** * Circular lists

    The producers in circular order from [p] on, and the one [k] places after
    [p]. *)

Fixpoint index_of (order : list loc) (p : loc) : nat :=
  match order with [] => O | q :: order => if q =? p then O else Datatypes.S (index_of order p) end.
Definition from_on (order : list loc) (p : loc) : list loc :=
  drop (index_of order p) order ++ take (index_of order p) order.
Definition place_after (order : list loc) (p : loc) (k : Z) : loc :=
  default nullptr (from_on order p !! Z.to_nat (k mod zlength order)).

Lemma index_of_split l1 p l2 : (p ∉ l1) -> index_of (l1 ++ p :: l2) p = length l1.
Proof.
  induction l1 as [|q l1 IH]; cbn; intros Hp; [by rewrite Z.eqb_refl|]. apply not_elem_of_cons in Hp as [Hne Hp].
  rewrite (proj2 (Z.eqb_neq q p)) by congruence. by rewrite IH.
Qed.

Lemma from_on_split l1 p l2 : NoDup (l1 ++ p :: l2) -> from_on (l1 ++ p :: l2) p = p :: l2 ++ l1.
Proof.
  intros (_ & Hd & _)%NoDup_app. unfold from_on. rewrite index_of_split by (intros Hp; apply (Hd p Hp); by left).
  by rewrite drop_app_length, take_app_length.
Qed.

Lemma from_on_in order p q : q ∈ from_on order p -> q ∈ order.
Proof.
  intros Hq. rewrite <- (take_drop (index_of order p) order). apply elem_of_app. unfold from_on in Hq. apply elem_of_app in Hq. tauto.
Qed.

Lemma from_on_lookup order p i m :
  NoDup order -> order !! i = Some p -> (m < length order)%nat ->
  from_on order p !! m = order !! ((i + m) mod length order)%nat.
Proof.
  intros Hnd Hi Hm. pose proof (take_drop_middle _ _ _ Hi) as E. pose proof (lookup_lt_Some _ _ _ Hi) as Hlt.
  assert (index_of order p = i) as Ei.
  { rewrite <- E in Hnd |- *. rewrite index_of_split; [rewrite length_take; lia|]. apply NoDup_app in Hnd as (_ & Hd & _). intros Hp. apply (Hd p Hp). by left. }
  unfold from_on. rewrite Ei. destruct (decide (i + m < length order)%nat).
  - rewrite lookup_app_l, lookup_drop, Nat.mod_small by (rewrite ?length_drop; lia). done.
  - rewrite lookup_app_r, lookup_take by (rewrite ?length_drop; lia). rewrite length_drop, decide_True by lia.
    f_equal. replace (i + m)%nat with (i + m - length order + 1 * length order)%nat by lia.
    rewrite Nat.Div0.mod_add, Nat.mod_small; lia.
Qed.

(** [k] places after the producer at the index [i]. *)
Lemma place_after_lookup order p i k :
  NoDup order -> order !! i = Some p -> 0 <= k ->
  order !! ((i + Z.to_nat k) mod length order)%nat = Some (place_after order p k).
Proof.
  intros Hnd Hi Hk. pose proof (lookup_lt_Some _ _ _ Hi) as Hlt. unfold place_after, zlength.
  rewrite Z2Nat.inj_mod, Nat2Z.id by lia. pose proof (Nat.mod_upper_bound (Z.to_nat k) (length order) ltac:(lia)) as Hm.
  rewrite (from_on_lookup order p i), Nat.Div0.add_mod_idemp_r by done.
  destruct (lookup_lt_is_Some_2 order ((i + Z.to_nat k) mod length order)) as [r Hr]; [apply Nat.mod_upper_bound; lia|].
  by rewrite Hr.
Qed.

Lemma place_after_in order p k : NoDup order -> p ∈ order -> 0 <= k -> place_after order p k ∈ order.
Proof.
  intros Hnd [i Hi]%list_elem_of_lookup Hk. eapply list_elem_of_lookup_2. by apply (place_after_lookup order p i).
Qed.

Lemma place_after_mod order p k : place_after order p (k mod zlength order) = place_after order p k.
Proof. unfold place_after. by rewrite Zmod_mod. Qed.

(** * The promises of the sub-queues

    In a state that satisfies [sq_inv], [sq_order] lists the producers and
    [sq_content] the elements each of them has. *)

Class SubQueuesLaws (S R : Type) `{!SubQueues S R} := {
  sq_inv : S -> Prop;
  sq_order : S -> list loc;
  sq_content : S -> loc -> list R;
  (** [n] elements of [p] are taken, and nothing else changes. *)
  sq_taken (s : S) (p : loc) (n : nat) (s' : S) : Prop :=
    sq_inv s' /\ sq_order s' = sq_order s /\ sq_offset s' = sq_offset s /\
    forall q, sq_content s' q = if decide (q = p) then drop n (sq_content s p) else sq_content s q;
  sl_tail s : sq_inv s -> sq_tail s = first_of (sq_order s);
  sl_nodup s : sq_inv s -> NoDup (sq_order s);
  sl_not_null s : sq_inv s -> nullptr ∉ sq_order s;
  sl_bound s : sq_inv s -> (length (sq_order s) <= sq_bound s)%nat;
  sl_count s : sq_inv s -> sq_producer_count s = zlength (sq_order s);
  sl_next s l1 p l2 : sq_inv s -> sq_order s = l1 ++ p :: l2 ->
    sq_next p s = Ok (first_of l2) s;
  sl_size s p : sq_inv s -> p ∈ sq_order s -> sq_size_approx p s = Ok (zlength (sq_content s p)) s;
  sl_dequeue_empty s p : sq_inv s -> p ∈ sq_order s -> sq_content s p = [] ->
    sq_dequeue p s = Ok None s;
  sl_dequeue_some s p x c : sq_inv s -> p ∈ sq_order s -> sq_content s p = x :: c ->
    exists s', sq_dequeue p s = Ok (Some x) s' /\ sq_taken s p 1 s';
  sl_dequeue_bulk s p max : sq_inv s -> p ∈ sq_order s -> 0 <= max ->
    exists s', sq_dequeue_bulk p max s = Ok (take (Z.to_nat max) (sq_content s p)) s' /\
      sq_taken s p (Z.to_nat max) s';
  sl_set_offset s x : sq_inv s ->
    sq_inv (sq_set_offset x s) /\ sq_order (sq_set_offset x s) = sq_order s /\
    sq_offset (sq_set_offset x s) = x /\
    forall q, sq_content (sq_set_offset x s) q = sq_content s q
}.

Section proofs.
Context {S R : Type} `{!SubQueues S R} `{!SubQueuesLaws S R}.
Implicit Types (s : S) (p q : loc) (l : list loc).

Definition all_elements s : list R := concat (sq_content s <$> sq_order s).
Definition all_empty s : Prop := forall p, p ∈ sq_order s -> sq_content s p = [].
Definition non_empty s l : list loc := filter (fun p => sq_content s p <> []) l.

Lemma wp_next s l1 p l2 (Q : loc -> S -> Prop) E :
  sq_inv s -> sq_order s = l1 ++ p :: l2 -> Q (first_of l2) s -> wp (sq_next p) Q E s.
Proof using Type. intros Hinv Ho HQ. unfold wp. by rewrite (sl_next _ _ _ _ Hinv Ho). Qed.

Lemma wp_size s p (Q : Z -> S -> Prop) E :
  sq_inv s -> p ∈ sq_order s -> Q (zlength (sq_content s p)) s -> wp (sq_size_approx p) Q E s.
Proof using Type. intros Hinv Hp HQ. unfold wp. by rewrite sl_size. Qed.

Lemma wp_dequeue s p (Q : option R -> S -> Prop) E :
  sq_inv s -> p ∈ sq_order s ->
  (sq_content s p = [] -> Q None s) ->
  (forall x c s', sq_content s p = x :: c -> sq_taken s p 1 s' -> Q (Some x) s') ->
  wp (sq_dequeue p) Q E s.
Proof using Type.
  intros Hinv Hp H1 H2. unfold wp. destruct (sq_content s p) as [|x c] eqn:Hc.
  - rewrite sl_dequeue_empty by done. auto.
  - destruct (sl_dequeue_some s p x c Hinv Hp Hc) as (s' & -> & Ht). by eapply H2.
Qed.

Lemma in_order s l1 p l2 : sq_order s = l1 ++ p :: l2 -> p ∈ sq_order s.
Proof using Type. intros ->. set_solver. Qed.

Lemma order_not_null s l1 p l2 : sq_inv s -> sq_order s = l1 ++ p :: l2 -> p <> nullptr.
Proof using Type. intros Hinv Ho ->. by apply (sl_not_null s Hinv), (in_order s l1 _ l2). Qed.

(** One element was taken from [p], which had [x] in front. *)
Definition took s (r : option R) s' : Prop :=
  match r with
  | None => s' = s /\ all_empty s
  | Some x => exists p c, p ∈ sq_order s /\ sq_content s p = x :: c /\ sq_taken s p 1 s'
  end.

(** ** The scoring loop *)

Lemma score_spec l2 s fuel l1 k best bestSize :
  sq_inv s -> sq_order s = l1 ++ l2 -> (length l2 <= fuel)%nat -> 0 <= k <= 3 -> 0 <= bestSize ->
  let cands := take (Z.to_nat (3 - k)) (non_empty s l2) in
  wp (score fuel (first_of l2) k best bestSize) (fun r s' => s' = s /\
    r.1.1 = k + zlength cands /\ bestSize <= r.2 /\
    (r.1.2 = best /\ r.2 = bestSize \/ r.1.2 ∈ cands /\ r.2 = zlength (sq_content s r.1.2)) /\
    forall q, q ∈ cands -> zlength (sq_content s q) <= r.2) nothrow s.
Proof using Type.
  revert l1 fuel k best bestSize. induction l2 as [|p l2 IH]; intros l1 fuel k best bestSize Hinv Ho Hf Hk Hb cands.
  { subst cands. cbn [first_of]. destruct fuel; cbn [score]; rewrite andb_false_r; wp_step;
      cbn [fst snd]; change (non_empty s []) with (@nil loc); rewrite take_nil; (split; [done|]; split; [unfold zlength; cbn; lia|]);
      (split; [lia|]; split; [by left|]); by intros q ?%not_elem_of_nil. }
  pose proof (order_not_null _ _ _ _ Hinv Ho) as Hp.
  destruct fuel as [|fuel]; [cbn in Hf; lia|]. cbn [length] in Hf. cbn [score first_of].
  rewrite (proj2 (Z.eqb_neq _ _) Hp), andb_true_r.
  destruct (Z.ltb_spec k 3).
  2:{ assert (k = 3) as -> by lia. subst cands. change (Z.to_nat (3 - 3)) with 0%nat. wp_step. cbn [fst snd].
      split; [done|]. split; [done|]. split; [lia|]. split; [by left|]. by intros q ?%not_elem_of_nil. }
  wp_step. apply wp_size; [done|by eapply in_order|]. wp_step. eapply wp_next; [done|done|].
  assert (sq_order s = (l1 ++ [p]) ++ l2) as Ho' by (by rewrite <- app_assoc).
  subst cands. unfold non_empty in *. rewrite filter_cons.
  destruct (sq_content s p) as [|x c] eqn:Hc.
  { rewrite decide_False by tauto. cbn. by eapply IH; [done|exact Ho'|lia|lia|lia]. }
  rewrite decide_True by done. replace (Z.to_nat (3 - k)) with (Datatypes.S (Z.to_nat (3 - (k + 1)))) by lia.
  cbn [firstn take]. set (n := zlength (x :: c)). assert (0 < n) by (unfold n, zlength; cbn; lia).
  rewrite (proj2 (Z.ltb_lt 0 n)) by lia.
  destruct (Z.ltb_spec bestSize n).
  - eapply wp_mono; [eapply (IH (l1 ++ [p])); [done|exact Ho'|lia|lia|lia]| |done]. cbn beta.
    intros [[cnt b] bs] s' (-> & Hcnt & Hbs & Hwho & Hmax). cbn [fst snd] in *. split; [done|].
    split; [unfold zlength in *; cbn [length]; lia|]. split; [lia|]. split.
    + right. destruct Hwho as [[-> ->]|[? ->]]; [split; [by left|by rewrite Hc]|split; [by right|done]].
    + intros q [->|Hq]%elem_of_cons; [rewrite Hc; fold n; lia|by apply Hmax].
  - eapply wp_mono; [eapply (IH (l1 ++ [p])); [done|exact Ho'|lia|lia|lia]| |done]. cbn beta.
    intros [[cnt b] bs] s' (-> & Hcnt & Hbs & Hwho & Hmax). cbn [fst snd] in *. split; [done|].
    split; [unfold zlength in *; cbn [length]; lia|]. split; [lia|]. split.
    + destruct Hwho as [[-> ->]|[? ->]]; [by left|right; split; [by right|done]].
    + intros q [->|Hq]%elem_of_cons; [rewrite Hc; fold n; lia|by apply Hmax].
Qed.

(** The front element of the longest of the first three sub-queues that are
    not empty. *)
Definition took_longest s (r : option R) s' : Prop :=
  match r with
  | None => s' = s /\ all_empty s
  | Some x => exists p c, p ∈ take 3 (non_empty s (sq_order s)) /\ sq_content s p = x :: c /\
      sq_taken s p 1 s' /\
      forall q, q ∈ take 3 (non_empty s (sq_order s)) -> zlength (sq_content s q) <= zlength (sq_content s p)
  end.

Lemma took_longest_took s r s' : took_longest s r s' -> took s r s'.
Proof using Type.
  destruct r as [x|]; [|done]. intros (p & c & Hp & Hc & Ht & _). exists p, c. split; [|done].
  apply elem_of_take in Hp as (i & Hi & _). apply list_elem_of_lookup_2 in Hi. by apply list_elem_of_filter in Hi as [_ ?].
Qed.

Lemma try_dequeue_spec s : sq_inv s -> wp try_dequeue (took_longest s) nothrow s.
Proof using Type.
  intros Hinv.
  unfold try_dequeue. wp_step. wp_step. wp_step. wp_step. rewrite sl_tail by done. wp_step.
  eapply wp_mono; [eapply (score_spec (sq_order s) s _ []); [done|done|by apply sl_bound|lia|lia]| |done].
  cbn beta. change (Z.to_nat (3 - 0)) with 3%nat.
  intros [[cnt b] bs] s' (-> & Hcnt & Hbs & Hwho & Hmax). cbn [fst snd] in *. cbn beta iota.
  destruct (non_empty s (sq_order s)) as [|p0 l] eqn:Hne.
  - assert (cnt = 0) as -> by done. change (0 <? 0) with false. cbn iota. wp_step. split; [done|]. intros p Hp.
    destruct (sq_content s p) eqn:Hc; [done|exfalso].
    assert (p ∈ non_empty s (sq_order s)) as Hin.
    { apply list_elem_of_filter. by rewrite Hc. }
    rewrite Hne in Hin. by apply not_elem_of_nil in Hin.
  - rewrite (proj2 (Z.ltb_lt 0 cnt)) by (rewrite Hcnt; unfold zlength; cbn; lia).
    assert (b ∈ take 3 (p0 :: l) /\ bs = zlength (sq_content s b)) as [Hb ->].
    { destruct Hwho as [[-> ->]|?]; [exfalso|done]. specialize (Hmax p0 ltac:(by left)).
      assert (p0 ∈ non_empty s (sq_order s)) as [H0 _]%list_elem_of_filter by (rewrite Hne; by left).
      destruct (sq_content s p0); [done|]. unfold zlength in Hmax. cbn in Hmax. lia. }
    assert (b ∈ non_empty s (sq_order s)) as [Hb1 Hb2]%list_elem_of_filter.
    { rewrite Hne. apply elem_of_take in Hb as (i & Hi & _). by eapply list_elem_of_lookup_2. }
    wp_step. apply wp_dequeue; [done|done|done|]. intros x c s' Hc Ht. wp_step.
    unfold took_longest. rewrite Hne. exists b, c. split; [done|]. by split_and!.
Qed.

(** ** One producer after the other *)

Lemma try_in_order_spec l2 s fuel l1 :
  sq_inv s -> sq_order s = l1 ++ l2 -> (length l2 <= fuel)%nat ->
  wp (try_in_order fuel (first_of l2)) (fun r s' => match r with
    | None => s' = s /\ forall p, p ∈ l2 -> sq_content s p = []
    | Some x => exists k p k' c, l2 = k ++ p :: k' /\ (forall q, q ∈ k -> sq_content s q = []) /\
        sq_content s p = x :: c /\ sq_taken s p 1 s' end) nothrow s.
Proof using Type.
  revert l1 fuel. induction l2 as [|p l2 IH]; intros l1 fuel Hinv Ho Hf.
  { destruct fuel; cbn; (split; [done|]); by intros p ?%not_elem_of_nil. }
  destruct fuel as [|fuel]; [cbn in Hf; lia|]. cbn [length try_in_order first_of] in *.
  rewrite (proj2 (Z.eqb_neq _ _)) by (by eapply order_not_null).
  wp_step. apply wp_dequeue; [done|by eapply in_order| |].
  - intros Hc. wp_step. eapply wp_next; [done|done|].
    eapply wp_mono; [eapply (IH (l1 ++ [p])); [done|by rewrite <- app_assoc|lia]| |done].
    cbn beta. intros [x|] s'.
    + intros (k & q & k' & c & -> & Hk & Hq & Ht). exists (p :: k), q, k', c. split; [done|].
      split; [|done]. intros y [->|Hy]%elem_of_cons; auto.
    + intros [-> Hall]. split; [done|]. intros y [->|Hy]%elem_of_cons; auto.
  - intros x c s' Hc Ht. wp_step. exists [], p, l2, c. split_and!; try done.
    by intros q ?%not_elem_of_nil.
Qed.

(** The front element of the first sub-queue that has one. *)
Definition took_first s (r : option R) s' : Prop :=
  match r with
  | None => s' = s /\ all_empty s
  | Some x => exists k p k' c, sq_order s = k ++ p :: k' /\
      (forall q, q ∈ k -> sq_content s q = []) /\ sq_content s p = x :: c /\ sq_taken s p 1 s'
  end.

Lemma took_first_took s r s' : took_first s r s' -> took s r s'.
Proof using Type.
  destruct r as [x|]; [|done]. intros (k & p & k' & c & Ho & _ & Hc & Ht). exists p, c. split; [by eapply in_order|done].
Qed.

Lemma try_dequeue_non_interleaved_spec s : sq_inv s -> wp try_dequeue_non_interleaved (took_first s) nothrow s.
Proof using Type.
  intros Hinv.
  unfold try_dequeue_non_interleaved. wp_steps. rewrite sl_tail by done.
  apply (try_in_order_spec _ s _ []); [done|done|by apply sl_bound].
Qed.

(** ** In bulk *)

Section bulk.
Context (tr : Traits) `{!TraitsOk tr}.
#[local] Abbreviation sb := (size_bits tr).

Definition elements_of s l : list R := concat (sq_content s <$> l).

Lemma elements_of_frame s s' l :
  (forall q, q ∈ l -> sq_content s' q = sq_content s q) -> elements_of s' l = elements_of s l.
Proof using Type.
  unfold elements_of. induction l as [|p l IH]; intros H; [done|]. cbn. rewrite (H p) by left. f_equal.
  apply IH. intros q Hq. apply H. by right.
Qed.

(** What a traversal of [l2] that takes [n] elements leaves. *)
Definition drained s l2 (n : nat) s' : Prop :=
  sq_inv s' /\ sq_order s' = sq_order s /\ sq_offset s' = sq_offset s /\
  elements_of s' l2 = drop n (elements_of s l2) /\
  (forall q, exists k, sq_content s' q = drop k (sq_content s q)) /\
  forall q, q ∉ l2 -> sq_content s' q = sq_content s q.

Lemma drained_refl s l : sq_inv s -> drained s l 0 s.
Proof using Type. intros Hinv. split_and!; try done. intros q. by exists O. Qed.

(** [n] elements were taken from [p], and then more from [l]. *)
Lemma elements_step s p l n s1 :
  (p ∉ l) -> sq_taken s p n s1 ->
  take n (elements_of s (p :: l)) = take n (sq_content s p) ++ take (n - length (sq_content s p)) (elements_of s1 l).
Proof using Type.
  intros Hp (_ & _ & _ & Hc). assert (elements_of s (p :: l) = sq_content s p ++ elements_of s l) as -> by done.
  rewrite take_app, (elements_of_frame s s1 l); [done|]. intros q Hq. rewrite Hc, decide_False; [done|]. by intros ->.
Qed.

Lemma drained_step s p l n s1 s2 :
  (p ∉ l) -> sq_taken s p n s1 -> drained s1 l (n - length (sq_content s p)) s2 -> drained s (p :: l) n s2.
Proof using Type.
  intros Hp (Hinv1 & Ho1 & Hoff1 & Hc1) (Hinv2 & Ho2 & Hoff2 & He2 & Hk2 & Hc2).
  assert (elements_of s1 l = elements_of s l) as Hrest.
  { apply elements_of_frame. intros q Hq. rewrite Hc1, decide_False; [done|]. by intros ->. }
  split; [done|]. split; [congruence|]. split; [congruence|]. split.
  - assert (elements_of s2 (p :: l) = sq_content s2 p ++ elements_of s2 l) as -> by done.
    assert (elements_of s (p :: l) = sq_content s p ++ elements_of s l) as -> by done.
    by rewrite drop_app, <- Hrest, <- He2, Hc2, Hc1, decide_True.
  - split; [|intros q [??]%not_elem_of_cons; rewrite Hc2 by done; by rewrite Hc1, decide_False].
    intros q. destruct (Hk2 q) as [k Hk]. rewrite Hk, Hc1. case_decide as Eq; [|by exists k].
    subst q. rewrite drop_drop. by eexists.
Qed.

Lemma bulk_in_order_spec l2 s fuel l1 max out :
  sq_inv s -> sq_order s = l1 ++ l2 -> (length l2 <= fuel)%nat ->
  zlength out <= max < 2 ^ sb ->
  let n := Z.to_nat (max - zlength out) in
  wp (bulk_in_order tr fuel (first_of l2) max out)
    (fun r s' => r = out ++ take n (elements_of s l2) /\ drained s l2 n s') nothrow s.
Proof using Type.
  revert l1 fuel s out. induction l2 as [|p l2 IH]; intros l1 fuel s out Hinv Ho Hf Hmax n.
  { assert (out = out ++ take n (elements_of s [])) as E
      by (change (elements_of s []) with (@nil R); by rewrite take_nil, app_nil_r).
    assert (drained s [] n s) as Hd.
    { split_and!; try done; [by destruct n|]. intros q. by exists O. }
    destruct fuel; cbn; done. }
  destruct fuel as [|fuel]; [cbn in Hf; lia|]. cbn [length bulk_in_order first_of] in *.
  rewrite (proj2 (Z.eqb_neq _ _)) by (by eapply order_not_null).
  pose proof (zlength_nonneg out). rewrite wrap_small by lia.
  assert (p ∈ sq_order s) as Hp by (by eapply in_order).
  assert (p ∉ l2) as Hpl.
  { pose proof (sl_nodup s Hinv) as Hnd. rewrite Ho in Hnd. apply NoDup_app in Hnd as (_ & _ & Hnd).
    by apply NoDup_cons in Hnd as [? _]. }
  destruct (sl_dequeue_bulk s p (max - zlength out) Hinv Hp ltac:(lia)) as (s1 & Hs1 & Ht). fold n in Hs1, Ht.
  wp_step. eapply wp_ok; [exact Hs1|]. pose proof Ht as (Hinv1 & Ho1 & _).
  rewrite (elements_step s p l2 n s1) by done. set (c := sq_content s p) in *. set (out1 := out ++ take n c).
  assert (zlength out1 = zlength out + Z.min (Z.of_nat n) (zlength c)) as Hlen.
  { unfold out1. rewrite zlength_app. unfold zlength. rewrite length_take. lia. }
  destruct (Z.eqb_spec (zlength out1) max) as [Ek|Ek].
  - assert ((n - length c)%nat = 0%nat) as En by (unfold zlength in *; lia).
    wp_step. split; [by rewrite En, take_0, app_nil_r|]. eapply drained_step; [done|done|]. fold c. rewrite En. by apply drained_refl.
  - wp_step. eapply wp_next; [done|by rewrite Ho1|].
    eapply wp_mono; [apply (IH (l1 ++ [p]) fuel s1 out1); [done|by rewrite Ho1, <- app_assoc|lia|lia]| |done].
    cbn beta. replace (Z.to_nat (max - zlength out1)) with (n - length c)%nat by (unfold zlength in *; lia).
    intros r s2 (-> & Hd). split; [unfold out1; by rewrite <- app_assoc|]. by eapply drained_step.
Qed.

(** The first [max] elements of the sub-queues in the order of the list, each
    in its order. *)
Lemma try_dequeue_bulk_spec s max :
  sq_inv s -> 0 <= max < 2 ^ sb ->
  wp (try_dequeue_bulk tr max) (fun r s' =>
    r = take (Z.to_nat max) (all_elements s) /\ drained s (sq_order s) (Z.to_nat max) s') nothrow s.
Proof using Type.
  intros Hinv Hmax.
  unfold try_dequeue_bulk. wp_steps. rewrite sl_tail by done.
  eapply wp_mono; [apply (bulk_in_order_spec _ s _ [] max []); [done|done|by apply sl_bound|done]| |done].
  cbn beta. change (zlength []) with 0. rewrite Z.sub_0_r. done.
Qed.

Lemma sum_sizes_spec l2 s fuel l1 size :
  sq_inv s -> sq_order s = l1 ++ l2 -> (length l2 <= fuel)%nat -> 0 <= size < 2 ^ sb ->
  wp (sum_sizes tr fuel (first_of l2) size) (fun r s' =>
    s' = s /\ r = wrap sb (size + zlength (elements_of s l2))) nothrow s.
Proof using TraitsOk0.
  pose proof (size_le_index tr). assert (0 < sb) as Hsb by lia.
  revert l1 fuel size. induction l2 as [|p l2 IH]; intros l1 fuel size Hinv Ho Hf Hsize.
  { assert (size = wrap sb (size + zlength (elements_of s []))) as E.
    { change (zlength (elements_of s [])) with 0. by rewrite Z.add_0_r, wrap_small. }
    destruct fuel; cbn; done. }
  destruct fuel as [|fuel]; [cbn in Hf; lia|]. cbn [length sum_sizes first_of] in *.
  rewrite (proj2 (Z.eqb_neq _ _)) by (by eapply order_not_null).
  wp_step. apply wp_size; [done|by eapply in_order|]. wp_step. eapply wp_next; [done|done|].
  eapply wp_mono; [eapply (IH (l1 ++ [p])); [done|by rewrite <- app_assoc|lia|by apply wrap_range]| |done].
  cbn beta. intros r s' [-> ->]. split; [done|]. rewrite wrap_add_l. f_equal.
  unfold elements_of. cbn. rewrite zlength_app. lia.
Qed.

Lemma queue_size_wrap s :
  sq_inv s -> wp (queue_size_approx tr) (fun r s' => s' = s /\ r = wrap sb (zlength (all_elements s))) nothrow s.
Proof using TraitsOk0.
  intros Hinv. pose proof (size_le_index tr). pose proof (Z.pow_pos_nonneg 2 sb ltac:(lia) ltac:(lia)).
  unfold queue_size_approx. wp_steps. rewrite sl_tail by done.
  eapply wp_mono; [apply (sum_sizes_spec _ s _ []); [done|done|by apply sl_bound|lia]|done|done].
Qed.

Lemma queue_size_spec s :
  sq_inv s -> zlength (all_elements s) < 2 ^ sb ->
  wp (queue_size_approx tr) (fun r s' => s' = s /\ r = zlength (all_elements s)) nothrow s.
Proof using TraitsOk0.
  intros Hinv Hlt. pose proof (zlength_nonneg (all_elements s)).
  eapply wp_mono; [by apply queue_size_wrap| |done]. intros r s' [-> ->]. split; [done|]. by apply wrap_small.
Qed.
End bulk.

(** ** With a token *)

Section token.
Context (tr : Traits).
Implicit Types (t : ConsumerToken).

(** A token that was used points to producers of the queue. *)
Definition token_ok s t : Prop :=
  desiredProducer t = nullptr \/ desiredProducer t ∈ sq_order s /\ currentProducer t ∈ sq_order s.

Definition circular (tail nx : loc) : loc := if nx =? nullptr then tail else nx.

(** The producer after [cur] starts the list of the others. *)
Lemma circular_start s l1 cur l2 :
  sq_inv s -> sq_order s = l1 ++ cur :: l2 ->
  circular (sq_tail s) (first_of l2) = first_of ((l2 ++ l1) ++ [cur]).
Proof using Type.
  intros Hinv Ho. pose proof (sl_not_null s Hinv) as Hnn. rewrite Ho in Hnn. unfold circular. destruct l2 as [|y l2]; cbn.
  - rewrite sl_tail, Ho by done. by destruct l1.
  - rewrite (proj2 (Z.eqb_neq _ _)); [done|]. intros ->. set_solver.
Qed.

(** The list of the others, after [cur] and after [p]. *)
Lemma around_shift s l1 cur l2 a p b :
  sq_order s = l1 ++ cur :: l2 -> l2 ++ l1 = a ++ p :: b ->
  exists k1 k2, sq_order s = k1 ++ p :: k2 /\ k2 ++ k1 = b ++ cur :: a.
Proof using Type.
  intros Ho E. apply app_eq_inv in E as [(k & E1 & E2)|(k & E1 & E2)].
  - destruct k as [|x k]; simplify_eq/=.
    + exists [], (b ++ cur :: a ++ []). split; [by rewrite Ho|]. by rewrite !app_nil_r.
    + exists (l1 ++ cur :: a), k. split; [by rewrite Ho, <- app_assoc|]. by rewrite <- app_assoc.
  - subst. exists k, (b ++ cur :: l2). split; [by rewrite Ho, <- app_assoc|]. by rewrite <- app_assoc.
Qed.

(** The circular list, read from the producer after [cur]. *)
Lemma circular_next s l1 cur l2 a p b :
  sq_inv s -> sq_order s = l1 ++ cur :: l2 -> l2 ++ l1 = a ++ p :: b ->
  exists k1 k2, sq_order s = k1 ++ p :: k2 /\ circular (sq_tail s) (first_of k2) = first_of (b ++ [cur]).
Proof using Type.
  intros Hinv Ho E. destruct (around_shift s l1 cur l2 a p b Ho E) as (k1 & k2 & Ho' & E').
  exists k1, k2. split; [done|]. rewrite (circular_start s k1 p k2), E' by done. by destruct b.
Qed.

(** Going around the list from the producer at the index [i]. *)
Lemma advance_index n s i p :
  sq_inv s -> sq_order s !! i = Some p ->
  wp (advance n (sq_tail s) p) (fun r s' => s' = s /\ sq_order s !! ((i + n) mod length (sq_order s))%nat = Some r) nothrow s.
Proof using Type.
  revert i p. induction n as [|n IH]; intros i p Hinv Hi; cbn [advance]; pose proof (lookup_lt_Some _ _ _ Hi) as Hlt.
  { wp_step. by rewrite Nat.add_0_r, Nat.mod_small. }
  wp_step. pose proof (take_drop_middle _ _ _ Hi) as E. eapply wp_next; [done|by rewrite <- E|].
  assert (sq_order s !! ((i + 1) mod length (sq_order s))%nat = Some (circular (sq_tail s) (first_of (drop (Datatypes.S i) (sq_order s))))) as Hnext.
  { unfold circular. destruct (decide (Datatypes.S i < length (sq_order s))%nat) as [Hlast|Hlast].
    - rewrite Nat.mod_small by lia. rewrite Nat.add_1_r. destruct (lookup_lt_is_Some_2 _ _ Hlast) as [q Hq].
      rewrite (drop_S _ _ _ Hq). cbn. rewrite (proj2 (Z.eqb_neq _ _)); [done|]. intros ->.
      apply (sl_not_null s Hinv). by eapply list_elem_of_lookup_2.
    - replace (i + 1)%nat with (length (sq_order s)) by lia. rewrite Nat.Div0.mod_same, drop_ge by lia. cbn.
      rewrite sl_tail by done. by destruct (sq_order s). }
  eapply wp_mono; [by eapply (IH _ _ Hinv Hnext)| |done]. cbn beta. intros r s' [-> Hr]. split; [done|].
  rewrite Nat.Div0.add_mod_idemp_l in Hr. by rewrite Nat.add_succ_r, <- Nat.add_1_r, <- Nat.add_assoc, (Nat.add_comm n), Nat.add_assoc.
Qed.

Lemma advance_spec k s p :
  sq_inv s -> p ∈ sq_order s -> 0 <= k ->
  wp (advance (Z.to_nat k) (sq_tail s) p) (fun r s' => s' = s /\ r = place_after (sq_order s) p k) nothrow s.
Proof using Type.
  intros Hinv [i Hi]%list_elem_of_lookup Hk. eapply wp_mono; [by eapply advance_index| |done]. cbn beta.
  intros r s' [-> Hr]. split; [done|]. pose proof (place_after_lookup _ _ _ _ (sl_nodup s Hinv) Hi Hk). congruence.
Qed.

Lemma wp_queue {A} (m : M S A) (Q : A -> S * ConsumerToken -> Prop) E s t :
  wp m (fun a s' => Q a (s', t)) (fun s' => E (s', t)) s -> wp (queue m) Q E (s, t).
Proof using Type. intros H. by apply wp_zoom. Qed.
Lemma wp_token {A} (f : ConsumerToken -> A) (Q : A -> S * ConsumerToken -> Prop) E s t :
  Q (f t) (s, t) -> wp (token f) Q E (s, t).
Proof using Type. done. Qed.
Lemma wp_set_token f (Q : unit -> S * ConsumerToken -> Prop) E s t :
  Q tt (s, f t) -> wp (set_token f) Q E (s, t).
Proof using Type. done. Qed.

Ltac tok_step :=
  lazymatch goal with
  | |- wp (let _ := _ in _) _ _ _ => cbv zeta
  | |- wp (queue (gets _)) _ _ _ => apply wp_queue, wp_gets; cbn beta
  | |- wp (queue _) _ _ _ => apply wp_queue
  | |- wp (token _) _ _ _ => apply wp_token; cbn beta
  | |- wp (set_token _) _ _ _ => apply wp_set_token; cbn beta
  | _ => wp_step
  end.
Ltac tok_steps := repeat tok_step.

Lemma tail_in s : sq_inv s -> sq_tail s <> nullptr -> sq_tail s ∈ sq_order s.
Proof using Type.
  intros Hinv. rewrite sl_tail by done. destruct (sq_order s); cbn; [done|intros; by left].
Qed.

(** A token that has not been used, or does not know of the last rotation, is
    moved: a new one to a place of its own, by its number, and then as many
    places around the list as there were rotations. *)
Definition needs_rotation (offset : Z) t : bool :=
  (desiredProducer t =? nullptr) || negb (lastKnownGlobalOffset t =? offset).
Definition rotated (order : list loc) (offset : Z) t : ConsumerToken :=
  if needs_rotation offset t && negb (bool_decide (order = [])) then
    let start :=
      if desiredProducer t =? nullptr
      then place_after order (first_of order) (wrap 32 (zlength order - 1 - initialOffset t mod zlength order))
      else desiredProducer t in
    let p := place_after order start (wrap 32 (offset - lastKnownGlobalOffset t)) in
    mkConsumerToken (initialOffset t) offset 0 p p
  else t.

Lemma set_desired_same t : set_desired (desiredProducer t) t = t.
Proof using Type. by destruct t. Qed.

Lemma rotation_spec s t :
  sq_inv s -> token_ok s t -> needs_rotation (sq_offset s) t = true ->
  wp update_current_producer_after_rotation (fun r st =>
    r = negb (bool_decide (sq_order s = [])) /\ st = (s, rotated (sq_order s) (sq_offset s) t)) nothrow (s, t).
Proof using Type.
  intros Hinv Ht Hneed. unfold rotated. rewrite Hneed. cbn [andb]. unfold update_current_producer_after_rotation. tok_steps.
  assert (sq_tail s = nullptr <-> sq_order s = []) as Hempty.
  { rewrite (sl_tail s Hinv). split; [|by intros ->]. intros E. destruct (sq_order s) as [|p l] eqn:Ho; [done|exfalso].
    pose proof (sl_not_null s Hinv) as Hnn. rewrite Ho in Hnn. cbn in E. subst. apply Hnn. by left. }
  assert (forall x, 0 <= wrap 32 x) as Hw by (intros x; assert (0 <= wrap 32 x < 2 ^ 32) by (apply wrap_range; lia); lia).
  destruct (decide (sq_order s = [])) as [Eo|Hne].
  { rewrite (bool_decide_eq_true_2 _ Eo), (proj2 (Z.eqb_eq (sq_tail s) nullptr) (proj2 Hempty Eo)). cbn [negb].
    destruct Ht as [->|[Hin _]]; [rewrite Z.eqb_refl; by tok_steps|]. rewrite Eo in Hin. by apply not_elem_of_nil in Hin. }
  rewrite (bool_decide_eq_false_2 _ Hne). cbn [negb]. pose proof (sl_nodup s Hinv) as Hnd.
  assert (sq_tail s <> nullptr) as Htl by tauto. pose proof (tail_in s Hinv Htl) as Htin.
  rewrite (proj2 (Z.eqb_neq (sq_tail s) nullptr) Htl), andb_false_r. do 5 tok_step.
  set (n := sq_producer_count s). assert (n = zlength (sq_order s)) as En by by apply sl_count.
  set (start := if desiredProducer t =? nullptr then place_after _ _ _ else _).
  assert (start ∈ sq_order s) as Hstart.
  { unfold start. destruct (Z.eqb_spec (desiredProducer t) nullptr) as [|Hd]; [|by destruct Ht as [|[??]]].
    apply place_after_in; [done|by rewrite <- sl_tail|done]. }
  apply (wp_mono _ (fun _ st => st = (s, set_desired start t)) _ nothrow nothrow); [| |done].
  { unfold start. destruct (Z.eqb_spec (desiredProducer t) nullptr) as [|Hd]; [|tok_step; by rewrite set_desired_same].
    do 4 tok_step. eapply wp_mono; [by apply advance_spec| |done]. cbn beta. intros p s' [-> ->]. tok_steps.
    by rewrite <- En, sl_tail. }
  cbn beta. intros _ ? ->. do 6 tok_step. cbn [lastKnownGlobalOffset desiredProducer set_desired].
  set (d := wrap 32 (sq_offset s - lastKnownGlobalOffset t)). pose proof (Hw (sq_offset s - lastKnownGlobalOffset t)) as Hd. fold d in Hd.
  assert (0 < n) as Hn by (rewrite En; destruct (sq_order s); [done|unfold zlength; cbn; lia]).
  eapply wp_mono; [apply advance_spec; [done|done|]| |done].
  { case_match; [apply Z.mod_pos_bound; lia|done]. }
  cbn beta. intros p s' [-> ->]. tok_steps. split; [done|]. f_equal.
  assert (place_after (sq_order s) start (if n <=? d then d mod n else d) = place_after (sq_order s) start d) as ->; [|done].
  case_match; [by rewrite En, place_after_mod|done].
Qed.

Lemma rotated_in s t :
  sq_inv s -> token_ok s t -> sq_order s <> [] ->
  desiredProducer (rotated (sq_order s) (sq_offset s) t) ∈ sq_order s /\
  currentProducer (rotated (sq_order s) (sq_offset s) t) ∈ sq_order s.
Proof using Type.
  intros Hinv Ht Hne. pose proof (sl_nodup s Hinv) as Hnd. unfold rotated. rewrite (bool_decide_eq_false_2 _ Hne), andb_true_r.
  destruct (needs_rotation _ t) eqn:Hneed; cbn.
  - assert (forall x, 0 <= wrap 32 x) as Hw by (intros x; assert (0 <= wrap 32 x < 2 ^ 32) by (apply wrap_range; lia); lia).
    set (start := if desiredProducer t =? nullptr then _ else _).
    assert (start ∈ sq_order s); [|by split; apply place_after_in].
    unfold start. destruct (Z.eqb_spec (desiredProducer t) nullptr) as [|Hd]; [|by destruct Ht as [|[??]]].
    apply place_after_in; [done| |done]. destruct (sq_order s); [done|by left].
  - apply orb_false_iff in Hneed as [Hd _]. apply Z.eqb_neq in Hd. by destruct Ht.
Qed.

Lemma rotate_if_needed_spec s t :
  sq_inv s -> token_ok s t ->
  wp rotate_if_needed (fun r st =>
    r = negb (bool_decide (sq_order s = [])) /\ st = (s, rotated (sq_order s) (sq_offset s) t)) nothrow (s, t).
Proof using Type.
  intros Hinv Ht. unfold rotate_if_needed. tok_steps. change (_ || _) with (needs_rotation (sq_offset s) t).
  destruct (needs_rotation _ t) eqn:Hneed; [by apply rotation_spec|]. tok_steps. unfold rotated. rewrite Hneed. split; [|done].
  apply orb_false_iff in Hneed as [Hd _]. apply Z.eqb_neq in Hd. destruct Ht as [|[Hin _]]; [done|].
  symmetry. apply negb_true_iff, bool_decide_eq_false_2. intros E. rewrite E in Hin. by apply not_elem_of_nil in Hin.
Qed.

(** After its rotation the token looks around the list, from its current
    producer on, and takes an element of the first producer that has one.  It
    counts what it takes from one producer; when it has taken as many as the
    quota allows, all tokens are told to move on. *)
Definition token_took s t (r : option R) s' (t' : ConsumerToken) : Prop :=
  let t0 := rotated (sq_order s) (sq_offset s) t in
  match r with
  | None => s' = s /\ t' = t0 /\ all_empty s
  | Some x => exists before p after c,
      from_on (sq_order s) (currentProducer t0) = before ++ p :: after /\
      (forall q, q ∈ before -> sq_content s q = []) /\ sq_content s p = x :: c /\
      sq_inv s' /\ sq_order s' = sq_order s /\
      (forall q, sq_content s' q = if decide (q = p) then c else sq_content s q) /\
      let consumed := if p =? currentProducer t0 then wrap 32 (itemsConsumedFromCurrent t0 + 1) else 1 in
      t' = set_consumed consumed (set_current p t0) /\
      sq_offset s' = (if (p =? currentProducer t0) && (consumed =? EXPLICIT_CONSUMER_CONSUMPTION_QUOTA_BEFORE_ROTATE tr)
                      then wrap 32 (sq_offset s + 1) else sq_offset s)
  end.

Lemma around_not_current s l1 cur l2 a p b :
  sq_inv s -> sq_order s = l1 ++ cur :: l2 -> l2 ++ l1 = a ++ p :: b -> p <> cur.
Proof using Type.
  intros Hinv Ho E ->. pose proof (sl_nodup s Hinv) as Hnd. rewrite Ho in Hnd.
  apply NoDup_app in Hnd as (_ & Hd & Hnd). apply NoDup_cons in Hnd as [Hc _].
  assert (cur ∈ l2 ++ l1) as [?|?]%elem_of_app by (rewrite E; set_solver); [done|].
  apply (Hd cur); [done|by left].
Qed.

Lemma try_around_spec b s fuel a l1 cur l2 t :
  sq_inv s -> sq_order s = l1 ++ cur :: l2 -> l2 ++ l1 = a ++ b -> (length b <= fuel)%nat ->
  wp (try_around fuel (sq_tail s) cur (first_of (b ++ [cur]))) (fun r st => match r with
    | None => st = (s, t) /\ forall p, p ∈ b -> sq_content s p = []
    | Some x => exists b1 p b2 c, b = b1 ++ p :: b2 /\ (forall q, q ∈ b1 -> sq_content s q = []) /\
        sq_content s p = x :: c /\ sq_taken s p 1 (fst st) /\
        snd st = set_consumed 1 (set_current p t) end) nothrow (s, t).
Proof using Type.
  revert a fuel. induction b as [|p b IH]; intros a fuel Hinv Ho E Hf.
  { assert ((cur =? cur) = true) as Ec by apply Z.eqb_refl.
    destruct fuel; cbn; rewrite Ec; (split; [done|]); by intros p ?%not_elem_of_nil. }
  destruct fuel as [|fuel]; [cbn in Hf; lia|]. cbn [length try_around first_of app] in *.
  rewrite (proj2 (Z.eqb_neq _ _)) by (by eapply around_not_current).
  destruct (circular_next s l1 cur l2 a p b Hinv Ho E) as (k1 & k2 & Ho' & Hnext).
  tok_step. tok_step. apply wp_dequeue; [done|by eapply in_order| |].
  - intros Hc. tok_step. tok_step. eapply wp_next; [done|done|]. fold (circular (sq_tail s) (first_of k2)).
    rewrite Hnext. eapply wp_mono; [apply (IH (a ++ [p])); [done|done|by rewrite <- app_assoc|lia]| |done].
    cbn beta. intros [x|] st.
    + intros (b1 & q & b2 & c & -> & Hb1 & Hrest). exists (p :: b1), q, b2, c. split; [done|]. split; [|done].
      intros q' [->|Hq]%elem_of_cons; auto.
    + intros [-> Hall]. split; [done|]. intros q [->|Hq]%elem_of_cons; auto.
  - intros x c s' Hc Ht. tok_steps. exists [], p, b, c. split; [done|]. split; [by intros ? ?%not_elem_of_nil|]. done.
Qed.

(** What the consumer took leaves the token on producers of the queue. *)
Lemma token_took_ok s t r s' t' :
  sq_inv s -> token_ok s t -> token_took s t r s' t' -> token_ok s' t'.
Proof using Type.
  intros Hinv Ht. unfold token_took. set (t0 := rotated _ _ t).
  assert (sq_order s <> [] -> desiredProducer t0 ∈ sq_order s /\ currentProducer t0 ∈ sq_order s) as Hin by (intros; by apply rotated_in).
  destruct r as [x|].
  - intros (before & p & after & c & E & _ & _ & _ & Ho & _ & -> & _). right. cbn. rewrite Ho.
    assert (sq_order s <> []) as Hne by (intros Eo; rewrite Eo in E; by destruct before). destruct (Hin Hne) as [Hd Hc]. split; [done|].
    apply (from_on_in _ (currentProducer t0)). rewrite E. apply elem_of_app. right. by left.
  - intros (-> & -> & _). destruct (decide (sq_order s = [])) as [Eo|]; [|right; auto].
    unfold t0, rotated. rewrite (bool_decide_eq_true_2 _ Eo), andb_false_r. done.
Qed.

Lemma set_current_same t : set_current (currentProducer t) t = t.
Proof using Type. by destruct t. Qed.

Lemma try_dequeue_token_spec s t :
  sq_inv s -> token_ok s t ->
  wp (try_dequeue_token tr) (fun r st => token_took s t r (fst st) (snd st)) nothrow (s, t).
Proof using Type.
  intros Hinv Ht. unfold try_dequeue_token, token_took. tok_step.
  eapply wp_mono; [by apply rotate_if_needed_spec| |done]. cbn beta. intros ? ? [-> ->]. set (t0 := rotated _ _ t).
  destruct (decide (sq_order s = [])) as [Eo|Hne].
  { rewrite (bool_decide_eq_true_2 _ Eo). cbn [negb]. tok_steps. split; [done|]. split; [done|].
    intros p. rewrite Eo. by intros ?%not_elem_of_nil. }
  destruct (rotated_in s t Hinv Ht Hne) as [Hdes Hcur]. fold t0 in Hdes, Hcur.
  rewrite (bool_decide_eq_false_2 _ Hne). cbn [negb]. set (cur := currentProducer t0) in *.
  pose proof Hcur as (l1 & l2 & Ho)%list_elem_of_split. pose proof (sl_nodup s Hinv) as Hnd.
  assert (from_on (sq_order s) cur = cur :: l2 ++ l1) as Ea by (rewrite Ho in Hnd |- *; by apply from_on_split).
  rewrite Ea. do 4 tok_step. apply wp_dequeue; [done|done| |].
  - intros Hc. do 6 tok_step. eapply wp_next; [done|done|]. fold (circular (sq_tail s) (first_of l2)).
    rewrite (circular_start s l1 cur l2) by done.
    eapply wp_mono; [apply (try_around_spec (l2 ++ l1) s _ [] l1 _ l2); [done|done|done|]| |done].
    { pose proof (sl_bound s Hinv) as Hb. rewrite Ho in Hb. rewrite length_app in *. cbn in Hb. lia. }
    cbn beta. intros [x|] [s' t'].
    + intros (b1 & p & b2 & c & Eb & Hb1 & Hpc & (Hinv' & Ho' & Hoff & Hc') & ->). cbn [fst snd].
      exists (cur :: b1), p, b2, c. rewrite Eb. split; [done|]. split; [intros q [->|Hq]%elem_of_cons; auto|]. split; [done|].
      assert (p <> cur) as Hpc' by (by eapply (around_not_current s l1 cur l2 b1 p b2)).
      rewrite (proj2 (Z.eqb_neq p cur) Hpc'). split_and!; try done. intros q. by rewrite Hc', Hpc.
    + intros [[= -> ->] Hall]. split; [done|]. split; [done|]. intros p. rewrite Ho.
      intros Hp. destruct (decide (p = cur)) as [->|]; [done|]. apply Hall.
      apply elem_of_app in Hp as [|[|]%elem_of_cons]; apply elem_of_app; tauto.
  - intros x c s' Hc (Hinv' & Ho' & Hoff & Hc'). do 5 tok_step. cbn [itemsConsumedFromCurrent set_consumed].
    assert (forall q, sq_content s' q = if decide (q = cur) then c else sq_content s q) as Hcq by (intros q; by rewrite Hc', Hc).
    set (k := wrap 32 (itemsConsumedFromCurrent t0 + 1)). assert (set_current cur t0 = t0) as Es by apply set_current_same.
    destruct (Z.eqb_spec k (EXPLICIT_CONSUMER_CONSUMPTION_QUOTA_BEFORE_ROTATE tr)) as [Eq|Eq].
    + unfold rotate_everyone. tok_steps. cbn [fst snd].
      destruct (sl_set_offset s' (wrap 32 (sq_offset s' + 1)) Hinv') as (Hinv2 & Ho2 & Hoff2 & Hc2).
      exists [], cur, (l2 ++ l1), c. rewrite Z.eqb_refl, Eq, Z.eqb_refl. fold k. rewrite Es.
      split_and!; try done; [by intros ? ?%not_elem_of_nil|by rewrite Ho2|intros q; by rewrite Hc2|by rewrite Hoff2, Hoff].
    + tok_steps. cbn [fst snd]. exists [], cur, (l2 ++ l1), c. rewrite Z.eqb_refl. fold k. rewrite (proj2 (Z.eqb_neq _ _) Eq).
      rewrite Es. split_and!; try done. by intros ? ?%not_elem_of_nil.
Qed.

(** ** In bulk, with a token *)

#[local] Abbreviation sb := (size_bits tr).

(** A round in which nothing is left. *)
Lemma bulk_idle_spec b s fuel a l1 cur l2 t tail max out :
  sq_inv s -> tail = first_of (sq_order s) -> sq_order s = l1 ++ cur :: l2 -> l2 ++ l1 = a ++ b -> (length b <= fuel)%nat ->
  currentProducer t = cur -> (forall p, p ∈ b -> sq_content s p = []) -> 0 < max < 2 ^ sb ->
  wp (bulk_around tr fuel tail (first_of (b ++ [cur])) max out)
    (fun r st => r = out /\ drained s [] 0 (fst st) /\ snd st = t) nothrow (s, t).
Proof using Type.
  revert s a fuel. induction b as [|p b IH]; intros s a fuel Hinv Htail Ho E Hf Ht Hempty Hmax.
  { assert (currentProducer t =? cur = true) as Ec by (by apply Z.eqb_eq).
    destruct fuel; cbn [bulk_around first_of app]; do 2 tok_step; rewrite Z.eqb_sym, Ec; (tok_steps; split; [done|]; split; [by apply drained_refl|done]). }
  destruct fuel as [|fuel]; [cbn in Hf; lia|]. cbn [length bulk_around first_of app] in *. do 2 tok_step. rewrite Ht.
  rewrite (proj2 (Z.eqb_neq _ _)) by (by eapply around_not_current).
  destruct (circular_next s l1 cur l2 a p b Hinv Ho E) as (k1 & k2 & Ho' & Hnext).
  destruct (sl_dequeue_bulk s p max Hinv ltac:(by eapply in_order) ltac:(lia)) as (s1 & Hs1 & Htk).
  rewrite (Hempty p) in Hs1 by left. rewrite take_nil in Hs1. pose proof Htk as (Hinv1 & Ho1 & Hoff1 & Hc1).
  do 2 tok_step. eapply wp_ok; [exact Hs1|]. cbn beta. change (zlength (@nil R)) with 0. change (negb (0 =? 0)) with false. cbn iota.
  do 2 tok_step. rewrite (proj2 (Z.eqb_neq 0 max)) by lia. do 2 tok_step. eapply wp_next; [done|by rewrite Ho1|].
  rewrite (sl_tail s Hinv), <- Htail in Hnext. rewrite app_nil_r, Z.sub_0_r, wrap_small by lia. fold (circular tail (first_of k2)). rewrite Hnext.
  assert (forall q, sq_content s1 q = sq_content s q) as Hsame.
  { intros q. rewrite Hc1. destruct (decide (q = p)) as [->|]; [|done]. rewrite (Hempty p) by left. by destruct (Z.to_nat max). }
  eapply wp_mono; [eapply (IH s1 (a ++ [p])); [done|by rewrite Ho1|by rewrite Ho1|by rewrite <- app_assoc|lia|done| |done]| |done].
  { intros q Hq. rewrite Hsame. apply Hempty. by right. }
  cbn beta. intros r st (-> & (Hinv2 & Ho2 & Hoff2 & _ & Hk2 & Hc2) & ->). split; [done|]. split; [|done].
  split; [done|]. split; [congruence|]. split; [congruence|]. split; [done|]. split.
  - intros q. destruct (Hk2 q) as [k Hk]. exists k. by rewrite Hk, Hsame.
  - intros q Hq. by rewrite Hc2, Hsame by done.
Qed.

(** Where a token ends up that looks for [max] elements in the producers [l] in
    turn: at the last one that it took elements from, with their number. *)
Fixpoint follow (content : loc -> list R) (l : list loc) (max : Z) t : ConsumerToken :=
  match l with
  | [] => t
  | p :: l =>
      let k := Z.min max (zlength (content p)) in
      let t := if negb (k =? 0) then set_consumed (wrap 32 k) (set_current p t) else t in
      if k =? max then t else follow content l (max - k) t
  end.

Lemma follow_frame (f g : loc -> list R) l max t : (forall p, p ∈ l -> f p = g p) -> follow f l max t = follow g l max t.
Proof using Type.
  revert max t. induction l as [|p l IH]; intros max t H; [done|]. cbn. rewrite (H p) by left. case_match; [done|].
  apply IH. intros q Hq. apply H. by right.
Qed.

Lemma bulk_around_spec b s fuel a l1 cur l2 t tail max out :
  sq_inv s -> tail = first_of (sq_order s) -> sq_order s = l1 ++ cur :: l2 -> l2 ++ l1 = a ++ b ->
  (length b + length (sq_order s) <= fuel)%nat -> currentProducer t ∈ cur :: a ->
  (forall p, p ∈ cur :: a -> sq_content s p = []) -> 0 < max < 2 ^ sb ->
  wp (bulk_around tr fuel tail (first_of (b ++ [cur])) max out)
    (fun r st => r = out ++ take (Z.to_nat max) (elements_of s b) /\ drained s b (Z.to_nat max) (fst st) /\
      currentProducer (snd st) ∈ sq_order s /\ desiredProducer (snd st) = desiredProducer t /\
      snd st = follow (sq_content s) b max t) nothrow (s, t).
Proof using Type.
  revert s a fuel t max out. induction b as [|p b IH]; intros s a fuel t max out Hinv Htail Ho E Hf Ht Hempty Hmax.
  { rewrite app_nil_r in E. assert (currentProducer t ∈ sq_order s) as Hcur.
    { rewrite Ho, elem_of_app, elem_of_cons. apply elem_of_cons in Ht as [|Ht]; [auto|]. rewrite <- E in Ht. apply elem_of_app in Ht. tauto. }
    change (elements_of s []) with (@nil R). rewrite take_nil, app_nil_r. cbn [app].
    assert (forall s', drained s [] 0 s' -> drained s [] (Z.to_nat max) s') as Hd.
    { intros s' (? & ? & ? & _ & ? & ?). split_and!; try done. by destruct (Z.to_nat max). }
    destruct (decide (currentProducer t = cur)) as [Ec|Hne].
    - eapply wp_mono; [eapply (bulk_idle_spec [] s _ a l1 cur l2 t); [done|done|done|by rewrite app_nil_r|cbn; lia|done|by intros ? ?%not_elem_of_nil|done]| |done].
      cbn beta. intros r st (-> & Hdr & ->). auto.
    - apply elem_of_cons in Ht as [|(a1 & a2 & Ea)%list_elem_of_split]; [done|].
      destruct (around_shift s l1 cur l2 a1 (currentProducer t) a2 Ho ltac:(by rewrite E)) as (k1 & k2 & Ho' & Ek).
      eapply wp_mono; [eapply (bulk_idle_spec (cur :: a1) s _ a2 k1 _ k2 t); [done|done|exact Ho'|exact Ek| |done| |done]| |done].
      + rewrite Ho', length_app in Hf. apply (f_equal length) in Ek. rewrite !length_app in Ek. cbn in *. lia.
      + intros q Hq. apply Hempty. rewrite Ea. apply elem_of_cons in Hq as [->|Hq]; [by left|]. right. apply elem_of_app. by left.
      + cbn beta. intros r st (-> & Hdr & ->). auto. }
  assert (p <> currentProducer t) as Hpt.
  { intros ->. apply elem_of_cons in Ht as [Ht|Ht]; [by eapply (around_not_current s l1 cur l2 a)|].
    pose proof (sl_nodup s Hinv) as Hnd. rewrite Ho, Permutation_app_comm in Hnd. cbn in Hnd.
    apply NoDup_cons in Hnd as [_ Hnd]. rewrite E in Hnd. apply NoDup_app in Hnd as (_ & Hnd & _). eapply Hnd; [exact Ht|by left]. }
  assert (p ∉ b) as Hpb.
  { pose proof (sl_nodup s Hinv) as Hnd. rewrite Ho, Permutation_app_comm in Hnd. cbn in Hnd.
    apply NoDup_cons in Hnd as [_ Hnd]. rewrite E in Hnd. apply NoDup_app in Hnd as (_ & _ & Hnd). by apply NoDup_cons in Hnd as [? _]. }
  destruct fuel as [|fuel]; [cbn in Hf; lia|]. cbn [length bulk_around first_of app] in *. do 2 tok_step.
  rewrite (proj2 (Z.eqb_neq _ _)) by done.
  destruct (circular_next s l1 cur l2 a p b Hinv Ho E) as (k1 & k2 & Ho' & Hnext).
  destruct (sl_dequeue_bulk s p max Hinv ltac:(by eapply in_order) ltac:(lia)) as (s1 & Hs1 & Htk).
  set (n := Z.to_nat max) in *. rewrite (elements_step s p b n s1) by done. pose proof Htk as (Hinv1 & Ho1 & Hoff1 & Hc1).
  set (c := sq_content s p) in *. assert (zlength (take n c) = Z.min max (zlength c)) as Elen.
  { unfold zlength, n. rewrite length_take. lia. }
  do 2 tok_step. eapply wp_ok; [exact Hs1|]. cbn beta. tok_step. rewrite Elen.
  set (t1 := if negb (Z.min max (zlength c) =? 0) then set_consumed (wrap 32 (Z.min max (zlength c))) (set_current p t) else t).
  assert (forall Q, Q tt (s1, t1) -> wp (if negb (Z.min max (zlength c) =? 0) then set_token (set_current p);; set_token (set_consumed (wrap 32 (Z.min max (zlength c)))) else ret tt)
    Q nothrow (s1, t)) as Hset by (intros Q HQ; unfold t1 in HQ; destruct (negb _); by tok_steps).
  apply Hset. clear Hset.
  assert (currentProducer t1 ∈ cur :: (a ++ [p]) /\ desiredProducer t1 = desiredProducer t) as [Hcur1 Hdes1].
  { unfold t1. destruct (negb _); cbn; split; try done; rewrite elem_of_cons, elem_of_app, list_elem_of_singleton; [tauto|].
    apply elem_of_cons in Ht. tauto. }
  assert (currentProducer t1 ∈ sq_order s) as Hin1.
  { rewrite Ho, elem_of_app, elem_of_cons. apply elem_of_cons in Hcur1 as [|Hin]; [tauto|].
    assert (currentProducer t1 ∈ l2 ++ l1) as [|]%elem_of_app; [|tauto..]. rewrite E. apply elem_of_app in Hin as [|Hin]; [set_solver|].
    apply list_elem_of_singleton in Hin as ->. set_solver. }
  destruct (Z.eqb_spec (Z.min max (zlength c)) max) as [Ek|Ek].
  - assert (n - length c = 0)%nat as En by (unfold zlength, n in *; lia). tok_step. cbn [fst snd]. rewrite En, take_0, app_nil_r.
    split; [done|]. split; [eapply drained_step; [done|done|]; fold c; rewrite En; by apply drained_refl|].
    split; [done|]. split; [done|]. cbn. fold c. fold t1. by rewrite (proj2 (Z.eqb_eq _ _) Ek).
  - assert (Z.min max (zlength c) = zlength c) as Ec by lia. pose proof (zlength_nonneg c). rewrite Ec in *.
    do 2 tok_step. eapply wp_next; [done|by rewrite Ho1|]. rewrite (sl_tail s Hinv), <- Htail in Hnext.
    fold (circular tail (first_of k2)). rewrite Hnext, wrap_small by lia.
    eapply wp_mono; [eapply (IH s1 (a ++ [p])); [done|by rewrite Ho1|by rewrite Ho1|by rewrite <- app_assoc|rewrite Ho1; lia|done| |lia]| |done].
    { intros q Hq. rewrite Hc1. destruct (decide (q = p)) as [->|Hqp]; [apply drop_ge; unfold zlength, n in *; lia|].
      apply Hempty. rewrite elem_of_cons, elem_of_app, list_elem_of_singleton in Hq. rewrite elem_of_cons. tauto. }
    cbn beta. assert (Z.to_nat (max - zlength c) = n - length c)%nat as -> by (unfold zlength, n; lia).
    intros r st (-> & Hdr & Hcur2 & Hdes2 & Hfol). rewrite <- app_assoc. split; [done|]. split; [by eapply drained_step|].
    rewrite <- Ho1. split; [done|]. split; [congruence|]. rewrite Hfol. cbn. fold c. fold t1. rewrite Ec, (proj2 (Z.eqb_neq _ _) Ek).
    apply follow_frame. intros q Hq. rewrite Hc1, decide_False; [done|]. by intros ->.
Qed.

(** The first [max] elements around the list, from the current producer of the
    rotated token on.  Only a consumer that got all of them from that producer,
    and used up its quota, tells the others to move on. *)
Definition token_drained s t max r s' (t' : ConsumerToken) : Prop :=
  let t0 := rotated (sq_order s) (sq_offset s) t in
  let around := from_on (sq_order s) (currentProducer t0) in
  let here := zlength (sq_content s (currentProducer t0)) in
  if bool_decide (sq_order s = []) then r = [] /\ s' = s /\ t' = t
  else
    r = take (Z.to_nat max) (elements_of s around) /\
    sq_inv s' /\ sq_order s' = sq_order s /\ elements_of s' around = drop (Z.to_nat max) (elements_of s around) /\
    (forall q, exists k, sq_content s' q = drop k (sq_content s q)) /\
    if max <=? here then
      let consumed := wrap 32 (itemsConsumedFromCurrent t0 + wrap 32 max) in
      t' = set_consumed consumed t0 /\
      sq_offset s' = (if EXPLICIT_CONSUMER_CONSUMPTION_QUOTA_BEFORE_ROTATE tr <=? consumed
                      then wrap 32 (sq_offset s + 1) else sq_offset s)
    else
      t' = follow (sq_content s) (tail around) (max - here)
             (set_consumed (wrap 32 (itemsConsumedFromCurrent t0 + wrap 32 here)) t0) /\
      sq_offset s' = sq_offset s.

Lemma try_dequeue_bulk_token_spec s t max :
  sq_inv s -> token_ok s t -> 0 <= max < 2 ^ sb ->
  wp (try_dequeue_bulk_token tr max) (fun r st =>
    token_ok (fst st) (snd st) /\ token_drained s t max r (fst st) (snd st)) nothrow (s, t).
Proof using Type.
  intros Hinv Ht Hmax. unfold try_dequeue_bulk_token, token_drained. tok_step.
  eapply wp_mono; [by apply rotate_if_needed_spec| |done]. cbn beta. intros ? ? [-> ->].
  destruct (decide (sq_order s = [])) as [Eo|Hne].
  { rewrite (bool_decide_eq_true_2 _ Eo). cbn [negb]. unfold rotated. rewrite (bool_decide_eq_true_2 _ Eo), andb_false_r. by tok_steps. }
  destruct (rotated_in s t Hinv Ht Hne) as [Hdes Hcur]. rewrite (bool_decide_eq_false_2 _ Hne). cbn [negb].
  set (t0 := rotated _ _ t) in *. set (cur := currentProducer t0) in *. pose proof Hcur as (l1 & l2 & Ho)%list_elem_of_split.
  destruct (sl_dequeue_bulk s cur max Hinv Hcur ltac:(lia)) as (s1 & Hs1 & Htk). pose proof Htk as (Hinv1 & Ho1 & Hoff1 & Hc1).
  pose proof (sl_nodup s Hinv) as Hnd. set (n := Z.to_nat max) in *. set (others := l2 ++ l1).
  assert (from_on (sq_order s) cur = cur :: others) as Ea by (rewrite Ho in Hnd |- *; by apply from_on_split).
  assert (cur ∉ others) as Hno by (rewrite Ho, Permutation_app_comm in Hnd; by apply NoDup_cons in Hnd as [? _]).
  rewrite Ea. cbn [tail]. pose proof (elements_step s cur others n s1 Hno Htk) as Eout. set (c := sq_content s cur) in *.
  assert (zlength (take n c) = Z.min max (zlength c)) as Elen by (unfold zlength, n; rewrite length_take; lia).
  do 4 tok_step. eapply wp_ok; [exact Hs1|]. cbn beta. rewrite Elen. destruct (Z.leb_spec max (zlength c)) as [Hle|Hgt].
  - rewrite Z.min_l, Z.eqb_refl by done. assert (n - length c = 0)%nat as En by (unfold zlength, n in *; lia).
    assert (drained s (cur :: others) n s1) as (_ & _ & _ & He & Hk & _) by (eapply drained_step; [done|done|]; fold c; rewrite En; by apply drained_refl).
    rewrite En, take_0, app_nil_r in Eout. do 4 tok_step. cbn [itemsConsumedFromCurrent set_consumed].
    set (consumed := wrap 32 (itemsConsumedFromCurrent t0 + wrap 32 max)).
    tok_step. destruct (Z.leb_spec (EXPLICIT_CONSUMER_CONSUMPTION_QUOTA_BEFORE_ROTATE tr) consumed) as [Hq|Hq].
    + unfold rotate_everyone. tok_steps. cbn [fst snd].
      rewrite Hoff1. destruct (sl_set_offset s1 (wrap 32 (sq_offset s + 1)) Hinv1) as (Hinv2 & Ho2 & Hoff2 & Hc2).
      split; [right; by rewrite Ho2, Ho1|]. rewrite Hoff2, Ho2, Ho1. split_and!; try done.
      * rewrite (elements_of_frame s1); [done|]. intros. apply Hc2.
      * intros q. destruct (Hk q) as [k Hk']. exists k. by rewrite Hc2.
    + tok_steps. cbn [fst snd]. split; [right; by rewrite Ho1|]. by split_and!.
  - rewrite Z.min_r by lia. rewrite (proj2 (Z.eqb_neq _ _)) by lia. pose proof (zlength_nonneg c).
    do 8 tok_step. set (t1 := set_consumed _ t0). eapply wp_next; [done|by rewrite Ho1|]. fold (circular (sq_tail s1) (first_of l2)).
    rewrite (circular_start s1 l1 cur l2), wrap_small by (first [by rewrite ?Ho1|lia]). fold others.
    pose proof (sl_bound s1 Hinv1) as Hb. eapply wp_mono; [eapply (bulk_around_spec others s1 _ [] l1 cur l2); [done|by rewrite sl_tail|by rewrite Ho1|done| |by left| |lia]| |done].
    + rewrite Ho1, Ho in Hb |- *. unfold others. rewrite !length_app in *. cbn [length] in *. lia.
    + intros q ->%list_elem_of_singleton. rewrite Hc1, decide_True by done. apply drop_ge. unfold zlength, n in *. lia.
    + cbn beta. assert (Z.to_nat (max - zlength c) = n - length c)%nat as -> by (unfold zlength, n; lia).
      intros r [s2 t2] (-> & Hdr & Hcur2 & Hdes2 & Hfol). cbn [fst snd] in *.
      assert (drained s (cur :: others) n s2) as (Hinv2 & Ho2 & Hoff2 & He2 & Hk2 & _) by (by eapply drained_step).
      split; [right; rewrite Ho2, <- Ho1; split; [by rewrite Hdes2, Ho1|done]|]. rewrite Eout. split_and!; try done.
      rewrite Hfol. apply follow_frame. intros q Hq. rewrite Hc1, decide_False; [done|]. by intros ->.
Qed.
End token.
End proofs.
