(* ===== verification/ConcurrentQueue.v ===== *)
(** [ConcurrentQueue] of src/concurrentqueue.h: the list of producers, producer
    tokens, the implicit producer of each thread, the public operations,
    construction, destruction, move and swap.  The operations are those of one
    thread at a time. *)

From S2P Require Import Prelude MachineInt Traits FreeList Block BlockPool ProducerBase ExplicitProducer ImplicitProducer ThreadExit ImplicitHash SubQueues.

(** * State *)

Inductive ProducerBody := Explicit (p : ExplicitProducer) | Implicit (p : ImplicitProducer).

(** [ConcurrentQueueProducerTypelessBase], the [parent] of [ProducerBase], and
    the producer it is the base of. *)
Record Producer := mkProducer {
  p_next : loc;
  p_inactive : bool;
  p_token : loc;
  p_parent : loc;
  p_body : ProducerBody
}.

Definition set_p_next x (p : Producer) : Producer :=
  mkProducer x (p_inactive p) (p_token p) (p_parent p) (p_body p).
Definition set_p_inactive x (p : Producer) : Producer :=
  mkProducer (p_next p) x (p_token p) (p_parent p) (p_body p).
Definition set_p_token x (p : Producer) : Producer :=
  mkProducer (p_next p) (p_inactive p) x (p_parent p) (p_body p).
Definition set_p_parent x (p : Producer) : Producer :=
  mkProducer (p_next p) (p_inactive p) (p_token p) x (p_body p).
Definition set_p_body x (p : Producer) : Producer :=
  mkProducer (p_next p) (p_inactive p) (p_token p) (p_parent p) x.

Definition producer_base (p : Producer) : ProducerBase :=
  match p_body p with Explicit e => ep_base e | Implicit i => ip_base i end.

(** A queue object at the address [q_address], with the objects that only it
    and its tokens refer to: its memory, its producers, the [producer] members
    of its producer tokens, and the listeners of its implicit producers. *)
Record ConcurrentQueue (T : Type) := mkQueue {
  q_address : loc;
  producerListTail : loc;
  producerCount : Z;
  q_mem : Mem T;
  q_hash : HashState;
  nextExplicitConsumerId : Z;
  globalExplicitConsumerOffset : Z;
  producers : gmap loc Producer;
  tokens : gmap loc loc;
  q_exit : ExitState
}.
Arguments mkQueue {T}. Arguments q_address {T}. Arguments producerListTail {T}.
Arguments producerCount {T}. Arguments q_mem {T}. Arguments q_hash {T}.
Arguments nextExplicitConsumerId {T}. Arguments globalExplicitConsumerOffset {T}.
Arguments producers {T}. Arguments tokens {T}. Arguments q_exit {T}.

Section queue.
Context {U T R : Type} (tr : Traits) (ops : ElementOps U T R).
Context (malloc_ok : nat -> bool) (indeterminate : Indeterminate).
Context (platform : ThreadIdPlatform) (thread_local_supported : bool).
(** The width of [thread_id_hash_t] in bytes. *)
Context (hash_bytes : Z).
#[local] Abbreviation Q := (ConcurrentQueue T).
Implicit Types q : Q.

Let sz := wrap (size_bits tr).

Definition set_list_tail x q : Q :=
  mkQueue (q_address q) x (producerCount q) (q_mem q) (q_hash q) (nextExplicitConsumerId q)
    (globalExplicitConsumerOffset q) (producers q) (tokens q) (q_exit q).
Definition set_producerCount x q : Q :=
  mkQueue (q_address q) (producerListTail q) x (q_mem q) (q_hash q) (nextExplicitConsumerId q)
    (globalExplicitConsumerOffset q) (producers q) (tokens q) (q_exit q).
Definition set_q_mem x q : Q :=
  mkQueue (q_address q) (producerListTail q) (producerCount q) x (q_hash q) (nextExplicitConsumerId q)
    (globalExplicitConsumerOffset q) (producers q) (tokens q) (q_exit q).
Definition set_q_hash x q : Q :=
  mkQueue (q_address q) (producerListTail q) (producerCount q) (q_mem q) x (nextExplicitConsumerId q)
    (globalExplicitConsumerOffset q) (producers q) (tokens q) (q_exit q).
Definition set_consumerId x q : Q :=
  mkQueue (q_address q) (producerListTail q) (producerCount q) (q_mem q) (q_hash q) x
    (globalExplicitConsumerOffset q) (producers q) (tokens q) (q_exit q).
Definition set_consumerOffset x q : Q :=
  mkQueue (q_address q) (producerListTail q) (producerCount q) (q_mem q) (q_hash q)
    (nextExplicitConsumerId q) x (producers q) (tokens q) (q_exit q).
Definition set_producers x q : Q :=
  mkQueue (q_address q) (producerListTail q) (producerCount q) (q_mem q) (q_hash q)
    (nextExplicitConsumerId q) (globalExplicitConsumerOffset q) x (tokens q) (q_exit q).
Definition set_tokens x q : Q :=
  mkQueue (q_address q) (producerListTail q) (producerCount q) (q_mem q) (q_hash q)
    (nextExplicitConsumerId q) (globalExplicitConsumerOffset q) (producers q) x (q_exit q).
Definition set_q_exit x q : Q :=
  mkQueue (q_address q) (producerListTail q) (producerCount q) (q_mem q) (q_hash q)
    (nextExplicitConsumerId q) (globalExplicitConsumerOffset q) (producers q) (tokens q) x.

Definition in_mem {A} (f : M (Mem T) A) : M Q A := zoom q_mem set_q_mem f.
Definition in_hash {A} (f : M HashState A) : M Q A := zoom q_hash set_q_hash f.
Definition in_exit {A} (f : M ExitState A) : M Q A := zoom q_exit set_q_exit f.

Definition producer (p : loc) : M Q Producer :=
  let! ps := gets producers in deref NullDeref (ps !! p).
Definition update_producer (p : loc) (f : Producer -> Producer) : M Q unit :=
  let! x := producer p in modify (fun q => set_producers (<[p := f x]> (producers q)) q).

(** Member function calls on a producer; a [static_cast] to the wrong class
    is a fault. *)
Definition on_explicit {A} (p : loc) (f : M (EState T) A) : M Q A :=
  let! x := producer p in
  match p_body x with
  | Explicit e =>
      zoom (fun q => mkEState e (q_mem q))
        (fun s q => set_q_mem (mem s)
           (set_producers (<[p := set_p_body (Explicit (prod s)) x]> (producers q)) q)) f
  | Implicit _ => faults BadObject
  end.
Definition on_implicit {A} (p : loc) (f : M (IState T) A) : M Q A :=
  let! x := producer p in
  match p_body x with
  | Implicit i =>
      zoom (fun q => mkIState i (q_mem q))
        (fun s q => set_q_mem (imem s)
           (set_producers (<[p := set_p_body (Implicit (iprod s)) x]> (producers q)) q)) f
  | Explicit _ => faults BadObject
  end.

(** ** The producers as sub-queues *)

Definition next_prod (p : loc) : M Q loc := let! x := producer p in ret (p_next x).

Definition producer_size_approx (p : loc) : M Q Z :=
  let! x := producer p in ret (size_approx tr (producer_base x)).

(** [ProducerBase::dequeue] and [dequeue_bulk]. *)
Definition producer_dequeue (p : loc) : M Q (option R) :=
  let! x := producer p in
  if isExplicit (producer_base x) then on_explicit p (ExplicitProducer.dequeue tr ops)
  else on_implicit p (ImplicitProducer_dequeue tr ops).

(** Runs a bulk operation whose output range starts empty, and returns what it
    put there. *)
Definition collect {S} (f : M (S * list R) Z) : M S (list R) :=
  fun s =>
    match f (s, []) with
    | Ok n (s', out) => if zlength out =? n then Ok out s' else Fault AssertFailed
    | Throw (s', _) => Throw s'
    | Fault f => Fault f
    end.

Definition producer_dequeue_bulk (p : loc) (max : Z) : M Q (list R) :=
  let! x := producer p in
  if isExplicit (producer_base x) then on_explicit p (collect (ExplicitProducer.dequeue_bulk tr ops max))
  else on_implicit p (collect (ImplicitProducer_dequeue_bulk tr ops max)).

#[export] Instance queue_sub_queues : SubQueues Q R := {|
  sq_tail := producerListTail;
  sq_producer_count := producerCount;
  sq_bound q := base.size (producers q);
  sq_next := next_prod;
  sq_size_approx := producer_size_approx;
  sq_dequeue := producer_dequeue;
  sq_dequeue_bulk := producer_dequeue_bulk;
  sq_offset := globalExplicitConsumerOffset;
  sq_set_offset := set_consumerOffset
|}.

(** ** The list of producers *)

(** [create<ExplicitProducer>(this)] and [create<ImplicitProducer>(this)]. *)
Definition create_producer (is_explicit : bool) : M Q loc :=
  let! p := in_mem (malloc malloc_ok 1) in
  if p =? nullptr then ret nullptr
  else
    let! this := gets q_address in
    let body := if is_explicit then Explicit (new_explicit_producer tr)
                else Implicit (new_implicit_producer tr) in
    modify (fun q => set_producers
      (<[p := mkProducer nullptr false nullptr this body]> (producers q)) q);;
    (if is_explicit then on_explicit p (ExplicitProducer_ctor tr malloc_ok)
     else on_implicit p (ImplicitProducer_ctor tr malloc_ok));;
    ret p.

Definition add_producer (p : loc) : M Q loc :=
  if p =? nullptr then ret nullptr
  else
    modify (fun q => set_producerCount (wrap 32 (producerCount q + 1)) q);;
    let! prevTail := gets producerListTail in
    update_producer p (set_p_next prevTail);;
    modify (set_list_tail p);;
    ret p.

(** The search for a producer to re-use. *)
Fixpoint find_inactive (fuel : nat) (ptr : loc) (is_explicit : bool) : M Q loc :=
  if ptr =? nullptr then ret nullptr
  else
    match fuel with
    | O => faults OutOfFuel
    | S fuel =>
        let! x := producer ptr in
        if p_inactive x && Bool.eqb (isExplicit (producer_base x)) is_explicit
        then update_producer ptr (set_p_inactive false);; ret ptr
        else find_inactive fuel (p_next x) is_explicit
    end.

Definition recycle_or_create_producer (is_explicit : bool) : M Q loc :=
  let! n := gets (fun q => base.size (producers q)) in
  let! tail := gets producerListTail in
  let! p := find_inactive n tail is_explicit in
  if negb (p =? nullptr) then ret p
  else let! p := create_producer is_explicit in add_producer p.

Fixpoint reown (fuel : nat) (ptr : loc) : M Q unit :=
  if ptr =? nullptr then ret tt
  else
    match fuel with
    | O => faults OutOfFuel
    | S fuel =>
        let! this := gets q_address in
        update_producer ptr (set_p_parent this);;
        let! x := producer ptr in reown fuel (p_next x)
    end.
Definition reown_producers : M Q unit :=
  let! n := gets (fun q => base.size (producers q)) in
  let! tail := gets producerListTail in reown n tail.

(** ** Producer tokens

    A token is named by its address [t]. *)

Definition token_producer (t : loc) : M Q loc :=
  let! ts := gets tokens in deref NullDeref (ts !! t).
(** The member of a token that is being constructed, and of one that exists. *)
Definition init_token (t p : loc) : M Q unit :=
  modify (fun q => set_tokens (<[t := p]> (tokens q)) q).
Definition set_token_producer (t p : loc) : M Q unit :=
  let! _ := token_producer t in init_token t p.

Definition ProducerToken_ctor (t : loc) : M Q unit :=
  let! p := recycle_or_create_producer true in
  init_token t p;;
  if negb (p =? nullptr) then update_producer p (set_p_token t) else ret tt.

Definition ProducerToken_move_ctor (t other : loc) : M Q unit :=
  let! p := token_producer other in
  init_token t p;;
  set_token_producer other nullptr;;
  if negb (p =? nullptr) then update_producer p (set_p_token t) else ret tt.

Definition ProducerToken_swap (t other : loc) : M Q unit :=
  let! p := token_producer t in
  let! p' := token_producer other in
  set_token_producer t p';;
  set_token_producer other p;;
  (if negb (p' =? nullptr) then update_producer p' (set_p_token t) else ret tt);;
  (if negb (p =? nullptr) then update_producer p (set_p_token other) else ret tt).

Definition ProducerToken_valid (t : loc) : M Q bool :=
  let! p := token_producer t in ret (negb (p =? nullptr)).

Definition ProducerToken_dtor (t : loc) : M Q unit :=
  let! p := token_producer t in
  (if negb (p =? nullptr) then
     update_producer p (set_p_token nullptr);;
     update_producer p (set_p_inactive true)
   else ret tt);;
  modify (fun q => set_tokens (delete t (tokens q)) q).

(** [ConsumerToken(queue)] *)
Definition new_consumer_token : M Q ConsumerToken :=
  let! id := gets nextExplicitConsumerId in
  modify (fun q => set_consumerId (wrap 32 (id + 1)) q);;
  ret (ConsumerToken_ctor id).

(** ** The implicit producer of a thread *)

Definition hashed (id : Z) : Z := hash_thread_id hash_bytes (size_bits tr) (prehash id).

(** The resize of the hash table, under the resize lock; [None] when the
    allocation failed, else the main table to go on with. *)
Definition grow_hash (newCount : Z) : M Q (option loc) :=
  let! mainHash := in_hash (gets implicitProducerHash) in
  let! t := in_hash (table mainHash) in
  if Z.shiftr (hash_capacity t) 1 <=? newCount then
    let! newCapacity := in_hash (double_capacity tr (Z.to_nat (size_bits tr)) newCount
                          (sz (Z.shiftl (hash_capacity t) 1))) in
    let! raw := in_mem (malloc malloc_ok 1) in
    if raw =? nullptr then
      in_hash (uncount_slot tr);; in_hash clear_resizing;; ret None
    else
      in_hash (install_table platform raw newCapacity mainHash);;
      in_hash clear_resizing;;
      ret (Some raw)
  else in_hash clear_resizing;; ret (Some mainHash).

(** The insertion loop.  Its second round is for a thread that found the
    resize lock taken: it waits for the owner of the lock. *)
Fixpoint insert_thread (fuel : nat) (tid : Z) (mainHash : loc) (newCount : Z) : M Q loc :=
  match fuel with
  | O => faults OutOfFuel
  | S fuel =>
      let! t := in_hash (table mainHash) in
      let! main :=
        (if Z.shiftr (hash_capacity t) 1 <=? newCount then
           let! busy := in_hash test_and_set_resizing in
           if negb busy then grow_hash newCount else ret (Some mainHash)
         else ret (Some mainHash)) in
      match main with
      | None => ret nullptr
      | Some mainHash =>
          let! t := in_hash (table mainHash) in
          if newCount <? sz (Z.shiftr (hash_capacity t) 1 + Z.shiftr (hash_capacity t) 2) then
            let! p := recycle_or_create_producer false in
            if p =? nullptr then in_hash (uncount_slot tr);; ret nullptr
            else
              (if thread_local_supported then
                 in_exit (modify (fun s => set_listeners
                   (<[p := mkListener p nullptr None]> (listeners s)) s));;
                 in_exit (subscribe tid p)
               else ret tt);;
              in_hash (claim_slot tr platform thread_local_supported (Z.to_nat (hash_capacity t))
                mainHash tid (hashed tid) p);;
              ret p
          else
            let! mainHash := in_hash (gets implicitProducerHash) in
            insert_thread fuel tid mainHash newCount
      end
  end.

(** Two rounds are enough when the lock is free. *)
Definition get_or_add_implicit_producer (tid : Z) : M Q loc :=
  let! mainHash := in_hash (gets implicitProducerHash) in
  let! found := in_hash (find_producer tr platform thread_local_supported tid (hashed tid)) in
  match found with
  | Some p => ret p
  | None =>
      let! newCount := in_hash (count_slot tr) in insert_thread 2 tid mainHash newCount
  end.

Definition implicit_producer_thread_exited (tid : Z) (p : loc) : M Q unit :=
  in_hash (remove_thread tr platform tid (hashed tid));;
  update_producer p (set_p_inactive true).

(** The callback finds the queue through [producer->parent]. *)
Definition implicit_producer_thread_exited_callback (tid : Z) (userData : loc) : M Q unit :=
  let! x := producer userData in
  let! this := gets q_address in
  cassert (p_parent x =? this);;
  implicit_producer_thread_exited tid userData.

(** The exit of the thread [tid]. *)
Definition thread_exits (tid : Z) : M Q unit :=
  ThreadExitNotifier_dtor q_exit set_q_exit (implicit_producer_thread_exited_callback tid) tid.

(** ** Enqueue *)

(** With a token, and for the thread [tid]. *)
Definition inner_enqueue_token (canAlloc : AllocationMode) (t : loc) (u : U) : M Q bool :=
  let! p := token_producer t in
  on_explicit p (ExplicitProducer.enqueue tr ops malloc_ok indeterminate canAlloc u).
Definition inner_enqueue (canAlloc : AllocationMode) (tid : Z) (u : U) : M Q bool :=
  let! p := get_or_add_implicit_producer tid in
  if p =? nullptr then ret false
  else on_implicit p (ImplicitProducer_enqueue tr ops malloc_ok indeterminate canAlloc u).
Definition inner_enqueue_bulk_token (canAlloc : AllocationMode) (t : loc) (items : list U) (count : Z)
    : M Q bool :=
  let! p := token_producer t in
  on_explicit p (ExplicitProducer.enqueue_bulk tr ops malloc_ok indeterminate canAlloc items count).
Definition inner_enqueue_bulk (canAlloc : AllocationMode) (tid : Z) (items : list U) (count : Z)
    : M Q bool :=
  let! p := get_or_add_implicit_producer tid in
  if p =? nullptr then ret false
  else on_implicit p (ImplicitProducer_enqueue_bulk tr ops malloc_ok indeterminate canAlloc items count).

(** [MOODYCAMEL_CONSTEXPR_IF (INITIAL_IMPLICIT_PRODUCER_HASH_SIZE == 0) return false] *)
Definition if_implicit (m : M Q bool) : M Q bool :=
  if INITIAL_IMPLICIT_PRODUCER_HASH_SIZE tr =? 0 then ret false else m.

Definition queue_enqueue (tid : Z) (item : U) : M Q bool := if_implicit (inner_enqueue CanAlloc tid item).
Definition queue_enqueue_token (t : loc) (item : U) : M Q bool := inner_enqueue_token CanAlloc t item.
Definition queue_enqueue_bulk (tid : Z) (items : list U) (count : Z) : M Q bool :=
  if_implicit (inner_enqueue_bulk CanAlloc tid items count).
Definition queue_enqueue_bulk_token (t : loc) (items : list U) (count : Z) : M Q bool :=
  inner_enqueue_bulk_token CanAlloc t items count.
Definition queue_try_enqueue (tid : Z) (item : U) : M Q bool := if_implicit (inner_enqueue CannotAlloc tid item).
Definition queue_try_enqueue_token (t : loc) (item : U) : M Q bool := inner_enqueue_token CannotAlloc t item.
Definition queue_try_enqueue_bulk (tid : Z) (items : list U) (count : Z) : M Q bool :=
  if_implicit (inner_enqueue_bulk CannotAlloc tid items count).
Definition queue_try_enqueue_bulk_token (t : loc) (items : list U) (count : Z) : M Q bool :=
  inner_enqueue_bulk_token CannotAlloc t items count.

(** ** Dequeue

    The variants without a given producer are those of [SubQueues]. *)

Definition queue_try_dequeue : M Q (option R) := try_dequeue.
Definition queue_try_dequeue_non_interleaved : M Q (option R) := try_dequeue_non_interleaved.
Definition queue_try_dequeue_token : M (Q * ConsumerToken) (option R) := try_dequeue_token tr.
Definition queue_try_dequeue_bulk (max : Z) : M Q (list R) := try_dequeue_bulk tr max.
Definition queue_try_dequeue_bulk_token (max : Z) : M (Q * ConsumerToken) (list R) :=
  try_dequeue_bulk_token tr max.
Definition try_dequeue_from_producer (t : loc) : M Q (option R) :=
  let! p := token_producer t in on_explicit p (ExplicitProducer.dequeue tr ops).
Definition try_dequeue_bulk_from_producer (t : loc) (max : Z) : M Q (list R) :=
  let! p := token_producer t in on_explicit p (collect (ExplicitProducer.dequeue_bulk tr ops max)).

(** ** Construction *)

(** The number of blocks for a capacity, and for a minimal capacity with given
    numbers of producers. *)
Definition blocks_for_capacity (capacity : Z) : Z :=
  sz (capacity / BLOCK_SIZE tr + (if Z.land capacity (BLOCK_SIZE tr - 1) =? 0 then 0 else 1)).
Definition blocks_for_producers (minCapacity maxExplicitProducers maxImplicitProducers : Z) : Z :=
  sz (sz (sz (sz (minCapacity + BLOCK_SIZE tr - 1) / BLOCK_SIZE tr - 1) * (maxExplicitProducers + 1))
      + 2 * (maxExplicitProducers + maxImplicitProducers)).

(** A queue object at [this], its first hash table at [hash], before the
    constructor's body. *)
Definition raw_queue (this hash : loc) : Q :=
  mkQueue this nullptr 0 init_mem (mkHashState nullptr 0 false hash ∅) 0 0 ∅ ∅ (mkExit ∅ ∅).

Definition construct_queue (blockCount : Z) : M Q unit :=
  in_hash clear_resizing;;
  in_hash (populate_initial_implicit_producer_hash tr platform);;
  in_mem (populate_initial_block_list tr malloc_ok indeterminate blockCount).
Definition ConcurrentQueue_ctor (capacity : Z) : M Q unit :=
  construct_queue (blocks_for_capacity capacity).
Definition ConcurrentQueue_ctor3 (minCapacity maxExplicitProducers maxImplicitProducers : Z)
    : M Q unit :=
  construct_queue (blocks_for_producers minCapacity maxExplicitProducers maxImplicitProducers).

(** ** Destruction *)

(** [destroy(ptr)] through the virtual destructor; the destructor of an
    implicit producer that is still in use unsubscribes its listener first. *)
Definition destroy_producer (p : loc) : M Q unit :=
  let! x := producer p in
  (if isExplicit (producer_base x) then on_explicit p (ExplicitProducer_dtor tr)
   else
     (if thread_local_supported && negb (p_inactive x) then in_exit (unsubscribe p) else ret tt);;
     on_implicit p (ImplicitProducer_dtor tr));;
  modify (fun q => set_producers (delete p (producers q)) q).

Fixpoint destroy_producers (fuel : nat) (ptr : loc) : M Q unit :=
  if ptr =? nullptr then ret tt
  else
    match fuel with
    | O => faults OutOfFuel
    | S fuel =>
        let! x := producer ptr in
        (if negb (p_token x =? nullptr) then set_token_producer (p_token x) nullptr else ret tt);;
        destroy_producer ptr;;
        destroy_producers fuel (p_next x)
    end.

(** The blocks of the free list that were allocated one by one. *)
Fixpoint destroy_free_blocks (fuel : nat) (block : loc) : M Q unit :=
  if block =? nullptr then ret tt
  else
    match fuel with
    | O => faults OutOfFuel
    | S fuel =>
        let! nx := in_mem (zoom freeList set_freeList (load_next block)) in
        let! dynamic := in_mem (at_block block (gets dynamicallyAllocated)) in
        (if dynamic : bool then in_mem (destroy block) else ret tt);;
        destroy_free_blocks fuel nx
    end.

Definition ConcurrentQueue_dtor : M Q unit :=
  let! n := gets (fun q => base.size (producers q)) in
  let! tail := gets producerListTail in
  destroy_producers n tail;;
  in_hash (destroy_hash_tables tr);;
  let! head := in_mem (zoom freeList set_freeList head_unsafe) in
  let! n := gets (fun q => base.size (blocks (q_mem q))) in
  destroy_free_blocks n head;;
  let! m := gets q_mem in
  in_mem (destroy_array (initialBlockPool m) (initialBlockPoolSize m)).

(** ** Move and swap, on two queues

    The objects a queue owns move with the pointers to them. *)

Definition swap_members : M (Q * Q) unit :=
  modify (fun ab : Q * Q => let (a, b) := ab in
    (mkQueue (q_address a) (producerListTail b) (producerCount b) (q_mem b) (q_hash a)
       (nextExplicitConsumerId b) (globalExplicitConsumerOffset b) (producers b) (tokens b) (q_exit b),
     mkQueue (q_address b) (producerListTail a) (producerCount a) (q_mem a) (q_hash b)
       (nextExplicitConsumerId a) (globalExplicitConsumerOffset a) (producers a) (tokens a) (q_exit a))).

Definition on_hashes (f : M (HashState * HashState) unit) : M (Q * Q) unit :=
  zoom (fun ab : Q * Q => (q_hash (fst ab), q_hash (snd ab)))
    (fun hs ab => (set_q_hash (fst hs) (fst ab), set_q_hash (snd hs) (snd ab))) f.
Definition on_this {A} (f : M Q A) : M (Q * Q) A := zoom fst (fun a ab => (a, snd ab)) f.
Definition on_other {A} (f : M Q A) : M (Q * Q) A := zoom snd (fun b ab => (fst ab, b)) f.

Definition swap_internal : M (Q * Q) unit :=
  let! same := gets (fun ab : Q * Q => q_address (fst ab) =? q_address (snd ab)) in
  if same : bool then ret tt
  else
    swap_members;;
    on_hashes (swap_implicit_producer_hashes tr);;
    on_this reown_producers;;
    on_other reown_producers.

(** [ConcurrentQueue(ConcurrentQueue&& other)]: the first queue is raw. *)
Definition ConcurrentQueue_move_ctor : M (Q * Q) unit :=
  modify (fun ab : Q * Q => let (a, b) := ab in
    (mkQueue (q_address a) (producerListTail b) (producerCount b) (q_mem b) (q_hash a)
       (nextExplicitConsumerId b) (globalExplicitConsumerOffset b) (producers b) (tokens b) (q_exit b), b));;
  on_this (in_hash clear_resizing);;
  on_this (in_hash (populate_initial_implicit_producer_hash tr platform));;
  on_hashes (swap_implicit_producer_hashes tr);;
  on_other (modify (fun b => mkQueue (q_address b) nullptr 0
    (mkMem ∅ (mkFreeList nullptr ∅) 0 nullptr 0 (next_address (q_mem b)) (malloc_calls (q_mem b)))
    (q_hash b) 0 0 ∅ ∅ (mkExit ∅ ∅)));;
  on_this reown_producers.
End queue.
