(* ===== verification/QueueInvariant.v ===== *)
(** The invariant of a whole [ConcurrentQueue]: its producers are linked in a
    list, each of them represents a queue of elements, and they share the
    memory without interfering.  With it the producers keep the promises of
    [SubQueuesLaws], so what is proved of the consumer operations against that
    interface holds of the queue. *)

From S2P Require Import Prelude MachineInt Traits FreeList Block BlockPool ProducerBase ProducerBaseProofs ExplicitProducer Contents Fifo ExplicitSpec ExplicitIndex ExplicitProofs ExplicitBulk ExplicitQueue ImplicitProducer ImplicitSpec ImplicitIndex ImplicitProofs ImplicitBulk ImplicitQueue ThreadExit ImplicitHash SubQueues SubQueuesProofs ConcurrentQueue.

(** Changing a function at one argument. *)
Definition upd {A} (f : loc -> A) (p : loc) (x : A) : loc -> A := fun y => if decide (y = p) then x else f y.

Lemma upd_same {A} (f : loc -> A) p x : upd f p x p = x.
Proof. unfold upd. by rewrite decide_True. Qed.

Lemma upd_other {A} (f : loc -> A) p x y : y <> p -> upd f p x y = f y.
Proof. intros. unfold upd. by rewrite decide_False. Qed.

Section sub.
Context {U T R : Type} (tr : Traits) `{!TraitsOk tr} (ops : ElementOps U T R).
Context (malloc_ok : nat -> bool) (indeterminate : Indeterminate).
#[local] Abbreviation w := (index_bits tr).
#[local] Abbreviation sb := (size_bits tr).
#[local] Abbreviation B := (BLOCK_SIZE tr).
Implicit Types (m : Mem T) (fl bs : list loc) (c : list T) (b : ProducerBody).

(** * One producer *)

(** The producer [b] holds the elements [c] in the blocks [bs]. *)
Definition sub_inv b m fl bs c : Prop :=
  match b with
  | Explicit e => exists h t f, explicit_inv tr (mkEState e m) fl h t f bs c
  | Implicit i => exists h t f, implicit_inv tr malloc_ok (mkIState i m) fl h t f bs c
  end.

Definition body_base b : ProducerBase := match b with Explicit e => ep_base e | Implicit i => ip_base i end.

Lemma sub_inv_pool b m fl bs c : sub_inv b m fl bs c -> pool_inv tr m fl.
Proof using Type. destruct b; intros (h & t & f & []); done. Qed.

Lemma sub_inv_kind b m fl bs c :
  sub_inv b m fl bs c -> isExplicit (body_base b) = match b with Explicit _ => true | Implicit _ => false end.
Proof using Type. destruct b; intros (h & t & f & []); done. Qed.

(** The blocks are there, and nobody else can get them. *)
Lemma sub_inv_blocks b m fl bs c x :
  sub_inv b m fl bs c -> x ∈ bs -> is_Some (blocks m !! x) /\ ~ available m fl x.
Proof using Type.
  destruct b; intros (h & t & f & []) Hx; (split; [|auto]).
  - destruct (ring_in_blocks tr _ _ _ _ _ _ ei_ring Hx) as [bk Hbk]. by exists bk.
  - destruct (blocks_repr_in tr _ _ _ _ _ _ ii_blocks Hx) as [bk Hbk]. by exists bk.
Qed.

(** Another producer's operation leaves a producer alone. *)
Lemma sub_inv_frame b m fl bs c own own' m' fl' :
  sub_inv b m fl bs c -> mem_frame own m fl own' m' fl' -> own ## bs -> pool_inv tr m' fl' ->
  sub_inv b m' fl' bs c /\ own' ## bs.
Proof using TraitsOk0.
  intros Hsub (Hna & Hf & _) Hdisj Hpool.
  assert (forall x, x ∈ bs -> blocks m' !! x = blocks m !! x /\ (x ∉ own') /\ ~ available m' fl' x) as Hkeep.
  { intros x Hx. destruct (sub_inv_blocks _ _ _ _ _ _ Hsub Hx) as [Hb Ha].
    destruct (Hf x) as [(_ & ? & ?) ?]; [by split; [|set_solver]|done]. }
  split; [|set_solver]. destruct b; destruct Hsub as (h & t & f & Hinv); exists h, t, f; pose proof Hinv as [].
  - eapply (explicit_inv_frame tr (mkEState p m)); try done.
    + destruct ei_headers as [Hc Ha]. split; [done|]. intros x Hx%Ha. cbn in *. lia.
    + intros x Hx. destruct (Hkeep x Hx) as (? & _ & ?). done.
  - eapply (inv_frame tr malloc_ok (mkIState p m)); try done.
    + eapply (addresses_mono p m); done.
    + intros x Hx. destruct (Hkeep x Hx) as (? & _ & ?). done.
Qed.

Lemma size_approx_counters pb h t :
  counters tr pb h t -> t - h < 2 ^ (w - 1) -> t - h < 2 ^ sb -> size_approx tr pb = t - h.
Proof using TraitsOk0.
  intros [] Hw Hs. pose proof (size_le_index tr). assert (0 < w) as Hw0 by lia.
  pose proof (pow_half Hw0). pose proof (pow_half_pos Hw0).
  unfold size_approx. rewrite ct_tail, ct_head, circular_less_than_wrap by lia.
  destruct (Z.ltb_spec h t); [|lia].
  rewrite wrap_sub_l, wrap_sub_r, size_wrap, wrap_small by (done || lia). done.
Qed.

Lemma sub_inv_size b m fl bs c :
  sub_inv b m fl bs c -> zlength bs * B < 2 ^ (sb - 1) -> size_approx tr (body_base b) = zlength c.
Proof using TraitsOk0.
  intros Hsub Hsmall. pose proof (size_le_index tr). assert (0 < sb) as Hs0 by lia.
  pose proof (pow_half Hs0). pose proof (pow_half_pos Hs0). pose proof (zlength_nonneg bs). pose proof (block_size_gt_1 tr).
  destruct b; destruct Hsub as (h & t & f & Hinv); pose proof Hinv as [].
  - cbn in *. rewrite <- ei_contents. apply (size_approx_counters _ h t); [done|..].
    + apply (explicit_inv_dist tr _ _ _ _ _ _ _ Hinv).
    + pose proof (represents_size tr (zlength bs) _ _ _ _ _ _ _ Hinv ltac:(lia) Hsmall). lia.
  - cbn in *. rewrite <- ii_contents. apply (size_approx_counters _ h t); [done|..].
    + apply (inv_dist tr malloc_ok _ _ _ _ _ _ _ Hinv).
    + nia.
Qed.
End sub.

Section queue.
Context {U T R : Type} (tr : Traits) `{!TraitsOk tr} (ops : ElementOps U T R).
Context (malloc_ok : nat -> bool) (indeterminate : Indeterminate).
#[local] Abbreviation w := (index_bits tr).
#[local] Abbreviation sb := (size_bits tr).
#[local] Abbreviation B := (BLOCK_SIZE tr).
#[local] Abbreviation Q := (ConcurrentQueue T).
Implicit Types (q : Q) (m : Mem T) (fl bs order : list loc) (c : list T) (b : ProducerBody).
Implicit Types (own : loc -> list loc) (cont : loc -> list T) (n : Z).

(** * All producers *)

(** [order] lists the producers; each [p] of them holds the elements [cont p],
    in the blocks [own p], of which there are at most [n]. *)
Record queue_repr n q fl order own cont : Prop := {
  qr_tail : producerListTail q = first_of order;
  qr_nodup : NoDup order;
  qr_next : forall l1 p l2, order = l1 ++ p :: l2 ->
    exists x, producers q !! p = Some x /\ p_next x = first_of l2;
  qr_dom : forall p, is_Some (producers q !! p) -> p ∈ order;
  qr_addr : forall p, p ∈ order -> 0 < p < next_address (q_mem q);
  qr_count : producerCount q = zlength order;
  qr_pool : pool_inv tr (q_mem q) fl;
  qr_sub : forall p x, producers q !! p = Some x -> sub_inv tr malloc_ok (p_body x) (q_mem q) fl (own p) (cont p);
  qr_small : forall p, p ∈ order -> zlength (own p) <= n;
  qr_disjoint : forall p p', p ∈ order -> p' ∈ order -> p <> p' -> own p ## own p';
  qr_accounted : forall l, is_Some (blocks (q_mem q) !! l) -> available (q_mem q) fl l \/ exists p, p ∈ order /\ l ∈ own p
}.

Definition with_body (p : loc) (x : Producer) b m q : Q :=
  set_q_mem m (set_producers (<[p := set_p_body b x]> (producers q)) q).

Lemma with_body_same p x q : producers q !! p = Some x -> with_body p x (p_body x) (q_mem q) q = q.
Proof using Type.
  intros Hp. unfold with_body. assert (set_p_body (p_body x) x = x) as -> by (by destruct x).
  rewrite insert_id by done. by destruct q.
Qed.

Lemma qr_member n q fl order own cont p :
  queue_repr n q fl order own cont -> p ∈ order ->
  exists x, producers q !! p = Some x /\ sub_inv tr malloc_ok (p_body x) (q_mem q) fl (own p) (cont p).
Proof using Type.
  intros [] Hp. pose proof Hp as (l1 & l2 & E)%list_elem_of_split. destruct (qr_next0 _ _ _ E) as (x & Hx & _).
  exists x. split; [done|]. by apply qr_sub0.
Qed.

(** No block is lost. *)
Lemma accounted_frame m fl bs m' fl' order own p :
  (forall l, is_Some (blocks m !! l) -> available m fl l \/ exists p', p' ∈ order /\ l ∈ own p') -> p ∈ order ->
  mem_frame (own p) m fl bs m' fl' ->
  forall l, is_Some (blocks m' !! l) -> available m' fl' l \/ exists p', p' ∈ order /\ l ∈ upd own p bs p'.
Proof using Type.
  intros Hacc Hp (_ & _ & Hf) l Hl. destruct (decide (available m' fl' l)) as [|Ha]; [by left|right].
  destruct (decide (l ∈ bs)) as [|Hbs]; [exists p; by rewrite upd_same|].
  destruct (Hf l) as (Hl' & Hown & Ha'); [done|]. destruct (Hacc l Hl') as [|(p' & Hp' & Hin)]; [done|].
  exists p'. split; [done|]. rewrite upd_other; [done|]. by intros ->.
Qed.

(** An operation of the producer [p] changes what it owns and holds. *)
Lemma queue_repr_update n n' q fl order own cont p x b m fl' bs c :
  queue_repr n q fl order own cont -> producers q !! p = Some x ->
  sub_inv tr malloc_ok b m fl' bs c -> mem_frame (own p) (q_mem q) fl bs m fl' -> n <= n' -> zlength bs <= n' ->
  queue_repr n' (with_body p x b m q) fl' order (upd own p bs) (upd cont p c).
Proof using TraitsOk0.
  intros [] Hp Hsub Hf Hn Hbs. assert (p ∈ order) as Hin by (apply qr_dom0; by exists x).
  pose proof (sub_inv_pool _ _ _ _ _ _ _ Hsub) as Hpool.
  assert (forall p' y, p' <> p -> p' ∈ order -> producers q !! p' = Some y ->
    sub_inv tr malloc_ok (p_body y) m fl' (own p') (cont p') /\ bs ## own p') as Hother.
  { intros p' y Hne Hp' Hy. eapply (sub_inv_frame tr malloc_ok); [by apply qr_sub0|exact Hf|by apply qr_disjoint0|done]. }
  split; cbn; try done.
  - intros l1 p' l2 E. destruct (qr_next0 _ _ _ E) as (y & Hy & Hnext). destruct (decide (p' = p)) as [->|Hne].
    + assert (y = x) as -> by congruence. exists (set_p_body b x). by rewrite lookup_insert_eq.
    + exists y. by rewrite lookup_insert_ne.
  - intros p'. destruct (decide (p' = p)) as [->|Hne]; [done|]. rewrite lookup_insert_ne by done. auto.
  - intros p' Hp'%qr_addr0. destruct Hf as [Hna _]. lia.
  - intros p' y. destruct (decide (p' = p)) as [->|Hne].
    + rewrite lookup_insert_eq, !upd_same. by intros [= <-].
    + rewrite lookup_insert_ne, !upd_other by done. intros Hy. by apply Hother; [| apply qr_dom0; exists y|].
  - intros p' Hp'. destruct (decide (p' = p)) as [->|Hne]; [by rewrite upd_same|].
    rewrite upd_other by done. specialize (qr_small0 p' Hp'). lia.
  - assert (forall p', p' ∈ order -> p' <> p -> bs ## own p') as Hd.
    { intros p' Hp' Hne. destruct (list_elem_of_split _ _ Hp') as (l1 & l2 & E).
      destruct (qr_next0 _ _ _ E) as (y & Hy & _). by apply (Hother p' y). }
    intros p1 p2 H1 H2 Hne. unfold upd. repeat case_decide; subst; try done; auto.
    intros z Hz1 Hz2. by apply (Hd p1 H1 ltac:(done) z).
  - by eapply accounted_frame.
Qed.

(** ** Running a producer's operation *)

Lemma wp_producer p x q (P : Producer -> Q -> Prop) E :
  producers q !! p = Some x -> P x q -> wp (producer p) P E q.
Proof using Type. intros Hx HP. unfold producer. wp_steps; done. Qed.

Lemma wp_on_explicit {A} p x e (f : M (EState T) A) (P : A -> Q -> Prop) E q :
  producers q !! p = Some x -> p_body x = Explicit e ->
  wp f (fun a s => P a (with_body p x (Explicit (prod s)) (mem s) q))
       (fun s => E (with_body p x (Explicit (prod s)) (mem s) q)) (mkEState e (q_mem q)) ->
  wp (on_explicit p f) P E q.
Proof using Type.
  intros Hx He Hf. unfold on_explicit. wp_step. eapply wp_producer; [done|]. rewrite He. by apply wp_zoom.
Qed.

Lemma wp_on_implicit {A} p x i (f : M (IState T) A) (P : A -> Q -> Prop) E q :
  producers q !! p = Some x -> p_body x = Implicit i ->
  wp f (fun a s => P a (with_body p x (Implicit (iprod s)) (imem s) q))
       (fun s => E (with_body p x (Implicit (iprod s)) (imem s) q)) (mkIState i (q_mem q)) ->
  wp (on_implicit p f) P E q.
Proof using Type.
  intros Hx He Hf. unfold on_implicit. wp_step. eapply wp_producer; [done|]. rewrite He. by apply wp_zoom.
Qed.

Lemma wp_collect {S} (f : M (S * list R) Z) (P : list R -> S -> Prop) E s :
  wp f (fun k so => zlength so.2 = k /\ P so.2 so.1) (fun so => E so.1) (s, []) -> wp (collect f) P E s.
Proof using Type.
  unfold wp, collect. destruct (f (s, [])) as [k [s' out]|[s' out]|]; [|done|done]. cbn. intros [-> HP].
  by rewrite Z.eqb_refl.
Qed.

(** * The promises of [SubQueuesLaws] *)

Section laws.
Context (Hassign : forall v, assign ops v <> None) (n : Z) (Hsmall : n * B < 2 ^ (sb - 1)).

(** What a consumer gets for the elements [c]. *)
Definition received c : list R := omap (assign ops) c.

Lemma received_moved c rs : moved ops c rs -> rs = received c.
Proof using Type. unfold received. induction 1 as [|v r c rs Hv _ IH]; [done|]. cbn. by rewrite Hv, IH. Qed.

Lemma received_cons v c : exists r, assign ops v = Some r /\ received (v :: c) = r :: received c.
Proof using Hassign.
  unfold received. cbn. destruct (assign ops v) as [r|] eqn:E; [by exists r|]. by destruct (Hassign v).
Qed.

Lemma received_length c : length (received c) = length c.
Proof using Hassign. induction c as [|v c IH]; [done|]. destruct (received_cons v c) as (r & _ & ->). cbn. by rewrite IH. Qed.

Lemma received_take k c : take k (received c) = received (take k c).
Proof using Hassign.
  revert k. induction c as [|v c IH]; intros [|k]; try done. destruct (received_cons v c) as (r & Hr & ->).
  cbn. rewrite IH. unfold received. cbn. by rewrite Hr.
Qed.

Lemma received_drop k c : drop k (received c) = received (drop k c).
Proof using Hassign.
  revert k. induction c as [|v c IH]; intros [|k]; try done. destruct (received_cons v c) as (r & Hr & ->). apply IH.
Qed.

(** What an operation of one producer leaves as it was. *)
Definition is_explicit b : bool := match b with Explicit _ => true | Implicit _ => false end.
Definition shape (x : Producer) : bool * loc * loc * bool := (p_inactive x, p_token x, p_parent x, is_explicit (p_body x)).
Definition stable q q' : Prop :=
  (exists x m ps, q' = set_consumerOffset x (set_q_mem m (set_producers ps q))) /\
  (forall p, shape <$> producers q' !! p = shape <$> producers q !! p) /\
  next_address (q_mem q) <= next_address (q_mem q').

Lemma stable_refl q : stable q q.
Proof using Type. split; [|done]. exists (globalExplicitConsumerOffset q), (q_mem q), (producers q). by destruct q. Qed.

Lemma stable_offset q x : stable q (set_consumerOffset x q).
Proof using Type. split; [|done]. exists x, (q_mem q), (producers q). by destruct q. Qed.

Lemma stable_trans q q1 q2 : stable q q1 -> stable q1 q2 -> stable q q2.
Proof using Type.
  intros [(x1 & m1 & ps1 & ->) [H1 N1]] [(x2 & m2 & ps2 & ->) [H2 N2]]. split; [by exists x2, m2, ps2|].
  split; [intros p; by rewrite H2, H1|by etransitivity].
Qed.

Lemma stable_with_body p x b m q :
  producers q !! p = Some x -> is_explicit b = is_explicit (p_body x) -> next_address (q_mem q) <= next_address m ->
  stable q (with_body p x b m q).
Proof using Type.
  intros Hx Hb Hn. split; [exists (globalExplicitConsumerOffset q), m, (<[p := set_p_body b x]> (producers q)); done|].
  split; [|done]. intros p'. cbn. destruct (decide (p' = p)) as [->|Hne].
  - rewrite lookup_insert_eq, Hx. cbn. unfold shape. cbn. by rewrite Hb.
  - by rewrite lookup_insert_ne.
Qed.

(** The elements [c'] are left of those of [p]. *)
Definition consumed_from n q order own cont p c' q' : Prop :=
  exists fl' bs, queue_repr n q' fl' order (upd own p bs) (upd cont p c') /\ stable q q' /\
    globalExplicitConsumerOffset q' = globalExplicitConsumerOffset q.

Lemma producer_dequeue_spec q fl order own cont p :
  queue_repr n q fl order own cont -> p ∈ order ->
  wp (producer_dequeue tr ops p) (fun r q' =>
    match cont p with
    | [] => r = None /\ q' = q
    | v :: c => r = assign ops v /\ consumed_from n q order own cont p c q'
    end) nothrow q.
Proof using TraitsOk0 Hassign.
  intros Hq Hp. destruct (qr_member _ _ _ _ _ _ _ Hq Hp) as (x & Hx & Hsub).
  pose proof (sub_inv_kind _ _ _ _ _ _ _ Hsub) as Hkind. pose proof (qr_small _ _ _ _ _ _ Hq p Hp) as Hsz.
  unfold producer_dequeue. wp_step. eapply wp_producer; [done|]. unfold producer_base, body_base in *.
  pose proof (with_body_same p x q Hx) as Esame.
  destruct (p_body x) as [e|i] eqn:Eb; rewrite Hkind; pose proof Hsub as (h & t & f & Hinv).
  - eapply wp_on_explicit; [done|done|]. eapply wp_mono; [by eapply (dequeue_spec tr ops)| |].
    + cbn beta. intros r s. destruct (cont p) as [|v c] eqn:Ec.
      * intros [-> ->]. done.
      * intros (_ & -> & Hinv' & Hf). split; [done|]. destruct s as [e' m']. exists fl, (own p). split.
        -- eapply (queue_repr_update n); try done. by exists (h + 1), t, f.
        -- split; [|done]. apply stable_with_body; [done|by rewrite Eb|apply Hf].
    + cbn beta. intros s (v & c & _ & Hv & _). by destruct (Hassign v).
  - eapply wp_on_implicit; [done|done|]. eapply wp_mono; [by eapply (i_dequeue_spec tr ops malloc_ok)| |].
    + cbn beta. intros r s. destruct (cont p) as [|v c] eqn:Ec.
      * intros [-> ->]. done.
      * intros (_ & -> & fl' & f' & bs' & Hinv' & Hbs & Hf). split; [done|]. destruct s as [i' m']. exists fl', bs'. split.
        -- eapply (queue_repr_update n); try done; [by exists (h + 1), t, f'|lia].
        -- split; [|done]. apply stable_with_body; [done|by rewrite Eb|apply Hf].
    + cbn beta. intros s (v & c & _ & Hv & _). by destruct (Hassign v).
Qed.

Lemma handed_received c k thrown rs :
  handed ops c k thrown rs -> thrown = false /\ rs = received (take k c).
Proof using Hassign.
  destruct thrown; cbn; [intros (j & v & _ & _ & Hv & _); by destruct (Hassign v)|].
  intros Hm. split; [done|]. by apply received_moved.
Qed.

Lemma received_count c max :
  0 <= max -> zlength (received (take (Z.to_nat (Z.min (zlength c) max)) c)) = Z.min (zlength c) max.
Proof using Hassign. clear Hsmall. intros. unfold zlength. rewrite received_length, length_take. lia. Qed.

Lemma producer_dequeue_bulk_spec q fl order own cont p max :
  queue_repr n q fl order own cont -> p ∈ order -> 0 <= max ->
  let k := Z.to_nat (Z.min (zlength (cont p)) max) in
  wp (producer_dequeue_bulk tr ops p max) (fun rs q' =>
    rs = received (take k (cont p)) /\ consumed_from n q order own cont p (drop k (cont p)) q') nothrow q.
Proof using TraitsOk0 Hassign Hsmall.
  intros Hq Hp Hmax k. destruct (qr_member _ _ _ _ _ _ _ Hq Hp) as (x & Hx & Hsub).
  pose proof (sub_inv_kind _ _ _ _ _ _ _ Hsub) as Hkind. pose proof (qr_small _ _ _ _ _ _ Hq p Hp) as Hsz.
  pose proof (block_size_gt_1 tr). pose proof (received_count (cont p) max Hmax) as Ecount.
  unfold producer_dequeue_bulk. wp_step. eapply wp_producer; [done|]. unfold producer_base, body_base in *.
  destruct (p_body x) as [e|i] eqn:Eb; rewrite Hkind; pose proof Hsub as (h & t & f & Hinv).
  - eapply wp_on_explicit; [done|done|]. apply wp_collect.
    eapply wp_mono; [eapply (dequeue_bulk_spec tr ops)| |]; [done|exact Hinv|done| | |].
    + by eapply (represents_size tr n).
    + cbn beta. intros r so (-> & rs & [e' m'] & -> & Hrs & Hinv' & Hf). cbn [fst snd prod mem].
      apply handed_received in Hrs as [_ ->]. split; [exact Ecount|]. split; [done|]. exists fl, (own p). split.
      * eapply (queue_repr_update n); try done. by eexists _, t, f.
      * split; [|done]. apply stable_with_body; [done|by rewrite Eb|apply Hf].
    + cbn beta. intros so (rs & s' & _ & [? _]%handed_received & _). done.
  - eapply wp_on_implicit; [done|done|]. apply wp_collect.
    eapply wp_mono; [eapply (i_dequeue_bulk_spec tr ops malloc_ok)| |]; [done|exact Hinv|done| | |].
    + destruct Hinv. nia.
    + cbn beta. intros r so (-> & rs & [i' m'] & fl' & f' & bs' & -> & Hrs & Hinv' & Hbs & Hf). cbn [fst snd iprod imem].
      apply handed_received in Hrs as [_ ->]. split; [exact Ecount|]. split; [done|]. exists fl', bs'. split.
      * eapply (queue_repr_update n); try done; [by eexists _, t, f'|lia].
      * split; [|done]. apply stable_with_body; [done|by rewrite Eb|apply Hf].
    + cbn beta. intros so (rs & s' & fl' & f' & bs' & _ & [? _]%handed_received & _). done.
Qed.

Lemma producer_size_spec q fl order own cont p :
  queue_repr n q fl order own cont -> p ∈ order -> producer_size_approx tr p q = Ok (zlength (cont p)) q.
Proof using TraitsOk0 Hsmall.
  intros Hq Hp. destruct (qr_member _ _ _ _ _ _ _ Hq Hp) as (x & Hx & Hsub).
  pose proof (qr_small _ _ _ _ _ _ Hq p Hp). pose proof (block_size_gt_1 tr).
  unfold producer_size_approx, producer, bind, gets, deref, ret. rewrite Hx. do 2 f_equal.
  eapply (sub_inv_size tr malloc_ok); [exact Hsub|nia].
Qed.

(** ** The order and the contents, read off the state *)

Fixpoint producers_from (k : nat) (ptr : loc) q : list loc :=
  match k, producers q !! ptr with
  | S k, Some x => ptr :: producers_from k (p_next x) q
  | _, _ => []
  end.

Definition order_of q : list loc := producers_from (base.size (producers q)) (producerListTail q) q.

(** What the producer [p] would hand over, one element after the other. *)
Fixpoint drain (k : nat) (p : loc) q : list R :=
  match k with
  | O => []
  | S k =>
      match producer_dequeue tr ops p q with
      | Ok (Some r) q' => r :: drain k p q'
      | _ => []
      end
  end.

Definition contents_of q (p : loc) : list R :=
  match producers q !! p with
  | None => []
  | Some x => drain (Z.to_nat (size_approx tr (producer_base x))) p q
  end.

Lemma order_length q fl order own cont :
  queue_repr n q fl order own cont -> base.size (producers q) = length order.
Proof using Type.
  intros Hq. pose proof (qr_nodup _ _ _ _ _ _ Hq) as Hnd. rewrite <- size_dom.
  assert (dom (producers q) = list_to_set order) as ->; [|by apply size_list_to_set].
  apply set_eq. intros p. rewrite elem_of_dom, elem_of_list_to_set. split; [apply (qr_dom _ _ _ _ _ _ Hq)|].
  intros Hp. destruct (qr_member _ _ _ _ _ _ _ Hq Hp) as (x & Hx & _). by exists x.
Qed.

Lemma producer_not_null q fl order own cont : queue_repr n q fl order own cont -> nullptr ∉ order.
Proof using Type. intros Hq Hin%(qr_addr _ _ _ _ _ _ Hq). unfold nullptr in Hin. lia. Qed.

Lemma order_of_spec q fl order own cont : queue_repr n q fl order own cont -> order_of q = order.
Proof using Type.
  intros Hq. unfold order_of. rewrite (order_length _ _ _ _ _ Hq), (qr_tail _ _ _ _ _ _ Hq).
  assert (forall l1 l2, order = l1 ++ l2 -> producers_from (length l2) (first_of l2) q = l2) as Hfrom; [|by apply (Hfrom [])].
  intros l1 l2. revert l1. induction l2 as [|p l2 IH]; intros l1 E; [done|]. cbn [length producers_from first_of].
  destruct (qr_next _ _ _ _ _ _ Hq _ _ _ E) as (x & -> & ->). f_equal. apply (IH (l1 ++ [p])). by rewrite <- app_assoc.
Qed.

Lemma drain_spec k q fl order own cont p :
  queue_repr n q fl order own cont -> p ∈ order -> (length (cont p) <= k)%nat -> drain k p q = received (cont p).
Proof using TraitsOk0 Hassign.
  revert q fl own cont. induction k as [|k IH]; intros q fl own cont Hq Hp Hk.
  { destruct (cont p); [done|cbn in Hk; lia]. }
  destruct (wp_nothrow_ok _ _ _ (producer_dequeue_spec q fl order own cont p Hq Hp)) as (r & q' & E & Hpost).
  cbn [drain]. rewrite E. destruct (cont p) as [|v c]; [by destruct Hpost as [-> _]|].
  destruct Hpost as [-> (fl' & bs & Hq' & _)]. destruct (received_cons v c) as (r & -> & ->). f_equal.
  rewrite (IH q' fl' (upd own p bs) (upd cont p c)); rewrite ?upd_same; [done|done|done|]. cbn in Hk. lia.
Qed.

Lemma contents_of_spec q fl order own cont p :
  queue_repr n q fl order own cont -> p ∈ order -> contents_of q p = received (cont p).
Proof using TraitsOk0 Hassign Hsmall.
  intros Hq Hp. destruct (qr_member _ _ _ _ _ _ _ Hq Hp) as (x & Hx & Hsub).
  pose proof (qr_small _ _ _ _ _ _ Hq p Hp). pose proof (block_size_gt_1 tr).
  unfold contents_of. rewrite Hx. eapply drain_spec; [done|done|].
  change (producer_base x) with (body_base (p_body x)). rewrite (sub_inv_size tr malloc_ok _ _ _ _ _ Hsub) by nia.
  unfold zlength. lia.
Qed.

Lemma contents_of_other q fl order own cont p :
  queue_repr n q fl order own cont -> (p ∉ order) -> contents_of q p = [].
Proof using Type.
  intros Hq Hp. unfold contents_of. destruct (producers q !! p) as [x|] eqn:Hx; [|done].
  destruct Hp. apply (qr_dom _ _ _ _ _ _ Hq). by exists x.
Qed.

(** ** The instance *)

#[local] Instance queue_interface : SubQueues Q R := queue_sub_queues tr ops.

Definition queue_good q : Prop := exists fl order own cont, queue_repr n q fl order own cont.

(** The states that consumers reach from [q0]. *)
Context (q0 : Q).
Definition queue_ok q : Prop := queue_good q /\ stable q0 q.

Lemma contents_after q fl order own cont p c' q' p' :
  queue_repr n q fl order own cont -> p ∈ order -> consumed_from n q order own cont p c' q' ->
  contents_of q' p' = if decide (p' = p) then received c' else contents_of q p'.
Proof using TraitsOk0 Hassign Hsmall.
  intros Hq Hp (fl' & bs & Hq' & _). destruct (decide (p' ∈ order)) as [Hin|Hout].
  - rewrite (contents_of_spec _ _ _ _ _ _ Hq' Hin). unfold upd. case_decide; [done|].
    symmetry. by apply (contents_of_spec _ _ _ _ _ _ Hq).
  - rewrite (contents_of_other _ _ _ _ _ _ Hq' Hout). rewrite decide_False by (by intros ->).
    by rewrite (contents_of_other _ _ _ _ _ _ Hq Hout).
Qed.

Lemma taken_of q fl order own cont p k q' :
  queue_repr n q fl order own cont -> stable q0 q -> p ∈ order ->
  consumed_from n q order own cont p (drop k (cont p)) q' ->
  queue_ok q' /\ order_of q' = order_of q /\
  globalExplicitConsumerOffset q' = globalExplicitConsumerOffset q /\
  forall p', contents_of q' p' = if decide (p' = p) then drop k (contents_of q p) else contents_of q p'.
Proof using TraitsOk0 Hassign Hsmall.
  intros Hq Hst Hp Hcons. pose proof Hcons as (fl' & bs & Hq' & Hst' & Eq).
  split; [split; [by eexists _, _, _, _|by eapply stable_trans]|].
  split; [by rewrite (order_of_spec _ _ _ _ _ Hq'), (order_of_spec _ _ _ _ _ Hq)|]. split; [done|].
  intros p'. rewrite (contents_after _ _ _ _ _ _ _ _ p' Hq Hp Hcons). case_decide; [|done].
  by rewrite (contents_of_spec _ _ _ _ _ _ Hq Hp), received_drop.
Qed.

Lemma queue_repr_offset q fl order own cont x :
  queue_repr n q fl order own cont -> queue_repr n (set_consumerOffset x q) fl order own cont.
Proof using Type. intros []. by split. Qed.

Lemma order_split q fl order own cont l1 p l2 :
  queue_repr n q fl order own cont -> order_of q = l1 ++ p :: l2 -> next_prod p q = Ok (first_of l2) q.
Proof using Type.
  intros Hq. rewrite (order_of_spec _ _ _ _ _ Hq). intros E. destruct (qr_next _ _ _ _ _ _ Hq _ _ _ E) as (x & Hx & Hn).
  unfold next_prod, producer, bind, gets, deref, ret. by rewrite Hx, Hn.
Qed.

Lemma dequeue_law q p :
  queue_ok q -> p ∈ order_of q ->
  match contents_of q p with
  | [] => producer_dequeue tr ops p q = Ok None q
  | r :: c => exists q', producer_dequeue tr ops p q = Ok (Some r) q' /\
      queue_ok q' /\ order_of q' = order_of q /\ globalExplicitConsumerOffset q' = globalExplicitConsumerOffset q /\
      forall p', contents_of q' p' = if decide (p' = p) then drop 1 (contents_of q p) else contents_of q p'
  end.
Proof using TraitsOk0 Hassign Hsmall.
  intros ((fl & order & own & cont & Hq) & Hst). rewrite (order_of_spec _ _ _ _ _ Hq) at 1. intros Hp.
  destruct (wp_nothrow_ok _ _ _ (producer_dequeue_spec q fl order own cont p Hq Hp)) as (r & q' & E & Hpost).
  pose proof (contents_of_spec _ _ _ _ _ _ Hq Hp) as Ec. rewrite Ec. destruct (cont p) as [|v c] eqn:Ep.
  - by destruct Hpost as [-> ->].
  - destruct Hpost as [-> Hcons]. destruct (received_cons v c) as (r & Hr & ->). rewrite Hr in E. exists q'. split; [done|].
    replace c with (drop 1 (cont p)) in Hcons by (by rewrite Ep).
    pose proof (taken_of _ _ _ _ _ _ _ _ Hq Hst Hp Hcons) as Ht. rewrite Ec in Ht.
    destruct (received_cons v c) as (r' & Hr' & E'). rewrite E' in Ht. assert (r' = r) as -> by congruence. exact Ht.
Qed.

Lemma dequeue_bulk_law q p max :
  queue_ok q -> p ∈ order_of q -> 0 <= max ->
  exists q', producer_dequeue_bulk tr ops p max q = Ok (take (Z.to_nat max) (contents_of q p)) q' /\
    queue_ok q' /\ order_of q' = order_of q /\ globalExplicitConsumerOffset q' = globalExplicitConsumerOffset q /\
    forall p', contents_of q' p' = if decide (p' = p) then drop (Z.to_nat max) (contents_of q p) else contents_of q p'.
Proof using TraitsOk0 Hassign Hsmall.
  intros ((fl & order & own & cont & Hq) & Hst). rewrite (order_of_spec _ _ _ _ _ Hq) at 1. intros Hp Hmax.
  destruct (wp_nothrow_ok _ _ _ (producer_dequeue_bulk_spec q fl order own cont p max Hq Hp Hmax)) as (r & q' & E & -> & Hcons).
  pose proof (taken_of _ _ _ _ _ _ _ _ Hq Hst Hp Hcons) as (H1 & H2 & H3 & H4).
  pose proof (contents_of_spec _ _ _ _ _ _ Hq Hp) as Ec. rewrite Ec in *.
  assert (length (received (cont p)) = length (cont p)) as El by apply received_length.
  exists q'. split; [|split; [done|split; [done|split; [done|]]]].
  - rewrite E. f_equal. rewrite <- received_take. destruct (Z.min_spec (zlength (cont p)) max) as [[Hlt ->]|[Hle ->]]; [|done].
    rewrite !firstn_all2; [done|..]; unfold zlength in *; lia.
  - intros p'. rewrite H4. case_decide; [|done]. destruct (Z.min_spec (zlength (cont p)) max) as [[Hlt ->]|[Hle ->]]; [|done].
    rewrite !skipn_all2; [done|..]; unfold zlength in *; lia.
Qed.

Lemma set_offset_law q x :
  queue_ok q -> queue_ok (set_consumerOffset x q) /\ order_of (set_consumerOffset x q) = order_of q /\
  forall p, contents_of (set_consumerOffset x q) p = contents_of q p.
Proof using TraitsOk0 Hassign Hsmall.
  intros ((fl & order & own & cont & Hq) & Hst). pose proof (queue_repr_offset _ _ _ _ _ x Hq) as Hq'.
  split; [split; [by eexists _, _, _, _|eapply stable_trans; [done|apply stable_offset]]|].
  split; [by rewrite (order_of_spec _ _ _ _ _ Hq), (order_of_spec _ _ _ _ _ Hq')|].
  intros p. destruct (decide (p ∈ order)) as [Hin|Hout].
  - by rewrite (contents_of_spec _ _ _ _ _ _ Hq Hin), (contents_of_spec _ _ _ _ _ _ Hq' Hin).
  - by rewrite (contents_of_other _ _ _ _ _ _ Hq Hout), (contents_of_other _ _ _ _ _ _ Hq' Hout).
Qed.

(** The producers of a queue keep the promises of the interface. *)
#[refine] Definition queue_laws : SubQueuesLaws Q R := {|
  sq_inv := queue_ok; sq_order := order_of; sq_content := contents_of
|}.
Proof.
  - intros q ((fl & order & own & cont & Hq) & Hst). rewrite (order_of_spec _ _ _ _ _ Hq). apply (qr_tail _ _ _ _ _ _ Hq).
  - intros q ((fl & order & own & cont & Hq) & Hst). rewrite (order_of_spec _ _ _ _ _ Hq). apply (qr_nodup _ _ _ _ _ _ Hq).
  - intros q ((fl & order & own & cont & Hq) & Hst). rewrite (order_of_spec _ _ _ _ _ Hq). apply (producer_not_null _ _ _ _ _ Hq).
  - intros q ((fl & order & own & cont & Hq) & Hst). rewrite (order_of_spec _ _ _ _ _ Hq). cbn.
    by rewrite (order_length _ _ _ _ _ Hq).
  - intros q ((fl & order & own & cont & Hq) & Hst). rewrite (order_of_spec _ _ _ _ _ Hq). apply (qr_count _ _ _ _ _ _ Hq).
  - intros q p l1 l2 ((fl & order & own & cont & Hq) & Hst). by eapply order_split.
  - intros q p ((fl & order & own & cont & Hq) & Hst). rewrite (order_of_spec _ _ _ _ _ Hq). intros Hp.
    rewrite (contents_of_spec _ _ _ _ _ _ Hq Hp). unfold zlength. rewrite received_length. by eapply producer_size_spec.
  - intros q p Hq Hp Hc. pose proof (dequeue_law q p Hq Hp) as H. by rewrite Hc in H.
  - intros q p x c Hq Hp Hc. pose proof (dequeue_law q p Hq Hp) as H. by rewrite Hc in *.
  - intros q p max Hq Hp Hmax. by apply dequeue_bulk_law.
  - intros q x Hq. destruct (set_offset_law q x Hq) as (? & ? & ?). done.
Defined.
End laws.
End queue.
