(* ===== verification/QueueTokens.v ===== *)
(** The producing side of a [ConcurrentQueue]: the list of producers, producer
    tokens and [enqueue] with a token keep the invariant of the queue. *)

From S2P Require Import Prelude MachineInt Traits FreeList Block BlockPool ProducerBase ProducerBaseProofs ExplicitProducer Contents Fifo ExplicitSpec ExplicitIndex ExplicitProofs ExplicitBulk ExplicitInject ExplicitEnqueueBulk ExplicitQueue ImplicitProducer ImplicitSpec ImplicitIndex ImplicitProofs ImplicitBulk ImplicitQueue ThreadExit ImplicitHash SubQueues SubQueuesProofs ConcurrentQueue QueueInvariant.

Section tokens.
Context {U T R : Type} (tr : Traits) `{!TraitsOk tr} (ops : ElementOps U T R).
Context (malloc_ok : nat -> bool) (indeterminate : Indeterminate).
#[local] Abbreviation w := (index_bits tr).
#[local] Abbreviation sb := (size_bits tr).
#[local] Abbreviation B := (BLOCK_SIZE tr).
#[local] Abbreviation Q := (ConcurrentQueue T).
#[local] Abbreviation repr := (queue_repr tr malloc_ok).
Implicit Types (q : Q) (m : Mem T) (fl bs order : list loc) (c : list T) (p t : loc) (x : Producer).
Implicit Types (own : loc -> list loc) (cont : loc -> list T) (n : Z).

(** ** What the invariant does not depend on *)

Lemma queue_repr_ext n q q' fl order own cont :
  repr n q fl order own cont -> producerListTail q' = producerListTail q -> producerCount q' = producerCount q ->
  q_mem q' = q_mem q -> producers q' = producers q -> repr n q' fl order own cont.
Proof using Type. intros [] E1 E2 E3 E4. by split; rewrite ?E1, ?E2, ?E3, ?E4. Qed.

Lemma queue_repr_mono n n' q fl order own cont : repr n q fl order own cont -> n <= n' -> repr n' q fl order own cont.
Proof using Type. intros [] Hn. split; try done. intros p Hp. specialize (qr_small p Hp). lia. Qed.

Lemma queue_repr_contents n q fl order own cont cont' :
  repr n q fl order own cont -> (forall p, cont p = cont' p) -> repr n q fl order own cont'.
Proof using Type. intros [] E. split; try done. intros p x Hx. rewrite <- E. auto. Qed.

Definition put_producer p x q : Q := set_producers (<[p := x]> (producers q)) q.

Lemma queue_repr_put n q fl order own cont p x x' :
  repr n q fl order own cont -> producers q !! p = Some x -> p_next x' = p_next x -> p_body x' = p_body x ->
  repr n (put_producer p x' q) fl order own cont.
Proof using Type.
  intros [] Hp En Eb. split; cbn; try done.
  - intros l1 p' l2 E. destruct (qr_next _ _ _ E) as (y & Hy & Hn). destruct (decide (p' = p)) as [->|Hne].
    + exists x'. rewrite lookup_insert_eq. split; [done|]. congruence.
    + exists y. by rewrite lookup_insert_ne.
  - intros p'. destruct (decide (p' = p)) as [->|Hne]; [intros _; apply qr_dom; by exists x|].
    rewrite lookup_insert_ne by done. auto.
  - intros p' y. destruct (decide (p' = p)) as [->|Hne]; [|rewrite lookup_insert_ne by done; auto].
    rewrite lookup_insert_eq. intros [= <-]. rewrite Eb. auto.
Qed.

Lemma wp_update_producer p f x q (P : unit -> Q -> Prop) E :
  producers q !! p = Some x -> P tt (put_producer p (f x) q) -> wp (update_producer p f) P E q.
Proof using Type.
  intros Hx HP. unfold update_producer. wp_step. eapply wp_producer; [done|]. by wp_step.
Qed.

(** ** The tokens *)

(** Every producer token that has a producer has one to itself, and a producer
    points to no token but that. *)
Record tokens_ok q : Prop := {
  tk_producer : forall t p, tokens q !! t = Some p -> p <> nullptr ->
    exists x, producers q !! p = Some x /\ p_token x = t /\ p_inactive x = false /\ is_explicit (p_body x) = true;
  tk_token : forall p x, producers q !! p = Some x -> p_token x <> nullptr -> tokens q !! p_token x = Some p
}.

(** No producer got a token. *)
Definition no_new_token q q' : Prop :=
  forall p x, producers q' !! p = Some x -> p_token x <> nullptr ->
    exists y, producers q !! p = Some y /\ p_token y = p_token x.

Lemma tk_token_kept q q' :
  tokens_ok q -> tokens q' = tokens q -> no_new_token q q' ->
  forall p x, producers q' !! p = Some x -> p_token x <> nullptr -> tokens q' !! p_token x = Some p.
Proof using Type.
  intros Hok Et Hback p x Hx Hn. destruct (Hback p x Hx Hn) as (y & Hy & E). rewrite Et, <- E. apply (tk_token _ Hok); congruence.
Qed.

Lemma tokens_ok_stable q q' : tokens_ok q -> stable q q' -> tokens_ok q'.
Proof using Type.
  intros Hok [(o & m & ps & ->) [Hs _]]. split.
  - intros t p Ht Hp. destruct (tk_producer _ Hok t p Ht Hp) as (x & Hx & E1 & E2 & E3).
    specialize (Hs p). rewrite Hx in Hs. cbn in Hs |- *. destruct (ps !! p) as [y|]; [|done].
    cbn in Hs. injection Hs as H1 H2 H3 H4. exists y. split; [done|]. split_and!; congruence.
  - apply (tk_token_kept q); [done|done|]. intros p x Hx _. specialize (Hs p). rewrite Hx in Hs. cbn in Hs.
    destruct (producers q !! p) as [y|]; [|done]. cbn in Hs. injection Hs as ? ? ? ?. by exists y.
Qed.

(** ** Looking for a producer to re-use *)

Lemma find_inactive_spec kind n q fl order own cont l1 l2 fuel :
  repr n q fl order own cont -> order = l1 ++ l2 -> (length l2 <= fuel)%nat ->
  wp (find_inactive fuel (first_of l2) kind) (fun r q' =>
    r = nullptr /\ q' = q \/
    exists x, r ∈ l2 /\ producers q !! r = Some x /\ p_inactive x = true /\ is_explicit (p_body x) = kind /\
      q' = put_producer r (set_p_inactive false x) q) nothrow q.
Proof using Type.
  intros Hq. revert l1 fuel. induction l2 as [|p l2 IH]; intros l1 fuel E Hf.
  { destruct fuel; cbn; by left. }
  destruct fuel as [|fuel]; [cbn in Hf; lia|]. cbn [find_inactive first_of].
  assert (p ∈ order) as Hp by (rewrite E; apply elem_of_app; right; by left).
  pose proof (qr_addr _ _ _ _ _ _ _ _ Hq p Hp). rewrite (proj2 (Z.eqb_neq p nullptr)) by (unfold nullptr; lia).
  destruct (qr_next _ _ _ _ _ _ _ _ Hq _ _ _ E) as (x & Hx & Hn).
  pose proof (sub_inv_kind _ _ _ _ _ _ _ (qr_sub _ _ _ _ _ _ _ _ Hq p x Hx)) as Hk.
  wp_step. eapply wp_producer; [done|]. change (isExplicit (producer_base x)) with (isExplicit (body_base (p_body x))).
  rewrite Hk. fold (is_explicit (p_body x)). destruct (p_inactive x) eqn:Hi; cbn [andb].
  - destruct (Bool.eqb_spec (is_explicit (p_body x)) kind) as [Ek|Ek].
    + wp_step. eapply wp_update_producer; [done|]. wp_step. right. exists x. split_and!; try done. by left.
    + rewrite Hn. eapply wp_mono; [apply (IH (l1 ++ [p])); [by rewrite <- app_assoc|cbn in Hf; lia]| |done].
      cbn beta. intros r q' [?|(y & Hr & ?)]; [by left|right]. exists y. split; [by right|done].
  - rewrite Hn. eapply wp_mono; [apply (IH (l1 ++ [p])); [by rewrite <- app_assoc|cbn in Hf; lia]| |done].
    cbn beta. intros r q' [?|(y & Hr & ?)]; [by left|right]. exists y. split; [by right|done].
Qed.

(** ** Creating a producer *)

Lemma queue_repr_mem n q fl order own cont m' :
  repr n q fl order own cont -> allocated (q_mem q) m' -> repr n (set_q_mem m' q) fl order own cont.
Proof using TraitsOk0.
  intros [] Hal. pose proof (allocated_pool tr _ _ _ Hal qr_pool) as Hpool.
  pose proof (mem_frame_allocated [] (q_mem q) fl m' Hal) as Hf. split; cbn; try done.
  - intros p Hp%qr_addr. destruct Hf as [Hna _]. lia.
  - intros p x Hx. by eapply (sub_inv_frame tr malloc_ok); [auto|exact Hf|set_solver|].
  - intros l. rewrite (allocated_blocks _ _ Hal), (allocated_available _ _ _ _ Hal). auto.
Qed.

Lemma queue_repr_add n q fl order own cont p x q' :
  repr n q fl order own cont -> (p ∉ order) -> 0 < p < next_address (q_mem q') -> allocated (q_mem q) (q_mem q') ->
  sub_inv tr malloc_ok (p_body x) (q_mem q') fl [] [] -> p_next x = first_of order -> zlength order + 1 < 2 ^ 32 ->
  0 <= n -> producers q' = <[p := x]> (producers q) -> producerListTail q' = p ->
  producerCount q' = wrap 32 (producerCount q + 1) ->
  repr n q' fl (p :: order) (upd own p []) (upd cont p []).
Proof using TraitsOk0.
  intros Hq Hnew Hp Hal Hsub Hn Hsmall Hn0 Eps Etail Ecount.
  pose proof (queue_repr_mem _ _ _ _ _ _ _ Hq Hal) as []. cbn [set_q_mem producerListTail producers q_mem producerCount] in *.
  assert (forall p', p' ∈ order -> p' <> p) as Hne by (by intros p' Hp' ->).
  split; rewrite ?Eps, ?Etail; try done.
  - by constructor.
  - intros [|y l1] p' l2 E; cbn in E; injection E as E1 E2; subst.
    + exists x. by rewrite lookup_insert_eq.
    + destruct (qr_next l1 p' l2 eq_refl) as (z & Hz & Hnz). exists z. rewrite lookup_insert_ne; [done|].
      intros Ep. by apply (Hne p'); [apply elem_of_app; right; left|].
  - intros p' Hp'. destruct (decide (p' = p)) as [->|]; [by left|]. right. rewrite lookup_insert_ne in Hp' by done. auto.
  - intros p' [->|Hp']%elem_of_cons; [done|]. by apply qr_addr.
  - rewrite Ecount, qr_count, wrap_small by (pose proof (zlength_nonneg order); lia). unfold zlength. cbn [length]. lia.
  - intros p' y. destruct (decide (p' = p)) as [->|Hp'].
    + rewrite lookup_insert_eq, !upd_same. by intros [= <-].
    + rewrite lookup_insert_ne, !upd_other by done. auto.
  - intros p' [->|Hp']%elem_of_cons; [rewrite upd_same; unfold zlength; cbn; lia|].
    rewrite upd_other by auto. auto.
  - intros p1 p2 [->|H1]%elem_of_cons [->|H2]%elem_of_cons Hd; try done; rewrite ?upd_same, ?upd_other by auto;
      [set_solver|set_solver|auto].
  - intros l Hl. destruct (qr_accounted l Hl) as [|(p' & Hp' & Hin)]; [by left|right].
    exists p'. rewrite upd_other by auto. split; [by right|done].
Qed.

(** Where a queue object and the initial table inside it are. *)
Definition home_of q : loc * loc := (q_address q, initialImplicitProducerHash (q_hash q)).

(** The queue is at [home], and every producer knows it. *)
Definition parents_ok (home : loc * loc) q : Prop :=
  home_of q = home /\ forall p x, producers q !! p = Some x -> p_parent x = q_address q.

Lemma parents_ok_insert home q q' p x :
  parents_ok home q -> producers q' = <[p := x]> (producers q) -> home_of q' = home_of q -> p_parent x = q_address q -> parents_ok home q'.
Proof using Type.
  intros [<- Hq] Eps Eh Hp. split; [done|]. assert (q_address q' = q_address q) as Ea by (by injection Eh).
  intros p' y. rewrite Eps, Ea. intros [[<- <-]|[_ Hy]]%lookup_insert_Some; [done|by eapply Hq].
Qed.

Lemma parents_ok_same home q q' : parents_ok home q -> producers q' = producers q -> home_of q' = home_of q -> parents_ok home q'.
Proof using Type.
  intros [<- Hq] Eps Eh. split; [done|]. assert (q_address q' = q_address q) as Ea by (by injection Eh). by rewrite Eps, Ea.
Qed.

Lemma parents_ok_stable home q q' : parents_ok home q -> stable q q' -> parents_ok home q'.
Proof using Type.
  intros [<- Hq] [(o & m & ps & ->) [Hs _]]. split; [done|]. intros p x Hx. cbn in *. specialize (Hs p). rewrite Hx in Hs. cbn in Hs.
  destruct (producers q !! p) as [y|] eqn:Hy; [|done]. cbn in Hs. injection Hs as ? ? E ?. rewrite E. by eapply Hq.
Qed.

(** A producer: none, for want of memory; an inactive one; or a new one. *)
Record got_producer (kind : bool) n q order cont (p : loc) q' : Prop := {
  gp_others : tokens q' = tokens q /\ q_hash q' = q_hash q /\ q_exit q' = q_exit q /\ q_address q' = q_address q;
  gp_parents : forall home, parents_ok home q -> parents_ok home q';
  gp_address : next_address (q_mem q) <= next_address (q_mem q');
  gp_token : no_new_token q q';
  gp_shape : forall p', p' <> p -> shape <$> producers q' !! p' = shape <$> producers q !! p';
  gp_case :
    (p = nullptr /\ (exists k, malloc_ok k = false) /\ exists fl' own', repr n q' fl' order own' cont) \/
    (p <> nullptr /\ (exists x, producers q' !! p = Some x /\ p_inactive x = false /\ is_explicit (p_body x) = kind) /\
     ((p ∈ order /\ (exists y, producers q !! p = Some y /\ p_inactive y = true) /\
       exists fl' own', repr n q' fl' order own' cont) \/
      ((p ∉ order) /\ exists fl' own', repr n q' fl' (p :: order) own' (upd cont p []))))
}.

(** The constructor of either kind makes an empty sub-queue. *)
Lemma construct_producer_spec (kind : bool) (k : nat) p x q fl :
  sb = 8 * 2 ^ Z.of_nat k -> producers q !! p = Some x ->
  p_body x = (if kind then Explicit (new_explicit_producer tr) else Implicit (new_implicit_producer tr)) ->
  pool_inv tr (q_mem q) fl ->
  wp (if kind then on_explicit p (ExplicitProducer_ctor tr malloc_ok) else on_implicit p (ImplicitProducer_ctor tr malloc_ok))
    (fun _ q' => exists b m, q' = with_body p x b m q /\ is_explicit b = kind /\
      sub_inv tr malloc_ok b m fl [] [] /\ allocated (q_mem q) m) nothrow q.
Proof using TraitsOk0.
  intros Hsb Hx Eb Hpool. destruct kind.
  - eapply wp_on_explicit; [done|done|]. eapply wp_mono; [by eapply (ctor_spec tr malloc_ok k)| |done].
    cbn beta. intros _ [e m] [Hinv Hal]. cbn [prod mem] in *. exists (Explicit e), m. split; [done|]. split; [done|]. split; [by exists 0, 0, 0|done].
  - eapply wp_on_implicit; [done|done|]. eapply wp_mono; [by eapply (i_ctor_spec tr malloc_ok)| |done].
    cbn beta. intros _ [i m] [Hinv Hal]. cbn [iprod imem] in *. exists (Implicit i), m. split; [done|]. split; [done|]. split; [by exists 0, 0, 0|done].
Qed.

Lemma create_and_add_spec kind (k : nat) n q fl order own cont :
  sb = 8 * 2 ^ Z.of_nat k -> repr n q fl order own cont -> zlength order + 1 < 2 ^ 32 -> 0 <= n ->
  wp (let! p := create_producer tr malloc_ok kind in add_producer p) (got_producer kind n q order cont) nothrow q.
Proof using TraitsOk0.
  intros Hsb Hq Hsmall Hn. pose proof (qr_pool _ _ _ _ _ _ _ _ Hq) as Hpool. wp_step. unfold create_producer. wp_step.
  apply wp_zoom, wp_malloc; intros Hok.
  - set (p := next_address (q_mem q)). set (m1 := set_allocator _ _ _).
    pose proof (pi_next _ _ _ Hpool) as Hp0. fold p in Hp0. rewrite (proj2 (Z.eqb_neq p nullptr)) by (unfold nullptr; lia).
    assert (allocated (q_mem q) m1) as Hal1 by (eexists _, _; split; [done|cbn; lia]).
    assert (p ∉ order) as Hnew by (intros Hin%(qr_addr _ _ _ _ _ _ _ _ Hq); lia).
    do 4 wp_step. set (x0 := mkProducer _ _ _ _ _). set (q1 := set_producers _ _). wp_step.
    eapply wp_mono; [eapply (construct_producer_spec kind k p x0 q1 fl Hsb)| |done]; [apply lookup_insert_eq|done|by eapply allocated_pool|].
    cbn beta. intros _ q2 (b & m2 & -> & Hk & Hinv & Hal2). wp_step. unfold add_producer.
    rewrite (proj2 (Z.eqb_neq p nullptr)) by (unfold nullptr; lia). do 5 wp_step.
    eapply (wp_update_producer p _ (set_p_body b x0)); [apply lookup_insert_eq|]. do 3 wp_step.
    set (q2 := set_list_tail _ _).
    assert (producers q2 = <[p := set_p_next (producerListTail q) (set_p_body b x0)]> (producers q)) as Eps.
    { cbn. by rewrite !insert_insert_eq. }
    assert (allocated (q_mem q) m2) as Hal.
    { destruct Hal1 as (a1 & k1 & -> & H1), Hal2 as (a2 & k2 & -> & H2). exists a2, k2. split; [done|]. cbn in *. lia. }
    assert (next_address m1 <= next_address m2) as Hm2 by (destruct Hal2 as (a2 & k2 & -> & H2); done).
    split; [done|intros home Hpar; by eapply parents_ok_insert|cbn in *; lia| |intros p' Hne; by rewrite Eps, lookup_insert_ne|].
    { intros p' y. rewrite Eps. intros [[<- <-]|[_ Hy]]%lookup_insert_Some Hn0; [done|by exists y]. }
    right. split; [unfold nullptr; lia|]. split.
    + eexists. split; [rewrite Eps; apply lookup_insert_eq|done].
    + right. split; [done|]. exists fl, (upd own p []). eapply (queue_repr_add n q fl order own cont p); try done.
      * cbn in *. lia.
      * exact Hinv.
      * apply (qr_tail _ _ _ _ _ _ _ _ Hq).
  - rewrite Z.eqb_refl. wp_step. unfold add_producer. rewrite Z.eqb_refl. wp_step. split; [done|done|cbn; lia|intros p' y Hy _; by exists y|done|]. left. split; [done|].
    split; [by eexists|]. exists fl, own. apply queue_repr_mem; [done|]. eexists _, _. split; [done|lia].
Qed.

Lemma recycle_or_create_spec kind (k : nat) n q fl order own cont :
  sb = 8 * 2 ^ Z.of_nat k -> repr n q fl order own cont -> zlength order + 1 < 2 ^ 32 -> 0 <= n ->
  wp (recycle_or_create_producer tr malloc_ok kind) (got_producer kind n q order cont) nothrow q.
Proof using TraitsOk0.
  intros Hsb Hq Hsmall Hn. unfold recycle_or_create_producer. do 5 wp_step.
  rewrite (qr_tail _ _ _ _ _ _ _ _ Hq).
  eapply wp_mono; [eapply (find_inactive_spec kind n q fl order own cont [] order); [done|done|]| |done].
  { by rewrite (order_length _ _ _ _ _ _ _ _ Hq). }
  cbn beta. intros p q' [[-> ->]|(x & Hp & Hx & Hi & Hk & ->)].
  - by eapply create_and_add_spec.
  - pose proof (qr_addr _ _ _ _ _ _ _ _ Hq p Hp). rewrite (proj2 (Z.eqb_neq p nullptr)) by (unfold nullptr; lia). cbn [negb]. wp_step.
    split; [done|intros home Hpar; eapply parents_ok_insert; [done|done|done|by eapply (proj2 Hpar p x)]|cbn; lia| |intros p' Hne; cbn; by rewrite lookup_insert_ne|].
    { intros p' y. cbn. intros [[<- <-]|[_ Hy]]%lookup_insert_Some _; [by exists x|by exists y]. }
    right. split; [unfold nullptr; lia|].
    split; [exists (set_p_inactive false x); cbn; by rewrite lookup_insert_eq|]. left. split; [done|].
    split; [by exists x|]. exists fl, own. by eapply queue_repr_put.
Qed.

(** ** What tokens do *)

Lemma wp_token_producer t p q (P : loc -> Q -> Prop) E :
  tokens q !! t = Some p -> P p q -> wp (token_producer t) P E q.
Proof using Type. intros Ht HP. unfold token_producer. by wp_steps. Qed.

Lemma queue_repr_tokens n q fl order own cont ts :
  repr n q fl order own cont -> repr n (set_tokens ts q) fl order own cont.
Proof using Type. intros []. by split. Qed.

(** Nothing happens to the producers of the threads. *)
Record implicit_kept q q' : Prop := {
  ik_hash : q_hash q' = q_hash q;
  ik_exit : q_exit q' = q_exit q;
  ik_next : next_address (q_mem q) <= next_address (q_mem q');
  ik_parents : forall home, parents_ok home q -> parents_ok home q';
  ik_shape : forall p x, producers q !! p = Some x -> p_inactive x = false -> is_explicit (p_body x) = false ->
    shape <$> producers q' !! p = Some (shape x);
  ik_back : forall p x, producers q' !! p = Some x -> p_inactive x = false -> is_explicit (p_body x) = false ->
    shape <$> producers q !! p = Some (shape x)
}.

Lemma stable_implicit_kept q q' : stable q q' -> implicit_kept q q'.
Proof using Type.
  intros Hst. pose proof Hst as [(o & m & ps & ->) [Hs Ha]]. split; try done.
  - intros home Hpar. by eapply parents_ok_stable.
  - intros p x Hx _ _. by rewrite Hs, Hx.
  - intros p x Hx _ _. by rewrite <- Hs, Hx.
Qed.

(** A fresh token [t] got the producer [p]. *)
Definition got_token n q order cont t p q' : Prop :=
  tokens q' = <[t := p]> (tokens q) /\ tokens_ok q' /\ implicit_kept q q' /\
  (forall x, producers q !! p = Some x -> p <> nullptr -> p_inactive x = true) /\
  ((p = nullptr /\ (exists k, malloc_ok k = false) /\ exists fl' own', repr n q' fl' order own' cont) \/
   (p <> nullptr /\
    ((p ∈ order /\ (forall t', tokens q !! t' <> Some p) /\ exists fl' own', repr n q' fl' order own' cont) \/
     ((p ∉ order) /\ exists fl' own', repr n q' fl' (p :: order) own' (upd cont p []))))).

Lemma ProducerToken_ctor_spec (k : nat) n q fl order own cont t :
  sb = 8 * 2 ^ Z.of_nat k -> repr n q fl order own cont -> zlength order + 1 < 2 ^ 32 -> 0 <= n ->
  tokens_ok q -> tokens q !! t = None ->
  wp (ProducerToken_ctor tr malloc_ok t) (fun _ q' => exists p, got_token n q order cont t p q') nothrow q.
Proof using TraitsOk0.
  intros Hsb Hq Hsmall Hn Hok Hfresh. unfold ProducerToken_ctor. wp_step.
  eapply wp_mono; [by eapply recycle_or_create_spec| |done]. cbn beta. intros p q1 [(Et & Eh & Ee & Ea) Hpar Hna Hback Hshape Hcase].
  wp_step. unfold init_token. wp_step.
  assert (forall p' x, producers q1 !! p' = Some x -> p_token x <> nullptr -> p_token x <> t /\ tokens q !! p_token x = Some p') as Htk.
  { intros p' x Hx Hnn. destruct (Hback p' x Hx Hnn) as (y & Hy & E). pose proof (tk_token _ Hok p' y Hy) as Hty. rewrite E in Hty.
    specialize (Hty Hnn). split; [|done]. intros Ht. congruence. }
  assert (p <> nullptr -> forall x, producers q !! p = Some x -> p_inactive x = true) as Hun.
  { intros Hp x Hx. destruct Hcase as [(? & _)|(_ & _ & [(_ & (y & Hy & Hi) & _)|(Hnew & _)])]; [done|congruence|].
    destruct Hnew. apply (qr_dom _ _ _ _ _ _ _ _ Hq). by exists x. }
  destruct Hcase as [(-> & Hm & fl' & own' & Hq')|(Hp & (x & Hx & Hi & Hk) & Hcase)].
  - rewrite Z.eqb_refl. cbn [negb]. wp_step. exists nullptr. split; [by cbn; rewrite Et|]. split.
    + split.
      * intros t' p' Ht' Hp'. cbn in Ht'. rewrite Et, lookup_insert_Some in Ht'.
        destruct Ht' as [[-> <-]|[_ Ht']]; [done|]. destruct (tk_producer _ Hok t' p' Ht' Hp') as (y & Hy & E1 & E2 & E3).
        specialize (Hshape p' Hp'). rewrite Hy in Hshape. cbn in Hshape |- *.
        destruct (producers q1 !! p') as [z|]; [|done]. cbn in Hshape. injection Hshape as ? ? ? ?.
        exists z. split; [done|]. split_and!; congruence.
      * intros p' z Hz Hnn. cbn in Hz |- *. destruct (Htk p' z Hz Hnn) as [Hne Htz]. by rewrite Et, lookup_insert_ne by done.
    + split; [|split; [done|]]; [|left; split; [done|]; split; [done|]; exists fl', own'; by apply queue_repr_tokens].
      assert (forall q0 fl0 own0 x', repr n q0 fl0 order own0 cont -> producers q0 !! nullptr <> Some x') as Hnull.
      { intros q0 fl0 own0 x' Hq0 Hx'. assert (nullptr ∈ order) as Hin by (apply (qr_dom _ _ _ _ _ _ _ _ Hq0); by exists x').
        apply (qr_addr _ _ _ _ _ _ _ _ Hq0) in Hin. unfold nullptr in Hin. lia. }
      split; cbn; try done; intros p' x' Hx' _ _.
      * rewrite Hshape; [by rewrite Hx'|]. intros ->. exact (Hnull q fl own x' Hq Hx').
      * rewrite <- Hshape; [by rewrite Hx'|]. intros ->. exact (Hnull q1 fl' own' x' Hq' Hx').
  - rewrite (proj2 (Z.eqb_neq _ _) Hp). cbn [negb]. eapply wp_update_producer; [exact Hx|].
    assert (forall t', tokens q !! t' <> Some p) as Hunused.
    { intros t' Ht'. destruct (tk_producer _ Hok t' p Ht' Hp) as (y & Hy & _ & E2 & _). destruct Hcase as [(_ & (y' & Hy' & Hi') & _)|(Hnew & _)].
      - congruence.
      - apply Hnew, (qr_dom _ _ _ _ _ _ _ _ Hq). by exists y. }
    exists p. split; [by cbn; rewrite Et|]. split.
    + split.
      * intros t' p' Ht' Hp'. cbn in Ht' |- *. rewrite Et, lookup_insert_Some in Ht'.
        destruct Ht' as [[-> <-]|[Hne Ht']]; [exists (set_p_token t' x); by rewrite lookup_insert_eq|].
        assert (p' <> p) as Hpp by (by intros ->; apply (Hunused t')).
        destruct (tk_producer _ Hok t' p' Ht' Hp') as (y & Hy & E1 & E2 & E3).
        specialize (Hshape p' Hpp). rewrite Hy in Hshape. cbn in Hshape. rewrite lookup_insert_ne by done.
        destruct (producers q1 !! p') as [z|]; [|done]. cbn in Hshape. injection Hshape as ? ? ? ?.
        exists z. split; [done|]. split_and!; congruence.
      * intros p' z. cbn. intros [[<- <-]|[Hne Hz]]%lookup_insert_Some Hnn; cbn; [by rewrite lookup_insert_eq|].
        destruct (Htk p' z Hz Hnn) as [Hne' Htz]. by rewrite Et, lookup_insert_ne by done.
    + split; [|split; [by intros y Hy _; eapply Hun|]].
      { split; cbn; try done.
        - intros home Hpar0%Hpar. eapply (parents_ok_insert home q1 _ p _ Hpar0); [done|done|]. by apply (proj2 Hpar0 p x).
        - intros p' x' Hx' Hi' _. assert (p' <> p) as Hpp by (intros ->; specialize (Hun Hp x' Hx'); congruence).
          rewrite lookup_insert_ne, Hshape, Hx' by done. done.
        - intros p' x'. destruct (decide (p' = p)) as [->|Hpp].
          + rewrite lookup_insert_eq. intros [= <-] _ Hk'. cbn in Hk'. congruence.
          + rewrite lookup_insert_ne by done. intros Hx' _ _. by rewrite <- Hshape, Hx'. }
      right. split; [done|]. destruct Hcase as [(Hin & _ & fl' & own' & Hq')|(Hnew & fl' & own' & Hq')]; [left|right].
      * split; [done|]. split; [done|]. exists fl', own'. eapply queue_repr_put; [by apply queue_repr_tokens|exact Hx|done|done].
      * split; [done|]. exists fl', own'. eapply queue_repr_put; [by apply queue_repr_tokens|exact Hx|done|done].
Qed.

Lemma ProducerToken_dtor_spec n q fl order own cont t p :
  repr n q fl order own cont -> tokens_ok q -> tokens q !! t = Some p ->
  wp (ProducerToken_dtor t) (fun _ q' =>
    repr n q' fl order own cont /\ tokens_ok q' /\ tokens q' = delete t (tokens q) /\ implicit_kept q q') nothrow q.
Proof using Type.
  intros Hq Hok Ht. unfold ProducerToken_dtor. wp_step. eapply wp_token_producer; [done|]. wp_step.
  destruct (Z.eqb_spec p nullptr) as [->|Hp]; cbn [negb].
  - wp_steps. split; [by apply queue_repr_tokens|]. split; [|split; [done|split; try done; by intros p x Hx _ _; cbn in *; rewrite Hx]]. split.
    + intros t' p' Ht' Hp'. cbn in Ht'. apply lookup_delete_Some in Ht' as [_ Ht']. by apply (tk_producer _ Hok t').
    + intros p' z Hz Hnn. cbn in Hz |- *. pose proof (tk_token _ Hok p' z Hz Hnn) as Htz. rewrite lookup_delete_ne; [done|]. intros E.
      assert (p' = nullptr) as -> by congruence.
      assert (nullptr ∈ order) as Hin by (apply (qr_dom _ _ _ _ _ _ _ _ Hq); by exists z).
      apply (qr_addr _ _ _ _ _ _ _ _ Hq) in Hin. unfold nullptr in Hin. lia.
  - destruct (tk_producer _ Hok t p Ht Hp) as (x & Hx & E1 & E2 & E3). wp_step. eapply wp_update_producer; [exact Hx|].
    eapply wp_update_producer; [apply lookup_insert_eq|]. wp_step. set (q1 := put_producer _ _ _).
    assert (q1 = put_producer p (set_p_inactive true (set_p_token nullptr x)) q) as ->.
    { unfold q1, put_producer, set_producers. cbn. by rewrite insert_insert_eq. }
    split; [|split; [|split; [done|split; try done]]].
    + apply queue_repr_tokens. by eapply queue_repr_put.
    + split.
      * intros t' p' Ht' Hp'. cbn in Ht' |- *. apply lookup_delete_Some in Ht' as [Hne Ht'].
        destruct (tk_producer _ Hok t' p' Ht' Hp') as (y & Hy & Ey). exists y. rewrite lookup_insert_ne; [done|]. intros ->.
        destruct Ey as (Ey & _). congruence.
      * intros p' z. cbn. intros [[<- <-]|[Hne Hz]]%lookup_insert_Some Hnn; [done|]. pose proof (tk_token _ Hok p' z Hz Hnn) as Htz.
        rewrite lookup_delete_ne; [done|]. intros E. congruence.
    + intros home Hpar. eapply (parents_ok_insert home q _ p _ Hpar); [done|done|]. by apply (proj2 Hpar p x).
    + intros p' x' Hx' _ Hk'. cbn. rewrite lookup_insert_ne; [by rewrite Hx'|]. intros <-. congruence.
    + intros p' x'. cbn. destruct (decide (p' = p)) as [->|Hne]; [rewrite lookup_insert_eq; by intros [= <-]|].
      rewrite lookup_insert_ne by done. by intros ->.
Qed.

(** ** Enqueue with a token *)

(** The producer [p] is asked to add [items]. *)
Definition pushed allocMode (items : list U) n q order cont p (ok : bool) q' : Prop :=
  stable q q' /\ exists fl' own',
  if ok then exists vs, made_of ops items vs /\ repr n q' fl' order own' (upd cont p (cont p ++ vs))
  else repr n q' fl' order own' cont /\ may_refuse tr malloc_ok allocMode (cont p) (zlength items).

(** A call on the producer of a token. *)
Lemma token_call_spec (f : M (EState T) bool) allocMode items (d : Z) n q fl order own cont t p :
  repr n q fl order own cont -> tokens_ok q -> tokens q !! t = Some p -> p <> nullptr -> 0 <= d ->
  (forall (s : EState T) (h te : Z) fi, explicit_inv tr s fl h te fi (own p) (cont p) -> zlength (own p) <= n ->
    wp f (fun ok s' => exists fl' f' ring', mem_frame (own p) (mem s) fl ring' (mem s') fl' /\ zlength ring' <= zlength (own p) + d /\
        if ok : bool then exists vs (te' : Z), made_of ops items vs /\ explicit_inv tr s' fl' h te' f' ring' (cont p ++ vs)
        else explicit_inv tr s' fl' h te f' ring' (cont p) /\ may_refuse tr malloc_ok allocMode (cont p) (zlength items)) nothrow s) ->
  wp (let! p := token_producer t in on_explicit p f)
    (fun ok q' => p ∈ order /\ pushed allocMode items (n + d) q order cont p ok q') nothrow q.
Proof using TraitsOk0.
  intros Hq Hok Ht Hp Hd Hf. destruct (tk_producer _ Hok t p Ht Hp) as (x & Hx & _ & _ & Hk).
  assert (p ∈ order) as Hin by (apply (qr_dom _ _ _ _ _ _ _ _ Hq); by exists x).
  pose proof (qr_sub _ _ _ _ _ _ _ _ Hq p x Hx) as Hsub. pose proof (qr_small _ _ _ _ _ _ _ _ Hq p Hin) as Hsz.
  destruct (p_body x) as [e|] eqn:Eb; [|done]. destruct Hsub as (h & te & fi & Hinv).
  wp_step. eapply wp_token_producer; [done|]. eapply wp_on_explicit; [done|done|].
  eapply wp_mono; [by eapply Hf| |done].
  cbn beta. intros ok [e' m'] (fl' & f' & ring' & Hfr & Hr & Hpost). cbn [prod mem] in *.
  split; [done|]. split; [apply stable_with_body; [done|by rewrite Eb|apply Hfr]|]. exists fl', (upd own p ring'). destruct ok.
  - destruct Hpost as (vs & te' & Hvs & Hinv'). exists vs. split; [done|].
    eapply (queue_repr_update tr malloc_ok n); [done|exact Hx| |done|lia|lia]. by exists h, te', f'.
  - destruct Hpost as [Hinv' Hwhy]. split; [|done].
    eapply queue_repr_contents; [eapply (queue_repr_update tr malloc_ok n); [done|exact Hx| |done|lia|lia]|].
    + by exists h, te, f'.
    + intros p'. unfold upd. by case_decide; subst.
Qed.

Lemma inner_enqueue_token_spec allocMode u n q fl order own cont t p :
  repr n q fl order own cont -> tokens_ok q -> tokens q !! t = Some p -> p <> nullptr ->
  make ops u <> None -> (n + 1) * B < 2 ^ (sb - 1) ->
  wp (inner_enqueue_token tr ops malloc_ok indeterminate allocMode t u)
    (fun ok q' => p ∈ order /\ pushed allocMode [u] (n + 1) q order cont p ok q') nothrow q.
Proof using TraitsOk0.
  intros Hq Hok Ht Hp Hu Hsmall. destruct (make ops u) as [v|] eqn:Hv; [|done]. pose proof (block_size_gt_1 tr).
  eapply token_call_spec; try done. intros s h te fi Hinv Hn.
  eapply wp_mono; [eapply (enqueue_spec tr ops malloc_ok indeterminate allocMode u v); [exact Hinv|done|nia]| |done].
  cbn beta. intros ok s' (fl' & f' & ring' & Hf & Hr & Hpost). exists fl', f', ring'. split; [done|]. split; [done|].
  destruct ok; [exists [v], (te + 1); split; [by repeat constructor|done]|]. destruct Hpost as (Hinv' & _ & Hwhy). split; [done|].
  destruct Hwhy as [Hroom|Hmem]; [right|by left]. exists 0. split; [done|]. rewrite <- (Z.sub_diag te). eapply no_space_of; [apply Hinv|done].
Qed.

(** Where nothing can refuse blocks, [enqueue_bulk] adds all the elements. *)
Lemma inner_enqueue_bulk_token_spec allocMode items n q fl order own cont t p :
  repr n q fl order own cont -> tokens_ok q -> tokens q !! t = Some p -> p <> nullptr ->
  constructible ops items -> unlimited tr malloc_ok allocMode -> (n + (zlength items / B + 1)) * B < 2 ^ (sb - 1) ->
  wp (inner_enqueue_bulk_token tr ops malloc_ok indeterminate allocMode t items (zlength items))
    (fun ok q' => p ∈ order /\ pushed allocMode items (n + (zlength items / B + 1)) q order cont p ok q') nothrow q.
Proof using TraitsOk0.
  intros Hq Hok Ht Hp Hmake Hun Hsmall. pose proof (block_size_gt_1 tr). pose proof (zlength_nonneg items).
  pose proof (Z.div_pos (zlength items) B ltac:(lia) ltac:(lia)). eapply token_call_spec; try done; [lia|]. intros s h te fi Hinv Hn.
  assert ((zlength (own p) + zlength items / B + 1) * B < 2 ^ (sb - 1)) as Hring by nia.
  eapply wp_mono; [eapply (enqueue_bulk_spec tr ops malloc_ok indeterminate allocMode items); [exact Hinv|lia|done|done]| |done].
  cbn beta. intros [] s' Hpost; [|by destruct (unlimited_granted tr malloc_ok _ _ _ _ _ _ _ _ (zlength items) Hun Hinv ltac:(lia) Hring)].
  destruct Hpost as (fl' & f' & ring' & vs & Hf & Hr & Hvs & Hmade & Hinv'). exists fl', f', ring'. split; [done|]. split; [lia|].
  exists vs, (te + zlength items). split; [by apply made_whole|done].
Qed.
End tokens.
