(* ===== verification/QueueThreads.v ===== *)
(** The producing side of threads without tokens: [get_or_add_implicit_producer]
    finds or makes the producer of a thread, and the exit of a thread frees it. *)

From S2P Require Import Prelude MachineInt Traits FreeList Block BlockPool ProducerBase ProducerBaseProofs ExplicitProducer Contents Fifo ExplicitSpec ExplicitIndex ExplicitProofs ExplicitBulk ExplicitQueue ImplicitProducer ImplicitSpec ImplicitIndex ImplicitProofs ImplicitBulk ImplicitFill ImplicitAtomic ImplicitQueue ThreadExit ImplicitHash ImplicitHashProofs HashChain SubQueues SubQueuesProofs ConcurrentQueue QueueInvariant QueueTokens.

Section threads.
Context {U T R : Type} (tr : Traits) `{!TraitsOk tr} (ops : ElementOps U T R).
Context (malloc_ok : nat -> bool) (indeterminate : Indeterminate).
Context (platform : ThreadIdPlatform) (tls : bool) (hash_bytes : Z).
#[local] Abbreviation sb := (size_bits tr).
#[local] Abbreviation B := (BLOCK_SIZE tr).
#[local] Abbreviation Q := (ConcurrentQueue T).
#[local] Abbreviation repr := (queue_repr tr malloc_ok).
#[local] Abbreviation hashf := (hashed tr hash_bytes).
#[local] Abbreviation hinv := (hash_inv tr platform hashf).
#[local] Abbreviation valid := (valid_id platform).
Implicit Types (q : Q) (fl order : list loc) (p tid : loc) (t : ImplicitProducerHash) (x : Producer) (m mt : gmap Z loc).
Implicit Types (own : loc -> list loc) (cont : loc -> list T) (n c : Z) (l : list (loc * gmap Z loc)).

(** * The hash inside a queue *)

(** Tables are at addresses that were allocated. *)
Definition tables_low q : Prop := forall y, is_Some (tables (q_hash q) !! y) -> y < next_address (q_mem q).

(** Only the hash and the allocator change. *)
Definition hash_only q q' : Prop := exists h a j,
  q' = set_q_mem (set_allocator a j (q_mem q)) (set_q_hash h q) /\ next_address (q_mem q) <= a /\
  initialImplicitProducerHash h = initialImplicitProducerHash (q_hash q).

Lemma wp_in_hash {A} (f : M HashState A) (P : A -> Q -> Prop) E q :
  wp f (fun a h => P a (set_q_hash h q)) (fun h => E (set_q_hash h q)) (q_hash q) -> wp (in_hash f) P E q.
Proof using Type. intros H. by apply wp_zoom. Qed.

Lemma half_of_power e : 0 <= e -> Z.shiftr (2 ^ e) 1 = if decide (e = 0) then 0 else 2 ^ (e - 1).
Proof using Type.
  intros He. rewrite Z.shiftr_div_pow2 by lia. change (2 ^ 1) with 2. case_decide as E; [by subst|].
  replace (2 ^ e) with (2 ^ (e - 1) * 2); [by apply Z.div_mul|]. rewrite Z.mul_comm, <- Z.pow_succ_r by lia. f_equal. lia.
Qed.

(** The hash has room for one more thread. *)
Definition room q m c (main : loc) : Prop :=
  exists m0 l t, hinv (q_hash q) m c main m0 l /\ tables (q_hash q) !! main = Some t /\
    hash_repr tr platform hashf t m0 /\ c + 1 < Z.shiftr (hash_capacity t) 1.

Definition inserting q c : Prop :=
  implicitProducerHashCount (q_hash q) = c /\ implicitProducerHashResizeInProgress (q_hash q) = false.

Lemma grow_hash_spec q m c main m0 l t :
  hinv (q_hash q) m c main m0 l -> tables (q_hash q) !! main = Some t -> Z.shiftr (hash_capacity t) 1 <= c + 1 ->
  table_wf tr t -> tables_low q -> 0 < next_address (q_mem q) -> 0 <= c -> c + 1 < 2 ^ (sb - 2) ->
  implicitProducerHashCount (q_hash q) = c + 1 ->
  wp (grow_hash tr malloc_ok platform (c + 1)) (fun r q' => hash_only q q' /\ tables_low q' /\
    match r with
    | None => (exists k, malloc_ok k = false) /\ inserting q' c /\ hinv (q_hash q') m c main m0 l
    | Some main' => inserting q' (c + 1) /\ room q' m c main'
    end) nothrow q.
Proof using TraitsOk0.
  intros Hinv Ht Hfull Hwf Hlow Hna Hc Hcs Hcount. unfold grow_hash.
  pose proof (hi_main _ _ _ _ _ _ _ _ _ Hinv) as Emain. pose proof (size_le_index tr).
  wp_step. apply wp_in_hash. wp_step. rewrite Emain. wp_step. apply wp_in_hash. eapply wp_table; [exact Ht|].
  cbn beta. rewrite (proj2 (Z.leb_le _ _) Hfull).
  destruct Hwf as [(e & He & Ecap) _]. rewrite Ecap in *.
  assert (e + 1 < sb) as He1.
  { rewrite half_of_power in Hfull by lia. case_decide; [lia|].
    assert (e - 1 < sb - 2); [|lia]. apply (Z.pow_lt_mono_r_iff 2); lia. }
  assert (wrap sb (Z.shiftl (2 ^ e) 1) = 2 ^ (e + 1)) as ->.
  { rewrite Z.shiftl_mul_pow2 by lia. change (2 ^ 1) with 2. rewrite Z.mul_comm, <- Z.pow_succ_r by lia.
    rewrite wrap_small; [done|]. split; [apply Z.pow_nonneg; lia|]. apply Z.pow_lt_mono_r; lia. }
  wp_step. apply wp_in_hash. eapply wp_mono; [apply (double_capacity_spec tr); lia| |done].
  cbn beta. intros ? ? (-> & b & Hb & -> & Hlt). wp_step. apply wp_zoom, wp_malloc; intros Hok; cbn [q_mem set_q_hash].
  - set (raw := next_address (q_mem q)). rewrite (proj2 (Z.eqb_neq raw nullptr)) by (unfold nullptr; lia).
    wp_step. apply wp_in_hash. cbn [q_hash set_q_mem set_q_hash].
    eapply wp_mono; [eapply (install_inv tr platform hashf _ m c main m0 l raw b Hinv)| |done].
    + unfold nullptr. lia.
    + destruct (tables (q_hash q) !! raw) as [y|] eqn:Hy; [|done]. assert (raw < raw); [apply Hlow; by exists y|lia].
    + lia.
    + assert (2 ^ (b - 1) <= 2 ^ b) by (apply Z.pow_le_mono_r; lia). lia.
    + cbn beta. intros _ h (Hinv' & Eh & Hdom & t' & Ht' & Ecap' & Hrepr'). wp_step. apply wp_in_hash. unfold clear_resizing. do 2 wp_step.
      split; [|split; [|split]].
      * eexists _, _, _. split; [done|]. split; [lia|by rewrite Eh].
      * intros y Hy. cbn in Hy |- *. apply elem_of_dom in Hy. rewrite Hdom in Hy. apply elem_of_union in Hy as [->%elem_of_singleton|Hy].
        -- fold raw. lia.
        -- apply elem_of_dom, Hlow in Hy. lia.
      * split; cbn; [by rewrite Eh|done].
      * exists ∅, ((main, m0) :: l), t'. cbn. split; [by destruct Hinv'|]. split; [done|]. split; [done|].
        rewrite Ecap', half_of_power by lia. rewrite decide_False by lia. done.
  - rewrite Z.eqb_refl. wp_step. apply wp_in_hash. unfold uncount_slot. do 3 wp_step. wp_step. apply wp_in_hash. unfold clear_resizing.
    do 2 wp_step. cbn [q_hash set_q_mem set_q_hash]. split; [|split; [|split; [by eexists|split]]].
    + eexists _, _, _. split; [done|]. split; [lia|done].
    + exact Hlow.
    + split; cbn; [|done]. rewrite Hcount, wrap_small; [lia|].
      assert (2 ^ (sb - 2) < 2 ^ sb) by (apply Z.pow_lt_mono_r; lia). lia.
    + cbn. by destruct Hinv.
Qed.

(** Whether the hash has to grow or not, there is room afterwards, unless
    memory ran out. *)
Lemma make_room_spec q m c main m0 l t :
  hinv (q_hash q) m c main m0 l -> tables (q_hash q) !! main = Some t -> hash_repr tr platform hashf t m0 ->
  tables_low q -> 0 < next_address (q_mem q) -> 0 <= c -> c + 1 < 2 ^ (sb - 2) -> inserting q (c + 1) ->
  wp (if Z.shiftr (hash_capacity t) 1 <=? c + 1 then
        let! busy := in_hash test_and_set_resizing in
        if negb busy then grow_hash tr malloc_ok platform (c + 1) else ret (Some main)
      else ret (Some main)) (fun r q' => hash_only q q' /\ tables_low q' /\
    match r with
    | None => (exists k, malloc_ok k = false) /\ inserting q' c /\ hinv (q_hash q') m c main m0 l
    | Some main' => inserting q' (c + 1) /\ room q' m c main'
    end) nothrow q.
Proof using TraitsOk0.
  intros Hinv Ht Hrepr Hlow Hna Hc Hcs [Hcount Hres]. destruct (Z.leb_spec (Z.shiftr (hash_capacity t) 1) (c + 1)) as [Hfull|Hroom].
  - wp_step. apply wp_in_hash. unfold test_and_set_resizing. do 5 wp_step. rewrite Hres. cbn [negb].
    set (q1 := set_q_hash (set_resizing true (q_hash q)) q).
    eapply wp_mono; [eapply (grow_hash_spec q1 m c main m0 l t); try done; [by destruct Hinv|by destruct Hrepr]| |done].
    cbn beta. intros r q' [(h & a & j & -> & Ha & Ei) H]. split; [|done]. by exists h, a, j.
  - wp_step. split; [|split; [done|split; [done|by exists m0, l, t]]].
    exists (q_hash q), (next_address (q_mem q)), (malloc_calls (q_mem q)). split; [|split; [lia|done]].
    destruct q as [? ? ? [] ? ? ? ? ? ?]. done.
Qed.

(** ** Threads and their producers *)

Definition listed m tid : list loc := option_list (m !! tid).

(** Every implicit producer that is in use is a thread's. *)
Definition all_owned q m : Prop :=
  forall p x, producers q !! p = Some x -> p_inactive x = false -> is_explicit (p_body x) = false -> exists tid, m !! tid = Some p.

Lemma all_owned_kept q q' m : all_owned q m -> implicit_kept q q' -> all_owned q' m.
Proof using Type.
  intros Hq [_ _ _ _ _ Hback] p x Hx Hi Hk. specialize (Hback p x Hx Hi Hk). destruct (producers q !! p) as [y|] eqn:Hy; [|done].
  cbn in Hback. injection Hback as E1 E2 E3 E4. apply (Hq p y Hy); congruence.
Qed.

(** [m] maps the threads to their producers; at most [k] slots of the hash have
    been used. *)
Record threads_ok q m (k : Z) : Prop := {
  to_hash : exists main m0 l c, hinv (q_hash q) m c main m0 l /\ inserting q c /\ 0 <= c <= k;
  to_low : tables_low q;
  to_producers : forall tid p, m !! tid = Some p -> p <> nullptr /\
    exists x, producers q !! p = Some x /\ p_inactive x = false /\ is_explicit (p_body x) = false;
  to_inj : forall tid tid' p, m !! tid = Some p -> m !! tid' = Some p -> tid = tid';
  to_owned : all_owned q m;
  to_exit : tls = true -> exit_inv (q_exit q) (listed m) /\
    forall tid p, m !! tid = Some p -> exists r, listeners (q_exit q) !! p = Some r /\ userData r = p
}.

Lemma threads_ok_kept q q' m k k' : threads_ok q m k -> implicit_kept q q' -> k <= k' -> threads_ok q' m k'.
Proof using Type.
  intros [(main & m0 & l & c & Hinv & [H1 H2] & Hc) Hlow Hprod Hinj Hown Hexit] Hkept Hk. pose proof Hkept as [Eh Ee Ha _ Hs _].
  split; [|intros y; rewrite Eh; intros Hy%Hlow; lia| |done|by eapply all_owned_kept|by rewrite Ee].
  - exists main, m0, l, c. unfold inserting. rewrite Eh. split; [done|]. split; [done|lia].
  - intros tid p Hp. destruct (Hprod tid p Hp) as (Hnn & x & Hx & E1 & E2). split; [done|].
    specialize (Hs p x Hx E1 E2). destruct (producers q' !! p) as [y|]; [|done].
    cbn in Hs. injection Hs as ? ? ? ?. exists y. split; [done|]. split; congruence.
Qed.

(** An inactive producer is nobody's. *)
Lemma threads_not_inactive q m k p :
  threads_ok q m k -> (forall x, producers q !! p = Some x -> p_inactive x = true) -> forall tid, m !! tid <> Some p.
Proof using Type.
  intros Hth Hp tid Ht. destruct (to_producers _ _ _ Hth tid p Ht) as (_ & x & Hx & Hi & _). specialize (Hp x Hx). congruence.
Qed.

(** What only the hash changes keeps the queue. *)
Lemma hash_only_repr n q q' fl order own cont :
  hash_only q q' -> repr n q fl order own cont -> repr n q' fl order own cont.
Proof using TraitsOk0.
  intros (h & a & j & -> & Ha & _) Hq. eapply (queue_repr_mem tr malloc_ok n (set_q_hash h q)); [by destruct Hq|].
  exists a, j. cbn. split; [done|lia].
Qed.

(** The listener of a new producer, and its subscription. *)
Lemma subscribe_producer_spec q m tid p :
  (tls = true -> exit_inv (q_exit q) (listed m) /\
     forall tid p, m !! tid = Some p -> exists r, listeners (q_exit q) !! p = Some r /\ userData r = p) ->
  m !! tid = None -> (forall tid', m !! tid' <> Some p) -> p <> nullptr ->
  wp (if tls then
        in_exit (modify (fun s => set_listeners (<[p := mkListener p nullptr None]> (listeners s)) s));; in_exit (subscribe tid p)
      else ret tt) (fun _ q' => exists e, q' = set_q_exit e q /\
    (tls = true -> exit_inv e (listed (<[tid := p]> m)) /\
       forall tid' p', <[tid := p]> m !! tid' = Some p' -> exists r, listeners e !! p' = Some r /\ userData r = p')) nothrow q.
Proof using Type.
  intros Hexit Hm Hnew Hnn. destruct tls; [|wp_step; exists (q_exit q); split; [by destruct q|done]].
  destruct (Hexit eq_refl) as [Hinv Hud]. unfold in_exit. do 2 wp_step. wp_step. wp_step. cbn [q_exit set_q_exit].
  set (e1 := set_listeners _ _).
  assert (exit_inv e1 (listed m)) as Hinv1.
  { apply exit_inv_fresh; [done| |done]. intros t. unfold listed. destruct (m !! t) as [p'|] eqn:E; cbn; [|by apply not_elem_of_nil].
    rewrite list_elem_of_singleton. intros <-. by apply (Hnew t). }
  eapply wp_mono; [apply (subscribe_spec e1 (listed m) tid p (mkListener p nullptr None)); [done|apply lookup_insert_eq|done]| |done].
  cbn beta. intros _ e2 [Hinv2 Hkeep]. exists e2. split; [done|]. intros _. split.
  - eapply exit_inv_ext; [done|]. intros t. unfold update, listed. case_decide as E.
    + subst t. by rewrite Hm, lookup_insert_eq.
    + by rewrite lookup_insert_ne.
  - intros tid' p' [[<- <-]|[_ Hp']]%lookup_insert_Some.
    + destruct (Hkeep p (mkListener p nullptr None)) as (r & Hr & E); [apply lookup_insert_eq|]. by exists r.
    + destruct (Hud tid' p' Hp') as (r & Hr & E). destruct (Hkeep p' r) as (r' & Hr' & E').
      { cbn. rewrite lookup_insert_ne; [done|]. intros ->. by apply (Hnew tid'). }
      exists r'. split; [done|]. congruence.
Qed.

(** ** The producer of a thread *)

(** What [get_or_add_implicit_producer] returns: the producer the thread has,
    none for want of memory, or one that is now the thread's: inactive before,
    or new. *)
Record got_thread n q order cont m (k : Z) tid (p : loc) q' : Prop := {
  gt_tokens : tokens q' = tokens q;
  gt_tokens_ok : tokens_ok q';
  gt_parents : forall home, parents_ok home q -> parents_ok home q';
  gt_case :
    (m !! tid = Some p /\ p <> nullptr /\ threads_ok q' m k /\ exists fl' own', repr n q' fl' order own' cont) \/
    (m !! tid = None /\ p = nullptr /\ (exists j, malloc_ok j = false) /\ threads_ok q' m k /\
       exists fl' own', repr n q' fl' order own' cont) \/
    (m !! tid = None /\ p <> nullptr /\ (forall tid', m !! tid' <> Some p) /\ threads_ok q' (<[tid := p]> m) (k + 1) /\
       ((p ∈ order /\ (forall t : loc, tokens q !! t <> Some p) /\ exists fl' own', repr n q' fl' order own' cont) \/
        ((p ∉ order) /\ exists fl' own', repr n q' fl' (p :: order) own' (upd cont p []))))
}.

Lemma tokens_ok_shape q q' :
  tokens_ok q -> tokens q' = tokens q -> no_new_token q q' ->
  (forall (t : loc) p, tokens q !! t = Some p -> p <> nullptr -> shape <$> producers q' !! p = shape <$> producers q !! p) -> tokens_ok q'.
Proof using Type.
  intros Hok Et Hback Hs. split; [|by eapply tk_token_kept].
  intros t p. rewrite Et. intros Ht Hp. destruct (tk_producer _ Hok t p Ht Hp) as (x & Hx & E1 & E2 & E3).
  specialize (Hs t p Ht Hp). rewrite Hx in Hs. cbn in Hs. destruct (producers q' !! p) as [y|]; [|done].
  cbn in Hs. injection Hs as ? ? ? ?. exists y. split; [done|]. split_and!; congruence.
Qed.

(** A producer that was handed out belonged to nobody. *)
Lemma got_producer_unused kind n q fl order own cont p q' m :
  got_producer tr malloc_ok kind n q order cont p q' -> p <> nullptr -> repr n q fl order own cont -> tokens_ok q ->
  (forall tid p, m !! tid = Some p -> exists x, producers q !! p = Some x /\ p_inactive x = false) ->
  (forall t : loc, tokens q !! t <> Some p) /\ (forall tid, m !! tid <> Some p).
Proof using Type.
  intros [_ _ _ _ _ Hcase] Hp Hq Htok Hact. destruct Hcase as [(? & _)|(_ & _ & Hcase)]; [done|].
  assert (forall x, producers q !! p = Some x -> p_inactive x = false -> False) as Hno.
  { intros x Hx Hi. destruct Hcase as [(_ & (y & Hy & Hyi) & _)|(Hnew & _)]; [congruence|].
    apply Hnew, (qr_dom _ _ _ _ _ _ _ _ Hq). by exists x. }
  split.
  - intros t Ht. destruct (tk_producer _ Htok t p Ht Hp) as (x & Hx & _ & Hi & _). by apply (Hno x).
  - intros tid Ht. destruct (Hact tid p Ht) as (x & Hx & Hi). by apply (Hno x).
Qed.

(** The new entry of the hash. *)
Lemma claim_thread_spec q m c main tid p t :
  room q m c main -> inserting q (c + 1) -> tables_low q -> 0 <= c -> c + 1 < 2 ^ sb -> valid tid -> m !! tid = None ->
  tables (q_hash q) !! main = Some t ->
  wp (in_hash (claim_slot tr platform tls (Z.to_nat (hash_capacity t)) main tid (hashf tid) p)) (fun _ q' =>
    exists h, q' = set_q_hash h q /\ initialImplicitProducerHash h = initialImplicitProducerHash (q_hash q) /\ tables_low q' /\
    exists main m0 l c', hinv (q_hash q') (<[tid := p]> m) c' main m0 l /\ inserting q' c' /\ c <= c' <= c + 1) nothrow q.
Proof using TraitsOk0.
  intros (m0 & l & t' & Hinv & Ht' & Hrepr & Hroom) [Hcount Hres] Hlow Hc Hcs Hid Hm Ht. rewrite Ht in Ht'. injection Ht' as <-.
  apply wp_in_hash. pose proof (hr_wf _ _ _ _ _ Hrepr) as [(e & He & Ecap) _].
  eapply wp_mono; [eapply (claim_inv tr platform hashf tls); try done| |done].
  - pose proof (Z.pow_pos_nonneg 2 e ltac:(lia) ltac:(lia)). rewrite Ecap in *. rewrite Z.shiftr_div_pow2 in Hroom by lia. change (2 ^ 1) with 2 in *.
    pose proof (Z.mul_div_le (2 ^ e) 2 ltac:(lia)). lia.
  - cbn beta. intros _ h (c' & Hc' & Hinv' & Eh & Hdom). exists h. split; [done|]. split; [by rewrite Eh|]. split.
    + intros y Hy. cbn in Hy |- *. apply elem_of_dom in Hy. rewrite Hdom in Hy. by apply elem_of_dom, Hlow in Hy.
    + exists main, (<[tid := p]> m0), l, c'. split; [done|]. split; [|done]. split; cbn; by rewrite Eh.
Qed.

Lemma insert_thread_spec (j fuel : nat) n q fl order own cont m (k c : Z) tid main m0 l :
  sb = 8 * 2 ^ Z.of_nat j -> repr n q fl order own cont -> zlength order + 1 < 2 ^ 32 -> 0 <= n -> tokens_ok q ->
  threads_ok q m k -> hinv (q_hash q) m c main m0 l -> inserting q c -> 0 <= c <= k -> k + 1 < 2 ^ (sb - 2) ->
  valid tid -> m !! tid = None ->
  wp (insert_thread tr malloc_ok platform tls hash_bytes (S fuel) tid main (c + 1)) (got_thread n q order cont m k tid) nothrow
    (set_q_hash (set_hashCount (c + 1) (q_hash q)) q).
Proof using TraitsOk0.
  intros Hsb Hq Hsmall Hn Htok Hth Hinv [Hcount Hres] Hc Hk Hid Hm. pose proof (size_le_index tr).
  pose proof Hinv as [_ _ (t & Ht & Hrepr & _) _ _ _ _]. pose proof (qr_pool _ _ _ _ _ _ _ _ Hq) as Hpool.
  set (q0 := set_q_hash _ q). cbn [insert_thread]. wp_step. apply wp_in_hash. eapply wp_table; [exact Ht|]. wp_step.
  assert (hinv (q_hash q0) m c main m0 l) as Hinv0 by (by destruct Hinv).
  assert (set_q_hash (q_hash q0) q0 = q0) as E0 by done. rewrite E0.
  eapply wp_mono; [eapply (make_room_spec q0 m c main m0 l t Hinv0 Ht Hrepr); [|apply (pi_next _ _ _ Hpool)|lia|lia|by split]| |done].
  { exact (to_low _ _ _ Hth). }
  cbn beta. intros r q1 (Hho & Hlow1 & Hr). pose proof Hho as (h1 & a1 & j1 & E1 & Ha1 & Ei1).
  assert (repr n q1 fl order own cont) as Hq1.
  { eapply hash_only_repr; [exact Hho|]. by destruct Hq. }
  assert (forall home, parents_ok home q -> parents_ok home q1) as Hpar1.
  { intros home Hpar. eapply parents_ok_same; [exact Hpar|by rewrite E1|]. unfold home_of. by rewrite E1; cbn; rewrite Ei1. }
  destruct r as [main1|].
  2:{ wp_step. destruct Hr as (Hfail & Hins1 & Hinv1). split; [by rewrite E1|rewrite E1; by destruct Htok|exact Hpar1|].
      right. left. split; [done|]. split; [done|]. split; [done|]. split; [|by exists fl, own].
      destruct Hth as [_ _ Hprod Hinj Hown Hexit]. split; [by exists main, m0, l, c|done|by rewrite E1|done|intros p x; rewrite E1; apply Hown|by rewrite E1]. }
  destruct Hr as ([Hcount1 Hres1] & m1 & l1 & t1 & Hinv1 & Ht1 & Hrepr1 & Hroom).
  pose proof (hr_wf _ _ _ _ _ Hrepr1) as [(e1 & He1 & Ecap1) _].
  assert (c + 1 < wrap sb (Z.shiftr (hash_capacity t1) 1 + Z.shiftr (hash_capacity t1) 2)) as Hlt.
  { pose proof (Z.pow_pos_nonneg 2 e1 ltac:(lia) ltac:(lia)). assert (2 ^ e1 < 2 ^ sb) by (apply Z.pow_lt_mono_r; lia).
    rewrite Ecap1, !Z.shiftr_div_pow2 in * by lia. change (2 ^ 1) with 2 in *. change (2 ^ 2) with 4.
    pose proof (Z.div_pos (2 ^ e1) 4 ltac:(lia) ltac:(lia)). pose proof (Z.mul_div_le (2 ^ e1) 2 ltac:(lia)).
    pose proof (Z.mul_div_le (2 ^ e1) 4 ltac:(lia)). rewrite wrap_small by lia. lia. }
  wp_step. apply wp_in_hash. eapply wp_table; [exact Ht1|].
  assert (set_q_hash (q_hash q1) q1 = q1) as Eq1 by (by destruct q1). rewrite Eq1, (proj2 (Z.ltb_lt _ _) Hlt).
  wp_step. eapply wp_mono; [by eapply (recycle_or_create_spec tr malloc_ok false j)| |done]. cbn beta. intros p q2 Hgot.
  assert (tokens_ok q1) as Htok1 by (rewrite E1; by destruct Htok).
  pose proof Hgot as [(Et2 & Eh2 & Ee2 & Ea2) Hpar2 Hna2 Hback2 Hshape2 Hcase2].
  assert (producers q1 = producers q /\ tokens q1 = tokens q /\ q_exit q1 = q_exit q) as (Eps1 & Et1 & Ee1) by (by rewrite E1).
  assert (next_address (q_mem q) <= next_address (q_mem q1)) as Hna1 by (by rewrite E1).
  destruct Hth as [_ _ Hprod Hinj Hown Hexit].
  assert (p <> nullptr -> (forall t' : loc, tokens q1 !! t' <> Some p) /\ (forall tid', m !! tid' <> Some p)) as Hunused.
  { intros Hp. destruct (got_producer_unused _ _ _ _ _ _ _ _ _ m Hgot Hp Hq1 Htok1) as [H1 H2]; [|done].
    intros tid' p' Hp'. destruct (Hprod tid' p' Hp') as (_ & x & Hx & Hi & _). exists x. by rewrite Eps1. }
  assert (tokens_ok q2) as Htok2.
  { eapply tokens_ok_shape; [exact Htok1|done|exact Hback2|]. intros t' p' Ht' Hp'. apply Hshape2. intros ->. by destruct (Hunused Hp') as [H1 _]; apply (H1 t'). }
  assert (forall tid' p', m !! tid' = Some p' -> p' <> nullptr /\
    exists x, producers q2 !! p' = Some x /\ p_inactive x = false /\ is_explicit (p_body x) = false) as Hprod2.
  { intros tid' p' Hp'. destruct (Hprod tid' p' Hp') as (Hnn & x & Hx & Hi & Hk'). split; [done|].
    assert (p' <> p) as Hne by (intros ->; by destruct (Hunused Hnn) as [_ H2]; apply (H2 tid')).
    specialize (Hshape2 p' Hne). rewrite Eps1, Hx in Hshape2. cbn in Hshape2. destruct (producers q2 !! p') as [y|]; [|done].
    cbn in Hshape2. injection Hshape2 as ? ? ? ?. exists y. split; [done|]. split; congruence. }
  assert (forall p' x, p' <> p -> producers q2 !! p' = Some x -> p_inactive x = false -> is_explicit (p_body x) = false ->
    exists tid', m !! tid' = Some p') as Hown2.
  { intros p' x Hne Hx Hi Hk'. specialize (Hshape2 p' Hne). rewrite Eps1, Hx in Hshape2. cbn in Hshape2.
    destruct (producers q !! p') as [y|] eqn:Hy; [|done]. cbn in Hshape2. injection Hshape2 as ? ? ? ?. apply (Hown p' y Hy); congruence. }
  destruct (Z.eqb_spec p nullptr) as [->|Hp].
  - wp_step. apply wp_in_hash. unfold uncount_slot. do 3 wp_step. wp_step.
    destruct Hcase2 as [(_ & Hfail & fl' & own' & Hq2)|(? & _)]; [|done].
    split; [cbn; congruence|by destruct Htok2|by intros home Hpar%Hpar1%Hpar2; eapply parents_ok_same|].
    right. left. split; [done|]. split; [done|]. split; [done|]. split.
    + split; cbn; [|intros y; cbn; rewrite Eh2; intros Hy%Hlow1; lia|done|done| |by rewrite Ee2, Ee1].
      2:{ intros p' x Hx. eapply Hown2; [|exact Hx]. intros ->.
          assert (nullptr ∈ order) as Hin by (apply (qr_dom _ _ _ _ _ _ _ _ Hq2); by exists x).
          apply (qr_addr _ _ _ _ _ _ _ _ Hq2) in Hin. unfold nullptr in Hin. lia. }
      exists main1, m1, l1, c. unfold inserting. cbn. rewrite Eh2. split; [by destruct Hinv1|].
      split; [|done]. split; [|done]. rewrite Hcount1.
      assert (2 ^ (sb - 2) < 2 ^ sb) by (apply Z.pow_lt_mono_r; lia). rewrite wrap_small by lia. lia.
    + exists fl', own'. by destruct Hq2.
  - destruct (Hunused Hp) as [Hun1 Hun2]. destruct Hcase2 as [(? & _)|(_ & (x & Hx & Hi & Hk') & Hcase2)]; [done|].
    wp_step. eapply wp_mono; [eapply (subscribe_producer_spec q2 m tid p); [by rewrite Ee2, Ee1|done|done|done]| |done].
    cbn beta. intros _ ? (ex & -> & Hex). wp_step.
    eapply wp_mono; [eapply (claim_thread_spec (set_q_exit ex q2) m c main1 tid p t1)| |done]; try done.
    + exists m1, l1, t1. cbn. by rewrite Eh2.
    + unfold inserting. cbn. by rewrite Eh2.
    + intros y. cbn. rewrite Eh2. intros Hy%Hlow1. lia.
    + lia.
    + assert (2 ^ (sb - 2) < 2 ^ sb) by (apply Z.pow_lt_mono_r; lia). lia.
    + cbn. by rewrite Eh2.
    + cbn beta. intros _ ? (h & -> & Ei4 & Hlow4 & main4 & m4 & l4 & c' & Hinv4 & Hins4 & Hc'). wp_step.
      split; [cbn; congruence|by destruct Htok2| |].
      { intros home Hpar%Hpar1%Hpar2. eapply parents_ok_same; [exact Hpar|done|]. unfold home_of. cbn. by rewrite Ei4. }
      right. right. split; [done|]. split; [done|]. split; [done|]. split.
      * split; [exists main4, m4, l4, c'; split; [done|]; split; [done|lia]|done| | | |done].
        -- intros tid' p' [[<- <-]|[_ Hp']]%lookup_insert_Some; [|by eapply Hprod2]. split; [done|]. by exists x.
        -- intros t1' t2' p' [[<- <-]|[Hn1 H1]]%lookup_insert_Some [[<- E2]|[Hn2 H2]]%lookup_insert_Some; try done.
           ++ by destruct (Hun2 t2').
           ++ subst p'. by destruct (Hun2 t1').
           ++ by eapply Hinj.
        -- intros p' y Hy Hyi Hyk. destruct (decide (p' = p)) as [->|Hne]; [exists tid; by rewrite lookup_insert_eq|].
           destruct (Hown2 p' y Hne Hy Hyi Hyk) as [tid' Ht']. exists tid'. rewrite lookup_insert_ne; [done|]. congruence.
      * destruct Hcase2 as [(Hin & _ & fl' & own' & Hq2)|(Hnew & fl' & own' & Hq2)]; [left|right].
        -- split; [done|]. split; [by rewrite <- Et1|]. exists fl', own'. by destruct Hq2.
        -- split; [done|]. exists fl', own'. by destruct Hq2.
Qed.

Lemma get_or_add_spec (j : nat) n q fl order own cont m (k : Z) tid :
  sb = 8 * 2 ^ Z.of_nat j -> repr n q fl order own cont -> zlength order + 1 < 2 ^ 32 -> 0 <= n -> tokens_ok q ->
  threads_ok q m k -> k + 1 < 2 ^ (sb - 2) -> valid tid ->
  wp (get_or_add_implicit_producer tr malloc_ok platform tls hash_bytes tid) (got_thread n q order cont m k tid) nothrow q.
Proof using TraitsOk0.
  intros Hsb Hq Hsmall Hn Htok Hth Hk Hid. pose proof (size_le_index tr).
  pose proof Hth as [(main & m0 & l & c & Hinv & Hins & Hc) Hlow Hprod Hinj Hown Hexit].
  unfold get_or_add_implicit_producer. wp_step. apply wp_in_hash. wp_step. rewrite (hi_main _ _ _ _ _ _ _ _ _ Hinv).
  wp_step. apply wp_in_hash. cbn [q_hash set_q_hash].
  eapply wp_mono; [by eapply (find_producer_spec tr platform hashf tls)| |done]. cbn beta.
  intros r h (-> & (m0' & Hinv') & Hdom & Eh). set (q1 := set_q_hash h (set_q_hash (q_hash q) q)).
  assert (repr n q1 fl order own cont) as Hq1 by (by destruct Hq).
  assert (inserting q1 c) as Hins1 by (destruct Hins; unfold inserting; cbn; by rewrite Eh).
  assert (threads_ok q1 m k) as Hth1.
  { split; [by exists main, m0', l, c| |done|done|done|done]. intros y. cbn. rewrite <- elem_of_dom, Hdom, elem_of_dom. apply Hlow. }
  assert (forall home, parents_ok home q -> parents_ok home q1) as Hpar1.
  { intros home Hpar. eapply parents_ok_same; [exact Hpar|done|]. unfold home_of. cbn. by rewrite Eh. }
  destruct (m !! tid) as [p|] eqn:Hm.
  - wp_step. split; [done|by destruct Htok|exact Hpar1|]. left. destruct (Hprod tid p Hm) as [Hp _]. split; [done|]. split; [done|]. split; [done|by exists fl, own].
  - wp_step. unfold count_slot. apply wp_in_hash. do 5 wp_step. destruct Hins1 as [Hcount1 Hres1]. rewrite Hcount1.
    assert (2 ^ (sb - 2) < 2 ^ sb) by (apply Z.pow_lt_mono_r; lia).
    rewrite !wrap_small by lia. replace (1 + c) with (c + 1) by lia.
    eapply wp_mono; [eapply (insert_thread_spec j 1 n q1 fl order own cont m k c tid main m0' l); try done; by destruct Htok| |done].
    cbn beta. intros p q' [? ? Hpar ?]. split; auto.
Qed.

(** ** The exit of a thread *)

Lemma thread_exits_spec home n q fl order own cont m (k : Z) tid :
  tls = true -> repr n q fl order own cont -> tokens_ok q -> parents_ok home q -> threads_ok q m k -> valid tid ->
  wp (thread_exits tr platform hash_bytes tid) (fun _ q' =>
    repr n q' fl order own cont /\ tokens q' = tokens q /\ tokens_ok q' /\ parents_ok home q' /\ threads_ok q' (delete tid m) k) nothrow q.
Proof using TraitsOk0.
  intros Htls Hq Htok Hpar Hth Hid. pose proof Hth as [(main & m0 & l & c & Hinv & Hins & Hc) Hlow Hprod Hinj Hown Hexit].
  destruct (Hexit Htls) as [Hex Hud]. unfold thread_exits, ThreadExitNotifier_dtor, tail_of. wp_step. apply wp_zoom. wp_step.
  do 3 wp_step. pose proof (ex_chain _ _ Hex tid) as Hchain. unfold listed in Hchain.
  assert (set_q_exit (q_exit q) q = q) as E0 by (by destruct q). rewrite E0.
  assert (forall e, tokens_ok q -> tokens_ok (set_q_exit e q)) as Htok1 by (by intros e []).
  assert (forall ls', unchained (listed m tid) (listeners (q_exit q)) ls' ->
    exit_inv (mkExit (delete tid (notifier_tail (q_exit q))) ls') (listed (delete tid m))) as Hgone.
  { intros ls' Hun. eapply exit_inv_ext; [by eapply exit_inv_exited|]. intros t. unfold update, listed.
    case_decide as E; [by rewrite E, lookup_delete_eq|by rewrite lookup_delete_ne]. }
  assert (forall cb f, notify (S := Q) q_exit set_q_exit cb f nullptr = ret tt) as Enull by (by intros cb []).
  destruct (m !! tid) as [p|] eqn:Hm; cbn in Hchain.
  - destruct Hchain as (-> & Hp & r & Hr & Hnext). destruct (Hud tid p Hm) as (r' & Hr' & Hudp). rewrite Hr in Hr'. injection Hr' as <-.
    destruct (Hprod tid p Hm) as (_ & x & Hx & Hi & Hk).
    assert (base.size (listeners (q_exit q)) <> O) as Hsize.
    { intros E%map_size_empty_iff. by rewrite E, lookup_empty in Hr. }
    destruct (base.size (listeners (q_exit q))) as [|f]; [done|]. cbn [notify]. rewrite (proj2 (Z.eqb_neq _ _) Hp).
    unfold store_chain. wp_step. apply wp_zoom. wp_step. eapply wp_listener; [exact Hr|]. apply wp_set_listener; [by exists r|].
    set (e1 := set_listeners _ (q_exit q)). wp_step. apply wp_zoom. eapply wp_listener; [apply lookup_insert_eq|]. cbn [userData].
    rewrite Hudp. assert (set_q_exit (q_exit (set_q_exit e1 q)) (set_q_exit e1 q) = set_q_exit e1 q) as E1 by done. rewrite E1.
    wp_step. unfold implicit_producer_thread_exited_callback. wp_step. eapply wp_producer; [exact Hx|]. wp_step. wp_step. wp_step.
    apply wp_cassert; [apply Z.eqb_eq, (proj2 Hpar p x Hx)|]. unfold implicit_producer_thread_exited. wp_step. apply wp_in_hash.
    eapply wp_mono; [by eapply (remove_thread_spec tr platform hashf)| |done]. cbn beta. intros _ h (Hinv' & Hdom & Eh).
    set (q2 := set_q_hash h _). eapply (wp_update_producer p _ x q2); [exact Hx|]. wp_step. apply wp_zoom.
    eapply wp_listener; [apply lookup_insert_eq|]. cbn [listener_next]. rewrite Hnext, Enull. wp_step. apply wp_zoom. wp_step.
    set (q3 := set_q_exit _ _).
    assert (producers q3 = <[p := set_p_inactive true x]> (producers q)) as Eps by done.
    assert (forall tid' p', tid' <> tid -> m !! tid' = Some p' -> p' <> p) as Hother.
    { intros tid' p' Hne Hp' ->. by apply Hne, (Hinj tid' tid p). }
    split; [|split; [done|split; [|split]]].
    + assert (repr n q2 fl order own cont) as Hq2 by (by destruct Hq).
      pose proof (queue_repr_put tr malloc_ok n q2 fl order own cont p x (set_p_inactive true x) Hq2 Hx eq_refl eq_refl) as Hq3. by destruct Hq3.
    + split; [|apply (tk_token_kept q); [done|done|]].
      * intros t' p' Ht' Hp'. destruct (tk_producer _ Htok t' p' Ht' Hp') as (y & Hy & Ey). exists y. rewrite Eps, lookup_insert_ne; [done|].
        intros <-. destruct Ey as (_ & _ & Ey). congruence.
      * intros p' y. rewrite Eps. intros [[<- <-]|[_ Hy]]%lookup_insert_Some _; [by exists x|by exists y].
    + eapply (parents_ok_insert home q q3); [done|exact Eps| |by apply (proj2 Hpar p x)]. unfold home_of. cbn. by rewrite Eh.
    + destruct Hins as [Hcount Hres]. split.
      * exists main, (delete tid m0), (removed tid l), c. split; [exact Hinv'|]. split; [split; cbn; by rewrite Eh|done].
      * intros y. cbn. rewrite <- elem_of_dom, Hdom, elem_of_dom. apply Hlow.
      * intros tid' p' [Hne Hp']%lookup_delete_Some. destruct (Hprod tid' p' Hp') as (Hnn & y & Hy & Hyi & Hyk). split; [done|].
        exists y. rewrite Eps, lookup_insert_ne; [done|]. apply not_eq_sym. by eapply Hother.
      * intros t1 t2 p' [_ H1]%lookup_delete_Some [_ H2]%lookup_delete_Some. by eapply Hinj.
      * intros p' y. rewrite Eps. destruct (decide (p' = p)) as [->|Hne]; [rewrite lookup_insert_eq; by intros [= <-]|].
        rewrite lookup_insert_ne by done. intros Hy Hyi Hyk. destruct (Hown p' y Hy Hyi Hyk) as [tid' Ht']. exists tid'.
        rewrite lookup_delete_ne; [done|]. congruence.
      * intros _. split.
        -- apply (Hgone (listeners e1)). intros y. unfold e1, listed. rewrite Hm. cbn. destruct (decide (y = p)) as [->|Hne].
           ++ rewrite lookup_insert_eq, decide_True by by apply list_elem_of_singleton. by rewrite Hr.
           ++ rewrite lookup_insert_ne by done. rewrite decide_False; [done|]. by rewrite list_elem_of_singleton.
        -- intros tid' p' [Hne Hp']%lookup_delete_Some. destruct (Hud tid' p' Hp') as (ry & Hry & Ey). exists ry. split; [|done].
           cbn. rewrite lookup_insert_ne; [done|]. apply not_eq_sym. by eapply Hother.
  - rewrite Hchain, Enull. wp_step. apply wp_zoom. wp_step.
    assert (delete tid m = m) as Em by (by apply delete_id). split; [by destruct Hq|]. split; [done|]. split; [by apply Htok1|].
    split; [done|]. rewrite Em in *. split; [by exists main, m0, l, c|done|done|done|done|]. intros _. split; [|done].
    apply (Hgone (listeners (q_exit q))). intros x. unfold listed. rewrite Hm. cbn. by rewrite decide_False by apply not_elem_of_nil.
Qed.

(** ** Enqueue without a token *)

Definition not_pushed (items : list U) n q order cont q' : Prop :=
  (exists u, u ∈ items /\ make ops u = None) /\ stable q q' /\ exists fl' own', repr n q' fl' order own' cont.

(** A call on an implicit producer of the queue. *)
Lemma implicit_call_spec (f : M (IState T) bool) allocMode items (d : Z) n q fl order own cont p x :
  repr n q fl order own cont -> producers q !! p = Some x -> is_explicit (p_body x) = false -> 0 <= d ->
  (forall (s : IState T) (h t : Z) fi, implicit_inv tr malloc_ok s fl h t fi (own p) (cont p) ->
    wp f (fun ok s' => exists fl' f' bs', mem_frame (own p) (imem s) fl bs' (imem s') fl' /\ zlength bs' <= zlength (own p) + d /\
        if ok : bool then exists vs (t' : Z), made_of ops items vs /\ implicit_inv tr malloc_ok s' fl' h t' f' bs' (cont p ++ vs)
        else implicit_inv tr malloc_ok s' fl' h t f' bs' (cont p) /\ may_refuse tr malloc_ok allocMode (cont p) (zlength items))
      (fun s' => (exists u, u ∈ items /\ make ops u = None) /\ exists fl',
        implicit_inv tr malloc_ok s' fl' h t fi (own p) (cont p) /\ mem_frame (own p) (imem s) fl (own p) (imem s') fl') s) ->
  wp (on_implicit p f) (pushed tr ops malloc_ok allocMode items (n + d) q order cont p) (not_pushed items (n + d) q order cont) q.
Proof using TraitsOk0.
  intros Hq Hx Hk Hd Hf. pose proof (qr_sub _ _ _ _ _ _ _ _ Hq p x Hx) as Hsub.
  assert (p ∈ order) as Hin by (apply (qr_dom _ _ _ _ _ _ _ _ Hq); by exists x). pose proof (qr_small _ _ _ _ _ _ _ _ Hq p Hin) as Hsz.
  destruct (p_body x) as [|i] eqn:Eb; [done|]. destruct Hsub as (h & t & fi & Hinv).
  assert (forall y, upd cont p (cont p) y = cont y) as Hsame by (intros y; unfold upd; by case_decide; subst).
  eapply wp_on_implicit; [done|done|]. eapply wp_mono; [by eapply Hf| |]; cbn beta.
  - intros ok [i' m'] (fl' & f' & bs' & Hfr & Hbs & Hpost). cbn [iprod imem] in *.
    split; [apply stable_with_body; [done|by rewrite Eb|apply Hfr]|]. exists fl', (upd own p bs'). destruct ok.
    + destruct Hpost as (vs & t' & Hvs & Hinv'). exists vs. split; [done|].
      eapply (queue_repr_update tr malloc_ok n); [done|exact Hx| |done|lia|lia]. by exists h, t', f'.
    + destruct Hpost as [Hinv' Hwhy]. split; [|done].
      eapply queue_repr_contents; [eapply (queue_repr_update tr malloc_ok n); [done|exact Hx| |done|lia|lia]|].
      * by exists h, t, f'.
      * exact Hsame.
  - intros [i' m'] (Hbad & fl' & Hinv' & Hfr). cbn [iprod imem] in *.
    split; [done|]. split; [apply stable_with_body; [done|by rewrite Eb|apply Hfr]|]. exists fl', (upd own p (own p)).
    eapply queue_repr_contents; [eapply (queue_repr_update tr malloc_ok n); [done|exact Hx| |done|lia|lia]|].
    + by exists h, t, fi.
    + exact Hsame.
Qed.

Section enqueue.
Context (Hnoexcept : noexcept_ctor ops = true -> forall u, make ops u <> None).

Lemma implicit_enqueue_spec allocMode u n q fl order own cont p x :
  repr n q fl order own cont -> producers q !! p = Some x -> is_explicit (p_body x) = false -> n * B < 2 ^ (sb - 1) ->
  wp (on_implicit p (ImplicitProducer_enqueue tr ops malloc_ok indeterminate allocMode u))
    (pushed tr ops malloc_ok allocMode [u] (n + 1) q order cont p) (not_pushed [u] (n + 1) q order cont) q.
Proof using TraitsOk0 Hnoexcept.
  intros Hq Hx Hk Hsmall. pose proof (block_size_gt_1 tr). eapply implicit_call_spec; [done|done|done|lia|].
  assert (p ∈ order) as Hin by (apply (qr_dom _ _ _ _ _ _ _ _ Hq); by exists x). pose proof (qr_small _ _ _ _ _ _ _ _ Hq p Hin) as Hsz.
  intros s h t fi Hinv. eapply wp_mono; [eapply (i_enqueue_spec tr ops malloc_ok indeterminate Hnoexcept); [done|nia]| |]; cbn beta.
  - intros ok s' (fl' & bs' & Hfr & Hbs & Hpost). exists fl', fi, bs'. split; [done|]. split; [done|]. destruct ok.
    + destruct Hpost as (v & Hv & Hinv'). exists [v], (t + 1). split; [|done]. by repeat constructor.
    + destruct Hpost as (Hinv' & _ & Hwhy). split; [done|]. destruct Hwhy as [Hroom|Hmem]; [right|by left].
      exists 0. split; [unfold zlength; cbn; lia|]. rewrite <- (Z.sub_diag t). eapply no_space_of; [apply Hinv|done].
  - intros s' (Hu & fl' & Hinv' & Hfr). split; [|by exists fl']. exists u. split; [by left|done].
Qed.

Lemma implicit_enqueue_bulk_spec allocMode items n q fl order own cont p x :
  (is_trivially_destructible ops = true -> forall u, make ops u <> None) ->
  repr n q fl order own cont -> producers q !! p = Some x -> is_explicit (p_body x) = false ->
  (n + zlength items / B + 1) * B < 2 ^ (sb - 1) ->
  wp (on_implicit p (ImplicitProducer_enqueue_bulk tr ops malloc_ok indeterminate allocMode items (zlength items)))
    (pushed tr ops malloc_ok allocMode items (n + (zlength items / B + 1)) q order cont p)
    (not_pushed items (n + (zlength items / B + 1)) q order cont) q.
Proof using TraitsOk0 Hnoexcept.
  intros Htrivial Hq Hx Hk Hsmall. pose proof (block_size_gt_1 tr). pose proof (zlength_nonneg items).
  pose proof (Z.div_pos (zlength items) B ltac:(lia) ltac:(lia)). eapply implicit_call_spec; [done|done|done|lia|].
  assert (p ∈ order) as Hin by (apply (qr_dom _ _ _ _ _ _ _ _ Hq); by exists x). pose proof (qr_small _ _ _ _ _ _ _ _ Hq p Hin) as Hsz.
  intros s h t fi Hinv. eapply wp_mono; [eapply (i_enqueue_bulk_spec tr ops malloc_ok indeterminate Hnoexcept Htrivial); [done|lia|nia]| |]; cbn beta.
  - intros ok s' (fl' & bs' & Hfr & Hbs & Hpost). exists fl', fi, bs'. split; [done|]. split; [lia|]. destruct ok.
    + destruct Hpost as (vs & Hvs & Hmade & Hinv'). exists vs, (t + zlength items). split; [by apply made_whole|done].
    + destruct Hpost as (Hinv' & Hwhy). split; [done|]. destruct Hwhy as [(u & Hu & _ & Hroom)|Hmem]; [right|by left].
      exists (u - t). split; [lia|]. eapply no_space_of; [apply Hinv|done].
  - intros s' ((k & _ & u & Hu & Hfail) & fl' & Hinv' & Hfr). split; [|by exists fl']. exists u. split; [by eapply list_elem_of_lookup_2|done].
Qed.
End enqueue.
End threads.
