(* ===== verification/Client.v ===== *)
(** What the clients of a [ConcurrentQueue] see: the calls they make, the
    abstract queue that should answer them -- a list of FIFO queues, one per
    producer, and the producer of each token and of each thread -- and the
    answers it may give. *)

From S2P Require Import Prelude MachineInt Traits FreeList Block BlockPool ProducerBase ExplicitProducer Contents Fifo ExplicitEnqueueBulk ExplicitQueue ThreadExit ImplicitHashProofs SubQueues SubQueuesProofs ConcurrentQueue QueueInvariant.

(** * Calls *)

(** Tokens, of both kinds, are named by their addresses; threads that enqueue
    without a token by their ids. *)
Inductive client_call (U : Type) :=
  | NewToken (t : loc)
  | DropToken (t : loc)
  | NewConsumer (ct : loc)
  | EnqueueWith (allocMode : AllocationMode) (t : loc) (u : U)
  | EnqueueBulkWith (allocMode : AllocationMode) (t : loc) (items : list U)
  | EnqueueFrom (allocMode : AllocationMode) (tid : Z) (u : U)
  | EnqueueBulkFrom (allocMode : AllocationMode) (tid : Z) (items : list U)
  | ThreadExits (tid : Z)
  | TryDequeue
  | TryDequeueNonInterleaved
  | TryDequeueBulk (max : Z)
  | TryDequeueWith (ct : loc)
  | TryDequeueBulkWith (ct : loc) (max : Z)
  | TryDequeueFrom (t : loc)
  | SizeApprox.
Arguments NewToken {U}. Arguments DropToken {U}. Arguments NewConsumer {U}. Arguments EnqueueWith {U}.
Arguments EnqueueBulkWith {U}. Arguments EnqueueFrom {U}. Arguments EnqueueBulkFrom {U}. Arguments ThreadExits {U}.
Arguments TryDequeue {U}. Arguments TryDequeueNonInterleaved {U}. Arguments TryDequeueBulk {U}.
Arguments TryDequeueWith {U}. Arguments TryDequeueBulkWith {U}. Arguments TryDequeueFrom {U}. Arguments SizeApprox {U}.

Inductive client_answer (R : Type) :=
  | Done
  | TokenValid (ok : bool)
  | NotValid
  | Accepted (ok : bool)
  | Threw
  | Got (r : option R)
  | GotMany (rs : list R)
  | Size (n : Z).
Arguments Done {R}. Arguments TokenValid {R}. Arguments NotValid {R}. Arguments Accepted {R}. Arguments Threw {R}.
Arguments Got {R}. Arguments GotMany {R}. Arguments Size {R}.

(** * The abstract queue *)

(** [v_order] lists the producers as the queue links them. *)
Record view (R : Type) := mkView {
  v_order : list loc;
  v_queues : gmap loc (list R);
  v_tokens : gmap loc loc;
  v_threads : gmap Z loc
}.
Arguments mkView {R}. Arguments v_order {R}. Arguments v_queues {R}. Arguments v_tokens {R}. Arguments v_threads {R}.

Section client.
Context {U T R : Type} (tr : Traits) `{!TraitsOk tr} (ops : ElementOps U T R).
Context (malloc_ok : nat -> bool) (indeterminate : Indeterminate).
Context (platform : ThreadIdPlatform) (tls : bool) (hash_bytes : Z).
#[local] Abbreviation Q := (ConcurrentQueue T).
#[local] Abbreviation sb := (size_bits tr).
Implicit Types (v : view R) (c : list R) (p t : loc) (tid : Z) (q : Q) (m : gmap Z loc).

Definition content v p : list R := default [] (v_queues v !! p).
Definition content_of v (l : list loc) : list R := concat (content v <$> l).
Definition all_content v : list R := content_of v (v_order v).
Definition nothing_in v : Prop := forall p, p ∈ v_order v -> content v p = [].

(** The producer [p] holds [c]. *)
Definition put p c v : view R := mkView (v_order v) (<[p := c]> (v_queues v)) (v_tokens v) (v_threads v).
Definition add p v : view R := mkView (p :: v_order v) (<[p := []]> (v_queues v)) (v_tokens v) (v_threads v).
Definition give t p v : view R := mkView (v_order v) (v_queues v) (<[t := p]> (v_tokens v)) (v_threads v).
Definition take_back t v : view R := mkView (v_order v) (v_queues v) (delete t (v_tokens v)) (v_threads v).
Definition hire tid p v : view R := mkView (v_order v) (v_queues v) (v_tokens v) (<[tid := p]> (v_threads v)).
Definition retire tid v : view R := mkView (v_order v) (v_queues v) (v_tokens v) (delete tid (v_threads v)).

(** The producer [p] of the thread [tid]: none for want of memory, the one it
    has, one that is not in use, with what was left in it, or a new one. *)
Inductive acquires v tid : loc -> view R -> Prop :=
  | acquires_known p : v_threads v !! tid = Some p -> p ∈ v_order v -> p <> nullptr -> acquires v tid p v
  | acquires_none : v_threads v !! tid = None -> (exists k, malloc_ok k = false) -> acquires v tid nullptr v
  | acquires_inherits p :
      v_threads v !! tid = None -> p <> nullptr -> p ∈ v_order v -> (forall t, v_tokens v !! t <> Some p) ->
      (forall tid', v_threads v !! tid' <> Some p) -> acquires v tid p (hire tid p v)
  | acquires_new p :
      v_threads v !! tid = None -> p <> nullptr -> (p ∉ v_order v) -> acquires v tid p (hire tid p (add p v)).

(** What an enqueue with a token adds. *)
Definition enqueues_with (x : client_call U) : option (AllocationMode * loc * list U) :=
  match x with
  | EnqueueWith allocMode t u => Some (allocMode, t, [u])
  | EnqueueBulkWith allocMode t items => Some (allocMode, t, items)
  | _ => None
  end.

(** What the thread of an enqueue without a token adds. *)
Definition enqueues_from (x : client_call U) : option (AllocationMode * Z * list U) :=
  match x with
  | EnqueueFrom allocMode tid u => Some (allocMode, tid, [u])
  | EnqueueBulkFrom allocMode tid items => Some (allocMode, tid, items)
  | _ => None
  end.

(** The candidates of [try_dequeue]: the first three producers with elements. *)
Definition candidates v : list loc := take 3 (filter (fun p => content v p <> []) (v_order v)).

(** What a consumer receives for an element made from [u]. *)
Definition passed (u : U) : option R := v ← make ops u; assign ops v.

(** One call.  A token is not valid when there was no memory for its producer;
    a new token may inherit what was left in a producer that is not in use. *)
Inductive step : view R -> client_call U -> client_answer R -> view R -> Prop :=
  | step_token_failed v t :
      (exists k, malloc_ok k = false) -> step v (NewToken t) (TokenValid false) (give t nullptr v)
  | step_token_inherits v t p :
      p <> nullptr -> p ∈ v_order v -> (forall t', v_tokens v !! t' <> Some p) ->
      (forall tid, v_threads v !! tid <> Some p) -> step v (NewToken t) (TokenValid true) (give t p v)
  | step_token_new v t p :
      p <> nullptr -> (p ∉ v_order v) -> step v (NewToken t) (TokenValid true) (give t p (add p v))
  | step_drop v t : step v (DropToken t) Done (take_back t v)
  | step_consumer v ct : step v (NewConsumer ct) Done v
  | step_enqueue v x allocMode t items p rs :
      enqueues_with x = Some (allocMode, t, items) -> v_tokens v !! t = Some p -> p ∈ v_order v ->
      Forall2 (fun u r => passed u = Some r) items rs -> step v x (Accepted true) (put p (content v p ++ rs) v)
  | step_enqueue_refused v x allocMode t items p :
      enqueues_with x = Some (allocMode, t, items) -> v_tokens v !! t = Some p -> p ∈ v_order v ->
      may_refuse tr malloc_ok allocMode (content v p) (zlength items) -> step v x (Accepted false) v
  | step_enqueue_invalid v x allocMode t items :
      enqueues_with x = Some (allocMode, t, items) -> v_tokens v !! t = Some nullptr -> step v x NotValid v
  | step_from_thread v x allocMode tid items p v1 rs :
      enqueues_from x = Some (allocMode, tid, items) -> acquires v tid p v1 -> p <> nullptr ->
      Forall2 (fun u r => passed u = Some r) items rs -> step v x (Accepted true) (put p (content v1 p ++ rs) v1)
  | step_from_thread_refused v x allocMode tid items p v1 :
      enqueues_from x = Some (allocMode, tid, items) -> acquires v tid p v1 ->
      p = nullptr \/ may_refuse tr malloc_ok allocMode (content v1 p) (zlength items) -> step v x (Accepted false) v1
  | step_from_thread_threw v x allocMode tid items p v1 u :
      enqueues_from x = Some (allocMode, tid, items) -> acquires v tid p v1 -> p <> nullptr ->
      u ∈ items -> make ops u = None -> step v x Threw v1
  | step_from_thread_disabled v x allocMode tid items :
      enqueues_from x = Some (allocMode, tid, items) -> INITIAL_IMPLICIT_PRODUCER_HASH_SIZE tr = 0 ->
      step v x (Accepted false) v
  | step_thread_exits v tid : step v (ThreadExits tid) Done (retire tid v)
  | step_dequeue v p r c :
      p ∈ candidates v -> (forall p', p' ∈ candidates v -> zlength (content v p') <= zlength (content v p)) ->
      content v p = r :: c -> step v TryDequeue (Got (Some r)) (put p c v)
  | step_dequeue_none v : nothing_in v -> step v TryDequeue (Got None) v
  | step_first v before p after r c :
      v_order v = before ++ p :: after -> (forall p', p' ∈ before -> content v p' = []) ->
      content v p = r :: c -> step v TryDequeueNonInterleaved (Got (Some r)) (put p c v)
  | step_first_none v : nothing_in v -> step v TryDequeueNonInterleaved (Got None) v
  | step_bulk v max v' :
      v_order v' = v_order v -> v_tokens v' = v_tokens v -> v_threads v' = v_threads v ->
      (forall p, exists k, v_queues v' !! p = drop k <$> v_queues v !! p) ->
      all_content v' = drop (Z.to_nat max) (all_content v) ->
      step v (TryDequeueBulk max) (GotMany (take (Z.to_nat max) (all_content v))) v'
  | step_with v ct p r c :
      p ∈ v_order v -> content v p = r :: c -> step v (TryDequeueWith ct) (Got (Some r)) (put p c v)
  | step_with_none v ct : nothing_in v -> step v (TryDequeueWith ct) (Got None) v
  | step_bulk_with v ct max v' before after :
      v_order v = before ++ after -> v_order v' = v_order v -> v_tokens v' = v_tokens v -> v_threads v' = v_threads v ->
      (forall p, exists k, v_queues v' !! p = drop k <$> v_queues v !! p) ->
      content_of v' (after ++ before) = drop (Z.to_nat max) (content_of v (after ++ before)) ->
      step v (TryDequeueBulkWith ct max) (GotMany (take (Z.to_nat max) (content_of v (after ++ before)))) v'
  | step_from v t p r c :
      v_tokens v !! t = Some p -> p ∈ v_order v -> content v p = r :: c ->
      step v (TryDequeueFrom t) (Got (Some r)) (put p c v)
  | step_from_none v t p :
      v_tokens v !! t = Some p -> p ∈ v_order v -> content v p = [] -> step v (TryDequeueFrom t) (Got None) v
  | step_from_invalid v t : v_tokens v !! t = Some nullptr -> step v (TryDequeueFrom t) NotValid v
  | step_size v : step v SizeApprox (Size (wrap sb (zlength (all_content v)))) v.

Inductive steps : view R -> list (client_call U) -> list (client_answer R) -> view R -> Prop :=
  | steps_nil v : steps v [] [] v
  | steps_cons v x a v1 l rs v2 : step v x a v1 -> steps v1 l rs v2 -> steps v (x :: l) (a :: rs) v2.

(** ** The view of a queue *)

(** The hash maps the threads to their producers as [m] does. *)
Definition view_of m q : view R :=
  mkView (order_of q) (map_imap (fun p _ => Some (contents_of tr ops q p)) (producers q)) (tokens q) m.

(** * The calls on the real queue, with the consumer tokens of the client *)

#[local] Abbreviation C := (Q * gmap loc ConsumerToken)%type.

Definition on_queue {A} (f : M Q A) : M C A := zoom fst (fun q s => (q, snd s)) f.
Definition with_consumer {A} (ct : loc) (f : M (Q * ConsumerToken) A) : M C A :=
  let! cts := gets snd in
  let! token := deref NullDeref (cts !! ct) in
  zoom (fun s => (fst s, token)) (fun qt s => (fst qt, <[ct := snd qt]> (snd s))) f.
(** A client checks [valid] before it uses a token. *)
Definition if_valid (t : loc) (f : M Q (client_answer R)) : M C (client_answer R) :=
  on_queue (let! ok := ProducerToken_valid t in if ok : bool then f else ret NotValid).

(** [enqueue], [try_enqueue], [enqueue_bulk] and [try_enqueue_bulk]. *)
Definition enqueue_from (allocMode : AllocationMode) tid (u : U) : M Q bool :=
  match allocMode with
  | CanAlloc => queue_enqueue tr ops malloc_ok indeterminate platform tls hash_bytes tid u
  | CannotAlloc => queue_try_enqueue tr ops malloc_ok indeterminate platform tls hash_bytes tid u
  end.
Definition enqueue_with (allocMode : AllocationMode) t (u : U) : M Q bool :=
  match allocMode with
  | CanAlloc => queue_enqueue_token tr ops malloc_ok indeterminate t u
  | CannotAlloc => queue_try_enqueue_token tr ops malloc_ok indeterminate t u
  end.
Definition enqueue_bulk_with (allocMode : AllocationMode) t (items : list U) : M Q bool :=
  match allocMode with
  | CanAlloc => queue_enqueue_bulk_token tr ops malloc_ok indeterminate t items (zlength items)
  | CannotAlloc => queue_try_enqueue_bulk_token tr ops malloc_ok indeterminate t items (zlength items)
  end.
Definition enqueue_bulk_from (allocMode : AllocationMode) tid (items : list U) : M Q bool :=
  match allocMode with
  | CanAlloc => queue_enqueue_bulk tr ops malloc_ok indeterminate platform tls hash_bytes tid items (zlength items)
  | CannotAlloc => queue_try_enqueue_bulk tr ops malloc_ok indeterminate platform tls hash_bytes tid items (zlength items)
  end.
Definition accepted_or_threw (f : M Q bool) : M Q (client_answer R) :=
  try_catch (let! ok := f in ret (Accepted ok)) (ret Threw).

Definition client (x : client_call U) : M C (client_answer R) :=
  match x with
  | NewToken t => on_queue (ProducerToken_ctor tr malloc_ok t;; let! ok := ProducerToken_valid t in ret (TokenValid ok))
  | DropToken t => on_queue (ProducerToken_dtor t;; ret Done)
  | NewConsumer ct =>
      let! token := on_queue new_consumer_token in modify (fun s => (fst s, <[ct := token]> (snd s)));; ret Done
  | EnqueueWith allocMode t u =>
      if_valid t (let! ok := enqueue_with allocMode t u in ret (Accepted ok))
  | EnqueueBulkWith allocMode t items =>
      if_valid t (let! ok := enqueue_bulk_with allocMode t items in ret (Accepted ok))
  | EnqueueFrom allocMode tid u => on_queue (accepted_or_threw (enqueue_from allocMode tid u))
  | EnqueueBulkFrom allocMode tid items => on_queue (accepted_or_threw (enqueue_bulk_from allocMode tid items))
  | ThreadExits tid => on_queue (thread_exits tr platform hash_bytes tid;; ret Done)
  | TryDequeue => on_queue (let! r := queue_try_dequeue tr ops in ret (Got r))
  | TryDequeueNonInterleaved => on_queue (let! r := queue_try_dequeue_non_interleaved tr ops in ret (Got r))
  | TryDequeueBulk max => on_queue (let! rs := queue_try_dequeue_bulk tr ops max in ret (GotMany rs))
  | TryDequeueWith ct => with_consumer ct (let! r := queue_try_dequeue_token tr ops in ret (Got r))
  | TryDequeueBulkWith ct max => with_consumer ct (let! rs := queue_try_dequeue_bulk_token tr ops max in ret (GotMany rs))
  | TryDequeueFrom t => if_valid t (let! r := try_dequeue_from_producer tr ops t in ret (Got r))
  | SizeApprox => on_queue (let! n := queue_size_approx tr (SubQueues0 := queue_sub_queues tr ops) in ret (Size n))
  end.

Fixpoint run_clients (l : list (client_call U)) : M C (list (client_answer R)) :=
  match l with
  | [] => ret []
  | x :: l => let! a := client x in let! rs := run_clients l in ret (a :: rs)
  end.

(** ** Well-formed scripts

    [ts] and [cts] are the live tokens.  A token is created once and used while
    it lives; what is enqueued with a token is made by a constructor that does
    not throw, and in bulk only where nothing can refuse the blocks.  Threads have ids that are valid keys, and their exit is noticed
    where [thread_local] is supported. *)
Definition call_ok (ts cts : gset loc) (x : client_call U) : Prop :=
  match x with
  | NewToken t => t ∉ ts
  | DropToken t | TryDequeueFrom t => t ∈ ts
  | EnqueueWith _ t u => t ∈ ts /\ make ops u <> None
  | EnqueueBulkWith allocMode t items => t ∈ ts /\ constructible ops items /\ unlimited tr malloc_ok allocMode
  | EnqueueFrom _ tid _ | EnqueueBulkFrom _ tid _ => valid_id platform tid
  | ThreadExits tid => tls = true /\ INITIAL_IMPLICIT_PRODUCER_HASH_SIZE tr <> 0 /\ valid_id platform tid
  | TryDequeueBulk max => 0 <= max < 2 ^ sb
  | TryDequeueWith ct => ct ∈ cts
  | TryDequeueBulkWith ct max => ct ∈ cts /\ 0 <= max < 2 ^ sb
  | _ => True
  end.

Definition live_after (ts : gset loc) (x : client_call U) : gset loc :=
  match x with NewToken t => {[t]} ∪ ts | DropToken t => ts ∖ {[t]} | _ => ts end.
Definition consumers_after (cts : gset loc) (x : client_call U) : gset loc :=
  match x with NewConsumer ct => {[ct]} ∪ cts | _ => cts end.

Fixpoint script_ok (ts cts : gset loc) (l : list (client_call U)) : Prop :=
  match l with
  | [] => True
  | x :: l => call_ok ts cts x /\ script_ok (live_after ts x) (consumers_after cts x) l
  end.

Lemma script_ok_app ts cts l l' :
  script_ok ts cts (l ++ l') <-> script_ok ts cts l /\ script_ok (foldl live_after ts l) (foldl consumers_after cts l) l'.
Proof using Type. revert ts cts. induction l as [|x l IH]; intros ts cts; cbn; [tauto|]. rewrite IH. tauto. Qed.

(** The blocks a call may add to a producer, at most. *)
Definition cost (x : client_call U) : Z :=
  match x with EnqueueBulkFrom _ _ items | EnqueueBulkWith _ _ items => zlength items / BLOCK_SIZE tr + 1 | _ => 1 end.
Definition total_cost (l : list (client_call U)) : Z := foldr (fun x n => cost x + n) 0 l.

Lemma total_cost_app l l' : total_cost (l ++ l') = total_cost l + total_cost l'.
Proof using Type. induction l as [|x l IH]; [done|]. cbn [app total_cost foldr]. fold (total_cost (l ++ l')) (total_cost l). lia. Qed.
End client.
