(* ===== verification/ClientProofs.v ===== *)
(** A [ConcurrentQueue] answers the calls of its clients as the abstract queue
    of Client.v may. *)

From S2P Require Import Prelude MachineInt Traits FreeList Block BlockPool ProducerBase ProducerBaseProofs ExplicitProducer Contents Fifo ExplicitSpec ExplicitIndex ExplicitProofs ExplicitBulk ExplicitInject ExplicitEnqueueBulk ExplicitQueue ImplicitProducer ImplicitSpec ImplicitIndex ImplicitProofs ImplicitBulk ImplicitQueue ThreadExit ImplicitHash ImplicitHashProofs SubQueues SubQueuesProofs ConcurrentQueue QueueInvariant QueueTokens QueueThreads Client.

Section client.
Context {U T R : Type} (tr : Traits) `{!TraitsOk tr} (ops : ElementOps U T R).
Context (malloc_ok : nat -> bool) (indeterminate : Indeterminate).
Context (platform : ThreadIdPlatform) (tls : bool) (hash_bytes : Z) (home : loc * loc).
Context (Hassign : forall v, assign ops v <> None).
#[local] Abbreviation sb := (size_bits tr).
#[local] Abbreviation B := (BLOCK_SIZE tr).
#[local] Abbreviation Q := (ConcurrentQueue T).
#[local] Abbreviation C := (Q * gmap loc ConsumerToken)%type.
#[local] Abbreviation repr := (queue_repr tr malloc_ok).
#[local] Abbreviation view_of := (view_of tr ops).
#[local] Abbreviation contents_of := (contents_of tr ops).
#[local] Abbreviation received := (received ops).
#[local] Existing Instance queue_sub_queues.
Implicit Types (q : Q) (fl order : list loc) (c : list T) (p t : loc) (cs : gmap loc ConsumerToken).
Implicit Types (tks : gmap loc loc) (own : loc -> list loc) (cont : loc -> list T) (n : Z) (ts cts : gset loc) (m : gmap Z loc).

Definition small n : Prop := n * B < 2 ^ (sb - 1).

(** ** Views *)

Lemma view_queues m n q p :
  queue_good tr malloc_ok n q ->
  v_queues (view_of m q) !! p = if decide (p ∈ order_of q) then Some (contents_of q p) else None.
Proof using Type.
  intros (fl & order & own & cont & Hq). rewrite (order_of_spec _ _ _ _ _ _ _ _ Hq). cbn. rewrite map_lookup_imap.
  case_decide as Hp.
  - by destruct (qr_member _ _ _ _ _ _ _ _ _ Hq Hp) as (x & -> & _).
  - destruct (producers q !! p) as [x|] eqn:Hx; [|done]. destruct Hp. apply (qr_dom _ _ _ _ _ _ _ _ Hq). by exists x.
Qed.

Lemma content_view m n q p : queue_good tr malloc_ok n q -> content (view_of m q) p = contents_of q p.
Proof using Type.
  intros Hq. unfold content. rewrite (view_queues m n) by done. case_decide as Hp; [done|]. symmetry.
  destruct Hq as (fl & order & own & cont & Hq). rewrite (order_of_spec _ _ _ _ _ _ _ _ Hq) in Hp.
  by eapply contents_of_other.
Qed.

Lemma content_repr m n q fl order own cont p :
  repr n q fl order own cont -> small n -> p ∈ order -> content (view_of m q) p = received (cont p).
Proof using TraitsOk0 Hassign.
  intros Hq Hn Hp. rewrite (content_view m n) by (by exists fl, order, own, cont). by eapply (contents_of_spec tr ops malloc_ok).
Qed.

Lemma view_eq (v v' : view R) :
  v_order v = v_order v' -> v_tokens v = v_tokens v' -> v_threads v = v_threads v' -> (forall p, v_queues v !! p = v_queues v' !! p) -> v = v'.
Proof using Type. destruct v, v'. cbn. intros -> -> -> E%map_eq. by subst. Qed.

(** The contents of [p] became [c]. *)
Lemma view_put m n n' q q' p rs :
  queue_good tr malloc_ok n q -> queue_good tr malloc_ok n' q' -> tokens q' = tokens q -> order_of q' = order_of q ->
  p ∈ order_of q -> (forall p', contents_of q' p' = if decide (p' = p) then rs else contents_of q p') ->
  view_of m q' = put p rs (view_of m q).
Proof using Type.
  intros Hq Hq' Et Eo Hp Hc. apply view_eq; [done|done|done|]. intros p'. rewrite (view_queues m n') by done. cbn [put v_queues].
  rewrite Eo, Hc. destruct (decide (p' = p)) as [->|Hne].
  - by rewrite lookup_insert_eq, decide_True.
  - by rewrite lookup_insert_ne, (view_queues m n).
Qed.

Lemma view_same m n n' q q' :
  queue_good tr malloc_ok n q -> queue_good tr malloc_ok n' q' -> tokens q' = tokens q -> order_of q' = order_of q ->
  (forall p, contents_of q' p = contents_of q p) -> view_of m q' = view_of m q.
Proof using Type.
  intros Hq Hq' Et Eo Hc. apply view_eq; [done|done|done|]. intros p. rewrite (view_queues m n'), (view_queues m n) by done.
  by rewrite Eo, Hc.
Qed.

(** ** The state of the clients *)

(** The queue is at [home]; at most [n] blocks per producer, at most [k]
    producers; the live tokens
    are [ts] and [cts]; the producers of the threads are given by [m]. *)
Record client_ok m n (k : Z) ts cts (s : C) : Prop := {
  co_queue : queue_good tr malloc_ok n (fst s);
  co_tokens : tokens_ok (fst s);
  co_parents : parents_ok home (fst s);
  co_threads : INITIAL_IMPLICIT_PRODUCER_HASH_SIZE tr <> 0 -> threads_ok tr platform tls hash_bytes (fst s) m k;
  co_no_threads : INITIAL_IMPLICIT_PRODUCER_HASH_SIZE tr = 0 -> m = ∅ /\ all_owned (fst s) ∅;
  co_live : dom (tokens (fst s)) = ts;
  co_producers : zlength (order_of (fst s)) <= k;
  co_consumers : forall ct, ct ∈ cts -> exists token, snd s !! ct = Some token /\
    (desiredProducer token = nullptr \/ desiredProducer token ∈ order_of (fst s) /\ currentProducer token ∈ order_of (fst s))
}.

Lemma queue_good_mono n n' q : queue_good tr malloc_ok n q -> n <= n' -> queue_good tr malloc_ok n' q.
Proof using Type. intros (fl & order & own & cont & Hq) Hn. exists fl, order, own, cont. by eapply queue_repr_mono. Qed.

(** What consumers leave as it was. *)
Lemma client_ok_stable m n n' k ts cts q q' cs :
  client_ok m n k ts cts (q, cs) -> queue_good tr malloc_ok n' q' -> stable q q' -> order_of q' = order_of q ->
  client_ok m n' k ts cts (q', cs).
Proof using Type.
  intros [] Hq' Hst Eo. cbn [fst snd] in *. assert (tokens q' = tokens q) as Et by (by destruct Hst as [(? & ? & ? & ->) _]).
  split; cbn [fst snd]; rewrite ?Et, ?Eo; try done; [by eapply tokens_ok_stable|by eapply parents_ok_stable|..].
  - intros Hsize. eapply threads_ok_kept; [by auto|by apply stable_implicit_kept|done].
  - intros [-> Hown]%co_no_threads0. split; [done|]. by eapply all_owned_kept, stable_implicit_kept.
Qed.

Lemma token_valid m q ts cts n k cs t :
  client_ok m n k ts cts (q, cs) -> t ∈ ts -> exists p, tokens q !! t = Some p.
Proof using Type. intros [] Ht. cbn in *. rewrite <- co_live0 in Ht. by apply elem_of_dom in Ht. Qed.

Lemma wp_on_queue {A} (f : M Q A) (P : A -> C -> Prop) q cs :
  wp f (fun a q' => P a (q', cs)) nothrow q -> wp (on_queue f) P nothrow (q, cs).
Proof using Type. intros Hf. by apply wp_zoom. Qed.

Lemma wp_if_valid t (f : M Q (client_answer R)) (P : client_answer R -> C -> Prop) q cs p :
  tokens q !! t = Some p -> (p = nullptr -> P NotValid (q, cs)) ->
  (p <> nullptr -> wp f (fun a q' => P a (q', cs)) nothrow q) -> wp (if_valid t f) P nothrow (q, cs).
Proof using Type.
  intros Ht H0 Hf. apply wp_on_queue. unfold ProducerToken_valid. do 2 wp_step. eapply wp_token_producer; [done|]. wp_step.
  destruct (Z.eqb_spec p nullptr) as [->|Hp]; cbn [negb]; [wp_step; auto|auto].
Qed.

(** ** Consumers *)

#[local] Abbreviation laws := (queue_laws tr ops malloc_ok Hassign).

Lemma ok_self m n k ts cts q cs : client_ok m n k ts cts (q, cs) -> queue_ok tr malloc_ok n q q.
Proof using Type. intros []. split; [done|apply stable_refl]. Qed.

(** The elements in front of [p] were taken. *)
Lemma taken_ok m n (Hsmall : small n) k ts cts q cs p r (c : list R) q' :
  client_ok m n k ts cts (q, cs) -> p ∈ order_of q -> contents_of q p = r :: c ->
  sq_taken (SubQueuesLaws := laws n Hsmall q) q p 1 q' ->
  client_ok m n k ts cts (q', cs) /\ view_of m q' = put p c (view_of m q) /\ stable q q' /\ order_of q' = order_of q.
Proof using Type.
  intros Hok Hp Hc ((Hq' & Hst) & Eo & _ & Hc'). cbn in Hc', Eo. split; [by eapply client_ok_stable|].
  split; [|done]. pose proof Hok as []. eapply (view_put m n n); try done; [by destruct Hst as [(? & ? & ? & ->) _]|].
  intros p'. rewrite Hc', Hc. done.
Qed.

Lemma nothing_left m n (Hsmall : small n) q :
  queue_good tr malloc_ok n q -> all_empty (SubQueuesLaws0 := laws n Hsmall q) q -> nothing_in (view_of m q).
Proof using Type. intros Hq H p Hp. rewrite (content_view m n) by done. exact (H p Hp). Qed.

Lemma filter_ext_in {A} (P P' : A -> Prop) `{forall x, Decision (P x)} `{forall x, Decision (P' x)} (l : list A) :
  (forall x, x ∈ l -> P x <-> P' x) -> filter P l = filter P' l.
Proof using Type.
  clear home. induction l as [|x l IH]; intros E; [done|]. rewrite !filter_cons.
  rewrite (IH ltac:(intros y Hy; apply E; by right)). pose proof (E x ltac:(by left)). repeat case_decide; tauto.
Qed.

Lemma candidates_view m n (Hsmall : small n) q :
  queue_good tr malloc_ok n q ->
  candidates (view_of m q) = take 3 (non_empty (SubQueuesLaws0 := laws n Hsmall q) q (order_of q)).
Proof using Type.
  intros Hq. unfold candidates, non_empty. f_equal. apply filter_ext_in. intros p Hp. by rewrite (content_view m n).
Qed.

Lemma content_of_view m n (Hsmall : small n) q l :
  queue_good tr malloc_ok n q -> content_of (view_of m q) l = elements_of (SubQueuesLaws0 := laws n Hsmall q) q l.
Proof using Type.
  intros Hq. unfold content_of, elements_of. f_equal. apply list_fmap_ext. intros i p _. by rewrite (content_view m n).
Qed.

Lemma all_content_view m n (Hsmall : small n) q :
  queue_good tr malloc_ok n q -> all_content (view_of m q) = all_elements (SubQueuesLaws0 := laws n Hsmall q) q.
Proof using Type. intros Hq. exact (content_of_view m n Hsmall q (order_of q) Hq). Qed.

(** Every producer has lost some of its first elements. *)
Lemma dropped_queues m n q q' :
  queue_good tr malloc_ok n q -> queue_good tr malloc_ok n q' -> order_of q' = order_of q ->
  (forall p, exists j, contents_of q' p = drop j (contents_of q p)) ->
  forall p, exists j, v_queues (view_of m q') !! p = drop j <$> v_queues (view_of m q) !! p.
Proof using Type.
  intros Hq Hq' Eo Hk p. rewrite !(view_queues m n) by done. rewrite Eo. destruct (Hk p) as [j Hj]. exists j.
  case_decide; cbn; congruence.
Qed.

(** A call is answered. *)
Definition answered m n k ts cts (x : client_call U) q (a : client_answer R) (s' : C) : Prop :=
  exists m', step tr ops malloc_ok (view_of m q) x a (view_of m' (fst s')) /\
  client_ok m' (n + cost tr x) (k + 1) (live_after ts x) (consumers_after cts x) s'.

Lemma client_ok_mono m n n' k k' ts cts s :
  client_ok m n k ts cts s -> n <= n' -> k <= k' -> client_ok m n' k' ts cts s.
Proof using Type.
  intros [] Hn Hk. split; try done; [by eapply queue_good_mono| |lia].
  intros Hsize. eapply threads_ok_kept; [by auto|apply stable_implicit_kept, stable_refl|done].
Qed.

(** The call is over. *)
Ltac answer y := exists y; cbn [cost]; split.

Lemma try_dequeue_answered m n k ts cts q cs :
  small n -> client_ok m n k ts cts (q, cs) ->
  wp (client tr ops malloc_ok indeterminate platform tls hash_bytes TryDequeue) (answered m n k ts cts TryDequeue q) nothrow (q, cs).
Proof using TraitsOk0 Hassign.
  intros Hsmall Hok. apply wp_on_queue. wp_step. unfold queue_try_dequeue.
  eapply wp_mono; [apply (try_dequeue_spec (SubQueuesLaws0 := laws n Hsmall q)); exact (ok_self _ _ _ _ _ _ _ Hok)| |done].
  cbn beta. intros [r|] q' Hpost; wp_step; revert Hpost.
  - intros (p & c & Hp & Hc & Ht & Hmax). pose proof Hp as Hp'.
    apply elem_of_take in Hp' as (i & Hi & _). apply list_elem_of_lookup_2 in Hi. apply list_elem_of_filter in Hi as [_ Hi].
    destruct (taken_ok _ _ _ _ _ _ _ _ _ _ _ _ Hok Hi Hc Ht) as (Hok' & Ev & _).
    answer m; [|eapply client_ok_mono; [exact Hok'|lia..]]. cbn [fst]. rewrite Ev.
    assert (queue_good tr malloc_ok n q) as Hgood by (by destruct Hok). eapply step_dequeue.
    + by rewrite (candidates_view m n Hsmall).
    + intros p'. rewrite (candidates_view m n Hsmall), !(content_view m n) by done. apply Hmax.
    + by rewrite (content_view m n).
  - intros [-> Hempty]. answer m; [|eapply client_ok_mono; [exact Hok|lia..]]. apply step_dequeue_none.
    eapply nothing_left; [by destruct Hok|done].
Qed.

Lemma non_interleaved_answered m n k ts cts q cs :
  small n -> client_ok m n k ts cts (q, cs) ->
  wp (client tr ops malloc_ok indeterminate platform tls hash_bytes TryDequeueNonInterleaved)
    (answered m n k ts cts TryDequeueNonInterleaved q) nothrow (q, cs).
Proof using TraitsOk0 Hassign.
  intros Hsmall Hok. apply wp_on_queue. wp_step. unfold queue_try_dequeue_non_interleaved.
  eapply wp_mono; [apply (try_dequeue_non_interleaved_spec (SubQueuesLaws0 := laws n Hsmall q)); exact (ok_self _ _ _ _ _ _ _ Hok)| |done].
  assert (queue_good tr malloc_ok n q) as Hgood by (by destruct Hok).
  cbn beta. intros [r|] q' Hpost; wp_step; revert Hpost.
  - intros (before & p & after & c & Ho & Hb & Hc & Ht). cbn in Ho.
    assert (p ∈ order_of q) as Hp by (rewrite Ho; apply elem_of_app; right; by left).
    destruct (taken_ok _ _ _ _ _ _ _ _ _ _ _ _ Hok Hp Hc Ht) as (Hok' & Ev & _).
    answer m; [|eapply client_ok_mono; [exact Hok'|lia..]]. cbn [fst]. rewrite Ev. eapply step_first; [exact Ho| |].
    + intros p' Hp'. rewrite (content_view m n) by done. exact (Hb p' Hp').
    + by rewrite (content_view m n).
  - intros [-> Hempty]. answer m; [|eapply client_ok_mono; [exact Hok|lia..]]. apply step_first_none.
    by eapply nothing_left.
Qed.

Lemma bulk_answered max m n k ts cts q cs :
  small n -> 0 <= max < 2 ^ sb -> client_ok m n k ts cts (q, cs) ->
  wp (client tr ops malloc_ok indeterminate platform tls hash_bytes (TryDequeueBulk max)) (answered m n k ts cts (TryDequeueBulk max) q) nothrow (q, cs).
Proof using TraitsOk0 Hassign.
  intros Hsmall Hmax Hok. apply wp_on_queue. wp_step. unfold queue_try_dequeue_bulk.
  eapply wp_mono; [apply (try_dequeue_bulk_spec (SubQueuesLaws0 := laws n Hsmall q)); [exact (ok_self _ _ _ _ _ _ _ Hok)|done]| |done].
  cbn beta. intros rs q' (-> & (Hq' & Hst) & Eo & _ & He & Hk & Hout). cbn in Eo. wp_step.
  assert (queue_good tr malloc_ok n q) as Hgood by (by destruct Hok).
  answer m; [|eapply client_ok_mono; [by eapply client_ok_stable|lia..]]. cbn [fst].
  rewrite <- (all_content_view m n Hsmall) by done. apply step_bulk; [done|by destruct Hst as [(? & ? & ? & ->) _]|done|..].
  - by eapply dropped_queues.
  - rewrite !(all_content_view m n Hsmall) by done. unfold all_elements, elements_of in *. cbn in He |- *. by rewrite Eo, He.
Qed.

Lemma size_answered m n k ts cts q cs :
  small n -> client_ok m n k ts cts (q, cs) ->
  wp (client tr ops malloc_ok indeterminate platform tls hash_bytes SizeApprox) (answered m n k ts cts SizeApprox q) nothrow (q, cs).
Proof using TraitsOk0 Hassign.
  intros Hsmall Hok. apply wp_on_queue. wp_step.
  eapply wp_mono; [apply (queue_size_wrap (SubQueuesLaws0 := laws n Hsmall q)); [done|exact (ok_self _ _ _ _ _ _ _ Hok)]| |done].
  cbn beta. intros r q' [-> ->]. wp_step. answer m; [|eapply client_ok_mono; [exact Hok|lia..]]. cbn [fst].
  rewrite <- (all_content_view m n) by (by destruct Hok). apply step_size.
Qed.

(** A call that uses a consumer token. *)
Lemma wp_with_consumer {A} ct token (f : M (Q * ConsumerToken) A) (P : A -> C -> Prop) q cs :
  cs !! ct = Some token -> wp f (fun a s' => P a (fst s', <[ct := snd s']> cs)) nothrow (q, token) ->
  wp (with_consumer ct f) P nothrow (q, cs).
Proof using Type.
  intros Htok Hf. unfold with_consumer. do 3 wp_step. wp_step; [done|]. by apply wp_zoom.
Qed.

Lemma client_ok_consumed m n (Hsmall : small n) k ts cts q cs ct q' token' :
  client_ok m n k ts cts (q, cs) -> queue_good tr malloc_ok n q' -> stable q q' -> order_of q' = order_of q ->
  token_ok (SubQueuesLaws0 := laws n Hsmall q) q' token' ->
  client_ok m (n + 1) (k + 1) ts cts (q', <[ct := token']> cs).
Proof using Type.
  intros Hok Hq' Hst Eo Htok'. pose proof (client_ok_stable _ _ n _ _ _ _ q' cs Hok Hq' Hst Eo) as Hok1.
  apply (client_ok_mono m n _ k); [|lia..]. pose proof Hok1 as []. cbn [fst snd] in *. split; cbn [fst snd]; try done.
  intros ct' Hct'. destruct (decide (ct' = ct)) as [->|Hne].
  - exists token'. by rewrite lookup_insert_eq.
  - rewrite lookup_insert_ne by done. auto.
Qed.

Lemma consumer_token_answered ct m n k ts cts q cs :
  small n -> client_ok m n k ts cts (q, cs) -> ct ∈ cts ->
  wp (client tr ops malloc_ok indeterminate platform tls hash_bytes (TryDequeueWith ct)) (answered m n k ts cts (TryDequeueWith ct) q) nothrow (q, cs).
Proof using TraitsOk0 Hassign.
  intros Hsmall Hok Hct. destruct (co_consumers _ _ _ _ _ _ Hok ct Hct) as (token & Htok & Hin). cbn [fst snd] in *.
  eapply wp_with_consumer; [done|]. wp_step. unfold queue_try_dequeue_token. pose proof (ok_self _ _ _ _ _ _ _ Hok) as Hself.
  eapply wp_mono; [apply (try_dequeue_token_spec (SubQueuesLaws0 := laws n Hsmall q)); [done|done]| |done].
  assert (queue_good tr malloc_ok n q) as Hgood by (by destruct Hok).
  cbn beta. intros [r|] [q' token'] Ht; cbn [fst snd] in Ht;
    pose proof (token_took_ok (SubQueuesLaws0 := laws n Hsmall q) tr q token _ q' token' Hself Hin Ht) as Htok'; wp_step; cbn [fst snd] in *.
  - destruct Ht as (before & p & after & c & Ep & _ & Hc & (Hq' & Hst) & Eo & Hc' & _). cbn in Hc, Eo, Hc'.
    assert (p ∈ before ++ p :: after) as Hp by (apply elem_of_app; right; by left). rewrite <- Ep in Hp. apply from_on_in in Hp. cbn in Hp. answer m; [|by eapply client_ok_consumed].
    cbn [fst]. rewrite (view_put m n n q q' p c); [|done|done|by destruct Hst as [(? & ? & ? & ->) _]|done|done|done].
    eapply step_with; [done|by rewrite (content_view m n)].
  - destruct Ht as (-> & _ & Hempty). answer m; [|eapply client_ok_consumed; [done|done|apply stable_refl|done|done]]. apply step_with_none.
    by eapply nothing_left.
Qed.

Lemma bulk_token_answered ct max m n k ts cts q cs :
  small n -> 0 <= max < 2 ^ sb -> client_ok m n k ts cts (q, cs) -> ct ∈ cts ->
  wp (client tr ops malloc_ok indeterminate platform tls hash_bytes (TryDequeueBulkWith ct max))
    (answered m n k ts cts (TryDequeueBulkWith ct max) q) nothrow (q, cs).
Proof using TraitsOk0 Hassign.
  intros Hsmall Hmax Hok Hct. destruct (co_consumers _ _ _ _ _ _ Hok ct Hct) as (token & Htok & Hin). cbn [fst snd] in *.
  eapply wp_with_consumer; [done|]. wp_step. unfold queue_try_dequeue_bulk_token. pose proof (ok_self _ _ _ _ _ _ _ Hok) as Hself.
  eapply wp_mono; [apply (try_dequeue_bulk_token_spec (SubQueuesLaws0 := laws n Hsmall q)); [done|done|done]| |done].
  assert (queue_good tr malloc_ok n q) as Hgood by (by destruct Hok).
  cbn beta. intros rs [q' token'] [Htok' Ht]; wp_step; cbn [fst snd] in *.
  unfold token_drained in Ht. case_bool_decide as Ho.
  - destruct Ht as (-> & -> & _). answer m; [|eapply client_ok_consumed; [done|done|apply stable_refl|done|done]].
    pose proof (step_bulk_with tr ops malloc_ok (view_of m q) ct max (view_of m q) [] []) as Hstep.
    change (content_of (view_of m q) ([] ++ [])) with (@nil R) in Hstep. rewrite take_nil in Hstep. apply Hstep; try done.
    + intros p. exists O. by destruct (v_queues _ !! p).
    + by destruct (Z.to_nat max).
  - destruct Ht as (-> & (Hq' & Hst) & Eo & He & Hk & _). cbn in Eo. answer m; [|by eapply client_ok_consumed]. cbn [fst].
    rewrite <- (content_of_view m n Hsmall) by done. unfold from_on in *. cbn in He |- *.
    apply step_bulk_with; [symmetry; apply take_drop|done|by destruct Hst as [(? & ? & ? & ->) _]|done|by eapply dropped_queues|].
    rewrite !(content_of_view m n Hsmall) by done. exact He.
Qed.

(** ** Tokens *)

(** What a queue holds after an operation of one of its producers. *)
Lemma view_update m m' n n' q q' fl fl' own own' cont order order' p (c : list T) tks :
  repr n q fl order own cont -> repr n' q' fl' order' own' (upd cont p c) -> small n -> small n' ->
  (forall p', p' ∈ order' <-> p' = p \/ p' ∈ order) -> tokens q' = tks ->
  view_of m' q' = mkView order' (<[p := received c]> (v_queues (view_of m q))) tks m'.
Proof using TraitsOk0 Hassign.
  intros Hq Hq' Hn Hn' Hin Et. assert (queue_good tr malloc_ok n q) as Hgood by (by eexists _, _, _, _).
  assert (queue_good tr malloc_ok n' q') as Hgood' by (by eexists _, _, _, _).
  pose proof (order_of_spec _ _ _ _ _ _ _ _ Hq) as Eo. pose proof (order_of_spec _ _ _ _ _ _ _ _ Hq') as Eo'.
  apply view_eq; [done|done|done|]. intros p'. cbn [v_queues]. rewrite (view_queues m' n'), Eo' by done.
  destruct (decide (p' = p)) as [->|Hne].
  - rewrite lookup_insert_eq, decide_True by (apply Hin; by left).
    rewrite (contents_of_spec tr ops malloc_ok Hassign n' Hn' q' fl' order' own' _ p Hq') by (apply Hin; by left).
    by rewrite upd_same.
  - rewrite lookup_insert_ne, (view_queues m n), Eo by done. destruct (decide (p' ∈ order)) as [Hp'|Hp'].
    + assert (p' ∈ order') as Hp'' by (apply Hin; by right). rewrite decide_True by done. f_equal.
      rewrite (contents_of_spec tr ops malloc_ok Hassign n' Hn' q' fl' order' own' _ p' Hq' Hp'').
      rewrite (contents_of_spec tr ops malloc_ok Hassign n Hn q fl order own _ p' Hq Hp'). by rewrite upd_other.
    + rewrite decide_False; [done|]. intros [?|?]%Hin; done.
Qed.

Lemma view_unchanged m m' n n' q q' fl fl' own own' cont order tks :
  repr n q fl order own cont -> repr n' q' fl' order own' cont -> small n -> small n' -> tokens q' = tks ->
  view_of m' q' = mkView order (v_queues (view_of m q)) tks m'.
Proof using TraitsOk0 Hassign.
  intros Hq Hq' Hn Hn' Et. assert (queue_good tr malloc_ok n q) as Hgood by (by eexists _, _, _, _).
  assert (queue_good tr malloc_ok n' q') as Hgood' by (by eexists _, _, _, _).
  pose proof (order_of_spec _ _ _ _ _ _ _ _ Hq) as Eo. pose proof (order_of_spec _ _ _ _ _ _ _ _ Hq') as Eo'.
  apply view_eq; [done|done|done|]. intros p. cbn [v_queues]. rewrite (view_queues m' n'), (view_queues m n), Eo, Eo' by done.
  case_decide as Hp; [|done]. f_equal.
  by rewrite (contents_of_spec tr ops malloc_ok Hassign n' Hn' q' fl' order own' _ p Hq' Hp),
    (contents_of_spec tr ops malloc_ok Hassign n Hn q fl order own _ p Hq Hp).
Qed.

(** Producers are only added. *)
Lemma consumers_kept m n k ts cts q cs order' ct :
  client_ok m n k ts cts (q, cs) -> order_of q ⊆ order' -> ct ∈ cts -> exists token, cs !! ct = Some token /\
    (desiredProducer token = nullptr \/ desiredProducer token ∈ order' /\ currentProducer token ∈ order').
Proof using Type.
  intros [] Hin Hct. cbn [fst snd] in *. destruct (co_consumers0 ct Hct) as (token & Htok & Hp). exists token.
  split; [done|]. destruct Hp as [?|[? ?]]; [by left|right]. auto.
Qed.

(** A new token's producer is not a thread's. *)
Lemma unused_by_threads m n k ts cts q cs p :
  client_ok m n k ts cts (q, cs) -> (forall x, producers q !! p = Some x -> p_inactive x = true) -> forall tid, m !! tid <> Some p.
Proof using Type.
  intros Hok Hp tid. destruct (decide (INITIAL_IMPLICIT_PRODUCER_HASH_SIZE tr = 0)) as [E|E].
  - rewrite (proj1 (co_no_threads _ _ _ _ _ _ Hok E)). by rewrite lookup_empty.
  - eapply threads_not_inactive; [by apply (co_threads _ _ _ _ _ _ Hok)|done].
Qed.

(** What tokens and consumers leave of the state of the threads. *)
Lemma client_ok_kept m n n' k k' ts ts' cts q q' cs :
  client_ok m n k ts cts (q, cs) -> implicit_kept q q' -> queue_good tr malloc_ok n' q' -> tokens_ok q' -> dom (tokens q') = ts' ->
  order_of q ⊆ order_of q' -> zlength (order_of q') <= k' -> k <= k' -> client_ok m n' k' ts' cts (q', cs).
Proof using Type.
  intros Hok Hkept Hq' Htok' Hlive Hin Hlen Hk. pose proof Hok as [_ _ Hpar Hth Hno _ _ _]. cbn [fst snd] in *.
  split; cbn [fst snd]; try done.
  - by apply (ik_parents _ _ Hkept).
  - intros Hsize. by eapply threads_ok_kept; [apply Hth|..].
  - intros [-> Hown]%Hno. split; [done|]. by eapply all_owned_kept.
  - intros ct Hct. by eapply consumers_kept.
Qed.

Lemma new_token_answered (j : nat) t m n k ts cts q cs :
  sb = 8 * 2 ^ Z.of_nat j -> 0 <= n -> small n -> k + 1 < 2 ^ 32 -> client_ok m n k ts cts (q, cs) -> (t ∉ ts) ->
  wp (client tr ops malloc_ok indeterminate platform tls hash_bytes (NewToken t)) (answered m n k ts cts (NewToken t) q) nothrow (q, cs).
Proof using TraitsOk0 Hassign.
  intros Hsb Hn Hsmall Hk Hok Ht. pose proof Hok as [(fl & order & own & cont & Hq) Htok _ _ _ Hlive Hprod _]. cbn [fst snd] in *.
  pose proof (order_of_spec _ _ _ _ _ _ _ _ Hq) as Eo. rewrite Eo in *.
  apply wp_on_queue. wp_step. eapply wp_mono; [eapply (ProducerToken_ctor_spec tr malloc_ok j); try done; [lia|]| |done].
  { apply not_elem_of_dom. by rewrite Hlive. }
  cbn beta. intros _ q' (p & Et & Htok' & Hkept & Hun & Hcase). unfold ProducerToken_valid. do 2 wp_step.
  eapply wp_token_producer; [rewrite Et; apply lookup_insert_eq|]. do 2 wp_step.
  assert (dom (tokens q') = {[t]} ∪ ts) as Hlive' by (by rewrite Et, dom_insert_L, Hlive).
  assert (forall order', (exists fl' own' cont', repr n q' fl' order' own' cont') -> order ⊆ order' -> zlength order' <= k + 1 ->
    client_ok m (n + 1) (k + 1) ({[t]} ∪ ts) cts (q', cs)) as Hafter.
  { intros order' (fl' & own' & cont' & Hq') Hin Hlen. pose proof (order_of_spec _ _ _ _ _ _ _ _ Hq') as Eo'.
    eapply (client_ok_kept m n _ k); [exact Hok|done| |done|done|by rewrite Eo, Eo'|by rewrite Eo'|lia].
    apply (queue_good_mono n); [by exists fl', order', own', cont'|lia]. }
  destruct Hcase as [(-> & Hm & fl' & own' & Hq')|(Hp & [(Hin & Hunused & fl' & own' & Hq')|(Hnew & fl' & own' & Hq')])].
  - rewrite Z.eqb_refl. cbn [negb]. answer m; [|eapply Hafter; [by eexists _, _, _|done|lia]]. cbn [fst].
    rewrite (view_unchanged m m n n q q' fl fl' own own' cont order _ Hq Hq' Hsmall Hsmall Et), <- Eo. by apply step_token_failed.
  - rewrite (proj2 (Z.eqb_neq _ _) Hp). cbn [negb]. answer m; [|eapply Hafter; [by eexists _, _, _|done|lia]]. cbn [fst].
    rewrite (view_unchanged m m n n q q' fl fl' own own' cont order _ Hq Hq' Hsmall Hsmall Et), <- Eo.
    apply step_token_inherits; [done|cbn; by rewrite Eo|done|]. eapply unused_by_threads; [exact Hok|by auto].
  - rewrite (proj2 (Z.eqb_neq _ _) Hp). cbn [negb].
    answer m; [|eapply Hafter; [by eexists _, _, _|by intros ?; right|unfold zlength in *; cbn [length]; lia]]. cbn [fst].
    rewrite (view_update m m n n q q' fl fl' own own' cont order (p :: order) p [] (<[t := p]> (tokens q)) Hq Hq' Hsmall Hsmall); [|intros; apply elem_of_cons|exact Et].
    rewrite <- Eo. apply step_token_new; [done|]. cbn. by rewrite Eo.
Qed.

Lemma drop_token_answered t m n k ts cts q cs :
  small n -> client_ok m n k ts cts (q, cs) -> t ∈ ts ->
  wp (client tr ops malloc_ok indeterminate platform tls hash_bytes (DropToken t)) (answered m n k ts cts (DropToken t) q) nothrow (q, cs).
Proof using TraitsOk0 Hassign.
  intros Hsmall Hok Ht. destruct (token_valid _ _ _ _ _ _ _ _ Hok Ht) as [p Hp].
  pose proof Hok as [(fl & order & own & cont & Hq) Htok _ _ _ Hlive Hprod _]. cbn [fst snd] in *.
  pose proof (order_of_spec _ _ _ _ _ _ _ _ Hq) as Eo. apply wp_on_queue. wp_step.
  eapply wp_mono; [by eapply ProducerToken_dtor_spec| |done]. cbn beta. intros _ q' (Hq' & Htok' & Et & Hkept). wp_step.
  pose proof (order_of_spec _ _ _ _ _ _ _ _ Hq') as Eo'. answer m.
  - cbn [fst]. rewrite (view_unchanged m m n n q q' fl fl own own cont order _ Hq Hq' Hsmall Hsmall Et), <- Eo. apply step_drop.
  - eapply (client_ok_kept m n _ k); [exact Hok|done| |done| |by rewrite Eo, Eo'|rewrite Eo', <- Eo; lia|lia].
    + apply (queue_good_mono n); [by eexists _, _, _, _|lia].
    + cbn [live_after]. by rewrite Et, dom_delete_L, Hlive.
Qed.

Lemma new_consumer_answered ct m n k ts cts q cs :
  small n -> client_ok m n k ts cts (q, cs) ->
  wp (client tr ops malloc_ok indeterminate platform tls hash_bytes (NewConsumer ct)) (answered m n k ts cts (NewConsumer ct) q) nothrow (q, cs).
Proof using TraitsOk0 Hassign.
  intros Hsmall Hok. pose proof Hok as [(fl & order & own & cont & Hq) Htok Hpar Hth Hno Hlive Hprod _]. cbn [fst snd] in *.
  pose proof (order_of_spec _ _ _ _ _ _ _ _ Hq) as Eo. cbn [client]. wp_step. apply wp_on_queue. unfold new_consumer_token.
  do 7 wp_step. set (q' := set_consumerId _ q).
  assert (repr n q' fl order own cont) as Hq' by by eapply queue_repr_ext.
  pose proof (order_of_spec _ _ _ _ _ _ _ _ Hq') as Eo'. cbn [fst snd]. answer m.
  - cbn [fst]. rewrite (view_unchanged m m n n q q' fl fl own own cont order (tokens q) Hq Hq' Hsmall Hsmall eq_refl), <- Eo.
    apply step_consumer.
  - apply (client_ok_mono m n _ k); [|lia..]. split; cbn [fst snd]; rewrite ?Eo', <- ?Eo; try done.
    + by eexists _, _, _, _.
    + by destruct Htok.
    + intros Hsize. eapply threads_ok_kept; [by apply Hth| |done]. split; try done; intros p x Hx _ _; cbn in *; by rewrite Hx.
    + intros ct' Hct'. destruct (decide (ct' = ct)) as [->|Hne].
      * eexists. split; [apply lookup_insert_eq|by left].
      * rewrite lookup_insert_ne by done. eapply consumers_kept; [exact Hok|done|by cbn in Hct'; apply elem_of_union in Hct' as [?%elem_of_singleton|]].
Qed.

(** The producer of a valid token is explicit. *)
Lemma from_token m n k ts cts q cs t p :
  client_ok m n k ts cts (q, cs) -> tokens q !! t = Some p -> p <> nullptr ->
  p ∈ order_of q /\ try_dequeue_from_producer tr ops t q = producer_dequeue tr ops p q.
Proof using Type.
  intros [(fl & order & own & cont & Hq) Htok _ _ _ _ _ _] Ht Hp. cbn [fst] in *.
  destruct (tk_producer _ Htok t p Ht Hp) as (x & Hx & _ & _ & Hk). rewrite (order_of_spec _ _ _ _ _ _ _ _ Hq).
  split; [apply (qr_dom _ _ _ _ _ _ _ _ Hq); by exists x|].
  pose proof (sub_inv_kind _ _ _ _ _ _ _ (qr_sub _ _ _ _ _ _ _ _ Hq p x Hx)) as Hkind.
  unfold try_dequeue_from_producer, producer_dequeue, token_producer, producer, bind, gets, deref, ret. rewrite Ht, Hx.
  change (producer_base x) with (body_base (p_body x)). rewrite Hkind. by destruct (p_body x).
Qed.

Lemma dequeue_from_answered t m n k ts cts q cs :
  small n -> client_ok m n k ts cts (q, cs) -> t ∈ ts ->
  wp (client tr ops malloc_ok indeterminate platform tls hash_bytes (TryDequeueFrom t)) (answered m n k ts cts (TryDequeueFrom t) q) nothrow (q, cs).
Proof using TraitsOk0 Hassign.
  intros Hsmall Hok Ht. destruct (token_valid _ _ _ _ _ _ _ _ Hok Ht) as [p Hp].
  assert (queue_good tr malloc_ok n q) as Hgood by (by destruct Hok).
  eapply wp_if_valid; [exact Hp|intros ->|intros Hnn].
  { answer m; [by apply step_from_invalid|eapply client_ok_mono; [exact Hok|lia..]]. }
  destruct (from_token _ _ _ _ _ _ _ _ _ Hok Hp Hnn) as [Hin E]. wp_step. unfold wp at 1. rewrite E.
  pose proof (dequeue_law tr ops malloc_ok Hassign n Hsmall q q p (ok_self _ _ _ _ _ _ _ Hok) Hin) as Hlaw.
  destruct (contents_of q p) as [|r c] eqn:Hc.
  - rewrite Hlaw. wp_step. answer m; [|eapply client_ok_mono; [exact Hok|lia..]]. eapply step_from_none; [done|done|].
    by rewrite (content_view m n).
  - destruct Hlaw as (q' & -> & (Hq' & Hst) & Eo & _ & Hc'). wp_step.
    answer m; [|eapply client_ok_mono; [by eapply client_ok_stable|lia..]]. cbn [fst].
    rewrite (view_put m n n q q' p c); [|done|done|by destruct Hst as [(? & ? & ? & ->) _]|done|done|done].
    eapply step_from; [done|done|by rewrite (content_view m n)].
Qed.

(** ** Enqueue *)

(** What a consumer receives for the elements made of [items]. *)
Lemma received_made items vs :
  made_of ops items vs ->
  exists rs, Forall2 (fun u r => passed ops u = Some r) items rs /\ forall c, received (c ++ vs) = received c ++ rs.
Proof using Hassign.
  induction 1 as [|u v items vs Hu _ (rs & Hrs & IH)].
  - exists []. split; [done|]. intros c. by rewrite !app_nil_r.
  - destruct (received_cons ops Hassign v []) as (r & Hr & _). exists (r :: rs). split.
    + constructor; [|done]. unfold passed. by rewrite Hu.
    + intros c. unfold QueueInvariant.received in *. specialize (IH []). cbn in IH. rewrite omap_app. cbn. by rewrite Hr, IH.
Qed.

Lemma received_zlength c : zlength (received c) = zlength c.
Proof using Hassign. unfold zlength. by rewrite received_length. Qed.

(** A thread has added its elements, or not. *)
Lemma client_ok_pushed m n d k ts cts q cs fl order own cont q' fl' own' cont' :
  0 <= d -> client_ok m n k ts cts (q, cs) -> repr n q fl order own cont -> stable q q' -> repr (n + d) q' fl' order own' cont' ->
  client_ok m (n + d) k ts cts (q', cs).
Proof using Type.
  intros Hd Hok Hq Hst Hq'. eapply client_ok_stable; [done|by eexists _, _, _, _|done|].
  by rewrite (order_of_spec _ _ _ _ _ _ _ _ Hq), (order_of_spec _ _ _ _ _ _ _ _ Hq').
Qed.

Lemma push_view m n d q fl order own cont allocMode items p ok q' :
  0 <= d -> small (n + d) -> repr n q fl order own cont -> p ∈ order ->
  pushed tr ops malloc_ok allocMode items (n + d) q order cont p ok q' ->
  if ok : bool then exists rs, Forall2 (fun u r => passed ops u = Some r) items rs /\
    view_of m q' = put p (content (view_of m q) p ++ rs) (view_of m q)
  else view_of m q' = view_of m q /\ may_refuse tr malloc_ok allocMode (content (view_of m q) p) (zlength items).
Proof using TraitsOk0 Hassign.
  intros Hd Hsmall' Hq Hp (Hst & fl' & own' & Hcase).
  assert (small n) as Hsmall by (unfold small in *; pose proof (block_size_gt_1 tr); nia).
  pose proof (order_of_spec _ _ _ _ _ _ _ _ Hq) as Eo.
  assert (tokens q' = tokens q) as Et by (by destruct Hst as [(? & ? & ? & ->) _]).
  rewrite (content_repr m n q fl order own cont p Hq Hsmall Hp). destruct ok.
  - destruct Hcase as (vs & Hvs & Hq'). destruct (received_made _ _ Hvs) as (rs & Hrs & E). exists rs. split; [done|].
    rewrite (view_update m m n (n + d) q q' fl fl' own own' cont order order p (cont p ++ vs) (tokens q) Hq Hq' Hsmall Hsmall'); [|intros p'; split; [by right|by intros [->|]]|done].
    rewrite E. unfold put. cbn. by rewrite Eo.
  - destruct Hcase as [Hq' Hwhy]. split.
    + rewrite (view_unchanged m m n (n + d) q q' fl fl' own own' cont order (tokens q) Hq Hq' Hsmall Hsmall' Et), <- Eo. done.
    + unfold may_refuse, no_space in *. by rewrite received_zlength.
Qed.

(** With a token: [f] adds [items] to its producer. *)
Lemma token_call_answered (x : client_call U) allocMode t items (f : M Q bool) m n k ts cts q cs :
  enqueues_with x = Some (allocMode, t, items) -> live_after ts x = ts -> consumers_after cts x = cts ->
  0 <= n -> 0 <= cost tr x -> small (n + cost tr x) -> client_ok m n k ts cts (q, cs) -> t ∈ ts ->
  (forall fl order own cont p, repr n q fl order own cont -> tokens_ok q -> tokens q !! t = Some p -> p <> nullptr ->
    wp f (fun ok q' => p ∈ order /\ pushed tr ops malloc_ok allocMode items (n + cost tr x) q order cont p ok q') nothrow q) ->
  wp (if_valid t (let! ok := f in ret (Accepted ok))) (answered m n k ts cts x q) nothrow (q, cs).
Proof using TraitsOk0 Hassign.
  intros Hx Hlive Hcons Hn Hd Hsmall' Hok Ht Hf. destruct (token_valid _ _ _ _ _ _ _ _ Hok Ht) as [p Hp].
  eapply wp_if_valid; [exact Hp|intros ->|intros Hnn].
  { exists m. split; [by eapply step_enqueue_invalid|]. rewrite Hlive, Hcons. eapply client_ok_mono; [exact Hok|lia..]. }
  pose proof Hok as [(fl & order & own & cont & Hq) Htok _ _ _ _ _ _]. cbn [fst snd] in *.
  pose proof (order_of_spec _ _ _ _ _ _ _ _ Hq) as Eo. wp_step. eapply wp_mono; [by eapply Hf| |done].
  cbn beta. intros ok q' (Hin & Hpush). wp_step. exists m. cbn [fst]. rewrite Hlive, Hcons.
  pose proof (push_view m n _ q fl order own cont allocMode items p ok q' Hd Hsmall' Hq Hin Hpush) as Hview. split.
  - destruct ok; [destruct Hview as (rs & Hrs & ->); eapply step_enqueue; [done|done|cbn; by rewrite Eo|done]|].
    destruct Hview as [-> Hwhy]. eapply step_enqueue_refused; [done|done|cbn; by rewrite Eo|done].
  - destruct Hpush as (Hst & fl' & own' & Hcase). apply (client_ok_mono m (n + cost tr x) _ k); [|lia..].
    destruct ok; [destruct Hcase as (vs & _ & Hq')|destruct Hcase as [Hq' _]]; by eapply client_ok_pushed.
Qed.

(** ** Threads *)

#[local] Abbreviation got := (got_thread tr malloc_ok platform tls hash_bytes).

(** A thread has got its producer. *)
Lemma thread_acquires m n k ts cts q cs fl order own cont tid p q1 :
  small n -> client_ok m n k ts cts (q, cs) -> repr n q fl order own cont -> got n q order cont m k tid p q1 ->
  INITIAL_IMPLICIT_PRODUCER_HASH_SIZE tr <> 0 ->
  exists m1, acquires malloc_ok (view_of m q) tid p (view_of m1 q1) /\ client_ok m1 n (k + 1) ts cts (q1, cs) /\
    (p <> nullptr -> exists x, producers q1 !! p = Some x /\ is_explicit (p_body x) = false).
Proof using TraitsOk0 Hassign.
  intros Hsmall Hok Hq [Et Htok Hpar Hcase] Hsize. pose proof Hok as [_ _ _ _ _ Hlive Hprod _]. cbn [fst snd] in *.
  pose proof (order_of_spec _ _ _ _ _ _ _ _ Hq) as Eo. rewrite Eo in *.
  assert (forall m1 k1 order1 fl1 own1 cont1, threads_ok tr platform tls hash_bytes q1 m1 k1 -> k1 <= k + 1 ->
    repr n q1 fl1 order1 own1 cont1 -> order ⊆ order1 -> zlength order1 <= k + 1 -> client_ok m1 n (k + 1) ts cts (q1, cs)) as Hafter.
  { intros m1 k1 order1 fl1 own1 cont1 Hth Hk1 Hq1 Hin Hlen. pose proof (order_of_spec _ _ _ _ _ _ _ _ Hq1) as Eo1.
    split; cbn [fst snd]; rewrite ?Eo1; try done.
    - by eexists _, _, _, _.
    - by apply Hpar, (co_parents _ _ _ _ _ _ Hok).
    - intros _. eapply threads_ok_kept; [exact Hth|apply stable_implicit_kept, stable_refl|done].
    - by rewrite Et.
    - intros ct Hct. eapply consumers_kept; [exact Hok|by rewrite Eo|done]. }
  assert (forall m1 k1, threads_ok tr platform tls hash_bytes q1 m1 k1 -> m1 !! tid = Some p ->
    exists x, producers q1 !! p = Some x /\ is_explicit (p_body x) = false) as Hkind.
  { intros m1 k1 Hth Hp. destruct (to_producers _ _ _ _ _ _ _ Hth tid p Hp) as (_ & x & Hx & _ & Hk). by exists x. }
  destruct Hcase as [(Hm & Hp & Hth & fl1 & own1 & Hq1)|[(Hm & -> & Hfail & Hth & fl1 & own1 & Hq1)|(Hm & Hp & Hun & Hth & Hcase)]].
  - exists m. rewrite (view_unchanged m m n n q q1 fl fl1 own own1 cont order (tokens q) Hq Hq1 Hsmall Hsmall Et), <- Eo.
    change (mkView (order_of q) (v_queues (view_of m q)) (tokens q) m) with (view_of m q). split; [|split; [|by eauto]].
    + apply acquires_known; [done| |done]. destruct (Hkind m k Hth Hm) as (x & Hx & _). cbn. rewrite Eo.
      apply (qr_dom _ _ _ _ _ _ _ _ Hq1). by exists x.
    + eapply (Hafter m k); [done|lia|exact Hq1|done|lia].
  - exists m. rewrite (view_unchanged m m n n q q1 fl fl1 own own1 cont order (tokens q) Hq Hq1 Hsmall Hsmall Et), <- Eo.
    change (mkView (order_of q) (v_queues (view_of m q)) (tokens q) m) with (view_of m q). split; [by apply acquires_none|].
    split; [|done]. eapply (Hafter m k); [done|lia|exact Hq1|done|lia].
  - exists (<[tid := p]> m). assert (<[tid := p]> m !! tid = Some p) as Hp' by apply lookup_insert_eq.
    destruct Hcase as [(Hin & Hunused & fl1 & own1 & Hq1)|(Hnew & fl1 & own1 & Hq1)].
    + rewrite (view_unchanged m _ n n q q1 fl fl1 own own1 cont order (tokens q) Hq Hq1 Hsmall Hsmall Et), <- Eo.
      change (mkView _ _ _ _) with (hire tid p (view_of m q)). split; [|split; [|by eauto]].
      * apply acquires_inherits; try done. cbn. by rewrite Eo.
      * eapply (Hafter _ (k + 1)); [done|lia|exact Hq1|done|lia].
    + rewrite (view_update m (<[tid := p]> m) n n q q1 fl fl1 own own1 cont order (p :: order) p [] (tokens q) Hq Hq1 Hsmall Hsmall);
        [|intros; apply elem_of_cons|exact Et]. rewrite <- Eo. split; [|split; [|by eauto]].
      * apply acquires_new; [done|done|]. cbn. by rewrite Eo.
      * eapply (Hafter _ (k + 1)); [done|lia|exact Hq1|by intros ?; right|unfold zlength in *; cbn [length]; lia].
Qed.

(** Without a token: [f] adds [items] to the producer of the thread. *)
Lemma thread_call_answered (j : nat) (x : client_call U) allocMode tid items (f : M (IState T) bool) m n k ts cts q cs :
  sb = 8 * 2 ^ Z.of_nat j -> enqueues_from x = Some (allocMode, tid, items) -> live_after ts x = ts -> consumers_after cts x = cts ->
  0 <= n -> 0 <= cost tr x -> small (n + cost tr x) -> k + 1 < 2 ^ 32 -> k + 1 < 2 ^ (sb - 2) -> valid_id platform tid ->
  client_ok m n k ts cts (q, cs) ->
  (forall q1 fl order own cont p y, repr n q1 fl order own cont -> producers q1 !! p = Some y -> is_explicit (p_body y) = false ->
    wp (on_implicit p f) (pushed tr ops malloc_ok allocMode items (n + cost tr x) q1 order cont p)
      (not_pushed tr ops malloc_ok items (n + cost tr x) q1 order cont) q1) ->
  wp (on_queue (accepted_or_threw (if_implicit tr
      (let! p := get_or_add_implicit_producer tr malloc_ok platform tls hash_bytes tid in
       if p =? nullptr then ret false else on_implicit p f))))
    (answered m n k ts cts x q) nothrow (q, cs).
Proof using TraitsOk0 Hassign.
  intros Hsb Hx Hlive Hcons Hn Hd Hsmall' Hk Hk2 Hid Hok Hf.
  assert (small n) as Hsmall by (unfold small in *; pose proof (block_size_gt_1 tr); nia).
  apply wp_on_queue, wp_try_catch. unfold if_implicit. destruct (Z.eqb_spec (INITIAL_IMPLICIT_PRODUCER_HASH_SIZE tr) 0) as [E|Hsize].
  { wp_steps. exists m. split; [by eapply step_from_thread_disabled|]. rewrite Hlive, Hcons. eapply client_ok_mono; [exact Hok|lia..]. }
  pose proof Hok as [(fl & order & own & cont & Hq) Htok Hpar Hth _ _ Hprod _]. cbn [fst snd] in *.
  rewrite (order_of_spec _ _ _ _ _ _ _ _ Hq) in Hprod. do 2 wp_step.
  eapply wp_mono; [eapply (get_or_add_spec tr malloc_ok platform tls hash_bytes j n q fl order own cont m k tid); try done; [lia|by apply Hth]| |done].
  cbn beta. intros p q1 Hgot. destruct (thread_acquires m n k ts cts q cs fl order own cont tid p q1 Hsmall Hok Hq Hgot Hsize)
    as (m1 & Hacq & Hok1 & Hp1). destruct (Z.eqb_spec p nullptr) as [->|Hp].
  { wp_steps. exists m1. split; [by eapply step_from_thread_refused; [done|done|left]|]. rewrite Hlive, Hcons.
    eapply client_ok_mono; [exact Hok1|lia..]. }
  destruct (Hp1 Hp) as (y & Hy & Hkind). pose proof Hok1 as [(fl1 & order1 & own1 & cont1 & Hq1) _ _ _ _ _ _ _]. cbn [fst] in Hq1.
  assert (p ∈ order1) as Hin by (apply (qr_dom _ _ _ _ _ _ _ _ Hq1); by exists y).
  eapply wp_mono; [by eapply Hf| |]; cbn beta.
  - intros ok q' Hpush. wp_step. exists m1.
    pose proof (push_view m1 n _ q1 fl1 order1 own1 cont1 allocMode items p ok q' Hd Hsmall' Hq1 Hin Hpush) as Hview.
    destruct Hpush as (Hst & fl' & own' & Hcase). cbn [fst]. rewrite Hlive, Hcons. split.
    + destruct ok; [destruct Hview as (rs & Hrs & ->); by eapply step_from_thread|].
      destruct Hview as [-> Hwhy]. eapply step_from_thread_refused; [done|done|by right].
    + destruct ok; [destruct Hcase as (vs & _ & Hq')|destruct Hcase as [Hq' _]]; by eapply client_ok_pushed.
  - intros q' ((u & Hu & Hfail) & Hst & fl' & own' & Hq'). wp_step. exists m1. cbn [fst]. rewrite Hlive, Hcons. split; [|by eapply client_ok_pushed].
    assert (tokens q' = tokens q1) as Et by (by destruct Hst as [(? & ? & ? & ->) _]).
    rewrite (view_unchanged m1 m1 n (n + cost tr x) q1 q' fl1 fl' own1 own' cont1 order1 (tokens q1) Hq1 Hq' Hsmall Hsmall' Et).
    rewrite <- (order_of_spec _ _ _ _ _ _ _ _ Hq1). by eapply step_from_thread_threw.
Qed.
Lemma thread_exits_answered tid m n k ts cts q cs :
  small n -> tls = true -> INITIAL_IMPLICIT_PRODUCER_HASH_SIZE tr <> 0 -> valid_id platform tid ->
  client_ok m n k ts cts (q, cs) ->
  wp (client tr ops malloc_ok indeterminate platform tls hash_bytes (ThreadExits tid))
    (answered m n k ts cts (ThreadExits tid) q) nothrow (q, cs).
Proof using TraitsOk0 Hassign.
  intros Hsmall Htls Hsize Hid Hok. pose proof Hok as [(fl & order & own & cont & Hq) Htok Hpar Hth Hno Hlive Hprod _]. cbn [fst snd] in *.
  pose proof (order_of_spec _ _ _ _ _ _ _ _ Hq) as Eo. specialize (Hth Hsize). apply wp_on_queue. wp_step.
  eapply wp_mono; [by eapply (thread_exits_spec tr malloc_ok platform tls hash_bytes home n q fl order own cont m k)| |done].
  cbn beta. intros _ q' (Hq' & Et & Htok' & Hpar' & Hth'). wp_step. answer (delete tid m).
  - cbn [fst]. rewrite (view_unchanged m _ n n q q' fl fl own own cont order (tokens q) Hq Hq' Hsmall Hsmall Et), <- Eo.
    apply step_thread_exits.
  - apply (client_ok_mono _ n _ k); [|lia..]. pose proof (order_of_spec _ _ _ _ _ _ _ _ Hq') as Eo'.
    split; cbn [fst snd]; rewrite ?Eo', <- ?Eo; try done; [by eexists _, _, _, _|by rewrite Et|].
    intros ct Hct. by eapply consumers_kept.
Qed.

(** ** Scripts *)

Lemma cost_pos (x : client_call U) : 1 <= cost tr x.
Proof using TraitsOk0.
  destruct x; cbn; try lia; pose proof (zlength_nonneg items); pose proof (block_size_gt_1 tr);
    pose proof (Z.div_pos (zlength items) B); lia.
Qed.

Lemma total_cost_length (l : list (client_call U)) : zlength l <= total_cost tr l.
Proof using TraitsOk0.
  induction l as [|x l IH]; [done|]. pose proof (cost_pos x). unfold zlength in *. cbn [length total_cost foldr] in *. unfold total_cost in IH. lia.
Qed.

Section scripts.
Context (j : nat) (Hsb : sb = 8 * 2 ^ Z.of_nat j).
Context (Hnoexcept : noexcept_ctor ops = true -> forall u, make ops u <> None).
Context (Htrivial : is_trivially_destructible ops = true -> forall u, make ops u <> None).

Lemma client_answered x m n k ts cts q cs :
  0 <= n -> small (n + cost tr x) -> k + 1 < 2 ^ 32 -> k + 1 < 2 ^ (sb - 2) -> client_ok m n k ts cts (q, cs) ->
  call_ok tr ops malloc_ok platform tls ts cts x ->
  wp (client tr ops malloc_ok indeterminate platform tls hash_bytes x) (answered m n k ts cts x q) nothrow (q, cs).
Proof using All.
  intros Hn Hsmall' Hk Hk2 Hok Hx. pose proof (cost_pos x) as Hcost.
  assert (small n) as Hsmall by (unfold small in *; pose proof (block_size_gt_1 tr); nia). destruct x.
  - by eapply new_token_answered.
  - by apply drop_token_answered.
  - by apply new_consumer_answered.
  - assert (client tr ops malloc_ok indeterminate platform tls hash_bytes (EnqueueWith allocMode t u) =
      if_valid t (let! ok := inner_enqueue_token tr ops malloc_ok indeterminate allocMode t u in ret (Accepted ok))) as -> by by destruct allocMode.
    destruct Hx. eapply (token_call_answered _ allocMode t [u]); try done. intros. by eapply inner_enqueue_token_spec.
  - assert (client tr ops malloc_ok indeterminate platform tls hash_bytes (EnqueueBulkWith allocMode t items) =
      if_valid t (let! ok := inner_enqueue_bulk_token tr ops malloc_ok indeterminate allocMode t items (zlength items) in ret (Accepted ok)))
      as -> by by destruct allocMode.
    destruct Hx as (? & ? & ?). eapply (token_call_answered _ allocMode t items); try done; [lia|].
    intros. by eapply inner_enqueue_bulk_token_spec.
  - assert (client tr ops malloc_ok indeterminate platform tls hash_bytes (EnqueueFrom allocMode tid u) =
      on_queue (accepted_or_threw (if_implicit tr (inner_enqueue tr ops malloc_ok indeterminate platform tls hash_bytes allocMode tid u)))) as ->
      by by destruct allocMode.
    eapply (thread_call_answered j _ allocMode tid [u]); try done. intros. by eapply implicit_enqueue_spec.
  - assert (client tr ops malloc_ok indeterminate platform tls hash_bytes (EnqueueBulkFrom allocMode tid items) =
      on_queue (accepted_or_threw (if_implicit tr (inner_enqueue_bulk tr ops malloc_ok indeterminate platform tls hash_bytes allocMode
        tid items (zlength items))))) as -> by by destruct allocMode.
    eapply (thread_call_answered j _ allocMode tid items); try done; [cbn [cost] in *; lia|].
    intros. eapply implicit_enqueue_bulk_spec; try done. unfold small in Hsmall'. cbn [cost] in Hsmall'. by rewrite <- Z.add_assoc.
  - destruct Hx as (Htls & Hsize & Hid). by apply thread_exits_answered.
  - by apply try_dequeue_answered.
  - by apply non_interleaved_answered.
  - by apply bulk_answered.
  - by apply consumer_token_answered.
  - destruct Hx. by apply bulk_token_answered.
  - by apply dequeue_from_answered.
  - by apply size_answered.
Qed.

Lemma run_clients_answered l m n k ts cts q cs :
  0 <= n -> small (n + total_cost tr l) -> k + zlength l < 2 ^ 32 -> k + zlength l < 2 ^ (sb - 2) ->
  client_ok m n k ts cts (q, cs) -> script_ok tr ops malloc_ok platform tls ts cts l ->
  wp (run_clients tr ops malloc_ok indeterminate platform tls hash_bytes l) (fun rs s' => exists m',
    steps tr ops malloc_ok (view_of m q) l rs (view_of m' (fst s')) /\
    client_ok m' (n + total_cost tr l) (k + zlength l) (foldl live_after ts l) (foldl consumers_after cts l) s') nothrow (q, cs).
Proof using All.
  revert m n k ts cts q cs. induction l as [|x l IH]; intros m n k ts cts q cs Hn Hsmall Hk Hk2 Hok Hl.
  { cbn. exists m. split; [constructor|]. eapply client_ok_mono; [exact Hok|unfold zlength; cbn; lia..]. }
  assert (zlength (x :: l) = 1 + zlength l) as El by (unfold zlength; cbn [length]; lia). rewrite El in *.
  pose proof (zlength_nonneg l). pose proof (block_size_gt_1 tr). destruct Hl as [Hx Hl]. cbn [run_clients total_cost foldr] in *. wp_step.
  fold (total_cost tr l) in *. pose proof (cost_pos x). pose proof (total_cost_length l).
  eapply wp_mono; [eapply (client_answered x m n k ts cts); try done; [unfold small in *; nia|lia|lia]| |done].
  cbn beta. intros a [q' cs'] (m1 & Hstep & Hok'). wp_step.
  eapply wp_mono; [eapply (IH m1 (n + cost tr x) (k + 1)); [lia|by rewrite <- Z.add_assoc|lia|lia|exact Hok'|exact Hl]| |done].
  cbn beta. intros rs s' (m2 & Hsteps & Hend). wp_step. exists m2. split; [by eapply steps_cons|]. by rewrite !Z.add_assoc.
Qed.
End scripts.
End client.
