(* ===== verification/ClientQueue.v ===== *)
(** What a [ConcurrentQueue] promises its clients, from its construction on:
    it implements the abstract queue of Client.v, loses and invents nothing,
    and each way to take elements out does what its documentation says. *)

From S2P Require Import Prelude MachineInt Traits FreeList Block BlockPool ProducerBase ProducerBaseProofs ExplicitProducer Contents Fifo ExplicitSpec ExplicitIndex ExplicitProofs ExplicitBulk ExplicitInject ExplicitEnqueueBulk ExplicitQueue ImplicitProducer ImplicitSpec ImplicitIndex ImplicitProofs ImplicitBulk ImplicitQueue ThreadExit ImplicitHash ImplicitHashProofs HashChain SubQueues SubQueuesProofs ConcurrentQueue QueueInvariant QueueTokens QueueThreads Client ClientProofs.

(** * Nothing is lost *)

Section abstract.
Context {U T R : Type} (tr : Traits) (ops : ElementOps U T R) (malloc_ok : nat -> bool).
Implicit Types (v : view R) (x : client_call U) (a : client_answer R) (c : list R).
#[local] Abbreviation step := (step tr ops malloc_ok).
#[local] Abbreviation steps := (steps tr ops malloc_ok).

(** What a call put in, and what it took out. *)
Definition put_in x a : list R :=
  match x, a with
  | EnqueueWith _ _ u, Accepted true => omap (passed ops) [u]
  | EnqueueBulkWith _ _ items, Accepted true => omap (passed ops) items
  | EnqueueFrom _ _ u, Accepted true => omap (passed ops) [u]
  | EnqueueBulkFrom _ _ items, Accepted true => omap (passed ops) items
  | _, _ => []
  end.
Definition taken_out a : list R :=
  match a with Got (Some r) => [r] | GotMany rs => rs | _ => [] end.

Fixpoint all_put_in (l : list (client_call U)) (rs : list (client_answer R)) : list R :=
  match l, rs with x :: l, a :: rs => put_in x a ++ all_put_in l rs | _, _ => [] end.
Definition all_taken_out (rs : list (client_answer R)) : list R := concat (taken_out <$> rs).

Lemma content_put v p c p' : content (put p c v) p' = if decide (p' = p) then c else content v p'.
Proof using Type.
  unfold content, put. cbn. destruct (decide (p' = p)) as [->|]; [by rewrite lookup_insert_eq|by rewrite lookup_insert_ne].
Qed.

Lemma concat_put v p c l : (p ∉ l) -> concat (content (put p c v) <$> l) = concat (content v <$> l).
Proof using Type.
  intros Hp. f_equal. apply list_fmap_ext. intros i p' Hi. rewrite content_put, decide_False; [done|].
  intros ->. apply Hp. by eapply list_elem_of_lookup_2.
Qed.

Lemma all_content_put v p c :
  NoDup (v_order v) -> p ∈ v_order v ->
  exists c1 c2, all_content v = c1 ++ content v p ++ c2 /\ all_content (put p c v) = c1 ++ c ++ c2.
Proof using Type.
  intros Hnd (l1 & l2 & E)%list_elem_of_split. unfold all_content, content_of. cbn [put v_order]. rewrite E in *.
  apply NoDup_app in Hnd as (_ & H1 & [H2 _]%NoDup_cons).
  assert (p ∉ l1) as Hp1 by (intros Hp; apply (H1 p Hp); by left).
  exists (concat (content v <$> l1)), (concat (content v <$> l2)).
  rewrite !fmap_app, !concat_app, !fmap_cons, !concat_cons.
  rewrite !(concat_put v p c) by done. by rewrite content_put, decide_True.
Qed.

Lemma taken_conserves v p r c :
  NoDup (v_order v) -> p ∈ v_order v -> content v p = r :: c ->
  all_content v ≡ₚ [r] ++ all_content (put p c v).
Proof using Type.
  intros Hnd Hp Hc. destruct (all_content_put v p c Hnd Hp) as (c1 & c2 & -> & ->). rewrite Hc. cbn.
  symmetry. apply Permutation_middle.
Qed.

Lemma enqueues_put_in x allocMode tid items :
  enqueues_from x = Some (allocMode, tid, items) \/ enqueues_with x = Some (allocMode, tid, items) -> put_in x (Accepted true) = omap (passed ops) items.
Proof using Type. destruct x; intros [[=]|[=]]; by subst. Qed.

Lemma enqueues_nothing x a : a <> Accepted true -> put_in x a = [].
Proof using Type. by destruct x, a as [| | |[]| | | |]. Qed.

Lemma passed_all items rs : Forall2 (fun u r => passed ops u = Some r) items rs -> omap (passed ops) items = rs.
Proof using Type. induction 1 as [|u r items rs Hu _ IH]; [done|]. cbn. by rewrite Hu, IH. Qed.

Lemma put_conserves v p rs :
  NoDup (v_order v) -> p ∈ v_order v -> all_content (put p (content v p ++ rs) v) ≡ₚ rs ++ all_content v.
Proof using Type.
  intros Hnd Hp. destruct (all_content_put v p (content v p ++ rs) Hnd Hp) as (c1 & c2 & -> & ->).
  rewrite (Permutation_app_comm rs (c1 ++ _)), <- !app_assoc. do 2 apply Permutation_app_head. apply Permutation_app_comm.
Qed.

Lemma all_content_add v p : (p ∉ v_order v) -> all_content (add p v) = all_content v.
Proof using Type.
  intros Hp. assert (all_content (add p v) = content (put p [] v) p ++ concat (content (put p [] v) <$> v_order v)) as -> by done.
  by rewrite content_put, decide_True, concat_put.
Qed.

Lemma acquires_conserves v tid p v1 :
  NoDup (v_order v) -> acquires malloc_ok v tid p v1 ->
  NoDup (v_order v1) /\ all_content v1 = all_content v /\ (p <> nullptr -> p ∈ v_order v1).
Proof using Type.
  intros Hnd []; cbn [v_order hire add]; try done.
  split; [by constructor|]. split; [by apply all_content_add|by left].
Qed.

Lemma step_conserves v x a v' :
  NoDup (v_order v) -> step v x a v' ->
  NoDup (v_order v') /\ put_in x a ++ all_content v ≡ₚ taken_out a ++ all_content v'.
Proof using Type.
  intros Hnd. destruct 1; cbn [put_in taken_out app] in *; try done.
  - split; [by constructor|]. by rewrite <- (all_content_add v p).
  - split; [done|]. rewrite (enqueues_put_in _ allocMode t items), (passed_all _ _ H2) by auto. by rewrite put_conserves.
  - by rewrite enqueues_nothing.
  - by rewrite enqueues_nothing.
  - destruct (acquires_conserves v tid p v1 Hnd H0) as (Hnd1 & E & Hp). split; [done|].
    by rewrite (enqueues_put_in _ _ _ _ (or_introl H)), (passed_all _ _ H2), put_conserves, E by auto.
  - destruct (acquires_conserves v tid p v1 Hnd H0) as (Hnd1 & E & _). by rewrite enqueues_nothing, E.
  - destruct (acquires_conserves v tid p v1 Hnd H0) as (Hnd1 & E & _). by rewrite enqueues_nothing, E.
  - by rewrite enqueues_nothing.
  - split; [done|]. apply taken_conserves; [done| |done]. unfold candidates in H.
    apply elem_of_take in H as (i & Hi & _). apply list_elem_of_lookup_2 in Hi. by apply list_elem_of_filter in Hi as [_ ?].
  - split; [done|]. apply taken_conserves; [done| |done]. rewrite H. apply elem_of_app. right. by left.
  - split; [by rewrite H|]. by rewrite H3, take_drop.
  - split; [done|]. by apply taken_conserves.
  - split; [by rewrite H0|]. unfold all_content. rewrite H0, H. assert (forall u : view R, content_of u (before ++ after) ≡ₚ content_of u (after ++ before)) as E.
    { intros u. unfold content_of. rewrite !fmap_app, !concat_app. apply Permutation_app_comm. }
    by rewrite !E, H4, take_drop.
  - split; [done|]. by apply taken_conserves.
Qed.

Lemma steps_conserve v l rs v' :
  NoDup (v_order v) -> steps v l rs v' ->
  all_put_in l rs ++ all_content v ≡ₚ all_taken_out rs ++ all_content v'.
Proof using Type.
  intros Hnd Hl. induction Hl as [v|v x a v1 l rs v2 Hx _ IH]; [done|].
  apply step_conserves in Hx as [Hnd1 Hx]; [|done]. specialize (IH Hnd1).
  unfold all_taken_out in *. rewrite fmap_cons, concat_cons. cbn [all_put_in].
  rewrite <- !app_assoc, <- IH, (app_assoc (put_in x a)), (Permutation_app_comm (put_in x a)), <- app_assoc, Hx.
  rewrite !app_assoc. apply Permutation_app_tail, Permutation_app_comm.
Qed.
End abstract.

(** * The queue *)

Section queue.
Context {U T R : Type} (tr : Traits) `{!TraitsOk tr} (ops : ElementOps U T R).
Context (malloc_ok : nat -> bool) (indeterminate : Indeterminate).
Context (platform : ThreadIdPlatform) (tls : bool) (hash_bytes : Z).
#[local] Abbreviation sb := (size_bits tr).
#[local] Abbreviation B := (BLOCK_SIZE tr).
#[local] Abbreviation Q := (ConcurrentQueue T).
#[local] Abbreviation view_of := (view_of tr ops).
#[local] Abbreviation contents_of := (contents_of tr ops).
#[local] Abbreviation construct := (ConcurrentQueue_ctor tr malloc_ok indeterminate platform).
Implicit Types (q : Q) (p t : loc) (v : view R) (n : Z).

Definition no_views : view R := mkView [] ∅ ∅ ∅.

(** The constructor makes a queue without producers and without threads,
    whether or not its blocks could be allocated.  The first table of the hash
    is a part of the queue, so no allocation is at the address [hash]. *)
Definition fresh_queue q : Prop :=
  queue_repr tr malloc_ok 0 q [] [] (fun _ => []) (fun _ => []) /\ tokens q = ∅ /\ producers q = ∅ /\
  (INITIAL_IMPLICIT_PRODUCER_HASH_SIZE tr <> 0 -> threads_ok tr platform tls hash_bytes q ∅ 0).

Lemma no_threads_ok q (main : loc) m0 hs :
  hash_inv tr platform (hashed tr hash_bytes) (q_hash q) ∅ 0 main m0 hs -> inserting q 0 -> tables_low q ->
  producers q = ∅ -> q_exit q = mkExit ∅ ∅ -> threads_ok tr platform tls hash_bytes q ∅ 0.
Proof using Type.
  intros Hinv Hins Hlow Eps Ee. split; try done.
  - by exists main, m0, hs, 0.
  - intros p x. by rewrite Eps, lookup_empty.
  - intros _. rewrite Ee. split; [|done]. split; try done.
    + intros tid. cbn. constructor.
    + intros tid l. cbn. split; [by intros ?%not_elem_of_nil|by intros (? & ? & _)].
Qed.

Lemma empty_repr q fl :
  producerListTail q = nullptr -> producerCount q = 0 -> producers q = ∅ -> pool_inv tr (q_mem q) fl ->
  (forall b, is_Some (blocks (q_mem q) !! b) -> available (q_mem q) fl b) ->
  queue_repr tr malloc_ok 0 q fl [] (fun _ => []) (fun _ => []).
Proof using Type.
  intros E1 E2 E3 Hpool Hall. split; rewrite ?E1, ?E2, ?E3; try done.
  - constructor.
  - by intros [] ? ? [=].
  - by intros p [x Hx].
  - by intros p ?%not_elem_of_nil.
  - by intros p p' ?%not_elem_of_nil.
  - intros b Hb. left. by apply Hall.
Qed.

(** The size of the initial array of blocks is a [size_t]. *)
#[local] Abbreviation fits capacity := (array_fits tr (blocks_for_capacity tr capacity)).

Lemma populate_fresh capacity q :
  fits capacity ->
  producerListTail q = nullptr -> producerCount q = 0 -> producers q = ∅ -> tokens q = ∅ -> q_mem q = init_mem -> q_exit q = mkExit ∅ ∅ ->
  (INITIAL_IMPLICIT_PRODUCER_HASH_SIZE tr <> 0 -> inserting q 0 /\ exists (main : loc) m0,
    hash_inv tr platform (hashed tr hash_bytes) (q_hash q) ∅ 0 main m0 [] /\ dom (tables (q_hash q)) = {[main]} /\ main < 0) ->
  wp (in_mem (populate_initial_block_list tr malloc_ok indeterminate (blocks_for_capacity tr capacity)))
    (fun _ q' => fresh_queue q' /\ home_of q' = home_of q) nothrow q.
Proof using TraitsOk0.
  intros Hfit E1 E2 E3 E4 E5 E6 Hhash. pose proof (size_le_index tr). unfold in_mem. wp_step. rewrite E5.
  eapply wp_mono; [eapply (populate_spec tr malloc_ok indeterminate init_mem []); [by apply init_mem_inv| |done|done|done]| |done].
  { unfold blocks_for_capacity. apply wrap_range. lia. }
  cbn beta. intros _ m (Hpool & _ & _ & Hnew). split; [|done]. split; [|split; [done|split; [done|]]].
  - apply empty_repr; try done. intros b [Hb|?]%Hnew; [|done]. cbn in Hb. rewrite lookup_empty in Hb. by destruct Hb.
  - intros (Hins & main & m0 & Hinv & Hdom & Hmain)%Hhash. apply (no_threads_ok _ main m0 []); [done|done| |done|done].
    intros y Hy%elem_of_dom. cbn in Hy |- *. rewrite Hdom in Hy. apply elem_of_singleton in Hy as ->.
    pose proof (pi_next _ _ _ Hpool). lia.
Qed.

Lemma construct_spec capacity this hash :
  hash < 0 -> fits capacity -> wp (construct capacity) (fun _ q => fresh_queue q /\ home_of q = (this, hash)) nothrow (raw_queue this hash).
Proof using TraitsOk0.
  intros Hhash Hfit. unfold ConcurrentQueue_ctor, construct_queue, clear_resizing. wp_step. apply wp_in_hash. wp_step. wp_step. apply wp_in_hash.
  cbn [q_hash set_q_hash raw_queue]. destruct (decide (INITIAL_IMPLICIT_PRODUCER_HASH_SIZE tr = 0)) as [E|Hsize].
  - unfold populate_initial_implicit_producer_hash. rewrite E, Z.eqb_refl. wp_step. eapply wp_mono; [by apply populate_fresh| |done]. by intros _ q [].
  - eapply wp_mono; [eapply (populate_hash_spec tr platform (hashed tr hash_bytes)); [done| |done]| |done].
    { cbn. unfold nullptr. lia. }
    cbn beta. intros _ h (Hinv & Hcount & Hres & Ei & Hdom).
    eapply wp_mono; [apply populate_fresh; try done| |done].
    + intros _. split; [by split|]. exists hash, ∅. by split.
    + cbn beta. intros _ q [Hq ->]. split; [done|]. unfold home_of. cbn. by rewrite Ei.
Qed.

(** Clients can start with a fresh queue. *)
Lemma fresh_ok (Hassign : forall x, assign ops x <> None) home q :
  fresh_queue q -> home_of q = home ->
  view_of ∅ q = no_views /\ client_ok tr malloc_ok platform tls hash_bytes home ∅ 0 0 ∅ ∅ (q, ∅).
Proof using TraitsOk0.
  intros (Hq & Et & Eps & Hth) Eh. pose proof (order_of_spec _ _ _ _ _ _ _ _ Hq) as Eo.
  assert (queue_good tr malloc_ok 0 q) as Hgood by (by eexists _, _, _, _). split.
  - apply view_eq; [done|done|done|]. intros p. rewrite (view_queues tr ops malloc_ok ∅ 0), Eo by done. by rewrite decide_False by apply not_elem_of_nil.
  - split; cbn [fst snd]; rewrite ?Eo, ?Et; try done.
    + split; [intros t p; by rewrite Et, lookup_empty|intros p x; by rewrite Eps, lookup_empty].
    + split; [done|]. intros p x. by rewrite Eps, lookup_empty.
    + intros _. split; [done|]. intros p x. by rewrite Eps, lookup_empty.
Qed.

Lemma constructed_ok (Hassign : forall x, assign ops x <> None) capacity this hash :
  hash < 0 -> fits capacity ->
  wp (on_queue (construct capacity)) (fun _ s => view_of ∅ (fst s) = no_views /\
    exists q, s = (q, ∅) /\ client_ok tr malloc_ok platform tls hash_bytes (this, hash) ∅ 0 0 ∅ ∅ (q, ∅)) nothrow (raw_queue this hash, ∅).
Proof using TraitsOk0.
  intros Hhash Hfit. apply wp_zoom. eapply wp_mono; [by apply construct_spec| |done]. cbn beta. intros _ q [Hq Eh]. cbn [fst snd].
  destruct (fresh_ok Hassign _ q Hq Eh) as [Ev Hok]. split; [done|]. by exists q.
Qed.

(** The life of a queue and its clients. *)
Definition life capacity (l : list (client_call U)) : M (Q * gmap loc ConsumerToken) (list (client_answer R)) :=
  on_queue (construct capacity);; run_clients tr ops malloc_ok indeterminate platform tls hash_bytes l.

Section promises.
Context (Hassign : forall x, assign ops x <> None).
Context (j : nat) (Hsb : sb = 8 * 2 ^ Z.of_nat j).

Context (Hnoexcept : noexcept_ctor ops = true -> forall u, make ops u <> None).
Context (Htrivial : is_trivially_destructible ops = true -> forall u, make ops u <> None).

Lemma life_spec capacity this hash l :
  hash < 0 -> fits capacity -> script_ok tr ops malloc_ok platform tls ∅ ∅ l -> total_cost tr l * B < 2 ^ (sb - 1) -> zlength l < 2 ^ 32 ->
  wp (life capacity l) (fun rs s => exists m, steps tr ops malloc_ok no_views l rs (view_of m (fst s)) /\
    client_ok tr malloc_ok platform tls hash_bytes (this, hash) m (total_cost tr l) (zlength l)
      (foldl live_after ∅ l) (foldl consumers_after ∅ l) s) nothrow (raw_queue this hash, ∅).
Proof using All.
  intros Hhash Hfit Hl Hsmall Hk. unfold life. wp_step. eapply wp_mono; [by apply constructed_ok| |done].
  cbn beta. intros _ s (Ev & q & -> & Hok). cbn [fst] in Ev. rewrite <- Ev.
  assert (zlength l < 2 ^ (sb - 2)) as Hk2.
  { pose proof (total_cost_length tr l). pose proof (zlength_nonneg l). pose proof (block_size_gt_1 tr). pose proof (traits_size (tr := tr)).
    assert (2 ^ (sb - 1) = 2 * 2 ^ (sb - 2)) as E; [|nia]. rewrite <- Z.pow_succ_r by lia. f_equal. lia. }
  by eapply (run_clients_answered tr ops malloc_ok indeterminate platform tls hash_bytes (this, hash) Hassign j Hsb Hnoexcept Htrivial l ∅ 0 0).
Qed.
End promises.

(** C1: From its construction on, a queue answers its clients -- producer tokens
    that are created, used and destroyed, threads that enqueue without a token
    until they exit, elements whose constructors throw, and every way to
    dequeue -- as the abstract queue of FIFO queues may, whichever allocations
    fail.  It never faults and always answers.  The script is well-formed: what
    is enqueued with a producer token has a constructor that does not throw, and
    goes in bulk only where nothing can refuse the blocks; no assignment throws;
    the initial array of blocks fits into memory. *)
Theorem queue_refines_fifo_queues (j : nat) capacity this hash l :
  sb = 8 * 2 ^ Z.of_nat j ->
  (forall x, assign ops x <> None) -> (noexcept_ctor ops = true -> forall u, make ops u <> None) ->
  (is_trivially_destructible ops = true -> forall u, make ops u <> None) -> hash < 0 -> array_fits tr (blocks_for_capacity tr capacity) ->
  script_ok tr ops malloc_ok platform tls ∅ ∅ l -> total_cost tr l * B < 2 ^ (sb - 1) -> zlength l < 2 ^ 32 ->
  exists rs s (m : gmap Z loc), life capacity l (raw_queue this hash, ∅) = Ok rs s /\
    steps tr ops malloc_ok no_views l rs (view_of m (fst s)).
Proof using TraitsOk0.
  intros Hsb Hassign Hnoexcept Htrivial Hhash Hfit Hl Hsmall Hk.
  destruct (wp_nothrow_ok _ _ _ (life_spec Hassign j Hsb Hnoexcept Htrivial capacity this hash l Hhash Hfit Hl Hsmall Hk))
    as (rs & s & E & m & H & _). by exists rs, s, m.
Qed.

(** C2: After any well-formed script of client calls ([script_ok]: single
    elements enqueued with a producer token have constructors that do not throw,
    elements are enqueued in bulk with a token only where nothing can refuse the
    blocks), the assignments of elements not throwing, what clients put into a
    queue is exactly what they took out and what is still in it: no element is
    lost, duplicated or invented, even when constructors of elements enqueued by
    threads throw, tokens are destroyed and threads exit. *)
Theorem queue_conserves_elements (j : nat) capacity this hash l :
  sb = 8 * 2 ^ Z.of_nat j ->
  (forall x, assign ops x <> None) -> (noexcept_ctor ops = true -> forall u, make ops u <> None) ->
  (is_trivially_destructible ops = true -> forall u, make ops u <> None) -> hash < 0 -> array_fits tr (blocks_for_capacity tr capacity) ->
  script_ok tr ops malloc_ok platform tls ∅ ∅ l -> total_cost tr l * B < 2 ^ (sb - 1) -> zlength l < 2 ^ 32 ->
  exists rs s, life capacity l (raw_queue this hash, ∅) = Ok rs s /\
    all_put_in ops l rs ≡ₚ all_taken_out rs ++ concat (contents_of (fst s) <$> order_of (fst s)).
Proof using TraitsOk0.
  intros Hsb Hassign Hnoexcept Htrivial Hhash Hfit Hl Hsmall Hk.
  destruct (wp_nothrow_ok _ _ _ (life_spec Hassign j Hsb Hnoexcept Htrivial capacity this hash l Hhash Hfit Hl Hsmall Hk))
    as (rs & s & E & m & H & []). exists rs, s. split; [done|].
  apply steps_conserve in H; [|constructor]. change (all_content no_views) with (@nil R) in H. rewrite app_nil_r in H.
  rewrite H. unfold all_content. assert (content (view_of m (fst s)) <$> order_of (fst s) = contents_of (fst s) <$> order_of (fst s)) as <-;
    [|done]. apply list_fmap_ext. intros i p _. by eapply content_view.
Qed.

(** C7: At any time of a queue's life (a well-formed script), a producer that is in use belongs to one
    token or one thread, of its kind: a live token with a producer owns an
    explicit one that points back to it, and the hash finds for every thread
    the implicit producer that it alone owns; every implicit producer in use is
    found in this way. *)
Theorem ownership_well_formed (j : nat) capacity this hash l :
  sb = 8 * 2 ^ Z.of_nat j ->
  INITIAL_IMPLICIT_PRODUCER_HASH_SIZE tr <> 0 ->
  (forall x, assign ops x <> None) -> (noexcept_ctor ops = true -> forall u, make ops u <> None) ->
  (is_trivially_destructible ops = true -> forall u, make ops u <> None) -> hash < 0 -> array_fits tr (blocks_for_capacity tr capacity) ->
  script_ok tr ops malloc_ok platform tls ∅ ∅ l -> total_cost tr l * B < 2 ^ (sb - 1) -> zlength l < 2 ^ 32 ->
  exists rs s (m : gmap Z loc), life capacity l (raw_queue this hash, ∅) = Ok rs s /\
    (forall tid, valid_id platform tid -> exists h,
       find_producer tr platform tls tid (hashed tr hash_bytes tid) (q_hash (fst s)) = Ok (m !! tid) h) /\
    (forall t p, tokens (fst s) !! t = Some p -> p <> nullptr -> exists x, producers (fst s) !! p = Some x /\
       p_token x = t /\ p_inactive x = false /\ is_explicit (p_body x) = true) /\
    (forall tid p, m !! tid = Some p -> exists x, producers (fst s) !! p = Some x /\
       p_inactive x = false /\ is_explicit (p_body x) = false /\ forall tid', m !! tid' = Some p -> tid' = tid) /\
    (forall p x, producers (fst s) !! p = Some x -> p_inactive x = false -> is_explicit (p_body x) = false ->
       exists tid, m !! tid = Some p) /\
    (forall p x, producers (fst s) !! p = Some x -> p_parent x = q_address (fst s)) /\
    producerCount (fst s) = zlength (order_of (fst s)) /\ NoDup (order_of (fst s)).
Proof using TraitsOk0.
  intros Hsb Hsize Hassign Hnoexcept Htrivial Hhash Hfit Hl Hsmall Hk.
  destruct (wp_nothrow_ok _ _ _ (life_spec Hassign j Hsb Hnoexcept Htrivial capacity this hash l Hhash Hfit Hl Hsmall Hk))
    as (rs & s & E & m & _ & [(fl & order & own & cont & Hq) Htok Hpar Hth _ _ _ _]).
  destruct (Hth Hsize) as [(main & m0 & hs & c & Hinv & _) _ Hprod Hinj Hown _]. exists rs, s, m. split; [done|].
  split; [|split; [by apply tk_producer|split; [|split; [done|split; [apply Hpar|]]]]].
  - intros tid Hid. destruct (wp_nothrow_ok _ _ _ (find_producer_spec tr platform (hashed tr hash_bytes) tls _ _ _ _ _ _ tid Hinv Hid))
      as (r & h & Er & -> & _). by exists h.
  - intros tid p Hp. destruct (Hprod tid p Hp) as (_ & x & Hx & Hi & Hkind). exists x. split; [done|]. split; [done|].
    split; [done|]. intros tid' Hp'. by eapply Hinj.
  - rewrite (order_of_spec _ _ _ _ _ _ _ _ Hq). split; [apply (qr_count _ _ _ _ _ _ _ _ Hq)|apply (qr_nodup _ _ _ _ _ _ _ _ Hq)].
Qed.

(** ** The operations one by one, on any queue that clients can reach *)

#[local] Abbreviation good := (queue_good tr malloc_ok).
#[local] Existing Instance queue_sub_queues.

(** The elements of [p] are [c] in [q'], and nothing else has changed. *)
Definition only_changed q p (c : list R) q' : Prop :=
  order_of q' = order_of q /\ tokens q' = tokens q /\
  forall p', contents_of q' p' = if decide (p' = p) then c else contents_of q p'.

Definition all_elements_of q : list R := concat (contents_of q <$> order_of q).

Section operations.
Context (Hassign : forall x, assign ops x <> None) (n : Z) (Hsmall : n * B < 2 ^ (sb - 1)).
Context (q : Q) (Hq : good n q).
#[local] Abbreviation laws := (queue_laws tr ops malloc_ok Hassign n Hsmall q).

Lemma good_ok : sq_inv (SubQueuesLaws := laws) q.
Proof using Hq. split; [done|apply stable_refl]. Qed.

Lemma taken_changed p r (c : list R) q' :
  contents_of q p = r :: c -> sq_taken (SubQueuesLaws := laws) q p 1 q' -> good n q' /\ only_changed q p c q'.
Proof using Type.
  intros Hc ((Hq' & Hst) & Eo & _ & Hc'). cbn in Eo, Hc'. split; [done|]. split; [done|].
  split; [by destruct Hst as [(? & ? & ? & ->) _]|]. intros p'. by rewrite Hc', Hc.
Qed.
End operations.

(** C20: [try_dequeue] takes the front element of the longest of the first three
    producers that have elements; it comes back with nothing only when no
    producer has any, and then the queue is as it was. *)
Theorem try_dequeue_correct n q :
  (forall x, assign ops x <> None) -> n * B < 2 ^ (sb - 1) -> good n q ->
  exists r q', queue_try_dequeue tr ops q = Ok r q' /\ good n q' /\
    match r with
    | None => q' = q /\ forall p, p ∈ order_of q -> contents_of q p = []
    | Some x => exists p c,
        p ∈ take 3 (filter (fun p => contents_of q p <> []) (order_of q)) /\
        (forall p', p' ∈ take 3 (filter (fun p => contents_of q p <> []) (order_of q)) ->
           zlength (contents_of q p') <= zlength (contents_of q p)) /\
        contents_of q p = x :: c /\ only_changed q p c q'
    end.
Proof using TraitsOk0.
  intros Hassign Hsmall Hq. pose proof (good_ok Hassign n Hsmall q Hq) as Hok.
  destruct (wp_nothrow_ok _ _ _ (try_dequeue_spec q Hok)) as ([x|] & q' & E & H).
  - destruct H as (p & c & Hp & Hc & Ht & Hmax). destruct (taken_changed Hassign n Hsmall q p x c q' Hc Ht) as [Hq' Hch].
    exists (Some x), q'. split; [done|]. split; [done|]. by exists p, c.
  - destruct H as [-> H]. by exists None, q.
Qed.

(** C30: [try_dequeue_non_interleaved] takes the front element of the first
    producer that has one. *)
Theorem try_dequeue_non_interleaved_correct n q :
  (forall x, assign ops x <> None) -> n * B < 2 ^ (sb - 1) -> good n q ->
  exists r q', queue_try_dequeue_non_interleaved tr ops q = Ok r q' /\ good n q' /\
    match r with
    | None => q' = q /\ forall p, p ∈ order_of q -> contents_of q p = []
    | Some x => exists before p after c, order_of q = before ++ p :: after /\
        (forall p', p' ∈ before -> contents_of q p' = []) /\ contents_of q p = x :: c /\ only_changed q p c q'
    end.
Proof using TraitsOk0.
  intros Hassign Hsmall Hq. pose proof (good_ok Hassign n Hsmall q Hq) as Hok.
  destruct (wp_nothrow_ok _ _ _ (try_dequeue_non_interleaved_spec q Hok)) as ([x|] & q' & E & H).
  - destruct H as (before & p & after & c & Ho & Hb & Hc & Ht). destruct (taken_changed Hassign n Hsmall q p x c q' Hc Ht) as [Hq' Hch].
    exists (Some x), q'. split; [done|]. split; [done|]. by exists before, p, after, c.
  - destruct H as [-> H]. by exists None, q.
Qed.

(** C31: [try_dequeue_bulk] delivers the first [max] elements of all producers, one
    producer after the other, and leaves the others where they were. *)
Theorem try_dequeue_bulk_correct n q max :
  (forall x, assign ops x <> None) -> n * B < 2 ^ (sb - 1) -> good n q -> 0 <= max < 2 ^ sb ->
  exists q', queue_try_dequeue_bulk tr ops max q = Ok (take (Z.to_nat max) (all_elements_of q)) q' /\
    good n q' /\ order_of q' = order_of q /\ all_elements_of q' = drop (Z.to_nat max) (all_elements_of q) /\
    forall p, exists k, contents_of q' p = drop k (contents_of q p).
Proof using TraitsOk0.
  intros Hassign Hsmall Hq Hmax. pose proof (good_ok Hassign n Hsmall q Hq) as Hok.
  destruct (wp_nothrow_ok _ _ _ (try_dequeue_bulk_spec tr q max Hok Hmax)) as (rs & q' & E & -> & ((Hq' & _) & Eo & _ & He & Hk & _)).
  exists q'. split; [done|]. split; [done|]. split; [done|]. split; [|done]. unfold all_elements_of. cbn in Eo. rewrite Eo. exact He.
Qed.

(** C32: [size_approx] on a queue at rest is exact. *)
Theorem queue_size_exact n q :
  (forall x, assign ops x <> None) -> n * B < 2 ^ (sb - 1) -> good n q -> zlength (all_elements_of q) < 2 ^ sb ->
  queue_size_approx tr (SubQueues0 := queue_sub_queues tr ops) q = Ok (zlength (all_elements_of q)) q.
Proof using TraitsOk0.
  intros Hassign Hsmall Hq Hlen. pose proof (good_ok Hassign n Hsmall q Hq) as Hok.
  by destruct (wp_nothrow_ok _ _ _ (queue_size_spec tr q Hok Hlen)) as (r & q' & E & -> & ->).
Qed.

(** C21: [try_dequeue] with a consumer token first moves the token if it is new
    or does not know of the last rotation ([rotated]: to its own place, then one
    place on for every rotation).  Then it takes the front element of the first
    producer that has one, going around the list from the token's current
    producer; it comes back with nothing only when no producer has any.  The
    token then points to the producer of the element and has counted it; when
    that producer is still the current one and the count has reached the quota,
    all tokens are told to move on. *)
Theorem try_dequeue_token_correct n q token :
  (forall x, assign ops x <> None) -> n * B < 2 ^ (sb - 1) -> good n q ->
  desiredProducer token = nullptr \/ desiredProducer token ∈ order_of q /\ currentProducer token ∈ order_of q ->
  let t0 := rotated (order_of q) (globalExplicitConsumerOffset q) token in
  exists r q' token', queue_try_dequeue_token tr ops (q, token) = Ok r (q', token') /\ good n q' /\
    (desiredProducer token' = nullptr \/ desiredProducer token' ∈ order_of q' /\ currentProducer token' ∈ order_of q') /\
    match r with
    | None => q' = q /\ token' = t0 /\ forall p, p ∈ order_of q -> contents_of q p = []
    | Some x => exists before p after c,
        from_on (order_of q) (currentProducer t0) = before ++ p :: after /\
        (forall p', p' ∈ before -> contents_of q p' = []) /\ contents_of q p = x :: c /\ only_changed q p c q' /\
        let consumed := if p =? currentProducer t0 then wrap 32 (itemsConsumedFromCurrent t0 + 1) else 1 in
        token' = set_consumed consumed (set_current p t0) /\
        globalExplicitConsumerOffset q' =
          (if (p =? currentProducer t0) && (consumed =? EXPLICIT_CONSUMER_CONSUMPTION_QUOTA_BEFORE_ROTATE tr)
           then wrap 32 (globalExplicitConsumerOffset q + 1) else globalExplicitConsumerOffset q)
    end.
Proof using TraitsOk0.
  intros Hassign Hsmall Hq Htok t0. pose proof (good_ok Hassign n Hsmall q Hq) as Hok.
  destruct (wp_nothrow_ok _ _ _ (try_dequeue_token_spec tr q token Hok Htok)) as (r & [q' token'] & E & H). cbn [fst snd] in H.
  pose proof (token_took_ok tr q token r q' token' Hok Htok H) as Htok'. exists r, q', token'. split; [done|]. destruct r as [x|].
  - destruct H as (before & p & after & c & Ep & Hb & Hc & (Hq' & Hst) & Eo & Hc' & Hrest). split; [done|]. split; [done|].
    exists before, p, after, c. split; [done|]. split; [done|]. split; [done|]. split; [|done]. split; [done|].
    split; [by destruct Hst as [(? & ? & ? & ->) _]|done].
  - destruct H as (-> & -> & H). by split_and!.
Qed.

(** C22: [try_dequeue_bulk] with a consumer token first moves the token, as
    [try_dequeue] does.  Then it delivers the first [max] elements that are found
    going once around the list of producers, starting with the token's current
    one; so it comes back with fewer only when all producers are empty.  If the
    current producer had them all, the token counts them, and all tokens are
    told to move on when the quota is reached; otherwise the token goes on to
    the last producer it took elements from, and counts those ([follow]). *)
Theorem try_dequeue_bulk_token_correct n q token max :
  (forall x, assign ops x <> None) -> n * B < 2 ^ (sb - 1) -> good n q -> 0 <= max < 2 ^ sb ->
  desiredProducer token = nullptr \/ desiredProducer token ∈ order_of q /\ currentProducer token ∈ order_of q ->
  let t0 := rotated (order_of q) (globalExplicitConsumerOffset q) token in
  let around := from_on (order_of q) (currentProducer t0) in
  let here := zlength (contents_of q (currentProducer t0)) in
  exists rs q' token', queue_try_dequeue_bulk_token tr ops max (q, token) = Ok rs (q', token') /\
    (desiredProducer token' = nullptr \/ desiredProducer token' ∈ order_of q' /\ currentProducer token' ∈ order_of q') /\
    if bool_decide (order_of q = []) then rs = [] /\ q' = q /\ token' = token
    else
      rs = take (Z.to_nat max) (concat (contents_of q <$> around)) /\ good n q' /\ order_of q' = order_of q /\ tokens q' = tokens q /\
      concat (contents_of q' <$> around) = drop (Z.to_nat max) (concat (contents_of q <$> around)) /\
      (forall p, exists k, contents_of q' p = drop k (contents_of q p)) /\
      if max <=? here then
        let consumed := wrap 32 (itemsConsumedFromCurrent t0 + wrap 32 max) in
        token' = set_consumed consumed t0 /\
        globalExplicitConsumerOffset q' =
          (if EXPLICIT_CONSUMER_CONSUMPTION_QUOTA_BEFORE_ROTATE tr <=? consumed
           then wrap 32 (globalExplicitConsumerOffset q + 1) else globalExplicitConsumerOffset q)
      else
        token' = follow (contents_of q) (tail around) (max - here)
                   (set_consumed (wrap 32 (itemsConsumedFromCurrent t0 + wrap 32 here)) t0) /\
        globalExplicitConsumerOffset q' = globalExplicitConsumerOffset q.
Proof using TraitsOk0.
  intros Hassign Hsmall Hq Hmax Htok t0 around here. pose proof (good_ok Hassign n Hsmall q Hq) as Hok.
  destruct (wp_nothrow_ok _ _ _ (try_dequeue_bulk_token_spec tr q token max Hok Htok Hmax)) as (rs & [q' token'] & E & Htok' & H).
  exists rs, q', token'. split; [done|]. split; [done|]. unfold token_drained in H. cbn [fst snd] in H.
  change (sq_order q) with (order_of q) in H. case_bool_decide as Eo0; [done|].
  destruct H as (Hrs & (Hq' & Hst) & Eo & He & Hk & Hrest).
  split; [exact Hrs|]. split; [done|]. split; [done|]. split; [by destruct Hst as [(? & ? & ? & ->) _]|]. by split_and!.
Qed.
End queue.

(** * Example: tokens that are re-used, threads that exit, a copy that throws *)

Section example.
(** The fourth allocation fails, that of the producer of the token 902; copying
    666 throws. *)
#[local] Abbreviation memory := (fun n : nat => negb (Nat.eqb n 3)).
#[local] Abbreviation S0 := (raw_queue (-1) (-2) : ConcurrentQueue Z, ∅ : gmap loc ConsumerToken).

Definition copied_integers : ElementOps Z Z Z :=
  mkElementOps Z Z Z (fun u => if u =? 666 then None else Some u) false Some true false.

Definition client_script : list (client_call Z) :=
  [NewToken 901; NewToken 902; NewConsumer 950; NewToken 903; NewToken 904; EnqueueWith CanAlloc 902 99] ++
  (EnqueueWith CanAlloc 901 <$> [1; 2; 3; 4; 5]) ++ (EnqueueWith CanAlloc 903 <$> [6; 7; 8]) ++
  [EnqueueWith CannotAlloc 904 9; TryDequeue; TryDequeueWith 950; DropToken 901; NewToken 905;
   EnqueueWith CanAlloc 905 10; EnqueueWith CanAlloc 904 11; EnqueueFrom CanAlloc 1000 20;
   EnqueueBulkFrom CanAlloc 1016 [30; 31; 32; 33; 34]; EnqueueBulkFrom CanAlloc 1016 [35; 666; 36];
   EnqueueFrom CanAlloc 1032 666; EnqueueFrom CanAlloc 1000 21; ThreadExits 1000; EnqueueFrom CanAlloc 1048 50;
   SizeApprox; TryDequeueFrom 905; TryDequeueBulk 8].

Definition client_life : M (ConcurrentQueue Z * gmap loc ConsumerToken) (list (client_answer Z)) :=
  life small_traits copied_integers memory (fun _ _ => false) ThreadLocalAddress true 8 6 client_script.

Lemma client_script_ok : script_ok small_traits copied_integers memory ThreadLocalAddress true ∅ ∅ client_script.
Proof.
  repeat (split; [first [done | apply (bool_decide_eq_true_1 _); by vm_compute
                        | split; [apply (bool_decide_eq_true_1 _); by vm_compute|done]]|]). done.
Qed.
(** The token 905 inherits what the token 901 left, the thread 1048 what the
    thread 1000 left. *)
Example client_answers :
  match client_life S0 with Ok rs _ => rs | _ => [] end =
  [TokenValid true; TokenValid false; Done; TokenValid true; TokenValid true; NotValid] ++
  replicate 8 (Accepted true) ++
  [Accepted false; Got (Some 1); Got (Some 6); Done; TokenValid true; Accepted true; Accepted true; Accepted true;
   Accepted true; Threw; Threw; Accepted true; Done; Accepted true;
   Size 16; Got (Some 2); GotMany [30; 31; 32; 33; 34; 20; 21; 50]].
Proof. vm_compute. reflexivity. Qed.

Lemma queue_refines_fifo_queues_witness :
  exists rs s (m : gmap Z loc), client_life S0 = Ok rs s /\
    steps small_traits copied_integers memory no_views client_script rs (view_of small_traits copied_integers m (fst s)).
Proof.
  apply (queue_refines_fifo_queues small_traits copied_integers memory (fun _ _ => false) ThreadLocalAddress true 8 2);
    [reflexivity|done|done|done|done|reflexivity|exact client_script_ok|reflexivity|reflexivity].
Defined.

(** Tokens that enqueue in bulk; there is memory. *)
Definition bulk_script : list (client_call Z) :=
  [NewToken 901; NewConsumer 950; EnqueueWith CanAlloc 901 1; EnqueueBulkWith CanAlloc 901 [2; 3; 4; 5; 6; 7; 8; 9; 10]; EnqueueBulkFrom CanAlloc 1000 [21; 22];
   TryDequeueBulkWith 950 9; EnqueueBulkWith CanAlloc 901 []; EnqueueBulkWith CanAlloc 901 [11; 12; 13]; EnqueueWith CanAlloc 901 14; SizeApprox;
   DropToken 901; NewToken 902; EnqueueBulkWith CanAlloc 902 [15; 16]; TryDequeueFrom 902; TryDequeueBulk 4; TryDequeueBulkWith 950 7; TryDequeueBulkWith 950 1].

Definition bulk_life : M (ConcurrentQueue Z * gmap loc ConsumerToken) (list (client_answer Z)) :=
  life small_traits copied_integers (fun _ => true) (fun _ _ => false) ThreadLocalAddress true 8 6 bulk_script.

Lemma bulk_script_ok : script_ok small_traits copied_integers (fun _ => true) ThreadLocalAddress true ∅ ∅ bulk_script.
Proof.
  assert (unlimited small_traits (fun _ => true) CanAlloc) as Hun by done.
  assert (forall items, Forall (fun u => u <> 666) items -> constructible copied_integers items) as Hitems.
  { intros items Hi u Hu. rewrite Forall_forall in Hi. cbn. by rewrite (proj2 (Z.eqb_neq _ _) (Hi u Hu)). }
  repeat split; try done; try (apply (bool_decide_eq_true_1 _); by vm_compute); try (apply Hitems; repeat constructor; done).
Qed.

Example bulk_answers :
  match bulk_life S0 with Ok rs _ => rs | _ => [] end =
  [TokenValid true; Done; Accepted true; Accepted true; Accepted true; GotMany [21; 22; 1; 2; 3; 4; 5; 6; 7];
   Accepted true; Accepted true; Accepted true; Size 7; Done; TokenValid true; Accepted true; Got (Some 8);
   GotMany [9; 10; 11; 12]; GotMany [13; 14; 15; 16]; GotMany []].
Proof. vm_compute. reflexivity. Qed.

Lemma queue_conserves_elements_witness :
  exists rs s, bulk_life S0 = Ok rs s /\
    all_put_in copied_integers bulk_script rs ≡ₚ all_taken_out rs ++
      concat (contents_of small_traits copied_integers (fst s) <$> order_of (fst s)).
Proof.
  apply (queue_conserves_elements small_traits copied_integers (fun _ => true) (fun _ _ => false) ThreadLocalAddress true 8 2);
    [reflexivity|done|done|done|done|reflexivity|exact bulk_script_ok|reflexivity|reflexivity].
Defined.

Lemma ownership_well_formed_witness :
  exists rs s (m : gmap Z loc), client_life S0 = Ok rs s /\
    (forall tid, valid_id ThreadLocalAddress tid -> exists h,
       find_producer small_traits ThreadLocalAddress true tid (hashed small_traits 8 tid) (q_hash (fst s)) = Ok (m !! tid) h) /\
    (forall t p, tokens (fst s) !! t = Some p -> p <> nullptr -> exists x, producers (fst s) !! p = Some x /\
       p_token x = t /\ p_inactive x = false /\ is_explicit (p_body x) = true) /\
    (forall tid p, m !! tid = Some p -> exists x, producers (fst s) !! p = Some x /\
       p_inactive x = false /\ is_explicit (p_body x) = false /\ forall tid', m !! tid' = Some p -> tid' = tid) /\
    (forall p x, producers (fst s) !! p = Some x -> p_inactive x = false -> is_explicit (p_body x) = false ->
       exists tid, m !! tid = Some p) /\
    (forall p x, producers (fst s) !! p = Some x -> p_parent x = q_address (fst s)) /\
    producerCount (fst s) = zlength (order_of (fst s)) /\ NoDup (order_of (fst s)).
Proof.
  apply (ownership_well_formed small_traits copied_integers memory (fun _ _ => false) ThreadLocalAddress true 8 2);
    [reflexivity|done|done|done|done|done|reflexivity|exact client_script_ok|reflexivity|reflexivity].
Defined.

(** A queue in the middle of the script. *)
Definition example_queue : ConcurrentQueue Z :=
  match life small_traits copied_integers memory (fun _ _ => false) ThreadLocalAddress true 8 6 (take 28 client_script) S0 with
  | Ok _ s => fst s
  | _ => fst S0
  end.

Lemma integers_assign x : assign copied_integers x <> None.
Proof. done. Qed.

Lemma example_queue_good : queue_good small_traits memory 29 example_queue.
Proof.
  assert (script_ok small_traits copied_integers memory ThreadLocalAddress true ∅ ∅ (take 28 client_script)) as Hok.
  { repeat (split; [first [done | apply (bool_decide_eq_true_1 _); by vm_compute
                        | split; [apply (bool_decide_eq_true_1 _); by vm_compute|done]]|]). done. }
  pose proof (life_spec small_traits copied_integers memory (fun _ _ => false) ThreadLocalAddress true 8 integers_assign 2 eq_refl
    ltac:(done) ltac:(done) 6 (-1) (-2) (take 28 client_script) eq_refl eq_refl Hok eq_refl eq_refl) as H.
  unfold example_queue. unfold wp in H. destruct (life _ _ _ _ _ _ _ _ _ _) as [rs s| |]; [|done|done].
  destruct H as (m & _ & []). exact co_queue.
Qed.

Example example_queue_contents :
  (fun p => contents_of small_traits copied_integers example_queue p) <$> order_of example_queue =
  [[]; [30; 31; 32; 33; 34]; [20; 21; 50]; [11]; [7; 8]; [2; 3; 4; 5; 10]].
Proof. vm_compute. reflexivity. Qed.

Lemma try_dequeue_correct_witness :
  exists r q', queue_try_dequeue small_traits copied_integers example_queue = Ok r q' /\ queue_good small_traits memory 29 q' /\
    match r with
    | None => q' = example_queue /\ forall p, p ∈ order_of example_queue -> contents_of small_traits copied_integers example_queue p = []
    | Some x => exists p c,
        p ∈ take 3 (filter (fun p => contents_of small_traits copied_integers example_queue p <> []) (order_of example_queue)) /\
        (forall p', p' ∈ take 3 (filter (fun p => contents_of small_traits copied_integers example_queue p <> []) (order_of example_queue)) ->
           zlength (contents_of small_traits copied_integers example_queue p') <=
           zlength (contents_of small_traits copied_integers example_queue p)) /\
        contents_of small_traits copied_integers example_queue p = x :: c /\
        only_changed small_traits copied_integers example_queue p c q'
    end.
Proof.
  exact (try_dequeue_correct small_traits copied_integers memory 29 example_queue integers_assign eq_refl example_queue_good).
Defined.

Lemma try_dequeue_non_interleaved_correct_witness :
  exists r q', queue_try_dequeue_non_interleaved small_traits copied_integers example_queue = Ok r q' /\
    queue_good small_traits memory 29 q' /\
    match r with
    | None => q' = example_queue /\ forall p, p ∈ order_of example_queue -> contents_of small_traits copied_integers example_queue p = []
    | Some x => exists before p after c, order_of example_queue = before ++ p :: after /\
        (forall p', p' ∈ before -> contents_of small_traits copied_integers example_queue p' = []) /\
        contents_of small_traits copied_integers example_queue p = x :: c /\
        only_changed small_traits copied_integers example_queue p c q'
    end.
Proof.
  exact (try_dequeue_non_interleaved_correct small_traits copied_integers memory 29 example_queue integers_assign eq_refl
    example_queue_good).
Defined.

Lemma try_dequeue_bulk_correct_witness :
  exists q', queue_try_dequeue_bulk small_traits copied_integers 4 example_queue = Ok [30; 31; 32; 33] q' /\
    queue_good small_traits memory 29 q' /\ order_of q' = order_of example_queue /\
    all_elements_of small_traits copied_integers q' = drop 4 (all_elements_of small_traits copied_integers example_queue) /\
    forall p, exists k, contents_of small_traits copied_integers q' p =
      drop k (contents_of small_traits copied_integers example_queue p).
Proof.
  assert (take 4 (all_elements_of small_traits copied_integers example_queue) = [30; 31; 32; 33]) as <- by (vm_compute; reflexivity).
  refine (try_dequeue_bulk_correct small_traits copied_integers memory 29 example_queue 4 integers_assign eq_refl
    example_queue_good _). split; [lia|reflexivity].
Defined.

Lemma queue_size_exact_witness :
  queue_size_approx small_traits (SubQueues0 := queue_sub_queues small_traits copied_integers) example_queue = Ok 16 example_queue.
Proof.
  assert (zlength (all_elements_of small_traits copied_integers example_queue) = 16) as <- by (vm_compute; reflexivity).
  refine (queue_size_exact small_traits copied_integers memory 29 example_queue integers_assign eq_refl example_queue_good _).
  vm_compute. reflexivity.
Defined.

Definition example_token : ConsumerToken := ConsumerToken_ctor 1.

#[local] Abbreviation moved_token := (rotated (order_of example_queue) (globalExplicitConsumerOffset example_queue) example_token).
#[local] Abbreviation held := (contents_of small_traits copied_integers).

(** The token number 1 of six producers goes to the fifth place, and one place
    on. *)
Example example_token_moved :
  let around := from_on (order_of example_queue) (currentProducer moved_token) in
  (fun p => held example_queue p) <$> around =
    [[2; 3; 4; 5; 10]; []; [30; 31; 32; 33; 34]; [20; 21; 50]; [11]; [7; 8]] /\
  itemsConsumedFromCurrent moved_token = 0.
Proof. vm_compute. split; reflexivity. Qed.

Lemma try_dequeue_token_correct_witness :
  exists r q' token', queue_try_dequeue_token small_traits copied_integers (example_queue, example_token) = Ok r (q', token') /\
    queue_good small_traits memory 29 q' /\
    (desiredProducer token' = nullptr \/ desiredProducer token' ∈ order_of q' /\ currentProducer token' ∈ order_of q') /\
    match r with
    | None => q' = example_queue /\ token' = moved_token /\ forall p, p ∈ order_of example_queue -> held example_queue p = []
    | Some x => exists before p after c,
        from_on (order_of example_queue) (currentProducer moved_token) = before ++ p :: after /\
        (forall p', p' ∈ before -> held example_queue p' = []) /\ held example_queue p = x :: c /\
        only_changed small_traits copied_integers example_queue p c q' /\
        let consumed := if p =? currentProducer moved_token then wrap 32 (itemsConsumedFromCurrent moved_token + 1) else 1 in
        token' = set_consumed consumed (set_current p moved_token) /\
        globalExplicitConsumerOffset q' =
          (if (p =? currentProducer moved_token) && (consumed =? 4)
           then wrap 32 (globalExplicitConsumerOffset example_queue + 1) else globalExplicitConsumerOffset example_queue)
    end.
Proof.
  exact (try_dequeue_token_correct small_traits copied_integers memory 29 example_queue example_token integers_assign eq_refl
    example_queue_good (or_introl eq_refl)).
Defined.

Lemma try_dequeue_bulk_token_correct_witness :
  let around := from_on (order_of example_queue) (currentProducer moved_token) in
  let here := zlength (held example_queue (currentProducer moved_token)) in
  exists rs q' token', queue_try_dequeue_bulk_token small_traits copied_integers 9 (example_queue, example_token) = Ok rs (q', token') /\
    (desiredProducer token' = nullptr \/ desiredProducer token' ∈ order_of q' /\ currentProducer token' ∈ order_of q') /\
    if bool_decide (order_of example_queue = []) then rs = [] /\ q' = example_queue /\ token' = example_token
    else
      rs = take 9 (concat (held example_queue <$> around)) /\ queue_good small_traits memory 29 q' /\
      order_of q' = order_of example_queue /\ tokens q' = tokens example_queue /\
      concat (held q' <$> around) = drop 9 (concat (held example_queue <$> around)) /\
      (forall p, exists k, held q' p = drop k (held example_queue p)) /\
      if 9 <=? here then
        let consumed := wrap 32 (itemsConsumedFromCurrent moved_token + wrap 32 9) in
        token' = set_consumed consumed moved_token /\
        globalExplicitConsumerOffset q' =
          (if 4 <=? consumed then wrap 32 (globalExplicitConsumerOffset example_queue + 1) else globalExplicitConsumerOffset example_queue)
      else
        token' = follow (held example_queue) (tail around) (9 - here)
                   (set_consumed (wrap 32 (itemsConsumedFromCurrent moved_token + wrap 32 here)) moved_token) /\
        globalExplicitConsumerOffset q' = globalExplicitConsumerOffset example_queue.
Proof.
  refine (try_dequeue_bulk_token_correct small_traits copied_integers memory 29 example_queue example_token 9 integers_assign eq_refl
    example_queue_good _ (or_introl eq_refl)). split; [lia|reflexivity].
Defined.
End example.
