(* ===== verification/QueueDestructor.v ===== *)
(** The destructor of a [ConcurrentQueue]: whatever its clients did, it runs
    without a fault and leaves nothing behind. *)

From S2P Require Import Prelude MachineInt Traits FreeList FreeListProofs Block BlockPool ProducerBase ProducerBaseProofs ExplicitProducer Contents Destruction Fifo ExplicitSpec ExplicitDestructor ImplicitProducer ImplicitSpec ImplicitDestructor ThreadExit ImplicitHash HashChain SubQueues SubQueuesProofs ConcurrentQueue QueueInvariant QueueTokens QueueThreads Client ClientProofs ClientQueue.

Section destructor.
Context {U T R : Type} (tr : Traits) `{!TraitsOk tr} (ops : ElementOps U T R).
Context (malloc_ok : nat -> bool) (indeterminate : Indeterminate).
Context (platform : ThreadIdPlatform) (tls : bool) (hash_bytes : Z).
#[local] Abbreviation sb := (size_bits tr).
#[local] Abbreviation B := (BLOCK_SIZE tr).
#[local] Abbreviation Q := (ConcurrentQueue T).
#[local] Abbreviation repr := (queue_repr tr malloc_ok).
Implicit Types (q : Q) (m : Mem T) (fl l : list loc) (p t b : loc) (x : Producer) (n : Z).
Implicit Types (own : loc -> list loc) (cont : loc -> list T) (th : gmap Z loc).

(** * The blocks that are left *)

(** [m] with the blocks [l] freed. *)
Definition freed l m m' : Prop :=
  (exists bs f, m' = set_freeList f (set_blocks bs m)) /\
  forall b, blocks m' !! b = (if decide (b ∈ l) then None else blocks m !! b) /\
            nodes (freeList m') !! b = (if decide (b ∈ l) then None else nodes (freeList m) !! b).

Lemma freed_nil m : freed [] m m.
Proof using Type.
  split; [exists (blocks m), (freeList m); by destruct m|]. intros b. by rewrite !decide_False by apply not_elem_of_nil.
Qed.

Lemma freed_trans l l' m m1 m2 : freed l m m1 -> freed l' m1 m2 -> freed (l ++ l') m m2.
Proof using Type.
  intros [(bs & f & ->) H1] [(bs' & f' & ->) H2]. split; [by exists bs', f'|]. intros b.
  destruct (H1 b) as [E1 E2], (H2 b) as [-> ->]. rewrite E1, E2. pose proof (elem_of_app l l' b).
  split; repeat case_decide; done || tauto.
Qed.

Lemma remove_block_spec b m :
  (exists blk, blocks m !! b = Some blk /\ raw tr blk) -> wp (remove_block b) (fun _ m' => freed [b] m m') nothrow m.
Proof using Type.
  intros (blk & Hb & Hraw). unfold remove_block. do 5 wp_step. wp_step; [done|]. rewrite (raw_no_elements tr) by done. do 3 wp_step.
  split; [by eexists _, _|]. intros y. cbn. destruct (decide (y ∈ [b])) as [->%list_elem_of_singleton|Hy].
  - by rewrite !lookup_delete_eq.
  - rewrite list_elem_of_singleton in Hy. by rewrite !lookup_delete_ne by done.
Qed.

(** The blocks of the free list that are not in the array. *)
Definition loose (array : loc -> bool) l : list loc := filter (fun b => array b = false) l.

Lemma destroy_free_blocks_spec array fuel q l b :
  linked freeListNext (nodes (freeList (q_mem q))) b l -> (length l <= fuel)%nat ->
  (forall y, y ∈ l -> exists blk, blocks (q_mem q) !! y = Some blk /\ dynamicallyAllocated blk = negb (array y) /\ raw tr blk) ->
  wp (destroy_free_blocks fuel b) (fun _ q' => exists m', q' = set_q_mem m' q /\ freed (loose array l) (q_mem q) m') nothrow q.
Proof using Type.
  revert q b fuel. induction l as [|y l IH]; intros q b fuel Hl Hf Hbs.
  { cbn in Hl. subst b. destruct fuel; cbn; (exists (q_mem q); split; [by destruct q|apply freed_nil]). }
  pose proof (linked_nodup _ _ _ Hl) as [Hy Hnd]%NoDup_cons. destruct Hl as (-> & Hnn & nd & Hn & Hl).
  destruct (Hbs y) as (blk & Hblk & Hdyn & Hraw); [by left|].
  destruct fuel as [|fuel]; [cbn in Hf; lia|]. cbn [destroy_free_blocks]. rewrite (proj2 (Z.eqb_neq _ _) Hnn).
  unfold in_mem, load_next, node. do 6 wp_step. wp_step; [exact Hn|]. do 3 wp_step.
  eapply wp_at_block; [exact Hblk|]. wp_step. wp_step.
  set (q1 := set_q_mem _ _). assert (q1 = q) as ->.
  { unfold q1. cbn. rewrite insert_id by done. destruct q as [? ? ? [? [] ? ? ? ? ?] ? ? ? ? ? ?]. done. }
  unfold loose. rewrite filter_cons, Hdyn. destruct (array y) eqn:Ea; cbn [negb].
  - rewrite decide_False by done. wp_step. eapply wp_mono; [apply (IH q _ fuel); [done|cbn in Hf; lia|]| |done]; [|done].
    intros z Hz. apply Hbs. by right.
  - rewrite decide_True by done. wp_step. unfold destroy. rewrite (proj2 (Z.eqb_neq _ _) Hnn).
    eapply wp_mono; [eapply remove_block_spec; by exists blk| |done]. cbn beta. intros _ m1 H1. pose proof H1 as [_ H1'].
    eapply wp_mono; [apply (IH (set_q_mem m1 q) _ fuel); cbn [q_mem set_q_mem]; [|cbn in Hf; lia|]| |done].
    + eapply linked_frame; [done|]. intros z r Hz Hr. exists r. destruct (H1' z) as [_ ->].
      rewrite decide_False; [done|]. rewrite list_elem_of_singleton. by intros ->.
    + intros z Hz. destruct (H1' z) as [-> _]. rewrite decide_False; [apply Hbs; by right|].
      rewrite list_elem_of_singleton. by intros ->.
    + cbn beta. intros _ q' (m2 & -> & H2). exists m2. split; [done|]. by eapply (freed_trans [y]).
Qed.

(** The array has the blocks that are left. *)
Lemma destroy_array_spec m p count :
  (p <> nullptr <-> 0 < count) -> (forall b, is_Some (blocks m !! b) <-> p <= b < p + count) ->
  (forall b, is_Some (nodes (freeList m) !! b) <-> is_Some (blocks m !! b)) -> (forall b blk, blocks m !! b = Some blk -> raw tr blk) ->
  wp (destroy_array p count) (fun _ m' => blocks m' = ∅ /\ nodes (freeList m') = ∅) nothrow m.
Proof using Type.
  intros Hp Hbs Hns Hraw. assert (forall m', (forall b, blocks m' !! b = None) ->
    (forall b, is_Some (nodes (freeList m') !! b) <-> is_Some (blocks m' !! b)) -> blocks m' = ∅ /\ nodes (freeList m') = ∅) as Hempty.
  { intros m' Hb Hn. split; apply map_empty; [done|]. intros b. apply eq_None_not_Some. rewrite Hn, Hb. by intros []. }
  unfold destroy_array. destruct (Z.eqb_spec p nullptr) as [->|Hnn].
  { wp_step. apply Hempty; [|done]. intros b. apply eq_None_not_Some. rewrite Hbs. intros Hb. by assert (nullptr <> nullptr) by (apply Hp; lia). }
  pose proof (proj1 Hp Hnn) as Hc. wp_step. wp_step; [by apply Z.ltb_lt|].
  eapply wp_mono; [apply (wp_for_range (fun i m' =>
    (forall b, is_Some (blocks m' !! b) <-> p <= b < p + count - i) /\ (forall b blk, blocks m' !! b = Some blk -> raw tr blk) /\
    (forall b, is_Some (nodes (freeList m') !! b) <-> is_Some (blocks m' !! b))))| |done].
  - split; [|done]. intros b. rewrite Hbs. lia.
  - intros i m1 Hi (Hb1 & Hr1 & Hn1). rewrite Z2Nat.id in Hi by lia.
    eapply wp_mono; [eapply remove_block_spec| |done]; [destruct (proj2 (Hb1 (p + (count - 1 - i)))) as [blk Hblk]; [lia|exists blk; eauto]|].
    cbn beta. intros _ m2 [_ H2]. split; [|split].
    + intros b. destruct (H2 b) as [-> _]. pose proof (list_elem_of_singleton b (p + (count - 1 - i))) as E. case_decide as Eb.
      * apply E in Eb. split; [by intros []|lia].
      * rewrite Hb1. assert (b <> p + (count - 1 - i)); [|lia]. intros ->. by apply Eb, E.
    + intros b blk. destruct (H2 b) as [-> _]. case_decide; [done|apply Hr1].
    + intros b. destruct (H2 b) as [-> ->]. case_decide; [done|apply Hn1].
  - cbn beta. intros _ m' (Hb' & _ & Hn'). rewrite Z.add_0_l, Z2Nat.id in Hb' by lia. apply Hempty; [|done].
    intros b. apply eq_None_not_Some. rewrite Hb'. lia.
Qed.

(** * The producers, one after the other *)

(** The queue [q] of which only the producers [l] are left; its list and its
    count are no longer maintained. *)
Definition remaining l q : Q := set_producerCount (zlength l) (set_list_tail (first_of l) q).

Lemma remove_first n q fl p l own cont m' fl' :
  repr n (remaining (p :: l) q) fl (p :: l) own cont -> pool_inv tr m' fl' -> mem_frame (own p) (q_mem q) fl [] m' fl' ->
  repr n (remaining l (set_q_mem m' (set_producers (delete p (producers q)) q))) fl' l own cont.
Proof using TraitsOk0.
  intros [] Hpool Hf. cbn in *. pose proof qr_nodup as [Hp Hnd]%NoDup_cons.
  assert (forall y, y ∈ l -> y <> p) as Hne by (by intros y Hy ->).
  assert (forall y x, producers q !! y = Some x -> y <> p -> y ∈ l) as Hdom.
  { intros y x Hy Hyp. assert (y ∈ p :: l) as [|]%elem_of_cons by (apply qr_dom; by exists x); done. }
  split; cbn; try done.
  - intros l1 y l2 E. destruct (qr_next (p :: l1) y l2) as (x & Hx & Hn); [cbn; by rewrite E|]. exists x.
    rewrite lookup_delete_ne; [done|]. intros <-. apply Hp. rewrite E. apply elem_of_app. right. by left.
  - intros y [x [Hyp Hy]%lookup_delete_Some]. by eapply Hdom.
  - intros y Hy. destruct Hf as [Hna _]. specialize (qr_addr y ltac:(by right)). lia.
  - intros y x [Hyp Hy]%lookup_delete_Some. pose proof (Hdom y x Hy ltac:(done)) as Hyl.
    eapply (sub_inv_frame tr malloc_ok); [by apply qr_sub|exact Hf| |done]. apply qr_disjoint; [by left|by right|done].
  - intros y Hy. apply qr_small. by right.
  - intros y1 y2 H1 H2. apply qr_disjoint; by right.
  - intros b Hb. destruct (decide (available m' fl' b)) as [|Ha]; [by left|right]. destruct Hf as (_ & _ & Hf).
    destruct (Hf b) as (Hb' & Hown & Ha'); [split; [done|split; [apply not_elem_of_nil|done]]|].
    destruct (qr_accounted b Hb') as [|(y & [->|Hy]%elem_of_cons & Hin)]; [done|done|by exists y].
Qed.

(** An implicit producer in use. *)
Definition thread_producer q p : Prop :=
  exists x, producers q !! p = Some x /\ p_inactive x = false /\ is_explicit (p_body x) = false.

(** The listeners of the threads are those of the producers [l]. *)
Definition exits_ok l q : Prop :=
  (forall p, thread_producer q p -> INITIAL_IMPLICIT_PRODUCER_HASH_SIZE tr <> 0) /\
  (tls = true -> INITIAL_IMPLICIT_PRODUCER_HASH_SIZE tr <> 0 -> exists L, exit_inv (q_exit q) L /\
    (forall tid p, p ∈ L tid -> p ∈ l /\ thread_producer q p) /\
    (forall p, thread_producer q p -> is_Some (listeners (q_exit q) !! p))).

Lemma exits_removed p l q :
  exits_ok (p :: l) q -> ~ thread_producer q p -> exits_ok l (set_producers (delete p (producers q)) q).
Proof using Type.
  intros [Hsize Hex] Hp.
  assert (forall y, thread_producer (set_producers (delete p (producers q)) q) y <-> thread_producer q y) as E.
  { intros y. split; intros (x & Hx & ?); cbn in *; [apply lookup_delete_Some in Hx as [_ Hx]; by exists x|].
    exists x. cbn. rewrite lookup_delete_ne; [done|]. intros <-. apply Hp. by exists x. }
  split; [intros y Hy%E; by eapply Hsize|]. intros Ht Hs. destruct (Hex Ht Hs) as (L & HL & Hin & Hlis). exists L. cbn. split; [done|]. split.
  - intros tid y Hy. destruct (Hin _ _ Hy) as [[->|Hyl]%elem_of_cons Hth]; [done|]. by rewrite E.
  - intros y Hy%E. by apply Hlis.
Qed.

(** The destructor of an implicit producer in use takes its listener away. *)
Lemma unsubscribe_in_use_spec p l q x :
  exits_ok (p :: l) q -> producers q !! p = Some x -> is_explicit (p_body x) = false ->
  wp (if tls && negb (p_inactive x) then in_exit (unsubscribe p) else ret tt)
    (fun _ q' => exists e, q' = set_q_exit e q /\ exits_ok l (set_producers (delete p (producers q)) q')) nothrow q.
Proof using Type.
  intros Hex Hx Hk. destruct (p_inactive x) eqn:Hi; cbn [negb]; rewrite ?andb_false_r, ?andb_true_r.
  { wp_step. exists (q_exit q). assert (set_q_exit (q_exit q) q = q) as -> by by destruct q. split; [done|].
    apply (exits_removed p); [done|]. intros (y & Hy & ? & _). congruence. }
  assert (thread_producer q p) as Hp by by exists x. pose proof Hex as [Hsize Hlist]. specialize (Hsize p Hp). destruct tls eqn:Et.
  2:{ wp_step. exists (q_exit q). assert (set_q_exit (q_exit q) q = q) as -> by by destruct q.
      split; [done|]. split; [by destruct Hex|]. congruence. }
  destruct (Hlist eq_refl Hsize) as (L & HL & Hin & Hlis). destruct (Hlis p Hp) as [r Hr].
  apply wp_zoom. eapply wp_mono; [by eapply unsubscribe_spec| |done]. cbn beta. intros _ e He. exists e. split; [done|].
  split; [by intros|]. intros _ _.
  assert (exists L', exit_inv e L' /\ (forall tid y, y ∈ L' tid -> y <> p /\ y ∈ L tid) /\
    forall y, is_Some (listeners (q_exit q) !! y) -> is_Some (listeners e !! y)) as (L' & HL' & Hin' & Hmono).
  { destruct (chain r) as [tid|] eqn:Hc.
    - destruct He as [He Hmono]. eexists. split; [exact He|]. split; [|done]. intros tid' y. unfold update. case_decide as E.
      + subst. by intros [? ?]%elem_of_without.
      + intros Hy. split; [|done]. intros ->. apply (ex_member _ _ HL) in Hy as (r' & Hr' & Hc'). congruence.
    - subst e. exists L. split; [done|]. split; [|done]. intros tid y Hy. split; [|done]. intros ->.
      apply (ex_member _ _ HL) in Hy as (r' & Hr' & Hc'). congruence. }
  exists L'. split; [done|]. split.
  - intros tid y [Hyp Hy]%Hin'. destruct (Hin tid y Hy) as [[|Hyl]%elem_of_cons (z & Hz & ?)]; [done|]. split; [done|].
    exists z. cbn. by rewrite lookup_delete_ne by done.
  - intros y (z & Hz & ?). cbn in Hz. apply lookup_delete_Some in Hz as [_ Hz]. apply Hmono, Hlis. by exists z.
Qed.

(** The tokens that still have a producer have one of [l], and those that
    producers point to exist. *)
Record tokens_in l q : Prop := {
  ti_producer : forall t p, tokens q !! t = Some p -> t <> nullptr -> p <> nullptr -> p ∈ l /\ exists x, producers q !! p = Some x /\ p_token x = t;
  ti_token : forall p x, producers q !! p = Some x -> p_token x <> nullptr -> is_Some (tokens q !! p_token x)
}.

(** The destructor of one producer. *)
Lemma destructor_of_spec n q fl p l own cont x :
  repr n (remaining (p :: l) q) fl (p :: l) own cont -> producers q !! p = Some x ->
  wp (if is_explicit (p_body x) then on_explicit p (ExplicitProducer_dtor tr) else on_implicit p (ImplicitProducer_dtor tr))
    (fun _ q' => exists (body : ProducerBody) m' fl', q' = with_body p x body m' q /\ pool_inv tr m' fl' /\ mem_frame (own p) (q_mem q) fl [] m' fl')
    nothrow q.
Proof using TraitsOk0.
  intros Hq Hx. pose proof (qr_sub _ _ _ _ _ _ _ _ Hq p x Hx) as Hsub. destruct (p_body x) as [e|i] eqn:Eb; cbn [is_explicit];
    destruct Hsub as (h & t & f & Hinv).
  - eapply wp_on_explicit; [done|done|]. eapply wp_mono; [by eapply (ExplicitProducer_dtor_spec tr)| |done].
    cbn beta. intros _ [e' m'] (fl' & _ & Hpool & Hf). by exists (Explicit e'), m', fl'.
  - eapply wp_on_implicit; [done|done|]. eapply wp_mono; [by eapply (ImplicitProducer_dtor_spec tr malloc_ok)| |done].
    cbn beta. intros _ [i' m'] (fl' & _ & _ & Hpool & Hf). by exists (Implicit i'), m', fl'.
Qed.

Lemma destroy_producer_spec n q fl p l own cont :
  repr n (remaining (p :: l) q) fl (p :: l) own cont -> exits_ok (p :: l) q ->
  wp (destroy_producer tr tls p) (fun _ q' => exists e m' fl',
    q' = set_q_mem m' (set_producers (delete p (producers q)) (set_q_exit e q)) /\
    repr n (remaining l q') fl' l own cont /\ exits_ok l q') nothrow q.
Proof using TraitsOk0.
  intros Hq Hex. destruct (qr_next _ _ _ _ _ _ _ _ Hq [] p l eq_refl) as (x & Hx & _). cbn in Hx.
  pose proof (sub_inv_kind _ _ _ _ _ _ _ (qr_sub _ _ _ _ _ _ _ _ Hq p x Hx)) as Hkind.
  unfold destroy_producer. wp_step. eapply wp_producer; [done|]. wp_step.
  change (isExplicit (producer_base x)) with (isExplicit (body_base (p_body x))). rewrite Hkind. fold (is_explicit (p_body x)).
  assert (forall e, exits_ok l (set_producers (delete p (producers q)) (set_q_exit e q)) ->
    wp (if is_explicit (p_body x) then on_explicit p (ExplicitProducer_dtor tr) else on_implicit p (ImplicitProducer_dtor tr))
      (fun _ q' => wp (modify (fun q => set_producers (delete p (producers q)) q)) (fun _ q' => exists e m' fl',
        q' = set_q_mem m' (set_producers (delete p (producers q)) (set_q_exit e q)) /\
        repr n (remaining l q') fl' l own cont /\ exits_ok l q') nothrow q') nothrow (set_q_exit e q)) as Hdtor.
  { intros e Hex'. eapply wp_mono; [by eapply destructor_of_spec; [by destruct Hq|]| |done]. cbn beta.
    intros _ q' (body & m' & fl' & -> & Hpool & Hf). wp_step. exists e, m', fl'. cbn. rewrite delete_insert_eq. split; [done|]. split; [|exact Hex'].
    eapply queue_repr_ext; [by eapply remove_first|done..]. }
  destruct (is_explicit (p_body x)) eqn:Ek.
  - specialize (Hdtor (q_exit q)). assert (set_q_exit (q_exit q) q = q) as E by by destruct q. rewrite E in Hdtor. apply Hdtor.
    apply (exits_removed p); [done|]. intros (y & Hy & _ & ?). congruence.
  - wp_step. eapply wp_mono; [by eapply unsubscribe_in_use_spec| |done]. cbn beta. intros _ q' (e & -> & He). by apply Hdtor.
Qed.

Lemma destroy_producers_spec n l fuel q fl own cont :
  repr n (remaining l q) fl l own cont -> exits_ok l q -> tokens_in l q -> (length l <= fuel)%nat ->
  wp (destroy_producers tr tls fuel (first_of l)) (fun _ q' => exists fl',
    repr n (remaining [] q') fl' [] own cont /\ exits_ok [] q' /\ tokens_in [] q' /\ q_hash q' = q_hash q) nothrow q.
Proof using TraitsOk0.
  revert fuel q fl. induction l as [|p l IH]; intros fuel q fl Hq Hex Htok Hf.
  { destruct fuel; cbn; by exists fl. }
  destruct fuel as [|fuel]; [cbn in Hf; lia|]. cbn [destroy_producers first_of].
  pose proof (qr_addr _ _ _ _ _ _ _ _ Hq p ltac:(by left)). rewrite (proj2 (Z.eqb_neq p nullptr)) by (unfold nullptr; lia).
  destruct (qr_next _ _ _ _ _ _ _ _ Hq [] p l eq_refl) as (x & Hx & Hn). cbn in Hx.
  pose proof (qr_nodup _ _ _ _ _ _ _ _ Hq) as [Hp _]%NoDup_cons.
  wp_step. eapply wp_producer; [done|]. wp_step.
  assert (forall ts, (forall t p', ts !! t = Some p' -> t <> nullptr -> p' <> nullptr -> tokens q !! t = Some p' /\ p' <> p) ->
    (forall t, is_Some (tokens q !! t) -> is_Some (ts !! t)) ->
    wp (destroy_producer tr tls p;; destroy_producers tr tls fuel (p_next x)) (fun _ q' => exists fl',
      repr n (remaining [] q') fl' [] own cont /\ exits_ok [] q' /\ tokens_in [] q' /\ q_hash q' = q_hash q)
      nothrow (set_tokens ts q)) as Hrest.
  { intros ts Hts Hmono. wp_step. eapply wp_mono; [eapply (destroy_producer_spec n (set_tokens ts q) fl p l); [by destruct Hq|exact Hex]| |done].
    cbn beta. intros _ q' (e & m' & fl' & -> & Hq' & Hex'). rewrite Hn.
    eapply wp_mono; [eapply IH; [exact Hq'|done| |cbn in Hf; lia]| |done].
    - split; [|intros p' y Hy Hn'; cbn in Hy |- *; apply lookup_delete_Some in Hy as [_ Hy]; by eapply Hmono, ti_token].
      intros t p' Ht Htn Hpn. cbn in Ht |- *. destruct (Hts _ _ Ht Htn Hpn) as [Ht' Hne]. destruct (ti_producer _ _ Htok _ _ Ht' Htn Hpn) as [Hin (y & Hy & Ey)].
      split; [by apply elem_of_cons in Hin as [|]|]. exists y. by rewrite lookup_delete_ne by done.
    - cbn beta. intros _ q'' (fl'' & ?). by exists fl''. }
  destruct (Z.eqb_spec (p_token x) nullptr) as [E|E]; cbn [negb].
  - wp_step. assert (set_tokens (tokens q) q = q) as <- by by destruct q. apply Hrest; [|done]. intros t p' Ht Htn Hpn. split; [done|].
    intros ->. destruct (ti_producer _ _ Htok _ _ Ht Htn Hpn) as [_ (y & Hy & Ey)]. congruence.
  - destruct (ti_token _ _ Htok p x Hx E) as [p0 Hp0]. unfold set_token_producer, init_token. wp_step. eapply wp_token_producer; [exact Hp0|].
    wp_step. apply Hrest; [|by intros t Ht; apply lookup_insert_is_Some'; right].
    intros t p' Ht Htn Hpn. apply lookup_insert_Some in Ht as [[_ <-]|[Hne Ht]]; [done|].
    split; [done|]. intros ->. destruct (ti_producer _ _ Htok _ _ Ht Htn Hpn) as [_ (y & Hy & Ey)]. congruence.
Qed.

(** * The whole queue *)

(** No producer, block or table is left but the table inside the queue object;
    no token points to a producer, and no thread that exits tells one. *)
Record released q : Prop := {
  re_producers : producers q = ∅;
  re_blocks : blocks (q_mem q) = ∅ /\ nodes (freeList (q_mem q)) = ∅;
  re_tables : INITIAL_IMPLICIT_PRODUCER_HASH_SIZE tr <> 0 -> dom (tables (q_hash q)) = {[initialImplicitProducerHash (q_hash q)]};
  re_tokens : forall t p, tokens q !! t = Some p -> t <> nullptr -> p = nullptr;
  re_exits : tls = true -> INITIAL_IMPLICIT_PRODUCER_HASH_SIZE tr <> 0 ->
    forall tid, default nullptr (notifier_tail (q_exit q) !! tid) = nullptr
}.

Lemma exits_none q : exits_ok [] q -> tls = true -> INITIAL_IMPLICIT_PRODUCER_HASH_SIZE tr <> 0 ->
  forall tid, default nullptr (notifier_tail (q_exit q) !! tid) = nullptr.
Proof using Type.
  intros [_ Hex] Ht Hs tid. destruct (Hex Ht Hs) as (L & HL & Hin & _). pose proof (ex_chain _ _ HL tid) as Hc.
  destruct (L tid) as [|p l] eqn:E; [done|]. destruct (Hin tid p) as [?%not_elem_of_nil _]; [|done]. rewrite E. by left.
Qed.

(** Without producers all blocks are in the pool, from where they are freed. *)
Lemma destroy_pool_spec q fl :
  pool_inv tr (q_mem q) fl -> (forall b, is_Some (blocks (q_mem q) !! b) -> available (q_mem q) fl b) ->
  wp (let! head := in_mem (zoom freeList set_freeList head_unsafe) in
      let! n := gets (fun q => base.size (blocks (q_mem q))) in
      destroy_free_blocks n head;;
      let! m := gets q_mem in
      in_mem (destroy_array (initialBlockPool m) (initialBlockPoolSize m)))
    (fun _ q' => exists m', q' = set_q_mem m' q /\ blocks m' = ∅ /\ nodes (freeList m') = ∅) nothrow q.
Proof using Type.
  intros [] Hav. destruct pi_stack as (Hl & Hnd & _).
  set (m := q_mem q) in *. set (array := fun b => bool_decide (initialBlockPool m <= b < initialBlockPool m + initialBlockPoolSize m)).
  assert (forall b, b ∈ fl -> exists blk, blocks m !! b = Some blk /\ dynamicallyAllocated blk = negb (array b) /\ raw tr blk) as Hfl.
  { intros b Hb. destruct (pi_raw b) as (blk & Hblk & Hraw); [by left|]. exists blk. split; [done|]. split; [|done]. unfold array. case_bool_decide as Ha.
    - destruct (pi_array b Ha) as (blk' & Hblk' & Hd). cbn. congruence.
    - by apply (pi_dynamic b). }
  unfold in_mem, head_unsafe. do 6 wp_step. set (q1 := set_q_mem _ q).
  assert (q1 = q) as ->. { unfold q1. destruct q as [? ? ? [] ? ? ? ? ? ?]. done. }
  wp_step.
  eapply wp_mono; [eapply (destroy_free_blocks_spec array _ q fl); [exact Hl| |done]| |done].
  { apply blocks_in_heap; [done|]. intros b Hb. destruct (Hfl b Hb) as (blk & ? & _). by exists blk. }
  cbn beta. intros _ q' (m1 & -> & (bs & f & ->) & H1). do 3 wp_step. cbn [q_mem set_q_mem initialBlockPool initialBlockPoolSize set_freeList set_blocks].
  assert (forall b, is_Some (bs !! b) <-> array b = true) as Hbs.
  { intros b. destruct (H1 b) as [E _]. cbn in E. rewrite E. clear E. unfold loose. pose proof (list_elem_of_filter (fun b => array b = false) fl b) as Hf.
    case_decide as Hb.
    - apply Hf in Hb as [Hb _]. rewrite Hb. split; [by intros []|done].
    - split.
      + intros Hs. destruct (array b) eqn:Ea; [done|]. destruct (Hav b Hs) as [Hin|(i & Hi & Eb)]; [by destruct Hb; apply Hf|].
        unfold array in Ea. apply bool_decide_eq_false in Ea. lia.
      + intros Ha%bool_decide_eq_true. destruct (pi_array b Ha) as (blk & Hblk & _). by exists blk. }
  eapply wp_mono; [eapply destroy_array_spec; cbn [blocks freeList nodes set_freeList set_blocks]| |done].
  - split; [by destruct pi_pool|]. intros Hs E. destruct (pi_array nullptr) as (blk & Hblk & _); [unfold in_array; fold m in E, Hs |- *; lia|].
    assert (0 < nullptr < next_address m) by (apply pi_addr; by exists blk). unfold nullptr in *. lia.
  - intros b. rewrite Hbs. apply bool_decide_eq_true.
  - intros b. destruct (H1 b) as [E1 E2]. cbn in E1, E2. rewrite E1, E2. case_decide; [done|apply pi_nodes].
  - intros b blk Hb. destruct (H1 b) as [E1 _]. cbn in Hb, E1. rewrite Hb in E1. case_decide; [done|].
    destruct (pi_raw b) as (blk' & Hblk' & Hraw); [apply Hav; by exists blk|].
    assert (blk = blk') as -> by (unfold m in Hblk'; congruence). done.
  - cbn beta. intros _ m' [E1 E2]. by exists m'.
Qed.

Lemma ConcurrentQueue_dtor_spec home th n k ts cts q (cs : gmap loc ConsumerToken) :
  client_ok tr malloc_ok platform tls hash_bytes home th n k ts cts (q, cs) ->
  wp (ConcurrentQueue_dtor tr tls) (fun _ q' => released q') nothrow q.
Proof using TraitsOk0.
  intros [(fl & order & own & cont & Hq) Htok _ Hth Hno _ _ _]. cbn [fst snd] in *.
  assert (exits_ok order q) as Hex.
  { split.
    - intros p (x & Hx & Hi & Hk) E. destruct (Hno E) as [_ Hown]. by destruct (Hown p x Hx Hi Hk) as (tid & ?%lookup_empty_Some).
    - intros Ht Hs. destruct (Hth Hs) as [_ _ Hprod _ Hown Hexit]. destruct (Hexit Ht) as [HL Hlis]. exists (listed th). split; [done|]. split.
      + intros tid p Hp. unfold listed in Hp. destruct (th !! tid) as [p'|] eqn:E; cbn in Hp; [|by apply not_elem_of_nil in Hp].
        apply list_elem_of_singleton in Hp as ->. destruct (Hprod tid p' E) as (_ & x & Hx & ?).
        split; [apply (qr_dom _ _ _ _ _ _ _ _ Hq)|]; by exists x.
      + intros p (x & Hx & Hi & Hk). destruct (Hown p x Hx Hi Hk) as (tid & E). destruct (Hlis tid p E) as (r & Hr & _). by exists r. }
  assert (tokens_in order q) as Hin.
  { split; [|intros p x Hx Hn; eexists; by apply (tk_token _ Htok)].
    intros t p Ht _ Hp. destruct (tk_producer _ Htok t p Ht Hp) as (x & Hx & E & _). split; [apply (qr_dom _ _ _ _ _ _ _ _ Hq)|]; by exists x. }
  assert (repr n (remaining order q) fl order own cont) as Hq'.
  { eapply queue_repr_ext; [exact Hq|..]; cbn; try done; symmetry; apply Hq. }
  unfold ConcurrentQueue_dtor. do 4 wp_step. wp_step. rewrite (qr_tail _ _ _ _ _ _ _ _ Hq).
  eapply wp_mono; [eapply destroy_producers_spec; [done..|]| |done]; [by erewrite order_length|].
  cbn beta. intros _ q1 (fl1 & Hq1 & Hex1 & Hin1 & Eh). wp_step.
  assert (forall h, (INITIAL_IMPLICIT_PRODUCER_HASH_SIZE tr <> 0 -> dom (tables h) = {[initialImplicitProducerHash h]}) ->
    wp (let! head := in_mem (zoom freeList set_freeList head_unsafe) in
        let! n := gets (fun q => base.size (blocks (q_mem q))) in
        destroy_free_blocks n head;;
        let! m := gets q_mem in
        in_mem (destroy_array (initialBlockPool m) (initialBlockPoolSize m))) (fun _ q' => released q') nothrow (set_q_hash h q1)) as Hpool.
  { intros h Hh. eapply wp_mono; [eapply (destroy_pool_spec (set_q_hash h q1) fl1); [apply Hq1|]| |done].
    - intros b Hb. destruct (qr_accounted _ _ _ _ _ _ _ _ Hq1 b Hb) as [|(p & ?%not_elem_of_nil & _)]; done.
    - cbn beta. intros _ q' (m' & -> & Hb & Hn). split; cbn; try done.
      + apply map_empty. intros p. apply eq_None_not_Some. intros Hp%(qr_dom _ _ _ _ _ _ _ _ Hq1). by apply not_elem_of_nil in Hp.
      + intros t p Ht Htn. destruct (decide (p = nullptr)) as [|Hp]; [done|]. destruct (ti_producer _ _ Hin1 t p Ht Htn Hp) as [?%not_elem_of_nil _]. done.
      + intros Ht Hs. by apply (exits_none q1). }
  eapply wp_in_hash. destruct (decide (INITIAL_IMPLICIT_PRODUCER_HASH_SIZE tr = 0)) as [E|Hs].
  - unfold destroy_hash_tables. rewrite E. cbn. wp_step. by apply Hpool.
  - destruct (Hth Hs) as [(main & m0 & l & c & Hinv & _) _ _ _ _ _].
    eapply wp_mono; [eapply destroy_hash_tables_spec; [by rewrite Eh|done]| |done]. cbn beta. intros _ h [Ei Hd]. apply Hpool. by rewrite Ei.
Qed.

(** C8: At any time of a queue's life -- after any well-formed script of its
    clients ([script_ok]: with producer tokens, single elements are enqueued
    whose constructors do not throw, and elements in bulk only where nothing can
    refuse the blocks), the assignments of elements not throwing -- its
    destructor runs without a fault and frees everything: the producers, all
    blocks whoever has them, once their elements are destroyed (to free a block
    that holds one would be a fault), and all hash tables that were allocated; the tokens that outlive the queue forget their
    producers, and no thread that exits later calls back into the queue. *)
Theorem destructor_frees_everything (j : nat) capacity this hash (l : list (client_call U)) :
  sb = 8 * 2 ^ Z.of_nat j ->
  (forall v : T, assign ops v <> None) -> (noexcept_ctor ops = true -> forall u, make ops u <> None) ->
  (is_trivially_destructible ops = true -> forall u, make ops u <> None) -> hash < 0 -> array_fits tr (blocks_for_capacity tr capacity) ->
  script_ok tr ops malloc_ok platform tls ∅ ∅ l -> total_cost tr l * B < 2 ^ (sb - 1) -> zlength l < 2 ^ 32 ->
  exists rs s, life tr ops malloc_ok indeterminate platform tls hash_bytes capacity l (raw_queue this hash, ∅) = Ok rs s /\
    exists q', ConcurrentQueue_dtor tr tls (fst s) = Ok tt q' /\ released q'.
Proof using TraitsOk0.
  intros Hsb Hassign Hnoexcept Htrivial Hhash Hfit Hl Hsmall Hk.
  destruct (wp_nothrow_ok _ _ _ (life_spec tr ops malloc_ok indeterminate platform tls hash_bytes Hassign j Hsb Hnoexcept Htrivial
    capacity this hash l Hhash Hfit Hl Hsmall Hk)) as (rs & [q cs] & E & m & _ & Hok). exists rs, (q, cs). split; [done|].
  destruct (wp_nothrow_ok _ _ _ (ConcurrentQueue_dtor_spec _ _ _ _ _ _ _ _ Hok)) as ([] & q' & Eq & Hq'). by exists q'.
Qed.
End destructor.

Lemma destructor_frees_everything_witness :
  exists rs s, client_life (raw_queue (-1) (-2), ∅) = Ok rs s /\
    exists q', ConcurrentQueue_dtor small_traits true (fst s) = Ok tt q' /\ released small_traits true q'.
Proof.
  apply (destructor_frees_everything small_traits copied_integers _ (fun _ _ => false) ThreadLocalAddress true 8 2);
    [reflexivity|done|done|done|done|reflexivity|exact client_script_ok|reflexivity|reflexivity].
Defined.
