(* ===== verification/QueueSwap.v ===== *)
(** Swapping two queues and moving one: the clients of a queue go on with the
    queue object that its state went to, and notice nothing. *)

From S2P Require Import Prelude MachineInt Traits FreeList Block BlockPool ProducerBase ExplicitProducer Contents ImplicitProducer ThreadExit ImplicitHash ImplicitHashProofs HashChain HashSwap SubQueues SubQueuesProofs ConcurrentQueue QueueInvariant QueueTokens QueueThreads Client ClientProofs ClientQueue.

Section swap.
Context {U T R : Type} (tr : Traits) `{!TraitsOk tr} (ops : ElementOps U T R).
Context (malloc_ok : nat -> bool) (indeterminate : Indeterminate).
Context (platform : ThreadIdPlatform) (tls : bool) (hash_bytes : Z).
#[local] Abbreviation sb := (size_bits tr).
#[local] Abbreviation B := (BLOCK_SIZE tr).
#[local] Abbreviation Q := (ConcurrentQueue T).
#[local] Abbreviation repr := (queue_repr tr malloc_ok).
#[local] Abbreviation hinv := (hash_inv tr platform (hashed tr hash_bytes)).
#[local] Abbreviation became := (hash_became tr platform (hashed tr hash_bytes)).
#[local] Abbreviation ok := (client_ok tr malloc_ok platform tls hash_bytes).
#[local] Abbreviation view_of := (view_of tr ops).
Implicit Types (q a b : Q) (fl order l : list loc) (p this : loc) (x : Producer) (n k : Z).
Implicit Types (own : loc -> list loc) (cont : loc -> list T) (m : gmap Z loc) (h : HashState) (cs : gmap loc ConsumerToken).

(** * The producers' new parent *)

Lemma reown_spec fuel p l q :
  linked p_next (producers q) p l -> (length l <= fuel)%nat ->
  wp (reown fuel p) (fun _ q' => exists ps, q' = set_producers ps q /\
    forall y, ps !! y = if decide (y ∈ l) then set_p_parent (q_address q) <$> producers q !! y else producers q !! y) nothrow q.
Proof using Type.
  revert p q fuel. induction l as [|z l IH]; intros p q fuel Hl Hf.
  { cbn in Hl. subst p. destruct fuel; cbn; (exists (producers q); split; [by destruct q|]; intros y; by rewrite decide_False by apply not_elem_of_nil). }
  pose proof (linked_nodup _ _ _ Hl) as [Hz _]%NoDup_cons. destruct Hl as (-> & Hn & x & Hx & Hl).
  destruct fuel as [|fuel]; [cbn in Hf; lia|]. cbn [reown]. rewrite (proj2 (Z.eqb_neq _ _) Hn). do 3 wp_step.
  eapply wp_update_producer; [exact Hx|]. wp_step. eapply wp_producer; [apply lookup_insert_eq|]. cbn [p_next set_p_parent].
  eapply wp_mono; [apply (IH _ (put_producer z (set_p_parent (q_address q) x) q) fuel); [by apply linked_insert|cbn in Hf; lia]| |done].
  cbn beta. intros _ q' (ps & -> & Hps). exists ps. split; [done|]. intros y. rewrite Hps. cbn [producers put_producer set_producers q_address].
  destruct (decide (y = z)) as [->|Hne].
  - rewrite lookup_insert_eq, decide_False by done. rewrite decide_True by by left. by rewrite Hx.
  - rewrite lookup_insert_ne by done. apply decide_ext. rewrite elem_of_cons. split; [by right|by intros [|]].
Qed.

Lemma repr_linked n q fl order own cont : repr n q fl order own cont -> linked p_next (producers q) (first_of order) order.
Proof using Type.
  intros Hq. assert (forall l1 l2, order = l1 ++ l2 -> linked p_next (producers q) (first_of l2) l2) as H; [|by apply (H [])].
  intros l1 l2. revert l1. induction l2 as [|p l2 IH]; intros l1 E; [done|]. split; [done|].
  assert (p ∈ order) as Hp by (rewrite E; apply elem_of_app; right; by left).
  apply (qr_addr _ _ _ _ _ _ _ _ Hq) in Hp as Haddr. split; [unfold nullptr; lia|].
  destruct (qr_next _ _ _ _ _ _ _ _ Hq _ _ _ E) as (x & Hx & En). exists x. split; [done|]. rewrite En. apply (IH (l1 ++ [p])). by rewrite <- app_assoc.
Qed.

Lemma reown_producers_spec n q fl order own cont :
  repr n q fl order own cont ->
  wp reown_producers (fun _ q' => q' = set_producers (set_p_parent (q_address q) <$> producers q) q) nothrow q.
Proof using Type.
  intros Hq. unfold reown_producers. do 4 wp_step. rewrite (qr_tail _ _ _ _ _ _ _ _ Hq).
  eapply wp_mono; [eapply reown_spec; [by eapply repr_linked|by erewrite order_length]| |done].
  cbn beta. intros _ q' (ps & -> & Hps). f_equal. apply map_eq. intros y. rewrite Hps, lookup_fmap. case_decide as Hy; [done|].
  destruct (producers q !! y) as [x|] eqn:Hx; [|done]. destruct Hy. apply (qr_dom _ _ _ _ _ _ _ _ Hq). by exists x.
Qed.

(** * The state of a queue in another object *)

(** The state of [q] in the queue object at [this], with the hash [h]. *)
Definition rehomed this h q : Q :=
  mkQueue this (producerListTail q) (producerCount q) (q_mem q) h (nextExplicitConsumerId q) (globalExplicitConsumerOffset q)
    (set_p_parent this <$> producers q) (tokens q) (q_exit q).

Lemma rehomed_lookup this h q p x :
  producers (rehomed this h q) !! p = Some x <-> exists y, producers q !! p = Some y /\ x = set_p_parent this y.
Proof using Type.
  cbn. rewrite lookup_fmap_Some. split; intros (y & ? & ?); exists y; by split.
Qed.

Lemma rehomed_repr n this h q fl order own cont : repr n q fl order own cont -> repr n (rehomed this h q) fl order own cont.
Proof using Type.
  intros []. split; try done.
  - intros l1 p l2 E. destruct (qr_next _ _ _ E) as (x & Hx & Hn). exists (set_p_parent this x). split; [|done].
    apply rehomed_lookup. by exists x.
  - intros p [x (y & Hy & _)%rehomed_lookup]. apply qr_dom. by exists y.
  - intros p x (y & Hy & ->)%rehomed_lookup. apply (qr_sub p y Hy).
Qed.

(** A hash that holds [m], while no thread is adding itself. *)
Definition counted s c : Prop := implicitProducerHashCount s = c /\ implicitProducerHashResizeInProgress s = false.
Definition holds_threads s m k : Prop := exists (main : loc) m0 ls c, hinv s m c main m0 ls /\ counted s c /\ 0 <= c <= k.

(** The hash [r], handed over to a queue whose hash is [s]. *)
Definition hash_handed_over s r m k h : Prop :=
  exists c, counted r c /\ 0 <= c <= k /\ implicitProducerHashResizeInProgress s = false /\ initialImplicitProducerHash s < 0 /\
    became s r m c h.

Lemma handed_over_holds s r m k h : hash_handed_over s r m k h -> holds_threads h m k.
Proof using Type.
  intros (c & [Hcount _] & Hc & Hres & _ & (main & m0 & l & Hinv) & Ec & Er & _). exists main, m0, l, c.
  split; [done|]. split; [|done]. split; congruence.
Qed.

Lemma rehomed_threads this s h q m k fl :
  threads_ok tr platform tls hash_bytes q m k -> hash_handed_over s (q_hash q) m k h -> pool_inv tr (q_mem q) fl ->
  threads_ok tr platform tls hash_bytes (rehomed this h q) m k.
Proof using Type.
  intros [_ Hlow Hprod Hinj Hown Hexit] Hh Hpool. pose proof (handed_over_holds _ _ _ _ _ Hh) as Hholds.
  destruct Hh as (_ & _ & _ & _ & Hneg & _ & _ & _ & _ & Hdom). split; try done.
  - intros y [->|Hy]%Hdom; [|by apply Hlow]. cbn. pose proof (pi_next _ _ _ Hpool). lia.
  - intros tid p Hp. destruct (Hprod tid p Hp) as (Hn & x & Hx & ?). split; [done|]. exists (set_p_parent this x). split; [|done].
    apply rehomed_lookup. by exists x.
  - intros p x (y & Hy & ->)%rehomed_lookup. apply (Hown p y Hy).
Qed.

(** Where its state is makes no difference to the clients of a queue. *)
Lemma rehomed_ok (Hassign : forall v, assign ops v <> None) home this s h m n k (ts cts : gset loc) q cs :
  small tr n -> ok home m n k ts cts (q, cs) -> (INITIAL_IMPLICIT_PRODUCER_HASH_SIZE tr <> 0 -> hash_handed_over s (q_hash q) m k h) ->
  ok (this, initialImplicitProducerHash h) m n k ts cts (rehomed this h q, cs) /\ view_of m (rehomed this h q) = view_of m q.
Proof using TraitsOk0.
  intros Hn [(fl & order & own & cont & Hq) Htok Hpar Hth Hno Hlive Hprod Hcons] Hh. cbn [fst snd] in *.
  pose proof (rehomed_repr n this h q fl order own cont Hq) as Hq'. pose proof (order_of_spec _ _ _ _ _ _ _ _ Hq) as Eo.
  pose proof (order_of_spec _ _ _ _ _ _ _ _ Hq') as Eo'. split.
  - split; cbn [fst snd]; rewrite ?Eo', <- ?Eo; try done.
    + by eexists _, _, _, _.
    + split; [|intros p x (y & Hy & ->)%rehomed_lookup; exact (tk_token _ Htok p y Hy)].
      intros t p Ht Hp. destruct (tk_producer _ Htok t p Ht Hp) as (x & Hx & ?). exists (set_p_parent this x). split; [|done].
      apply rehomed_lookup. by exists x.
    + split; [done|]. by intros p x (y & _ & ->)%rehomed_lookup.
    + intros Hsize. eapply rehomed_threads; [by apply Hth|by apply Hh|apply Hq].
    + intros [-> Hown]%Hno. split; [done|]. intros p x (y & Hy & ->)%rehomed_lookup. apply (Hown p y Hy).
  - rewrite (view_unchanged tr ops malloc_ok Hassign m m n n q (rehomed this h q) fl fl own own cont order (tokens q) Hq Hq' Hn Hn eq_refl), <- Eo.
    done.
Qed.

Lemma home_kept home m n k (ts cts : gset loc) q cs : ok home m n k ts cts (q, cs) -> home_of q = home.
Proof using Type. intros Hq. apply (co_parents _ _ _ _ _ _ _ _ _ _ _ _ Hq). Qed.

(** * Swap *)

Definition initial_of q : loc := initialImplicitProducerHash (q_hash q).

(** Two hashes change places. *)
Lemma exchange_spec ha hb ma mb ka kb :
  (INITIAL_IMPLICIT_PRODUCER_HASH_SIZE tr <> 0 -> holds_threads ha ma ka /\ holds_threads hb mb kb) ->
  initialImplicitProducerHash ha < 0 -> initialImplicitProducerHash hb < 0 ->
  initialImplicitProducerHash ha <> initialImplicitProducerHash hb ->
  wp (swap_implicit_producer_hashes tr) (fun _ (hs : HashState * HashState) =>
    (INITIAL_IMPLICIT_PRODUCER_HASH_SIZE tr <> 0 -> hash_handed_over ha hb mb kb (fst hs) /\ hash_handed_over hb ha ma ka (snd hs)) /\
    initialImplicitProducerHash (fst hs) = initialImplicitProducerHash ha /\
    initialImplicitProducerHash (snd hs) = initialImplicitProducerHash hb) nothrow (ha, hb).
Proof using TraitsOk0.
  intros Hholds Hia Hib Hne. destruct (decide (INITIAL_IMPLICIT_PRODUCER_HASH_SIZE tr = 0)) as [E|Hsize].
  { unfold swap_implicit_producer_hashes. rewrite E, Z.eqb_refl. by wp_step. }
  destruct (Hholds Hsize) as [(maina & m0a & la & ca & Hinva & [Ha1 Ha2] & Hca) (mainb & m0b & lb & cb & Hinvb & [Hb1 Hb2] & Hcb)].
  eapply wp_mono; [by eapply (swap_hashes_spec tr platform)| |done]. cbn beta. intros _ [ha' hb'] [Hfst Hsnd]. cbn [fst snd] in *.
  split; [|split; [apply Hfst|apply Hsnd]]. intros _. split; [exists cb|exists ca]; (split; [by split|]); by split; [|split; [|split]].
Qed.

Lemma swap_internal_spec (Hassign : forall v, assign ops v <> None) homea homeb ma mb na nb ka kb
    (tsa tsb ctsa ctsb : gset loc) a b csa csb :
  small tr na -> small tr nb -> ok homea ma na ka tsa ctsa (a, csa) -> ok homeb mb nb kb tsb ctsb (b, csb) ->
  q_address a <> q_address b -> initial_of a < 0 -> initial_of b < 0 -> initial_of a <> initial_of b ->
  wp (swap_internal tr) (fun _ (ab : Q * Q) =>
    (ok (home_of a) mb nb kb tsb ctsb (fst ab, csb) /\ view_of mb (fst ab) = view_of mb b) /\
    (ok (home_of b) ma na ka tsa ctsa (snd ab, csa) /\ view_of ma (snd ab) = view_of ma a)) nothrow (a, b).
Proof using TraitsOk0.
  intros Hna Hnb Ha Hb Haddr Hia Hib Hne.
  pose proof (co_queue _ _ _ _ _ _ _ _ _ _ _ _ Ha) as (fla & oa & owna & conta & Hqa). pose proof (co_queue _ _ _ _ _ _ _ _ _ _ _ _ Hb) as (flb & ob & ownb & contb & Hqb).
  cbn [fst snd] in *. unfold swap_internal. do 2 wp_step. cbn [fst snd]. rewrite (proj2 (Z.eqb_neq _ _) Haddr).
  unfold swap_members. wp_step. wp_step. wp_step. unfold on_hashes. apply wp_zoom. cbn [fst snd q_hash].
  eapply wp_mono; [apply (exchange_spec (q_hash a) (q_hash b) ma mb ka kb); try done| |done].
  { intros Hsize. split; [by apply (to_hash _ _ _ _ _ _ _ (co_threads _ _ _ _ _ _ _ _ _ _ _ _ Ha Hsize))|by apply (to_hash _ _ _ _ _ _ _ (co_threads _ _ _ _ _ _ _ _ _ _ _ _ Hb Hsize))]. }
  cbn beta.
  intros _ [ha hb] (Hh & Eia & Eib). cbn [fst snd] in *. wp_step. unfold on_this. apply wp_zoom. cbn [fst snd].
  eapply wp_mono; [eapply reown_producers_spec, (queue_repr_ext tr malloc_ok nb b); [exact Hqb|done..]| |done]. cbn beta. intros _ ? ->.
  unfold on_other. apply wp_zoom. cbn [fst snd].
  eapply wp_mono; [eapply reown_producers_spec, (queue_repr_ext tr malloc_ok na a); [exact Hqa|done..]| |done]. cbn beta. intros _ ? ->. cbn [fst snd].
  unfold home_of. rewrite <- Eia, <- Eib. split.
  - apply (rehomed_ok Hassign homeb (q_address a) (q_hash a) ha mb nb kb tsb ctsb b csb); [done|done|]. intros Hsize. by apply Hh.
  - apply (rehomed_ok Hassign homea (q_address b) (q_hash b) hb ma na ka tsa ctsa a csa); [done|done|]. intros Hsize. by apply Hh.
Qed.

(** * Move *)

(** The queue that is left behind is an empty one. *)
Definition left_behind q h : Q :=
  mkQueue (q_address q) nullptr 0 (mkMem ∅ (mkFreeList nullptr ∅) 0 nullptr 0 (next_address (q_mem q)) (malloc_calls (q_mem q)))
    h 0 0 ∅ ∅ (mkExit ∅ ∅).

Lemma left_behind_fresh q h s fl :
  pool_inv tr (q_mem q) fl -> (INITIAL_IMPLICIT_PRODUCER_HASH_SIZE tr <> 0 -> hash_handed_over (q_hash q) s ∅ 0 h) ->
  (forall y, is_Some (tables s !! y) -> y < 0) ->
  fresh_queue tr malloc_ok platform tls hash_bytes (left_behind q h).
Proof using TraitsOk0.
  intros Hpool Hh Hs. set (m := q_mem (left_behind q h)). pose proof (pi_next _ _ _ Hpool) as Hna.
  assert (pool_inv tr m []) as Hm.
  { apply (allocated_pool tr init_mem); [|by apply init_mem_inv]. exists (next_address (q_mem q)), (malloc_calls (q_mem q)).
    split; [done|cbn; lia]. }
  split; [|split; [done|split; [done|]]].
  - apply (empty_repr tr malloc_ok _ []); try done. intros b [x Hx]. cbn in Hx. by rewrite lookup_empty in Hx.
  - intros Hsize. specialize (Hh Hsize). destruct (handed_over_holds _ _ _ _ _ Hh) as (main & m0 & hs & c & Hinv & Hc & Hc0).
    assert (c = 0) as -> by lia. apply (no_threads_ok tr platform tls hash_bytes _ main m0 hs); try done.
    destruct Hh as (_ & _ & _ & _ & Hneg & _ & _ & _ & _ & Hdom). intros y [->|Hy]%Hdom; [|apply Hs in Hy]; cbn; lia.
Qed.

Lemma move_ctor_spec (Hassign : forall v, assign ops v <> None) homeb mb nb kb (tsb ctsb : gset loc) b csb this (hash : loc) :
  small tr nb -> ok homeb mb nb kb tsb ctsb (b, csb) -> hash < 0 -> initial_of b < 0 -> hash <> initial_of b ->
  wp (ConcurrentQueue_move_ctor tr platform) (fun _ (ab : Q * Q) =>
    (ok (this, hash) mb nb kb tsb ctsb (fst ab, csb) /\ view_of mb (fst ab) = view_of mb b) /\
    (ok (home_of b) ∅ 0 0 ∅ ∅ (snd ab, ∅) /\ view_of ∅ (snd ab) = no_views)) nothrow (raw_queue this hash, b).
Proof using TraitsOk0.
  intros Hnb Hb Hhash Hib Hne. pose proof (co_queue _ _ _ _ _ _ _ _ _ _ _ _ Hb) as (flb & ob & ownb & contb & Hqb).
  cbn [fst snd] in *. unfold ConcurrentQueue_move_ctor. do 2 wp_step. unfold on_this at 1. wp_step. apply wp_zoom, wp_in_hash.
  unfold clear_resizing. wp_step. cbn [fst snd]. wp_step. unfold on_this at 1. apply wp_zoom, wp_in_hash. cbn [fst snd].
  set (h0 := q_hash _).
  assert (wp (populate_initial_implicit_producer_hash tr platform) (fun _ h =>
    (INITIAL_IMPLICIT_PRODUCER_HASH_SIZE tr <> 0 -> holds_threads h ∅ 0) /\ initialImplicitProducerHash h = hash /\
    (forall y, is_Some (tables h !! y) -> y < 0)) nothrow h0) as Hpop.
  { destruct (decide (INITIAL_IMPLICIT_PRODUCER_HASH_SIZE tr = 0)) as [E|Hsize].
    - unfold populate_initial_implicit_producer_hash. rewrite E, Z.eqb_refl. wp_step. split; [done|]. split; [done|].
      intros y [t Ht]. cbn in Ht. by rewrite lookup_empty in Ht.
    - eapply wp_mono; [eapply (populate_hash_spec tr platform (hashed tr hash_bytes)); [done| |done]| |done].
      { cbn. unfold nullptr. lia. }
      cbn beta. intros _ h (Hinv & Hcount & Hres & Ei & Hdom). split; [|split; [done|]].
      + intros _. by exists hash, ∅, [], 0.
      + intros y Hy. apply elem_of_dom in Hy. rewrite Hdom in Hy. apply elem_of_singleton in Hy as ->. done. }
  eapply wp_mono; [exact Hpop| |done]. cbn beta. intros _ h1 (Hholds & Ei & Hneg). wp_step. unfold on_hashes. apply wp_zoom. cbn [fst snd q_hash set_q_hash].
  eapply wp_mono; [apply (exchange_spec h1 (q_hash b) ∅ mb 0 kb); rewrite ?Ei; try done| |done].
  { intros Hsize. split; [by apply Hholds|]. by apply (to_hash _ _ _ _ _ _ _ (co_threads _ _ _ _ _ _ _ _ _ _ _ _ Hb Hsize)). }
  cbn beta. intros _ [ha hb] (Hh & Eia & Eib). cbn [fst snd] in *. wp_step. unfold on_other. apply wp_zoom. wp_step. cbn [fst snd].
  unfold on_this. apply wp_zoom. cbn [fst snd].
  eapply wp_mono; [eapply reown_producers_spec, (queue_repr_ext tr malloc_ok nb b); [exact Hqb|done..]| |done]. cbn beta. intros _ ? ->. cbn [fst snd].
  split.
  - assert (hash = initialImplicitProducerHash ha) as -> by congruence.
    apply (rehomed_ok Hassign homeb this h1 ha mb nb kb tsb ctsb b csb); [done|done|]. intros Hsize. by apply Hh.
  - apply and_comm. apply (fresh_ok tr ops malloc_ok platform tls hash_bytes Hassign).
    + apply (left_behind_fresh b hb h1 flb); [apply Hqb|intros Hsize; by apply Hh|done].
    + unfold home_of. cbn. congruence.
Qed.

(** * What the clients see *)

Lemma steps_app v (l l' : list (client_call U)) rs v1 rs' v2 :
  steps tr ops malloc_ok v l rs v1 -> steps tr ops malloc_ok v1 l' rs' v2 -> steps tr ops malloc_ok v (l ++ l') (rs ++ rs') v2.
Proof using Type. induction 1 as [|? ? ? ? ? ? ? Hstep _ IH]; [done|]. intros H'. eapply steps_cons; [exact Hstep|by apply IH]. Qed.

(** The clients that have made the calls [l], answered by [rs], make the calls
    [more] on [q]: the answers are those of one queue to all of their calls. *)
Definition goes_on (l : list (client_call U)) (rs : list (client_answer R)) (more : list (client_call U)) q cs : Prop :=
  exists rs' (s : Q * gmap loc ConsumerToken) (m : gmap Z loc),
    run_clients tr ops malloc_ok indeterminate platform tls hash_bytes more (q, cs) = Ok rs' s /\
    steps tr ops malloc_ok no_views (l ++ more) (rs ++ rs') (view_of m (fst s)).

(** A script that fits into the queue. *)
Definition fits (l : list (client_call U)) : Prop :=
  script_ok tr ops malloc_ok platform tls ∅ ∅ l /\ total_cost tr l * B < 2 ^ (sb - 1) /\ zlength l < 2 ^ 32.

Lemma clients_cost_nonneg (l : list (client_call U)) : 0 <= total_cost tr l.
Proof using TraitsOk0. pose proof (total_cost_length tr l). pose proof (zlength_nonneg l). lia. Qed.

Lemma fits_app (l more : list (client_call U)) : fits (l ++ more) -> fits l /\ small tr (total_cost tr l).
Proof using TraitsOk0.
  intros (Hok%script_ok_app & Hcost & Hlen). pose proof (clients_cost_nonneg more). pose proof (block_size_gt_1 tr). pose proof (zlength_nonneg more).
  rewrite total_cost_app in Hcost. assert (zlength (l ++ more) = zlength l + zlength more) as E by (unfold zlength; rewrite length_app; lia).
  assert (small tr (total_cost tr l)) as Hs by (unfold small; nia). split; [|done]. split; [apply Hok|]. split; [exact Hs|lia].
Qed.

Section promises.
Context (Hassign : forall v : T, assign ops v <> None).
Context (j : nat) (Hsb : sb = 8 * 2 ^ Z.of_nat j).
Context (Hnoexcept : noexcept_ctor ops = true -> forall u, make ops u <> None).
Context (Htrivial : is_trivially_destructible ops = true -> forall u, make ops u <> None).

Lemma life_fits capacity this (hash : loc) (l : list (client_call U)) :
  hash < 0 -> array_fits tr (blocks_for_capacity tr capacity) -> fits l ->
  wp (life tr ops malloc_ok indeterminate platform tls hash_bytes capacity l) (fun rs s => exists m,
    steps tr ops malloc_ok no_views l rs (view_of m (fst s)) /\
    ok (this, hash) m (total_cost tr l) (zlength l) (foldl live_after ∅ l) (foldl consumers_after ∅ l) s) nothrow (raw_queue this hash, ∅).
Proof using All. intros Hhash Hcap (? & ? & ?). by eapply (life_spec tr ops malloc_ok indeterminate platform tls hash_bytes Hassign j). Qed.

Lemma goes_on_ok home m (l : list (client_call U)) rs more q cs :
  ok home m (total_cost tr l) (zlength l) (foldl live_after ∅ l) (foldl consumers_after ∅ l) (q, cs) ->
  steps tr ops malloc_ok no_views l rs (view_of m q) -> fits (l ++ more) -> goes_on l rs more q cs.
Proof using All.
  intros Hq Hsteps (Hscript & Hcost & Hlen). apply script_ok_app in Hscript as [_ Hmore].
  pose proof (total_cost_length tr (l ++ more)). pose proof (zlength_nonneg (l ++ more)). pose proof (block_size_gt_1 tr).
  pose proof (traits_size (tr := tr)). assert (2 ^ (sb - 1) = 2 * 2 ^ (sb - 2)) as E2 by (rewrite <- Z.pow_succ_r by lia; f_equal; lia).
  assert (zlength (l ++ more) = zlength l + zlength more) as E by (unfold zlength; rewrite length_app; lia).
  pose proof (total_cost_app tr l more) as Et.
  destruct (wp_nothrow_ok _ _ _ (run_clients_answered tr ops malloc_ok indeterminate platform tls hash_bytes home Hassign j Hsb Hnoexcept
    Htrivial more m (total_cost tr l) (zlength l) _ _ q cs (clients_cost_nonneg l) ltac:(unfold small; by rewrite <- Et) ltac:(lia) ltac:(nia) Hq Hmore))
    as (rs' & s & Er & m' & Hrest & _).
  exists rs', s, m'. split; [done|]. by eapply steps_app.
Qed.
End promises.

(** C9: When two queues are swapped, at any time of their lives, each object
    goes on as the other did: the clients of either queue, with their tokens and
    their threads, get from the object its state went to the answers that one
    queue would have given to all of their calls.  Scripts are well-formed
    ([script_ok], also as a continuation), and assignments do not throw. *)
Theorem swap_exchanges_queues (j : nat) capacity capacity' this this' (hash hash' : loc) (l l' more more' : list (client_call U)) :
  sb = 8 * 2 ^ Z.of_nat j ->
  (forall v : T, assign ops v <> None) -> (noexcept_ctor ops = true -> forall u, make ops u <> None) ->
  (is_trivially_destructible ops = true -> forall u, make ops u <> None) ->
  hash < 0 -> hash' < 0 -> hash <> hash' -> this <> this' ->
  array_fits tr (blocks_for_capacity tr capacity) -> array_fits tr (blocks_for_capacity tr capacity') -> fits (l ++ more) -> fits (l' ++ more') ->
  exists rs s rs' s' a b,
    life tr ops malloc_ok indeterminate platform tls hash_bytes capacity l (raw_queue this hash, ∅) = Ok rs s /\
    life tr ops malloc_ok indeterminate platform tls hash_bytes capacity' l' (raw_queue this' hash', ∅) = Ok rs' s' /\
    swap_internal tr (fst s, fst s') = Ok tt (a, b) /\ home_of a = (this, hash) /\ home_of b = (this', hash') /\
    goes_on l rs more b (snd s) /\ goes_on l' rs' more' a (snd s').
Proof using TraitsOk0.
  intros Hsb Hassign Hnoexcept Htrivial Hh Hh' Hhh Htt Hcap Hcap' Hfits Hfits'.
  destruct (fits_app _ _ Hfits) as [Hl Hsmall], (fits_app _ _ Hfits') as [Hl' Hsmall'].
  destruct (wp_nothrow_ok _ _ _ (life_fits Hassign j Hsb Hnoexcept Htrivial capacity this hash l Hh Hcap Hl))
    as (rs & [qa csa] & E & ma & Hsteps & Ha).
  destruct (wp_nothrow_ok _ _ _ (life_fits Hassign j Hsb Hnoexcept Htrivial capacity' this' hash' l' Hh' Hcap' Hl'))
    as (rs' & [qb csb] & E' & mb & Hsteps' & Hb).
  pose proof (home_kept _ _ _ _ _ _ _ _ Ha) as Eha. pose proof (home_kept _ _ _ _ _ _ _ _ Hb) as Ehb. injection Eha as E1 E2. injection Ehb as E3 E4.
  destruct (wp_nothrow_ok _ _ _ (swap_internal_spec Hassign _ _ _ _ _ _ _ _ _ _ _ _ qa qb csa csb Hsmall Hsmall' Ha Hb
    ltac:(congruence) ltac:(unfold initial_of; lia) ltac:(unfold initial_of; lia) ltac:(unfold initial_of; congruence)))
    as ([] & [a b] & Eab & (Ha' & Eva) & (Hb' & Evb)). cbn [fst snd] in *.
  exists rs, (qa, csa), rs', (qb, csb), a, b. split; [done|]. split; [done|]. split; [done|].
  pose proof (home_kept _ _ _ _ _ _ _ _ Ha') as ->. pose proof (home_kept _ _ _ _ _ _ _ _ Hb') as ->.
  split; [unfold home_of; by rewrite E1, E2|]. split; [unfold home_of; by rewrite E3, E4|].
  split; eapply (goes_on_ok Hassign j Hsb Hnoexcept Htrivial); try done; [by rewrite Evb|by rewrite Eva].
Qed.

(** C15: The move constructor takes the state of a queue over, at any time of its
    life: its clients go on with the new object, and the old one is an empty
    queue, ready for clients of its own.  Scripts are well-formed, as above. *)
Theorem move_takes_over (j : nat) capacity this this' (hash hash' : loc) (l more more' : list (client_call U)) :
  sb = 8 * 2 ^ Z.of_nat j ->
  (forall v : T, assign ops v <> None) -> (noexcept_ctor ops = true -> forall u, make ops u <> None) ->
  (is_trivially_destructible ops = true -> forall u, make ops u <> None) ->
  hash < 0 -> hash' < 0 -> hash <> hash' -> array_fits tr (blocks_for_capacity tr capacity) -> fits (l ++ more) -> fits more' ->
  exists rs s a b,
    life tr ops malloc_ok indeterminate platform tls hash_bytes capacity l (raw_queue this' hash', ∅) = Ok rs s /\
    ConcurrentQueue_move_ctor tr platform (raw_queue this hash, fst s) = Ok tt (a, b) /\
    home_of a = (this, hash) /\ home_of b = (this', hash') /\
    goes_on l rs more a (snd s) /\ goes_on [] [] more' b ∅.
Proof using TraitsOk0.
  intros Hsb Hassign Hnoexcept Htrivial Hh Hh' Hhh Hcap Hfits Hfits'.
  destruct (fits_app _ _ Hfits) as [Hl Hsmall].
  destruct (wp_nothrow_ok _ _ _ (life_fits Hassign j Hsb Hnoexcept Htrivial capacity this' hash' l Hh' Hcap Hl))
    as (rs & [qb csb] & E & mb & Hsteps & Hb).
  pose proof (home_kept _ _ _ _ _ _ _ _ Hb) as Ehb. injection Ehb as E1 E2.
  destruct (wp_nothrow_ok _ _ _ (move_ctor_spec Hassign _ _ _ _ _ _ qb csb this hash Hsmall Hb Hh
    ltac:(unfold initial_of; lia) ltac:(unfold initial_of; congruence)))
    as ([] & [a b] & Eab & (Ha' & Eva) & (Hb' & Evb)). cbn [fst snd] in *.
  exists rs, (qb, csb), a, b. split; [done|]. split; [done|].
  pose proof (home_kept _ _ _ _ _ _ _ _ Ha') as ->. pose proof (home_kept _ _ _ _ _ _ _ _ Hb') as ->.
  split; [done|]. split; [unfold home_of; by rewrite E1, E2|].
  split; eapply (goes_on_ok Hassign j Hsb Hnoexcept Htrivial); try done; [by rewrite Eva|rewrite Evb; constructor].
Qed.
End swap.

(** * Example: two queues with tokens and threads, in the middle of their scripts *)

Section example.
#[local] Abbreviation memory := (fun n : nat => negb (Nat.eqb n 3)).
#[local] Abbreviation S1 := (raw_queue (-1) (-2) : ConcurrentQueue Z, ∅ : gmap loc ConsumerToken).
#[local] Abbreviation S2 := (raw_queue (-3) (-4) : ConcurrentQueue Z, ∅ : gmap loc ConsumerToken).
#[local] Abbreviation client := (run_clients small_traits copied_integers memory (fun _ _ => false) ThreadLocalAddress true 8).
#[local] Abbreviation lives := (life small_traits copied_integers memory (fun _ _ => false) ThreadLocalAddress true 8 6).

(** The first queue has three threads, so its hash has grown; the second none. *)
Definition calls_before : list (client_call Z) := take 28 client_script.
Definition calls_after : list (client_call Z) := drop 28 client_script.
Definition other_before : list (client_call Z) := take 17 client_script.
Definition other_after : list (client_call Z) := drop 17 client_script.

Lemma script_fits : fits small_traits copied_integers memory ThreadLocalAddress true client_script.
Proof. split; [exact client_script_ok|split; reflexivity]. Qed.

(** The answers before and after the swap. *)
Definition swapped_answers : option (list (client_answer Z) * list (client_answer Z)) :=
  match lives calls_before S1, lives other_before S2 with
  | Ok rs s, Ok rs' s' =>
      match swap_internal small_traits (fst s, fst s') with
      | Ok _ (a, b) =>
          match client calls_after (b, snd s), client other_after (a, snd s') with
          | Ok rs2 _, Ok rs2' _ => Some (rs ++ rs2, rs' ++ rs2')
          | _, _ => None
          end
      | _ => None
      end
  | _, _ => None
  end.

(** Both clients get the answers that they get without the swap. *)
Example swap_is_not_noticed :
  let answers := match client_life S1 with Ok rs _ => rs | _ => [] end in swapped_answers = Some (answers, answers).
Proof. vm_compute. reflexivity. Qed.

Lemma swap_exchanges_queues_witness :
  exists rs s rs' s' a b,
    lives calls_before S1 = Ok rs s /\ lives other_before S2 = Ok rs' s' /\
    swap_internal small_traits (fst s, fst s') = Ok tt (a, b) /\ home_of a = (-1, -2) /\ home_of b = (-3, -4) /\
    goes_on small_traits copied_integers memory (fun _ _ => false) ThreadLocalAddress true 8 calls_before rs calls_after b (snd s) /\
    goes_on small_traits copied_integers memory (fun _ _ => false) ThreadLocalAddress true 8 other_before rs' other_after a (snd s').
Proof.
  apply (swap_exchanges_queues small_traits copied_integers memory (fun _ _ => false) ThreadLocalAddress true 8 2);
    [reflexivity|done|done|done|done|done|done|done|reflexivity|reflexivity|exact script_fits|exact script_fits].
Defined.

Lemma move_takes_over_witness :
  exists rs s a b,
    lives calls_before S2 = Ok rs s /\ ConcurrentQueue_move_ctor small_traits ThreadLocalAddress (fst S1, fst s) = Ok tt (a, b) /\
    home_of a = (-1, -2) /\ home_of b = (-3, -4) /\
    goes_on small_traits copied_integers memory (fun _ _ => false) ThreadLocalAddress true 8 calls_before rs calls_after a (snd s) /\
    goes_on small_traits copied_integers memory (fun _ _ => false) ThreadLocalAddress true 8 [] [] client_script b ∅.
Proof.
  apply (move_takes_over small_traits copied_integers memory (fun _ _ => false) ThreadLocalAddress true 8 2);
    [reflexivity|done|done|done|done|done|done|reflexivity|exact script_fits|exact script_fits].
Defined.
End example.
