(* ===== verification/Blocking.v ===== *)
(** [BlockingConcurrentQueue] of src/blockingconcurrentqueue.h: an inner queue
    and a [LightweightSemaphore] that counts its elements.  A call is a program
    whose atomic steps are the steps of the semaphore's functions and the calls
    of the inner queue. *)

From S2P Require Import Prelude MachineInt Semaphore.

(** * The calls, over any inner queue *)

Section blocking.
(** The inner queue's state and the results of its dequeue operations; the
    width of [size_t]. *)
Context {W R : Type} (sb : Z) (platform : Platform) (m_maxSpins : Z) {os : OsSemaphore}.

Record BlockingConcurrentQueue := mkBlocking {
  inner_queue : W;
  sema : option LightweightSemaphore   (** a [unique_ptr] *)
}.

Definition in_queue {A} (f : M W A) : M BlockingConcurrentQueue A :=
  zoom inner_queue (fun q b => mkBlocking q (sema b)) f.
Definition in_sema {A} (f : M LightweightSemaphore A) : M BlockingConcurrentQueue A :=
  let! o := gets sema in
  let! s := deref NullDeref o in
  zoom (fun _ => s) (fun s b => mkBlocking (inner_queue b) (Some s)) f.

(** What a call does with the permits it waits for: [try_dequeue] and
    [wait_dequeue_timed] give up without one, [wait_dequeue] waits again; the
    bulk operations take what they get. *)
Inductive on_permits :=
  | ThenDequeue (dequeue : M W (option R)) (wait_again : bool)
  | ThenDequeueBulk (dequeue_bulk : Z -> M W (list R)).

(** Where a thread is inside a call. *)
Inductive blocking_pc :=
  (* enqueue, enqueue_bulk and their variants *)
  | Enqueue (enqueue : M W bool)
  | EnqueueBulk (enqueue : M W bool) (count : Z)
  | Signal (p : sem_pc)
  (* try_dequeue, wait_dequeue, wait_dequeue_timed, and the bulk variants *)
  | BulkStart (wait_many : Z -> sem_pc) (max : Z) (dequeue_bulk : Z -> M W (list R))
  | Wait (p : sem_pc) (k : on_permits)
  | Dequeue (dequeue : M W (option R))
  | DequeueBulk (dequeue_bulk : Z -> M W (list R)) (max : Z) (items : list R).

Inductive blocking_result :=
  | WasEnqueued (ok : bool)
  | WasDequeued (item : option R)
  | WasDequeuedBulk (items : list R).

(** After a wait that returned [n] permits. *)
Definition after_wait (n : Z) (k : on_permits) : blocking_result + blocking_pc :=
  match k with
  | ThenDequeue dequeue wait_again =>
      if 0 <? n then inr (Dequeue dequeue)
      else if wait_again then inr (Wait wait_forever k) else inl (WasDequeued None)
  | ThenDequeueBulk dequeue_bulk => inr (DequeueBulk dequeue_bulk n [])
  end.

Definition blocking_step (c : choice) (p : blocking_pc)
    : M BlockingConcurrentQueue (blocking_result + blocking_pc) :=
  match p with
  | Enqueue enqueue =>
      let! ok := in_queue enqueue in
      ret (if ok : bool then inr (Signal (signal 1)) else inl (WasEnqueued false))
  | EnqueueBulk enqueue count =>
      let! ok := in_queue enqueue in
      if ok : bool then
        cassert (0 <=? to_signed sb count);;
        ret (inr (Signal (signal (to_signed sb count))))
      else ret (inl (WasEnqueued false))
  | Signal p =>
      let! r := in_sema (sem_step sb platform m_maxSpins c p) in
      ret (match r with inl _ => inl (WasEnqueued true) | inr p => inr (Signal p) end)
  | BulkStart wait_many max dequeue_bulk =>
      cassert (0 <=? to_signed sb max);;
      ret (inr (Wait (wait_many (to_signed sb max)) (ThenDequeueBulk dequeue_bulk)))
  | Wait p k =>
      let! r := in_sema (sem_step sb platform m_maxSpins c p) in
      ret (match r with inl x => after_wait (acquires x) k | inr p => inr (Wait p k) end)
  | Dequeue dequeue =>
      let! r := in_queue dequeue in
      ret (match r with Some x => inl (WasDequeued (Some x)) | None => inr (Dequeue dequeue) end)
  | DequeueBulk dequeue_bulk max items =>
      if zlength items =? max then ret (inl (WasDequeuedBulk items))
      else
        let! l := in_queue (dequeue_bulk (wrap sb (max - zlength items))) in
        ret (inr (DequeueBulk dequeue_bulk max (items ++ l)))
  end.

(** An uninterrupted call; the environment's choices are given in advance. *)
Fixpoint blocking_run (choices : list choice) (p : blocking_pc)
    : M BlockingConcurrentQueue blocking_result :=
  match choices with
  | [] => faults OutOfFuel
  | c :: choices =>
      let! r := blocking_step c p in
      match r with inl x => ret x | inr p => blocking_run choices p end
  end.

Definition blocking_size_approx : M BlockingConcurrentQueue Z := in_sema (availableApprox sb).

(** ** Threads

    [b_granted] and [b_released] are the permits that the semaphore has granted
    to the threads and that they have given to it. *)
Record blocking_config := mkBlockingConfig {
  b_inner : W;
  b_sema : LightweightSemaphore;
  b_threads : list (option blocking_pc);
  b_granted : Z;
  b_released : Z
}.

(** The permits that a step takes from the semaphore and gives to it. *)
Definition b_releases (p : blocking_pc) : Z := match p with Signal p => releases p | _ => 0 end.
Definition b_acquires (c : choice) (p : blocking_pc) (s : LightweightSemaphore) : Z :=
  match p with
  | Wait p _ =>
      match sem_step sb platform m_maxSpins c p s with Ok (inl x) _ => acquires x | _ => 0 end
  | _ => 0
  end.

Definition whole (c : blocking_config) : BlockingConcurrentQueue :=
  mkBlocking (b_inner c) (Some (b_sema c)).

(** [call] says which calls the threads make. *)
Inductive blocking_cstep (call : blocking_pc -> Prop) : blocking_config -> blocking_config -> Prop :=
  | b_begin q s ths g rl i p :
      ths !! i = Some None -> call p ->
      blocking_cstep call (mkBlockingConfig q s ths g rl)
        (mkBlockingConfig q s (<[i := Some p]> ths) g rl)
  | b_continue q s ths g rl i c p p' q' s' :
      ths !! i = Some (Some p) ->
      blocking_step c p (mkBlocking q (Some s)) = Ok (inr p') (mkBlocking q' (Some s')) ->
      blocking_cstep call (mkBlockingConfig q s ths g rl)
        (mkBlockingConfig q' s' (<[i := Some p']> ths) (g + b_acquires c p s) (rl + b_releases p))
  | b_return q s ths g rl i c p x q' s' :
      ths !! i = Some (Some p) ->
      blocking_step c p (mkBlocking q (Some s)) = Ok (inl x) (mkBlocking q' (Some s')) ->
      blocking_cstep call (mkBlockingConfig q s ths g rl)
        (mkBlockingConfig q' s' (<[i := None]> ths) (g + b_acquires c p s) (rl + b_releases p))
  | b_throw q s ths g rl i c p q' s' :
      ths !! i = Some (Some p) ->
      blocking_step c p (mkBlocking q (Some s)) = Throw (mkBlocking q' (Some s')) ->
      blocking_cstep call (mkBlockingConfig q s ths g rl)
        (mkBlockingConfig q' s' (<[i := None]> ths) (g + b_acquires c p s) (rl + b_releases p)).

Definition blocking_init (q : W) (N : nat) : blocking_config :=
  mkBlockingConfig q (mkSemaphore 0 os_init) (replicate N None) 0 0.

(** In at most [k] steps. *)
Definition blocking_reachable (call : blocking_pc -> Prop) (q : W) (N k : nat) (c : blocking_config)
    : Prop := bsteps (blocking_cstep call) k (blocking_init q N) c.

(** A schedule is a list of moves; one that is not possible does nothing. *)
Inductive blocking_move := Begin (i : nat) (p : blocking_pc) | Continue (i : nat) (c : choice).

Definition blocking_exec (m : blocking_move) (c : blocking_config) : blocking_config :=
  match m with
  | Begin i p =>
      match b_threads c !! i with
      | Some None =>
          mkBlockingConfig (b_inner c) (b_sema c) (<[i := Some p]> (b_threads c))
            (b_granted c) (b_released c)
      | _ => c
      end
  | Continue i ch =>
      match b_threads c !! i with
      | Some (Some p) =>
          let next o q' s' :=
            mkBlockingConfig q' s' (<[i := o]> (b_threads c))
              (b_granted c + b_acquires ch p (b_sema c)) (b_released c + b_releases p) in
          match blocking_step ch p (whole c) with
          | Ok (inr p') (mkBlocking q' (Some s')) => next (Some p') q' s'
          | Ok (inl _) (mkBlocking q' (Some s')) => next None q' s'
          | Throw (mkBlocking q' (Some s')) => next None q' s'
          | _ => c
          end
      | _ => c
      end
  end.

Definition blocking_schedule (l : list blocking_move) (c : blocking_config) : blocking_config :=
  foldl (flip blocking_exec) c l.
End blocking.
Arguments mkBlocking {W os}. Arguments inner_queue {W os}. Arguments sema {W os}.
