(* ===== verification/BlockingProofs.v ===== *)
(** The contract between [BlockingConcurrentQueue] and its inner queue: a
    thread that has a permit finds an element.  The proof is against an
    interface of the inner queue (its number of elements, and what its calls do
    to it), and uses the semaphore's invariant. *)

From S2P Require Import Prelude MachineInt Semaphore SemaphoreProofs Blocking.

(** What the blocking queue asks of an inner queue with states [W]; the queue
    can be relied on for [k] more calls if [iq_inv k] holds. *)
Class InnerQueue (W : Type) := {
  iq_inv : nat -> W -> Prop;
  iq_count : W -> Z;
  iq_nonneg k q : iq_inv k q -> 0 <= iq_count q;
  iq_fewer k q : iq_inv (S k) q -> iq_inv k q
}.

Section laws.
Context {W R : Type} (sb : Z) `{!InnerQueue W}.
Implicit Types q : W.

(** An enqueue call of [n] elements: all of them or none, and none if it
    throws. *)
Definition enqueues (n : Z) (enqueue : M W bool) : Prop :=
  forall k q, iq_inv (S k) q ->
    wp enqueue (fun ok q' => iq_inv k q' /\ iq_count q' = iq_count q + if ok then n else 0)
      (fun q' => iq_inv k q' /\ iq_count q' = iq_count q) q.

(** A dequeue call: at most one element; if it throws, one element is gone. *)
Definition dequeues (dequeue : M W (option R)) : Prop :=
  forall k q, iq_inv (S k) q ->
    wp dequeue (fun r q' => iq_inv k q' /\ iq_count q' = iq_count q - (if r is Some _ then 1 else 0))
      (fun q' => iq_inv k q' /\ iq_count q' = iq_count q - 1) q.

(** A bulk dequeue call: at most [max] elements; if it throws, which [lossless]
    calls do not, at most [max] elements are gone. *)
Definition dequeues_bulk (lossless : bool) (dequeue_bulk : Z -> M W (list R)) : Prop :=
  forall k max q, 0 <= max < 2 ^ sb -> iq_inv (S k) q ->
    wp (dequeue_bulk max) (fun l q' => iq_inv k q' /\ zlength l <= max /\ iq_count q' = iq_count q - zlength l)
      (fun q' => lossless = false /\ iq_inv k q' /\ iq_count q - max <= iq_count q' <= iq_count q) q.
End laws.

(** A queue with elements gives one, when nothing interferes with the call. *)
Section finds.
Context {W R : Type} (sb : Z) `{!InnerQueue W}.
Implicit Types q : W.

Definition finds (dequeue : M W (option R)) : Prop :=
  forall k q, iq_inv (S k) q -> 0 < iq_count q -> wp dequeue (fun r _ => is_Some r) nothrow q.
Definition finds_bulk (dequeue_bulk : Z -> M W (list R)) : Prop :=
  forall k max q, 0 < max < 2 ^ sb -> iq_inv (S k) q -> 0 < iq_count q ->
    wp (dequeue_bulk max) (fun l _ => l <> []) nothrow q.
End finds.

Lemma bsteps_inv_r {A} (r : relation A) k x y :
  bsteps r (S k) x y -> bsteps r k x y \/ exists z, bsteps r k x z /\ r z y.
Proof.
  intros ([|n] & Hn & H)%bsteps_nsteps.
  - left. apply bsteps_nsteps. exists 0%nat. split; [lia|done].
  - apply nsteps_inv_r in H as (z & H & Hz). right. exists z. split; [|done]. apply bsteps_nsteps. exists n. split; [lia|done].
Qed.

Section proofs.
Context {W R : Type} (sb : Z) (platform : Platform) (m_maxSpins : Z).
Context {os : OsSemaphore} `{!OsSemaphoreLaws os} `{!InnerQueue W}.
Context (Hsb : 32 <= sb).
#[local] Abbreviation pc := (blocking_pc (W := W) (R := R)).
#[local] Abbreviation step := (blocking_step (W := W) (R := R) sb platform m_maxSpins).
#[local] Abbreviation config := (blocking_config (W := W) (R := R)).
Implicit Types (q : W) (s : LightweightSemaphore) (p : pc) (c : config).

(** ** Waits for one permit return at most one *)

Definition one_wait (m : spin_call) : bool := match m with WaitOne _ => true | _ => false end.
Definition one_permit (p : sem_pc) : bool :=
  match p with
  | TryLoad _ | TryLoop _ _ => true
  | SpinLoop _ m | SpinCas _ _ m | FetchSub m | OsWait m | AdjustLoad m | AdjustTryWait m
  | AdjustCas _ m => one_wait m
  | _ => false
  end.

Lemma one_permit_step ch (p : sem_pc) s r s' :
  one_permit p = true -> sem_step sb platform m_maxSpins ch p s = Ok r s' ->
  match r with inl x => acquires x = 0 \/ acquires x = 1 | inr p' => one_permit p' = true end.
Proof using Type.
  intros Hp H. destruct p as [k|o k| | |spin m|o spin m|m|m|m|m|o m| | |]; try done;
    try (destruct k); try (destruct m; [|done]); cbn in H;
    unfold bind, ret, gets, modify, cassert, acquire, release, load_count, fetch_add_count,
      cas_count, set_count, bind, ret, gets, modify, faults, after_try, acquired_one, many_returns in H;
    repeat case_match; simplify_eq/=; try done; try (by left); try (by right); right; lia.
Qed.

(** ** Signals return no permit *)

Definition signalling (p : sem_pc) : bool :=
  match p with SignalAdd _ | SignalPost _ => true | _ => false end.

Lemma signalling_step ch (p : sem_pc) s r s' :
  signalling p = true -> sem_step sb platform m_maxSpins ch p s = Ok r s' ->
  match r with inl x => acquires x = 0 | inr p' => signalling p' = true end.
Proof using Type.
  intros Hp H. destruct p; try done; cbn in H;
    unfold bind, ret, gets, modify, cassert, acquire, release, load_count, fetch_add_count,
      cas_count, set_count, signed_result, bind, ret, gets, modify, faults in H;
    repeat case_match; by simplify_eq/=.
Qed.

(** ** Accounts *)

(** The inner semaphore's part of a thread. *)
Definition sem_pc_of p : option sem_pc :=
  match p with Signal p => Some p | Wait p _ => Some p | _ => None end.
(** Permits whose elements are not dequeued yet. *)
Definition permits p : Z :=
  match p with
  | Dequeue _ => 1
  | DequeueBulk _ max items => max - zlength items
  | _ => 0
  end.

Definition wait_wf (lossless : bool) (p : sem_pc) (k : on_permits (W := W) (R := R)) : Prop :=
  releases p = 0 /\
  match k with
  | ThenDequeue dequeue _ => dequeues dequeue /\ one_permit p = true
  | ThenDequeueBulk dequeue_bulk => dequeues_bulk sb lossless dequeue_bulk
  end.
Definition blocking_wf (lossless : bool) p : Prop :=
  match p with
  | Enqueue enqueue => enqueues 1 enqueue
  | EnqueueBulk enqueue count => 0 <= count < 2 ^ (sb - 1) /\ enqueues count enqueue
  | Signal p => signalling p = true
  | BulkStart wait_many max dequeue_bulk =>
      0 <= max < 2 ^ (sb - 1) /\ dequeues_bulk sb lossless dequeue_bulk /\
      sem_call (wait_many max) = true /\ releases (wait_many max) = 0
  | Wait p k => wait_wf lossless p k
  | Dequeue dequeue => dequeues dequeue
  | DequeueBulk dequeue_bulk max items =>
      dequeues_bulk sb lossless dequeue_bulk /\ zlength items <= max < 2 ^ sb
  end.

(** The calls that clients make. *)
Definition blocking_call (lossless : bool) p : Prop :=
  blocking_wf lossless p /\
  match p with
  | Enqueue _ | EnqueueBulk _ _ | BulkStart _ _ _ => True
  | Wait p (ThenDequeue _ _) => sem_call p = true
  | _ => False
  end.

(** The semaphore as its own clients see it. *)
Definition sem_side c : sem_config :=
  mkSemConfig (b_sema c) (option_bind _ _ sem_pc_of <$> b_threads c) (b_granted c) (b_released c).

(** What one step does: [r] is what it leads to, nothing if it throws. *)
Definition next (r : option (blocking_result (R := R) + pc)) : option pc :=
  match r with Some (inr p') => Some p' | _ => None end.
Definition sem_next r : option sem_pc := option_bind _ _ sem_pc_of (next r).

Definition sem_effect ch p s r s' : Prop :=
  match sem_pc_of p with
  | Some sp => exists sr, sem_step sb platform m_maxSpins ch sp s = Ok sr s' /\
      acquired sr = b_acquires sb platform m_maxSpins ch p s /\ releases sp = b_releases p /\
      match sr with inr sp' => sem_next r = Some sp'
      | inl _ => sem_next r = None \/ exists w, sem_next r = Some w /\ sem_call w = true end
  | None => s' = s /\ b_acquires sb platform m_maxSpins ch p s = 0 /\ b_releases p = 0 /\
      (sem_next r = None \/ exists w, sem_next r = Some w /\ sem_call w = true)
  end.

Record blocking_effect lossless k ch p q s r q' s' : Prop := {
  be_queue : iq_inv k q';
  be_wf : forall p', next r = Some p' -> b_acquires sb platform m_maxSpins ch p s < 2 ^ sb ->
    0 <= b_acquires sb platform m_maxSpins ch p s -> blocking_wf lossless p';
  be_count : exists lost, 0 <= lost /\ (lossless = true -> lost = 0) /\
    iq_count q' - from_option b_releases 0 (next r) - from_option permits 0 (next r)
    = iq_count q - permits p - b_acquires sb platform m_maxSpins ch p s + lost;
  be_sem : sem_effect ch p s r s'
}.

(** The semaphore's part of a step can be taken. *)
Definition sem_enabled ch p s : Prop :=
  forall sp, sem_pc_of p = Some sp -> wp (sem_step sb platform m_maxSpins ch sp) (fun _ _ => True) nothrow s.

Definition effect_post lossless k ch p q s (r : option (blocking_result + pc)) (b : BlockingConcurrentQueue) : Prop :=
  exists q' s', b = mkBlocking q' (Some s') /\ blocking_effect lossless k ch p q s r q' s'.

Lemma wp_in_queue {A} (f : M W A) (Q : A -> BlockingConcurrentQueue -> Prop) E q o :
  wp f (fun a q' => Q a (mkBlocking q' o)) (fun q' => E (mkBlocking q' o)) q ->
  wp (in_queue f) Q E (mkBlocking q o).
Proof using Type. intros H. unfold in_queue. by apply wp_zoom. Qed.

Lemma wp_in_sema {A} (f : M LightweightSemaphore A) (Q : A -> BlockingConcurrentQueue -> Prop) E q s :
  wp f (fun a s' => Q a (mkBlocking q (Some s'))) (fun s' => E (mkBlocking q (Some s'))) s ->
  wp (in_sema f) Q E (mkBlocking q (Some s)).
Proof using Type.
  intros H. unfold in_sema. wp_step. wp_step. wp_step. eapply wp_deref; [done|]. by apply wp_zoom.
Qed.

(** A step outside the semaphore that loses [lost] permits. *)
Lemma effect_intro lossless k ch p q s r q' lost :
  sem_pc_of p = None -> iq_inv k q' -> 0 <= lost -> (lossless = true -> lost = 0) ->
  (forall p', next r = Some p' -> blocking_wf lossless p') ->
  (forall w, sem_next r = Some w -> sem_call w = true) ->
  iq_count q' - from_option b_releases 0 (next r) - from_option permits 0 (next r)
    = iq_count q - permits p + lost ->
  effect_post lossless k ch p q s r (mkBlocking q' (Some s)).
Proof using Type.
  intros Hp Hq' Hl Hl0 Hwf Hcall Hn.
  assert (b_acquires sb platform m_maxSpins ch p s = 0) as Ea by (by destruct p).
  exists q', s. split; [done|]. split; [done|auto| |].
  - exists lost. rewrite Ea. split_and!; [done|done|lia].
  - unfold sem_effect. rewrite Hp, Ea. split_and!; [done|done|by destruct p|].
    destruct (sem_next r) as [w|]; [right; eauto|by left].
Qed.

(** A step of the semaphore. *)
Lemma wp_sem_step lossless n ch p sp q s (k : sem_result + sem_pc -> blocking_result + pc) :
  sem_pc_of p = Some sp -> iq_inv n q -> permits p = 0 -> sem_enabled ch p s ->
  releases sp = b_releases p ->
  (forall sr s', sem_step sb platform m_maxSpins ch sp s = Ok sr s' ->
    let acq := b_acquires sb platform m_maxSpins ch p s in
    acquired sr = acq /\
    (acq < 2 ^ sb -> 0 <= acq -> forall p', next (Some (k sr)) = Some p' -> blocking_wf lossless p') /\
    from_option b_releases 0 (next (Some (k sr))) + from_option permits 0 (next (Some (k sr))) = acq /\
    match sr with inr sp' => sem_next (Some (k sr)) = Some sp'
      | inl _ => forall w, sem_next (Some (k sr)) = Some w -> sem_call w = true end) ->
  wp (let! r := in_sema (sem_step sb platform m_maxSpins ch sp) in ret (k r))
    (fun r b => effect_post lossless n ch p q s (Some r) b)
    (fun b => effect_post lossless n ch p q s None b) (mkBlocking q (Some s)).
Proof using Hsb.
  intros Hp Hq Hperm Hen Hrel Hk. wp_step. apply wp_in_sema.
  pose proof (Hen _ Hp) as (sr & s' & E & _)%wp_nothrow_ok. unfold wp. rewrite E.
  destruct (Hk _ _ E) as (Ha & Hwf & Hn & Hs). unfold ret.
  exists q, s'. split; [done|]. split; [done|by intros; eapply Hwf| |].
  - exists 0. split; [done|]. split; [done|]. lia.
  - unfold sem_effect. rewrite Hp. exists sr. split_and!; [done|done|done|].
    destruct sr; [|done]. destruct (sem_next _) as [w|]; [right; eauto|by left].
Qed.

Lemma blocking_step_spec lossless k ch p q s :
  iq_inv (S k) q -> blocking_wf lossless p -> sem_enabled ch p s ->
  wp (step ch p) (fun r b => effect_post lossless k ch p q s (Some r) b)
    (fun b => effect_post lossless k ch p q s None b) (mkBlocking q (Some s)).
Proof using All.
  intros Hq Hwf Hen. assert (0 < sb) as Hs0 by lia. pose proof (pow_half Hs0). pose proof (iq_fewer _ _ Hq) as Hqk.
  destruct p as [enq|enq count|sp|wm max bulk|sp kp|deq|bulk max items]; cbn [blocking_step].
  - wp_step. apply wp_in_queue. eapply wp_mono; [by apply Hwf|..]; cbn beta.
    + intros ok q' [Hq' Hn]. wp_step. apply effect_intro with 0; try done; destruct ok; cbn; try done; try lia.
      * by intros p' [= <-].
      * by intros w [= <-].
    + intros q' [Hq' Hn]. apply effect_intro with 0; try done. cbn. lia.
  - destruct Hwf as [Hc Hwf]. wp_step. apply wp_in_queue. eapply wp_mono; [by apply Hwf|..]; cbn beta.
    + intros ok q' [Hq' Hn]. destruct ok.
      * rewrite !to_signed_small by lia.
        wp_step. apply wp_cassert; [lia|]. wp_step. apply effect_intro with 0; cbn; try done; try lia.
        -- by intros p' [= <-].
        -- intros w [= <-]. cbn. lia.
      * wp_step. apply effect_intro with 0; cbn; try done; lia.
    + intros q' [Hq' Hn]. apply effect_intro with 0; try done. cbn. lia.
  - eapply wp_sem_step with (sp := sp) (k := fun r => match r with inl _ => inl (WasEnqueued true) | inr p => inr (Signal p) end);
      try done. intros sr s' E. cbn. pose proof (signalling_step _ _ _ _ _ Hwf E) as Hr.
    destruct sr as [x|sp']; cbn; split_and!; try done.
    + by intros _ _ p' [= <-].
    + rewrite (sem_step_releases sb platform m_maxSpins _ _ _ _ _ E). lia.
  - destruct Hwf as (Hm & Hbulk & Hc & Hrel). rewrite !to_signed_small by lia.
    wp_step. apply wp_cassert; [lia|]. wp_step. apply effect_intro with 0; cbn; try done; try lia.
    + by intros p' [= <-].
    + by intros w [= <-].
  - destruct Hwf as [Hrel Hwf].
    eapply wp_sem_step with (sp := sp) (k := fun r => match r with inl x => after_wait (acquires x) kp | inr p => inr (Wait p kp) end);
      try done. intros sr s' E. cbn. rewrite E.
    destruct sr as [x|sp'].
    + cbn. split; [done|]. destruct kp as [deq again|bulk].
      * destruct Hwf as [Hdeq Hone]. pose proof (one_permit_step _ _ _ _ _ Hone E) as Hx.
        cbn in Hx. cbn [after_wait].
        destruct (Z.ltb_spec 0 (acquires x)); [|destruct again]; cbn; (split; [|split; [lia|]]);
          try done; [by intros _ _ p' [= <-]|by intros _ _ p' [= <-]|by intros w [= <-]].
      * cbn. split; [|split; [unfold zlength; cbn; lia|done]]. intros ?? p' [= <-].
        cbn. split; [done|]. unfold zlength. cbn. lia.
    + cbn. split_and!; try done. intros _ _ p' [= <-]. cbn.
      split; [by eapply sem_step_releases|]. destruct kp; [|done]. destruct Hwf as [? Hone].
      split; [done|]. by apply (one_permit_step _ _ _ _ _ Hone E).
  - wp_step. apply wp_in_queue. eapply wp_mono; [by apply Hwf|..]; cbn beta.
    + intros r q' (Hq' & Hn). wp_step. apply effect_intro with 0; destruct r; cbn in *; try done; try lia.
      by intros p' [= <-].
    + intros q' [Hq' Hn]. apply effect_intro with 0; cbn in *; try done; lia.
  - destruct Hwf as [Hbulk Hm]. pose proof (zlength_nonneg items).
    destruct (Z.eqb_spec (zlength items) max).
    { wp_step. apply effect_intro with 0; cbn in *; try done; lia. }
    rewrite wrap_small by lia. wp_step. apply wp_in_queue.
    eapply wp_mono; [apply (Hbulk k (max - zlength items)); [lia|done]|..]; cbn beta.
    + intros l q' (Hq' & Hl & Hn). wp_step. apply effect_intro with 0; cbn; rewrite ?zlength_app; try done; try lia.
      intros p' [= <-]. cbn. split; [done|]. rewrite zlength_app. lia.
    + intros q' (Hx & Hq' & Hn). apply effect_intro with (iq_count q' - iq_count q + max - zlength items);
        cbn; try done; try lia. by rewrite Hx.
Qed.

(** ** The invariant *)

Record blocking_inv (lossless : bool) (k N : nat) c : Prop := {
  bi_queue : iq_inv k (b_inner c);
  bi_wf : forall i p, b_threads c !! i = Some (Some p) -> blocking_wf lossless p;
  bi_sem : sem_inv N 0 (sem_side c);
  bi_count : exists lost, 0 <= lost /\ (lossless = true -> lost = 0) /\
    iq_count (b_inner c) = b_released c - b_granted c + thread_sum b_releases (b_threads c)
                           + thread_sum permits (b_threads c) + lost
}.

Lemma sem_side_thread c i p :
  b_threads c !! i = Some (Some p) -> sem_threads (sem_side c) !! i = Some (sem_pc_of p).
Proof using Type. intros Hi. cbn. by rewrite list_lookup_fmap, Hi. Qed.

Lemma sem_side_enabled N c i p ch :
  Z.of_nat N < 2 ^ 31 -> b_released c + b_releases p < 2 ^ (sb - 1) ->
  sem_inv N 0 (sem_side c) -> b_threads c !! i = Some (Some p) ->
  (forall sp, sem_pc_of p = Some sp -> releases sp = b_releases p /\ assert_ok sp) ->
  sem_enabled ch p (b_sema c).
Proof using All.
  intros HN Hr Hinv Hi Hrel sp Hsp. pose proof (sem_side_thread _ _ _ Hi) as Ht. rewrite Hsp in Ht.
  pose proof (sem_inv_range _ _ _ Hinv) as [Hm _]. pose proof (si_wf _ _ _ Hinv _ _ Ht).
  pose proof (si_nonneg _ _ _ Hinv). cbn in *.
  destruct (Hrel _ Hsp) as [Er Hassert].
  eapply wp_mono; [apply sem_step_spec; [done|done|done|done|done|]|done|done].
  split; [lia|]. rewrite Er. lia.
Qed.

Lemma wf_releases lossless p sp :
  blocking_wf lossless p -> sem_pc_of p = Some sp -> releases sp = b_releases p.
Proof using Type. destruct p; cbn; intros Hwf [= <-]; [done|by destruct Hwf]. Qed.

(** The threads after a step of the thread [i]. *)
Definition after ch p r q' s' c i : config :=
  mkBlockingConfig q' s' (<[i := next r]> (b_threads c))
    (b_granted c + b_acquires sb platform m_maxSpins ch p (b_sema c)) (b_released c + b_releases p).

Lemma sem_inv_begin N (c : sem_config) i w :
  Z.of_nat N < 2 ^ 31 -> released c < 2 ^ (sb - 1) -> sem_inv N 0 c ->
  sem_threads c !! i = Some None -> sem_call w = true ->
  sem_inv N 0 (mkSemConfig (semaphore_of c) (<[i := Some w]> (sem_threads c)) (granted c) (released c)).
Proof using All.
  intros HN Hr Hinv Hi Hw. destruct c. cbn in *.
  eapply (sem_inv_cstep sb platform m_maxSpins Hsb N 0); [done|done| |exact Hinv]. by constructor.
Qed.

Lemma sem_effect_inv N c i p ch r s' q' :
  Z.of_nat N < 2 ^ 31 -> b_released c + b_releases p < 2 ^ (sb - 1) ->
  sem_inv N 0 (sem_side c) -> b_threads c !! i = Some (Some p) ->
  sem_effect ch p (b_sema c) r s' -> sem_inv N 0 (sem_side (after ch p r q' s' c i)).
Proof using All.
  intros HN Hr Hinv Hi Heff. pose proof (sem_side_thread _ _ _ Hi) as Ht.
  unfold sem_effect in Heff. unfold after, sem_side in *. cbn in *. rewrite list_fmap_insert.
  change (option_bind _ _ sem_pc_of (next r)) with (sem_next r).
  set (ths := option_bind _ _ sem_pc_of <$> b_threads c) in *.
  assert (i < length ths)%nat as Hlt by (eapply lookup_lt_Some, Ht).
  destruct (sem_pc_of p) as [sp|] eqn:Hp.
  - destruct Heff as (sr & E & Ha & Hrel & Hn).
    pose proof (sem_inv_step sb platform m_maxSpins Hsb N 0
      (mkSemConfig (b_sema c) ths (b_granted c) (b_released c)) i ch sp sr s' HN ltac:(cbn; lia) Hinv Ht E) as H.
    cbn in H. rewrite Ha, Hrel in H. destruct sr as [x|sp']; [|by rewrite Hn].
    destruct Hn as [->|(w & -> & Hw)]; [done|].
    rewrite <- (list_insert_insert_eq ths i (Some w) None).
    epose proof (sem_inv_begin N _ i w HN _ H _ Hw) as H'. exact H'.
    Unshelve. { cbn. lia. } cbn. by apply list_lookup_insert_eq.
  - destruct Heff as (-> & -> & Hrel & Hn). rewrite Hrel, !Z.add_0_r in *.
    destruct Hn as [->|(w & -> & Hw)].
    + by rewrite list_insert_id.
    + epose proof (sem_inv_begin N _ i w HN _ Hinv Ht Hw) as H'. exact H'.
      Unshelve. cbn. lia.
Qed.

Lemma blocking_inv_step lossless k N c i p ch r q' s' :
  Z.of_nat N < 2 ^ 31 -> b_released c + b_releases p < 2 ^ (sb - 1) ->
  blocking_inv lossless (S k) N c -> b_threads c !! i = Some (Some p) ->
  blocking_effect lossless k ch p (b_inner c) (b_sema c) r q' s' ->
  blocking_inv lossless k N (after ch p r q' s' c i).
Proof using All.
  intros HN Hr Hinv Hi [Hq Hwf (l & Hl & Hl0 & Hn) Hsem].
  pose proof (sem_effect_inv N c i p ch r s' q' HN Hr (bi_sem _ _ _ _ Hinv) Hi Hsem) as Hs.
  pose proof (sem_inv_range _ _ _ Hs) as [_ Hg].
  pose proof (thread_sum_nonneg holding (sem_threads (sem_side (after ch p r q' s' c i))) holding_nonneg) as Hh.
  assert (0 < sb) as Hs0 by lia. pose proof (pow_half Hs0). pose proof (pow_half_pos Hs0).
  pose proof (si_granted _ _ _ (bi_sem _ _ _ _ Hinv)) as Hg0. cbn in Hg0.
  assert (0 <= b_acquires sb platform m_maxSpins ch p (b_sema c)) as Ha.
  { unfold sem_effect in Hsem. destruct (sem_pc_of p) as [sp|] eqn:Hp; [|lia].
    destruct Hsem as (sr & E & <- & Hrel & _).
    pose proof (sem_side_thread _ _ _ Hi) as Ht. rewrite Hp in Ht.
    pose proof (si_wf _ _ _ (bi_sem _ _ _ _ Hinv) _ _ Ht). pose proof (si_nonneg _ _ _ (bi_sem _ _ _ _ Hinv)).
    pose proof (sem_inv_range _ _ _ (bi_sem _ _ _ _ Hinv)) as [? _]. cbn in *.
    pose proof (sem_step_spec sb platform m_maxSpins Hsb ch sp (b_sema c)) as Hstep.
    unfold wp in Hstep. rewrite E in Hstep. apply Hstep; [by eapply step_assert_ok|done..|]. split; [lia|]. rewrite Hrel. lia. }
  cbn in Hg, Hh. destruct Hinv as [_ Hwfs _ (lost & Hlost & Hlost0 & Hcount)].
  split; cbn; [done| |done|].
  - intros j p' Hj. apply list_lookup_insert_Some in Hj as [(<- & E & _)|[_ Hj]]; [|by eapply Hwfs].
    apply Hwf; [done|lia|lia].
  - exists (lost + l). split; [lia|]. split; [intros; rewrite Hlost0, Hl0 by done; lia|].
    rewrite !(thread_sum_insert _ _ _ _ _ Hi). cbn. lia.
Qed.

Lemma blocking_wf_call lossless p : blocking_call lossless p ->
  blocking_wf lossless p /\ permits p = 0 /\ b_releases p = 0 /\
  (sem_pc_of p = None \/ exists w, sem_pc_of p = Some w /\ sem_call w = true).
Proof using Type.
  intros [Hwf H]. split; [done|]. destruct p as [| | | |sp [?|?]| |]; try done; split_and!; try done.
  all: first [by left | right; by eexists].
Qed.

Lemma blocking_inv_begin lossless k N c i p :
  Z.of_nat N < 2 ^ 31 -> b_released c < 2 ^ (sb - 1) ->
  blocking_inv lossless k N c -> b_threads c !! i = Some None -> blocking_call lossless p ->
  blocking_inv lossless k N
    (mkBlockingConfig (b_inner c) (b_sema c) (<[i := Some p]> (b_threads c)) (b_granted c) (b_released c)).
Proof using All.
  intros HN Hr Hinv Hi (Hwf & Hp & Hrel & Hsp)%blocking_wf_call.
  assert (sem_threads (sem_side c) !! i = Some None) as Ht by (cbn; by rewrite list_lookup_fmap, Hi).
  destruct Hinv as [Hq Hwfs Hsem (lost & Hlost & Hlost0 & Hcount)].
  split; cbn; [done| | |].
  - intros j p' Hj. apply list_lookup_insert_Some in Hj as [(<- & E & _)|[_ Hj]]; [|by eapply Hwfs].
    by simplify_eq.
  - unfold sem_side. cbn. rewrite list_fmap_insert. cbn [option_bind].
    destruct Hsp as [->|(w & -> & Hw)]; [by rewrite list_insert_id|].
    exact (sem_inv_begin N (sem_side c) i w HN Hr Hsem Ht Hw).
  - exists lost. rewrite !(thread_sum_insert _ _ _ _ _ Hi). cbn. rewrite Hp, Hrel.
    split_and!; [done|done|lia].
Qed.

(** ** Reachable configurations *)

Lemma blocking_step_releases ch p p' b b' :
  step ch p b = Ok (inr p') b' -> 0 <= b_releases p'.
Proof using Type.
  destruct p; cbn [blocking_step]; unfold bind, cassert, ret, faults, after_wait; intros H;
    repeat (case_match; simplify_eq/=); cbn; try lia.
  all: match goal with H : in_sema _ _ = Ok (inr ?p) _ |- 0 <= releases ?p =>
    unfold in_sema, zoom, bind, gets, deref, ret, faults in H; repeat (case_match; simplify_eq/=) end.
  all: match goal with H : sem_step _ _ _ _ _ _ = Ok (inr ?p) _ |- _ =>
    apply sem_step_releases in H; lia end.
Qed.

Lemma blocking_reachable_releases call q N k c :
  (forall p, call p -> b_releases p = 0) ->
  blocking_reachable sb platform m_maxSpins call q N k c ->
  forall i p, b_threads c !! i = Some (Some p) -> 0 <= b_releases p.
Proof using Type.
  intros Hcall Hreach%rtc_bsteps_2. pattern c. revert c Hreach. apply rtc_ind_r; [|intros c c' _ Hstep IH].
  - by intros i p [[=] _]%lookup_replicate.
  - intros j p Hj. destruct Hstep as [q0 s ths g rl i p0 Hi Hp|q0 s ths g rl i ch p0 p' q' s' Hi Hs|
      q0 s ths g rl i ch p0 x q' s' Hi Hs|q0 s ths g rl i ch p0 q' s' Hi Hs]; cbn in *;
      apply list_lookup_insert_Some in Hj as [(<- & E & _)|[_ Hj]]; simplify_eq; try by eapply IH.
    + by rewrite Hcall.
    + by eapply blocking_step_releases.
Qed.

Lemma blocking_inv_init lossless k q N : iq_inv k q -> iq_count q = 0 -> blocking_inv lossless k N (blocking_init q N).
Proof using All.
  intros Hq H0. split; cbn; [done| | |].
  - by intros i p [[=] _]%lookup_replicate.
  - unfold sem_side. cbn. rewrite fmap_replicate. by apply (sem_inv_init N 0).
  - exists 0. rewrite !thread_sum_replicate. lia.
Qed.

(** A step that does not fault asserts something true. *)
Lemma blocking_step_assert ch p q s sp :
  ~ (exists f, step ch p (mkBlocking q (Some s)) = Fault f) -> sem_pc_of p = Some sp -> assert_ok sp.
Proof using Type.
  intros Hf Hsp. destruct sp as [| | | | | | | | | | |n| |]; try done. cbn.
  destruct (Z.ltb_spec 0 n) as [|Hn]; [done|]. destruct Hf. exists AssertFailed.
  destruct p; simplify_eq/=; unfold bind, in_sema, cassert, faults, bind, gets, deref, ret, zoom, sema;
    by rewrite (proj2 (Z.ltb_ge _ _) Hn).
Qed.

(** The effect of a step of a reachable configuration. *)
Lemma blocking_inv_effect lossless k N c i p ch :
  Z.of_nat N < 2 ^ 31 -> b_released c + b_releases p < 2 ^ (sb - 1) -> blocking_inv lossless (S k) N c ->
  b_threads c !! i = Some (Some p) -> (forall sp, sem_pc_of p = Some sp -> assert_ok sp) ->
  wp (step ch p) (fun r b => effect_post lossless k ch p (b_inner c) (b_sema c) (Some r) b)
    (fun b => effect_post lossless k ch p (b_inner c) (b_sema c) None b) (whole c).
Proof using All.
  intros HN Hr Hinv Hi Hassert. apply blocking_step_spec.
  - apply Hinv.
  - by eapply bi_wf.
  - eapply sem_side_enabled; [done|done|by apply bi_sem in Hinv|done|].
    intros sp Hsp. split; [|auto]. eapply wf_releases; [|done]. by eapply bi_wf.
Qed.

(** A step, whatever it leads to. *)
Lemma blocking_inv_outcome lossless k N c i p ch r q' s' :
  Z.of_nat N < 2 ^ 31 -> b_released c + b_releases p < 2 ^ (sb - 1) -> blocking_inv lossless (S k) N c ->
  b_threads c !! i = Some (Some p) ->
  step ch p (whole c) = match r with
    | Some x => Ok x (mkBlocking q' (Some s')) | None => Throw (mkBlocking q' (Some s')) end ->
  blocking_effect lossless k ch p (b_inner c) (b_sema c) r q' s'.
Proof using All.
  intros HN Hr Hinv Hi Hs.
  assert (forall sp, sem_pc_of p = Some sp -> assert_ok sp) as Hassert.
  { intros sp. eapply blocking_step_assert. intros [f Hf]. unfold whole in Hs. rewrite Hf in Hs. by destruct r. }
  pose proof (blocking_inv_effect lossless k N c i p ch HN Hr Hinv Hi Hassert) as He. unfold wp in He. rewrite Hs in He.
  destruct r; by destruct He as (? & ? & [= <- <-] & He).
Qed.

Lemma blocking_inv_fewer lossless k N c : blocking_inv lossless (S k) N c -> blocking_inv lossless k N c.
Proof using Type. intros []. split; [by apply iq_fewer|done..]. Qed.

Lemma blocking_inv_cstep lossless call k N c c' :
  Z.of_nat N < 2 ^ 31 -> (forall p, call p -> blocking_call lossless p) ->
  b_released c' < 2 ^ (sb - 1) ->
  blocking_cstep sb platform m_maxSpins call c c' -> blocking_inv lossless (S k) N c -> blocking_inv lossless k N c'.
Proof using All.
  intros HN Hcall Hr Hstep Hinv.
  destruct Hstep as [q0 s ths g rl i p0 Hi Hp|q0 s ths g rl i ch p p' q' s' Hi Hs|
      q0 s ths g rl i ch p x q' s' Hi Hs|q0 s ths g rl i ch p q' s' Hi Hs]; cbn in Hr.
  { apply (blocking_inv_begin lossless k N (mkBlockingConfig q0 s ths g rl)); [done|done|by apply blocking_inv_fewer|by auto..]. }
  all: set (c := mkBlockingConfig q0 s ths g rl) in *.
  - pose proof (blocking_inv_outcome lossless k N c i p ch (Some (inr p')) q' s' HN Hr Hinv Hi Hs) as He.
    exact (blocking_inv_step lossless k N c i p ch _ q' s' HN Hr Hinv Hi He).
  - pose proof (blocking_inv_outcome lossless k N c i p ch (Some (inl x)) q' s' HN Hr Hinv Hi Hs) as He.
    exact (blocking_inv_step lossless k N c i p ch _ q' s' HN Hr Hinv Hi He).
  - pose proof (blocking_inv_outcome lossless k N c i p ch None q' s' HN Hr Hinv Hi Hs) as He.
    exact (blocking_inv_step lossless k N c i p ch _ q' s' HN Hr Hinv Hi He).
Qed.

Lemma blocking_released_mono call c c' :
  (forall i p, b_threads c !! i = Some (Some p) -> 0 <= b_releases p) ->
  blocking_cstep sb platform m_maxSpins call c c' -> b_released c <= b_released c'.
Proof using Type.
  intros Hrel Hs. destruct Hs as [|? ? ? ? ? i ? p ? ? ? Hi|? ? ? ? ? i ? p ? ? ? Hi|? ? ? ? ? i ? p ? ? Hi];
    cbn in *; [lia|..]; specialize (Hrel i p Hi); lia.
Qed.

Lemma blocking_wf_call_releases lossless p : blocking_call lossless p -> b_releases p = 0.
Proof using Type. by intros (_ & _ & ? & _)%blocking_wf_call. Qed.

(** The inner queue can be relied on for [n] calls after [k] steps. *)
Lemma blocking_reachable_inv lossless call q N n k c :
  Z.of_nat N < 2 ^ 31 -> (forall p, call p -> blocking_call lossless p) ->
  iq_inv (n + k) q -> iq_count q = 0 -> b_released c < 2 ^ (sb - 1) ->
  blocking_reachable sb platform m_maxSpins call q N k c -> blocking_inv lossless n N c.
Proof using All.
  intros HN Hcall. revert n c. induction k as [|k IH]; intros n c Hq H0 Hr Hreach.
  { inversion Hreach; subst. apply blocking_inv_init; [|done]. by rewrite Nat.add_0_r in Hq. }
  rewrite <- Nat.add_succ_comm in Hq.
  apply bsteps_inv_r in Hreach as [Hreach|(c1 & Hreach & Hstep)]; [by apply blocking_inv_fewer, IH|].
  assert (forall p, call p -> b_releases p = 0) as Hc by (intros p Hp; by eapply blocking_wf_call_releases, Hcall).
  pose proof (blocking_released_mono _ _ _ (blocking_reachable_releases _ _ _ _ _ Hc Hreach) Hstep).
  eapply blocking_inv_cstep; [done|done|done|done|]. apply IH; [done|done|lia|done].
Qed.

(** ** The inner calls of a thread *)

(** The thread dequeues with calls for which [P] and [Pb] hold. *)
Definition takes_with (P : M W (option R) -> Prop) (Pb : (Z -> M W (list R)) -> Prop) p : Prop :=
  match p with
  | Dequeue f | Wait _ (ThenDequeue f _) => P f
  | BulkStart _ _ f | DequeueBulk f _ _ | Wait _ (ThenDequeueBulk f) => Pb f
  | _ => True
  end.

Lemma takes_with_step P Pb ch p b p' b' :
  takes_with P Pb p -> step ch p b = Ok (inr p') b' -> takes_with P Pb p'.
Proof using Type.
  intros Hp. destruct p as [| | | |sp [f again|f]| |]; cbn in Hp; cbn [blocking_step];
    unfold bind, cassert, ret, faults, after_wait; intros H; by repeat (case_match; simplify_eq/=).
Qed.

Lemma reachable_takes_with P Pb call q N k c i p :
  (forall p, call p -> takes_with P Pb p) -> blocking_reachable sb platform m_maxSpins call q N k c ->
  b_threads c !! i = Some (Some p) -> takes_with P Pb p.
Proof using Type.
  intros Hcall Hreach%rtc_bsteps_2. revert i p. pattern c. revert c Hreach. apply rtc_ind_r.
  - by intros i p [[=] _]%lookup_replicate.
  - intros c c' _ Hstep IH j p Hj. destruct Hstep as [q0 s ths g rl i p0 Hi Hp|q0 s ths g rl i ch p0 p' q' s' Hi Hs|
      q0 s ths g rl i ch p0 x q' s' Hi Hs|q0 s ths g rl i ch p0 q' s' Hi Hs]; cbn in *;
      apply list_lookup_insert_Some in Hj as [(<- & E & _)|[_ Hj]]; simplify_eq; try by eapply IH.
    + by apply Hcall.
    + eapply takes_with_step; [by eapply IH|done].
Qed.

(** The loops that use permits: an element, or a bulk that grows. *)
Definition productive p (r : blocking_result (R := R) + pc) : Prop :=
  match p, r with
  | Dequeue _, inl (WasDequeued (Some _)) => True
  | DequeueBulk f max items, inr (DequeueBulk f' max' items') =>
      f' = f /\ max' = max /\ exists l, l <> [] /\ items' = items ++ l
  | _, _ => False
  end.

Lemma productive_step k ch p q s :
  iq_inv (S k) q -> takes_with finds (finds_bulk sb) p -> 0 < permits p -> permits p <= iq_count q ->
  (forall f max items, p = DequeueBulk f max items -> max < 2 ^ sb) ->
  wp (step ch p) (fun r _ => productive p r) nothrow (mkBlocking q (Some s)).
Proof using Hsb.
  intros Hq Hp Hperm Hcount Hmax. destruct p as [| | | | |f|f max items]; try done; cbn in *.
  - wp_step. apply wp_in_queue. eapply wp_mono; [eapply Hp; [done|lia]| |done]. cbn beta. intros ? ? [r ->]. by wp_step.
  - specialize (Hmax _ _ _ eq_refl). rewrite (proj2 (Z.eqb_neq _ _)) by lia. pose proof (zlength_nonneg items). rewrite wrap_small by lia.
    wp_step. apply wp_in_queue. eapply wp_mono; [eapply Hp; [|done|]; lia| |done]. cbn beta. intros l ? Hl. wp_step. by eauto.
Qed.

(** ** The assertion of [waitMany(max)] *)

Definition blocking_safe c : Prop :=
  forall i p sp, b_threads c !! i = Some (Some p) -> sem_pc_of p = Some sp -> pc_safe sp.

Lemma sem_effect_safe ch p s r s' w :
  os_reliable platform os -> sem_effect ch p s r s' ->
  (forall sp, sem_pc_of p = Some sp -> pc_wf sp /\ pc_safe sp) -> sem_next r = Some w -> pc_safe w.
Proof using Type.
  intros Hrel Heff Hp Hw. unfold sem_effect in Heff. rewrite Hw in Heff. destruct (sem_pc_of p) as [sp|].
  - destruct (Hp sp eq_refl) as [Hwf Hsafe]. destruct Heff as ([x|sp'] & E & _ & _ & Hn).
    + destruct Hn as [|(w' & [= <-] & ?)]; [done|]. by apply sem_call_safe.
    + simplify_eq. by eapply sem_step_safe.
  - destruct Heff as (_ & _ & _ & [|(w' & [= <-] & ?)]); [done|]. by apply sem_call_safe.
Qed.

Lemma blocking_inv_pc_wf lossless k N c i p sp :
  blocking_inv lossless k N c -> b_threads c !! i = Some (Some p) -> sem_pc_of p = Some sp -> pc_wf sp.
Proof using Type.
  intros Hinv Hi Hsp. apply (si_wf _ _ _ (bi_sem _ _ _ _ Hinv) i). rewrite (sem_side_thread _ _ _ Hi). by f_equal.
Qed.

Lemma blocking_safe_step lossless k N c i p ch r q' s' :
  os_reliable platform os -> blocking_inv lossless (S k) N c -> blocking_safe c -> b_threads c !! i = Some (Some p) ->
  blocking_effect lossless k ch p (b_inner c) (b_sema c) r q' s' -> blocking_safe (after ch p r q' s' c i).
Proof using Type.
  intros Hrel Hinv Hsafe Hi He j p' sp Hj Hsp. cbn in Hj.
  apply list_lookup_insert_Some in Hj as [(<- & E & _)|[_ Hj]]; [|by eapply Hsafe].
  eapply sem_effect_safe; [done|by eapply be_sem| |unfold sem_next; by rewrite E].
  intros sp' Hsp'. split; [by eapply blocking_inv_pc_wf|by eapply Hsafe].
Qed.

Lemma blocking_reachable_safe lossless call q N n k c :
  os_reliable platform os -> Z.of_nat N < 2 ^ 31 -> (forall p, call p -> blocking_call lossless p) ->
  iq_inv (n + k) q -> iq_count q = 0 -> b_released c < 2 ^ (sb - 1) ->
  blocking_reachable sb platform m_maxSpins call q N k c -> blocking_safe c.
Proof using All.
  intros Hrel HN Hcall. revert n c. induction k as [|k IH]; intros n c Hq H0 Hr Hreach.
  { inversion Hreach; subst. by intros i p sp [[=] _]%lookup_replicate. }
  rewrite <- Nat.add_succ_comm in Hq.
  apply bsteps_inv_r in Hreach as [Hreach|(c1 & Hreach & Hstep)]; [by eapply (IH (S n))|].
  assert (forall p, call p -> b_releases p = 0) as Hc by (intros p Hp; by eapply blocking_wf_call_releases, Hcall).
  pose proof (blocking_released_mono _ _ _ (blocking_reachable_releases _ _ _ _ _ Hc Hreach) Hstep) as Hle.
  assert (b_released c1 < 2 ^ (sb - 1)) as Hr1 by lia.
  pose proof (IH (S n) c1 Hq H0 Hr1 Hreach) as Hsafe.
  pose proof (blocking_reachable_inv lossless call q N (S n) k c1 HN Hcall Hq H0 Hr1 Hreach) as Hinv.
  destruct Hstep as [q0 s ths g rl i p0 Hi Hp|q0 s ths g rl i ch p p' q' s' Hi Hs|
      q0 s ths g rl i ch p x q' s' Hi Hs|q0 s ths g rl i ch p q' s' Hi Hs]; cbn in Hr.
  { intros j p sp Hj Hsp. cbn in Hj. apply list_lookup_insert_Some in Hj as [(<- & E & _)|[_ Hj]]; [|by eapply Hsafe].
    simplify_eq. destruct (blocking_wf_call _ _ (Hcall _ Hp)) as (_ & _ & _ & [Hn|(w & Hw & Hc')]); [congruence|].
    assert (w = sp) as -> by congruence. by apply sem_call_safe. }
  all: set (c := mkBlockingConfig q0 s ths g rl) in *.
  - exact (blocking_safe_step lossless n N c i p ch _ q' s' Hrel Hinv Hsafe Hi
      (blocking_inv_outcome lossless n N c i p ch (Some (inr p')) q' s' HN Hr Hinv Hi Hs)).
  - exact (blocking_safe_step lossless n N c i p ch _ q' s' Hrel Hinv Hsafe Hi
      (blocking_inv_outcome lossless n N c i p ch (Some (inl x)) q' s' HN Hr Hinv Hi Hs)).
  - exact (blocking_safe_step lossless n N c i p ch _ q' s' Hrel Hinv Hsafe Hi
      (blocking_inv_outcome lossless n N c i p ch None q' s' HN Hr Hinv Hi Hs)).
Qed.

(** No count of the semaphore wraps around. *)
Lemma blocking_step_width sb' ch p q s :
  sb <= sb' -> (forall sp, sem_pc_of p = Some sp -> pc_wf sp /\ in_range sb s sp) ->
  match p with
  | EnqueueBulk _ count => 0 <= count < 2 ^ (sb - 1)
  | BulkStart _ max _ => 0 <= max < 2 ^ (sb - 1)
  | DequeueBulk _ max items => zlength items <= max < 2 ^ sb
  | _ => True
  end ->
  blocking_step sb' platform m_maxSpins ch p (mkBlocking q (Some s)) = step ch p (mkBlocking q (Some s)).
Proof using Hsb.
  intros Hw Hsp Hp. pose proof (Z.pow_le_mono_r 2 sb sb' ltac:(lia) Hw).
  pose proof (Z.pow_le_mono_r 2 (sb - 1) (sb' - 1) ltac:(lia) ltac:(lia)).
  assert (forall sp, sem_pc_of p = Some sp -> in_sema (W := W) (sem_step sb' platform m_maxSpins ch sp) (mkBlocking q (Some s))
    = in_sema (sem_step sb platform m_maxSpins ch sp) (mkBlocking q (Some s))) as Hsem.
  { intros sp E. destruct (Hsp sp E). unfold in_sema, bind, gets, deref, ret, zoom, sema.
    by rewrite (sem_step_width sb platform m_maxSpins Hsb sb' ch sp s). }
  destruct p as [enq|enq count|sp|wm max bulk|sp kp|deq|bulk max items]; cbn [blocking_step] in *; try done.
  - rewrite !to_signed_small; [done|lia..].
  - unfold bind. by rewrite Hsem.
  - rewrite !to_signed_small; [done|lia..].
  - unfold bind. by rewrite Hsem.
  - destruct (Z.eqb_spec (zlength items) max); [done|]. pose proof (zlength_nonneg items). rewrite !wrap_small; [done|lia..].
Qed.

Section claims.
Context (lossless : bool) (call : pc -> Prop) (q0 : W) (N k : nat) (c : config).
Context (HN : Z.of_nat N < 2 ^ 31) (Hcall : forall p, call p -> blocking_call lossless p).
Context (Hq0 : iq_inv (S k) q0) (Hempty : iq_count q0 = 0).
Context (Hreach : blocking_reachable sb platform m_maxSpins call q0 N k c).

Lemma reached_step i p ch :
  os_reliable platform os -> b_threads c !! i = Some (Some p) -> b_released c + b_releases p < 2 ^ (sb - 1) ->
  wp (step ch p) (fun r b => effect_post lossless 0 ch p (b_inner c) (b_sema c) (Some r) b)
    (fun b => effect_post lossless 0 ch p (b_inner c) (b_sema c) None b) (whole c) /\
  blocking_inv lossless 1 N c.
Proof using All.
  intros Hrel Hi Hr.
  assert (forall p, call p -> b_releases p = 0) as Hc by (intros ? Hp; by eapply blocking_wf_call_releases, Hcall).
  pose proof (blocking_reachable_releases _ _ _ _ _ Hc Hreach _ _ Hi).
  assert (blocking_inv lossless 1 N c) as Hinv by (eapply blocking_reachable_inv; eauto with lia).
  assert (blocking_safe c) as Hsafe by (eapply (blocking_reachable_safe lossless call q0 N 1); eauto with lia).
  split; [|done]. apply (blocking_inv_effect lossless 0 N c i p ch HN Hr Hinv Hi). intros sp Hsp. by eapply pc_safe_assert, Hsafe.
Qed.

(** C11: Whatever the threads of a [BlockingConcurrentQueue] do -- as long as
    the inner queue keeps its contract, [wait_dequeue_bulk] is called for at
    least one element, and the system's wait without a timeout does not fail --
    no step of a call faults.  The assertions hold, that of [waitMany(max)] on
    its result included; the semaphore's count stays between minus the number
    of threads and the permits released; and no sum or conversion of a count
    wraps around: at any greater width of [size_t] the step is the same. *)
Theorem blocking_never_faults i p ch :
  os_reliable platform os ->
  b_threads c !! i = Some (Some p) -> b_released c + b_releases p < 2 ^ (sb - 1) ->
  (~ exists f, step ch p (whole c) = Fault f) /\
  (forall sb', sb <= sb' -> blocking_step sb' platform m_maxSpins ch p (whole c) = step ch p (whole c)) /\
  - Z.of_nat N <= m_count (b_sema c) <= b_released c.
Proof using All.
  intros Hrel Hi Hr. destruct (reached_step i p ch Hrel Hi Hr) as [Hstep Hinv].
  pose proof (sem_inv_range _ _ _ (bi_sem _ _ _ _ Hinv)) as [Hm _]. cbn in Hm. split; [|split; [|exact Hm]].
  - intros [f E]. unfold wp in Hstep. by rewrite E in Hstep.
  - pose proof (bi_wf _ _ _ _ Hinv _ _ Hi) as Hwf. intros sb' Hw. apply blocking_step_width; [done| |].
    + intros sp Hsp. split; [by eapply blocking_inv_pc_wf|]. rewrite <- (wf_releases _ _ _ Hwf Hsp) in Hr. split; lia.
    + destruct p; try done; by destruct Hwf.
Qed.

Context (Hr : b_released c < 2 ^ (sb - 1)).

Lemma reached_inv : blocking_inv lossless 1 N c.
Proof using All. by eapply blocking_reachable_inv. Qed.

(** The permits still to be used are elements of the queue. *)
Lemma permits_are_elements i p :
  b_threads c !! i = Some (Some p) -> permits p <= iq_count (b_inner c).
Proof using All.
  intros Hi. pose proof reached_inv as Hinv.
  assert (forall p, call p -> b_releases p = 0) as Hc by (intros ? Hp; by eapply blocking_wf_call_releases, Hcall).
  assert (0 <= thread_sum b_releases (b_threads c)) as Hrel.
  { apply zsum_nonneg_in. intros [p'|] [j Hj]%list_elem_of_lookup; cbn; [|lia].
    by eapply blocking_reachable_releases. }
  pose proof (sem_inv_range _ _ _ (bi_sem _ _ _ _ Hinv)) as [_ Hg].
  pose proof (thread_sum_nonneg holding (sem_threads (sem_side c)) holding_nonneg) as Hh. cbn in Hg, Hh.
  destruct (bi_count _ _ _ _ Hinv) as (lost & Hlost & _ & ->).
  enough (permits p <= thread_sum permits (b_threads c)) by lia.
  apply (zsum_elem_in (from_option permits 0) _ i (Some p)); [|done].
  intros [p'|] [j Hj]%list_elem_of_lookup; cbn; [|lia].
  pose proof (bi_wf _ _ _ _ Hinv _ _ Hj) as Hwf. destruct p'; cbn in *; lia.
Qed.

Lemma reached_productive i p ch :
  b_threads c !! i = Some (Some p) -> takes_with finds (finds_bulk sb) p -> 0 < permits p ->
  wp (step ch p) (fun r _ => productive p r) nothrow (whole c).
Proof using All.
  intros Hi Hp Hperm. pose proof reached_inv as Hinv. eapply productive_step; [by eapply bi_queue|done|done|by eapply permits_are_elements|].
  intros f max items ->. pose proof (bi_wf _ _ _ _ Hinv _ _ Hi) as Hwf. cbn in Hwf. lia.
Qed.

Lemma reached_size :
  lossless = true -> (forall i o, b_threads c !! i = Some o -> o = None) ->
  blocking_size_approx sb (whole c) = Ok (iq_count (b_inner c)) (whole c).
Proof using All.
  intros Hloss Hidle. pose proof reached_inv as Hinv.
  destruct (bi_count _ _ _ _ Hinv) as (lost & Hlost & Hlost0 & Hcount).
  rewrite Hlost0, !(thread_sum_idle _ _ Hidle) in Hcount by done.
  destruct (sem_inv_quiescent sb platform m_maxSpins Hsb N 0 (sem_side c)) as (_ & _ & H'); [done|cbn; lia|apply Hinv| |].
  - intros i o Hi. cbn in Hi. rewrite list_lookup_fmap in Hi.
    destruct (b_threads c !! i) as [o'|] eqn:E; [|done]. apply Hidle in E as ->. by simplify_eq/=.
  - cbn -[availableApprox] in H'. unfold blocking_size_approx, in_sema, whole.
    cbv [bind gets deref ret zoom sema]. rewrite H'. f_equal. lia.
Qed.

(** C10: A thread of a [BlockingConcurrentQueue] that has permits it has not
    used finds the inner queue not empty, under every interleaving and also
    after exceptions: [while (!inner.try_dequeue(item)) continue;] never waits
    for an element that is not there. *)
Theorem blocking_permit_has_element i p :
  b_threads c !! i = Some (Some p) -> 0 < permits p -> 0 < iq_count (b_inner c).
Proof using All. intros Hi Hp. pose proof (permits_are_elements i p Hi). lia. Qed.

(** C14: If no bulk dequeue throws, then whenever no call is in progress,
    [size_approx] of the [BlockingConcurrentQueue] is exactly the number of
    elements of the inner queue. *)
Theorem blocking_size_exact :
  lossless = true -> (forall i o, b_threads c !! i = Some o -> o = None) ->
  blocking_size_approx sb (whole c) = Ok (iq_count (b_inner c)) (whole c).
Proof using All. apply reached_size. Qed.

(** C12: If no bulk dequeue throws, no wakeup is lost in a
    [BlockingConcurrentQueue]: when every call in progress sleeps in the
    system's semaphore and the queue has an element, a sleeping [wait_dequeue]
    can be woken, and it then holds a permit. *)
Theorem blocking_no_lost_wakeup i t kp :
  lossless = true -> 0 < iq_count (b_inner c) ->
  (forall j p, b_threads c !! j = Some (Some p) -> exists m k', p = Wait (OsWait m) k') ->
  b_threads c !! i = Some (Some (Wait (OsWait (WaitOne t)) kp)) ->
  exists ch s', step ch (Wait (OsWait (WaitOne t)) kp) (whole c)
    = Ok (after_wait 1 kp) (mkBlocking (b_inner c) (Some s')).
Proof using All.
  intros Hloss Hn Hblock Hi. pose proof reached_inv as Hinv.
  destruct (bi_count _ _ _ _ Hinv) as (lost & Hlost & Hlost0 & Hcount). rewrite Hlost0 in Hcount by done.
  rewrite (thread_sum_zero b_releases), (thread_sum_zero permits) in Hcount
    by (intros j p Hj; by destruct (Hblock j p Hj) as (m & k' & ->)).
  destruct (sem_inv_wakeup sb platform m_maxSpins Hsb N 0 (sem_side c) i (WaitOne t)) as (ch & s' & E).
  - apply Hinv.
  - intros j p Hj. cbn in Hj. rewrite list_lookup_fmap in Hj.
    destruct (b_threads c !! j) as [[p'|]|] eqn:Ej; simplify_eq/=.
    destruct (Hblock j p' Ej) as (m & k' & ->). simplify_eq/=. eauto.
  - exact (sem_side_thread _ _ _ Hi).
  - cbn. lia.
  - exists ch, s'. cbn [blocking_step]. unfold in_sema, whole.
    cbn -[sem_step] in E. cbv [bind gets deref ret zoom sema]. by rewrite E.
Qed.
End claims.
End proofs.

(** * Schedules reach reachable configurations *)

Section schedules.
Context {W R : Type} (sb : Z) (platform : Platform) (m_maxSpins : Z) {os : OsSemaphore}.
Context (call : blocking_pc (W := W) (R := R) -> Prop).
#[local] Abbreviation cstep := (blocking_cstep sb platform m_maxSpins call).

Definition begins (m : blocking_move (W := W) (R := R)) : Prop :=
  match m with Begin _ p => call p | Continue _ _ => True end.

Lemma blocking_schedule_reachable (q : W) N l :
  Forall begins l ->
  blocking_reachable sb platform m_maxSpins call q N (length l)
    (blocking_schedule sb platform m_maxSpins l (blocking_init q N)).
Proof using Type.
  unfold blocking_reachable, blocking_schedule.
  induction l as [|m l IH] using rev_ind; intros Hl; [constructor|].
  apply Forall_app in Hl as [Hl Hm]. apply Forall_cons in Hm as [Hm _].
  rewrite foldl_snoc, length_app, Nat.add_comm. cbn [flip]. specialize (IH Hl). revert IH.
  generalize (foldl (flip (blocking_exec sb platform m_maxSpins)) (blocking_init q N) l). intros [q1 s1 ths g rl] IH.
  assert (forall c', cstep (mkBlockingConfig q1 s1 ths g rl) c' ->
    bsteps cstep (length [m] + length l) (blocking_init q N) c') as Hnext by (intros; by eapply bsteps_r).
  assert (bsteps cstep (length [m] + length l) (blocking_init q N) (mkBlockingConfig q1 s1 ths g rl)) as Hsame
    by by apply bsteps_S.
  destruct m as [i p|i ch]; cbn -[Nat.add length].
  - destruct (ths !! i) as [[p'|]|] eqn:Hi; [done| |done]. apply Hnext. by apply b_begin.
  - destruct (ths !! i) as [[p|]|] eqn:Hi; [|done..].
    destruct (blocking_step sb platform m_maxSpins ch p _) as [[x|p'] [q' [s'|]]|[q' [s'|]]|f] eqn:E;
      try done; apply Hnext; [by eapply b_return|by eapply b_continue|by eapply b_throw].
Qed.
End schedules.

(** * Example: a list as the inner queue *)

#[local] Instance list_queue : InnerQueue (list Z) := {
  iq_inv := fun _ _ => True;
  iq_count := zlength;
  iq_nonneg := fun _ q _ => zlength_nonneg q;
  iq_fewer := fun _ _ H => H
}.

Definition list_enqueue (x : Z) : M (list Z) bool := fun q => Ok true (q ++ [x]).
Definition list_dequeue : M (list Z) (option Z) := fun q => Ok (head q) (tail q).
Definition list_dequeue_bulk (max : Z) : M (list Z) (list Z) :=
  fun q => Ok (take (Z.to_nat max) q) (drop (Z.to_nat max) q).

Lemma list_enqueues x : enqueues 1 (list_enqueue x).
Proof. intros k q _. cbn. by rewrite zlength_app. Qed.
Lemma list_dequeues : dequeues list_dequeue.
Proof. intros k [|x q] _; cbn; unfold zlength; cbn; split_and!; try done; lia. Qed.
Lemma list_dequeues_bulk : dequeues_bulk 64 true list_dequeue_bulk.
Proof. intros k max q Hmax _. cbn. unfold zlength. rewrite length_take, length_drop. split_and!; [done|lia|lia]. Qed.

Definition list_call (p : blocking_pc (W := list Z) (R := Z)) : Prop :=
  (exists x, p = Enqueue (list_enqueue x)) \/
  p = Wait wait_forever (ThenDequeue list_dequeue true) \/
  p = BulkStart waitMany_forever 2 list_dequeue_bulk.

Lemma list_call_ok p : list_call p -> blocking_call 64 true p.
Proof.
  intros [[x ->]|[->| ->]]; split; cbn; try done.
  - apply list_enqueues.
  - split_and!; [done|apply list_dequeues|done].
  - split_and!; [lia|lia|apply list_dequeues_bulk|done|done].
Qed.

#[local] Abbreviation go i := (Continue i (mkChoice false OsSuccess)).
#[local] Abbreviation at_schedule l := (blocking_schedule 64 Posix 1 l (blocking_init [] 2)).

Definition list_wait : blocking_pc (W := list Z) (R := Z) := Wait wait_forever (ThenDequeue list_dequeue true).
(** Thread 0 sleeps in [wait_dequeue]; thread 1 enqueues and signals, so that
    thread 0 can be woken. *)
Definition asleep : list (blocking_move (W := list Z) (R := Z)) := Begin 0 list_wait :: replicate 6 (go 0%nat).
Definition signalled : list (blocking_move (W := list Z) (R := Z)) :=
  asleep ++ Begin 1 (Enqueue (list_enqueue 7)) :: replicate 3 (go 1%nat).
(** Thread 0 has its permit. *)
Definition woken : list (blocking_move (W := list Z) (R := Z)) := signalled ++ [go 0%nat].
(** Thread 0 has slept in [wait_dequeue_bulk] of two elements and got one. *)
Definition bulk_woken : list (blocking_move (W := list Z) (R := Z)) :=
  (Begin 0 (BulkStart waitMany_forever 2 list_dequeue_bulk) :: replicate 7 (go 0%nat)) ++
  (Begin 1 (Enqueue (list_enqueue 7)) :: replicate 3 (go 1%nat)) ++ replicate 3 (go 0%nat).
(** Nobody waits, two elements. *)
Definition filled : list (blocking_move (W := list Z) (R := Z)) :=
  (Begin 1 (Enqueue (list_enqueue 7)) :: replicate 2 (go 1%nat)) ++
  (Begin 1 (Enqueue (list_enqueue 8)) :: replicate 2 (go 1%nat)).

Lemma schedules_begin : Forall (begins list_call) filled /\ Forall (begins list_call) signalled /\ Forall (begins list_call) woken /\ Forall (begins list_call) bulk_woken.
Proof.
  unfold filled, signalled, woken, bulk_woken, signalled, asleep, replicate. cbn [app].
  split_and!; repeat apply Forall_cons_2; try apply Forall_nil_2; cbn; try done; unfold list_call; eauto.
Qed.

Lemma blocking_never_faults_witness :
  let p := Wait (AssertResult 1) (ThenDequeueBulk list_dequeue_bulk) in
  (~ exists f, blocking_step 64 Posix 1 (mkChoice false OsSuccess) p (whole (at_schedule bulk_woken)) = Fault f) /\
  (forall sb', 64 <= sb' -> blocking_step sb' Posix 1 (mkChoice false OsSuccess) p (whole (at_schedule bulk_woken)) =
     blocking_step 64 Posix 1 (mkChoice false OsSuccess) p (whole (at_schedule bulk_woken))) /\
  - 2 <= m_count (b_sema (at_schedule bulk_woken)) <= 1.
Proof.
  apply (blocking_never_faults 64 Posix 1 ltac:(lia) true list_call [] 2 (length bulk_woken)
    (at_schedule bulk_woken) ltac:(lia) list_call_ok I eq_refl
    (blocking_schedule_reachable _ _ _ _ _ _ _ (proj2 (proj2 (proj2 schedules_begin)))) 0%nat);
    [exact counting_os_reliable|reflexivity|reflexivity].
Defined.

Lemma blocking_permit_has_element_witness : 0 < zlength (b_inner (at_schedule woken)).
Proof.
  apply (blocking_permit_has_element 64 Posix 1 ltac:(lia) true list_call [] 2 (length woken)
    (at_schedule woken) ltac:(lia) list_call_ok I eq_refl
    (blocking_schedule_reachable _ _ _ _ _ _ _ (proj1 (proj2 (proj2 schedules_begin)))) eq_refl 0%nat (Dequeue list_dequeue));
    reflexivity.
Defined.

Lemma blocking_size_exact_witness :
  blocking_size_approx 64 (whole (at_schedule filled)) = Ok 2 (whole (at_schedule filled)).
Proof.
  apply (blocking_size_exact 64 Posix 1 ltac:(lia) true list_call [] 2 (length filled)
    (at_schedule filled) ltac:(lia) list_call_ok I eq_refl
    (blocking_schedule_reachable _ _ _ _ _ _ _ (proj1 schedules_begin)) eq_refl); [reflexivity|].
  intros [|[|i]] o Ho; vm_compute in Ho; congruence.
Defined.

Lemma blocking_no_lost_wakeup_witness :
  exists ch s', blocking_step 64 Posix 1 ch (Wait (OsWait (WaitOne (-1))) (ThenDequeue list_dequeue true))
      (whole (at_schedule signalled))
    = Ok (inr (Dequeue list_dequeue)) (mkBlocking [7] (Some s')).
Proof.
  apply (blocking_no_lost_wakeup 64 Posix 1 ltac:(lia) true list_call [] 2 (length signalled)
    (at_schedule signalled) ltac:(lia) list_call_ok I eq_refl
    (blocking_schedule_reachable _ _ _ _ _ _ _ (proj1 (proj2 schedules_begin))) eq_refl 0%nat (-1)
    (ThenDequeue list_dequeue true)); [reflexivity|reflexivity| |reflexivity].
  intros [|[|i]] p Hp; vm_compute in Hp; [|congruence|congruence].
  injection Hp as <-. by eexists _, _.
Defined.
