(* ===== verification/BlockingQueue.v ===== *)
(** The public functions of [BlockingConcurrentQueue]: the calls of Blocking.v
    around the operations of [ConcurrentQueue], and construction, destruction,
    move and swap. *)

From S2P Require Import Prelude MachineInt Traits FreeList Block BlockPool ProducerBase ExplicitProducer ImplicitProducer ThreadExit ImplicitHash SubQueues ConcurrentQueue Semaphore Blocking.

Section queue.
Context {U T R : Type} (tr : Traits) (ops : ElementOps U T R).
Context (malloc_ok : nat -> bool) (indeterminate : Indeterminate).
Context (platform : ThreadIdPlatform) (thread_local_supported : bool) (hash_bytes : Z).
Context (sema_platform : Platform) {os : OsSemaphore}.

(** The inner queue with the consumer tokens of its clients. *)
#[local] Abbreviation Q := (ConcurrentQueue T).
#[local] Abbreviation W := (Q * gmap loc ConsumerToken)%type.
#[local] Abbreviation BQ := (BlockingConcurrentQueue (W := W)).
#[local] Abbreviation call := (blocking_pc (W := W) (R := R)).

Definition inner {A} (f : M Q A) : M W A := zoom fst (fun q w => (q, snd w)) f.
Definition with_token {A} (t : loc) (f : M (Q * ConsumerToken) A) : M W A :=
  let! o := gets (fun w : W => snd w !! t) in
  let! k := deref NullDeref o in
  zoom (fun w : W => (fst w, k)) (fun qk w => (fst qk, <[t := snd qk]> (snd w))) f.

(** ** Enqueue *)

Definition blocking_enqueue (tid : Z) (item : U) : call :=
  Enqueue (inner (queue_enqueue tr ops malloc_ok indeterminate platform thread_local_supported hash_bytes tid item)).
Definition blocking_enqueue_token (t : loc) (item : U) : call :=
  Enqueue (inner (queue_enqueue_token tr ops malloc_ok indeterminate t item)).
Definition blocking_enqueue_bulk (tid : Z) (items : list U) (count : Z) : call :=
  EnqueueBulk (inner (queue_enqueue_bulk tr ops malloc_ok indeterminate platform thread_local_supported hash_bytes tid items count)) count.
Definition blocking_enqueue_bulk_token (t : loc) (items : list U) (count : Z) : call :=
  EnqueueBulk (inner (queue_enqueue_bulk_token tr ops malloc_ok indeterminate t items count)) count.
Definition blocking_try_enqueue (tid : Z) (item : U) : call :=
  Enqueue (inner (queue_try_enqueue tr ops malloc_ok indeterminate platform thread_local_supported hash_bytes tid item)).
Definition blocking_try_enqueue_token (t : loc) (item : U) : call :=
  Enqueue (inner (queue_try_enqueue_token tr ops malloc_ok indeterminate t item)).
Definition blocking_try_enqueue_bulk (tid : Z) (items : list U) (count : Z) : call :=
  EnqueueBulk (inner (queue_try_enqueue_bulk tr ops malloc_ok indeterminate platform thread_local_supported hash_bytes tid items count)) count.
Definition blocking_try_enqueue_bulk_token (t : loc) (items : list U) (count : Z) : call :=
  EnqueueBulk (inner (queue_try_enqueue_bulk_token tr ops malloc_ok indeterminate t items count)) count.

(** ** Dequeue, with and without a consumer token *)

Definition from_queue : M W (option R) := inner (queue_try_dequeue tr ops).
Definition from_queue_token (t : loc) : M W (option R) := with_token t (queue_try_dequeue_token tr ops).
Definition bulk_from_queue (max : Z) : M W (list R) := inner (queue_try_dequeue_bulk tr ops max).
Definition bulk_from_queue_token (t : loc) (max : Z) : M W (list R) :=
  with_token t (queue_try_dequeue_bulk_token tr ops max).

Definition blocking_try_dequeue : call := Wait tryWait (ThenDequeue from_queue false).
Definition blocking_try_dequeue_token (t : loc) : call :=
  Wait tryWait (ThenDequeue (from_queue_token t) false).
Definition wait_dequeue : call := Wait wait_forever (ThenDequeue from_queue true).
Definition wait_dequeue_token (t : loc) : call :=
  Wait wait_forever (ThenDequeue (from_queue_token t) true).
Definition wait_dequeue_timed (timeout_usecs : Z) : call :=
  Wait (wait timeout_usecs) (ThenDequeue from_queue false).
Definition wait_dequeue_timed_token (t : loc) (timeout_usecs : Z) : call :=
  Wait (wait timeout_usecs) (ThenDequeue (from_queue_token t) false).

Definition blocking_try_dequeue_bulk (max : Z) : call := BulkStart tryWaitMany max bulk_from_queue.
Definition blocking_try_dequeue_bulk_token (t : loc) (max : Z) : call :=
  BulkStart tryWaitMany max (bulk_from_queue_token t).
Definition wait_dequeue_bulk (max : Z) : call :=
  BulkStart waitMany_forever max bulk_from_queue.
Definition wait_dequeue_bulk_token (t : loc) (max : Z) : call :=
  BulkStart waitMany_forever max (bulk_from_queue_token t).
Definition wait_dequeue_bulk_timed (max timeout_usecs : Z) : call :=
  BulkStart (fun max => waitMany max timeout_usecs) max bulk_from_queue.
Definition wait_dequeue_bulk_timed_token (t : loc) (max timeout_usecs : Z) : call :=
  BulkStart (fun max => waitMany max timeout_usecs) max (bulk_from_queue_token t).

(** The overloads for [std::chrono::duration]: [count] periods of [num / den]
    seconds; [duration_cast] truncates towards zero. *)
Definition to_microseconds (num den count : Z) : Z := Z.quot (count * num * 1000000) den.
Definition wait_dequeue_timed_duration (num den count : Z) : call :=
  wait_dequeue_timed (to_microseconds num den count).
Definition wait_dequeue_timed_duration_token (t : loc) (num den count : Z) : call :=
  wait_dequeue_timed_token t (to_microseconds num den count).
Definition wait_dequeue_bulk_timed_duration (max num den count : Z) : call :=
  wait_dequeue_bulk_timed max (to_microseconds num den count).
Definition wait_dequeue_bulk_timed_duration_token (t : loc) (max num den count : Z) : call :=
  wait_dequeue_bulk_timed_token t max (to_microseconds num den count).

Definition BlockingConcurrentQueue_size_approx : M BQ Z := blocking_size_approx (size_bits tr).

(** An uninterrupted call. *)
Definition run_call (choices : list choice) (p : call) : M BQ (blocking_result (R := R)) :=
  blocking_run (size_bits tr) sema_platform (MAX_SEMA_SPINS tr) choices p.

(** ** Construction and destruction *)

Definition set_sema (o : option LightweightSemaphore) (b : BQ) : BQ := mkBlocking (inner_queue b) o.

(** [create<LightweightSemaphore, ssize_t, int>(0, Traits::MAX_SEMA_SPINS)] *)
Definition create_semaphore : M BQ unit :=
  let! p := in_queue (inner (in_mem (malloc malloc_ok 1))) in
  if p =? nullptr then modify (set_sema None)
  else
    let! s := zoom (fun _ => tt) (fun _ b => b) (LightweightSemaphore_ctor (MAX_SEMA_SPINS tr) 0) in
    modify (set_sema (Some s)).

(** The body of the constructors; an exception destroys the inner queue. *)
Definition check_semaphore : M BQ unit :=
  let! o := gets sema in
  match o with
  | Some _ => ret tt
  | None => in_queue (inner (ConcurrentQueue_dtor tr thread_local_supported));; throw
  end.

Definition BlockingConcurrentQueue_ctor (capacity : Z) : M BQ unit :=
  in_queue (inner (ConcurrentQueue_ctor tr malloc_ok indeterminate platform capacity));;
  create_semaphore;;
  check_semaphore.
Definition BlockingConcurrentQueue_ctor3 (minCapacity maxExplicitProducers maxImplicitProducers : Z)
    : M BQ unit :=
  in_queue (inner (ConcurrentQueue_ctor3 tr malloc_ok indeterminate platform
    minCapacity maxExplicitProducers maxImplicitProducers));;
  create_semaphore;;
  check_semaphore.

(** The implicit destructor: the members in reverse order. *)
Definition BlockingConcurrentQueue_dtor : M BQ unit :=
  modify (set_sema None);;
  in_queue (inner (ConcurrentQueue_dtor tr thread_local_supported)).

(** ** Move and swap, on two queues *)

Definition on_inner {A} (f : M (Q * Q) A) : M (BQ * BQ) A :=
  zoom (fun ab : BQ * BQ => (fst (inner_queue (fst ab)), fst (inner_queue (snd ab))))
    (fun qs ab => let (a, b) := ab in
       (mkBlocking (fst qs, snd (inner_queue a)) (sema a),
        mkBlocking (snd qs, snd (inner_queue b)) (sema b))) f.
Definition swap_semas : M (BQ * BQ) unit :=
  modify (fun ab : BQ * BQ => let (a, b) := ab in (set_sema (sema b) a, set_sema (sema a) b)).

Definition BlockingConcurrentQueue_move_ctor : M (BQ * BQ) unit :=
  on_inner (ConcurrentQueue_move_ctor tr platform);;
  modify (fun ab : BQ * BQ => let (a, b) := ab in (set_sema (sema b) a, set_sema None b)).
Definition blocking_swap_internal : M (BQ * BQ) unit :=
  let! same := gets (fun ab : BQ * BQ =>
    q_address (fst (inner_queue (fst ab))) =? q_address (fst (inner_queue (snd ab)))) in
  if same : bool then ret tt
  else
    on_inner (swap_internal tr);;
    swap_semas.
End queue.

(** * An exception in a bulk dequeue loses permits *)

(** Elements are integers; moving 777 out of the queue throws. *)
Definition throwing_move : ElementOps Z Z Z :=
  mkElementOps Z Z Z Some true (fun v => if v =? 777 then None else Some v) false false.

#[local] Abbreviation example_queue :=
  (BlockingConcurrentQueue (W := ConcurrentQueue Z * gmap loc ConsumerToken)).
Definition example_run (p : blocking_pc (R := Z)) : M example_queue (blocking_result (R := Z)) :=
  run_call small_traits Posix (replicate 60 (mkChoice false OsSuccess)) p.
Definition example_enqueue (tid v : Z) : M example_queue (blocking_result (R := Z)) :=
  example_run (blocking_enqueue small_traits throwing_move (fun _ => true) (fun _ _ => false)
    ThreadLocalAddress true 8 tid v).
Definition value {S A} (o : outcome S A) : outcome unit A :=
  match o with Ok a _ => Ok a tt | Throw _ => Throw tt | Fault f => Fault f end.

(** C40: Two threads have enqueued one element each; [try_dequeue_bulk] of two
    elements takes two permits, and moving the first element throws.  The inner
    queue still has an element, but [size_approx] is 0 and [try_dequeue] does
    not find it. *)
Theorem throwing_bulk_dequeue_strands_elements :
  value ((BlockingConcurrentQueue_ctor small_traits (fun _ => true) (fun _ _ => false) ThreadLocalAddress true 10;;
    example_enqueue 16 1;; example_enqueue 32 777;;
    try_catch (example_run (blocking_try_dequeue_bulk small_traits throwing_move 2);; ret tt) (ret tt);;
    let! approx := BlockingConcurrentQueue_size_approx small_traits in
    let! count := in_queue (inner (queue_size_approx small_traits
                    (SubQueues0 := queue_sub_queues small_traits throwing_move))) in
    let! r := example_run (blocking_try_dequeue small_traits throwing_move) in
    ret (approx, count, r))
    (mkBlocking (raw_queue 1000 (-1000), ∅) None))
  = Ok (0, 1, WasDequeued None) tt.
Proof. vm_compute. reflexivity. Qed.
