(* ===== verification/BlockingInner.v ===== *)
(** The inner queue of a [BlockingConcurrentQueue] is a [ConcurrentQueue]: it
    keeps the contract of BlockingProofs.v for all the calls that the public
    functions of BlockingQueue.v make, as long as these calls are not
    interrupted; so what is proved there holds of the real queue, from its
    constructor on. *)

From S2P Require Import Prelude MachineInt Traits FreeList Block BlockPool ProducerBase ExplicitProducer Contents Fifo ExplicitEnqueueBulk ExplicitQueue ImplicitProducer ThreadExit ImplicitHash ImplicitHashProofs SubQueues SubQueuesProofs ConcurrentQueue QueueInvariant QueueTokens QueueThreads Client ClientProofs ClientQueue QueueDestructor Semaphore SemaphoreProofs Blocking BlockingProofs BlockingQueue.

Section inner.
Context {U T R : Type} (tr : Traits) `{!TraitsOk tr} (ops : ElementOps U T R).
Context (malloc_ok : nat -> bool) (indeterminate : Indeterminate).
Context (platform : ThreadIdPlatform) (tls : bool) (hash_bytes : Z).
#[local] Abbreviation sb := (size_bits tr).
#[local] Abbreviation B := (BLOCK_SIZE tr).
#[local] Abbreviation Q := (ConcurrentQueue T).
#[local] Abbreviation W := (Q * gmap loc ConsumerToken)%type.
#[local] Abbreviation view_of := (view_of tr ops).
#[local] Abbreviation step := (step tr ops malloc_ok).
#[local] Abbreviation client := (client tr ops malloc_ok indeterminate platform tls hash_bytes).
#[local] Abbreviation call := (blocking_pc (W := W) (R := R)).
Implicit Types (q : W) (v : view R) (x : client_call U) (a : client_answer R) (ts cts live : gset loc) (m : gmap Z loc).

(** ** What a call does to the number of elements *)

Lemma step_balance v x a v' :
  NoDup (v_order v) -> step v x a v' ->
  zlength (all_content v') = zlength (all_content v) + zlength (put_in ops x a) - zlength (taken_out a).
Proof using Type.
  intros Hnd Hstep. destruct (step_conserves tr ops malloc_ok v x a v' Hnd Hstep) as [_ Hp%Permutation_length].
  rewrite !length_app in Hp. unfold zlength. lia.
Qed.

Lemma step_put_in v x v' (items : list U) :
  step v x (Accepted true) v' ->
  (exists allocMode tid, enqueues_from x = Some (allocMode, tid, items)) \/
  (exists allocMode t, enqueues_with x = Some (allocMode, t, items)) ->
  zlength (put_in ops x (Accepted true)) = zlength items.
Proof using Type.
  intros Hstep Hx.
  enough (exists rs, Forall2 (fun u r => passed ops u = Some r) items rs) as [rs Hrs].
  { assert (put_in ops x (Accepted true) = rs) as ->.
    { rewrite <- (passed_all _ _ _ Hrs). destruct Hx as [(al & tid & Hx)|(al & t & Hx)];
        eapply (enqueues_put_in ops x al); [left; exact Hx|right; exact Hx]. }
    unfold zlength. by rewrite (Forall2_length _ _ _ Hrs). }
  inversion Hstep; subst; destruct Hx as [(? & ? & Hx)|(? & ? & Hx)]; destruct x; simplify_eq/=; eauto.
Qed.

Lemma nothing_in_content v : nothing_in v -> all_content v = [].
Proof using Type.
  intros Hv. unfold all_content, content_of. apply concat_nil_Forall, Forall_forall.
  intros c (p & -> & Hp)%list_elem_of_fmap. by apply Hv.
Qed.

Lemma content_of_rotated v before after :
  v_order v = before ++ after -> zlength (content_of v (after ++ before)) = zlength (all_content v).
Proof using Type.
  intros E. unfold all_content, content_of. rewrite E, !fmap_app, !concat_app. unfold zlength. rewrite !length_app. lia.
Qed.

(** Only the creation and destruction of tokens change them. *)
Lemma step_tokens v x a v' :
  step v x a v' -> match x with NewToken _ | DropToken _ => False | _ => True end -> v_tokens v' = v_tokens v.
Proof using Type.
  intros Hstep. destruct Hstep; try done; intros _;
    try match goal with H : Client.acquires _ _ _ _ _ |- _ => destruct H end; done.
Qed.

(** ** The calls of the threads *)

(** The tokens [ts] have producers; [limit] bounds what is enqueued in bulk. *)
Context (home : loc * loc) (ts cts : gset loc) (limit : Z).

(** The calls of the public functions, well-formed as in Client.v (so
    [try_enqueue_bulk] with a token, whose refusal can damage the queue, is not
    among them); a [wait_dequeue_bulk] asks for at least one element. *)
Inductive thread_call : call -> Prop :=
  | call_enqueue tid u : valid_id platform tid ->
      thread_call (blocking_enqueue tr ops malloc_ok indeterminate platform tls hash_bytes tid u)
  | call_try_enqueue tid u : valid_id platform tid ->
      thread_call (blocking_try_enqueue tr ops malloc_ok indeterminate platform tls hash_bytes tid u)
  | call_enqueue_token t u : t ∈ ts -> make ops u <> None ->
      thread_call (blocking_enqueue_token tr ops malloc_ok indeterminate t u)
  | call_try_enqueue_token t u : t ∈ ts -> make ops u <> None ->
      thread_call (blocking_try_enqueue_token tr ops malloc_ok indeterminate t u)
  | call_enqueue_bulk tid items : valid_id platform tid -> zlength items <= limit ->
      thread_call (blocking_enqueue_bulk tr ops malloc_ok indeterminate platform tls hash_bytes tid items (zlength items))
  | call_try_enqueue_bulk tid items : valid_id platform tid -> zlength items <= limit ->
      thread_call (blocking_try_enqueue_bulk tr ops malloc_ok indeterminate platform tls hash_bytes tid items (zlength items))
  | call_enqueue_bulk_token t items :
      t ∈ ts -> constructible ops items -> unlimited tr malloc_ok CanAlloc -> zlength items <= limit ->
      thread_call (blocking_enqueue_bulk_token tr ops malloc_ok indeterminate t items (zlength items))
  | call_try_dequeue : thread_call (blocking_try_dequeue tr ops)
  | call_try_dequeue_token ct : ct ∈ cts -> thread_call (blocking_try_dequeue_token tr ops ct)
  | call_wait_dequeue : thread_call (wait_dequeue tr ops)
  | call_wait_dequeue_token ct : ct ∈ cts -> thread_call (wait_dequeue_token tr ops ct)
  | call_wait_dequeue_timed usecs : thread_call (wait_dequeue_timed tr ops usecs)
  | call_wait_dequeue_timed_token ct usecs : ct ∈ cts -> thread_call (wait_dequeue_timed_token tr ops ct usecs)
  | call_try_dequeue_bulk max : 0 <= max < 2 ^ (sb - 1) -> thread_call (blocking_try_dequeue_bulk tr ops max)
  | call_try_dequeue_bulk_token ct max : ct ∈ cts -> 0 <= max < 2 ^ (sb - 1) ->
      thread_call (blocking_try_dequeue_bulk_token tr ops ct max)
  | call_wait_dequeue_bulk max : 0 < max < 2 ^ (sb - 1) -> thread_call (wait_dequeue_bulk tr ops max)
  | call_wait_dequeue_bulk_token ct max : ct ∈ cts -> 0 < max < 2 ^ (sb - 1) ->
      thread_call (wait_dequeue_bulk_token tr ops ct max)
  | call_wait_dequeue_bulk_timed max usecs : 0 <= max < 2 ^ (sb - 1) ->
      thread_call (wait_dequeue_bulk_timed tr ops max usecs)
  | call_wait_dequeue_bulk_timed_token ct max usecs : ct ∈ cts -> 0 <= max < 2 ^ (sb - 1) ->
      thread_call (wait_dequeue_bulk_timed_token tr ops ct max usecs).

(** The blocks that a call may add. *)
Definition call_cost : Z := limit / B + 1.

(** ** The contract *)

Section contract.
Context (Hlimit : 0 <= limit < 2 ^ (sb - 1)).

(** [n] more calls find the queue as clients may. *)
Definition inner_ok (n : nat) q : Prop :=
  exists m nb k live, client_ok tr malloc_ok platform tls hash_bytes home m nb k live cts q /\
    0 <= nb /\ (nb + Z.of_nat n * call_cost) * B < 2 ^ (sb - 1) /\
    k + Z.of_nat n < 2 ^ 32 /\ k + Z.of_nat n < 2 ^ (sb - 2) /\
    forall t, t ∈ ts -> exists p, tokens (fst q) !! t = Some p /\ p <> nullptr.

Definition inner_count q : Z := zlength (all_elements_of tr ops (fst q)).

Lemma call_cost_pos : 1 <= call_cost.
Proof using TraitsOk0 Hlimit. pose proof (block_size_gt_1 tr). unfold call_cost. pose proof (Z.div_pos limit B). lia. Qed.

Lemma bulk_cost n : n <= limit -> n / B + 1 <= call_cost.
Proof using TraitsOk0. intros Hn. pose proof (block_size_gt_1 tr). unfold call_cost. pose proof (Z.div_le_mono n limit B). lia. Qed.

Lemma inner_count_view m n q : queue_good tr malloc_ok n (fst q) -> zlength (all_content (view_of m (fst q))) = inner_count q.
Proof using Type.
  intros Hq. unfold inner_count, all_elements_of, all_content, content_of. do 2 f_equal.
  apply list_fmap_ext. intros i p _. by eapply content_view.
Qed.

Lemma inner_fewer n q : inner_ok (S n) q -> inner_ok n q.
Proof using TraitsOk0 Hlimit.
  intros (m & nb & k & live & Hok & Hn & Hs & Hk & Hk' & Ht). pose proof call_cost_pos. pose proof (block_size_gt_1 tr).
  exists m, nb, k, live. split_and!; try done; [nia|lia|lia].
Qed.

#[local] Instance inner_queue_contract : InnerQueue W := {
  iq_inv := inner_ok;
  iq_count := inner_count;
  iq_nonneg := fun _ q _ => zlength_nonneg _;
  iq_fewer := inner_fewer
}.

Context (Hassign : forall e : T, assign ops e <> None) (j : nat) (Hsb : sb = 8 * 2 ^ Z.of_nat j).
Context (Hnoexcept : noexcept_ctor ops = true -> forall u, make ops u <> None).
Context (Htrivial : is_trivially_destructible ops = true -> forall u, make ops u <> None).

(** A call as the clients of Client.v make it. *)
Lemma inner_call x n q :
  inner_ok (S n) q -> cost tr x <= call_cost ->
  (forall live, ts ⊆ live -> call_ok tr ops malloc_ok platform tls live cts x) ->
  match x with NewToken _ | DropToken _ | NewConsumer _ => False | _ => True end ->
  wp (client x) (fun a q' => inner_ok n q' /\
    inner_count q' = inner_count q + zlength (put_in ops x a) - zlength (taken_out a) /\
    exists v v', step v x a v' /\ zlength (all_content v) = inner_count q) nothrow q.
Proof using All.
  intros (m & nb & k & live & Hok & Hn & Hs & Hk & Hk' & Ht) Hcost Hx Hkind. destruct q as [q cs].
  pose proof (cost_pos tr x). pose proof call_cost_pos. pose proof (block_size_gt_1 tr).
  assert (ts ⊆ live) as Hlive.
  { intros t (p & Hp & _)%Ht. rewrite <- (co_live _ _ _ _ _ _ _ _ _ _ _ _ Hok). by apply elem_of_dom. }
  eapply wp_mono; [eapply (client_answered tr ops malloc_ok indeterminate platform tls hash_bytes home Hassign j Hsb Hnoexcept Htrivial
    x m nb k live cts q cs); [done|unfold small; nia|lia|lia|exact Hok|by apply Hx]| |done].
  cbn beta. intros a q' (m' & Hstep & Hok').
  assert (live_after live x = live) as El by (by destruct x). assert (consumers_after cts x = cts) as Ec by (by destruct x).
  rewrite El, Ec in Hok'.
  assert (v_tokens (view_of m' (fst q')) = v_tokens (view_of m q)) as Et by (eapply step_tokens; [exact Hstep|by destruct x]).
  cbn in Et. split; [|split].
  - exists m', (nb + cost tr x), (k + 1), live. split_and!; try done; [lia|nia|lia|lia|]. by rewrite Et.
  - rewrite <- (inner_count_view m nb (q, cs)) by apply Hok. rewrite <- (inner_count_view m' _ q') by apply Hok'.
    apply step_balance; [|done]. destruct Hok as [(fl & order & own & cont & Hq) _ _ _ _ _ _ _].
    cbn [fst] in *. cbn. rewrite (order_of_spec _ _ _ _ _ _ _ _ Hq). apply Hq.
  - eexists _, _. split; [exact Hstep|]. apply (inner_count_view m nb (q, cs)), Hok.
Qed.

(** ** The calls of the blocking queue are those calls *)

Lemma inner_result {A} (f : M Q A) (g : A -> client_answer R) P E q :
  wp (on_queue (let! r := f in ret (g r))) P nothrow q -> wp (inner f) (fun r q' => P (g r) q') E q.
Proof using Type. unfold wp, on_queue, inner, zoom, bind, ret. by destruct (f (fst q)). Qed.

Lemma inner_accepted (f : M Q bool) (P : client_answer R -> W -> Prop) q :
  wp (on_queue (accepted_or_threw f)) P nothrow q ->
  wp (inner f) (fun ok q' => P (Accepted ok) q') (fun q' => P Threw q') q.
Proof using Type. unfold wp, on_queue, inner, accepted_or_threw, try_catch, zoom, bind, ret. by destruct (f (fst q)). Qed.

Lemma inner_valid t p (f : M Q bool) (P : client_answer R -> W -> Prop) E q :
  tokens (fst q) !! t = Some p -> p <> nullptr ->
  wp (if_valid t (let! ok := f in ret (Accepted ok))) P nothrow q -> wp (inner f) (fun ok q' => P (Accepted ok) q') E q.
Proof using Type.
  intros Ht Hp. unfold wp, if_valid, on_queue, inner, ProducerToken_valid, token_producer, zoom, bind, gets, deref, ret.
  rewrite Ht. unfold ret. rewrite (proj2 (Z.eqb_neq _ _) Hp). cbn [negb]. by destruct (f (fst q)).
Qed.

Lemma inner_consumer {A} ct (f : M (Q * ConsumerToken) A) (g : A -> client_answer R) P E q :
  wp (with_consumer ct (let! r := f in ret (g r))) P nothrow q -> wp (with_token ct f) (fun r q' => P (g r) q') E q.
Proof using Type.
  unfold wp, with_consumer, with_token, zoom, bind, gets, deref, ret. destruct (snd q !! ct); [|done]. unfold ret. by destruct (f _).
Qed.

(** ** The laws *)

#[local] Abbreviation makes f n := (enqueues (InnerQueue0 := inner_queue_contract) n f).

Lemma accepted_count x (items : list U) ok n q :
  (exists allocMode tid, enqueues_from x = Some (allocMode, tid, items)) \/
  (exists allocMode t, enqueues_with x = Some (allocMode, t, items)) ->
  (exists v v', step v x (Accepted ok) v' /\ zlength (all_content v) = n) ->
  inner_count q = n + zlength (put_in ops x (Accepted ok)) - zlength (taken_out (R := R) (Accepted ok)) ->
  inner_count q = n + if ok then zlength items else 0.
Proof using Type.
  intros Hx (v & v' & Hstep & _) ->. destruct ok; cbn [taken_out].
  - rewrite (step_put_in v x v' items Hstep Hx). change (zlength []) with 0. ring.
  - rewrite enqueues_nothing by done. change (zlength []) with 0. ring.
Qed.

Lemma enqueues_as x (items : list U) (f : M W bool) :
  cost tr x <= call_cost ->
  (forall live, ts ⊆ live -> call_ok tr ops malloc_ok platform tls live cts x) ->
  (exists allocMode tid, enqueues_from x = Some (allocMode, tid, items)) \/
  (exists allocMode t, enqueues_with x = Some (allocMode, t, items)) ->
  (forall n q P, inner_ok n q -> wp (client x) P nothrow q ->
    wp f (fun ok q' => P (Accepted ok) q') (fun q' => P Threw q') q) ->
  makes f (zlength items).
Proof using All.
  intros Hcost Hok Hx Hf n q Hq.
  assert (match x with NewToken _ | DropToken _ | NewConsumer _ => False | _ => True end) as Hkind
    by (destruct x; try done; by destruct Hx as [(? & ? & ?)|(? & ? & ?)]).
  pose proof (Hf _ _ _ (inner_fewer _ _ Hq) (inner_call x n q Hq Hcost Hok Hkind)) as H. cbn beta in H.
  eapply wp_mono; [exact H|..]; cbn beta.
  - intros ok q' (Hq' & Hn & Hstep). split; [done|]. by eapply accepted_count.
  - intros q' (Hq' & Hn & _). split; [done|]. rewrite enqueues_nothing in Hn by done. etrans; [exact Hn|]. cbn [iq_count inner_queue_contract taken_out]. change (zlength []) with 0. ring.
Qed.

(** One element at a time. *)
Lemma dequeues_as x (f : M W (option R)) :
  cost tr x <= call_cost ->
  (forall live, ts ⊆ live -> call_ok tr ops malloc_ok platform tls live cts x) ->
  (x = TryDequeue \/ exists ct, x = TryDequeueWith ct) ->
  (forall q P, wp (client x) P nothrow q -> wp f (fun r q' => P (Got r) q') nothrow q) ->
  dequeues (InnerQueue0 := inner_queue_contract) f /\ finds (InnerQueue0 := inner_queue_contract) f.
Proof using All.
  intros Hcost Hok Hx Hf.
  assert (match x with NewToken _ | DropToken _ | NewConsumer _ => False | _ => True end) as Hkind by by destruct Hx as [->|[ct ->]].
  assert (forall n q, inner_ok (S n) q -> _) as H by (intros n q Hq; exact (Hf _ _ (inner_call x n q Hq Hcost Hok Hkind))).
  split; intros n q Hq; [|intros Hpos]; (eapply wp_mono; [exact (H n q Hq)| |done]); cbn beta; intros r q' (Hq' & Hn & v & v' & Hstep & Hv).
  - split; [done|]. etrans; [exact Hn|]. rewrite enqueues_nothing by done. destruct r; cbn [iq_count inner_queue_contract taken_out]; unfold zlength; cbn [length]; lia.
  - destruct r; [done|]. assert (nothing_in v) as Hnone by (by destruct Hx as [->|[ct ->]]; inversion Hstep).
    rewrite (nothing_in_content v Hnone) in Hv. change (0 < inner_count q) in Hpos. rewrite <- Hv in Hpos. done.
Qed.

(** Many elements. *)
Lemma dequeues_bulk_as (x : Z -> client_call U) (f : Z -> M W (list R)) :
  (forall max, cost tr (x max) <= call_cost) ->
  (forall live max, ts ⊆ live -> 0 <= max < 2 ^ sb -> call_ok tr ops malloc_ok platform tls live cts (x max)) ->
  (x = TryDequeueBulk \/ exists ct, x = TryDequeueBulkWith ct) ->
  (forall max q P, wp (client (x max)) P nothrow q -> wp (f max) (fun r q' => P (GotMany r) q') nothrow q) ->
  dequeues_bulk (InnerQueue0 := inner_queue_contract) sb true f /\ finds_bulk (InnerQueue0 := inner_queue_contract) sb f.
Proof using All.
  intros Hcost Hok Hx Hf.
  assert (forall max, match x max with NewToken _ | DropToken _ | NewConsumer _ => False | _ => True end) as Hkind by by destruct Hx as [->|[ct ->]].
  assert (forall n max q, 0 <= max < 2 ^ sb -> inner_ok (S n) q -> _) as H
    by (intros n max q Hmax Hq; refine (Hf max _ _ (inner_call (x max) n q Hq (Hcost max) _ (Hkind max))); auto).
  assert (forall v max l v', step v (x max) (GotMany l) v' -> exists c, l = take (Z.to_nat max) c /\ zlength c = zlength (all_content v)) as Hl
    by (intros v max l v' Hstep; destruct Hx as [->|[ct ->]]; inversion Hstep; subst; eexists; (split; [done|]); [done|by apply content_of_rotated]).
  split; intros n max q Hmax Hq; [|intros Hpos]; (eapply wp_mono; [exact (H n max q ltac:(lia) Hq)| |done]); cbn beta;
    intros l q' (Hq' & Hn & v & v' & Hstep & Hv); destruct (Hl _ _ _ _ Hstep) as (c & -> & Hc).
  - split; [done|]. split; [|etrans; [exact Hn|]; rewrite enqueues_nothing by done; cbn [iq_count inner_queue_contract taken_out]; unfold zlength; cbn [length]; lia].
    unfold zlength. rewrite length_take. lia.
  - rewrite Hv in Hc. change (0 < inner_count q) in Hpos. rewrite <- Hc in Hpos. destruct c; [done|].
    destruct (Z.to_nat max) eqn:E; [lia|done].
Qed.

(** ** All the calls of the threads *)

Lemma from_thread_enqueues x allocMode tid (items : list U) (f : M Q bool) :
  client x = on_queue (accepted_or_threw f) -> enqueues_from x = Some (allocMode, tid, items) ->
  cost tr x <= call_cost -> valid_id platform tid -> makes (inner f) (zlength items).
Proof using All.
  intros Ex Hx Hcost Hid. apply (enqueues_as x items); [done| |by left; eauto|].
  - intros live _. by destruct x; simplify_eq/=.
  - intros n q P _. rewrite Ex. apply inner_accepted.
Qed.

Lemma with_token_enqueues x allocMode t (items : list U) (f : M Q bool) :
  client x = if_valid t (let! ok := f in ret (Accepted ok)) -> enqueues_with x = Some (allocMode, t, items) ->
  cost tr x <= call_cost -> t ∈ ts -> (forall live, ts ⊆ live -> call_ok tr ops malloc_ok platform tls live cts x) ->
  makes (inner f) (zlength items).
Proof using All.
  intros Ex Hx Hcost Ht Hok. apply (enqueues_as x items); [done|done|by right; eauto|].
  intros n q P Hq. rewrite Ex. destruct Hq as (? & ? & ? & ? & _ & _ & _ & _ & _ & Hts).
  destruct (Hts t Ht) as (p & Hp & Hnn). by eapply inner_valid.
Qed.

#[local] Abbreviation good_dequeue f :=
  (dequeues (InnerQueue0 := inner_queue_contract) f /\ finds (InnerQueue0 := inner_queue_contract) f).
#[local] Abbreviation good_bulk f :=
  (dequeues_bulk (InnerQueue0 := inner_queue_contract) sb true f /\ finds_bulk (InnerQueue0 := inner_queue_contract) sb f).

Lemma from_queue_good : good_dequeue (from_queue tr ops).
Proof using All.
  apply (dequeues_as TryDequeue); [by apply call_cost_pos|done|by left|].
  intros q P. apply inner_result.
Qed.
Lemma from_queue_token_good ct : ct ∈ cts -> good_dequeue (from_queue_token tr ops ct).
Proof using All.
  intros Hct. apply (dequeues_as (TryDequeueWith ct)); [by apply call_cost_pos|done|right; by eexists|].
  intros q P. apply inner_consumer.
Qed.
Lemma bulk_from_queue_good : good_bulk (bulk_from_queue tr ops).
Proof using All.
  apply (dequeues_bulk_as TryDequeueBulk); [intros; by apply call_cost_pos|done|by left|].
  intros max q P. apply inner_result.
Qed.
Lemma bulk_from_queue_token_good ct : ct ∈ cts -> good_bulk (bulk_from_queue_token tr ops ct).
Proof using All.
  intros Hct. apply (dequeues_bulk_as (TryDequeueBulkWith ct)); [intros; by apply call_cost_pos|done|right; by eexists|].
  intros max q P. apply inner_consumer.
Qed.

Lemma thread_call_ok p :
  thread_call p ->
  blocking_call (InnerQueue0 := inner_queue_contract) sb true p /\
  takes_with (finds (InnerQueue0 := inner_queue_contract)) (finds_bulk (InnerQueue0 := inner_queue_contract) sb) p.
Proof using All.
  intros Hp. pose proof from_queue_good as [Hd Hf]. pose proof bulk_from_queue_good as [Hb Hfb].
  pose proof (fun ct H => proj1 (from_queue_token_good ct H)) as Hdt. pose proof (fun ct H => proj2 (from_queue_token_good ct H)) as Hft.
  pose proof (fun ct H => proj1 (bulk_from_queue_token_good ct H)) as Hbt. pose proof (fun ct H => proj2 (bulk_from_queue_token_good ct H)) as Hfbt.
  pose proof call_cost_pos as Hcost.
  destruct Hp; (split; [split; [|done]; cbn [blocking_wf wait_wf]|]); try done; cbn; auto; try (by split_and!; auto with lia).
  - by apply (from_thread_enqueues (EnqueueFrom CanAlloc tid u) CanAlloc tid [u]).
  - by apply (from_thread_enqueues (EnqueueFrom CannotAlloc tid u) CannotAlloc tid [u]).
  - apply (with_token_enqueues (EnqueueWith CanAlloc t u) CanAlloc t [u]); try done. intros live Hin. split; [by apply Hin|done].
  - apply (with_token_enqueues (EnqueueWith CannotAlloc t u) CannotAlloc t [u]); try done. intros live Hin. split; [by apply Hin|done].
  - pose proof (zlength_nonneg items). split; [lia|].
    apply (from_thread_enqueues (EnqueueBulkFrom CanAlloc tid items) CanAlloc tid items); try done. by apply bulk_cost.
  - pose proof (zlength_nonneg items). split; [lia|].
    apply (from_thread_enqueues (EnqueueBulkFrom CannotAlloc tid items) CannotAlloc tid items); try done. by apply bulk_cost.
  - pose proof (zlength_nonneg items). split; [lia|].
    apply (with_token_enqueues (EnqueueBulkWith CanAlloc t items) CanAlloc t items); try done; [by apply bulk_cost|].
    intros live Hin. split; [by apply Hin|done].
Qed.
End contract.

(** ** Construction *)

Context (sema_platform : Platform) {os : OsSemaphore} `{!OsSemaphoreLaws os}.
#[local] Abbreviation BQ := (BlockingConcurrentQueue (W := W)).

(** The semaphore is allocated next to the queue. *)
Lemma fresh_queue_malloc (q : Q) (y : loc) i :
  fresh_queue tr malloc_ok platform tls hash_bytes q -> next_address (q_mem q) <= y ->
  fresh_queue tr malloc_ok platform tls hash_bytes (set_q_mem (set_allocator y i (q_mem q)) q).
Proof using TraitsOk0.
  intros (Hq & Et & Ep & Hth) Ha. split; [|split; [done|split; [done|]]].
  - apply (queue_repr_mem tr malloc_ok); [done|]. by exists y, i.
  - intros Hs. eapply threads_ok_kept; [by apply Hth| |done]. split; cbn; try done; by intros p x ->.
Qed.

Lemma constructor_spec capacity this hash :
  (forall e : T, assign ops e <> None) -> hash < 0 -> array_fits tr (blocks_for_capacity tr capacity) -> 0 <= MAX_SEMA_SPINS tr ->
  wp (BlockingConcurrentQueue_ctor tr malloc_ok indeterminate platform tls capacity)
    (fun _ (b : BQ) => exists q : Q, b = mkBlocking (q, ∅) (Some (mkSemaphore 0 os_init)) /\ view_of ∅ q = no_views /\
       client_ok tr malloc_ok platform tls hash_bytes (this, hash) ∅ 0 0 ∅ ∅ (q, ∅))
    (fun b => (exists k, malloc_ok k = false) /\ sema b = None /\ QueueDestructor.released tr tls (fst (inner_queue b)))
    (mkBlocking (raw_queue this hash, ∅) None).
Proof using TraitsOk0.
  intros Hassign Hhash Hfit Hspins. unfold BlockingConcurrentQueue_ctor. wp_step. apply wp_in_queue, wp_zoom. cbn [fst].
  eapply wp_mono; [eapply (construct_spec tr malloc_ok indeterminate platform tls hash_bytes capacity this hash); done| |done].
  cbn beta. intros _ q [Hq Eh]. cbn [fst snd]. unfold create_semaphore. wp_step. wp_step. apply wp_in_queue, wp_zoom, wp_zoom. cbn [fst].
  assert (next_address (q_mem q) <> nullptr) as Ha.
  { destruct Hq as [Hq _]. pose proof (pi_next _ _ _ (qr_pool _ _ _ _ _ _ _ _ Hq)). unfold nullptr. lia. }
  apply wp_malloc; intros Hmal; cbn [fst snd].
  - rewrite (proj2 (Z.eqb_neq _ _) Ha). wp_step. apply wp_zoom. unfold LightweightSemaphore_ctor.
    wp_step. apply wp_cassert; [done|]. wp_step. apply wp_cassert; [lia|]. wp_step. wp_step. unfold check_semaphore. wp_step. wp_step. cbn [sema set_sema]. wp_step.
    set (q1 := set_q_mem _ q).
    assert (fresh_queue tr malloc_ok platform tls hash_bytes q1) as Hq1 by (apply fresh_queue_malloc; [done|lia]).
    exists q1. split; [done|]. by apply (fresh_ok tr ops malloc_ok platform tls hash_bytes Hassign).
  - rewrite Z.eqb_refl. wp_step. unfold check_semaphore. wp_step. wp_step. cbn [sema set_sema]. wp_step. apply wp_in_queue, wp_zoom. cbn [fst].
    set (q1 := set_q_mem _ q).
    assert (fresh_queue tr malloc_ok platform tls hash_bytes q1) as Hq1 by (apply fresh_queue_malloc; [done|lia]).
    destruct (fresh_ok tr ops malloc_ok platform tls hash_bytes Hassign (this, hash) q1 Hq1 Eh) as [_ Hok].
    eapply wp_mono; [by eapply ConcurrentQueue_dtor_spec| |done]. cbn beta. intros _ q' Hrel. cbn. eauto.
Qed.

(** ** The whole queue *)

(** The clients have tokens when the threads start. *)
Definition makes_token x : Prop := match x with NewToken _ | NewConsumer _ => True | _ => False end.

Lemma tokens_put_nothing l rs : Forall makes_token l -> all_put_in ops l rs = [].
Proof using Type.
  intros Hl. revert rs. induction Hl as [|x l Hx _ IH]; intros [|a rs]; [done..|]. cbn [all_put_in]. rewrite IH. by destruct x.
Qed.

(** The queue that the threads find: empty, with the tokens of its clients. *)
Lemma setup_spec (j : nat) capacity this hash l n :
  sb = 8 * 2 ^ Z.of_nat j -> (forall e : T, assign ops e <> None) -> (noexcept_ctor ops = true -> forall u, make ops u <> None) ->
  (is_trivially_destructible ops = true -> forall u, make ops u <> None) -> hash < 0 -> array_fits tr (blocks_for_capacity tr capacity) ->
  0 <= MAX_SEMA_SPINS tr -> 0 <= limit -> home = (this, hash) -> cts = foldl consumers_after ∅ l -> Forall makes_token l ->
  script_ok tr ops malloc_ok platform tls ∅ ∅ l ->
  (total_cost tr l + Z.of_nat n * call_cost) * B < 2 ^ (sb - 1) -> zlength l + Z.of_nat n < 2 ^ 32 ->
  wp (BlockingConcurrentQueue_ctor tr malloc_ok indeterminate platform tls capacity;;
      in_queue (run_clients tr ops malloc_ok indeterminate platform tls hash_bytes l))
    (fun _ (b : BQ) => sema b = Some (mkSemaphore 0 os_init) /\ inner_count (inner_queue b) = 0 /\
       ((forall t, t ∈ ts -> exists p, tokens (fst (inner_queue b)) !! t = Some p /\ p <> nullptr) -> inner_ok n (inner_queue b)))
    (fun b => (exists k, malloc_ok k = false) /\ sema b = None /\ QueueDestructor.released tr tls (fst (inner_queue b)))
    (mkBlocking (raw_queue this hash, ∅) None).
Proof using TraitsOk0.
  intros Hsb Hassign Hnoexcept Htrivial Hhash Hfit Hspins Hlimit Ehome Ects Htok Hl Hsmall Hk.
  assert (1 <= call_cost) as Hcost by (unfold call_cost; pose proof (Z.div_pos limit B); pose proof (block_size_gt_1 tr); lia).
  pose proof (total_cost_length tr l). pose proof (zlength_nonneg l). pose proof (block_size_gt_1 tr). pose proof (traits_size (tr := tr)).
  assert (2 <= call_cost * B) as HcB by nia.
  assert (Z.of_nat n * 2 <= Z.of_nat n * call_cost * B) as Hn2 by (rewrite <- Z.mul_assoc; apply Z.mul_le_mono_nonneg_l; lia).
  assert (total_cost tr l * 2 <= total_cost tr l * B) as Ht2 by nia. rewrite Z.mul_add_distr_r in Hsmall.
  assert (zlength l + Z.of_nat n < 2 ^ (sb - 2)) as Hk2.
  { assert (2 ^ (sb - 1) = 2 * 2 ^ (sb - 2)) as E; [|lia]. rewrite <- Z.pow_succ_r by lia. f_equal. lia. }
  wp_step. eapply wp_mono; [by apply (constructor_spec capacity this hash)| |done]. cbn beta. intros _ ? (q & -> & Ev & Hok).
  apply wp_in_queue. cbn [sema inner_queue].
  eapply wp_mono; [eapply (run_clients_answered tr ops malloc_ok indeterminate platform tls hash_bytes (this, hash) Hassign j Hsb Hnoexcept
    Htrivial l ∅ 0 0); [done|unfold small; lia|lia|lia|exact Hok|exact Hl]| |done].
  cbn beta. intros rs q' (m & Hsteps & Hok'). rewrite Ev in Hsteps. split; [done|]. split.
  - rewrite <- (inner_count_view m (0 + total_cost tr l)) by apply Hok'.
    apply steps_conserve in Hsteps; [|constructor]. rewrite tokens_put_nothing in Hsteps by done. cbn [app] in Hsteps.
    change (all_content no_views) with (@nil R) in Hsteps. apply Permutation_nil, app_eq_nil in Hsteps as [_ ->]. done.
  - intros Hts. exists m, (0 + total_cost tr l), (0 + zlength l), (foldl live_after ∅ l).
    split_and!; [by rewrite Ehome, Ects|lia|lia|lia|lia|exact Hts].
Qed.
End inner.

Section theorem.
Context {U T R : Type} (tr : Traits) `{!TraitsOk tr} (ops : ElementOps U T R).
Context (malloc_ok : nat -> bool) (indeterminate : Indeterminate).
Context (platform : ThreadIdPlatform) (tls : bool) (hash_bytes : Z).
Context (sema_platform : Platform) {os : OsSemaphore} `{!OsSemaphoreLaws os}.
#[local] Abbreviation sb := (size_bits tr).
#[local] Abbreviation B := (BLOCK_SIZE tr).
#[local] Abbreviation W := (ConcurrentQueue T * gmap loc ConsumerToken)%type.
#[local] Abbreviation step := (blocking_step (W := W) (R := R) sb sema_platform (MAX_SEMA_SPINS tr)).
#[local] Abbreviation reachable := (blocking_reachable (W := W) (R := R) sb sema_platform (MAX_SEMA_SPINS tr)).

(** C13: A [BlockingConcurrentQueue] around the real [ConcurrentQueue], from its
    constructor on, for any interleaving of the public enqueue and dequeue
    functions in which the calls of the inner queue are not interrupted:
    no step of any call faults, in the semaphore or in the inner queue; a
    thread that holds a permit gets an element with its next inner call (so
    [while (!inner.try_dequeue(item)) continue;] never has to continue, and a
    bulk dequeue gets further in each round), although no law of the inner
    queue is assumed; and whenever no call is in progress, [size_approx] is the
    number of elements.  If there is no memory for the semaphore, the
    constructor throws and has freed everything.  Assignments of elements do
    not throw; calls are well-formed ([thread_call]); the bounds count the
    steps of the threads. *)
Theorem blocking_queue_correct (j : nat) capacity this hash (l : list (client_call U)) (ts : gset loc) limit N k :
  sb = 8 * 2 ^ Z.of_nat j -> (forall v, assign ops v <> None) -> (noexcept_ctor ops = true -> forall u, make ops u <> None) ->
  (is_trivially_destructible ops = true -> forall u, make ops u <> None) -> hash < 0 -> array_fits tr (blocks_for_capacity tr capacity) ->
  0 <= MAX_SEMA_SPINS tr -> os_reliable sema_platform os -> Z.of_nat N < 2 ^ 31 -> 0 <= limit < 2 ^ (sb - 1) ->
  Forall makes_token l -> script_ok tr ops malloc_ok platform tls ∅ ∅ l ->
  (total_cost tr l + Z.of_nat (S k) * call_cost tr limit) * B < 2 ^ (sb - 1) -> zlength l + Z.of_nat (S k) < 2 ^ 32 ->
  wp (BlockingConcurrentQueue_ctor tr malloc_ok indeterminate platform tls capacity;;
      in_queue (run_clients tr ops malloc_ok indeterminate platform tls hash_bytes l))
    (fun _ b => sema b = Some (mkSemaphore 0 os_init) /\
       forall c, (forall t, t ∈ ts -> exists p, tokens (fst (inner_queue b)) !! t = Some p /\ p <> nullptr) ->
       reachable (thread_call tr ops malloc_ok indeterminate platform tls hash_bytes ts (foldl consumers_after ∅ l) limit)
         (inner_queue b) N k c ->
       (forall i p ch, b_threads c !! i = Some (Some p) -> b_released c + b_releases p < 2 ^ (sb - 1) ->
          (~ exists f, step ch p (whole c) = Fault f) /\
          (0 < permits p -> exists r b', step ch p (whole c) = Ok r b' /\ productive p r)) /\
       ((forall i o, b_threads c !! i = Some o -> o = None) -> b_released c < 2 ^ (sb - 1) ->
          blocking_size_approx sb (whole c) = Ok (zlength (all_elements_of tr ops (fst (b_inner c)))) (whole c)))
    (fun b => (exists i, malloc_ok i = false) /\ sema b = None /\ QueueDestructor.released tr tls (fst (inner_queue b)))
    (mkBlocking (raw_queue this hash, ∅) None).
Proof using All.
  intros Hsb Hassign Hnoexcept Htrivial Hhash Hfit Hspins Hrel HN Hlimit Htok Hl Hsmall Hk.
  eapply wp_mono; [eapply (setup_spec tr ops malloc_ok indeterminate platform tls hash_bytes (this, hash) ts _ limit (os := os) j capacity this hash l (S k));
    try done; lia| |done].
  cbn beta. intros _ b (Hs & H0 & Hok). split; [done|]. intros c Hts Hreach. specialize (Hok Hts).
  pose proof (thread_call_ok tr ops malloc_ok indeterminate platform tls hash_bytes (this, hash) ts (foldl consumers_after ∅ l) limit
    Hlimit Hassign j Hsb Hnoexcept Htrivial) as Hcall.
  pose proof (traits_size (tr := tr)) as Hsb32.
  set (queue := inner_queue_contract tr ops malloc_ok platform tls hash_bytes (this, hash) ts (foldl consumers_after ∅ l) limit Hlimit) in *.
  assert (forall p, thread_call tr ops malloc_ok indeterminate platform tls hash_bytes ts (foldl consumers_after ∅ l) limit p ->
    blocking_call (InnerQueue0 := queue) sb true p) as Hcall' by (intros p Hp; by apply Hcall).
  split; [intros i p ch Hi Hr; split|].
  - intros [f E]. destruct (reached_step sb sema_platform (MAX_SEMA_SPINS tr) Hsb32 true _ (inner_queue b) N k c HN Hcall' Hok H0 Hreach i p ch
      Hrel Hi Hr) as [Hstep _]. unfold wp in Hstep. by rewrite E in Hstep.
  - intros Hperm. apply wp_nothrow_ok.
    eapply (reached_productive sb sema_platform (MAX_SEMA_SPINS tr) Hsb32 true _ (inner_queue b) N k c HN Hcall' Hok H0 Hreach); [|done| |done].
    + destruct p; cbn in Hr, Hperm; lia.
    + eapply (reachable_takes_with sb sema_platform (MAX_SEMA_SPINS tr)); [|exact Hreach|done]. intros p' Hp'. by apply Hcall.
  - intros Hidle Hr. by apply (reached_size sb sema_platform (MAX_SEMA_SPINS tr) Hsb32 true _ (inner_queue b) N k c HN Hcall' Hok H0 Hreach Hr).
Qed.
End theorem.

(** * Example: two threads with tokens *)

#[local] Abbreviation W := (ConcurrentQueue Z * gmap loc ConsumerToken)%type.
#[local] Abbreviation BQ := (BlockingConcurrentQueue (W := W)).

Definition example_tokens : list (client_call Z) := [NewToken 100; NewConsumer 101].
Definition example_setup : outcome BQ (list (client_answer Z)) :=
  (BlockingConcurrentQueue_ctor small_traits (fun _ => true) (fun _ _ => false) ThreadLocalAddress true 10;;
   in_queue (run_clients small_traits copied_integers (fun _ => true) (fun _ _ => false) ThreadLocalAddress true 8 example_tokens))
    (mkBlocking (raw_queue (-1) (-2), ∅) None).
Definition example_blocking : BQ :=
  match example_setup with Ok _ b => b | _ => mkBlocking (raw_queue (-1) (-2), ∅) None end.

#[local] Abbreviation example_call :=
  (thread_call small_traits copied_integers (fun _ => true) (fun _ _ => false) ThreadLocalAddress true 8 {[100]}
    (foldl consumers_after ∅ example_tokens) 3).
#[local] Abbreviation go i := (Continue i (mkChoice false OsSuccess)).

(** Thread 1 enqueues 7 with its token, and thread 0, which waits with its
    token, gets the permit. *)
Definition example_schedule : list (blocking_move (W := W) (R := Z)) :=
  (Begin 1 (blocking_enqueue_token small_traits copied_integers (fun _ => true) (fun _ _ => false) 100 7) :: replicate 2 (go 1%nat)) ++
  (Begin 0 (wait_dequeue_token small_traits copied_integers 101) :: replicate 2 (go 0%nat)).
Definition example_woken : blocking_config (W := W) (R := Z) :=
  blocking_schedule (size_bits small_traits) Posix (MAX_SEMA_SPINS small_traits) example_schedule
    (blocking_init (inner_queue example_blocking) 2).

Lemma example_schedule_begins : Forall (begins example_call) example_schedule.
Proof. repeat apply Forall_cons_2; try apply Forall_nil_2; try done; constructor; first [done | by apply elem_of_singleton | cbn; set_solver]. Qed.

Lemma blocking_queue_correct_witness :
  exists r b', blocking_step (size_bits small_traits) Posix (MAX_SEMA_SPINS small_traits) (mkChoice false OsSuccess)
      (Dequeue (from_queue_token small_traits copied_integers 101)) (whole example_woken) = Ok r b' /\
    productive (Dequeue (from_queue_token small_traits copied_integers 101)) r.
Proof.
  pose proof (blocking_queue_correct small_traits copied_integers (fun _ => true) (fun _ _ => false) ThreadLocalAddress true 8 Posix
    2 10 (-1) (-2) example_tokens {[100]} 3 2 (length example_schedule)
    eq_refl integers_assign ltac:(done) ltac:(done) eq_refl eq_refl ltac:(done) counting_os_reliable ltac:(done) ltac:(done)
    ltac:(by repeat constructor) ltac:(by repeat split) eq_refl eq_refl) as H.
  unfold wp in H. assert (exists rs, example_setup = Ok rs example_blocking) as [rs E] by (eexists; vm_compute; reflexivity).
  unfold example_setup in E. rewrite E in H. destruct H as [_ H]. destruct (H example_woken) as [Hstep _].
  - intros t ->%elem_of_singleton. eexists. split; [vm_compute; reflexivity|done].
  - apply (blocking_schedule_reachable (size_bits small_traits) Posix (MAX_SEMA_SPINS small_traits) example_call), example_schedule_begins.
  - apply (Hstep 0%nat); reflexivity.
Defined.
