(* ===== verification/CApi.v ===== *)
(** The C interface, src/c_api: functions on handles of queues of [void*] with
    the default traits. *)

From S2P Require Import Prelude MachineInt Traits FreeList Block BlockPool ProducerBase ExplicitProducer ImplicitProducer ThreadExit ImplicitHash SubQueues ConcurrentQueue Semaphore Blocking BlockingQueue.

(** Elements are pointers: they are copied without an exception and have no
    destructor. *)
Definition MoodycamelValue : Type := Z.
Definition pointer_ops : ElementOps MoodycamelValue MoodycamelValue MoodycamelValue :=
  mkElementOps Z Z Z Some true Some true true.

Section c_api.
Context (malloc_ok : nat -> bool) (indeterminate : Indeterminate).
Context (platform : ThreadIdPlatform) (thread_local_supported : bool) (hash_bytes : Z).
Context (sema_platform : Platform) {os : OsSemaphore}.
#[local] Abbreviation tr := ConcurrentQueueDefaultTraits.

(** ** ConcurrentQueue

    The handle is the address of the queue; [new] throws when it cannot
    allocate, so the test for a null pointer always fails. *)
#[local] Abbreviation MoodycamelCQType := (ConcurrentQueue MoodycamelValue).

Definition c_bool (b : bool) : Z := if b then 1 else 0.

Definition moodycamel_cq_create : M MoodycamelCQType Z :=
  ConcurrentQueue_ctor tr malloc_ok indeterminate platform (32 * BLOCK_SIZE tr);;
  ret 1.
Definition moodycamel_cq_destroy : M MoodycamelCQType Z :=
  ConcurrentQueue_dtor tr thread_local_supported;; ret 1.
Definition moodycamel_cq_enqueue (tid : Z) (value : MoodycamelValue) : M MoodycamelCQType Z :=
  let! ok := queue_enqueue tr pointer_ops malloc_ok indeterminate platform thread_local_supported
               hash_bytes tid value in
  ret (c_bool ok).
(** The second component is what [*value] becomes. *)
Definition moodycamel_cq_try_dequeue : M MoodycamelCQType (Z * option MoodycamelValue) :=
  let! r := queue_try_dequeue tr pointer_ops in
  ret (c_bool (bool_decide (is_Some r)), r).
Definition moodycamel_cq_size_approx : M MoodycamelCQType Z :=
  queue_size_approx tr (SubQueues0 := queue_sub_queues tr pointer_ops).

(** ** BlockingConcurrentQueue *)

#[local] Abbreviation MoodycamelBCQType :=
  (BlockingConcurrentQueue (W := ConcurrentQueue MoodycamelValue * gmap loc ConsumerToken)).
#[local] Abbreviation run := (run_call tr sema_platform).

Definition moodycamel_bcq_create : M MoodycamelBCQType Z :=
  BlockingConcurrentQueue_ctor tr malloc_ok indeterminate platform thread_local_supported
    (6 * BLOCK_SIZE tr);;
  ret 1.
Definition moodycamel_bcq_destroy : M MoodycamelBCQType Z :=
  BlockingConcurrentQueue_dtor tr thread_local_supported;; ret 1.
Definition moodycamel_bcq_enqueue (choices : list choice) (tid : Z) (value : MoodycamelValue)
    : M MoodycamelBCQType Z :=
  let! r := run choices (blocking_enqueue tr pointer_ops malloc_ok indeterminate platform
                           thread_local_supported hash_bytes tid value) in
  ret (c_bool (match r with WasEnqueued ok => ok | _ => false end)).
Definition moodycamel_bcq_wait_dequeue (choices : list choice)
    : M MoodycamelBCQType (Z * option MoodycamelValue) :=
  let! r := run choices (wait_dequeue tr pointer_ops) in
  ret (1, match r with WasDequeued v => v | _ => None end).
Definition moodycamel_bcq_try_dequeue (choices : list choice)
    : M MoodycamelBCQType (Z * option MoodycamelValue) :=
  let! r := run choices (blocking_try_dequeue tr pointer_ops) in
  let v := match r with WasDequeued v => v | _ => None end in
  ret (c_bool (bool_decide (is_Some v)), v).
End c_api.
