(* ===== verification/MemStats.v ===== *)
(** [MemStats] of ConcurrentQueue, the statistics of [getMemStats()] under
    [MCDBGQ_TRACKMEM]: a walk over the free list, the producers and their block
    indices. *)

From S2P Require Import Prelude MachineInt Traits FreeList Block BlockPool ProducerBase ExplicitProducer ImplicitProducer ThreadExit ImplicitHash SubQueues ConcurrentQueue.

Record MemStats := mkMemStats {
  allocatedBlocks : Z;
  usedBlocks : Z;
  freeBlocks : Z;
  ownedBlocksExplicit : Z;
  ownedBlocksImplicit : Z;
  implicitProducers : Z;
  explicitProducers : Z;
  elementsEnqueued : Z;
  blockClassBytes : Z;
  queueClassBytes : Z;
  implicitBlockIndexBytes : Z;
  explicitBlockIndexBytes : Z
}.

(** The sizes of the classes that the statistics multiply. *)
Record ClassSizes := mkClassSizes {
  sizeof_ConcurrentQueue : Z;
  sizeof_ImplicitProducer : Z;
  sizeof_ImplicitEntry : Z;
  sizeof_ImplicitHeader : Z;
  sizeof_pointer : Z;
  sizeof_ExplicitProducer : Z;
  sizeof_ExplicitHeader : Z;
  sizeof_ExplicitEntry : Z
}.

Section stats.
Context {U T R : Type} (tr : Traits) (ops : ElementOps U T R) (sizes : ClassSizes).
#[local] Abbreviation Q := (ConcurrentQueue T).

(** ** The free list *)

Fixpoint count_free_list (fuel : nat) (block : loc) (count : Z) : M Q Z :=
  if block =? nullptr then ret count
  else
    match fuel with
    | O => faults OutOfFuel
    | S fuel =>
        let! nx := in_mem (zoom freeList set_freeList (load_next block)) in
        count_free_list fuel nx (count + 1)
    end.

(** ** Implicit producers *)

(** The entries of the index that hold a block, from slot [i] on. *)
Fixpoint count_entries (entries : gmap loc ImplicitEntry) (l : list loc) : option Z :=
  match l with
  | [] => Some 0
  | e :: l =>
      x ← entries !! e;
      n ← count_entries entries l;
      Some (n + if negb (entry_key x =? INVALID_BLOCK_BASE) && negb (entry_value x =? nullptr) then 1 else 0)
  end.

(** The bytes of the headers from [h] on. *)
Fixpoint implicit_header_bytes (fuel : nat) (hs : gmap loc ImplicitHeader) (h : loc) : option Z :=
  if h =? nullptr then Some 0
  else
    match fuel with
    | O => None
    | S fuel =>
        hd ← hs !! h;
        n ← implicit_header_bytes fuel hs (h_prev hd);
        Some (n + (sizeof_ImplicitHeader sizes + h_capacity hd * sizeof_pointer sizes))
    end.

(** [for (; circular_less_than(head, tail); head += BLOCK_SIZE) ++usedBlocks;] *)
Fixpoint count_used (fuel : nat) (head tail count : Z) : option Z :=
  if circular_less_than (index_bits tr) head tail then
    match fuel with
    | O => None
    | S fuel => count_used fuel (wrap (index_bits tr) (head + BLOCK_SIZE tr)) tail (count + 1)
    end
  else Some count.

(** The statistics of one implicit producer: its blocks, its used blocks, the
    bytes of its block index. *)
Definition implicit_stats (used_bound : nat) (p : ImplicitProducer) : option (Z * Z * Z) :=
  ob ← (if ip_blockIndex p =? nullptr then Some (0, 0)
        else
          hd ← ip_headers p !! ip_blockIndex p;
          owned ← count_entries (ip_entries p) (h_index hd);
          n ← implicit_header_bytes (base.size (ip_headers p)) (ip_headers p) (ip_blockIndex p);
          Some (owned, h_capacity hd * sizeof_ImplicitEntry sizes + n));
  used ← count_used used_bound (headIndex (ip_base p)) (tailIndex (ip_base p)) 0;
  Some (fst ob, used, snd ob).

(** ** Explicit producers *)

(** The ring of blocks from [block] on, counted into [blocks] and [used]. *)
Fixpoint count_ring (fuel : nat) (block tail : loc) (wasNonEmpty : bool) (blocks used : Z)
    : M (EState T) (Z * Z) :=
  match fuel with
  | O => faults OutOfFuel
  | S fuel =>
      let! empty := on_block block (Block.is_empty tr explicit_context) in
      let in_use := negb empty || wasNonEmpty in
      let! nx := on_block block (gets Block.next) in
      let used := if in_use then used + 1 else used in
      let wasNonEmpty := if in_use then wasNonEmpty || negb (block =? tail) else wasNonEmpty in
      if nx =? tail then ret (blocks + 1, used)
      else count_ring fuel nx tail wasNonEmpty (blocks + 1) used
  end.

Fixpoint explicit_header_bytes (fuel : nat) (hs : gmap loc BlockIndexHeader) (h : loc) : option Z :=
  if h =? nullptr then Some 0
  else
    match fuel with
    | O => None
    | S fuel =>
        hd ← hs !! h;
        n ← explicit_header_bytes fuel hs (prev hd);
        Some (n + (sizeof_ExplicitHeader sizes + size hd * sizeof_ExplicitEntry sizes))
    end.

Definition explicit_stats (bound : nat) : M (EState T) (Z * Z * Z) :=
  let! tb := getb tailBlock in
  let! counts := (if negb (tb =? nullptr) then count_ring bound tb tb false 0 0 else ret (0, 0)) in
  let! p := gets prod in
  let! n := deref NullDeref (explicit_header_bytes (base.size (headers p)) (headers p) (blockIndex p)) in
  ret (counts, n).

(** ** The walk over the producers *)

Definition add_implicit (owned used bytes : Z) (s : MemStats) : MemStats :=
  mkMemStats (allocatedBlocks s + owned) (usedBlocks s + used) (freeBlocks s)
    (ownedBlocksExplicit s) (ownedBlocksImplicit s + owned) (implicitProducers s + 1)
    (explicitProducers s) (elementsEnqueued s) (blockClassBytes s)
    (queueClassBytes s + sizeof_ImplicitProducer sizes) (implicitBlockIndexBytes s + bytes)
    (explicitBlockIndexBytes s).
Definition add_explicit (owned used bytes : Z) (s : MemStats) : MemStats :=
  mkMemStats (allocatedBlocks s + owned) (usedBlocks s + used) (freeBlocks s)
    (ownedBlocksExplicit s + owned) (ownedBlocksImplicit s) (implicitProducers s)
    (explicitProducers s + 1) (elementsEnqueued s) (blockClassBytes s)
    (queueClassBytes s + sizeof_ExplicitProducer sizes) (implicitBlockIndexBytes s)
    (explicitBlockIndexBytes s + bytes).
Definition add_free (n : Z) (s : MemStats) : MemStats :=
  mkMemStats (allocatedBlocks s + n) (usedBlocks s) (freeBlocks s + n)
    (ownedBlocksExplicit s) (ownedBlocksImplicit s) (implicitProducers s)
    (explicitProducers s) (elementsEnqueued s) (blockClassBytes s)
    (queueClassBytes s) (implicitBlockIndexBytes s) (explicitBlockIndexBytes s).

(** [used_bound] bounds the blocks between the head and the tail of a
    producer. *)
Fixpoint producer_stats (used_bound fuel : nat) (ptr : loc) (s : MemStats) : M Q MemStats :=
  if ptr =? nullptr then ret s
  else
    match fuel with
    | O => faults OutOfFuel
    | S fuel =>
        let! x := producer ptr in
        let! bound := gets (fun q => base.size (blocks (q_mem q))) in
        let! s :=
          match p_body x with
          | Implicit p =>
              let! r := deref NullDeref (implicit_stats used_bound p) in
              let '(owned, used, bytes) := r in ret (add_implicit owned used bytes s)
          | Explicit _ =>
              let! r := on_explicit ptr (explicit_stats bound) in
              let '(owned, used, bytes) := r in ret (add_explicit owned used bytes s)
          end in
        let! nx := next_prod ptr in
        producer_stats used_bound fuel nx s
    end.

Definition getMemStats (used_bound : nat) : M Q MemStats :=
  let! elements := queue_size_approx tr (SubQueues0 := queue_sub_queues tr ops) in
  let! m := gets q_mem in
  let! head := in_mem (zoom freeList set_freeList head_unsafe) in
  let! free := count_free_list (base.size (blocks m)) head 0 in
  let s := add_free free (mkMemStats 0 0 0 0 0 0 0 elements 0 0 0 0) in
  let! tail := gets producerListTail in
  let! n := gets (fun q => base.size (producers q)) in
  let! s := producer_stats used_bound n tail s in
  let freeOnInitialPool :=
    if initialBlockPoolSize m <=? initialBlockPoolIndex m then 0
    else initialBlockPoolSize m - initialBlockPoolIndex m in
  let s := add_free freeOnInitialPool s in
  ret (mkMemStats (allocatedBlocks s) (usedBlocks s) (freeBlocks s) (ownedBlocksExplicit s)
         (ownedBlocksImplicit s) (implicitProducers s) (explicitProducers s) (elementsEnqueued s)
         (sizeof_Block tr * allocatedBlocks s)
         (queueClassBytes s + sizeof_ConcurrentQueue sizes)
         (implicitBlockIndexBytes s) (explicitBlockIndexBytes s)).
End stats.
